(* ===== verification/_CoqProject ===== *)
-Q . S2P
Prelude.v
Text.v
JsonText.v
Json.v
Effects.v
Task.v
TaskRace.v
NodeQueue.v
LockFree.v
SkipList.v
TaskGraph.v
GraphAlgo.v
Dot.v
QueueManager.v
GroupQueues.v
QueueSpec.v
QueueRefine.v
QueueProps.v
QueueModes.v
QueueDemo.v
ThreadPool.v
Storage.v
StorageText.v
StorageRefine.v
StorageProps.v
Regex.v
CLICommands.v
CLIProps.v
TCPServer.v
CLIReplies.v
CLIStatus.v
CLIEnqueue.v
CLIFiles.v
ServerFrames.v
ServerProps.v
Main.v
NetDemo.v
