(* ===== verification/Prelude.v ===== *)
(** * TaskQueueX (AxonQueue): verification development

    The program is a task queue server.  Clients hand in tasks over TCP
    (src/network), a manager files them in per-group queues (src/core), a thread
    pool runs them, and tasks are kept in a key-value store with a write-ahead log
    (src/persistence); main.cpp puts the parts together.  This library models every
    part and proves what it promises to the others.

    ** Parts of the program and where they are modelled

    - Task (include/core/Task.hpp, src/core/Task.cpp): an object with a status
      machine, retry counters, weak references to the tasks it depends on, and a
      JSON form.  [Task.v] has the object as a record, one function per method,
      and the store of live objects.  [TaskRace.v] takes the same methods apart
      into their atomic actions and interleaves any number of threads.
    - Libraries the parts share: [Text.v] is what the sources use of std::string and
      of the number conversions, [Effects.v] the monad of computations with state,
      exceptions, undefined behaviour and divergence, with a Hoare predicate for
      invariants.  [Json.v] is the interface of the JSON library the code calls
      (nlohmann::json, not part of the sources), with the laws the code relies on
      and one implementation that satisfies them, whose printer and parser are in
      [JsonText.v].
    - The queue classes (include/utils/DataStructures.hpp): [NodeQueue.v] has the
      heap of TaskNodes and the interface the manager uses, as a class of
      operations with its laws; [LockFree.v] models IntrusiveList, LockFreeQueue
      and LockFreeStack, [SkipList.v] models LockFreePriorityQueue, and both
      discharge the interface.
    - TaskGraph and the graph functions (include/utils/DataStructures.hpp,
      src/utils/DataStructures.cpp): [TaskGraph.v] has the two edge maps and the
      methods of the class, [GraphAlgo.v] hasCycle, findCriticalPath and
      calculateTaskLevels, [Dot.v] the two DOT writers.
    - QueueManager (include/core/QueueManager.hpp, src/core/QueueManager.cpp):
      [QueueManager.v] has its members and one definition per member function,
      calling the definitions above.  [GroupQueues.v] proves its loops over a map
      of queues once, for any class that satisfies the interface.  [QueueSpec.v]
      states what the manager promises, as a step relation on the tasks filed per
      group; [QueueRefine.v] proves the simulation; [QueueProps.v] and
      [QueueModes.v] draw the consequences, [QueueDemo.v] applies them to a small
      manager in each mode.
    - ThreadPool (include/core/ThreadPool.hpp, src/core/ThreadPool.cpp):
      [ThreadPool.v] has the pool with its workers as control points inside
      workerFunction, the atomic steps of a worker, and the control methods.
    - Storage (include/persistence/Storage.hpp, src/persistence/Storage.cpp):
      [Storage.v] has the class [RocksDB] of the calls the code makes with its laws,
      the Storage object and BatchOperation, one definition per member function, and
      a database in memory ([MapDB]).  [StorageText.v] proves the keys and texts,
      [StorageRefine.v] states the abstract store (a map of tasks, a numbered log and
      two counters) and proves the simulation, [StorageProps.v] the consequences.
    - CLICommands (include/network/CLICommands.hpp, src/network/CLICommands.cpp):
      [CLICommands.v] has the commands over the manager, the storage pool and the
      files, [Regex.v] the matcher behind validateCronExpression.  [CLIProps.v] has
      batchProcess, the cron expression and the DOT writer of the graph command,
      [CLIEnqueue.v] the enqueue command over manager and storage, [CLIFiles.v]
      export, import, list, ready and setSchedule, [CLIReplies.v] the form of every
      answer and [CLIStatus.v] what holds after any sequence of commands.
    - TCPServer (include/network/TCPServer.hpp, src/network/TCPServer.cpp):
      [TCPServer.v] has sessions, dispatch, accepting, monitoring, request workers,
      start and stop, as computations fired by events.  [ServerFrames.v] proves the
      framing equal to a reference parser, [ServerProps.v] the properties of runs.
    - main (src/main.cpp): [Main.v]; [NetDemo.v] applies the theorems about commands,
      server and main to a small server with one session.

    ** How code becomes definitions

    State is passed explicitly.  A pointer is an address ([loc]) into a finite
    map of live objects; null is [None].  A method that can throw, be undefined
    (a null or freed pointer, an uninitialised slot) or loop returns an
    [outcome]; where the code threads state through many calls it is a computation
    of the monad [M], whose [try_catch] catches [Throw] only and keeps the state.
    A [size_t], [uint64_t] or [uint32_t] is an integer reduced modulo its width
    where the code computes with it ([w64], [w32]); [int] conversions use [s32].
    Time points are nanoseconds, read from an argument.  The iteration order of
    unordered containers is an argument ([IterOrder]) and theorems hold for every
    order.  The weak compare-exchange loops take the number of spurious failures as
    input ([choices]); random levels of the skip list likewise.  What the outside
    decides (bytes that arrive, failing writes, which thread runs next) is an event
    or an argument, and theorems hold for all of them.

    Fuel: a loop whose recursion is not structural takes fuel and the callers
    pass a bound that is proved to be enough: the number of ids of a graph for the
    depth-first searches (each call marks a new id), the number of tasks for
    chains of dependencies and for the DOT writer of the graph command (a longer
    chain repeats a task, and the recursion does not end), the number of nodes for
    walks along a linked list and for draining a queue, the number of items for the
    batches of batchProcess, the length of the text for the parser and the regular
    expression.  [Diverge] is the value of a run that needs more, so a theorem that
    an operation returns says that its value is [Ret].

    ** What the theorems show

    - Task: the status only moves along the life cycle, a task is started at most
      [max_retries + 1] times, under any interleaving the retry count keeps its
      bound and a completed task is never restarted; the JSON form round-trips.
    - Queue classes: each refines a list (first in first out, last in first out,
      sorted by priority), never reads a freed or uninitialised cell, and its
      loops end.
    - Graph: the two edge maps stay inverse to each other, updates change exactly
      the edges they should, subgraphs are the reachable tasks; cycle detection is
      exact, levels are longest chains, critical paths are chains from the root,
      the DOT text determines the graph.
    - QueueManager: every run of calls returns and is a trace of the
      specification; no task is lost or duplicated, also by mode changes; FIFO
      order, greatest priority first, round-robin fairness, progress; dependency
      queries and sizes are right.
    - ThreadPool: under every interleaving each submitted task is queued, in the
      hands of one worker, or executed once; stop ends after a bounded number of
      steps and leaves nothing in flight.
    - Storage: every run of calls, restarts and failing writes included, returns and
      is a trace of the abstract store; a task whose save succeeded is loaded back; the
      log is replayed without loss; a backup is restored as it was.
    - CLICommands: an enqueued task is filed, stored and answered with its id; every
      answer has the form clients expect; the cron check accepts exactly five words;
      the graph command returns exactly on acyclic dependencies; export followed by
      import copies a task.
    - TCPServer: requests are cut from the byte stream independently of how it
      arrives; a session never has two operations or requests on their way; a request
      gets its own response as one message; connections are counted right.
    - main: every way out releases the server, the pool and the database.
    - Where the code does not do what its comments or the README say, the theorem
      states what it does: a cancelled task stays filed and can strand another one,
      a group with the empty name blocks the PRIORITY mode, nodes leak there, a
      FIFO-LIFO-FIFO round trip reverses the order, the critical path need not be
      the longest one, [removeTask] leaves stale dependents, [cancel] races, a pool
      made smaller never runs again, submitted tasks keep the status CREATED; the
      log is replayed in the order of its keys as texts, a batch does not see its own
      writes, ids are used again after a restart, an unchecked counter loses a log
      entry; the pool of storages is never opened, cancel and kill always fail, list
      ignores the state, ready the dependencies, and setSchedule forgets the schedule;
      a session that idled for five minutes or was stopped is used after its
      destruction, and a header without a number ends the program.

    ** What is a parameter

    The JSON library ([JsonLib]); RocksDB and its backup engine ([RocksDB]); of
    Boost.Asio the documented completion behaviour, as events; the parser of
    Boost.ProgramOptions; whether OpenSSL accepts a certificate and a key; the
    conversion of a list of tasks and of a map of doubles to JSON; the order in which
    the threads of batchProcess append their results.  Functions that are called and
    never defined: Task::markCancelled (a function that keeps the priority), the pure
    virtual Task::execute, which may return or throw, Storage::getConfig, the
    members of the queue manager that the thread pool calls and QueueManager lacks
    ([PoolQueue]), and what main uses to make the server ([make_server],
    [enableTLS]).  The loop header missing from LockFreePriorityQueue::enqueue
    ([SearchLoop], any descending sequence of levels that covers the new node).

    ** What is not modelled

    The queue operations run one at a time, as queue_mutex_ makes them; a command is
    one step of its worker, and so is each section that holds a lock, so races between
    two commands on one task or on the log (appendToWAL takes no lock) are not seen.
    Other interleavings of the lock-free classes, memory orders and lock acquisition
    are left out, as are doubles beyond the expression that computes them, failures of
    std::ofstream, and the life time of the buffer passed to async_write (the message is
    taken as it was at the call).  Twelve commands and parseScheduleTime are declared in
    CLICommands.hpp without a body in the sources and have no definition. *)

From stdpp Require Export base list gmap strings numbers sets relations sorting.
From Stdlib Require Export ZArith Lia.

Set Default Goal Selector "!".
Global Open Scope Z_scope.

(** ** Machine integers

    [w64]/[w32] are the reductions C++ performs on [uint64_t]/[size_t] and
    [uint32_t]; [s32] is the value a conversion to [int] keeps. *)

Definition w64 (z : Z) : Z := z mod 2 ^ 64.

Definition w32 (z : Z) : Z := z mod 2 ^ 32.

Definition s32 (z : Z) : Z := (z + 2 ^ 31) mod 2 ^ 32 - 2 ^ 31.

(** The integral types of the source, and the conversion [static_cast] performs
    to each of them (modulo the width, as C++20 fixes it). *)
Inductive int_ty : Type := U64 | I64 | U32 | I32.

Definition s64 (z : Z) : Z := (z + 2 ^ 63) mod 2 ^ 64 - 2 ^ 63.

Definition conv (ty : int_ty) (z : Z) : Z :=
  match ty with
  | U64 => w64 z
  | I64 => s64 z
  | U32 => w32 z
  | I32 => s32 z
  end.

Definition INT_MIN : Z := - 2 ^ 31.

Definition INT_MAX : Z := 2 ^ 31 - 1.

(** ** Outcomes of C++ code

    [Ret] is a normal return, [Throw] an exception with its [what()] text,
    [Undef] undefined behaviour (null or dangling dereference, read of an
    uninitialised slot, missing key of a const [operator[]]), [Diverge] a loop
    that used all the fuel the model gives it.  Theorems that an operation
    returns state that its outcome is [Ret]. *)

Inductive outcome (A : Type) : Type :=
| Ret (a : A)
| Throw (what : string)
| Undef
| Diverge.

Arguments Ret {A} a.
Arguments Throw {A} what.
Arguments Undef {A}.
Arguments Diverge {A}.

Global Instance outcome_ret : MRet outcome := λ A a, Ret a.

Global Instance outcome_bind : MBind outcome := λ A B f m,
  match m with
  | Ret a => f a
  | Throw s => Throw s
  | Undef => Undef
  | Diverge => Diverge
  end.

(** Object addresses ([T *], and the address a [shared_ptr] or [weak_ptr] holds);
    a null pointer is [None] of [option loc]. *)
Abbreviation loc := positive (only parsing).

(** A pointer or slot that must be present: absence is undefined behaviour. *)
Definition deref {A} (o : option A) : outcome A :=
  match o with
  | Some a => Ret a
  | None => Undef
  end.

(** ** Iteration over unordered containers

    The iteration order of [std::unordered_map] and [std::unordered_set] is
    unspecified: an [IterOrder] is one possible choice, and every definition
    that walks such a container takes one.  Theorems hold for all of them. *)

Class IterOrder (K : Type) `{Countable K} := {
  iter : gset K → list K;
  iter_perm (X : gset K) : iter X ≡ₚ elements X
}.

Definition iter_elements (K : Type) `{Countable K} : IterOrder K :=
  {| iter X := elements X; iter_perm X := Permutation_refl _ |}.

(** The reverse of the canonical order: a second concrete choice. *)
Definition iter_reverse (K : Type) `{Countable K} : IterOrder K :=
  {| iter X := reverse (elements X); iter_perm X := reverse_Permutation _ |}.

(** The (key, value) pairs of a map in iteration order. *)
Definition map_iter {K V} `{IterOrder K} (m : gmap K V) : list (K * V) :=
  omap (λ k, (k,.) <$> m !! k) (iter (dom m)).

(** ** Automation *)

Create HintDb axon discriminated.
Create Rewrite HintDb axon_rw.

(** Split every conjunction and existential of the context. *)
Ltac split_hyps := repeat match goal with
  | H : _ ∧ _ |- _ => destruct H
  | H : ∃ _, _ |- _ => destruct H
  end.

(** Run a computation in the outcome monad one step. *)
Ltac step_outcome := progress (cbn [mbind outcome_bind deref mret outcome_ret]).

(** Case analysis on every bind of a hypothesis [m ≫= f = Ret x]. *)
Ltac inv_outcome H := repeat match type of H with
  | (mbind _ ?m = Ret _) => let E := fresh "E" in
      destruct m eqn:E; cbn [mbind outcome_bind] in H; try discriminate H
  | (outcome_bind _ _ _ ?m = Ret _) => let E := fresh "E" in
      destruct m eqn:E; cbn [mbind outcome_bind] in H; try discriminate H
  end.

(** ** Machine-integer lemmas *)

Lemma w64_range z : 0 ≤ w64 z < 2 ^ 64.
Proof. apply Z.mod_pos_bound. lia. Qed.

Lemma w64_small z : 0 ≤ z < 2 ^ 64 → w64 z = z.
Proof. apply Z.mod_small. Qed.

Lemma w64_add_l a b : w64 (w64 a + b) = w64 (a + b).
Proof. unfold w64. by rewrite Zplus_mod_idemp_l. Qed.

Lemma w64_sub_l a b : w64 (w64 a - b) = w64 (a - b).
Proof. unfold w64. by rewrite Zminus_mod_idemp_l. Qed.

Lemma w64_w64 a : w64 (w64 a) = w64 a.
Proof. unfold w64. by rewrite Zmod_mod. Qed.

Lemma w64_cancel a b c : w64 (a + c) = w64 (b + c) → w64 a = w64 b.
Proof.
  intros Heq.
  replace a with (a + c - c) by lia. replace b with (b + c - c) by lia.
  rewrite <-(w64_sub_l (a + c)), <-(w64_sub_l (b + c)). by rewrite Heq.
Qed.

Lemma s32_range z : INT_MIN ≤ s32 z ≤ INT_MAX.
Proof. unfold s32, INT_MIN, INT_MAX. pose proof (Z.mod_pos_bound (z + 2^31) (2^32)). lia. Qed.

Lemma s32_small z : INT_MIN ≤ z ≤ INT_MAX → s32 z = z.
Proof. unfold s32, INT_MIN, INT_MAX. intros. rewrite Z.mod_small; lia. Qed.

Lemma conv_id ty z :
  match ty with
  | U64 => 0 ≤ z < 2 ^ 64
  | I64 => - 2 ^ 63 ≤ z < 2 ^ 63
  | U32 => 0 ≤ z < 2 ^ 32
  | I32 => INT_MIN ≤ z ≤ INT_MAX
  end → conv ty z = z.
Proof.
  destruct ty; cbn; intros.
  - by apply w64_small.
  - unfold s64. rewrite Z.mod_small; lia.
  - by apply Z.mod_small.
  - by apply s32_small.
Qed.

#[export] Hint Rewrite w64_add_l w64_sub_l w64_w64 : axon_rw.
#[export] Hint Resolve w64_range s32_range : axon.

(** ** Outcome lemmas *)

Lemma deref_Ret {A} (o : option A) (a : A) : deref o = Ret a ↔ o = Some a.
Proof. destruct o; naive_solver. Qed.

Lemma bind_Ret {A B} (m : outcome A) (f : A → outcome B) (b : B) :
  m ≫= f = Ret b ↔ ∃ a, m = Ret a ∧ f a = Ret b.
Proof. destruct m; naive_solver. Qed.

(** ** Iteration-order lemmas *)

Section iteration.
Context `{IterOrder K}.

Lemma elem_of_iter (X : gset K) k : k ∈ iter X ↔ k ∈ X.
Proof. by rewrite iter_perm, elem_of_elements. Qed.

Lemma NoDup_iter (X : gset K) : NoDup (iter X).
Proof. rewrite iter_perm. apply NoDup_elements. Qed.

Lemma length_iter (X : gset K) : length (iter X) = size X.
Proof. by rewrite iter_perm. Qed.

Lemma iter_empty : iter (∅ : gset K) = [].
Proof. apply length_zero_iff_nil. by rewrite length_iter. Qed.

Lemma elem_of_map_iter {V} (m : gmap K V) k v : (k, v) ∈ map_iter m ↔ m !! k = Some v.
Proof.
  unfold map_iter. rewrite list_elem_of_omap. split.
  - intros (k' & _ & Hk'). destruct (m !! k') eqn:E; simplify_eq/=. done.
  - intros Hk. exists k. rewrite elem_of_iter, Hk. split; [by apply elem_of_dom_2 in Hk | done].
Qed.

Lemma map_iter_fst {V} (m : gmap K V) : (map_iter m).*1 = iter (dom m).
Proof.
  unfold map_iter.
  assert (Hin : ∀ k, k ∈ iter (dom m) → is_Some (m !! k)).
  { intros k Hk. by apply elem_of_dom, elem_of_iter. }
  induction (iter (dom m)) as [|k l IH]; [done|]. cbn.
  destruct (Hin k) as [v Hv]; [set_solver|]. rewrite Hv. cbn.
  f_equal. apply IH. set_solver.
Qed.

Lemma NoDup_map_iter {V} (m : gmap K V) : NoDup (map_iter m).
Proof. apply (NoDup_fmap_1 fst). rewrite map_iter_fst. apply NoDup_iter. Qed.

Lemma map_iter_perm {V} (m : gmap K V) : map_iter m ≡ₚ map_to_list m.
Proof.
  apply NoDup_Permutation; [apply NoDup_map_iter | apply NoDup_map_to_list |].
  intros [k v]. by rewrite elem_of_map_iter, elem_of_map_to_list.
Qed.
End iteration.

#[export] Hint Resolve NoDup_iter NoDup_map_iter : axon.
