(* ===== verification/Text.v ===== *)
(** * std::string as the network and storage code uses it

    Searching and cutting strings, [std::to_string], [std::stoul] and
    [std::stoull], and the bytewise order of keys ([String.le]), with the lemmas
    that relate a printed number to what is read back from it. *)

From stdpp Require Import pretty.
From Stdlib Require Import Ascii.
From S2P Require Import Prelude.

(** [std::to_string] of an unsigned integer. *)
Definition to_string (n : Z) : string := pretty n.

(** [s.substr(n)] and [s.substr(0, n)]. *)
Fixpoint str_drop (n : nat) (s : string) : string :=
  match n, s with
  | S n, String _ s => str_drop n s
  | _, _ => s
  end.

Fixpoint str_take (n : nat) (s : string) : string :=
  match n, s with
  | S n, String c s => String c (str_take n s)
  | _, _ => EmptyString
  end.

(** [s] begins with [pat]. *)
Fixpoint starts_with (pat s : string) : bool :=
  match pat, s with
  | EmptyString, _ => true
  | String c pat, String d s => bool_decide (c = d) && starts_with pat s
  | String _ _, EmptyString => false
  end.

(** [s.find(pat)]: the position of the first occurrence, [None] for [npos]. *)
Fixpoint find (pat s : string) : option nat :=
  if starts_with pat s then Some 0%nat
  else match s with
       | EmptyString => None
       | String _ s => S <$> find pat s
       end.

(** A decimal number at the front of [s]: its value added to [acc], and the rest. *)
Fixpoint span_digits (s : string) (acc : Z) : Z * string :=
  match s with
  | String c s' =>
      match Ascii.is_nat c with
      | Some d => span_digits s' (10 * acc + Z.of_nat d)
      | None => (acc, s)
      end
  | EmptyString => (acc, EmptyString)
  end.

Fixpoint skip_space (s : string) : string :=
  match s with
  | String c s' => if Ascii.is_space c then skip_space s' else s
  | EmptyString => EmptyString
  end.

Definition starts_digit (s : string) : bool :=
  match s with
  | String c _ => match Ascii.is_nat c with Some _ => true | None => false end
  | EmptyString => false
  end.

(** [std::stoul]/[std::stoull] in base 10 on a 64-bit target: leading white
    space, an optional sign, then digits up to the first other character; without
    a digit [std::invalid_argument], above 64 bits [std::out_of_range] (both carry
    the function's name), a negative value is taken modulo the width. *)
Definition sto_unsigned (fn : string) (s : string) : outcome Z :=
  let s := skip_space s in
  let '(neg, s) := match s with
                   | String "-" s' => (true, s')
                   | String "+" s' => (false, s')
                   | _ => (false, s)
                   end in
  if starts_digit s then
    let v := (span_digits s 0).1 in
    if decide (v < 2 ^ 64) then Ret (if (neg : bool) then w64 (- v) else v) else Throw fn
  else Throw fn.

Definition stoull : string → outcome Z := sto_unsigned "stoull".
Definition stoul : string → outcome Z := sto_unsigned "stoul".

Definition str_len (s : string) : Z := Z.of_nat (String.length s).

(** ** Cutting *)

#[local] Arguments String.append : simpl nomatch.

Lemma str_app_nil_r s : s +:+ "" = s.
Proof. induction s; cbn; congruence. Qed.

Lemma str_app_assoc a b c : (a +:+ b) +:+ c = a +:+ (b +:+ c).
Proof. induction a; cbn; congruence. Qed.

Lemma str_length_app a b : String.length (a +:+ b) = (String.length a + String.length b)%nat.
Proof. induction a; cbn; congruence. Qed.

Lemma str_take_app a b n : n = String.length a → str_take n (a +:+ b) = a.
Proof. intros ->. induction a; cbn; congruence. Qed.

Lemma str_drop_app a b n : n = String.length a → str_drop n (a +:+ b) = b.
Proof. intros ->. by induction a. Qed.

Lemma str_take_drop n s : str_take n s +:+ str_drop n s = s.
Proof. revert s. induction n as [|n IH]; intros [|c s]; cbn; [done..|]. by rewrite IH. Qed.

Lemma starts_with_app pat s : starts_with pat (pat +:+ s) = true.
Proof. induction pat as [|c pat IH]; cbn; [done|]. by rewrite bool_decide_true. Qed.

Lemma starts_with_spec pat s : starts_with pat s = true ↔ ∃ t, s = pat +:+ t.
Proof.
  split; [|intros [t ->]; apply starts_with_app].
  revert s. induction pat as [|c pat IH]; intros s; cbn; [by eauto|].
  destruct s as [|d s]; [done|]. intros [->%bool_decide_eq_true Hs]%andb_prop.
  destruct (IH _ Hs) as [t ->]. by exists t.
Qed.

(** [key.find(prefix) != 0] is how the sources test a prefix. *)
Lemma find_0 pat s : find pat s = Some 0%nat ↔ starts_with pat s = true.
Proof.
  destruct s as [|c s]; cbn; destruct (starts_with pat _); cbn; [by split..|by split|].
  destruct (find pat s); cbn; by split.
Qed.

Lemma find_head pat s : starts_with pat s = true → find pat s = Some 0%nat.
Proof. by rewrite find_0. Qed.

(** ** Numbers *)

Lemma pretty_N_go_app x s t : pretty_N_go x s +:+ t = pretty_N_go x (s +:+ t).
Proof.
  revert s. induction (N.lt_wf_0 x) as [x _ IH]; intros s.
  destruct (decide (x = 0)%N) as [->|Hx]; [by rewrite !pretty_N_go_0|].
  rewrite !(pretty_N_go_step x) by lia. rewrite IH by (apply N.div_lt; lia). done.
Qed.

Lemma is_nat_char (d : N) : (d < 10)%N → Ascii.is_nat (pretty_N_char d) = Some (N.to_nat d).
Proof.
  intros Hd. assert (d = 0 ∨ d = 1 ∨ d = 2 ∨ d = 3 ∨ d = 4 ∨ d = 5 ∨ d = 6 ∨ d = 7 ∨ d = 8 ∨ d = 9)%N
    as H by lia. by repeat destruct H as [->|H]; subst.
Qed.

Lemma span_digits_go x s : span_digits (pretty_N_go x s) 0 = span_digits s (Z.of_N x).
Proof.
  revert s. induction (N.lt_wf_0 x) as [x _ IH]; intros s.
  destruct (decide (x = 0)%N) as [->|Hx]; [by rewrite pretty_N_go_0|].
  rewrite pretty_N_go_step by lia. rewrite IH by (apply N.div_lt; lia). cbn.
  pose proof (N.mod_lt x 10). rewrite is_nat_char by lia. f_equal.
  rewrite N_nat_Z, N2Z.inj_mod, N2Z.inj_div. pose proof (Z.div_mod (Z.of_N x) 10). lia.
Qed.

Lemma starts_digit_go x s : (0 < x)%N → starts_digit (pretty_N_go x s) = true.
Proof.
  revert s. induction (N.lt_wf_0 x) as [x _ IH]; intros s Hx. rewrite pretty_N_go_step by lia.
  destruct (decide (x < 10)%N) as [Hlt|Hge].
  - rewrite N.div_small, pretty_N_go_0 by lia. cbn.
    by rewrite is_nat_char by (apply N.mod_lt; lia).
  - apply IH; [apply N.div_lt; lia|]. apply N.div_str_pos. lia.
Qed.

Lemma to_string_pos n : 0 < n → to_string n = pretty_N_go (Z.to_N n) "".
Proof.
  intros Hn. destruct n as [|p|p]; [lia| |lia].
  unfold to_string, pretty, pretty_Z, pretty, pretty_positive, pretty, pretty_N.
  by rewrite decide_False by done.
Qed.

(** The number a printed number followed by no digit is read back as. *)
Lemma span_digits_to_string n rest : 0 ≤ n → starts_digit rest = false →
  span_digits (to_string n +:+ rest) 0 = (n, rest).
Proof.
  intros Hn Hrest. assert (Hr : ∀ acc, span_digits rest acc = (acc, rest)).
  { intros acc. destruct rest as [|c rest]; [done|]. cbn in *. by destruct (Ascii.is_nat c). }
  destruct (decide (n = 0)) as [->|Hnz]; [apply (Hr 0)|].
  rewrite to_string_pos by lia. rewrite pretty_N_go_app, span_digits_go. cbn. rewrite Hr.
  by rewrite Z2N.id by lia.
Qed.

Lemma starts_digit_to_string n rest : 0 ≤ n → starts_digit (to_string n +:+ rest) = true.
Proof.
  intros Hn. destruct (decide (n = 0)) as [->|Hnz]; [done|].
  rewrite to_string_pos by lia. rewrite pretty_N_go_app. apply starts_digit_go. lia.
Qed.

Lemma digit_no_space c d : Ascii.is_nat c = Some d → Ascii.is_space c = false ∧ c ≠ "-"%char ∧ c ≠ "+"%char.
Proof. destruct c as [[] [] [] [] [] [] [] []]; cbn; intros; by simplify_eq. Qed.

Lemma sto_unsigned_to_string fn n sp rest :
  0 ≤ n < 2 ^ 64 → skip_space sp = "" → starts_digit rest = false →
  sto_unsigned fn (sp +:+ to_string n +:+ rest) = Ret n.
Proof.
  intros Hn Hsp Hrest.
  assert (Hskip : skip_space (sp +:+ to_string n +:+ rest) = to_string n +:+ rest).
  { induction sp as [|c sp IH]; cbn in *; [|destruct (Ascii.is_space c); [by apply IH | done]].
    pose proof (starts_digit_to_string n rest) as Hd.
    destruct (to_string n +:+ rest) as [|c s]; [done|]. cbn in *.
    destruct (Ascii.is_nat c) eqn:E; [|by specialize (Hd ltac:(lia))].
    by destruct (digit_no_space c _ E) as [-> _]. }
  unfold sto_unsigned. rewrite Hskip.
  pose proof (starts_digit_to_string n rest ltac:(lia)) as Hd.
  pose proof (span_digits_to_string n rest ltac:(lia) Hrest) as Hspan.
  destruct (to_string n +:+ rest) as [|c s] eqn:E; [done|].
  assert (Hc : c ≠ "-"%char ∧ c ≠ "+"%char).
  { cbn in Hd. destruct (Ascii.is_nat c) eqn:Ec; [|done]. by eapply digit_no_space. }
  assert (Hcase : match c with
                  | "-"%char => (true, s) | "+"%char => (false, s) | _ => (false, String c s)
                  end = (false, String c s)).
  { destruct Hc as [H1 H2]. destruct c as [[] [] [] [] [] [] [] []]; done. }
  rewrite Hcase, Hd, Hspan. cbn. by rewrite decide_True by lia.
Qed.

(** [std::stoull(std::to_string(n))] gives [n] back. *)
Lemma stoull_to_string n : 0 ≤ n < 2 ^ 64 → stoull (to_string n) = Ret n.
Proof.
  intros Hn. rewrite <-(str_app_nil_r (to_string n)). by apply (sto_unsigned_to_string "stoull" n "" "").
Qed.

Lemma to_string_inj a b : to_string a = to_string b → a = b.
Proof. apply (inj pretty). Qed.

(** ** The order of keys *)

Lemma ascii_compare_refl c : Ascii.compare c c = Eq.
Proof. apply N.compare_refl. Qed.

Lemma compare_refl s : String.compare s s = Eq.
Proof. induction s as [|c s IH]; [done|]. cbn. by rewrite ascii_compare_refl. Qed.

Lemma compare_app p a b : String.compare (p +:+ a) (p +:+ b) = String.compare a b.
Proof. induction p as [|c p IH]; [done|]. cbn. by rewrite ascii_compare_refl. Qed.

Lemma compare_go x s t : String.compare (pretty_N_go x s) (pretty_N_go x t) = String.compare s t.
Proof.
  revert s t. induction (N.lt_wf_0 x) as [x _ IH]; intros s t.
  destruct (decide (x = 0)%N) as [->|Hx]; [by rewrite !pretty_N_go_0|].
  rewrite !(pretty_N_go_step x) by lia. rewrite IH by (apply N.div_lt; lia). cbn.
  by rewrite ascii_compare_refl.
Qed.

Lemma compare_char (x y : N) : (x < y)%N → (y < 10)%N →
  Ascii.compare (pretty_N_char x) (pretty_N_char y) = Lt.
Proof.
  intros Hxy Hy.
  assert (Hx : (x = 0 ∨ x = 1 ∨ x = 2 ∨ x = 3 ∨ x = 4 ∨ x = 5 ∨ x = 6 ∨ x = 7 ∨ x = 8)%N) by lia.
  assert (Hy' : (y = 1 ∨ y = 2 ∨ y = 3 ∨ y = 4 ∨ y = 5 ∨ y = 6 ∨ y = 7 ∨ y = 8 ∨ y = 9)%N) by lia.
  by repeat destruct Hx as [->|Hx]; subst; repeat destruct Hy' as [->|Hy']; subst; try lia.
Qed.

(** Printed numbers with the same number of digits are ordered as numbers. *)
Lemma compare_go_lt (k : nat) x y s t :
  (10 ^ N.of_nat k ≤ x)%N → (x < y)%N → (y < 10 ^ N.of_nat (S k))%N →
  String.compare (pretty_N_go x s) (pretty_N_go y t) = Lt.
Proof.
  revert x y s t. induction k as [|k IH]; intros x y s t Hx Hxy Hy.
  - rewrite (pretty_N_go_step x), (pretty_N_go_step y) by (cbn in Hx; lia).
    rewrite !N.div_small by (cbn in *; lia). rewrite !pretty_N_go_0.
    rewrite !N.mod_small by (cbn in *; lia). cbn [String.compare].
    by rewrite compare_char by (cbn in *; lia).
  - rewrite Nat2N.inj_succ, N.pow_succ_r' in Hx, Hy. rewrite (Nat2N.inj_succ k), N.pow_succ_r' in Hy.
    pose proof (N.pow_nonzero 10 (N.of_nat k)).
    rewrite (pretty_N_go_step x), (pretty_N_go_step y) by lia.
    assert (Hdiv : (x / 10 ≤ y / 10)%N) by (apply N.Div0.div_le_mono; lia).
    destruct (decide (x / 10 = y / 10)%N) as [Heq|Hne].
    + rewrite Heq, compare_go. cbn [String.compare]. pose proof (N.div_mod x 10). pose proof (N.div_mod y 10).
      rewrite compare_char; [done|lia|]. apply N.mod_lt. lia.
    + apply IH; [apply N.div_le_lower_bound; lia|lia|].
      apply N.Div0.div_lt_upper_bound. rewrite Nat2N.inj_succ, N.pow_succ_r'. lia.
Qed.

Lemma to_string_lt (k : nat) a b :
  10 ^ Z.of_nat k ≤ a → a < b → b < 10 ^ Z.of_nat (S k) →
  String.compare (to_string a) (to_string b) = Lt.
Proof.
  intros Ha Hab Hb. pose proof (Z.pow_pos_nonneg 10 (Z.of_nat k)).
  rewrite !to_string_pos by lia. apply (compare_go_lt k); [| lia |].
  - apply N2Z.inj_le. rewrite N2Z.inj_pow, Z2N.id, nat_N_Z by lia. done.
  - apply N2Z.inj_lt. rewrite N2Z.inj_pow, Z2N.id, nat_N_Z by lia. done.
Qed.
