(* ===== verification/JsonText.v ===== *)
(** * A concrete JSON text form

    nlohmann::json is not part of the sources, and the development reaches it only
    through the interface of [Json.v].  This file has the value type of the one
    implementation that the examples run on, its printer and its parser, and shows
    that parsing what was printed gives the value back. *)

From stdpp Require Import pretty.
From Stdlib Require Import Ascii.
From S2P Require Import Prelude Text.

#[local] Arguments String.append : simpl nomatch.

Module TreeText.

Inductive tree : Type :=
| JNull
| JNum (z : Z)
| JStr (s : string)
| JArr (l : list tree)
| JObj (fields : list (string * tree)).

(** Induction through the two lists. *)
Fixpoint tree_ind' (P : tree → Prop) (Hnull : P JNull) (Hnum : ∀ z, P (JNum z))
    (Hstr : ∀ s, P (JStr s)) (Harr : ∀ l, Forall P l → P (JArr l))
    (Hobj : ∀ fs, Forall (λ kv, P kv.2) fs → P (JObj fs)) (t : tree) : P t :=
  let rec := tree_ind' P Hnull Hnum Hstr Harr Hobj in
  match t with
  | JNull => Hnull
  | JNum z => Hnum z
  | JStr s => Hstr s
  | JArr l => Harr l ((fix go l : Forall P l :=
                         match l with
                         | [] => Forall_nil_2 P
                         | x :: l => Forall_cons_2 P x l (rec x) (go l)
                         end) l)
  | JObj fs => Hobj fs ((fix go fs : Forall (λ kv, P kv.2) fs :=
                           match fs with
                           | [] => Forall_nil_2 _
                           | kv :: fs => Forall_cons_2 _ kv fs (rec kv.2) (go fs)
                           end) fs)
  end.

Definition dq : ascii := "034"%char.
Definition bs : ascii := "092"%char.

(** A string literal without its opening quote: quotes and backslashes escaped. *)
Fixpoint quote_tail (s : string) : string :=
  match s with
  | EmptyString => String dq EmptyString
  | String c s =>
      if bool_decide (c = dq) || bool_decide (c = bs) then String bs (String c (quote_tail s))
      else String c (quote_tail s)
  end.

Fixpoint unquote (s : string) : option (string * string) :=
  match s with
  | EmptyString => None
  | String c s' =>
      if decide (c = dq) then Some (EmptyString, s')
      else if decide (c = bs) then
        match s' with
        | String d s'' => '(r, rest) ← unquote s''; Some (String d r, rest)
        | EmptyString => None
        end
      else '(r, rest) ← unquote s'; Some (String c r, rest)
  end.

(** The text of a value; a list is each element followed by a comma or the
    closing bracket. *)
Fixpoint print (t : tree) : string :=
  match t with
  | JNull => "null"
  | JNum z => pretty z
  | JStr s => String dq (quote_tail s)
  | JArr l =>
      "[" +:+ (fix elems l := match l with
                              | [] => "]"
                              | [x] => print x +:+ "]"
                              | x :: l => print x +:+ "," +:+ elems l
                              end) l
  | JObj fs =>
      "{" +:+ (fix elems fs := match fs with
                               | [] => "}"
                               | [(k, x)] => String dq (quote_tail k) +:+ ":" +:+ print x +:+ "}"
                               | (k, x) :: fs =>
                                   String dq (quote_tail k) +:+ ":" +:+ print x +:+ "," +:+ elems fs
                               end) fs
  end.

Fixpoint print_elems (l : list tree) : string :=
  match l with
  | [] => "]"
  | [x] => print x +:+ "]"
  | x :: l => print x +:+ "," +:+ print_elems l
  end.

Fixpoint print_fields (fs : list (string * tree)) : string :=
  match fs with
  | [] => "}"
  | [(k, x)] => String dq (quote_tail k) +:+ ":" +:+ print x +:+ "}"
  | (k, x) :: fs => String dq (quote_tail k) +:+ ":" +:+ print x +:+ "," +:+ print_fields fs
  end.

Lemma print_arr l : print (JArr l) = "[" +:+ print_elems l.
Proof. reflexivity. Qed.

Lemma print_obj fs : print (JObj fs) = "{" +:+ print_fields fs.
Proof. reflexivity. Qed.

(** The value at the front of [s] and the rest of the text. *)
Fixpoint pval (n : nat) (s : string) : option (tree * string) :=
  match n with
  | O => None
  | S n =>
      match s with
      | EmptyString => None
      | String c s' =>
          if decide (c = dq) then '(r, rest) ← unquote s'; Some (JStr r, rest)
          else if decide (c = "["%char) then
            if starts_with "]" s' then Some (JArr [], str_drop 1 s')
            else '(l, rest) ← pelems n s'; Some (JArr l, rest)
          else if decide (c = "{"%char) then
            if starts_with "}" s' then Some (JObj [], str_drop 1 s')
            else '(l, rest) ← pfields n s'; Some (JObj l, rest)
          else if starts_digit s then let '(z, rest) := span_digits s 0 in Some (JNum z, rest)
          else if decide (c = "-"%char) then
            if starts_digit s' then let '(z, rest) := span_digits s' 0 in Some (JNum (- z), rest)
            else None
          else if starts_with "null" s then Some (JNull, str_drop 4 s)
          else None
      end
  end
with pelems (n : nat) (s : string) : option (list tree * string) :=
  match n with
  | O => None
  | S n =>
      '(x, s) ← pval n s;
      if starts_with "," s then '(l, rest) ← pelems n (str_drop 1 s); Some (x :: l, rest)
      else if starts_with "]" s then Some ([x], str_drop 1 s)
      else None
  end
with pfields (n : nat) (s : string) : option (list (string * tree) * string) :=
  match n with
  | O => None
  | S n =>
      match s with
      | EmptyString => None
      | String c s' =>
          if decide (c = dq) then
            '(k, s) ← unquote s';
            if starts_with ":" s then
              '(x, s) ← pval n (str_drop 1 s);
              if starts_with "," s then
                '(l, rest) ← pfields n (str_drop 1 s); Some ((k, x) :: l, rest)
              else if starts_with "}" s then Some ([(k, x)], str_drop 1 s)
              else None
            else None
          else None
      end
  end.

Definition parse (s : string) : outcome tree :=
  match pval (S (String.length s)) s with
  | Some (t, EmptyString) => Ret t
  | _ => Throw "parse_error"
  end.

(** ** Parsing what was printed *)

Lemma unquote_quote s rest : unquote (quote_tail s +:+ rest) = Some (s, rest).
Proof.
  induction s as [|c s IH]; cbn; [done|].
  destruct (bool_decide (c = dq)) eqn:Edq; cbn; [by rewrite IH|].
  destruct (bool_decide (c = bs)) eqn:Ebs; cbn; [by rewrite IH|].
  apply bool_decide_eq_false in Edq, Ebs. rewrite !decide_False by done. by rewrite IH.
Qed.

(** The first character of a printed value, which tells the parser the case. *)
Lemma print_first t : ∃ c s, print t = String c s ∧ c ≠ "]"%char ∧ c ≠ "}"%char.
Proof.
  destruct t as [|z|s|l|fs]; cbn; try by eauto 10.
  destruct z as [|p|p].
  - by eexists _, _.
  - pose proof (starts_digit_to_string (Zpos p) "" ltac:(lia)) as Hd. unfold to_string in Hd.
    rewrite str_app_nil_r in Hd. destruct (pretty (Zpos p)) as [|c s]; [done|].
    exists c, s. split; [done|]. split; by intros ->.
  - by eexists _, _.
Qed.

Lemma print_length t : ¬ (String.length (print t) ≤ 0)%nat.
Proof. destruct (print_first t) as (c & s & -> & _). cbn. lia. Qed.

Definition parses (t : tree) : Prop :=
  ∀ n rest, (String.length (print t) ≤ n)%nat → starts_digit rest = false →
    pval n (print t +:+ rest) = Some (t, rest).

Lemma pelems_print l n rest : l ≠ [] → Forall parses l → (String.length (print_elems l) ≤ n)%nat →
  pelems n (print_elems l +:+ rest) = Some (l, rest).
Proof.
  intros Hne Hl. revert n Hne. induction Hl as [|x l Hx Hl IH]; intros n Hne Hn; [done|].
  destruct l as [|y l].
  - cbn [print_elems] in *. rewrite str_length_app in Hn. cbn in Hn. destruct n as [|n]; [lia|].
    cbn. rewrite str_app_assoc, (Hx n) by (cbn; lia || done). done.
  - change (print_elems (x :: y :: l)) with (print x +:+ "," +:+ print_elems (y :: l)) in *.
    rewrite !str_length_app in Hn. cbn [String.length] in Hn. destruct n as [|n]; [lia|].
    cbn [pelems]. rewrite !str_app_assoc, (Hx n) by (done || lia). cbn [mbind option_bind].
    cbn [starts_with String.append bool_decide decide_rel]. cbn.
    by rewrite IH by (done || lia).
Qed.

Lemma pfields_print fs n rest : fs ≠ [] → Forall (λ kv, parses kv.2) fs →
  (String.length (print_fields fs) ≤ n)%nat →
  pfields n (print_fields fs +:+ rest) = Some (fs, rest).
Proof.
  intros Hne Hfs. revert n Hne. induction Hfs as [|[k x] fs Hx Hfs IH]; intros n Hne Hn; [done|].
  cbn in Hx. destruct fs as [|[k' y] fs].
  - cbn [print_fields] in *. rewrite !str_length_app in Hn. cbn in Hn. destruct n as [|n]; [lia|].
    cbn. rewrite !str_app_assoc, unquote_quote. cbn. rewrite str_app_assoc.
    rewrite (Hx n) by (done || (cbn; lia)). done.
  - change (print_fields ((k, x) :: (k', y) :: fs))
      with (String dq (quote_tail k) +:+ ":" +:+ print x +:+ "," +:+ print_fields ((k', y) :: fs)) in *.
    rewrite !str_length_app in Hn. cbn [String.length] in Hn. destruct n as [|n]; [lia|].
    cbn [pfields String.append]. rewrite decide_True by done.
    rewrite !str_app_assoc, unquote_quote. cbn [mbind option_bind String.append starts_with].
    cbn [str_drop]. rewrite bool_decide_true by done. cbn [andb].
    rewrite !str_app_assoc, (Hx n) by (done || lia). cbn [mbind option_bind]. cbn.
    by rewrite IH by (done || lia).
Qed.

Lemma print_parses t : parses t.
Proof.
  induction t as [|z|s|l IH|fs IH] using tree_ind'; intros n rest Hn Hrest;
    (destruct n as [|n]; [by apply print_length in Hn|]).
  - done.
  - destruct z as [|p|p].
    + cbn. destruct rest as [|c rest]; [done|]. cbn in *. by destruct (Ascii.is_nat c).
    + cbn [print]. pose proof (starts_digit_to_string (Zpos p) rest ltac:(lia)) as Hd.
      pose proof (span_digits_to_string (Zpos p) rest ltac:(lia) Hrest) as Hs. unfold to_string in *.
      destruct (pretty (Zpos p) +:+ rest) as [|c s]; [done|].
      cbn [pval]. assert (Hc : c ≠ dq ∧ c ≠ "["%char ∧ c ≠ "{"%char).
      { split_and!; intros ->; done. }
      rewrite !decide_False by naive_solver. by rewrite Hd, Hs.
    + cbn [print]. change (pretty (Zneg p)) with (String "-" (pretty (Zpos p))).
      pose proof (starts_digit_to_string (Zpos p) rest ltac:(lia)) as Hd.
      pose proof (span_digits_to_string (Zpos p) rest ltac:(lia) Hrest) as Hs. unfold to_string in *.
      cbn [String.append]. destruct (pretty (Zpos p) +:+ rest) as [|c s]; [done|].
      cbn [pval]. rewrite !decide_False, decide_True by done. by rewrite Hd, Hs.
  - cbn. by rewrite unquote_quote.
  - rewrite print_arr in *. cbn in Hn. cbn [String.append pval].
    rewrite decide_False, decide_True by done.
    destruct l as [|x l]; [done|].
    assert (Hfst : starts_with "]" (print_elems (x :: l) +:+ rest) = false).
    { destruct (print_first x) as (c & s & E & Hc & _).
      destruct l; cbn [print_elems]; rewrite E; cbn; by rewrite bool_decide_false by congruence. }
    rewrite Hfst, pelems_print by (done || lia). done.
  - rewrite print_obj in *. cbn in Hn. cbn [String.append pval].
    rewrite !decide_False, decide_True by done.
    destruct fs as [|[k x] fs]; [done|].
    assert (Hfst : starts_with "}" (print_fields ((k, x) :: fs) +:+ rest) = false).
    { by destruct fs as [|[]]. }
    rewrite Hfst, pfields_print by (done || lia). done.
Qed.

Lemma parse_print t : parse (print t) = Ret t.
Proof.
  unfold parse. rewrite <-(str_app_nil_r (print t)) at 2. rewrite print_parses by (done || lia). done.
Qed.

End TreeText.
