(* ===== verification/Json.v ===== *)
(** * The nlohmann::json interface

    nlohmann::json is a third-party package: the development uses it through
    the class [JsonLib] (the operations the sources call) and [JsonLaws] (the
    documented behaviour they rely on).  [TreeJson] is one concrete value type
    that satisfies the laws; the witnesses run on it. *)

From S2P Require Import Prelude Text JsonText.

Class JsonLib := {
  json : Type;
  (** a default-constructed [nlohmann::json] *)
  json_null : json;
  json_of_num : Z → json;
  json_of_string : string → json;
  json_of_nums : list Z → json;
  (** a [std::vector] of values *)
  json_of_list : list json → json;
  (** an initializer list of key/value pairs *)
  json_object : list (string * json) → json;
  json_is_object : json → bool;
  json_is_string : json → bool;
  json_is_null : json → bool;
  json_contains : json → string → bool;
  (** [j[key] = v] on a mutable value *)
  json_set : json → string → json → outcome json;
  (** [j[key]] on a const value *)
  json_at : json → string → outcome json;
  (** [j.get<T>()] for an integral [T] and for [std::string] *)
  json_get : int_ty → json → outcome Z;
  json_get_string : json → outcome string;
  (** [json::parse(text)], [j.dump()] and [j.dump(indent)] *)
  json_parse : string → outcome json;
  json_dump : json → outcome string;
  json_dump_indent : Z → json → outcome string;
  (** the texts [dump] accepts inside strings: valid UTF-8 *)
  utf8 : string → Prop
}.

(** A call that returns or throws, and is never undefined. *)
Definition safe {A} (o : outcome A) : Prop :=
  match o with Ret _ | Throw _ => True | Undef | Diverge => False end.

(** ASCII text. *)
Fixpoint ascii_only (s : string) : bool :=
  match s with
  | EmptyString => true
  | String c s => bool_decide (Ascii.N_of_ascii c < 128)%N && ascii_only s
  end.

Definition int_range (ty : int_ty) (z : Z) : Prop :=
  match ty with
  | U64 => 0 ≤ z < 2 ^ 64
  | I64 => - 2 ^ 63 ≤ z < 2 ^ 63
  | U32 => 0 ≤ z < 2 ^ 32
  | I32 => INT_MIN ≤ z ≤ INT_MAX
  end.

(** A value that has a text form from which it can be read back. *)
Definition json_dumps `{JsonLib} (j : json) : Prop :=
  ∃ s, json_dump j = Ret s ∧ json_parse s = Ret j.

(** Documented behaviour: the mutable [operator[]] turns null into an object and
    replaces the value of a key; the const one requires the key to be present, and
    an object; reading back gives the value stored; [get<T>] on a number converts
    it to [T]; [dump] fails only on text that is not UTF-8, and [parse] inverts it. *)
Class JsonLaws (J : JsonLib) := {
  json_set_null k v : ∃ j', json_set json_null k v = Ret j' ∧ json_is_object j';
  json_set_object j k v : json_is_object j →
    ∃ j', json_set j k v = Ret j' ∧ json_is_object j';
  json_set_safe j k v : safe (json_set j k v);
  json_at_set_eq j k v j' : json_set j k v = Ret j' → json_at j' k = Ret v;
  json_at_set_ne j k k' v j' : json_is_object j → k ≠ k' →
    json_set j k v = Ret j' → json_at j' k' = json_at j k';
  json_at_contains j k : json_contains j k = true → ∃ v, json_at j k = Ret v;
  json_at_missing j k : json_is_object j → json_contains j k = false → json_at j k = Undef;
  json_at_other j k : json_is_object j = false → ∃ what, json_at j k = Throw what;
  json_contains_object j k : json_contains j k = true → json_is_object j;
  json_is_object_null : json_is_object json_null = false;
  json_is_null_null : json_is_null json_null = true;
  json_is_object_num z : json_is_object (json_of_num z) = false;
  json_is_null_num z : json_is_null (json_of_num z) = false;
  json_is_null_object j : json_is_object j → json_is_null j = false;
  json_object_is l : json_is_object (json_object l);
  json_object_at l k v : NoDup l.*1 → (k, v) ∈ l → json_at (json_object l) k = Ret v;
  json_object_missing l k : k ∉ l.*1 → json_contains (json_object l) k = false;
  json_get_num ty z : - 2 ^ 63 ≤ z < 2 ^ 64 → json_get ty (json_of_num z) = Ret (conv ty z);
  json_get_str s : json_get_string (json_of_string s) = Ret s;
  json_get_null ty : ∃ what, json_get ty json_null = Throw what;
  json_get_string_null : ∃ what, json_get_string json_null = Throw what;
  json_get_safe ty j : safe (json_get ty j);
  json_get_range ty j z : json_get ty j = Ret z → int_range ty z;
  json_get_string_safe j : safe (json_get_string j);
  json_is_string_get j : json_is_string j = true ↔ ∃ s, json_get_string j = Ret s;
  json_parse_safe s : safe (json_parse s);
  json_dump_safe j : safe (json_dump j);
  json_dump_indent_dumps n j : json_dumps j →
    ∃ s, json_dump_indent n j = Ret s ∧ json_parse s = Ret j;
  json_dump_indent_safe n j : safe (json_dump_indent n j);
  json_parse_num n : 0 ≤ n < 2 ^ 64 → json_parse (to_string n) = Ret (json_of_num n);
  json_parse_empty : json_parse "{}" = Ret (json_object []);
  json_parse_dumps s j : json_parse s = Ret j → json_dumps j;
  json_dumps_null : json_dumps json_null;
  json_dumps_num z : - 2 ^ 63 ≤ z < 2 ^ 64 → json_dumps (json_of_num z);
  json_dumps_nums l : Forall (λ z, - 2 ^ 63 ≤ z < 2 ^ 64) l → json_dumps (json_of_nums l);
  json_dumps_str s : utf8 s → json_dumps (json_of_string s);
  json_dumps_list l : Forall json_dumps l → json_dumps (json_of_list l);
  json_dumps_object l : Forall (λ kv, utf8 kv.1 ∧ json_dumps kv.2) l → json_dumps (json_object l);
  json_dumps_set j k v j' : json_dumps j → utf8 k → json_dumps v →
    json_set j k v = Ret j' → json_dumps j';
  json_dumps_at j k v : json_dumps j → json_at j k = Ret v → json_dumps v;
  json_dumps_get_string j s : json_dumps j → json_get_string j = Ret s → utf8 s;
  utf8_ascii s : ascii_only s = true → utf8 s
}.

(** [j.value(key, default)]: an exception unless [j] is an object. *)
Definition json_value `{JsonLib} {A} (get : json → outcome A) (j : json) (key : string) (default : A)
    : outcome A :=
  if json_is_object j then
    if json_contains j key then v ← json_at j key; get v else Ret default
  else Throw "type_error".

(** [j[key]] read from a mutable value: a key that is missing is added with the
    value null, and null becomes an object first. *)
Definition json_index `{JsonLib} (j : json) (key : string) : outcome json :=
  if json_is_null j then Ret json_null
  else if json_is_object j then
    if json_contains j key then json_at j key else Ret json_null
  else Throw "type_error".

Module TreeJson.
Export TreeText.

Fixpoint assoc_get (k : string) (fs : list (string * tree)) : option tree :=
  match fs with
  | [] => None
  | (k', v) :: fs => if decide (k = k') then Some v else assoc_get k fs
  end.

Fixpoint assoc_set (k : string) (v : tree) (fs : list (string * tree)) : list (string * tree) :=
  match fs with
  | [] => [(k, v)]
  | (k', v') :: fs => if decide (k = k') then (k, v) :: fs else (k', v') :: assoc_set k v fs
  end.

#[export] Instance lib : JsonLib := {|
  json := tree;
  json_null := JNull;
  json_of_num := JNum;
  json_of_string := JStr;
  json_of_nums l := JArr (JNum <$> l);
  json_of_list := JArr;
  json_object := JObj;
  json_is_object j := match j with JObj _ => true | _ => false end;
  json_is_string j := match j with JStr _ => true | _ => false end;
  json_is_null j := match j with JNull => true | _ => false end;
  json_contains j k :=
    match j with
    | JObj fs => match assoc_get k fs with Some _ => true | None => false end
    | _ => false
    end;
  json_set j k v :=
    match j with
    | JNull => Ret (JObj [(k, v)])
    | JObj fs => Ret (JObj (assoc_set k v fs))
    | _ => Throw "type_error"
    end;
  json_at j k :=
    match j with
    | JObj fs => deref (assoc_get k fs)
    | _ => Throw "type_error"
    end;
  json_get ty j := match j with JNum z => Ret (conv ty z) | _ => Throw "type_error" end;
  json_get_string j := match j with JStr s => Ret s | _ => Throw "type_error" end;
  json_parse := parse;
  json_dump j := Ret (print j);
  json_dump_indent _ j := Ret (print j);
  utf8 _ := True
|}.

Lemma assoc_get_set k k' v fs :
  assoc_get k' (assoc_set k v fs) = if decide (k' = k) then Some v else assoc_get k' fs.
Proof. induction fs as [|[k1 v1] fs IH]; cbn; repeat (case_decide; cbn; simplify_eq); done. Qed.

Lemma assoc_get_elem k v fs : NoDup fs.*1 → (k, v) ∈ fs → assoc_get k fs = Some v.
Proof.
  induction fs as [|[k1 v1] fs IH]; cbn; [set_solver|]. intros [Hk1 Hnd]%NoDup_cons Hin.
  apply elem_of_cons in Hin as [[= -> ->]|Hin]; [by rewrite decide_True|].
  rewrite decide_False; [by apply IH|]. intros ->. apply Hk1, list_elem_of_fmap. by exists (k1, v).
Qed.

Lemma assoc_get_missing k fs : k ∉ fs.*1 → assoc_get k fs = None.
Proof.
  induction fs as [|[k1 v1] fs IH]; cbn; [done|]. intros [Hk Hk']%not_elem_of_cons.
  rewrite decide_False by done. by apply IH.
Qed.

Lemma tree_dumps (t : tree) : json_dumps t.
Proof. exists (print t). split; [done|]. apply parse_print. Qed.

Lemma conv_range ty z : int_range ty (conv ty z).
Proof.
  destruct ty; cbn.
  - apply w64_range.
  - unfold s64. pose proof (Z.mod_pos_bound (z + 2 ^ 63) (2 ^ 64)). lia.
  - apply Z.mod_pos_bound. lia.
  - apply s32_range.
Qed.

#[export] Instance laws : JsonLaws lib.
Proof.
  split; cbn; try by intros; eauto using tree_dumps.
  - intros [] k v; cbn; naive_solver.
  - by intros [].
  - intros [] k v j' [= <-]; cbn; [by rewrite decide_True|].
    by rewrite assoc_get_set, decide_True.
  - intros [] k k' v j' Hobj Hne [= <-]; try done. cbn. by rewrite assoc_get_set, decide_False.
  - intros [] k; try done. destruct (assoc_get k fields); naive_solver.
  - intros [] k; try done. by destruct (assoc_get k fields).
  - intros [] k; naive_solver.
  - by intros [] k.
  - by intros [].
  - intros l k v Hnd Hin. by rewrite (assoc_get_elem k v).
  - intros l k Hk. by rewrite assoc_get_missing.
  - by intros ty [].
  - intros ty j z. destruct j; intros [= <-]. apply conv_range.
  - by intros [].
  - intros []; naive_solver.
  - intros s. unfold parse. by repeat case_match.
  - intros n Hn. change (to_string n) with (print (JNum n)). apply parse_print.
Qed.

End TreeJson.

#[export] Hint Resolve json_set_safe json_get_safe json_get_string_safe json_parse_safe
  json_dump_safe json_dump_indent_safe : axon.

(** ** Objects built by successive assignments *)

Section objects.
Context `{J : JsonLib} `{L : !JsonLaws J}.

(** [j] is an object that holds at least the entries of [m]. *)
Definition json_holds (j : json) (m : gmap string json) : Prop :=
  json_is_object j ∧ ∀ k v, m !! k = Some v → json_at j k = Ret v.

Lemma json_holds_null k v : ∃ j', json_set json_null k v = Ret j' ∧ json_holds j' {[k := v]}.
Proof.
  destruct (json_set_null k v) as (j' & Hset & Hobj). exists j'. split; [done|]. split; [done|].
  intros k' v' [<- <-]%lookup_singleton_Some. eapply json_at_set_eq; eauto.
Qed.

Lemma json_holds_set j m k v :
  json_holds j m → ∃ j', json_set j k v = Ret j' ∧ json_holds j' (<[k:=v]> m).
Proof.
  intros [Hobj Hm]. destruct (json_set_object j k v Hobj) as (j' & Hset & Hobj').
  exists j'. split; [done|]. split; [done|].
  intros k' v' [[<- <-]|[Hne Hk']]%lookup_insert_Some.
  - eapply json_at_set_eq; eauto.
  - rewrite (json_at_set_ne j k k' v j') by done. eauto.
Qed.

Lemma json_holds_at j m k v : json_holds j m → m !! k = Some v → json_at j k = Ret v.
Proof. intros [_ Hm]. apply Hm. Qed.

(** A value present under a key is what the three ways of reading give. *)
Lemma json_contains_at j k v : json_at j k = Ret v → json_contains j k = true ∧ json_is_object j.
Proof.
  intros Hat. destruct (json_is_object j) eqn:Hobj.
  - destruct (json_contains j k) eqn:Hc; [done|]. by rewrite json_at_missing in Hat by (rewrite ?Hobj; done).
  - destruct (json_at_other j k Hobj) as [what E]. congruence.
Qed.

Lemma json_index_at j k v : json_at j k = Ret v → json_index j k = Ret v.
Proof.
  intros Hat. destruct (json_contains_at j k v Hat) as [Hc Hobj]. unfold json_index.
  rewrite json_is_null_object by done. destruct (json_is_object j); [|done]. by rewrite Hc.
Qed.

Lemma json_value_at {A} (get : json → outcome A) j k d v :
  json_at j k = Ret v → json_value get j k d = get v.
Proof.
  intros Hat. destruct (json_contains_at j k v Hat) as [Hc Hobj]. unfold json_value.
  destruct (json_is_object j); [|done]. by rewrite Hc, Hat.
Qed.

Lemma json_index_safe j k : safe (json_index j k).
Proof.
  unfold json_index. destruct (json_is_null j); [done|]. destruct (json_is_object j); [|done].
  destruct (json_contains j k) eqn:Hc; [|done]. by destruct (json_at_contains j k Hc) as [v ->].
Qed.

Lemma safe_bind {A B} (m : outcome A) (f : A → outcome B) :
  safe m → (∀ a, m = Ret a → safe (f a)) → safe (m ≫= f).
Proof. destruct m; cbn; auto. Qed.

Lemma json_value_safe {A} (get : json → outcome A) j k d :
  (∀ v, safe (get v)) → safe (json_value get j k d).
Proof.
  intros Hget. unfold json_value. destruct (json_is_object j); [|done].
  destruct (json_contains j k) eqn:Hc; [|done]. destruct (json_at_contains j k Hc) as [v ->]. apply Hget.
Qed.
End objects.
