(* ===== verification/Effects.v ===== *)
(** * State and exceptions

    The network and storage code changes objects and throws at the same time: an
    exception keeps the changes made before it.  [M S A] is a computation on a
    state [S] with that behaviour; [try_catch] is a [catch (const std::exception &)]
    block. *)

From S2P Require Import Prelude Json.

Definition M (S A : Type) : Type := S → outcome A * S.

Global Instance M_ret S : MRet (M S) := λ A a s, (Ret a, s).

Global Instance M_bind S : MBind (M S) := λ A B f m s,
  match m s with
  | (Ret a, s') => f a s'
  | (Throw w, s') => (Throw w, s')
  | (Undef, s') => (Undef, s')
  | (Diverge, s') => (Diverge, s')
  end.

Definition get_state {S} : M S S := λ s, (Ret s, s).

Definition modify {S} (f : S → S) : M S unit := λ s, (Ret tt, f s).

Definition gets {S A} (f : S → A) : M S A := λ s, (Ret (f s), s).

Definition lift {S A} (o : outcome A) : M S A := λ s, (o, s).

(** A primitive step that returns. *)
Definition act {S A} (f : S → A * S) : M S A := λ s, let '(a, s') := f s in (Ret a, s').

Definition undef {S A} : M S A := lift Undef.

Definition throw {S A} (what : string) : M S A := lift (Throw what).

(** [try { m } catch (const std::exception &e) { h(e.what()) }] *)
Definition try_catch {S A} (m : M S A) (h : string → M S A) : M S A := λ s,
  match m s with
  | (Throw w, s') => h w s'
  | r => r
  end.

(** A computation on a part of the state. *)
Definition zoom {S T A} (get : S → T) (set : T → S → S) (m : M T A) : M S A := λ s,
  let '(r, t) := m (get s) in (r, set t s).

(** The objects of a list, one after the other, in one computation. *)
Fixpoint mapM_ {S A} (f : A → M S unit) (l : list A) : M S unit :=
  match l with
  | [] => mret tt
  | x :: l => f x ;; mapM_ f l
  end.

(** Evaluate a computation whose state is known. *)
Lemma bind_run {S A B} (m : M S A) (f : A → M S B) s a s' :
  m s = (Ret a, s') → (m ≫= f) s = f a s'.
Proof. unfold mbind, M_bind. by intros ->. Qed.

Lemma bind_run_lift {S A B} (o : outcome A) (f : A → M S B) s a :
  o = Ret a → (lift o ≫= f) s = f a s.
Proof. by intros ->. Qed.

Lemma get_state_run {S B} (f : S → M S B) s : (get_state ≫= f) s = f s s.
Proof. done. Qed.

Lemma modify_run {S B} (g : S → S) (f : unit → M S B) s : (modify g ≫= f) s = f tt (g s).
Proof. done. Qed.

Lemma try_catch_Ret {S A} (m : M S A) h s a s' :
  m s = (Ret a, s') → try_catch m h s = (Ret a, s').
Proof. unfold try_catch. by intros ->. Qed.

Lemma try_catch_Throw {S A} (m : M S A) h s w s' :
  m s = (Throw w, s') → try_catch m h s = h w s'.
Proof. unfold try_catch. by intros ->. Qed.

Lemma bind_assoc {S A B C} (m : M S A) (f : A → M S B) (g : B → M S C) s :
  ((m ≫= f) ≫= g) s = (m ≫= (λ a, f a ≫= g)) s.
Proof. unfold mbind, M_bind. by destruct (m s) as [[]]. Qed.

Lemma bind_ret_run {S} (m : M S unit) s : (m ≫= λ _, mret tt) s = m s.
Proof. unfold mbind, M_bind. by destruct (m s) as [[[]| | |] s']. Qed.

Lemma mapM_app {S A} (f : A → M S unit) l k s : mapM_ f (l ++ k) s = (mapM_ f l ≫= λ _, mapM_ f k) s.
Proof.
  revert s. induction l as [|x l IH]; intros s; cbn [app mapM_]; [done|].
  rewrite bind_assoc. unfold mbind, M_bind at 1 2. destruct (f x s) as [[[]| | |] s']; [apply IH|done..].
Qed.

(** ** Hoare triples

    [I] is kept whatever the outcome, and a result satisfies [Q]. *)

Definition hoare {S A} (I : S → Prop) (m : M S A) (Q : A → Prop) : Prop :=
  ∀ s, I s → I (m s).2 ∧ ∀ a, (m s).1 = Ret a → Q a.

Section hoare.
Context {S : Type} (I : S → Prop).

Lemma hoare_ret {A} (a : A) (Q : A → Prop) : Q a → hoare I (mret a) Q.
Proof. intros HQ s Hs. split; [done|]. by intros ? [= <-]. Qed.

Lemma hoare_bind {A B} (m : M S A) (f : A → M S B) P Q :
  hoare I m P → (∀ a, P a → hoare I (f a) Q) → hoare I (m ≫= f) Q.
Proof.
  intros Hm Hf s Hs. destruct (Hm s Hs) as [Hs' HP]. unfold mbind, M_bind.
  destruct (m s) as [[a|w| |] s']; cbn in *; try (by split). apply Hf; auto.
Qed.

Lemma hoare_weaken {A} (m : M S A) (P Q : A → Prop) :
  hoare I m P → (∀ a, P a → Q a) → hoare I m Q.
Proof. intros Hm HPQ s Hs. destruct (Hm s Hs) as [Hs' HP]. split; [done|]. eauto. Qed.

Lemma hoare_lift {A} (o : outcome A) : hoare I (lift o) (λ a, o = Ret a).
Proof. intros s Hs. by split. Qed.

Lemma hoare_try {A} (m : M S A) h Q :
  hoare I m Q → (∀ w, hoare I (h w) Q) → hoare I (try_catch m h) Q.
Proof.
  intros Hm Hh s Hs. destruct (Hm s Hs) as [Hs' HQ]. unfold try_catch.
  destruct (m s) as [[a|w| |] s']; cbn in *; try (by split). by apply Hh.
Qed.

Lemma hoare_modify f : (∀ s, I s → I (f s)) → hoare I (modify f) (λ _, True).
Proof. intros Hf s Hs. split; [by apply Hf|done]. Qed.

Lemma hoare_gets {A} (f : S → A) : hoare I (gets f) (λ _, True).
Proof. by intros s Hs. Qed.

Lemma hoare_seq {A B} (m : M S A) (f : A → M S B) Q :
  hoare I m (λ _, True) → (∀ a, hoare I (f a) Q) → hoare I (m ≫= f) Q.
Proof. intros Hm Hf. eapply hoare_bind; [done|]. intros a _. apply Hf. Qed.

Lemma hoare_lift_any {A} (o : outcome A) : hoare I (lift o) (λ _, True).
Proof. by intros x Hx. Qed.

Lemma hoare_ret_any {A} (a : A) : hoare I (mret a) (λ _, True).
Proof. by apply hoare_ret. Qed.

(** The state that is read satisfies the invariant. *)
Lemma hoare_read {A} (f : S → M S A) Q : (∀ x, I x → hoare I (f x) Q) → hoare I (get_state ≫= f) Q.
Proof. intros Hf x Hx. rewrite get_state_run. by apply Hf. Qed.

Lemma hoare_act {A} (f : S → A * S) : (∀ s, I s → I (f s).2) → hoare I (act f) (λ _, True).
Proof. intros Hf s Hs. specialize (Hf s Hs). unfold act. by destruct (f s). Qed.
End hoare.

(** Without an invariant every computation is fine. *)
Lemma hoare_true {S A} (m : M S A) : hoare (λ _, True) m (λ _, True).
Proof. by intros s _. Qed.

#[export] Hint Resolve hoare_lift hoare_gets : axon.
