(* ===== verification/Task.v ===== *)
(** * Task: status machine, dependencies and JSON form

    Models include/core/Task.hpp and src/core/Task.cpp.  A [Task] object is a
    record with the fields of the class; the methods are functions on it.  The
    clock reading a method takes is its argument [now] (nanoseconds since the
    epoch).  Objects live in a store [gmap loc Task]; a [shared_ptr] is the
    address of a live object and a [weak_ptr] an address whose [lock()] succeeds
    exactly when the store still holds the object. *)

From S2P Require Import Prelude Json.

(** [enum class TaskStatus]; the values a [static_cast] from [int] can produce
    without a name are [UnnamedStatus]. *)
Inductive TaskStatus : Type :=
| CREATED
| QUEUED
| RUNNING
| COMPLETED
| FAILED
| CANCELLED
| UnnamedStatus (z : Z).

Global Instance TaskStatus_eq_dec : EqDecision TaskStatus.
Proof. solve_decision. Defined.

Definition status_to_int (s : TaskStatus) : Z :=
  match s with
  | CREATED => 0
  | QUEUED => 1
  | RUNNING => 2
  | COMPLETED => 3
  | FAILED => 4
  | CANCELLED => 5
  | UnnamedStatus z => z
  end.

Definition status_of_int (z : Z) : TaskStatus :=
  match z with
  | 0 => CREATED
  | 1 => QUEUED
  | 2 => RUNNING
  | 3 => COMPLETED
  | 4 => FAILED
  | 5 => CANCELLED
  | _ => UnnamedStatus z
  end.

(** [enum class TaskPriority] has underlying type [int] and the sources cast any
    [int] to it: a priority is that integer. *)
Definition TaskPriority : Type := Z.

Definition LOW : TaskPriority := 0.
Definition MEDIUM : TaskPriority := 50.
Definition HIGH : TaskPriority := 100.
Definition CRITICAL : TaskPriority := 200.

(** The object.  [enqueued_at_] and [dequeued_at_] are the two members
    QueueManager.cpp reads and writes. *)
Record Task : Type := mkTask {
  id_ : Z;
  name_ : string;
  priority_ : TaskPriority;
  status_ : TaskStatus;
  created_at_ : Z;
  scheduled_for_ : Z;
  started_at_ : Z;
  completed_at_ : Z;
  error_message_ : string;
  retry_count_ : Z;
  max_retries_ : Z;
  dependencies_ : list loc;
  enqueued_at_ : Z;
  dequeued_at_ : Z
}.

Definition set_id (v : Z) (t : Task) : Task :=
  mkTask v (name_ t) (priority_ t) (status_ t) (created_at_ t) (scheduled_for_ t) (started_at_ t)
    (completed_at_ t) (error_message_ t) (retry_count_ t) (max_retries_ t) (dependencies_ t)
    (enqueued_at_ t) (dequeued_at_ t).
Definition set_name (v : string) (t : Task) : Task :=
  mkTask (id_ t) v (priority_ t) (status_ t) (created_at_ t) (scheduled_for_ t) (started_at_ t)
    (completed_at_ t) (error_message_ t) (retry_count_ t) (max_retries_ t) (dependencies_ t)
    (enqueued_at_ t) (dequeued_at_ t).
Definition set_priority (v : Z) (t : Task) : Task :=
  mkTask (id_ t) (name_ t) v (status_ t) (created_at_ t) (scheduled_for_ t) (started_at_ t)
    (completed_at_ t) (error_message_ t) (retry_count_ t) (max_retries_ t) (dependencies_ t)
    (enqueued_at_ t) (dequeued_at_ t).
Definition set_status (v : TaskStatus) (t : Task) : Task :=
  mkTask (id_ t) (name_ t) (priority_ t) v (created_at_ t) (scheduled_for_ t) (started_at_ t)
    (completed_at_ t) (error_message_ t) (retry_count_ t) (max_retries_ t) (dependencies_ t)
    (enqueued_at_ t) (dequeued_at_ t).
Definition set_created_at (v : Z) (t : Task) : Task :=
  mkTask (id_ t) (name_ t) (priority_ t) (status_ t) v (scheduled_for_ t) (started_at_ t)
    (completed_at_ t) (error_message_ t) (retry_count_ t) (max_retries_ t) (dependencies_ t)
    (enqueued_at_ t) (dequeued_at_ t).
Definition set_scheduled_for (v : Z) (t : Task) : Task :=
  mkTask (id_ t) (name_ t) (priority_ t) (status_ t) (created_at_ t) v (started_at_ t)
    (completed_at_ t) (error_message_ t) (retry_count_ t) (max_retries_ t) (dependencies_ t)
    (enqueued_at_ t) (dequeued_at_ t).
Definition set_started_at (v : Z) (t : Task) : Task :=
  mkTask (id_ t) (name_ t) (priority_ t) (status_ t) (created_at_ t) (scheduled_for_ t) v
    (completed_at_ t) (error_message_ t) (retry_count_ t) (max_retries_ t) (dependencies_ t)
    (enqueued_at_ t) (dequeued_at_ t).
Definition set_completed_at (v : Z) (t : Task) : Task :=
  mkTask (id_ t) (name_ t) (priority_ t) (status_ t) (created_at_ t) (scheduled_for_ t)
    (started_at_ t) v (error_message_ t) (retry_count_ t) (max_retries_ t) (dependencies_ t)
    (enqueued_at_ t) (dequeued_at_ t).
Definition set_error_message (v : string) (t : Task) : Task :=
  mkTask (id_ t) (name_ t) (priority_ t) (status_ t) (created_at_ t) (scheduled_for_ t)
    (started_at_ t) (completed_at_ t) v (retry_count_ t) (max_retries_ t) (dependencies_ t)
    (enqueued_at_ t) (dequeued_at_ t).
Definition set_retry_count (v : Z) (t : Task) : Task :=
  mkTask (id_ t) (name_ t) (priority_ t) (status_ t) (created_at_ t) (scheduled_for_ t)
    (started_at_ t) (completed_at_ t) (error_message_ t) v (max_retries_ t) (dependencies_ t)
    (enqueued_at_ t) (dequeued_at_ t).
Definition set_max_retries (v : Z) (t : Task) : Task :=
  mkTask (id_ t) (name_ t) (priority_ t) (status_ t) (created_at_ t) (scheduled_for_ t)
    (started_at_ t) (completed_at_ t) (error_message_ t) (retry_count_ t) v (dependencies_ t)
    (enqueued_at_ t) (dequeued_at_ t).
Definition set_dependencies (v : list loc) (t : Task) : Task :=
  mkTask (id_ t) (name_ t) (priority_ t) (status_ t) (created_at_ t) (scheduled_for_ t)
    (started_at_ t) (completed_at_ t) (error_message_ t) (retry_count_ t) (max_retries_ t) v
    (enqueued_at_ t) (dequeued_at_ t).
Definition set_enqueued_at (v : Z) (t : Task) : Task :=
  mkTask (id_ t) (name_ t) (priority_ t) (status_ t) (created_at_ t) (scheduled_for_ t)
    (started_at_ t) (completed_at_ t) (error_message_ t) (retry_count_ t) (max_retries_ t)
    (dependencies_ t) v (dequeued_at_ t).
Definition set_dequeued_at (v : Z) (t : Task) : Task :=
  mkTask (id_ t) (name_ t) (priority_ t) (status_ t) (created_at_ t) (scheduled_for_ t)
    (started_at_ t) (completed_at_ t) (error_message_ t) (retry_count_ t) (max_retries_ t)
    (dependencies_ t) (enqueued_at_ t) v.

(** [Task::generateId]: [next_id_++] on a 64-bit atomic; the pair is the id
    handed out and the new counter. *)
Definition generateId (next_id : Z) : Z * Z := (next_id, w64 (next_id + 1)).

(** [Task::Task(name, priority)]. *)
Definition new_Task (now : Z) (next_id : Z) (name : string) (priority : TaskPriority) : Task * Z :=
  let '(id, next_id') := generateId next_id in
  (mkTask id name priority CREATED now now 0 0 "" 0 3 [] 0 0, next_id').

(** [status_.compare_exchange_strong(expected, desired)] with no other thread
    between the comparison and the exchange: success flag and new object. *)
Definition cas_status (expected desired : TaskStatus) (t : Task) : bool * Task :=
  if decide (status_ t = expected) then (true, set_status desired t) else (false, t).

Definition markQueued (now : Z) (t : Task) : Task :=
  let '(ok, t) := cas_status CREATED QUEUED t in
  if ok then set_scheduled_for now t else t.

Definition markStarted (now : Z) (t : Task) : Task :=
  let '(ok, t) := cas_status QUEUED RUNNING t in
  if ok then set_started_at now t else t.

Definition markCompleted (now : Z) (t : Task) : Task :=
  let '(ok, t) := cas_status RUNNING COMPLETED t in
  if ok then set_completed_at now t else t.

Definition canRetry (t : Task) : bool := bool_decide (retry_count_ t < max_retries_ t).

Definition setMaxRetries (retries : Z) (t : Task) : Task := set_max_retries retries t.

Definition markFailed (now : Z) (error : string) (t : Task) : Task :=
  let t := set_error_message error t in
  let '(ok, t) := cas_status RUNNING FAILED t in
  if ok then
    let t := set_completed_at now t in
    if canRetry t then
      let t := set_retry_count (w32 (retry_count_ t + 1)) t in
      set_status CREATED t
    else t
  else t.

Definition cancel (now : Z) (t : Task) : Task :=
  let current := status_ t in
  if bool_decide (current ≠ COMPLETED) && bool_decide (current ≠ FAILED)
     && bool_decide (current ≠ CANCELLED)
  then set_completed_at now (set_status CANCELLED t)
  else t.

(** [dependencies_.push_back(task)]: the weak reference to the object. *)
Definition addDependency (dep : loc) (t : Task) : Task :=
  set_dependencies (dependencies_ t ++ [dep]) t.

Fixpoint deps_met (store : gmap loc Task) (deps : list loc) : bool :=
  match deps with
  | [] => true
  | dep_weak :: deps =>
      match store !! dep_weak with
      | Some dep => if decide (status_ dep ≠ COMPLETED) then false else deps_met store deps
      | None => deps_met store deps
      end
  end.

Definition areDependenciesMet (store : gmap loc Task) (t : Task) : bool :=
  deps_met store (dependencies_ t).

(** [system_clock::to_time_t] truncates to whole seconds; [from_time_t]
    multiplies, which is undefined when the count leaves 64 bits. *)
Definition to_time_t (tp : Z) : Z := Z.quot tp 1000000000.

Definition from_time_t (s : Z) : outcome Z :=
  if decide (- 2 ^ 63 ≤ s * 1000000000 < 2 ^ 63) then Ret (s * 1000000000) else Undef.

Section json_form.
Context `{J : JsonLib}.

Definition toJson (store : gmap loc Task) (t : Task) : outcome json :=
  let j := json_null in
  j ← json_set j "id" (json_of_num (id_ t));
  j ← json_set j "name" (json_of_string (name_ t));
  j ← json_set j "priority" (json_of_num (priority_ t));
  j ← json_set j "status" (json_of_num (status_to_int (status_ t)));
  j ← json_set j "created_at" (json_of_num (to_time_t (created_at_ t)));
  j ← json_set j "scheduled_for" (json_of_num (to_time_t (scheduled_for_ t)));
  j ← json_set j "started_at" (json_of_num (to_time_t (started_at_ t)));
  j ← json_set j "completed_at" (json_of_num (to_time_t (completed_at_ t)));
  j ← json_set j "error_message" (json_of_string (error_message_ t));
  j ← json_set j "retry_count" (json_of_num (retry_count_ t));
  j ← json_set j "max_retries" (json_of_num (max_retries_ t));
  let dep_ids := omap (λ dep_weak, id_ <$> store !! dep_weak) (dependencies_ t) in
  json_set j "dependencies" (json_of_nums dep_ids).

(** One statement of [fromJson]: read a value and, when that returns, assign it;
    an exception leaves the assignments made before it in the object. *)
Definition assign {A} (read : outcome A) (set : A → Task → Task)
    (k : Task → Task * outcome unit) (t : Task) : Task * outcome unit :=
  match read with
  | Ret v => k (set v t)
  | Throw w => (t, Throw w)
  | Undef => (t, Undef)
  | Diverge => (t, Diverge)
  end.

Definition get_num (ty : int_ty) (j : json) (key : string) : outcome Z :=
  v ← json_at j key; json_get ty v.

Definition get_time (j : json) (key : string) : outcome Z :=
  s ← get_num I64 j key; from_time_t s.

Definition get_str (j : json) (key : string) : outcome string :=
  v ← json_at j key; json_get_string v.

Definition fromJson (j : json) (t : Task) : Task * outcome unit :=
  assign (get_num U64 j "id") set_id (
  assign (get_str j "name") set_name (
  assign (get_num I32 j "priority") set_priority (
  assign (get_num I32 j "status") (λ z, set_status (status_of_int z)) (
  assign (get_time j "created_at") set_created_at (
  assign (get_time j "scheduled_for") set_scheduled_for (
  assign (get_time j "started_at") set_started_at (
  assign (get_time j "completed_at") set_completed_at (
  assign (get_str j "error_message") set_error_message (
  assign (get_num U32 j "retry_count") set_retry_count (
  assign (get_num U32 j "max_retries") set_max_retries (
  λ t, (t, Ret tt)))))))))))) t.
End json_form.

(** ** Specification vocabulary *)

(** The range of every field of an object. *)
Record task_wf (t : Task) : Prop := {
  wf_id : 0 ≤ id_ t < 2 ^ 64;
  wf_priority : INT_MIN ≤ priority_ t ≤ INT_MAX;
  wf_status : status_of_int (status_to_int (status_ t)) = status_ t;
  wf_status_int : INT_MIN ≤ status_to_int (status_ t) ≤ INT_MAX;
  wf_created : - 2 ^ 63 ≤ created_at_ t < 2 ^ 63;
  wf_scheduled : - 2 ^ 63 ≤ scheduled_for_ t < 2 ^ 63;
  wf_started : - 2 ^ 63 ≤ started_at_ t < 2 ^ 63;
  wf_completed : - 2 ^ 63 ≤ completed_at_ t < 2 ^ 63;
  wf_retry : 0 ≤ retry_count_ t < 2 ^ 32;
  wf_max_retry : 0 ≤ max_retries_ t < 2 ^ 32
}.

(** The documented life of a task. *)
Inductive lifecycle : TaskStatus → TaskStatus → Prop :=
| life_queue : lifecycle CREATED QUEUED
| life_start : lifecycle QUEUED RUNNING
| life_complete : lifecycle RUNNING COMPLETED
| life_fail : lifecycle RUNNING FAILED
| life_retry : lifecycle RUNNING CREATED
| life_cancel s : s ≠ COMPLETED → s ≠ FAILED → s ≠ CANCELLED → lifecycle s CANCELLED.

Definition terminal (s : TaskStatus) : Prop := s = COMPLETED ∨ s = FAILED ∨ s = CANCELLED.

(** The calls a task can receive, and their effect in sequence. *)
Inductive task_op : Type :=
| OpMarkQueued (now : Z)
| OpMarkStarted (now : Z)
| OpMarkCompleted (now : Z)
| OpMarkFailed (now : Z) (error : string)
| OpCancel (now : Z).

Definition apply_op (o : task_op) (t : Task) : Task :=
  match o with
  | OpMarkQueued now => markQueued now t
  | OpMarkStarted now => markStarted now t
  | OpMarkCompleted now => markCompleted now t
  | OpMarkFailed now error => markFailed now error t
  | OpCancel now => cancel now t
  end.

Fixpoint run_ops (os : list task_op) (t : Task) : Task :=
  match os with
  | [] => t
  | o :: os => run_ops os (apply_op o t)
  end.

(** How many of the calls began an execution of the task. *)
Fixpoint executions (os : list task_op) (t : Task) : Z :=
  match os with
  | [] => 0
  | o :: os =>
      let t' := apply_op o t in
      (if decide (status_ t = QUEUED ∧ status_ t' = RUNNING) then 1 else 0) + executions os t'
  end.

(** Executions a task in this state can still begin. *)
Definition budget (t : Task) : Z :=
  let retries := Z.max 0 (max_retries_ t - retry_count_ t) in
  match status_ t with
  | CREATED | QUEUED => 1 + retries
  | RUNNING => retries
  | _ => 0
  end.

(** What [fromJson] of [toJson t] leaves in the object [t0] it is called on. *)
Definition json_image (t t0 : Task) : Task :=
  mkTask (id_ t) (name_ t) (priority_ t) (status_ t)
    (to_time_t (created_at_ t) * 1000000000) (to_time_t (scheduled_for_ t) * 1000000000)
    (to_time_t (started_at_ t) * 1000000000) (to_time_t (completed_at_ t) * 1000000000)
    (error_message_ t) (retry_count_ t) (max_retries_ t)
    (dependencies_ t0) (enqueued_at_ t0) (dequeued_at_ t0).

(** ** Lemmas *)

Ltac unfold_ops :=
  unfold apply_op, markQueued, markStarted, markCompleted, markFailed, cancel, cas_status, canRetry
    in *.

(** Evaluate a status operation on every status of the task. *)
Ltac task_cases t := destruct t as [? ? ? [] ? ? ? ? ? ? ? ? ? ?]; unfold_ops; cbn in *;
  repeat (case_decide || case_bool_decide); cbn in *; destruct_and?; simplify_eq; try done; try lia.

Lemma apply_op_lifecycle o t :
  status_ (apply_op o t) = status_ t ∨ lifecycle (status_ t) (status_ (apply_op o t)).
Proof. destruct o; task_cases t; first [by left | right; by constructor]. Qed.

Lemma apply_op_terminal o t : terminal (status_ t) → status_ (apply_op o t) = status_ t.
Proof. intros Ht. unfold terminal in Ht. destruct o; task_cases t; naive_solver. Qed.

Lemma apply_op_retry_bound o t :
  0 ≤ retry_count_ t ≤ max_retries_ t → max_retries_ t < 2 ^ 32 →
  0 ≤ retry_count_ (apply_op o t) ≤ max_retries_ (apply_op o t)
  ∧ max_retries_ (apply_op o t) = max_retries_ t.
Proof.
  intros ??. destruct o; task_cases t.
  all: unfold w32; rewrite Z.mod_small by lia; lia.
Qed.

Lemma executions_budget_step o t :
  0 ≤ retry_count_ t ≤ max_retries_ t → max_retries_ t < 2 ^ 32 →
  (if decide (status_ t = QUEUED ∧ status_ (apply_op o t) = RUNNING) then 1 else 0)
    + budget (apply_op o t) ≤ budget t.
Proof.
  intros ??. unfold budget. destruct o; task_cases t.
  all: unfold w32; rewrite Z.mod_small by lia; lia.
Qed.

Lemma to_time_t_range tp : - 2 ^ 63 ≤ tp < 2 ^ 63 →
  - 2 ^ 63 ≤ to_time_t tp < 2 ^ 63 ∧ - 2 ^ 63 ≤ to_time_t tp * 1000000000 < 2 ^ 63.
Proof. unfold to_time_t. intros. Z.to_euclidean_division_equations. lia. Qed.

Lemma deps_met_spec store deps :
  deps_met store deps = true ↔
  ∀ d t, d ∈ deps → store !! d = Some t → status_ t = COMPLETED.
Proof.
  induction deps as [|d deps IH]; cbn; [set_solver|].
  assert (Hcons : (∀ d' t, d' ∈ d :: deps → store !! d' = Some t → status_ t = COMPLETED) ↔
    (∀ t, store !! d = Some t → status_ t = COMPLETED) ∧
    (∀ d' t, d' ∈ deps → store !! d' = Some t → status_ t = COMPLETED)).
  { setoid_rewrite elem_of_cons. naive_solver. }
  rewrite Hcons, <-IH. clear. destruct (store !! d) as [t|]; [case_decide|]; naive_solver.
Qed.

Section json_lemmas.
Context `{J : JsonLib} `{L : !JsonLaws J}.

(** The entries [toJson] writes. *)
Definition json_entries (store : gmap loc Task) (t : Task) : gmap string json :=
  <["dependencies" := json_of_nums (omap (λ d, id_ <$> store !! d) (dependencies_ t))]> (
  <["max_retries" := json_of_num (max_retries_ t)]> (
  <["retry_count" := json_of_num (retry_count_ t)]> (
  <["error_message" := json_of_string (error_message_ t)]> (
  <["completed_at" := json_of_num (to_time_t (completed_at_ t))]> (
  <["started_at" := json_of_num (to_time_t (started_at_ t))]> (
  <["scheduled_for" := json_of_num (to_time_t (scheduled_for_ t))]> (
  <["created_at" := json_of_num (to_time_t (created_at_ t))]> (
  <["status" := json_of_num (status_to_int (status_ t))]> (
  <["priority" := json_of_num (priority_ t)]> (
  <["name" := json_of_string (name_ t)]> {["id" := json_of_num (id_ t)]})))))))))).

Lemma toJson_holds store t : ∃ j, toJson store t = Ret j ∧ json_holds j (json_entries store t).
Proof.
  unfold toJson, json_entries.
  destruct (json_holds_null "id" (json_of_num (id_ t))) as (j & -> & Hj). cbn [mbind outcome_bind].
  repeat lazymatch goal with
  | Hj : json_holds ?j ?m |- context [json_set ?j ?k ?v] =>
      let j' := fresh "j" in let Hj' := fresh "Hj" in
      destruct (json_holds_set j m k v Hj) as (j' & -> & Hj'); clear Hj; cbn [mbind outcome_bind]
  end.
  eauto.
Qed.

Lemma get_num_holds ty j m k z :
  json_holds j m → m !! k = Some (json_of_num z) → - 2 ^ 63 ≤ z < 2 ^ 64 →
  get_num ty j k = Ret (conv ty z).
Proof.
  intros Hj Hk Hz. unfold get_num. rewrite (json_holds_at _ _ _ _ Hj Hk). by apply json_get_num.
Qed.

Lemma get_time_holds j m k tp :
  json_holds j m → m !! k = Some (json_of_num (to_time_t tp)) → - 2 ^ 63 ≤ tp < 2 ^ 63 →
  get_time j k = Ret (to_time_t tp * 1000000000).
Proof.
  intros Hj Hk Htp. apply to_time_t_range in Htp as [Hs Hns].
  unfold get_time. rewrite (get_num_holds _ _ _ _ _ Hj Hk) by lia. cbn.
  change (s64 (to_time_t tp)) with (conv I64 (to_time_t tp)). rewrite conv_id by done.
  unfold from_time_t. by rewrite decide_True by done.
Qed.

Lemma get_str_holds j m k s :
  json_holds j m → m !! k = Some (json_of_string s) → get_str j k = Ret s.
Proof.
  intros Hj Hk. unfold get_str. rewrite (json_holds_at _ _ _ _ Hj Hk). apply json_get_str.
Qed.

Lemma assign_Ret {A} (read : outcome A) v set k t :
  read = Ret v → assign read set k t = k (set v t).
Proof. by intros ->. Qed.

Lemma fromJson_toJson store t t0 j : task_wf t →
  toJson store t = Ret j → fromJson j t0 = (json_image t t0, Ret tt).
Proof.
  intros [] Hto. destruct (toJson_holds store t) as (j' & Hj' & Hj).
  rewrite Hto in Hj'. injection Hj' as <-.
  unfold fromJson. unfold INT_MIN, INT_MAX in *.
  repeat (erewrite assign_Ret by
    first [ eapply get_str_holds; [exact Hj | reflexivity]
          | eapply get_time_holds; [exact Hj | reflexivity | lia]
          | eapply get_num_holds; [exact Hj | reflexivity | lia] ]).
  rewrite !conv_id by (unfold INT_MIN, INT_MAX; lia). rewrite wf_status0.
  done.
Qed.
End json_lemmas.

(** ** Properties *)


(** C10: However its calls are sequenced, a task with [retry_count_ = r] and
    [max_retries_ = m] begins at most [m - r + 1] executions, and the retry
    counter never passes its bound. *)
Theorem executions_bounded os t
    (Hretry : 0 ≤ retry_count_ t ≤ max_retries_ t) (Hmax : max_retries_ t < 2 ^ 32) :
  executions os t ≤ max_retries_ t - retry_count_ t + 1 ∧
  retry_count_ (run_ops os t) ≤ max_retries_ t.
Proof.
  assert (Hinv : executions os t + budget (run_ops os t) ≤ budget t ∧
    0 ≤ retry_count_ (run_ops os t) ≤ max_retries_ t).
  { revert t Hretry Hmax. induction os as [|o os IH]; intros t ??; cbn; [lia|].
    destruct (apply_op_retry_bound o t) as [Hb Hm]; [done..|].
    destruct (IH (apply_op o t)) as [IHe IHr]; [done | by rewrite Hm |].
    pose proof (executions_budget_step o t). lia. }
  assert (Hb : ∀ t', 0 ≤ budget t') by (intros t'; unfold budget; destruct (status_ t'); lia).
  specialize (Hb (run_ops os t)). unfold budget in Hinv at 2. destruct (status_ t); lia.
Qed.

Definition demo_task : Task := (new_Task 5000000000 7 "job" MEDIUM).1.

Lemma executions_bounded_witness :
  executions [OpMarkQueued 1; OpMarkStarted 2; OpMarkFailed 3 "boom"; OpMarkQueued 4;
              OpMarkStarted 5; OpMarkCompleted 6] demo_task = 2 ∧
  executions [OpMarkQueued 1; OpMarkStarted 2; OpMarkFailed 3 "boom"; OpMarkQueued 4;
              OpMarkStarted 5; OpMarkCompleted 6] demo_task ≤ 3 - 0 + 1.
Proof. split; [reflexivity|]. apply (executions_bounded _ demo_task); cbn; lia. Defined.

(** [markFailed] on a running task with attempts left counts the attempt and
    sends the task back to CREATED; with none left it leaves the task FAILED; on
    a task that is not running it changes nothing but the error text. *)
Lemma markFailed_outcome now error t :
  (status_ t = RUNNING → retry_count_ t < max_retries_ t →
     markFailed now error t =
       set_status CREATED (set_retry_count (w32 (retry_count_ t + 1))
         (set_completed_at now (set_error_message error t)))) ∧
  (status_ t = RUNNING → max_retries_ t ≤ retry_count_ t →
     markFailed now error t = set_status FAILED (set_completed_at now (set_error_message error t))) ∧
  (status_ t ≠ RUNNING → markFailed now error t = set_error_message error t).
Proof.
  unfold markFailed, cas_status, canRetry. cbn. repeat split; intros.
  - rewrite decide_True by done. cbn. by rewrite bool_decide_eq_true_2 by done.
  - rewrite decide_True by done. cbn. by rewrite bool_decide_eq_false_2 by (cbn; lia).
  - by rewrite decide_False by done.
Qed.

(** [areDependenciesMet] holds exactly when every dependency object that is still
    alive has completed; a dependency whose object is gone does not count. *)
Lemma areDependenciesMet_spec store t :
  areDependenciesMet store t = true ↔
  ∀ d dep, d ∈ dependencies_ t → store !! d = Some dep → status_ dep = COMPLETED.
Proof. apply deps_met_spec. Qed.

(** [toJson] never fails, and [fromJson] of what it wrote restores id, name,
    priority, status, error text and retry counters exactly, restores the four
    time points to whole seconds, and leaves the dependency list of the object
    it is called on as it was. *)
Theorem json_roundtrip `{J : JsonLib} `{L : !JsonLaws J} store t t0 (Hwf : task_wf t) :
  ∃ j, toJson store t = Ret j ∧ fromJson j t0 = (json_image t t0, Ret tt).
Proof.
  destruct (toJson_holds store t) as (j & Hj & _). exists j. split; [done|].
  by apply (fromJson_toJson store).
Qed.

Lemma json_roundtrip_witness :
  task_wf demo_task ∧
  ∃ j, toJson (J := TreeJson.lib) ∅ demo_task = Ret j ∧
    fromJson (J := TreeJson.lib) j (new_Task 0 9 "" LOW).1 = (json_image demo_task (new_Task 0 9 "" LOW).1, Ret tt).
Proof.
  assert (Hwf : task_wf demo_task).
  { split; cbn; unfold INT_MIN, INT_MAX; try lia; done. }
  split; [exact Hwf|]. exact (json_roundtrip (L := TreeJson.laws) ∅ demo_task _ Hwf).
Defined.
