(* ===== verification/TaskRace.v ===== *)
(** * Task under concurrent calls

    [status_] is a [std::atomic]: the status methods of src/core/Task.cpp are
    sequences of atomic actions, and worker threads, the [kill] and the
    [cancel] commands run them on the same object.  This file splits each
    method at its atomic actions (one [compare_exchange_strong], one [load], one
    [store], one plain field write per step) and lets any number of threads
    interleave them. *)

From S2P Require Import Prelude Task.

(** Where a thread is inside a method. *)
Inductive pc : Type :=
| Idle
| WriteScheduled  (** markQueued, after the successful exchange *)
| WriteStarted    (** markStarted, after the successful exchange *)
| WriteCompleted  (** markCompleted, after the successful exchange *)
| FailExchange    (** markFailed, after the write of [error_message_] *)
| FailStamp       (** markFailed, after the successful exchange *)
| FailCheck       (** before [canRetry()] *)
| FailCount       (** before [retry_count_++] *)
| FailReset       (** before [status_.store(CREATED)] *)
| CancelStore     (** cancel, after a [load] of a non-terminal status *)
| CancelStamp.    (** after [status_.store(CANCELLED)] *)

Global Instance pc_eq_dec : EqDecision pc.
Proof. solve_decision. Defined.

(** The shared object and the threads. *)
Record race : Type := mkRace { obj : Task; threads : gmap nat pc }.

(** One atomic action of a thread: object and position before and after. *)
Inductive action : Task → pc → Task → pc → Prop :=
| act_markQueued t :
    action t Idle (cas_status CREATED QUEUED t).2
      (if (cas_status CREATED QUEUED t).1 then WriteScheduled else Idle)
| act_write_scheduled t now : action t WriteScheduled (set_scheduled_for now t) Idle
| act_markStarted t :
    action t Idle (cas_status QUEUED RUNNING t).2
      (if (cas_status QUEUED RUNNING t).1 then WriteStarted else Idle)
| act_write_started t now : action t WriteStarted (set_started_at now t) Idle
| act_markCompleted t :
    action t Idle (cas_status RUNNING COMPLETED t).2
      (if (cas_status RUNNING COMPLETED t).1 then WriteCompleted else Idle)
| act_write_completed t now : action t WriteCompleted (set_completed_at now t) Idle
| act_markFailed t error : action t Idle (set_error_message error t) FailExchange
| act_fail_exchange t :
    action t FailExchange (cas_status RUNNING FAILED t).2
      (if (cas_status RUNNING FAILED t).1 then FailStamp else Idle)
| act_fail_stamp t now : action t FailStamp (set_completed_at now t) FailCheck
| act_fail_check t : action t FailCheck t (if canRetry t then FailCount else Idle)
| act_fail_count t :
    action t FailCount (set_retry_count (w32 (retry_count_ t + 1)) t) FailReset
| act_fail_reset t : action t FailReset (set_status CREATED t) Idle
| act_cancel_load t :
    action t Idle t
      (if bool_decide (status_ t ≠ COMPLETED) && bool_decide (status_ t ≠ FAILED)
          && bool_decide (status_ t ≠ CANCELLED) then CancelStore else Idle)
| act_cancel_store t : action t CancelStore (set_status CANCELLED t) CancelStamp
| act_cancel_stamp t now : action t CancelStamp (set_completed_at now t) Idle.

(** Any thread may take the next action. *)
Inductive race_step : race → race → Prop :=
| race_step_intro t T i p t' p' :
    T !! i = Some p → action t p t' p' →
    race_step (mkRace t T) (mkRace t' (<[i := p']> T)).

(** Between the exchange to FAILED and the end of [markFailed]. *)
Definition in_failure (p : pc) : Prop :=
  p = FailStamp ∨ p = FailCheck ∨ p = FailCount ∨ p = FailReset.

(** No method is in progress. *)
Definition quiet (s : race) : Prop := ∀ i p, threads s !! i = Some p → p = Idle.

(** One thread at a time owns the failure section, and only a concurrent
    [cancel] can have changed the status meanwhile. *)
Record race_inv (s : race) : Prop := {
  inv_excl i j p q : threads s !! i = Some p → threads s !! j = Some q →
    in_failure p → in_failure q → i = j;
  inv_status i p : threads s !! i = Some p → in_failure p →
    status_ (obj s) = FAILED ∨ status_ (obj s) = CANCELLED;
  inv_count i : threads s !! i = Some FailCount → retry_count_ (obj s) < max_retries_ (obj s);
  inv_retry : 0 ≤ retry_count_ (obj s) ≤ max_retries_ (obj s)
}.

(** The task has completed: nothing but a late cancellation can follow. *)
Definition finished (s : race) : Prop :=
  (status_ (obj s) = COMPLETED ∨ status_ (obj s) = CANCELLED) ∧
  ∀ i p, threads s !! i = Some p → ¬ in_failure p.

(** ** Lemmas *)

Lemma cas_status_cases e d t :
  (status_ t = e ∧ cas_status e d t = (true, set_status d t)) ∨
  (status_ t ≠ e ∧ cas_status e d t = (false, t)).
Proof. unfold cas_status. case_decide; auto. Qed.

(** Replace the exchange of a step by its two cases. *)
Ltac cas_cases := try match goal with
  | |- context [cas_status ?e ?d ?t] =>
      destruct (cas_status_cases e d t) as [[? ->]|[? ->]]
  end.

Global Instance in_failure_dec p : Decision (in_failure p).
Proof. unfold in_failure. apply _. Defined.

(** What one action can do, by where it starts. *)
Lemma action_outside t p t' p' : action t p t' p' → ¬ in_failure p →
  retry_count_ t' = retry_count_ t ∧ max_retries_ t' = max_retries_ t ∧ p' ≠ FailCount ∧
  (in_failure p' → status_ t = RUNNING ∧ status_ t' = FAILED) ∧
  (status_ t = FAILED ∨ status_ t = CANCELLED → status_ t' = status_ t ∨ status_ t' = CANCELLED) ∧
  (status_ t = COMPLETED → status_ t' = COMPLETED ∨ status_ t' = CANCELLED).
Proof.
  unfold in_failure. intros Hact Hp.
  destruct Hact; cas_cases; cbn in *; try (exfalso; naive_solver);
    repeat case_bool_decide; cbn; split_and!; try done;
    first [by intros; destruct_or?; congruence | naive_solver].
Qed.

Lemma action_inside t p t' p' : action t p t' p' → in_failure p →
  max_retries_ t' = max_retries_ t ∧ (in_failure p' → status_ t' = status_ t) ∧
  (retry_count_ t' = retry_count_ t ∨ p = FailCount ∧ retry_count_ t' = w32 (retry_count_ t + 1)) ∧
  (p' = FailCount → retry_count_ t' < max_retries_ t').
Proof.
  unfold in_failure. intros Hact Hp.
  destruct Hact; cbn in *; unfold canRetry; try case_bool_decide;
    split_and!; try done; naive_solver.
Qed.

Lemma race_inv_step s s' : max_retries_ (obj s) < 2 ^ 32 →
  race_step s s' → race_inv s → race_inv s' ∧ max_retries_ (obj s') = max_retries_ (obj s).
Proof.
  intros Hmax Hstep. destruct Hstep as [t T i p t' p' Hi Hact] in Hmax |- *.
  intros [Hexcl Hstatus Hcount Hretry]. cbn in *.
  destruct (decide (in_failure p)) as [Hp|Hp].
  - destruct (action_inside _ _ _ _ Hact Hp) as (Hm & Hst & Hrc & Hfc).
    assert (Hother : ∀ j q, <[i:=p']> T !! j = Some q → in_failure q → j = i ∧ q = p').
    { intros j q [[<- <-]|[Hne Hj]]%lookup_insert_Some Hq; [done|].
      destruct Hne. by apply (Hexcl i j p q). }
    split; [|done]. split; cbn.
    + intros j k q r Hj Hk Hq Hr.
      destruct (Hother j q Hj Hq), (Hother k r Hk Hr). by subst.
    + intros j q Hj Hq. destruct (Hother j q Hj Hq) as [-> ->]. rewrite Hst by done. eauto.
    + intros j Hj. destruct (Hother j FailCount Hj) as [_ <-]; [unfold in_failure; auto | eauto].
    + destruct Hrc as [->|[-> ->]]; [lia|]. unfold w32.
      specialize (Hcount i Hi). rewrite Z.mod_small by lia. lia.
  - destruct (action_outside _ _ _ _ Hact Hp) as (Hrc & Hm & Hfc & Hin & Hst & _).
    assert (Hold : ∀ j q, <[i:=p']> T !! j = Some q → j ≠ i → T !! j = Some q).
    { intros j q Hj Hne. by rewrite lookup_insert_ne in Hj. }
    assert (Hnew : ∀ j q, T !! j = Some q → in_failure q → ¬ in_failure p').
    { intros j q Hj Hq [Hr _]%Hin. destruct (Hstatus j q Hj Hq); congruence. }
    assert (Hboth : ∀ j q, <[i:=p']> T !! j = Some q → in_failure q →
      (j = i ∧ q = p') ∨ (T !! j = Some q ∧ ¬ in_failure p')).
    { intros j q [[<- <-]|[Hne Hj]]%lookup_insert_Some Hq; [by left|]. right. eauto. }
    split; [|done]. split; cbn.
    + intros j k q r Hj Hk Hq Hr.
      destruct (Hboth j q Hj Hq) as [[-> ->]|[Hj' ?]], (Hboth k r Hk Hr) as [[-> ->]|[Hk' ?]];
        eauto; done.
    + intros j q Hj Hq. destruct (Hboth j q Hj Hq) as [[-> ->]|[Hj' ?]].
      * left. by apply Hin.
      * destruct (Hst (Hstatus j q Hj' Hq)) as [->|]; eauto.
    + intros j [[-> ->]|[Hne Hj]]%lookup_insert_Some; [done|]. rewrite Hrc, Hm. eauto.
    + rewrite Hrc, Hm. done.
Qed.

Lemma race_inv_quiet s : quiet s →
  0 ≤ retry_count_ (obj s) ≤ max_retries_ (obj s) → race_inv s.
Proof.
  intros Hq Hr. assert (Hno : ∀ i p, threads s !! i = Some p → ¬ in_failure p).
  { intros i p ->%Hq. unfold in_failure. naive_solver. }
  split; try done; [naive_solver..|]. intros i Hi. destruct (Hno _ _ Hi). unfold in_failure. auto.
Qed.

Lemma race_inv_reach s s' : max_retries_ (obj s) < 2 ^ 32 → rtc race_step s s' → race_inv s →
  race_inv s' ∧ max_retries_ (obj s') = max_retries_ (obj s).
Proof.
  intros Hmax Hreach. revert Hmax. induction Hreach as [|s s1 s2 Hstep _ IH]; intros Hmax Hinv; [done|].
  destruct (race_inv_step s s1 Hmax Hstep Hinv) as [Hinv1 Hm].
  rewrite <-Hm in *. eauto.
Qed.

Lemma finished_step s s' : race_step s s' → finished s → finished s'.
Proof.
  intros [t T i p t' p' Hi Hact] [Hst Hno]. cbn in *.
  destruct (action_outside _ _ _ _ Hact (Hno _ _ Hi)) as (_ & _ & _ & Hin & Hf & Hc).
  split; cbn.
  - destruct Hst as [Hst|Hst]; [by apply Hc|]. right. destruct Hf as [->|]; auto.
  - intros j q [[<- <-]|[Hne Hj]]%lookup_insert_Some; [|eauto].
    intros [? _]%Hin. destruct Hst; congruence.
Qed.

(** Building concrete interleavings: the next action, and the end. *)
Lemma race_go i p t t' p' T s' :
  T !! i = Some p → action t p t' p' →
  rtc race_step (mkRace t' (<[i := p']> T)) s' → rtc race_step (mkRace t T) s'.
Proof. intros. eapply rtc_l; [|done]. by econstructor. Qed.

Lemma race_end s s' : s = s' → rtc race_step s s'.
Proof. by intros ->. Qed.

(** ** Properties *)

(** C24: Under every interleaving of the status methods by any number of threads,
    the retry counter stays within [max_retries_], at most one thread at a time
    is between the exchange to FAILED and the end of [markFailed], and while one
    is, the status is FAILED or, by a concurrent [cancel], CANCELLED. *)
Theorem race_retry_bounded s s' (Hquiet : quiet s)
    (Hretry : 0 ≤ retry_count_ (obj s) ≤ max_retries_ (obj s))
    (Hmax : max_retries_ (obj s) < 2 ^ 32) (Hreach : rtc race_step s s') :
  retry_count_ (obj s') ≤ max_retries_ (obj s) ∧
  (∀ i j p q, threads s' !! i = Some p → threads s' !! j = Some q →
     in_failure p → in_failure q → i = j) ∧
  (∀ i p, threads s' !! i = Some p → in_failure p →
     status_ (obj s') = FAILED ∨ status_ (obj s') = CANCELLED).
Proof.
  destruct (race_inv_reach s s' Hmax Hreach (race_inv_quiet s Hquiet Hretry)) as [[] Hm].
  rewrite <-Hm. split_and!; [lia | done | done].
Qed.

(** Once a task is COMPLETED it is never executed again, whatever the threads
    interleave: from then on its status is COMPLETED or CANCELLED and no thread
    is inside the failure section that could reset it. *)
Theorem race_completed_final s s1 s2 (Hquiet : quiet s)
    (Hretry : 0 ≤ retry_count_ (obj s) ≤ max_retries_ (obj s))
    (Hmax : max_retries_ (obj s) < 2 ^ 32)
    (Hreach : rtc race_step s s1) (Hdone : status_ (obj s1) = COMPLETED)
    (Hlater : rtc race_step s1 s2) :
  (status_ (obj s2) = COMPLETED ∨ status_ (obj s2) = CANCELLED) ∧
  ∀ i p, threads s2 !! i = Some p → ¬ in_failure p.
Proof.
  destruct (race_inv_reach s s1 Hmax Hreach (race_inv_quiet s Hquiet Hretry)) as [[_ Hst _ _] _].
  assert (Hfin : finished s1).
  { split; [by left|]. intros i p Hi Hp. destruct (Hst i p Hi Hp); congruence. }
  clear -Hfin Hlater. induction Hlater; [done|]. eauto using finished_step.
Qed.

Definition race0 : race :=
  mkRace (set_status RUNNING demo_task) {[0%nat := Idle; 1%nat := Idle]}.

(** Thread 0 completes the task while thread 1 is between the load and the store
    of [cancel]. *)
Definition race1 : race :=
  mkRace (set_status COMPLETED demo_task) {[0%nat := WriteCompleted; 1%nat := CancelStore]}.

Lemma race_quiet0 : quiet race0.
Proof. intros i p Hp. unfold race0 in Hp. cbn in Hp.
  apply lookup_insert_Some in Hp as [[_ <-]|[_ Hp]]; [done|].
  by apply lookup_singleton_Some in Hp as [_ <-].
Qed.


Lemma race_reach1 : rtc race_step race0 race1.
Proof.
  eapply (race_go 1%nat); [reflexivity | apply act_cancel_load |].
  eapply (race_go 0%nat); [reflexivity | apply act_markCompleted |].
  apply race_end. reflexivity.
Qed.

Lemma race_retry_bounded_witness :
  rtc race_step race0 race1 ∧ retry_count_ (obj race1) ≤ 3.
Proof.
  split; [exact race_reach1|].
  apply (race_retry_bounded race0 race1 race_quiet0); [cbn; lia | cbn; lia | exact race_reach1].
Defined.

Lemma race_completed_final_witness :
  status_ (obj race1) = COMPLETED ∧ ∀ i p, threads race1 !! i = Some p → ¬ in_failure p.
Proof.
  split; [reflexivity|].
  apply (race_completed_final race0 race1 race1 race_quiet0);
    [cbn; lia | cbn; lia | exact race_reach1 | reflexivity | apply rtc_refl].
Defined.

(** [cancel] loads the status and stores CANCELLED in two steps, so a task that
    completed in between is recorded as cancelled after it ran to the end; and a
    [markFailed] that is about to reset the status undoes a cancellation that
    comes between its exchange and its store.  Neither happens when the calls
    run one after the other. *)
Theorem cancel_races :
  (∃ s1 s2, rtc race_step race0 s1 ∧ rtc race_step s1 s2 ∧
     status_ (obj s1) = COMPLETED ∧ status_ (obj s2) = CANCELLED) ∧
  (∃ s1 s2, rtc race_step race0 s1 ∧ rtc race_step s1 s2 ∧
     status_ (obj s1) = CANCELLED ∧ status_ (obj s2) = CREATED).
Proof.
  split.
  - exists race1. eexists. split; [exact race_reach1|]. split.
    + eapply (race_go 1%nat); [reflexivity | apply act_cancel_store | apply rtc_refl].
    + done.
  - do 2 eexists. split; [|split].
    + eapply (race_go 1%nat); [reflexivity | apply act_cancel_load |].
      eapply (race_go 0%nat); [reflexivity | apply (act_markFailed _ "boom") |].
      eapply (race_go 0%nat); [reflexivity | apply act_fail_exchange |].
      eapply (race_go 0%nat); [reflexivity | apply (act_fail_stamp _ 0) |].
      eapply (race_go 0%nat); [reflexivity | apply act_fail_check |].
      eapply (race_go 0%nat); [reflexivity | apply act_fail_count |].
      eapply (race_go 1%nat); [reflexivity | apply act_cancel_store | apply rtc_refl].
    + eapply (race_go 0%nat); [reflexivity | apply act_fail_reset | apply rtc_refl].
    + done.
Qed.
