(* ===== verification/NodeQueue.v ===== *)
(** * TaskNode objects and the interface of the three queue classes

    [QueueManager] keeps its tasks in heap-allocated [TaskNode]s that it hands to
    [LockFreeQueue], [LockFreeStack] and [LockFreePriorityQueue].  This file has
    the node heap, the theory of singly linked chains the three structures
    share, and the class [NodeQueue] with its laws: what a queue promises to
    [QueueManager].  LockFree.v and SkipList.v discharge it. *)

From S2P Require Import Prelude.

(** [QueueManager::TaskNode], with the [next_] member of its base
    [IntrusiveListNode]; [task] is the [shared_ptr<Task>]. *)
Record TaskNode : Type := mkNode { next_ : option loc; task : option loc }.

Definition set_next (p : option loc) (n : TaskNode) : TaskNode := mkNode p (task n).

(** The nodes that have been allocated and not deleted. *)
Abbreviation heap := (gmap loc TaskNode) (only parsing).

(** [new TaskNode(task)]. *)
Definition new_TaskNode (h : heap) (t : option loc) : loc * heap :=
  let l := fresh (dom h) in (l, <[l := mkNode None t]> h).

(** Choices the machine makes during one call: how often each
    [compare_exchange_weak] fails spuriously, and the level [getRandomLevel]
    draws. *)
Record choices : Type := mkChoices { spurious : nat; random_level : nat }.

(** ** Linked chains

    [nx l] is the successor pointer stored at [l], [None] when [l] has no such
    slot.  [linked nx L e]: the cells of [L] are chained in order and the last
    one points to [e]. *)

Definition first_or (L : list loc) (e : option loc) : option loc :=
  match L with
  | [] => e
  | l :: _ => Some l
  end.

Fixpoint linked (nx : loc → option (option loc)) (L : list loc) (e : option loc) : Prop :=
  match L with
  | [] => True
  | l :: L => nx l = Some (first_or L e) ∧ linked nx L e
  end.

Definition heap_next (h : heap) (l : loc) : option (option loc) := next_ <$> h !! l.

Lemma first_or_app A B e : first_or (A ++ B) e = first_or A (first_or B e).
Proof. by destruct A. Qed.

Lemma first_or_None L : first_or L None = head L.
Proof. by destruct L. Qed.

Lemma linked_app nx A B e :
  linked nx (A ++ B) e ↔ linked nx A (first_or B e) ∧ linked nx B e.
Proof.
  induction A as [|a A IH]; cbn; [naive_solver|]. rewrite first_or_app, IH. naive_solver.
Qed.

Lemma linked_ext nx nx' L e : (∀ l, l ∈ L → nx' l = nx l) → linked nx L e → linked nx' L e.
Proof.
  induction L as [|l L IH]; cbn; [done|]. intros Hext [Hl HL]. split.
  - rewrite Hext by set_solver. done.
  - apply IH; [|done]. intros. apply Hext. set_solver.
Qed.

(** Redirecting the last cell of a chain. *)
Lemma linked_snoc_update nx nx' A u e e' :
  nx' u = Some e' → (∀ l, l ∈ A → nx' l = nx l) →
  linked nx (A ++ [u]) e → linked nx' (A ++ [u]) e'.
Proof.
  intros Hu HA. rewrite !linked_app. cbn. intros [HlA _]. split; [|done].
  eapply linked_ext; eauto.
Qed.

Lemma linked_lookup nx A u B e : linked nx (A ++ u :: B) e → nx u = Some (first_or B e).
Proof. rewrite linked_app. naive_solver. Qed.

(** ** The interface *)

Class NodeQueue (Q : Type) := {
  (** a default-constructed queue *)
  nq_new : Q;
  (** add the node at an address, with its task's priority *)
  nq_push : choices → heap → Q → loc → Z → outcome (heap * Q);
  (** remove the next node; [None] is a null result *)
  nq_pop : choices → heap → Q → outcome (option loc * Q);
  nq_peek : Q → outcome (option loc);
  nq_empty : Q → outcome bool;
  nq_size : Q → Z
}.

(** Two heaps with the same nodes and the same tasks in them, whatever the links. *)
Definition same_tasks (h h' : heap) : Prop := ∀ l, task <$> h' !! l = task <$> h !! l.

(** [nq_rep h q xs]: the queue [q] holds the nodes of [xs], in the order it will
    release them, each with the priority it was added with.  [nq_insert] is the
    discipline: where an added node goes. *)
Class NodeQueueLaws (Q : Type) `{NodeQueue Q} := {
  nq_ok : choices → Prop;
  nq_rep : heap → Q → list (loc * Z) → Prop;
  nq_insert : loc → Z → list (loc * Z) → list (loc * Z);
  nq_insert_perm l p xs : nq_insert l p xs ≡ₚ (l, p) :: xs;
  nq_rep_new h : nq_rep h nq_new [];
  (** only the queue's own nodes matter *)
  nq_rep_frame h h' q xs :
    (∀ l, l ∈ xs.*1 → h' !! l = h !! l) → nq_rep h q xs → nq_rep h' q xs;
  nq_push_spec c h q xs l p :
    nq_ok c → nq_rep h q xs → is_Some (h !! l) → l ∉ xs.*1 →
    ∃ h' q', nq_push c h q l p = Ret (h', q') ∧ nq_rep h' q' (nq_insert l p xs) ∧
      same_tasks h h' ∧ (∀ l', l' ≠ l → l' ∉ xs.*1 → h' !! l' = h !! l');
  nq_pop_spec c h q xs :
    nq_ok c → nq_rep h q xs →
    match xs with
    | [] => nq_pop c h q = Ret (None, q)
    | (l, _) :: xs' => ∃ q', nq_pop c h q = Ret (Some l, q') ∧ nq_rep h q' xs'
    end;
  nq_peek_spec h q xs : nq_rep h q xs → nq_peek q = Ret (fst <$> head xs);
  nq_empty_spec h q xs : nq_rep h q xs → nq_empty q = Ret (bool_decide (xs = []));
  nq_size_spec h q xs : nq_rep h q xs → nq_size q = w64 (Z.of_nat (length xs));
  nq_rep_nodup h q xs : nq_rep h q xs → NoDup (xs.*1);
  nq_rep_live h q xs l : nq_rep h q xs → l ∈ xs.*1 → is_Some (h !! l)
}.

(** ** Client programs

    A sequence of calls on one queue, run on the structure and on the list it
    represents. *)

Inductive qop : Type :=
| QPush (c : choices) (l : loc) (p : Z)
| QPop (c : choices).

Fixpoint nq_run {Q} `{NodeQueue Q} (ops : list qop) (h : heap) (q : Q)
    : outcome (list (option loc) * heap * Q) :=
  match ops with
  | [] => Ret ([], h, q)
  | QPush c l p :: ops => '(h, q) ← nq_push c h q l p; nq_run ops h q
  | QPop c :: ops =>
      '(r, q) ← nq_pop c h q;
      '(rs, h, q) ← nq_run ops h q;
      Ret (r :: rs, h, q)
  end.

Fixpoint spec_run (ins : loc → Z → list (loc * Z) → list (loc * Z))
    (ops : list qop) (xs : list (loc * Z)) : list (option loc) * list (loc * Z) :=
  match ops with
  | [] => ([], xs)
  | QPush _ l p :: ops => spec_run ins ops (ins l p xs)
  | QPop _ :: ops =>
      let '(rs, ys) := spec_run ins ops (tail xs) in ((fst <$> head xs) :: rs, ys)
  end.

(** The caller's side of the contract: it adds live nodes that are not already
    in the queue, and the machine's choices are in range. *)
Fixpoint ops_valid (ok : choices → Prop) (ins : loc → Z → list (loc * Z) → list (loc * Z))
    (h : heap) (ops : list qop) (xs : list (loc * Z)) : Prop :=
  match ops with
  | [] => True
  | QPush c l p :: ops =>
      ok c ∧ is_Some (h !! l) ∧ l ∉ xs.*1 ∧ ops_valid ok ins h ops (ins l p xs)
  | QPop c :: ops => ok c ∧ ops_valid ok ins h ops (tail xs)
  end.

Section client.
Context {Q} `{NQ : NodeQueue Q} `{NQL : !NodeQueueLaws Q}.

Lemma same_tasks_is_Some h h' l : same_tasks h h' → is_Some (h' !! l) ↔ is_Some (h !! l).
Proof.
  intros Hst. specialize (Hst l). rewrite <-!(fmap_is_Some task). by rewrite Hst.
Qed.

Lemma ops_valid_same_tasks ok ins h h' ops xs :
  same_tasks h h' → ops_valid ok ins h ops xs → ops_valid ok ins h' ops xs.
Proof.
  intros Hst. revert xs. induction ops as [|[] ops IH]; intros xs; cbn; [done|..].
  - rewrite (same_tasks_is_Some h h') by done. naive_solver.
  - naive_solver.
Qed.

Lemma nq_run_spec ops h q xs :
  nq_rep h q xs → ops_valid nq_ok nq_insert h ops xs →
  ∃ h' q', nq_run ops h q = Ret ((spec_run nq_insert ops xs).1, h', q') ∧
    nq_rep h' q' (spec_run nq_insert ops xs).2.
Proof.
  revert h q xs. induction ops as [|[c l p|c] ops IH]; intros h q xs Hrep; cbn; [eauto|..].
  - intros (Hc & Hl & Hnl & Hops).
    destruct (nq_push_spec c h q xs l p Hc Hrep Hl Hnl) as (h1 & q1 & -> & Hrep1 & Hst & _). cbn.
    apply IH; [done|]. by apply (ops_valid_same_tasks _ _ h).
  - intros [Hc Hops]. pose proof (nq_pop_spec c h q xs Hc Hrep) as Hpop.
    destruct xs as [|[l p] xs]; cbn in *.
    + rewrite Hpop. cbn. destruct (IH h q [] Hrep Hops) as (h' & q' & -> & Hrep'). cbn.
      destruct (spec_run nq_insert ops []). eauto.
    + destruct Hpop as (q1 & -> & Hrep1). cbn.
      destruct (IH h q1 xs Hrep1 Hops) as (h' & q' & -> & Hrep'). cbn.
      destruct (spec_run nq_insert ops xs). eauto.
Qed.
End client.
