(* ===== verification/LockFree.v ===== *)
(** * IntrusiveList, LockFreeQueue and LockFreeStack

    Models the three classes of include/utils/DataStructures.hpp that chain the
    [next_] members of nodes.  [QueueManager] calls the mutating methods under
    its exclusive [queue_mutex_], so a call runs with no other thread on the
    structure; every [compare_exchange_weak] may still fail spuriously, and its
    retry loop is modelled with the number of such failures as an argument. *)

From S2P Require Import Prelude NodeQueue.

(** ** IntrusiveList *)

Record IntrusiveList : Type := mkList {
  head_ : option loc;
  tail_ : option loc;
  size_ : Z
}.

Definition new_IntrusiveList : IntrusiveList := mkList None None 0.

(** [while (!head_.compare_exchange_weak(node->next_, node)) {}]: a failure stores
    the current head in [node->next_], and the exchange after the last failure
    finds the head it loaded.  The result is the heap and the head. *)
Fixpoint cas_push (spurious : nat) (h : heap) (head : option loc) (node : loc)
    : outcome (heap * option loc) :=
  n ← deref (h !! node);
  if decide (spurious = 0%nat ∧ next_ n = head) then Ret (h, Some node)
  else
    let h := <[node := set_next head n]> h in
    match spurious with
    | S spurious => cas_push spurious h head node
    | O => Ret (h, Some node)
    end.

Definition pushFront (c : choices) (h : heap) (q : IntrusiveList) (node : loc)
    : outcome (heap * IntrusiveList) :=
  n ← deref (h !! node);
  let h := <[node := set_next (head_ q) n]> h in
  '(h, head) ← cas_push (spurious c) h (head_ q) node;
  n ← deref (h !! node);
  let tail := match next_ n with None => Some node | Some _ => tail_ q end in
  Ret (h, mkList head tail (w64 (size_ q + 1))).

Definition pushBack (h : heap) (q : IntrusiveList) (node : loc) : outcome (heap * IntrusiveList) :=
  n ← deref (h !! node);
  let h := <[node := set_next None n]> h in
  let prev_tail := tail_ q in
  match prev_tail with
  | Some prev =>
      pn ← deref (h !! prev);
      Ret (<[prev := set_next (Some node) pn]> h, mkList (head_ q) (Some node) (w64 (size_ q + 1)))
  | None => Ret (h, mkList (Some node) (Some node) (w64 (size_ q + 1)))
  end.

(** The loop of [popFront]: [node] and [next] are its locals; a failed exchange
    reloads [node] from the head.  [None] is the early [return nullptr]. *)
Fixpoint cas_pop (spurious : nat) (h : heap) (head node : option loc) (next : option loc)
    : outcome (option (loc * option loc)) :=
  if decide (spurious = 0%nat ∧ node = head) then
    match node with
    | Some node => Ret (Some (node, next))
    | None => Ret None
    end
  else match head with
       | None => Ret None
       | Some node' =>
           n ← deref (h !! node');
           match spurious with
           | S spurious => cas_pop spurious h head (Some node') (next_ n)
           | O => Ret (Some (node', next_ n))
           end
       end.

Definition popFront (c : choices) (h : heap) (q : IntrusiveList)
    : outcome (option loc * IntrusiveList) :=
  match head_ q with
  | None => Ret (None, q)
  | Some node =>
      n ← deref (h !! node);
      r ← cas_pop (spurious c) h (head_ q) (Some node) (next_ n);
      match r with
      | None => Ret (None, q)
      | Some (node, next) =>
          let tail := match next with None => None | Some _ => tail_ q end in
          Ret (Some node, mkList next tail (w64 (size_ q - 1)))
      end
  end.

Definition list_empty (q : IntrusiveList) : bool := bool_decide (head_ q = None).

Definition list_size (q : IntrusiveList) : Z := size_ q.

(** ** LockFreeQueue: a list used at both ends *)

Record LockFreeQueue : Type := mkQueue { list_ : IntrusiveList }.

Definition new_LockFreeQueue : LockFreeQueue := mkQueue new_IntrusiveList.

Definition queue_enqueue (h : heap) (q : LockFreeQueue) (item : loc)
    : outcome (heap * LockFreeQueue) :=
  '(h, l) ← pushBack h (list_ q) item; Ret (h, mkQueue l).

Definition queue_dequeue (c : choices) (h : heap) (q : LockFreeQueue)
    : outcome (option loc * LockFreeQueue) :=
  '(r, l) ← popFront c h (list_ q); Ret (r, mkQueue l).

Definition queue_peek (q : LockFreeQueue) : option loc := head_ (list_ q).

Definition queue_empty (q : LockFreeQueue) : bool := list_empty (list_ q).

Definition queue_size (q : LockFreeQueue) : Z := list_size (list_ q).

(** ** LockFreeStack *)

Record LockFreeStack : Type := mkStack { stack_head_ : option loc; stack_size_ : Z }.

Definition new_LockFreeStack : LockFreeStack := mkStack None 0.

Definition stack_push (c : choices) (h : heap) (q : LockFreeStack) (item : loc)
    : outcome (heap * LockFreeStack) :=
  n ← deref (h !! item);
  let h := <[item := set_next (stack_head_ q) n]> h in
  '(h, head) ← cas_push (spurious c) h (stack_head_ q) item;
  Ret (h, mkStack head (w64 (stack_size_ q + 1))).

(** The loop of [pop]: the exchange's argument reads [item->next_] each time. *)
Fixpoint cas_pop_item (spurious : nat) (h : heap) (head item : option loc)
    : outcome (option (loc * option loc)) :=
  match item with
  | None => Ret None
  | Some i =>
      n ← deref (h !! i);
      if decide (spurious = 0%nat ∧ item = head) then Ret (Some (i, next_ n))
      else match spurious, head with
           | S spurious, _ => cas_pop_item spurious h head head
           | O, None => Ret None
           | O, Some i => n ← deref (h !! i); Ret (Some (i, next_ n))
           end
  end.

Definition stack_pop (c : choices) (h : heap) (q : LockFreeStack)
    : outcome (option loc * LockFreeStack) :=
  match stack_head_ q with
  | None => Ret (None, q)
  | Some item =>
      r ← cas_pop_item (spurious c) h (stack_head_ q) (Some item);
      match r with
      | None => Ret (None, q)
      | Some (item, next) => Ret (Some item, mkStack next (w64 (stack_size_ q - 1)))
      end
  end.

Definition stack_peek (q : LockFreeStack) : option loc := stack_head_ q.

Definition stack_empty (q : LockFreeStack) : bool := bool_decide (stack_head_ q = None).

Definition stack_size (q : LockFreeStack) : Z := stack_size_ q.

(** ** Representation *)

(** The list structure holds the nodes [ls], front first. *)
Record list_rep (h : heap) (q : IntrusiveList) (ls : list loc) : Prop := {
  rep_head : head_ q = head ls;
  rep_tail : tail_ q = last ls;
  rep_size : size_ q = w64 (Z.of_nat (length ls));
  rep_nodup : NoDup ls;
  rep_linked : linked (heap_next h) ls None
}.

(** The stack holds the nodes [ls], top first. *)
Record stack_rep (h : heap) (q : LockFreeStack) (ls : list loc) : Prop := {
  srep_head : stack_head_ q = head ls;
  srep_size : stack_size_ q = w64 (Z.of_nat (length ls));
  srep_nodup : NoDup ls;
  srep_linked : linked (heap_next h) ls None
}.

(** The two disciplines: where an added node goes. *)
Definition fifo_insert (l : loc) (p : Z) (xs : list (loc * Z)) : list (loc * Z) := xs ++ [(l, p)].

Definition lifo_insert (l : loc) (p : Z) (xs : list (loc * Z)) : list (loc * Z) := (l, p) :: xs.

(** ** Lemmas *)

Lemma heap_next_insert_ne h l l' n : l ≠ l' → heap_next (<[l := n]> h) l' = heap_next h l'.
Proof. intros. unfold heap_next. by rewrite lookup_insert_ne. Qed.

Lemma heap_next_insert_eq h l n : heap_next (<[l := n]> h) l = Some (next_ n).
Proof. unfold heap_next. by rewrite lookup_insert_eq. Qed.

Lemma linked_live h ls e l : linked (heap_next h) ls e → l ∈ ls → is_Some (h !! l).
Proof.
  induction ls as [|x ls IH]; cbn; [set_solver|].
  intros [Hx Hls] [->|?]%elem_of_cons; [|auto].
  unfold heap_next in Hx. destruct (h !! x); eauto; done.
Qed.

Lemma linked_heap_insert h l n ls e :
  l ∉ ls → linked (heap_next h) ls e → linked (heap_next (<[l := n]> h)) ls e.
Proof.
  intros Hl. apply linked_ext. intros l' Hl'. apply heap_next_insert_ne. set_solver.
Qed.

Lemma same_tasks_set_next h l n p :
  h !! l = Some n → same_tasks h (<[l := set_next p n]> h).
Proof. intros Hl l'. rewrite lookup_insert. case_decide; subst; by rewrite ?Hl. Qed.

Lemma same_tasks_trans h1 h2 h3 : same_tasks h1 h2 → same_tasks h2 h3 → same_tasks h1 h3.
Proof. intros H1 H2 l. by rewrite H2. Qed.

#[export] Hint Resolve same_tasks_set_next same_tasks_trans : axon.

(** Spurious failures change nothing: the retry loop ends with the node linked
    to the head it found. *)
Lemma cas_push_ok k h head node n :
  h !! node = Some n → next_ n = head → cas_push k h head node = Ret (h, Some node).
Proof.
  revert h n. induction k as [|k IH]; intros h n Hn Hnext; cbn; rewrite Hn; cbn.
  - by rewrite decide_True.
  - rewrite decide_False by naive_solver.
    rewrite insert_id by (rewrite Hn; f_equal; destruct n; cbn in *; by subst).
    by apply (IH h n).
Qed.

Lemma cas_pop_ok k h node n :
  h !! node = Some n →
  cas_pop k h (Some node) (Some node) (next_ n) = Ret (Some (node, next_ n)).
Proof.
  intros Hn. induction k as [|k IH]; cbn; [by rewrite decide_True|].
  rewrite decide_False by naive_solver. by rewrite Hn.
Qed.

Lemma cas_pop_item_ok k h node n :
  h !! node = Some n →
  cas_pop_item k h (Some node) (Some node) = Ret (Some (node, next_ n)).
Proof.
  intros Hn. induction k as [|k IH]; cbn; rewrite Hn; cbn; [by rewrite decide_True|].
  by rewrite decide_False by naive_solver.
Qed.

Lemma w64_succ n : w64 (w64 (Z.of_nat n) + 1) = w64 (Z.of_nat (S n)).
Proof. rewrite w64_add_l. f_equal. lia. Qed.

Lemma w64_pred n : w64 (w64 (Z.of_nat (S n)) - 1) = w64 (Z.of_nat n).
Proof. rewrite w64_sub_l. f_equal. lia. Qed.

Lemma linked_cons_fresh h ls l n :
  linked (heap_next h) ls None → l ∉ ls →
  linked (heap_next (<[l := set_next (head ls) n]> h)) (l :: ls) None.
Proof.
  intros HL Hl. split; [rewrite heap_next_insert_eq; cbn; by destruct ls|].
  by apply linked_heap_insert.
Qed.

Lemma pushFront_rep c h q ls l :
  list_rep h q ls → is_Some (h !! l) → l ∉ ls →
  ∃ h' q', pushFront c h q l = Ret (h', q') ∧ list_rep h' q' (l :: ls) ∧ same_tasks h h' ∧
    (∀ l', l' ≠ l → h' !! l' = h !! l').
Proof.
  intros [Hh Ht Hs Hnd HL] [n Hn] Hl. unfold pushFront. rewrite Hn. cbn.
  erewrite cas_push_ok by (rewrite ?lookup_insert_eq; done). cbn.
  rewrite lookup_insert_eq. cbn. do 2 eexists. split; [done|]. split; [split; cbn|split].
  - done.
  - rewrite Hh, Ht. by destruct ls.
  - by rewrite Hs, w64_succ.
  - by constructor.
  - rewrite Hh. by apply linked_cons_fresh.
  - by apply same_tasks_set_next.
  - intros. by rewrite lookup_insert_ne.
Qed.

Lemma pushBack_rep h q ls l :
  list_rep h q ls → is_Some (h !! l) → l ∉ ls →
  ∃ h' q', pushBack h q l = Ret (h', q') ∧ list_rep h' q' (ls ++ [l]) ∧ same_tasks h h' ∧
    (∀ l', l' ≠ l → l' ∉ ls → h' !! l' = h !! l').
Proof.
  intros [Hh Ht Hs Hnd HL] [n Hn] Hl. unfold pushBack. rewrite Hn. cbn. rewrite Ht.
  assert (Hsize : w64 (size_ q + 1) = w64 (Z.of_nat (length (ls ++ [l])))).
  { rewrite Hs, w64_add_l. f_equal. rewrite length_app. cbn. lia. }
  assert (Hnd' : NoDup (ls ++ [l])) by (apply NoDup_app; set_solver by auto using NoDup_singleton).
  destruct ls as [|u A _] using rev_ind.
  - cbn in *. do 2 eexists. split; [done|]. split; [|split].
    + split; cbn; try done. by rewrite heap_next_insert_eq.
    + by apply same_tasks_set_next.
    + intros. by rewrite lookup_insert_ne.
  - rewrite last_snoc. assert (Hul : u ≠ l) by set_solver.
    destruct (linked_live h (A ++ [u]) None u HL) as [un Hun]; [set_solver|].
    rewrite lookup_insert_ne by done. rewrite Hun. cbn. do 2 eexists. split; [done|]. split; [|split].
    + split; cbn; try done.
      * rewrite Hh. by destruct A.
      * by rewrite last_snoc.
      * rewrite linked_app. cbn. split.
        -- apply NoDup_app in Hnd as (_ & HuA & _).
           eapply linked_snoc_update; [|intros l' Hl'|exact HL].
           ++ by rewrite heap_next_insert_eq.
           ++ rewrite !heap_next_insert_ne; set_solver.
        -- by rewrite heap_next_insert_ne, heap_next_insert_eq.
    + eapply same_tasks_trans; [by apply (same_tasks_set_next h l n None)|].
      apply same_tasks_set_next. by rewrite lookup_insert_ne.
    + intros l' Hne Hl'. rewrite !lookup_insert_ne; set_solver.
Qed.

Lemma popFront_rep c h q ls :
  list_rep h q ls →
  match ls with
  | [] => popFront c h q = Ret (None, q)
  | l :: ls' => ∃ q', popFront c h q = Ret (Some l, q') ∧ list_rep h q' ls'
  end.
Proof.
  intros [Hh Ht Hs Hnd HL]. unfold popFront. rewrite Hh. destruct ls as [|l ls]; cbn; [done|].
  cbn in HL. destruct HL as [Hl HL]. unfold heap_next in Hl at 1.
  destruct (h !! l) as [n|] eqn:Hn; [|done]. cbn in *. injection Hl as Hnext.
  erewrite cas_pop_ok by done. cbn. eexists. split; [done|]. apply NoDup_cons in Hnd as [_ Hnd].
  rewrite Hnext, first_or_None. split; cbn; try done.
  - rewrite Ht. by destruct ls.
  - cbn in Hs. by rewrite Hs, w64_pred.
Qed.

Lemma stack_push_rep c h q ls l :
  stack_rep h q ls → is_Some (h !! l) → l ∉ ls →
  ∃ h' q', stack_push c h q l = Ret (h', q') ∧ stack_rep h' q' (l :: ls) ∧ same_tasks h h' ∧
    (∀ l', l' ≠ l → h' !! l' = h !! l').
Proof.
  intros [Hh Hs Hnd HL] [n Hn] Hl. unfold stack_push. rewrite Hn. cbn.
  erewrite cas_push_ok by (rewrite ?lookup_insert_eq; done). cbn.
  do 2 eexists. split; [done|]. split; [split; cbn|split].
  - done.
  - by rewrite Hs, w64_succ.
  - by constructor.
  - rewrite Hh. by apply linked_cons_fresh.
  - by apply same_tasks_set_next.
  - intros. by rewrite lookup_insert_ne.
Qed.

Lemma stack_pop_rep c h q ls :
  stack_rep h q ls →
  match ls with
  | [] => stack_pop c h q = Ret (None, q)
  | l :: ls' => ∃ q', stack_pop c h q = Ret (Some l, q') ∧ stack_rep h q' ls'
  end.
Proof.
  intros [Hh Hs Hnd HL]. unfold stack_pop. rewrite Hh. destruct ls as [|l ls]; cbn; [done|].
  cbn in HL. destruct HL as [Hl HL]. unfold heap_next in Hl at 1.
  destruct (h !! l) as [n|] eqn:Hn; [|done]. cbn in *. injection Hl as Hnext.
  erewrite cas_pop_item_ok by done. cbn. eexists. split; [done|]. apply NoDup_cons in Hnd as [_ Hnd].
  rewrite Hnext, first_or_None. split; cbn; try done.
  cbn in Hs. by rewrite Hs, w64_pred.
Qed.

(** ** The interface *)

#[export] Instance LockFreeQueue_NodeQueue : NodeQueue LockFreeQueue := {|
  nq_new := new_LockFreeQueue;
  nq_push c h q l p := queue_enqueue h q l;
  nq_pop c h q := queue_dequeue c h q;
  nq_peek q := Ret (queue_peek q);
  nq_empty q := Ret (queue_empty q);
  nq_size q := queue_size q
|}.

#[export] Instance LockFreeStack_NodeQueue : NodeQueue LockFreeStack := {|
  nq_new := new_LockFreeStack;
  nq_push c h q l p := stack_push c h q l;
  nq_pop c h q := stack_pop c h q;
  nq_peek q := Ret (stack_peek q);
  nq_empty q := Ret (stack_empty q);
  nq_size q := stack_size q
|}.

Lemma head_fmap_fst (xs : list (loc * Z)) : head xs.*1 = fst <$> head xs.
Proof. by destruct xs. Qed.

#[export] Instance LockFreeQueue_laws : NodeQueueLaws LockFreeQueue.
Proof.
  refine {| nq_ok _ := True;
            nq_rep h q xs := list_rep h (list_ q) xs.*1;
            nq_insert := fifo_insert |}; unfold fifo_insert; cbn.
  - intros. by rewrite Permutation_app_comm.
  - intros. split; cbn; by try constructor.
  - intros h h' q xs Hext []. split; try done. eapply linked_ext; [|done].
    intros l Hl. unfold heap_next. by rewrite Hext.
  - intros c h q xs l p _ Hrep Hl Hnl. unfold queue_enqueue.
    destruct (pushBack_rep h (list_ q) xs.*1 l Hrep Hl Hnl) as (h' & q' & -> & Hrep' & Hst & Hfr).
    exists h', (mkQueue q'). cbn. rewrite fmap_app. eauto.
  - intros c h q xs _ Hrep. unfold queue_dequeue.
    pose proof (popFront_rep c h (list_ q) xs.*1 Hrep) as Hpop.
    destruct xs as [|[l p] xs]; cbn in *; [rewrite Hpop; by destruct q|].
    destruct Hpop as (q' & -> & Hrep'). eexists. cbn. split; [done|]. done.
  - intros h q xs []. f_equal. unfold queue_peek. by rewrite rep_head0, head_fmap_fst.
  - intros h q xs []. f_equal. unfold queue_empty, list_empty.
    rewrite rep_head0. apply bool_decide_ext. by destruct xs.
  - intros h q xs []. unfold queue_size, list_size. by rewrite rep_size0, length_fmap.
  - by intros h q xs [].
  - intros h q xs l [] Hl. by eapply linked_live.
Defined.

#[export] Instance LockFreeStack_laws : NodeQueueLaws LockFreeStack.
Proof.
  refine {| nq_ok _ := True;
            nq_rep h q xs := stack_rep h q xs.*1;
            nq_insert := lifo_insert |}; unfold lifo_insert; cbn.
  - done.
  - intros. split; cbn; by try constructor.
  - intros h h' q xs Hext []. split; try done. eapply linked_ext; [|done].
    intros l Hl. unfold heap_next. by rewrite Hext.
  - intros c h q xs l p _ Hrep Hl Hnl.
    destruct (stack_push_rep c h q xs.*1 l Hrep Hl Hnl) as (h' & q' & -> & Hrep' & Hst & Hfr).
    exists h', q'. eauto.
  - intros c h q xs _ Hrep. pose proof (stack_pop_rep c h q xs.*1 Hrep) as Hpop.
    by destruct xs as [|[l p] xs].
  - intros h q xs []. f_equal. unfold stack_peek. by rewrite srep_head0, head_fmap_fst.
  - intros h q xs []. f_equal. unfold stack_empty.
    rewrite srep_head0. apply bool_decide_ext. by destruct xs.
  - intros h q xs []. unfold stack_size. by rewrite srep_size0, length_fmap.
  - by intros h q xs [].
  - intros h q xs l [] Hl. by eapply linked_live.
Defined.

(** ** Properties *)

(** C7: A [LockFreeQueue], run through any program of enqueues of live, not yet
    queued nodes and of dequeues, never touches a dead node, never loops, and
    returns exactly what a first-in-first-out list returns, however often a
    weak exchange fails spuriously. *)
Theorem LockFreeQueue_fifo ops h
    (Hops : ops_valid (λ _, True) fifo_insert h ops []) :
  ∃ h' q', nq_run ops h new_LockFreeQueue
      = Ret ((spec_run fifo_insert ops []).1, h', q') ∧
    list_rep h' (list_ q') (spec_run fifo_insert ops []).2.*1.
Proof.
  exact (nq_run_spec (Q := LockFreeQueue) ops h new_LockFreeQueue []
    (nq_rep_new (Q := LockFreeQueue) h) Hops).
Qed.

(** C23: A [LockFreeStack] run through any such program behaves as a last-in-first-out
    list. *)
Theorem LockFreeStack_lifo ops h
    (Hops : ops_valid (λ _, True) lifo_insert h ops []) :
  ∃ h' q', nq_run ops h new_LockFreeStack
      = Ret ((spec_run lifo_insert ops []).1, h', q') ∧
    stack_rep h' q' (spec_run lifo_insert ops []).2.*1.
Proof.
  exact (nq_run_spec (Q := LockFreeStack) ops h new_LockFreeStack []
    (nq_rep_new (Q := LockFreeStack) h) Hops).
Qed.

Definition demo_heap : heap :=
  {[1%positive := mkNode None (Some 11%positive); 2%positive := mkNode None (Some 12%positive);
    3%positive := mkNode None (Some 13%positive)]}.

Definition demo_ops : list qop :=
  let c := mkChoices 2 1 in
  [QPush c 1 0; QPush c 2 0; QPop c; QPush c 3 0; QPop c; QPop c; QPop c].

Lemma LockFreeQueue_fifo_witness :
  ∃ h' q', nq_run demo_ops demo_heap new_LockFreeQueue
    = Ret ([Some 1%positive; Some 2%positive; Some 3%positive; None], h', q').
Proof.
  edestruct (LockFreeQueue_fifo demo_ops demo_heap) as (h' & q' & Hrun & _).
  - cbn. split_and!; try done; by apply (bool_decide_unpack _).
  - exists h', q'. exact Hrun.
Defined.

Lemma LockFreeStack_lifo_witness :
  ∃ h' q', nq_run demo_ops demo_heap new_LockFreeStack
    = Ret ([Some 2%positive; Some 3%positive; Some 1%positive; None], h', q').
Proof.
  edestruct (LockFreeStack_lifo demo_ops demo_heap) as (h' & q' & Hrun & _).
  - cbn. split_and!; try done; by apply (bool_decide_unpack _).
  - exists h', q'. exact Hrun.
Defined.
