(* ===== verification/SkipList.v ===== *)
(** * LockFreePriorityQueue: the skip list

    Models the class template of include/utils/DataStructures.hpp, lines 223-368.
    Its [Node]s are private to one queue, so the queue record carries their
    heap.  A node's [next] array is the list of its initialised slots (the
    constructor initialises [level] of them): reading past it is undefined.

    The search fragment of [enqueue] (lines 266-274) is written for one index
    [i] whose loop header is missing from the file.  The development takes the
    sequence of indices the fragment runs for as a parameter ([SearchLoop]) and
    asks of it only that it descends and reaches every level the new node
    occupies; the code after it needs both. *)

From S2P Require Import Prelude NodeQueue.

Definition MAX_LEVEL : nat := 16.

Record Node : Type := mkSkip {
  value : option loc;
  priority : Z;
  next : list (option loc);
  level : nat
}.

(** [Node(val, prio, lvl)]. *)
Definition new_Node (val : option loc) (prio : Z) (lvl : nat) : Node :=
  mkSkip val prio (replicate lvl None) lvl.

Abbreviation skips := (gmap loc Node) (only parsing).

Record LockFreePriorityQueue : Type := mkPQ {
  pq_nodes : skips;
  pq_head_ : loc;
  pq_size_ : Z
}.

Definition new_LockFreePriorityQueue : LockFreePriorityQueue :=
  mkPQ {[1%positive := new_Node None INT_MIN MAX_LEVEL]} 1%positive 0.

(** [l->next[i].load()] and [l->next[i].store(p)]. *)
Definition load_next (m : skips) (l : loc) (i : nat) : outcome (option loc) :=
  n ← deref (m !! l); deref (next n !! i).

Definition store_next (m : skips) (l : loc) (i : nat) (p : option loc) : outcome skips :=
  n ← deref (m !! l);
  if decide (i < length (next n))%nat
  then Ret (<[l := mkSkip (value n) (priority n) (<[i := p]> (next n)) (level n)]> m)
  else Undef.

(** [while (next && next->priority > priority)] at level [i]. *)
Fixpoint walk (fuel : nat) (m : skips) (i : nat) (prio : Z) (current : loc) : outcome loc :=
  nx ← load_next m current i;
  match nx with
  | None => Ret current
  | Some nx =>
      n ← deref (m !! nx);
      if decide (prio < priority n) then
        match fuel with
        | S fuel => walk fuel m i prio nx
        | O => Diverge
        end
      else Ret current
  end.

(** The search fragment for each index in turn; [current] is carried along. *)
Fixpoint search (m : skips) (prio : Z) (idx : list nat) (current : loc) (update : gmap nat loc)
    : outcome (gmap nat loc) :=
  match idx with
  | [] => Ret update
  | i :: idx =>
      current ← walk (size m) m i prio current;
      search m prio idx current (<[i := current]> update)
  end.

(** The exchange loop that links the new node after [u] at level [i]. *)
Fixpoint cas_link (spurious : nat) (m : skips) (u : loc) (i : nat) (expectedNext : option loc)
    (newNode : loc) : outcome skips :=
  cur ← load_next m u i;
  if decide (spurious = 0%nat ∧ cur = expectedNext) then store_next m u i (Some newNode)
  else match spurious with
       | S spurious =>
           expectedNext ← load_next m u i;
           m ← store_next m newNode i expectedNext;
           cas_link spurious m u i expectedNext newNode
       | O =>
           expectedNext ← load_next m u i;
           m ← store_next m newNode i expectedNext;
           store_next m u i (Some newNode)
       end.

Definition link_level (spurious : nat) (update : gmap nat loc) (newNode : loc) (i : nat) (m : skips)
    : outcome skips :=
  u ← deref (update !! i);
  expectedNext ← load_next m u i;
  m ← store_next m newNode i expectedNext;
  cas_link spurious m u i expectedNext newNode.

Fixpoint link_levels (spurious : nat) (update : gmap nat loc) (newNode : loc) (idx : list nat)
    (m : skips) : outcome skips :=
  match idx with
  | [] => Ret m
  | i :: idx => m ← link_level spurious update newNode i m; link_levels spurious update newNode idx m
  end.

(** The indices the search fragment runs for, given the new node's level. *)
Class SearchLoop := {
  search_levels : nat → list nat;
  search_descends lvl : StronglySorted (λ i j, (j < i)%nat) (search_levels lvl);
  search_in_range lvl i : i ∈ search_levels lvl → (i < MAX_LEVEL)%nat;
  search_reaches lvl i : (i < lvl ≤ MAX_LEVEL)%nat → i ∈ search_levels lvl
}.

Definition pq_enqueue `{SearchLoop} (c : choices) (q : LockFreePriorityQueue) (item : loc) (prio : Z)
    : outcome LockFreePriorityQueue :=
  let randomLevel := random_level c in
  let newNode := fresh (dom (pq_nodes q)) in
  let m := <[newNode := new_Node (Some item) prio randomLevel]> (pq_nodes q) in
  update ← search m prio (search_levels randomLevel) (pq_head_ q) ∅;
  m ← link_levels (spurious c) update newNode (seq 0 randomLevel) m;
  Ret (mkPQ m (pq_head_ q) (w64 (pq_size_ q + 1))).

(** The exchange loop that unlinks [nx] at level [i]; a failure reloads [next]
    from level 0.  The result is the nodes and the local [next], or [None] for
    the early [return nullptr]. *)
Fixpoint cas_unlink (spurious : nat) (m : skips) (current : loc) (i : nat) (nx : loc)
    : outcome (skips * option loc) :=
  desired ← load_next m nx i;
  cur ← load_next m current i;
  if decide (spurious = 0%nat ∧ cur = Some nx) then
    m ← store_next m current i desired; Ret (m, Some nx)
  else match spurious with
       | S spurious =>
           nx' ← load_next m current 0;
           match nx' with
           | None => Ret (m, None)
           | Some nx' => cas_unlink spurious m current i nx'
           end
       | O =>
           nx' ← load_next m current 0;
           match nx' with
           | None => Ret (m, None)
           | Some nx' =>
               desired ← load_next m nx' i;
               if decide (cur = Some nx') then m ← store_next m current i desired; Ret (m, Some nx')
               else Diverge
           end
       end.

Fixpoint unlink_levels (spurious : nat) (m : skips) (current : loc) (idx : list nat) (nx : loc)
    : outcome (skips * option loc) :=
  match idx with
  | [] => Ret (m, Some nx)
  | i :: idx =>
      '(m, r) ← cas_unlink spurious m current i nx;
      match r with
      | None => Ret (m, None)
      | Some nx => unlink_levels spurious m current idx nx
      end
  end.

Definition pq_dequeue (c : choices) (q : LockFreePriorityQueue)
    : outcome (option loc * LockFreePriorityQueue) :=
  let current := pq_head_ q in
  nx ← load_next (pq_nodes q) current 0;
  match nx with
  | None => Ret (None, q)
  | Some nx =>
      n ← deref (pq_nodes q !! nx);
      '(m, r) ← unlink_levels (spurious c) (pq_nodes q) current (reverse (seq 0 (level n))) nx;
      match r with
      | None => Ret (None, mkPQ m (pq_head_ q) (pq_size_ q))
      | Some nx =>
          n ← deref (m !! nx);
          Ret (value n, mkPQ (delete nx m) (pq_head_ q) (w64 (pq_size_ q - 1)))
      end
  end.

Definition pq_peek (q : LockFreePriorityQueue) : outcome (option loc) :=
  nx ← load_next (pq_nodes q) (pq_head_ q) 0;
  match nx with
  | None => Ret None
  | Some nx => n ← deref (pq_nodes q !! nx); Ret (value n)
  end.

Definition pq_empty (q : LockFreePriorityQueue) : outcome bool :=
  nx ← load_next (pq_nodes q) (pq_head_ q) 0; Ret (bool_decide (nx = None)).

Definition pq_size (q : LockFreePriorityQueue) : Z := pq_size_ q.

(** The two loops of [clear]. *)
Fixpoint delete_chain (fuel : nat) (m : skips) (current : option loc) : outcome skips :=
  match current with
  | None => Ret m
  | Some c =>
      nx ← load_next m c 0;
      match fuel with
      | S fuel => delete_chain fuel (delete c m) nx
      | O => Diverge
      end
  end.

Fixpoint null_slots (m : skips) (l : loc) (idx : list nat) : outcome skips :=
  match idx with
  | [] => Ret m
  | i :: idx => m ← store_next m l i None; null_slots m l idx
  end.

Definition pq_clear (q : LockFreePriorityQueue) : outcome LockFreePriorityQueue :=
  nx ← load_next (pq_nodes q) (pq_head_ q) 0;
  m ← delete_chain (size (pq_nodes q)) (pq_nodes q) nx;
  m ← null_slots m (pq_head_ q) (seq 0 MAX_LEVEL);
  Ret (mkPQ m (pq_head_ q) 0).

(** ** Representation *)

Definition slot (m : skips) (i : nat) (l : loc) : option (option loc) :=
  n ← m !! l; next n !! i.

Definition height (m : skips) (l : loc) : nat := default 0%nat ((λ n, length (next n)) <$> m !! l).

Definition prio (m : skips) (l : loc) : Z := default 0 (priority <$> m !! l).

(** The nodes of [ns] that are linked at level [i]. *)
Definition at_level (m : skips) (i : nat) (ns : list loc) : list loc :=
  filter (λ l, i < height m l)%nat ns.

(** What no link operation changes. *)
Definition meta (n : Node) : option loc * Z * nat * nat :=
  (value n, priority n, level n, length (next n)).

Definition same_meta (m m' : skips) : Prop := ∀ l, meta <$> m' !! l = meta <$> m !! l.

(** The skip list with head [hd] has the nodes [ns] in level-0 order: every
    level is the chain of the nodes tall enough for it, in the same order. *)
Record skip_rep (m : skips) (hd : loc) (ns : list loc) : Prop := {
  sk_head : height m hd = MAX_LEVEL;
  sk_height l : l ∈ ns → (1 ≤ height m l ≤ MAX_LEVEL)%nat;
  sk_level l n : l ∈ ns → m !! l = Some n → level n = length (next n);
  sk_nodup : NoDup (hd :: ns);
  sk_dom : dom m = list_to_set (hd :: ns);
  sk_linked i : (i < MAX_LEVEL)%nat → linked (slot m i) (hd :: at_level m i ns) None;
  sk_sorted : StronglySorted (λ a b, prio m b ≤ prio m a) ns
}.

(** The payload of a node. *)
Definition item (m : skips) (l : loc) : option (loc * Z) :=
  n ← m !! l; v ← value n; Some (v, priority n).

(** Where a node of priority [p] goes: after every strictly greater priority,
    before the nodes of its own priority. *)
Fixpoint pq_insert (l : loc) (p : Z) (xs : list (loc * Z)) : list (loc * Z) :=
  match xs with
  | [] => [(l, p)]
  | (l', p') :: xs' => if decide (p < p') then (l', p') :: pq_insert l p xs' else (l, p) :: xs
  end.

Record pq_rep (h : heap) (q : LockFreePriorityQueue) (xs : list (loc * Z)) : Prop := {
  pr_skip : ∃ ns, skip_rep (pq_nodes q) (pq_head_ q) ns ∧ item (pq_nodes q) <$> ns = Some <$> xs;
  pr_size : pq_size_ q = w64 (Z.of_nat (length xs));
  pr_nodup : NoDup xs.*1;
  pr_live l : l ∈ xs.*1 → is_Some (h !! l)
}.

(** ** Slots *)

Lemma load_next_slot m l i p : slot m i l = Some p → load_next m l i = Ret p.
Proof.
  unfold slot, load_next. destruct (m !! l) as [n|]; cbn; [|done]. by intros ->.
Qed.

Lemma slot_height m i l : is_Some (slot m i l) ↔ (i < height m l)%nat.
Proof.
  unfold slot, height. destruct (m !! l) as [n|]; cbn; [apply lookup_lt_is_Some|].
  split; [intros []; done | lia].
Qed.

Lemma store_next_slot m l i p : is_Some (slot m i l) →
  ∃ m', store_next m l i p = Ret m' ∧ same_meta m m' ∧
    ∀ j l', slot m' j l' = if decide (j = i ∧ l' = l) then Some p else slot m j l'.
Proof.
  intros Hs. pose proof (proj1 (slot_height m i l) Hs) as Hlt. clear Hs.
  unfold store_next, height in *. destruct (m !! l) as [n|] eqn:Hl; cbn in *; [|lia].
  rewrite decide_True by done. eexists. split; [done|]. split.
  - intros l'. rewrite lookup_insert. case_decide; [|done]. subst. rewrite Hl. cbn.
    unfold meta. cbn. by rewrite length_insert.
  - intros j l'. unfold slot. rewrite lookup_insert.
    destruct (decide (l = l')) as [<-|Hne]; cbn.
    + rewrite Hl. cbn. rewrite list_lookup_insert.
      repeat case_decide; try naive_solver lia.
    + rewrite decide_False by naive_solver. done.
Qed.

Lemma same_meta_refl m : same_meta m m.
Proof. done. Qed.

Lemma same_meta_trans m1 m2 m3 : same_meta m1 m2 → same_meta m2 m3 → same_meta m1 m3.
Proof. intros H1 H2 l. by rewrite H2. Qed.

Section meta.
Context (m m' : skips) (Hsame : same_meta m m').

Lemma same_meta_cases l :
  (m !! l = None ∧ m' !! l = None) ∨
  (∃ n n', m !! l = Some n ∧ m' !! l = Some n' ∧ meta n' = meta n).
Proof.
  pose proof (Hsame l) as Hl.
  destruct (m !! l) as [n|], (m' !! l) as [n'|]; cbn in Hl; try discriminate Hl; [right|by left].
  exists n, n'. split_and!; [done..|congruence].
Qed.

Lemma same_meta_height l : height m' l = height m l.
Proof. unfold height. destruct (same_meta_cases l) as [[-> ->]|(?&?&->&->&[=])]; cbn; done. Qed.

Lemma same_meta_prio l : prio m' l = prio m l.
Proof. unfold prio. destruct (same_meta_cases l) as [[-> ->]|(?&?&->&->&[=])]; cbn; done. Qed.

Lemma same_meta_item l : item m' l = item m l.
Proof.
  unfold item. destruct (same_meta_cases l) as [[-> ->]|(?&?&->&->&[= Hv Hp _ _])]; cbn; [done|].
  by rewrite Hv, Hp.
Qed.

Lemma same_meta_at_level i ns : at_level m' i ns = at_level m i ns.
Proof. unfold at_level. apply list_filter_iff. intros l. by rewrite same_meta_height. Qed.

Lemma same_meta_dom : dom m' = dom m.
Proof.
  apply set_eq. intros l. rewrite !elem_of_dom.
  destruct (same_meta_cases l) as [[-> ->]|(?&?&->&->&_)]; [done|]. split; eauto.
Qed.
End meta.

Lemma at_level_ext m m' i ns :
  (∀ l, l ∈ ns → height m' l = height m l) → at_level m' i ns = at_level m i ns.
Proof.
  unfold at_level. induction ns as [|l ns IH]; intros Hext; [done|].
  rewrite !filter_cons, IH by (intros; apply Hext; set_solver).
  rewrite (Hext l) by set_solver. done.
Qed.

(** ** Search *)

Lemma last_cons_default {A} (x : A) L : last (x :: L) = Some (default x (last L)).
Proof. rewrite last_cons. by destruct (last L). Qed.

(** Walking one level stops at the last node with a greater priority. *)
Lemma walk_spec fuel m i p cur A B :
  linked (slot m i) (cur :: A ++ B) None → (length A ≤ fuel)%nat →
  (∀ l, l ∈ A → p < prio m l) → (∀ l, l ∈ B → prio m l ≤ p) →
  walk fuel m i p cur = Ret (default cur (last A)).
Proof.
  revert fuel cur. induction A as [|a A IH]; intros fuel cur [Hcur HL] Hlen HA HB.
  - cbn in *. assert (Hw : load_next m cur i = Ret (head B)).
    { apply load_next_slot. by rewrite <-first_or_None. }
    destruct fuel; cbn; rewrite Hw; cbn; destruct B as [|b B]; cbn; try done.
    all: destruct HL as [Hb _]; specialize (HB b ltac:(set_solver)); unfold prio in HB;
      unfold slot in Hb; destruct (m !! b); cbn in *; try done; by rewrite decide_False by lia.
  - cbn in Hlen. destruct fuel as [|fuel]; [lia|]. cbn [walk].
    rewrite (load_next_slot _ _ _ _ Hcur). cbn.
    assert (Ha : p < prio m a) by (apply HA; set_solver). unfold prio in Ha.
    pose proof HL as [Hsa _]. unfold slot in Hsa.
    destruct (m !! a) as [n|] eqn:E; cbn in *; [|done]. rewrite decide_True by done.
    rewrite (IH fuel a); [|done|lia|set_solver|done].
    change (last (a :: A)) with (last ([a] ++ A)). f_equal.
    rewrite last_app. by destruct (last A).
Qed.

Lemma at_level_app m i A B : at_level m i (A ++ B) = at_level m i A ++ at_level m i B.
Proof. apply filter_app. Qed.

Lemma elem_of_at_level m i l ns : l ∈ at_level m i ns ↔ (i < height m l)%nat ∧ l ∈ ns.
Proof. unfold at_level. by rewrite list_elem_of_filter. Qed.

(** Running the search fragment for descending indices records, for each, the
    last node of that level with a greater priority. *)
Lemma search_spec m hd p A B idx cur update :
  height m hd = MAX_LEVEL →
  (∀ i, (i < MAX_LEVEL)%nat → linked (slot m i) (hd :: at_level m i (A ++ B)) None) →
  (length A ≤ size m)%nat →
  (∀ l, l ∈ A → p < prio m l) → (∀ l, l ∈ B → prio m l ≤ p) →
  StronglySorted (λ i j, (j < i)%nat) idx → (∀ i, i ∈ idx → (i < MAX_LEVEL)%nat) →
  cur ∈ hd :: A → (∀ i, i ∈ idx → (i < height m cur)%nat) →
  ∃ update', search m p idx cur update = Ret update' ∧
    ∀ i, update' !! i = if decide (i ∈ idx) then last (hd :: at_level m i A) else update !! i.
Proof.
  intros Hhd Hlink Hsize HA HB. revert cur update.
  induction idx as [|i idx IH]; intros cur update Hsort Hrange Hcur Hheight.
  { exists update. split; [done|]. intros i. by rewrite decide_False by set_solver. }
  assert (Hi : (i < MAX_LEVEL)%nat) by (apply Hrange; set_solver).
  assert (Hc : cur ∈ hd :: at_level m i A).
  { apply elem_of_cons in Hcur as [->|Hcur]; [set_solver|].
    apply elem_of_cons. right. apply elem_of_at_level. split; [apply Hheight; set_solver | done]. }
  apply list_elem_of_split in Hc as (P & A2 & Hsplit).
  assert (Hlast : last (hd :: at_level m i A) = Some (default cur (last A2))).
  { rewrite Hsplit, last_app, last_cons_default. done. }
  assert (Hwalk : walk (size m) m i p cur = Ret (default cur (last A2))).
  { pose proof (Hlink i Hi) as HL. rewrite at_level_app, app_comm_cons, Hsplit, <-app_assoc in HL.
    apply linked_app in HL as [_ HL].
    assert (HA2 : ∀ l, l ∈ A2 → l ∈ A).
    { intros l Hl. assert (Hin : l ∈ tail (P ++ cur :: A2)) by (destruct P; set_solver).
      rewrite <-Hsplit in Hin. cbn in Hin. by apply elem_of_at_level in Hin as [_ ?]. }
    apply walk_spec with (B := at_level m i B).
    - done.
    - etrans; [|exact Hsize]. etrans; [|apply (length_filter (λ l, i < height m l)%nat A)].
      fold (at_level m i A). pose proof (f_equal length Hsplit) as Hlen.
      rewrite length_app in Hlen. cbn in Hlen. lia.
    - auto.
    - intros l [_ ?]%elem_of_at_level. auto. }
  assert (Hcur' : default cur (last A2) ∈ hd :: at_level m i A).
  { apply list_elem_of_lookup. rewrite last_lookup in Hlast. eauto. }
  cbn. rewrite Hwalk. cbn. inversion Hsort as [|?? Hsort' Hlt]; subst.
  destruct (IH (default cur (last A2)) (<[i := default cur (last A2)]> update)) as (u' & Hu' & Hlk).
  - done.
  - intros. apply Hrange. set_solver.
  - apply elem_of_cons in Hcur' as [->|[_ ?]%elem_of_at_level]; set_solver.
  - intros j Hj. rewrite Forall_forall in Hlt. specialize (Hlt j Hj).
    apply elem_of_cons in Hcur' as [->|[? _]%elem_of_at_level]; [rewrite Hhd; lia | lia].
  - exists u'. split; [done|]. intros j. rewrite Hlk.
    destruct (decide (j ∈ idx)) as [Hj|Hj]; [by rewrite decide_True by set_solver|].
    rewrite lookup_insert. destruct (decide (i = j)) as [<-|Hne].
    + by rewrite decide_True by set_solver.
    + by rewrite decide_False by set_solver.
Qed.

(** ** Linking *)

Lemma cas_link_spec k m u i e new :
  slot m i u = Some e → slot m i new = Some e → u ≠ new →
  ∃ m', cas_link k m u i e new = Ret m' ∧ same_meta m m' ∧
    ∀ j l, slot m' j l = if decide (j = i ∧ l = u) then Some (Some new) else slot m j l.
Proof.
  revert m. induction k as [|k IH]; intros m Hu Hn Hne; cbn; rewrite (load_next_slot _ _ _ _ Hu); cbn.
  - rewrite decide_True by done. apply store_next_slot. eauto.
  - rewrite decide_False by naive_solver.
    destruct (store_next_slot m new i e) as (m1 & -> & Hm1 & Hs1); [eauto|]. cbn.
    assert (Hsame : ∀ j l, slot m1 j l = slot m j l).
    { intros j l. rewrite Hs1. case_decide; [|done]. naive_solver. }
    destruct (IH m1) as (m' & -> & Hm' & Hs'); [by rewrite Hsame..|done|].
    exists m'. split; [done|]. split; [by eapply same_meta_trans|].
    intros j l. by rewrite Hs', Hsame.
Qed.

Lemma link_level_spec k m update new i P u B :
  linked (slot m i) (P ++ u :: B) None → update !! i = Some u → is_Some (slot m i new) →
  NoDup (P ++ u :: B) → new ∉ P ++ u :: B →
  ∃ m', link_level k update new i m = Ret m' ∧ same_meta m m' ∧
    linked (slot m' i) (P ++ u :: new :: B) None ∧ ∀ j l, j ≠ i → slot m' j l = slot m j l.
Proof.
  intros HL Hu Hnew Hnd Hfresh. unfold link_level. rewrite Hu. cbn.
  pose proof (linked_lookup _ _ _ _ _ HL) as Hslot. rewrite (load_next_slot _ _ _ _ Hslot). cbn.
  destruct (store_next_slot m new i (first_or B None) Hnew) as (m1 & -> & Hm1 & Hs1). cbn.
  assert (Hun : u ≠ new) by set_solver.
  destruct (cas_link_spec k m1 u i (first_or B None) new) as (m' & -> & Hm' & Hs').
  { by rewrite Hs1, decide_False by naive_solver. }
  { by rewrite Hs1, decide_True. }
  { done. }
  exists m'. split; [done|]. split; [by eapply same_meta_trans|].
  assert (Hother : ∀ l, l ≠ u → l ≠ new → slot m' i l = slot m i l).
  { intros l ??. by rewrite Hs', Hs1, !decide_False by naive_solver. }
  apply NoDup_app in Hnd as (HndP & HPu & [HuB HndB]%NoDup_cons).
  split.
  - change (P ++ u :: new :: B) with (P ++ [u] ++ new :: B). rewrite app_assoc.
    change (P ++ u :: B) with (P ++ [u] ++ B) in HL. rewrite app_assoc in HL.
    apply linked_app in HL as [HLP HLB]. apply linked_app. split; [|split].
    + eapply linked_snoc_update; [|intros l Hl|exact HLP].
      * by rewrite Hs', decide_True.
      * apply Hother; set_solver.
    + rewrite Hs', decide_False, Hs1, decide_True by naive_solver. done.
    + eapply linked_ext; [|exact HLB]. intros l Hl. apply Hother; set_solver.
  - intros j l Hj. by rewrite Hs', Hs1, !decide_False by naive_solver.
Qed.

(** Levels below [k] include the new node, the others do not yet. *)
Definition half_linked (m : skips) (hd : loc) (A B : list loc) (new : loc) (k : nat) : Prop :=
  ∀ i, (i < MAX_LEVEL)%nat →
    linked (slot m i)
      (hd :: at_level m i A ++ (if decide (i < k)%nat then [new] else []) ++ at_level m i B) None.

Lemma at_level_sublist m i ns : at_level m i ns `sublist_of` ns.
Proof. unfold at_level. apply sublist_filter. Qed.

Lemma link_levels_spec sp m hd A B new update k n :
  half_linked m hd A B new k → (k + n ≤ height m new)%nat → (height m new ≤ MAX_LEVEL)%nat →
  NoDup (hd :: A ++ B) → new ∉ hd :: A ++ B →
  (∀ i, (i < k + n)%nat → update !! i = last (hd :: at_level m i A)) →
  ∃ m', link_levels sp update new (seq k n) m = Ret m' ∧ same_meta m m' ∧
    half_linked m' hd A B new (k + n).
Proof.
  revert m k. induction n as [|n IH]; intros m k Hhalf Hk Hmax Hnd Hfresh Hupd.
  { exists m. rewrite Nat.add_0_r. done. }
  cbn [seq link_levels].
  assert (Hsub : at_level m k (A ++ B) `sublist_of` A ++ B) by apply at_level_sublist.
  rewrite at_level_app in Hsub.
  assert (Hnd' : NoDup (hd :: at_level m k A ++ at_level m k B)).
  { eapply sublist_NoDup; [exact Hnd|]. by apply sublist_skip. }
  assert (Hfresh' : new ∉ hd :: at_level m k A ++ at_level m k B).
  { intros Hin. apply Hfresh. eapply elem_of_sublist; [exact Hin|]. by apply sublist_skip. }
  pose proof (Hhalf k ltac:(lia)) as HL. rewrite decide_False in HL by lia. cbn [app] in HL.
  destruct (exists_last (l := hd :: at_level m k A)) as (P & u & HPu); [done|].
  assert (Hu : update !! k = Some u) by (rewrite Hupd by lia; by rewrite HPu, last_snoc).
  rewrite app_comm_cons, HPu, <-app_assoc in HL, Hnd', Hfresh'. cbn [app] in HL, Hnd', Hfresh'.
  destruct (link_level_spec sp m update new k P u (at_level m k B)) as (m1 & -> & Hm1 & HL1 & Hs1).
  - done.
  - done.
  - apply slot_height. lia.
  - done.
  - done.
  - cbn. destruct (IH m1 (S k)) as (m' & -> & Hm' & Hhalf').
    + intros i Hi. rewrite !(same_meta_at_level m m1 Hm1). destruct (decide (i = k)) as [->|Hne].
      * rewrite decide_True by lia. rewrite app_comm_cons, HPu, <-app_assoc. done.
      * eapply linked_ext; [intros l _; by apply Hs1|].
        pose proof (Hhalf i Hi) as HLi.
        destruct (decide (i < k)%nat); [rewrite decide_True in * by lia | rewrite decide_False in * by lia].
        all: done.
    + rewrite (same_meta_height m m1 Hm1). lia.
    + rewrite (same_meta_height m m1 Hm1). lia.
    + done.
    + done.
    + intros i Hi. rewrite (same_meta_at_level m m1 Hm1). apply Hupd. lia.
    + exists m'. split; [done|]. split; [by eapply same_meta_trans|].
      by replace (k + S n)%nat with (S k + n)%nat by lia.
Qed.

(** ** Insertion *)

Section insertion.
Context (m : skips) (new : loc) (nn : Node) (Hfresh : m !! new = None).

Lemma insert_slot i l : l ≠ new → slot (<[new := nn]> m) i l = slot m i l.
Proof. intros. unfold slot. by rewrite lookup_insert_ne. Qed.

Lemma insert_height l : l ≠ new → height (<[new := nn]> m) l = height m l.
Proof. intros. unfold height. by rewrite lookup_insert_ne. Qed.

Lemma insert_prio l : l ≠ new → prio (<[new := nn]> m) l = prio m l.
Proof. intros. unfold prio. by rewrite lookup_insert_ne. Qed.

Lemma insert_at_level i ns : new ∉ ns → at_level (<[new := nn]> m) i ns = at_level m i ns.
Proof.
  intros Hns. apply at_level_ext. intros l Hl. apply insert_height. set_solver.
Qed.
End insertion.

Lemma skip_rep_fresh m hd ns l : skip_rep m hd ns → m !! l = None → l ∉ hd :: ns.
Proof.
  intros [] Hl Hin. apply not_elem_of_dom in Hl. rewrite sk_dom0 in Hl.
  apply Hl. by rewrite elem_of_list_to_set.
Qed.

Lemma skip_rep_length m hd ns : skip_rep m hd ns → (length ns < size m)%nat.
Proof.
  intros [? ? ? Hnd Hdom _ _]. rewrite <-size_dom, Hdom, size_list_to_set by done. cbn. lia.
Qed.

Lemma sorted_ext m m' ns : (∀ l, l ∈ ns → prio m' l = prio m l) →
  StronglySorted (λ a b, prio m b ≤ prio m a) ns → StronglySorted (λ a b, prio m' b ≤ prio m' a) ns.
Proof.
  induction ns as [|l ns IH]; intros Hext Hs; [constructor|].
  apply StronglySorted_cons in Hs as [Hf Hs]. constructor; [apply IH; set_solver|].
  apply Forall_forall. intros l' Hl'. rewrite Forall_forall in Hf. rewrite !Hext by set_solver. auto.
Qed.

Lemma sorted_insert m m' A B new p :
  (∀ l, l ∈ A ++ B → prio m' l = prio m l) → prio m' new = p →
  (∀ l, l ∈ A → p < prio m l) → (∀ l, l ∈ B → prio m l ≤ p) →
  StronglySorted (λ a b, prio m b ≤ prio m a) (A ++ B) →
  StronglySorted (λ a b, prio m' b ≤ prio m' a) (A ++ new :: B).
Proof.
  intros Hext Hnew HA HB (HAB & HsA & HsB)%StronglySorted_app.
  apply StronglySorted_app_2; [|apply (sorted_ext m); set_solver|constructor].
  - intros a b Ha [->|Hb]%elem_of_cons; rewrite ?Hnew, !Hext by set_solver; [|by auto].
    specialize (HA a Ha). lia.
  - apply (sorted_ext m); set_solver.
  - apply Forall_forall. intros b Hb. rewrite Hnew, Hext by set_solver. auto.
Qed.

Lemma skip_rep_insert m m' hd A B new nn lvl :
  skip_rep m hd (A ++ B) → m !! new = None → nn = new_Node (value nn) (priority nn) lvl →
  (1 ≤ lvl ≤ MAX_LEVEL)%nat →
  (∀ l, l ∈ A → priority nn < prio m l) → (∀ l, l ∈ B → prio m l ≤ priority nn) →
  same_meta (<[new := nn]> m) m' → half_linked m' hd A B new lvl →
  skip_rep m' hd (A ++ new :: B).
Proof.
  intros Hrep Hfresh Hnn Hlvl HA HB Hmeta Hhalf.
  pose proof (skip_rep_fresh _ _ _ _ Hrep Hfresh) as Hnew. destruct Hrep.
  assert (Hh : ∀ l, l ≠ new → height m' l = height m l).
  { intros l Hl. by rewrite (same_meta_height _ _ Hmeta), insert_height. }
  assert (Hhn : height m' new = lvl).
  { rewrite (same_meta_height _ _ Hmeta). unfold height. rewrite lookup_insert_eq. cbn.
    rewrite Hnn. cbn. by rewrite length_replicate. }
  assert (Hp : ∀ l, l ≠ new → prio m' l = prio m l).
  { intros l Hl. by rewrite (same_meta_prio _ _ Hmeta), insert_prio. }
  assert (Hpn : prio m' new = priority nn).
  { rewrite (same_meta_prio _ _ Hmeta). unfold prio. by rewrite lookup_insert_eq. }
  assert (Hin : ∀ l, l ∈ A ++ new :: B → l = new ∨ (l ≠ new ∧ l ∈ A ++ B)).
  { intros l Hl. destruct (decide (l = new)); [by left|right]. set_solver. }
  split.
  - rewrite Hh; [done | set_solver].
  - intros l [->|[Hne Hl]]%Hin; [by rewrite Hhn|]. rewrite Hh by done. auto.
  - intros l n Hl Hn. pose proof (Hmeta l) as Hm. rewrite Hn in Hm. cbn in Hm.
    destruct (Hin l Hl) as [->|[Hne Hl']].
    + rewrite lookup_insert_eq in Hm. cbn in Hm. injection Hm as _ _ Hlv Hlen.
      rewrite Hlv, Hlen, Hnn. cbn. by rewrite length_replicate.
    + rewrite lookup_insert_ne in Hm by done. destruct (m !! l) as [n0|] eqn:Hl0; [|done].
      cbn in Hm. injection Hm as _ _ Hlv Hlen. rewrite Hlv, Hlen. eauto.
  - rewrite <-Permutation_middle. rewrite (Permutation_swap new hd). by constructor.
  - rewrite (same_meta_dom _ _ Hmeta), dom_insert_L, sk_dom0. set_solver.
  - intros i Hi. specialize (Hhalf i Hi). rewrite at_level_app.
    unfold at_level at 2. rewrite filter_cons. fold (at_level m' i B). rewrite Hhn.
    by case_decide; rewrite ?decide_True, ?decide_False in Hhalf by done.
  - eapply (sorted_insert m); [|done..]. intros l Hl. apply Hp. set_solver.
Qed.

(** ** Nodes and their payloads *)

Lemma item_prio m l v p : item m l = Some (v, p) → prio m l = p.
Proof.
  unfold item, prio. destruct (m !! l) as [n|]; cbn; [|done]. destruct (value n); cbn; naive_solver.
Qed.

Lemma items_split m (ns : list loc) (XA XB : list (loc * Z)) :
  item m <$> ns = Some <$> (XA ++ XB) →
  ∃ A B, ns = A ++ B ∧ item m <$> A = Some <$> XA ∧ item m <$> B = Some <$> XB.
Proof.
  rewrite fmap_app. intros (A & B & HA & HB & ->)%fmap_app_inv. eauto 6.
Qed.

Lemma items_elem m (ns : list loc) (xs : list (loc * Z)) l :
  item m <$> ns = Some <$> xs → l ∈ ns → ∃ x, x ∈ xs ∧ item m l = Some x.
Proof.
  intros Heq Hl. assert (Hin : item m l ∈ item m <$> ns) by (by apply list_elem_of_fmap_2).
  rewrite Heq in Hin. apply list_elem_of_fmap in Hin as (x & -> & Hx). eauto.
Qed.

Lemma items_ext m m' (ns : list loc) (xs : list (loc * Z)) :
  (∀ l, l ∈ ns → item m' l = item m l) → item m <$> ns = Some <$> xs → item m' <$> ns = Some <$> xs.
Proof.
  intros Hext <-. apply list_fmap_ext. intros i l Hl. apply Hext. by apply list_elem_of_lookup_2 in Hl.
Qed.

Lemma items_sorted m (ns : list loc) (xs : list (loc * Z)) :
  item m <$> ns = Some <$> xs → StronglySorted (λ a b, prio m b ≤ prio m a) ns →
  StronglySorted (λ x y, y.2 ≤ x.2) xs.
Proof.
  revert xs. induction ns as [|l ns IH]; intros [|[v p] xs] Heq Hs; cbn in *; try discriminate Heq;
    [constructor|].
  injection Heq as Hl Heq. apply StronglySorted_cons in Hs as [Hf Hs].
  constructor; [by apply IH|]. apply Forall_forall. intros y Hy. cbn.
  assert (Hin : Some y ∈ item m <$> ns) by (rewrite Heq; by apply list_elem_of_fmap_2).
  apply list_elem_of_fmap in Hin as (l' & Hy' & Hl'). rewrite Forall_forall in Hf.
  specialize (Hf l' Hl'). destruct y as [v' p']. cbn.
  rewrite (item_prio _ _ _ _ Hl), (item_prio m l' v' p') in Hf by done. done.
Qed.

Lemma pq_insert_split l p xs : StronglySorted (λ x y, y.2 ≤ x.2) xs →
  ∃ XA XB, xs = XA ++ XB ∧ pq_insert l p xs = XA ++ (l, p) :: XB ∧
    (∀ x, x ∈ XA → p < x.2) ∧ (∀ x, x ∈ XB → x.2 ≤ p).
Proof.
  induction xs as [|[l' p'] xs IH]; intros Hs; cbn.
  { exists [], []. set_solver. }
  apply StronglySorted_cons in Hs as [Hf Hs]. destruct (decide (p < p')) as [Hlt|Hge].
  - destruct (IH Hs) as (XA & XB & -> & -> & HA & HB). exists ((l', p') :: XA), XB.
    split_and!; [done..| |done]. intros x [->|?]%elem_of_cons; auto.
  - exists [], ((l', p') :: xs). split_and!; [done..|set_solver|].
    rewrite Forall_forall in Hf. intros x [->|Hx]%elem_of_cons; cbn; [lia|].
    specialize (Hf x Hx). cbn in Hf. lia.
Qed.

Lemma pq_insert_perm l p xs : pq_insert l p xs ≡ₚ (l, p) :: xs.
Proof.
  induction xs as [|[l' p'] xs IH]; cbn; [done|]. case_decide; [|done].
  rewrite IH. apply Permutation_swap.
Qed.

Section enqueue.
Context `{SearchLoop}.

(** The search and the links of one [enqueue], on the heap that already has the
    new node. *)
Lemma enqueue_links sp lvl m hd A B new v p :
  skip_rep m hd (A ++ B) → m !! new = None → (1 ≤ lvl ≤ MAX_LEVEL)%nat →
  (∀ a, a ∈ A → p < prio m a) → (∀ b, b ∈ B → prio m b ≤ p) →
  ∃ update m', search (<[new := new_Node v p lvl]> m) p (search_levels lvl) hd ∅ = Ret update ∧
    link_levels sp update new (seq 0 lvl) (<[new := new_Node v p lvl]> m) = Ret m' ∧
    same_meta (<[new := new_Node v p lvl]> m) m' ∧ half_linked m' hd A B new lvl.
Proof.
  intros Hrep Hfresh Hlvl HpA HpB. set (nn := new_Node v p lvl).
  pose proof (skip_rep_fresh _ _ _ _ Hrep Hfresh) as Hnew.
  pose proof (skip_rep_length _ _ _ Hrep) as Hlen. rewrite length_app in Hlen.
  destruct Hrep as [Hhd _ _ Hnd _ HL _].
  assert (Hlinked : ∀ i, (i < MAX_LEVEL)%nat →
    linked (slot (<[new := nn]> m) i) (hd :: at_level (<[new := nn]> m) i (A ++ B)) None).
  { intros i Hi. rewrite insert_at_level by set_solver.
    eapply linked_ext; [|by apply HL]. intros l' Hl'. apply insert_slot.
    intros ->. apply Hnew. eapply elem_of_sublist; [exact Hl'|].
    apply sublist_skip, at_level_sublist. }
  assert (Hheight : height (<[new := nn]> m) new = lvl).
  { unfold height. rewrite lookup_insert_eq. cbn. by rewrite length_replicate. }
  destruct (search_spec (<[new := nn]> m) hd p A B (search_levels lvl) hd ∅)
    as (update & Hsearch & Hupd).
  { by rewrite insert_height by set_solver. }
  { done. }
  { rewrite map_size_insert_None by done. lia. }
  { intros a Ha. rewrite insert_prio by set_solver. auto. }
  { intros b Hb. rewrite insert_prio by set_solver. auto. }
  { apply search_descends. }
  { apply search_in_range. }
  { set_solver. }
  { intros i Hi%search_in_range. rewrite insert_height by set_solver. lia. }
  destruct (link_levels_spec sp (<[new := nn]> m) hd A B new update 0 lvl)
    as (m' & Hlink & Hmeta & Hhalf); [|lia..|done|done| |eauto 6].
  { intros i Hi. rewrite decide_False by lia. cbn [app]. rewrite <-at_level_app. auto. }
  { intros i Hi. rewrite Hupd. by rewrite decide_True by (apply search_reaches; lia). }
Qed.

(** The payloads after the links. *)
Lemma items_insert m m' (A B : list loc) new v p lvl (XA XB : list (loc * Z)) :
  new ∉ A ++ B → same_meta (<[new := new_Node (Some v) p lvl]> m) m' →
  item m <$> A = Some <$> XA → item m <$> B = Some <$> XB →
  item m' <$> (A ++ new :: B) = Some <$> (XA ++ (v, p) :: XB).
Proof.
  intros Hnew Hmeta HA HB.
  assert (Hitem : ∀ a, a ∈ A ++ B → item m' a = item m a).
  { intros a Ha. rewrite (same_meta_item _ _ Hmeta). unfold item.
    by rewrite lookup_insert_ne by set_solver. }
  rewrite !fmap_app, !fmap_cons. f_equal; [|f_equal].
  - eapply items_ext; [|done]. intros. apply Hitem. set_solver.
  - rewrite (same_meta_item _ _ Hmeta). unfold item. by rewrite lookup_insert_eq.
  - eapply items_ext; [|done]. intros. apply Hitem. set_solver.
Qed.

Lemma pq_enqueue_spec c h q xs l p :
  (1 ≤ random_level c ≤ MAX_LEVEL)%nat → pq_rep h q xs → is_Some (h !! l) → l ∉ xs.*1 →
  ∃ q', pq_enqueue c q l p = Ret q' ∧ pq_rep h q' (pq_insert l p xs).
Proof.
  intros Hlvl [(ns & Hrep & Hitems) Hsize Hnd Hlive] Hl Hnl. destruct q as [m hd sz]. cbn in *.
  destruct (pq_insert_split l p xs) as (XA & XB & Hxs & Hins & HXA & HXB).
  { eapply items_sorted; [exact Hitems | by destruct Hrep]. }
  rewrite Hxs in Hitems. apply items_split in Hitems as (A & B & -> & HA & HB).
  assert (HpA : ∀ a, a ∈ A → p < prio m a).
  { intros a Ha. destruct (items_elem _ _ _ _ HA Ha) as ([v pv] & Hv & Hit).
    rewrite (item_prio _ _ _ _ Hit). apply (HXA _ Hv). }
  assert (HpB : ∀ b, b ∈ B → prio m b ≤ p).
  { intros b Hb. destruct (items_elem _ _ _ _ HB Hb) as ([v pv] & Hv & Hit).
    rewrite (item_prio _ _ _ _ Hit). apply (HXB _ Hv). }
  set (new := fresh (dom m)).
  assert (Hfresh : m !! new = None) by (apply not_elem_of_dom; apply is_fresh).
  pose proof (skip_rep_fresh _ _ _ _ Hrep Hfresh) as Hnew.
  destruct (enqueue_links (spurious c) (random_level c) m hd A B new (Some l) p)
    as (update & m' & Hsearch & Hlink & Hmeta & Hhalf); [done..|].
  unfold pq_enqueue. cbn. fold new. rewrite Hsearch. cbn. rewrite Hlink. cbn.
  eexists. split; [done|]. rewrite Hins. split; cbn.
  - exists (A ++ new :: B). split.
    + by eapply (skip_rep_insert m m' hd A B new (new_Node (Some l) p (random_level c))).
    + eapply items_insert; [set_solver|done..].
  - rewrite Hsize, w64_add_l. f_equal. rewrite Hxs, !length_app. cbn. lia.
  - rewrite <-Hins, pq_insert_perm. by constructor.
  - intros l'. rewrite <-Hins, pq_insert_perm. intros [->|?]%elem_of_cons; auto.
Qed.
End enqueue.

(** ** Removal *)

Lemma cas_unlink_spec k m hd i x d :
  slot m i x = Some d → slot m i hd = Some (Some x) → slot m 0 hd = Some (Some x) →
  ∃ m', cas_unlink k m hd i x = Ret (m', Some x) ∧ same_meta m m' ∧
    ∀ j l, slot m' j l = if decide (j = i ∧ l = hd) then Some d else slot m j l.
Proof.
  intros Hx Hi H0. induction k as [|k IH]; cbn;
    rewrite (load_next_slot _ _ _ _ Hx), (load_next_slot _ _ _ _ Hi); cbn.
  - rewrite decide_True by done.
    destruct (store_next_slot m hd i d) as (m' & -> & Hm' & Hs'); [eauto|]. cbn. eauto.
  - rewrite decide_False by naive_solver. rewrite (load_next_slot _ _ _ _ H0). cbn. apply IH.
Qed.

Lemma unlink_levels_spec k n m hd x ns :
  (n ≤ height m x)%nat → (n ≤ MAX_LEVEL)%nat → hd ≠ x → hd ∉ ns →
  (∀ i, (i < n)%nat → linked (slot m i) (hd :: x :: at_level m i ns) None) →
  (∀ i, (n ≤ i < MAX_LEVEL)%nat → linked (slot m i) (hd :: at_level m i ns) None) →
  ∃ m', unlink_levels k m hd (reverse (seq 0 n)) x = Ret (m', Some x) ∧ same_meta m m' ∧
    ∀ i, (i < MAX_LEVEL)%nat → linked (slot m' i) (hd :: at_level m' i ns) None.
Proof.
  revert m. induction n as [|n IH]; intros m Hn Hmax Hne Hhd Hlow Hhigh.
  { exists m. split_and!; [done..|]. intros i Hi. apply Hhigh. lia. }
  rewrite seq_S, reverse_snoc. cbn [unlink_levels Nat.add].
  pose proof (Hlow n ltac:(lia)) as [Hhn [Hxn HLn]]. pose proof (Hlow 0%nat ltac:(lia)) as [Hh0 _].
  destruct (cas_unlink_spec k m hd n x _ Hxn Hhn Hh0) as (m1 & -> & Hm1 & Hs1). cbn.
  destruct (IH m1) as (m' & -> & Hm' & HL').
  - rewrite (same_meta_height _ _ Hm1). lia.
  - lia.
  - done.
  - done.
  - intros i Hi. rewrite (same_meta_at_level _ _ Hm1). eapply linked_ext; [|apply Hlow; lia].
    intros l _. by rewrite Hs1, decide_False by lia.
  - intros i Hi. rewrite (same_meta_at_level _ _ Hm1). destruct (decide (i = n)) as [->|Hin].
    + split; [by rewrite Hs1, decide_True|]. eapply linked_ext; [|exact HLn].
      intros l [_ Hl]%elem_of_at_level. rewrite Hs1, decide_False; [done|]. intros [_ ->]. done.
    + eapply linked_ext; [|apply Hhigh; lia]. intros l _. by rewrite Hs1, decide_False by lia.
  - exists m'. split_and!; [done| |done]. by eapply same_meta_trans.
Qed.

Lemma at_level_cons m i x ns :
  at_level m i (x :: ns) = if decide (i < height m x)%nat then x :: at_level m i ns else at_level m i ns.
Proof. unfold at_level. by rewrite filter_cons. Qed.

Lemma skip_rep_remove m m' hd x ns :
  skip_rep m hd (x :: ns) → same_meta m m' →
  (∀ i, (i < MAX_LEVEL)%nat → linked (slot m' i) (hd :: at_level m' i ns) None) →
  skip_rep (delete x m') hd ns.
Proof.
  intros [Hhd Hh Hlv Hnd Hdom _ Hs] Hmeta HL.
  assert (Hx : x ∉ hd :: ns) by (apply NoDup_cons in Hnd as [? [? ?]%NoDup_cons]; set_solver).
  assert (Hdel : ∀ l, l ≠ x → height (delete x m') l = height m l ∧ prio (delete x m') l = prio m l).
  { intros l Hl. rewrite <-(same_meta_height _ _ Hmeta), <-(same_meta_prio _ _ Hmeta).
    unfold height, prio. by rewrite lookup_delete_ne. }
  split.
  - destruct (Hdel hd) as [-> _]; [set_solver | done].
  - intros l Hl. destruct (Hdel l) as [-> _]; [set_solver | apply Hh; set_solver].
  - intros l n Hl. rewrite lookup_delete_ne by set_solver. intros Hn.
    pose proof (Hmeta l) as Hm. rewrite Hn in Hm. destruct (m !! l) as [n0|] eqn:Hl0; [|done].
    cbn in Hm. injection Hm as _ _ -> ->. apply (Hlv l); [set_solver | done].
  - rewrite Permutation_swap in Hnd. by apply NoDup_cons in Hnd as [_ ?].
  - rewrite dom_delete_L, (same_meta_dom _ _ Hmeta), Hdom. set_solver.
  - intros i Hi. rewrite (at_level_ext m' (delete x m')).
    + eapply linked_ext; [|by apply HL]. intros l Hl. unfold slot. rewrite lookup_delete_ne; [done|].
      intros <-. apply Hx. eapply elem_of_sublist; [exact Hl|]. apply sublist_skip, at_level_sublist.
    + intros l Hl. destruct (Hdel l) as [-> _]; [set_solver|]. by rewrite (same_meta_height _ _ Hmeta).
  - apply StronglySorted_cons in Hs as [_ Hs]. revert Hs Hx Hdel. clear. intros Hs Hx Hdel.
    induction Hs as [|l ns Hs IH Hf]; constructor; [apply IH; set_solver|].
    rewrite Forall_forall in *. intros l' Hl'.
    rewrite (proj2 (Hdel l ltac:(set_solver))), (proj2 (Hdel l' ltac:(set_solver))). auto.
Qed.

Lemma skip_rep_first m hd ns : skip_rep m hd ns → slot m 0 hd = Some (head ns).
Proof.
  intros []. pose proof (sk_linked0 0%nat ltac:(unfold MAX_LEVEL; lia)) as [-> _].
  rewrite first_or_None. f_equal. destruct ns as [|x ns]; [done|].
  rewrite at_level_cons, decide_True; [done|]. specialize (sk_height0 x ltac:(set_solver)). lia.
Qed.

Lemma pq_dequeue_spec c h q xs :
  pq_rep h q xs →
  match xs with
  | [] => pq_dequeue c q = Ret (None, q)
  | (l, _) :: xs' => ∃ q', pq_dequeue c q = Ret (Some l, q') ∧ pq_rep h q' xs'
  end.
Proof.
  intros [(ns & Hrep & Hitems) Hsize Hnd Hlive]. destruct q as [m hd sz]. unfold pq_dequeue. cbn in *.
  pose proof (skip_rep_first _ _ _ Hrep) as Hfirst. rewrite (load_next_slot _ _ _ _ Hfirst). cbn.
  destruct xs as [|[l p] xs], ns as [|x ns]; cbn in *; try discriminate Hitems; [done|].
  injection Hitems as Hitem Hitems. pose proof Hitem as Hitem'. unfold item in Hitem.
  destruct (m !! x) as [n|] eqn:Hx; cbn in Hitem; [|done].
  destruct (value n) as [v|] eqn:Hv; cbn in Hitem; [|done]. injection Hitem as -> Hp.
  assert (Hheight : height m x = level n).
  { unfold height. rewrite Hx. cbn. destruct Hrep as [_ _ Hlv _ _ _ _].
    symmetry. apply (Hlv x); [set_solver | done]. }
  pose proof Hrep as [_ Hh _ Hndl _ HL _]. specialize (Hh x ltac:(set_solver)).
  apply NoDup_cons in Hndl as [Hhd [Hxns _]%NoDup_cons].
  cbn. destruct (unlink_levels_spec (spurious c) (level n) m hd x ns) as (m' & -> & Hm' & HL').
  - lia.
  - lia.
  - set_solver.
  - set_solver.
  - intros i Hi. specialize (HL i ltac:(lia)). by rewrite at_level_cons, decide_True in HL by lia.
  - intros i Hi. specialize (HL i ltac:(lia)). by rewrite at_level_cons, decide_False in HL by lia.
  - cbn. pose proof (Hm' x) as Hmx. rewrite Hx in Hmx. destruct (m' !! x) as [n'|]; [|done].
    cbn in *. injection Hmx as Hv' _ _ _. rewrite Hv', Hv. eexists. split; [done|]. split; cbn.
    + exists ns. split; [by eapply skip_rep_remove|]. eapply items_ext; [|done].
      intros l' Hl'. rewrite <-(same_meta_item _ _ Hm'). unfold item.
      by rewrite lookup_delete_ne by set_solver.
    + rewrite Hsize, w64_sub_l. f_equal. lia.
    + by apply NoDup_cons in Hnd as [_ ?].
    + intros l' Hl'. apply Hlive. set_solver.
Qed.

(** ** Clearing *)

Lemma delete_chain_spec fuel m L :
  linked (slot m 0) L None → NoDup L → (length L ≤ fuel)%nat →
  ∃ m', delete_chain fuel m (first_or L None) = Ret m' ∧
    ∀ l, m' !! l = if decide (l ∈ L) then None else m !! l.
Proof.
  revert fuel m. induction L as [|x L IH]; intros fuel m HL Hnd Hlen.
  { exists m. destruct fuel; (split; [done|]); intros l; by rewrite decide_False by set_solver. }
  destruct fuel as [|fuel]; cbn in Hlen; [lia|]. destruct HL as [Hx HL].
  apply NoDup_cons in Hnd as [HxL Hnd]. cbn. rewrite (load_next_slot _ _ _ _ Hx). cbn.
  destruct (IH fuel (delete x m)) as (m' & -> & Hm'); [|done|lia|].
  { eapply linked_ext; [|done]. intros l Hl. unfold slot. rewrite lookup_delete_ne; [done|set_solver]. }
  exists m'. split; [done|]. intros l. rewrite Hm', lookup_delete.
  destruct (decide (x = l)) as [<-|Hne].
  - rewrite (decide_True (P := x ∈ x :: L)) by set_solver. by destruct (decide (x ∈ L)).
  - destruct (decide (l ∈ L)); [rewrite decide_True by set_solver | rewrite decide_False by set_solver].
    all: done.
Qed.

Lemma null_slots_spec m l k n :
  (k + n ≤ height m l)%nat →
  ∃ m', null_slots m l (seq k n) = Ret m' ∧ same_meta m m' ∧
    ∀ j l', slot m' j l' = if decide ((k ≤ j < k + n)%nat ∧ l' = l) then Some None else slot m j l'.
Proof.
  revert m k. induction n as [|n IH]; intros m k Hk; cbn.
  { exists m. split_and!; [done..|]. intros. by rewrite decide_False by lia. }
  destruct (store_next_slot m l k None) as (m1 & -> & Hm1 & Hs1); [apply slot_height; lia|]. cbn.
  destruct (IH m1 (S k)) as (m' & -> & Hm' & Hs'); [rewrite (same_meta_height _ _ Hm1); lia|].
  exists m'. split; [done|]. split; [by eapply same_meta_trans|]. intros j l'.
  rewrite Hs', Hs1. repeat case_decide; try done; exfalso; naive_solver lia.
Qed.

Lemma at_level_0 m ns : (∀ l, l ∈ ns → (1 ≤ height m l)%nat) → at_level m 0 ns = ns.
Proof.
  induction ns as [|x ns IH]; intros Hh; [done|]. rewrite at_level_cons, IH by (intros; apply Hh; set_solver).
  rewrite decide_True; [done|]. specialize (Hh x ltac:(set_solver)). lia.
Qed.

Lemma pq_clear_spec h q xs : pq_rep h q xs →
  ∃ q', pq_clear q = Ret q' ∧ pq_rep h q' [] ∧ dom (pq_nodes q') = {[pq_head_ q']}.
Proof.
  intros [(ns & Hrep & _) _ _ _]. destruct q as [m hd sz]. unfold pq_clear. cbn [pq_nodes pq_head_] in *.
  rewrite (load_next_slot _ _ _ _ (skip_rep_first _ _ _ Hrep)). cbn [mbind outcome_bind].
  pose proof (skip_rep_length _ _ _ Hrep) as Hlen. destruct Hrep as [Hhd Hh _ Hnd Hdom HL _].
  pose proof (HL 0%nat ltac:(unfold MAX_LEVEL; lia)) as [_ HL0].
  rewrite at_level_0 in HL0 by (intros l Hl; by apply Hh).
  apply NoDup_cons in Hnd as [Hhdns Hnd].
  destruct (delete_chain_spec (size m) m ns) as (m1 & Hdel & Hm1); [done|done|lia|].
  rewrite first_or_None in Hdel. rewrite Hdel. cbn [mbind outcome_bind].
  assert (Hhd1 : height m1 hd = MAX_LEVEL).
  { unfold height. by rewrite Hm1, decide_False. }
  destruct (null_slots_spec m1 hd 0 MAX_LEVEL) as (m2 & Hnull & Hm2 & Hs2); [lia|].
  rewrite Hnull. cbn.
  assert (Hdom2 : dom m2 = {[hd]}).
  { rewrite (same_meta_dom _ _ Hm2). apply set_eq. intros l. rewrite elem_of_dom, Hm1, elem_of_singleton.
    assert (Hl : is_Some (m !! l) ↔ l ∈ hd :: ns) by (rewrite <-elem_of_dom, Hdom; set_solver).
    destruct (decide (l ∈ ns)); [split; [intros []; done | set_solver] | set_solver]. }
  eexists. split; [done|]. split; [|done]. split; cbn; [|done|constructor|set_solver].
  exists []. split; [|done]. split.
  - by rewrite (same_meta_height _ _ Hm2).
  - set_solver.
  - set_solver.
  - apply NoDup_singleton.
  - rewrite Hdom2. set_solver.
  - intros i Hi. cbn. split; [|done]. by rewrite Hs2, decide_True by lia.
  - constructor.
Qed.

(** ** The interface *)

Section interface.
Context `{SearchLoop}.

#[export] Instance LockFreePriorityQueue_NodeQueue : NodeQueue LockFreePriorityQueue := {|
  nq_new := new_LockFreePriorityQueue;
  nq_push c h q l p := q ← pq_enqueue c q l p; Ret (h, q);
  nq_pop c h q := pq_dequeue c q;
  nq_peek q := pq_peek q;
  nq_empty q := pq_empty q;
  nq_size q := pq_size q
|}.

Lemma pq_rep_new h : pq_rep h new_LockFreePriorityQueue [].
Proof.
  split; cbn; [|done|constructor|set_solver]. exists []. split; [|done].
  split; cbn; try set_solver.
  - apply NoDup_singleton.
  - intros i Hi. split; [|done]. unfold slot, MAX_LEVEL in *. cbn.
    do 16 (destruct i as [|i]; [done|]). lia.
  - constructor.
Qed.

Lemma pq_peek_spec h q xs : pq_rep h q xs → pq_peek q = Ret (fst <$> head xs).
Proof.
  intros [(ns & Hrep & Hitems) _ _ _]. unfold pq_peek.
  rewrite (load_next_slot _ _ _ _ (skip_rep_first _ _ _ Hrep)). cbn.
  destruct ns as [|x ns], xs as [|[l p] xs]; cbn in *; try discriminate Hitems; [done|].
  injection Hitems as Hitem _. unfold item in Hitem.
  destruct (pq_nodes q !! x) as [n|]; cbn in *; [|done].
  destruct (value n); cbn in *; [|done]. by injection Hitem as -> _.
Qed.

Lemma pq_empty_spec h q xs : pq_rep h q xs → pq_empty q = Ret (bool_decide (xs = [])).
Proof.
  intros [(ns & Hrep & Hitems) _ _ _]. unfold pq_empty.
  rewrite (load_next_slot _ _ _ _ (skip_rep_first _ _ _ Hrep)). cbn. f_equal. apply bool_decide_ext.
  destruct ns, xs; cbn in *; try discriminate Hitems; naive_solver.
Qed.

#[export] Instance LockFreePriorityQueue_laws : NodeQueueLaws LockFreePriorityQueue.
Proof.
  refine {| nq_ok c := (1 ≤ random_level c ≤ MAX_LEVEL)%nat;
            nq_rep := pq_rep; nq_insert := pq_insert |}; cbn.
  - apply pq_insert_perm.
  - apply pq_rep_new.
  - intros h h' q xs Hext []. split; try done. intros l Hl. rewrite Hext by done. auto.
  - intros c h q xs l p Hc Hrep Hl Hnl.
    destruct (pq_enqueue_spec c h q xs l p) as (q' & -> & Hrep'); [done..|].
    exists h, q'. done.
  - intros c h q xs _ Hrep. by apply pq_dequeue_spec.
  - apply pq_peek_spec.
  - apply pq_empty_spec.
  - by intros h q xs [].
  - by intros h q xs [].
  - intros h q xs l []. auto.
Defined.
End interface.

(** Two loop headers that satisfy the contract: from the top level down, and
    from the new node's top level down. *)

Lemma reverse_seq_descends n : StronglySorted (λ i j, (j < i)%nat) (reverse (seq 0 n)).
Proof.
  induction n as [|n IH]; [constructor|]. rewrite seq_S, reverse_snoc. constructor; [done|].
  apply Forall_forall. intros j. rewrite elem_of_reverse, elem_of_seq. lia.
Qed.

Definition search_from_top : SearchLoop.
Proof.
  refine {| search_levels _ := reverse (seq 0 MAX_LEVEL) |}.
  - intros _. apply reverse_seq_descends.
  - intros _ i. rewrite elem_of_reverse, elem_of_seq. lia.
  - intros lvl i Hi. rewrite elem_of_reverse, elem_of_seq. lia.
Defined.

Definition search_from_new : SearchLoop.
Proof.
  refine {| search_levels lvl := reverse (seq 0 (Nat.min lvl MAX_LEVEL)) |}.
  - intros lvl. apply reverse_seq_descends.
  - intros lvl i. rewrite elem_of_reverse, elem_of_seq. lia.
  - intros lvl i Hi. rewrite elem_of_reverse, elem_of_seq. lia.
Defined.

(** ** Properties *)

(** C6: The skip list, run through any program of enqueues and dequeues, for every
    random level it draws and every pattern of spurious exchange failures,
    reads no uninitialised slot and no freed node, terminates, and returns
    exactly what a list kept in decreasing priority returns (a new item goes
    before the items of its own priority). *)
Theorem skiplist_refines_sorted_list `{SL : SearchLoop} ops h
    (Hops : ops_valid (λ c, (1 ≤ random_level c ≤ MAX_LEVEL)%nat) pq_insert h ops []) :
  ∃ h' q', nq_run ops h new_LockFreePriorityQueue = Ret ((spec_run pq_insert ops []).1, h', q') ∧
    pq_rep h' q' (spec_run pq_insert ops []).2 ∧
    StronglySorted (λ x y, y.2 ≤ x.2) (spec_run pq_insert ops []).2.
Proof.
  destruct (nq_run_spec (NQL := LockFreePriorityQueue_laws) ops h new_LockFreePriorityQueue []
    (pq_rep_new h) Hops) as (h' & q' & Hrun & Hrep).
  exists h', q'. split; [exact Hrun|]. split; [exact Hrep|].
  destruct Hrep as [(ns & Hskip & Hitems) _ _ _]. eapply items_sorted; [exact Hitems|].
  by destruct Hskip.
Qed.

Definition skip_demo_heap : heap :=
  {[1%positive := mkNode None (Some 11%positive); 2%positive := mkNode None (Some 12%positive);
    3%positive := mkNode None (Some 13%positive)]}.

Definition skip_demo_ops : list qop :=
  [QPush (mkChoices 1 3) 1 50; QPush (mkChoices 0 16) 2 100; QPush (mkChoices 2 1) 3 50;
   QPop (mkChoices 1 1); QPop (mkChoices 0 1); QPop (mkChoices 0 1); QPop (mkChoices 0 1)].

Lemma skiplist_refines_sorted_list_witness :
  ∃ h' q', nq_run (H := LockFreePriorityQueue_NodeQueue (H := search_from_top))
      skip_demo_ops skip_demo_heap new_LockFreePriorityQueue
    = Ret ([Some 2%positive; Some 3%positive; Some 1%positive; None], h', q').
Proof.
  edestruct (skiplist_refines_sorted_list (SL := search_from_top) skip_demo_ops skip_demo_heap)
    as (h' & q' & Hrun & _).
  - cbn. unfold MAX_LEVEL. split_and!; try done; try lia; by apply (bool_decide_unpack _).
  - exists h', q'. exact Hrun.
Defined.

(** [clear] of a priority queue terminates without touching a freed node, frees
    every node but the head, and leaves an empty queue that is as good as new. *)
Theorem pq_clear_empties h q xs (Hrep : pq_rep h q xs) :
  ∃ q', pq_clear q = Ret q' ∧ pq_rep h q' [] ∧ dom (pq_nodes q') = {[pq_head_ q']}.
Proof. exact (pq_clear_spec h q xs Hrep). Qed.

Lemma pq_clear_empties_witness :
  ∃ q', pq_clear new_LockFreePriorityQueue = Ret q' ∧ pq_rep ∅ q' [] ∧
    dom (pq_nodes q') = {[pq_head_ q']}.
Proof. exact (pq_clear_empties ∅ new_LockFreePriorityQueue [] (pq_rep_new ∅)). Defined.
