(* ===== verification/TaskGraph.v ===== *)
(** * TaskGraph: dependency edges in both directions

    Models the class [TaskGraph] of include/utils/DataStructures.hpp.  The two
    [unordered_map]s of [unordered_set]s are finite maps of finite sets; a walk
    over one takes an [IterOrder].  Every method holds the graph's own mutex for
    its whole body, so it runs as one step. *)

From S2P Require Import Prelude.

Abbreviation edges := (gmap Z (gset Z)) (only parsing).

Record TaskGraph : Type := mkGraph {
  g_dependencies_ : edges;
  g_dependents_ : edges
}.

Definition new_TaskGraph : TaskGraph := mkGraph ∅ ∅.

(** [m[k]] for a map of sets: a missing key is inserted with the empty set. *)
Definition set_at (m : edges) (k : Z) : gset Z := default ∅ (m !! k).

(** The insertion both halves of [addDependency] perform: make sure of the key,
    then insert into its set. *)
Definition add_edge (m : edges) (k v : Z) : edges :=
  let m := match m !! k with None => <[k := ∅]> m | Some _ => m end in
  <[k := {[v]} ∪ set_at m k]> m.

Definition graph_addDependency (dependent dependency : Z) (g : TaskGraph) : TaskGraph :=
  mkGraph (add_edge (g_dependencies_ g) dependent dependency)
          (add_edge (g_dependents_ g) dependency dependent).

(** [it->second.erase(v)] when the key is present. *)
Definition erase_edge (m : edges) (k v : Z) : edges :=
  match m !! k with
  | Some s => <[k := s ∖ {[v]}]> m
  | None => m
  end.

Definition graph_removeDependency (dependent dependency : Z) (g : TaskGraph) : TaskGraph :=
  mkGraph (erase_edge (g_dependencies_ g) dependent dependency)
          (erase_edge (g_dependents_ g) dependency dependent).

Definition getDependencies (taskId : Z) (g : TaskGraph) : gset Z :=
  match g_dependencies_ g !! taskId with
  | Some s => s
  | None => ∅
  end.

Definition getDependents (taskId : Z) (g : TaskGraph) : gset Z :=
  match g_dependents_ g !! taskId with
  | Some s => s
  | None => ∅
  end.

Definition hasDependencies (taskId : Z) (g : TaskGraph) : bool :=
  match g_dependencies_ g !! taskId with
  | Some s => negb (bool_decide (s = ∅))
  | None => false
  end.

Definition hasDependents (taskId : Z) (g : TaskGraph) : bool :=
  match g_dependents_ g !! taskId with
  | Some s => negb (bool_decide (s = ∅))
  | None => false
  end.

Definition getReadyTasks `{!IterOrder Z} (g : TaskGraph) : list Z :=
  (filter (λ kd, kd.2 = ∅) (map_iter (g_dependencies_ g))).*1.

(** [for (dependent : dep_it->second) ... it->second.erase(taskId)]. *)
Fixpoint erase_in_each (m : edges) (dependents : list Z) (taskId : Z) : edges :=
  match dependents with
  | [] => m
  | d :: dependents => erase_in_each (erase_edge m d taskId) dependents taskId
  end.

Definition removeTask `{!IterOrder Z} (taskId : Z) (g : TaskGraph) : TaskGraph :=
  let dependencies := delete taskId (g_dependencies_ g) in
  let dependencies := (λ deps, deps ∖ {[taskId]}) <$> dependencies in
  match g_dependents_ g !! taskId with
  | Some dependents =>
      mkGraph (erase_in_each dependencies (iter dependents) taskId)
              (delete taskId (g_dependents_ g))
  | None => mkGraph dependencies (g_dependents_ g)
  end.

(** [getSubgraph]: the recursive lambda [buildSubgraph] over its two captured
    locals.  Each call that does work marks a new id visited, so the number of
    ids in the graph bounds the depth of the recursion. *)
Definition build_state : Type := edges * gset Z.

(** The [for] loop of the lambda's body, over the recursive call. *)
Fixpoint build_each (build : Z → build_state → outcome build_state) (ids : list Z)
    (st : build_state) : outcome build_state :=
  match ids with
  | [] => Ret st
  | id :: ids => st ← build id st; build_each build ids st
  end.

Fixpoint buildSubgraph `{!IterOrder Z} (fuel : nat) (deps : edges) (id : Z) (st : build_state)
    : outcome build_state :=
  let '(subgraph, visited) := st in
  if decide (id ∈ visited) then Ret st
  else match fuel with
       | O => Diverge
       | S fuel =>
           let visited := {[id]} ∪ visited in
           match deps !! id with
           | Some s =>
               build_each (buildSubgraph fuel deps) (iter s) (<[id := s]> subgraph, visited)
           | None => Ret (<[id := ∅]> subgraph, visited)
           end
       end.

(** Every id a map of sets mentions. *)
Definition all_ids (m : edges) : gset Z := dom m ∪ ⋃ (map_to_list m).*2.

Definition getSubgraph `{!IterOrder Z} (rootId : Z) (g : TaskGraph) : outcome edges :=
  let deps := g_dependencies_ g in
  st ← buildSubgraph (S (size (all_ids deps))) deps rootId (∅, ∅);
  Ret st.1.

(** ** Specification vocabulary *)

(** [a] depends directly on [b]. *)
Definition edge (m : edges) (a b : Z) : Prop := b ∈ set_at m a.

Global Instance edge_dec m a b : Decision (edge m a b).
Proof. unfold edge. apply _. Defined.

(** The two maps describe the same edges. *)
Definition graph_wf (g : TaskGraph) : Prop :=
  ∀ a b, edge (g_dependencies_ g) a b ↔ edge (g_dependents_ g) b a.

(** The operations that change the graph, in sequence. *)
Inductive graph_op : Type :=
| GAdd (dependent dependency : Z)
| GRemoveEdge (dependent dependency : Z).

Definition apply_graph_op (o : graph_op) (g : TaskGraph) : TaskGraph :=
  match o with
  | GAdd a b => graph_addDependency a b g
  | GRemoveEdge a b => graph_removeDependency a b g
  end.

(** ** Lemmas *)

Lemma set_at_insert m k k' s :
  set_at (<[k := s]> m) k' = if decide (k = k') then s else set_at m k'.
Proof. unfold set_at. rewrite lookup_insert. by case_decide. Qed.

Lemma add_edge_spec m k v a b :
  edge (add_edge m k v) a b ↔ (a = k ∧ b = v) ∨ edge m a b.
Proof.
  unfold add_edge, edge. rewrite set_at_insert.
  destruct (m !! k) as [s|] eqn:E; [|rewrite !set_at_insert].
  all: assert (Hk : set_at m k = default ∅ (m !! k)) by done; rewrite E in Hk; cbn in Hk.
  all: repeat case_decide; subst; rewrite ?Hk; set_solver.
Qed.

Lemma erase_edge_spec m k v a b :
  edge (erase_edge m k v) a b ↔ edge m a b ∧ ¬ (a = k ∧ b = v).
Proof.
  unfold erase_edge, edge. destruct (m !! k) as [s|] eqn:E; [rewrite set_at_insert|].
  all: assert (Hk : set_at m k = default ∅ (m !! k)) by done; rewrite E in Hk; cbn in Hk.
  - case_decide; subst; rewrite ?Hk; set_solver.
  - split; [|naive_solver]. intros Hb. split; [done|]. intros [-> ->]. rewrite Hk in Hb. set_solver.
Qed.

Lemma erase_in_each_spec m ds t a b :
  edge (erase_in_each m ds t) a b ↔ edge m a b ∧ ¬ (a ∈ ds ∧ b = t).
Proof.
  revert m. induction ds as [|d ds IH]; intros m; cbn; [set_solver|].
  rewrite IH, erase_edge_spec, elem_of_cons. naive_solver.
Qed.

Lemma set_at_fmap (f : gset Z → gset Z) m k : f ∅ = ∅ → set_at (f <$> m) k = f (set_at m k).
Proof. intros Hf. unfold set_at. rewrite lookup_fmap. by destruct (m !! k). Qed.

Lemma set_at_delete m k k' :
  set_at (delete k m) k' = if decide (k = k') then ∅ else set_at m k'.
Proof. unfold set_at. rewrite lookup_delete. by case_decide. Qed.

Lemma NoDup_fst_filter {V} (P : Z * V → Prop) `{!∀ x, Decision (P x)} (l : list (Z * V)) :
  NoDup l.*1 → NoDup (filter P l).*1.
Proof.
  induction l as [|x l IH]; [done|]. rewrite fmap_cons, filter_cons. intros [Hx Hl]%NoDup_cons.
  case_decide; [rewrite fmap_cons|auto]. apply NoDup_cons. split; [|auto]. intros Hin. apply Hx.
  apply list_elem_of_fmap in Hin as (y & -> & Hy). apply list_elem_of_filter in Hy as [_ Hy].
  by apply list_elem_of_fmap_2.
Qed.

Lemma new_graph_wf : graph_wf new_TaskGraph.
Proof. intros a b. unfold edge, set_at. cbn. by rewrite !lookup_empty. Qed.

Lemma apply_graph_op_wf o g : graph_wf g → graph_wf (apply_graph_op o g).
Proof.
  intros Hwf a b. destruct o; cbn; rewrite ?add_edge_spec, ?erase_edge_spec, (Hwf a b); naive_solver.
Qed.

(** The dependency edges after [removeTask]: the task's own edges and the edges
    into it are gone. *)
Lemma removeTask_dependencies `{!IterOrder Z} t g a b :
  edge (g_dependencies_ (removeTask t g)) a b ↔ edge (g_dependencies_ g) a b ∧ a ≠ t ∧ b ≠ t.
Proof.
  assert (Hbase : edge ((λ deps, deps ∖ {[t]}) <$> delete t (g_dependencies_ g)) a b ↔
    edge (g_dependencies_ g) a b ∧ a ≠ t ∧ b ≠ t).
  { unfold edge. rewrite set_at_fmap, set_at_delete by set_solver. case_decide; set_solver. }
  unfold removeTask. destruct (g_dependents_ g !! t) as [s|]; cbn; [|done].
  rewrite erase_in_each_spec, Hbase. naive_solver.
Qed.

(** *** Subgraph extraction *)

Lemma edge_all_ids m a b : edge m a b → b ∈ all_ids m.
Proof.
  unfold edge, set_at, all_ids. destruct (m !! a) as [s|] eqn:E; cbn; [|set_solver].
  intros Hb. apply elem_of_union_r, elem_of_union_list. exists s. split; [|done].
  apply list_elem_of_fmap. exists (a, s). split; [done|]. by apply elem_of_map_to_list.
Qed.

Section subgraph.
Context `{Iter : !IterOrder Z} (deps : edges).

(** The locals of the lambda agree: the subgraph has exactly the visited ids,
    each with its dependency set. *)
Definition build_ok (st : build_state) : Prop :=
  ∀ x, st.1 !! x = if decide (x ∈ st.2) then Some (set_at deps x) else None.

Lemma build_ok_lookup sub vis x :
  build_ok (sub, vis) → sub !! x = if decide (x ∈ vis) then Some (set_at deps x) else None.
Proof. intros Hok. apply (Hok x). Qed.

(** What one call, or a loop of calls on [ids], adds: the ids themselves, only
    ids they reach, and every dependency of an id it added. *)
Record build_post (ids : list Z) (vis vis' : gset Z) : Prop := {
  post_grows : vis ⊆ vis';
  post_ids x : x ∈ ids → x ∈ vis';
  post_reach x : x ∈ vis' → x ∈ vis ∨ ∃ i, i ∈ ids ∧ rtc (edge deps) i x;
  post_closed x y : x ∈ vis' → x ∉ vis → edge deps x y → y ∈ vis'
}.

Lemma build_each_spec (U : gset Z) n build :
  (∀ id st, id ∈ U → (size (U ∖ st.2) ≤ n)%nat → build_ok st →
    ∃ st', build id st = Ret st' ∧ build_ok st' ∧ build_post [id] st.2 st'.2) →
  ∀ ids st, (∀ i, i ∈ ids → i ∈ U) → (size (U ∖ st.2) ≤ n)%nat → build_ok st →
    ∃ st', build_each build ids st = Ret st' ∧ build_ok st' ∧ build_post ids st.2 st'.2.
Proof.
  intros Hbuild ids. induction ids as [|i ids IH]; intros st Hids Hsize Hok; cbn.
  { exists st. split; [done|]. split; [done|]. split; set_solver. }
  destruct (Hbuild i st) as (st1 & -> & Hok1 & [Hg1 Hi1 Hr1 Hc1]); [set_solver|done..|]. cbn.
  destruct (IH st1) as (st2 & -> & Hok2 & [Hg2 Hi2 Hr2 Hc2]); [set_solver| |done|].
  { etrans; [|exact Hsize]. apply subseteq_size. set_solver. }
  exists st2. split; [done|]. split; [done|]. split.
  - set_solver.
  - set_solver.
  - intros x [Hx|(j & Hj & Hjx)]%Hr2; [|right; exists j; set_solver].
    apply Hr1 in Hx as [Hx|(j & Hj & Hjx)]; [by left|]. right. exists j. set_solver.
  - intros x y Hx Hxst Hxy. destruct (decide (x ∈ st1.2)); [|by apply (Hc2 x)].
    apply Hg2. by apply (Hc1 x).
Qed.

Lemma buildSubgraph_spec (U : gset Z) fuel id st :
  (∀ a b, edge deps a b → b ∈ U) → id ∈ U → (size (U ∖ st.2) ≤ fuel)%nat → build_ok st →
  ∃ st', buildSubgraph fuel deps id st = Ret st' ∧ build_ok st' ∧ build_post [id] st.2 st'.2.
Proof.
  intros HU. revert id st. induction fuel as [|fuel IH]; intros id [sub vis] Hid Hsize Hok; cbn in *.
  - destruct (decide (id ∈ vis)) as [Hv|Hv].
    + eexists. split; [done|]. split; [done|]. split; set_solver.
    + exfalso. assert (Hne : id ∈ U ∖ vis) by set_solver.
      assert (size (U ∖ vis) ≠ 0)%nat; [|lia]. apply size_non_empty_iff. set_solver.
  - destruct (decide (id ∈ vis)) as [Hv|Hv].
    { eexists. split; [done|]. split; [done|]. split; set_solver. }
    assert (Hok1 : build_ok (<[id := set_at deps id]> sub, {[id]} ∪ vis)).
    { intros x. cbn. rewrite lookup_insert. destruct (decide (id = x)) as [<-|Hne].
      - by rewrite decide_True by set_solver.
      - rewrite (build_ok_lookup _ _ x Hok). destruct (decide (x ∈ vis)).
        + by rewrite decide_True by set_solver.
        + by rewrite decide_False by set_solver. }
    assert (Hsize1 : (size (U ∖ ({[id]} ∪ vis)) ≤ fuel)%nat).
    { assert (Hlt : (size (U ∖ ({[id]} ∪ vis)) < size (U ∖ vis))%nat); [|lia].
      apply subset_size. set_solver. }
    destruct (deps !! id) as [s|] eqn:Hs.
    + assert (Hat : set_at deps id = s) by (unfold set_at; by rewrite Hs). rewrite Hat in Hok1.
      destruct (build_each_spec U fuel (buildSubgraph fuel deps) IH (iter s)
        (<[id := s]> sub, {[id]} ∪ vis)) as (st' & -> & Hok' & [Hg Hi Hr Hc]).
      * intros i Hi%elem_of_iter. apply (HU id). unfold edge. by rewrite Hat.
      * done.
      * done.
      * exists st'. split; [done|]. split; [done|]. cbn in *. split.
        -- set_solver.
        -- set_solver.
        -- intros x [Hx|(j & Hj%elem_of_iter & Hjx)]%Hr.
           ++ apply elem_of_union in Hx as [->%elem_of_singleton|Hx]; [|by left].
              right. exists id. split; [set_solver | done].
           ++ right. exists id. split; [set_solver|]. eapply rtc_l; [|done].
              unfold edge. by rewrite Hat.
        -- intros x y Hx Hxv Hxy. destruct (decide (x = id)) as [->|Hne]; [|apply (Hc x); set_solver].
           apply Hi, elem_of_iter. unfold edge in Hxy. by rewrite Hat in Hxy.
    + assert (Hat : set_at deps id = ∅) by (unfold set_at; by rewrite Hs). rewrite Hat in Hok1.
      eexists. split; [done|]. split; [done|]. cbn. split; [set_solver|set_solver| |].
      * intros x Hx. destruct (decide (x = id)) as [->|Hne]; [right; exists id|left]; set_solver.
      * intros x y Hx Hxv Hxy. assert (x = id) as -> by set_solver.
        unfold edge in Hxy. rewrite Hat in Hxy. set_solver.
Qed.
End subgraph.

Lemma getSubgraph_spec `{Iter : !IterOrder Z} root g :
  ∃ sub, getSubgraph root g = Ret sub ∧
    (∀ x, x ∈ dom sub ↔ rtc (edge (g_dependencies_ g)) root x) ∧
    (∀ x, x ∈ dom sub → sub !! x = Some (set_at (g_dependencies_ g) x)).
Proof.
  set (deps := g_dependencies_ g).
  destruct (buildSubgraph_spec deps ({[root]} ∪ all_ids deps) (S (size (all_ids deps))) root (∅, ∅))
    as ([sub vis] & Hrun & Hok & [_ Hi Hr Hc]).
  - intros a b Hab. apply edge_all_ids in Hab. set_solver.
  - set_solver.
  - cbn. rewrite difference_empty_L, size_union_alt, size_singleton.
    pose proof (subseteq_size (all_ids deps ∖ {[root]}) (all_ids deps)). set_solver by lia.
  - intros x. cbn. by rewrite decide_False by set_solver.
  - exists sub. unfold getSubgraph. fold deps. rewrite Hrun. cbn in *. split; [done|].
    assert (Hvis : ∀ x, x ∈ dom sub ↔ x ∈ vis).
    { intros x. rewrite elem_of_dom, (build_ok_lookup _ _ _ x Hok). destruct (decide (x ∈ vis)); split; intros Hx; try done; eauto. }
    split; [intros x; rewrite Hvis; split|].
    + intros [Hx|(i & Hi' & Hix)]%Hr; [set_solver|]. by apply list_elem_of_singleton in Hi' as ->.
    + intros Hx. assert (Hroot : root ∈ vis) by (apply Hi; set_solver). revert Hroot. clear Hrun Hi Hr.
      induction Hx as [|a b c Hab _ IH]; intros Ha; [done|]. apply IH. apply (Hc a); set_solver.
    + intros x Hx%Hvis. by rewrite (build_ok_lookup _ _ _ x Hok), decide_True.
Qed.

(** ** Properties *)

(** C39: Starting from an empty graph, any sequence of [addDependency] and
    [removeDependency] calls keeps the two maps consistent: a task's dependency
    set lists exactly the tasks whose dependents set lists it. *)
Theorem graph_ops_consistent os : graph_wf (foldr apply_graph_op new_TaskGraph os).
Proof.
  induction os as [|o os IH]; cbn; [exact new_graph_wf|].
  by apply apply_graph_op_wf.
Qed.

(** [addDependency] adds exactly the requested edge, [removeDependency] removes
    exactly it, and [removeTask] removes exactly the edges from and into the
    task, as [getDependencies] and [hasDependencies] report them. *)
Theorem graph_ops_effect `{Iter : !IterOrder Z} g a b t :
  (∀ x, getDependencies x (graph_addDependency a b g)
      = if decide (x = a) then {[b]} ∪ getDependencies x g else getDependencies x g) ∧
  (∀ x, getDependencies x (graph_removeDependency a b g)
      = if decide (x = a) then getDependencies x g ∖ {[b]} else getDependencies x g) ∧
  (∀ x, getDependencies x (removeTask t g)
      = if decide (x = t) then ∅ else getDependencies x g ∖ {[t]}) ∧
  (∀ x, hasDependencies x g = true ↔ getDependencies x g ≠ ∅).
Proof.
  assert (Hget : ∀ g x, getDependencies x g = set_at (g_dependencies_ g) x).
  { intros g' x. unfold getDependencies, set_at. by destruct (_ !! x). }
  split_and!; intros x; rewrite ?Hget.
  - apply set_eq. intros y. pose proof (add_edge_spec (g_dependencies_ g) a b x y) as Hs.
    unfold edge in Hs. cbn. rewrite Hs. case_decide; set_solver.
  - apply set_eq. intros y. pose proof (erase_edge_spec (g_dependencies_ g) a b x y) as Hs.
    unfold edge in Hs. cbn. rewrite Hs. case_decide; set_solver.
  - apply set_eq. intros y. pose proof (removeTask_dependencies t g x y) as Hs.
    unfold edge in Hs. rewrite Hs. case_decide; set_solver.
  - unfold hasDependencies, set_at. destruct (_ !! x) as [s|]; cbn; [|done].
    by rewrite negb_true_iff, bool_decide_eq_false.
Qed.

(** [removeTask] does not clear the removed task out of the dependents sets of the
    tasks it depended on: the graph is no longer consistent, and [hasDependents]
    still reports the removed task. *)
Theorem removeTask_leaves_dependents :
  ∃ g, graph_wf g ∧ (∀ I : IterOrder Z, ¬ graph_wf (removeTask 1 g)) ∧
    (∀ I : IterOrder Z, hasDependents 2 (removeTask 1 g) = true) ∧
    (∀ I : IterOrder Z, getDependencies 1 (removeTask 1 g) = ∅).
Proof.
  exists (graph_addDependency 1 2 new_TaskGraph). split; [|split_and!; intros I].
  - apply (apply_graph_op_wf (GAdd 1 2)), new_graph_wf.
  - intros Hwf. specialize (Hwf 1 2).
    assert (Hback : edge (g_dependents_ (removeTask 1 (graph_addDependency 1 2 new_TaskGraph))) 2 1).
    { cbn. unfold edge, set_at. cbn. set_solver. }
    apply Hwf in Hback. apply removeTask_dependencies in Hback. naive_solver.
  - reflexivity.
  - reflexivity.
Qed.

(** [getReadyTasks] returns, once each, exactly the tasks that have an entry in
    the graph and no dependency left, whatever the iteration order. *)
Theorem getReadyTasks_spec `{Iter : !IterOrder Z} g :
  NoDup (getReadyTasks g) ∧
  ∀ t, t ∈ getReadyTasks g ↔ t ∈ dom (g_dependencies_ g) ∧ getDependencies t g = ∅.
Proof.
  unfold getReadyTasks. split.
  - pose proof (NoDup_iter (dom (g_dependencies_ g))) as Hnd. rewrite <-map_iter_fst in Hnd.
    by apply NoDup_fst_filter.
  - intros t. rewrite list_elem_of_fmap, elem_of_dom. unfold getDependencies. split.
    + intros ([k s] & -> & Hin). apply list_elem_of_filter in Hin as [Hs Hin]. cbn in *.
      apply elem_of_map_iter in Hin. rewrite Hin. eauto.
    + intros [[s Hs] Hempty]. rewrite Hs in Hempty. exists (t, s). split; [done|].
      apply list_elem_of_filter. split; [done|]. by apply elem_of_map_iter.
Qed.

(** [getSubgraph] always returns (the recursion ends on cyclic graphs too), with
    exactly the tasks reachable from the root along dependency edges, each with
    its full dependency set. *)
Theorem getSubgraph_reachable `{Iter : !IterOrder Z} root g :
  ∃ sub, getSubgraph root g = Ret sub ∧
    (∀ x, x ∈ dom sub ↔ rtc (edge (g_dependencies_ g)) root x) ∧
    (∀ x, x ∈ dom sub → sub !! x = Some (getDependencies x g)).
Proof.
  destruct (getSubgraph_spec root g) as (sub & Hrun & Hdom & Hval). exists sub.
  split_and!; [done..|]. intros x Hx. rewrite (Hval x Hx). unfold getDependencies, set_at.
  by destruct (_ !! x).
Qed.
