(* ===== verification/GraphAlgo.v ===== *)
(** * Algorithms on dependency graphs

    Models the free functions of src/utils/DataStructures.cpp that compute on a
    graph: [hasCycle], [findCriticalPath] and [calculateTaskLevels], on the same
    maps of sets as TaskGraph.v.  The recursive lambdas take fuel; the theorems show how
    much is enough.  [operator[]] on a missing key of a local map reads the
    value-initialised entry, which the lookups with default below return. *)

From S2P Require Import Prelude Task TaskGraph.

(** ** hasCycle *)

Inductive State : Type := UNVISITED | IN_PROGRESS | VISITED.

Global Instance State_eq_dec : EqDecision State.
Proof. solve_decision. Defined.

Abbreviation states := (gmap Z State) (only parsing).

(** [states[n]]. *)
Definition state_of (st : states) (n : Z) : State := default UNVISITED (st !! n).

(** The loop over the neighbours in [dfs]. *)
Fixpoint dfs_each (dfs : Z → states → outcome (bool * states)) (neighbors : list Z) (st : states)
    : outcome (bool * states) :=
  match neighbors with
  | [] => Ret (false, st)
  | neighbor :: neighbors =>
      if decide (state_of st neighbor = IN_PROGRESS) then Ret (true, st)
      else if decide (state_of st neighbor = UNVISITED) then
        '(found, st) ← dfs neighbor st;
        if found : bool then Ret (true, st) else dfs_each dfs neighbors st
      else dfs_each dfs neighbors st
  end.

Fixpoint dfs `{!IterOrder Z} (fuel : nat) (graph : edges) (nodeId : Z) (st : states)
    : outcome (bool * states) :=
  match fuel with
  | O => Diverge
  | S fuel =>
      let st := <[nodeId := IN_PROGRESS]> st in
      match graph !! nodeId with
      | Some deps =>
          '(found, st) ← dfs_each (dfs fuel graph) (iter deps) st;
          if found : bool then Ret (true, st) else Ret (false, <[nodeId := VISITED]> st)
      | None => Ret (false, <[nodeId := VISITED]> st)
      end
  end.

(** The loop over the graph's keys. *)
Fixpoint dfs_roots (dfs : Z → states → outcome (bool * states)) (ids : list Z) (st : states)
    : outcome bool :=
  match ids with
  | [] => Ret false
  | id :: ids =>
      if decide (state_of st id = UNVISITED) then
        '(found, st) ← dfs id st;
        if found : bool then Ret true else dfs_roots dfs ids st
      else dfs_roots dfs ids st
  end.

Definition hasCycle `{!IterOrder Z} (graph : edges) : outcome bool :=
  let st : states := gset_to_gmap UNVISITED (dom graph) in
  dfs_roots (dfs (S (size (all_ids graph))) graph) (iter (dom graph)) st.

(** ** findCriticalPath *)

Abbreviation counts := (gmap Z Z) (only parsing).

(** [m[k]] for a map to [int]. *)
Definition count_at (m : counts) (k : Z) : Z := default 0 (m !! k).

Fixpoint incr_each (ids : list Z) (inDegree : counts) : counts :=
  match ids with
  | [] => inDegree
  | id :: ids => incr_each ids (<[id := count_at inDegree id + 1]> inDegree)
  end.

Fixpoint count_degrees `{!IterOrder Z} (g : list (Z * gset Z)) (inDegree : counts) : counts :=
  match g with
  | [] => inDegree
  | (taskId, deps) :: g =>
      let inDegree := match inDegree !! taskId with
                      | None => <[taskId := 0]> inDegree
                      | Some _ => inDegree
                      end in
      count_degrees g (incr_each (iter deps) inDegree)
  end.

(** The neighbours of a removed task lose one incoming edge; those left with
    none are pushed.  The vector [queue] is held back first. *)
Fixpoint release_each (neighbors : list Z) (inDegree : counts) (queue : list Z)
    : counts * list Z :=
  match neighbors with
  | [] => (inDegree, queue)
  | n :: neighbors =>
      let d := count_at inDegree n - 1 in
      release_each neighbors (<[n := d]> inDegree) (if decide (d = 0) then n :: queue else queue)
  end.

Fixpoint kahn `{!IterOrder Z} (fuel : nat) (graph : edges) (inDegree : counts) (queue : list Z)
    (topologicalOrder : list Z) : outcome (list Z) :=
  match queue with
  | [] => Ret topologicalOrder
  | current :: queue =>
      match fuel with
      | O => Diverge
      | S fuel =>
          let topologicalOrder := topologicalOrder ++ [current] in
          match graph !! current with
          | Some deps =>
              let '(inDegree, queue) := release_each (iter deps) inDegree queue in
              kahn fuel graph inDegree queue topologicalOrder
          | None => kahn fuel graph inDegree queue topologicalOrder
          end
      end
  end.

(** Relaxation of the edges out of one task. *)
Fixpoint relax_each (taskId : Z) (neighbors : list Z) (distance : counts) (parent : gmap Z Z)
    : counts * gmap Z Z :=
  match neighbors with
  | [] => (distance, parent)
  | n :: neighbors =>
      if decide (count_at distance n < count_at distance taskId + 1)
      then relax_each taskId neighbors (<[n := count_at distance taskId + 1]> distance)
             (<[n := taskId]> parent)
      else relax_each taskId neighbors distance parent
  end.

Fixpoint relax_all `{!IterOrder Z} (graph : edges) (order : list Z) (distance : counts)
    (parent : gmap Z Z) : counts * gmap Z Z :=
  match order with
  | [] => (distance, parent)
  | taskId :: order =>
      match graph !! taskId with
      | Some deps =>
          let '(distance, parent) := relax_each taskId (iter deps) distance parent in
          relax_all graph order distance parent
      | None => relax_all graph order distance parent
      end
  end.

(** The task with the greatest distance, the first one met winning ties. *)
Fixpoint pick_end (distance : counts) (ids : list Z) (endNode : Z) : Z :=
  match ids with
  | [] => endNode
  | id :: ids =>
      pick_end distance ids (if decide (count_at distance endNode < count_at distance id)
                             then id else endNode)
  end.

(** [while (parent.find(current) != parent.end())]; the vector in push order. *)
Fixpoint follow (fuel : nat) (parent : gmap Z Z) (current : Z) (path : list Z) : outcome (list Z) :=
  match parent !! current with
  | None => Ret (path ++ [current])
  | Some p =>
      match fuel with
      | O => Diverge
      | S fuel => follow fuel parent p (path ++ [current])
      end
  end.

Definition findCriticalPath `{!IterOrder Z} (graph : edges) : outcome (list Z) :=
  cyclic ← hasCycle graph;
  if cyclic : bool then Ret [] else
  let inDegree := count_degrees (map_iter graph) ∅ in
  let queue := reverse (filter (λ id, count_at inDegree id = 0) (iter (dom inDegree))) in
  topologicalOrder ← kahn (size (all_ids graph)) graph inDegree queue [];
  if decide (length topologicalOrder ≠ size graph) then Ret [] else
  let topologicalOrder := reverse topologicalOrder in
  let distance := gset_to_gmap 0 (dom graph) in
  let '(distance, parent) := relax_all graph topologicalOrder distance ∅ in
  first ← deref (head topologicalOrder);
  let endNode := pick_end distance (iter (dom distance)) first in
  criticalPath ← follow (size parent) parent endNode [];
  Ret (reverse criticalPath).

(** ** calculateTaskLevels *)

(** The loop of [calcLevel] over the dependencies. *)
Fixpoint level_each (calc : Z → counts → outcome (Z * counts)) (ids : list Z) (maxLevel : Z)
    (levels : counts) : outcome (Z * counts) :=
  match ids with
  | [] => Ret (maxLevel, levels)
  | id :: ids =>
      '(l, levels) ← calc id levels;
      level_each calc ids (Z.max maxLevel l) levels
  end.

Fixpoint calcLevel `{!IterOrder Z} (fuel : nat) (graph : edges) (id : Z) (levels : counts)
    : outcome (Z * counts) :=
  match levels !! id with
  | Some l => Ret (l, levels)
  | None =>
      match graph !! id with
      | None => Ret (0, <[id := 0]> levels)
      | Some deps =>
          if decide (deps = ∅) then Ret (0, <[id := 0]> levels)
          else match fuel with
               | O => Diverge
               | S fuel =>
                   '(maxLevel, levels) ← level_each (calcLevel fuel graph) (iter deps) (-1) levels;
                   Ret (maxLevel + 1, <[id := maxLevel + 1]> levels)
               end
      end
  end.

Fixpoint level_roots (calc : Z → counts → outcome (Z * counts)) (ids : list Z) (levels : counts)
    : outcome counts :=
  match ids with
  | [] => Ret levels
  | id :: ids => '(_, levels) ← calc id levels; level_roots calc ids levels
  end.

Definition calculateTaskLevels `{!IterOrder Z} (fuel : nat) (graph : edges) : outcome counts :=
  level_roots (calcLevel fuel graph) (iter (dom graph)) ∅.

(** ** Specification vocabulary *)

Definition cyclic (g : edges) : Prop := ∃ x, tc (edge g) x x.

(** Every id the graph mentions is a key, as in the graphs [getSubgraph] builds. *)
Definition closed (g : edges) : Prop := ∀ a b, edge g a b → b ∈ dom g.

(** Consecutive ids of a path are joined by dependency edges. *)
Fixpoint is_path (g : edges) (p : list Z) : Prop :=
  match p with
  | a :: (b :: _) as p' => edge g a b ∧ is_path g p'
  | _ => True
  end.

(** ** hasCycle: correctness *)

Lemma edge_dom g a b : edge g a b → a ∈ dom g.
Proof.
  unfold edge, set_at. rewrite elem_of_dom. destruct (g !! a); cbn; [eauto|set_solver].
Qed.

Lemma state_of_insert st n s x :
  state_of (<[n := s]> st) x = if decide (n = x) then s else state_of st x.
Proof. unfold state_of. rewrite lookup_insert. by case_decide. Qed.

Section cycle.
Context `{Iter : !IterOrder Z} (g : edges).

(** Finished nodes: their dependencies are finished, and none is on a cycle. *)
Record dfs_ok (st : states) : Prop := {
  ok_closed x y : state_of st x = VISITED → edge g x y → state_of st y = VISITED;
  ok_acyclic x : state_of st x = VISITED → ¬ tc (edge g) x x
}.

(** What a call that found no cycle may change. *)
Record dfs_post (st st' : states) : Prop := {
  post_grey x : state_of st' x = IN_PROGRESS ↔ state_of st x = IN_PROGRESS;
  post_black x : state_of st x = VISITED → state_of st' x = VISITED
}.

Definition white (U : gset Z) (st : states) : gset Z := filter (λ x, state_of st x = UNVISITED) U.

(** The contract of [dfs] at a given amount of fuel. *)
Definition dfs_spec (U : gset Z) (n : nat) (f : Z → states → outcome (bool * states)) : Prop :=
  ∀ id st, id ∈ U → state_of st id = UNVISITED → (size (white U st) ≤ n)%nat → dfs_ok st →
    (∀ x, state_of st x = IN_PROGRESS → rtc (edge g) x id) →
    ∃ found st', f id st = Ret (found, st') ∧
      if found : bool then cyclic g
      else dfs_ok st' ∧ dfs_post st st' ∧ state_of st' id = VISITED.

Lemma dfs_post_refl st : dfs_post st st.
Proof. done. Qed.

Lemma dfs_post_trans st1 st2 st3 : dfs_post st1 st2 → dfs_post st2 st3 → dfs_post st1 st3.
Proof. intros [Hg1 Hb1] [Hg2 Hb2]. split; [|by auto]. intros x. by rewrite Hg2. Qed.

Lemma white_post U st st' : dfs_post st st' → (size (white U st') ≤ size (white U st))%nat.
Proof.
  intros [Hg Hb]. apply subseteq_size. unfold white. intros x. rewrite !elem_of_filter.
  intros [Hx HU]. split; [|done]. destruct (state_of st x) eqn:E; [done|..].
  - by rewrite (proj2 (Hg x) E) in Hx.
  - by rewrite (Hb x E) in Hx.
Qed.

Lemma dfs_each_spec U n f node ids st :
  dfs_spec U n f → (∀ i, i ∈ ids → i ∈ U ∧ edge g node i) → (size (white U st) ≤ n)%nat → dfs_ok st →
  (∀ x, state_of st x = IN_PROGRESS → rtc (edge g) x node) →
  ∃ found st', dfs_each f ids st = Ret (found, st') ∧
    if found : bool then cyclic g
    else dfs_ok st' ∧ dfs_post st st' ∧ ∀ i, i ∈ ids → state_of st' i = VISITED.
Proof.
  intros Hf. revert st. induction ids as [|i ids IH]; intros st Hids Hsize Hok Hgrey; cbn.
  { exists false, st. split_and!; [done..|set_solver]. }
  destruct (Hids i) as [HiU Hi]; [set_solver|].
  destruct (decide (state_of st i = IN_PROGRESS)) as [Hgi|Hgi].
  { exists true, st. split; [done|]. exists i. eapply tc_rtc_l; [by apply Hgrey|]. by apply tc_once. }
  destruct (decide (state_of st i = UNVISITED)) as [Hwi|Hwi].
  - destruct (Hf i st) as (found & st1 & -> & Hpost1); [done..| |].
    { intros x Hx. eapply rtc_r; [by apply Hgrey|done]. }
    cbn. destruct found; [by exists true, st1|]. destruct Hpost1 as (Hok1 & Hpost1 & Hi1).
    destruct (IH st1) as (found & st2 & -> & Hpost2); [set_solver| |done| |].
    { etrans; [by apply white_post|done]. }
    { intros x Hx. apply Hgrey. by apply Hpost1. }
    exists found, st2. split; [done|]. destruct found; [done|]. destruct Hpost2 as (Hok2 & Hpost2 & Hall).
    split; [done|]. split; [by eapply dfs_post_trans|].
    intros j [->|Hj]%elem_of_cons; [by apply Hpost2|auto].
  - destruct (IH st) as (found & st2 & -> & Hpost2); [set_solver|done..|].
    exists found, st2. split; [done|]. destruct found; [done|]. destruct Hpost2 as (Hok2 & Hpost2 & Hall).
    split_and!; [done..|]. intros j [->|Hj]%elem_of_cons; [|auto]. apply Hpost2.
    by destruct (state_of st i).
Qed.

(** A node whose dependencies are all finished is on no cycle. *)
Lemma finished_no_cycle st node :
  dfs_ok st → state_of st node ≠ VISITED → (∀ y, edge g node y → state_of st y = VISITED) →
  ¬ tc (edge g) node node.
Proof.
  intros [Hcl _] Hn Hall Hcyc. apply Hn.
  assert (Hreach : ∀ x y, tc (edge g) x y → state_of st x = VISITED → state_of st y = VISITED).
  { induction 1; eauto. }
  inversion Hcyc as [x y Hxy|x y z Hxy Hyz]; subst; [auto|]. eapply Hreach; [done|auto].
Qed.

Lemma dfs_ok_finish st node :
  dfs_ok st → state_of st node = IN_PROGRESS → (∀ y, edge g node y → state_of st y = VISITED) →
  dfs_ok (<[node := VISITED]> st).
Proof.
  intros Hok Hn Hall. assert (Hcyc : ¬ tc (edge g) node node).
  { eapply finished_no_cycle; [done| |done]. by rewrite Hn. }
  destruct Hok as [Hcl Hac]. split.
  - intros x y. rewrite !state_of_insert. case_decide; [subst|]; intros Hx Hxy; case_decide; eauto.
  - intros x. rewrite state_of_insert. case_decide; [by subst|auto].
Qed.

Lemma dfs_ok_start st node :
  dfs_ok st → state_of st node = UNVISITED → dfs_ok (<[node := IN_PROGRESS]> st).
Proof.
  intros [Hcl Hac] Hn. split.
  - intros x y. rewrite !state_of_insert. case_decide; [done|]. intros Hx Hxy.
    case_decide; [subst|by eauto]. by rewrite (Hcl _ _ Hx Hxy) in Hn.
  - intros x. rewrite state_of_insert. case_decide; [done|auto].
Qed.

Lemma dfs_correct U fuel :
  (∀ a b, edge g a b → b ∈ U) → dfs_spec U fuel (dfs fuel g).
Proof.
  intros HU. induction fuel as [|fuel IH]; intros id st HidU Hid Hsize Hok Hgrey; cbn.
  { assert (size (white U st) ≠ 0)%nat; [|lia]. apply size_non_empty_iff.
    assert (id ∈ white U st) by (apply elem_of_filter; done). set_solver. }
  set (st0 := <[id := IN_PROGRESS]> st).
  assert (Hst0 : ∀ x, state_of st0 x = if decide (id = x) then IN_PROGRESS else state_of st x).
  { intros x. apply state_of_insert. }
  assert (Hok0 : dfs_ok st0) by (by apply dfs_ok_start).
  assert (Hsize0 : (size (white U st0) ≤ fuel)%nat).
  { assert (Hlt : (size (white U st0) < size (white U st))%nat); [|lia]. apply subset_size.
    split.
    - intros x. unfold white. rewrite !elem_of_filter, Hst0. case_decide; naive_solver.
    - intros Hsub. assert (Hin : id ∈ white U st0) by (apply Hsub, elem_of_filter; done).
      apply elem_of_filter in Hin as [Hin _]. by rewrite Hst0, decide_True in Hin. }
  assert (Hfinish : ∀ st', dfs_ok st' → dfs_post st0 st' →
    (∀ y, edge g id y → state_of st' y = VISITED) →
    dfs_ok (<[id := VISITED]> st') ∧ dfs_post st (<[id := VISITED]> st') ∧
    state_of (<[id := VISITED]> st') id = VISITED).
  { intros st' Hok' [Hg Hb] Hall.
    assert (Hid' : state_of st' id = IN_PROGRESS) by (apply Hg; by rewrite Hst0, decide_True).
    split; [by apply dfs_ok_finish|]. split; [|by rewrite state_of_insert, decide_True]. split.
    - intros x. rewrite state_of_insert. case_decide; [subst; by rewrite Hid|].
      by rewrite Hg, Hst0, decide_False.
    - intros x Hx. rewrite state_of_insert. case_decide; [done|]. apply Hb. by rewrite Hst0, decide_False. }
  destruct (g !! id) as [deps|] eqn:Hdeps.
  - assert (Hedge : ∀ y, edge g id y ↔ y ∈ iter deps).
    { intros y. rewrite elem_of_iter. unfold edge, set_at. by rewrite Hdeps. }
    destruct (dfs_each_spec U fuel (dfs fuel g) id (iter deps) st0) as (found & st' & -> & Hpost);
      [done| |done|done| |].
    { intros i Hi%Hedge. eauto. }
    { intros x. rewrite Hst0. case_decide; [by subst|]. auto. }
    cbn. destruct found; [by eauto|]. destruct Hpost as (Hok' & Hpost' & Hall).
    do 2 eexists. split; [done|]. cbn. apply Hfinish; [done..|]. intros y Hy%Hedge. auto.
  - do 2 eexists. split; [done|]. cbn. apply Hfinish; [done|apply dfs_post_refl|].
    intros y. unfold edge, set_at. rewrite Hdeps. set_solver.
Qed.

Lemma dfs_roots_spec U n f ids st :
  dfs_spec U n f → (∀ i, i ∈ ids → i ∈ U) → (size (white U st) ≤ n)%nat → dfs_ok st →
  (∀ x, state_of st x ≠ IN_PROGRESS) →
  ∃ found, dfs_roots f ids st = Ret found ∧
    if found : bool then cyclic g
    else ∃ st', dfs_ok st' ∧ dfs_post st st' ∧ ∀ i, i ∈ ids → state_of st' i = VISITED.
Proof.
  intros Hf. revert st. induction ids as [|i ids IH]; intros st Hids Hsize Hok Hgrey; cbn.
  { exists false. split; [done|]. exists st. split_and!; [done..|set_solver]. }
  destruct (decide (state_of st i = UNVISITED)) as [Hwi|Hwi].
  - destruct (Hf i st) as (found & st1 & -> & Hpost1); [set_solver|done..| |].
    { intros x Hx. by destruct (Hgrey x). }
    cbn. destruct found; [by exists true|]. destruct Hpost1 as (Hok1 & Hpost1 & Hi1).
    destruct (IH st1) as (found & -> & Hpost2); [set_solver| |done| |].
    { etrans; [by apply white_post|done]. }
    { intros x Hx%Hpost1. by destruct (Hgrey x). }
    exists found. split; [done|]. destruct found; [done|].
    destruct Hpost2 as (st2 & Hok2 & Hpost2 & Hall). exists st2.
    split; [done|]. split; [by eapply dfs_post_trans|].
    intros j [->|Hj]%elem_of_cons; [by apply Hpost2|auto].
  - destruct (IH st) as (found & -> & Hpost2); [set_solver|done..|].
    exists found. split; [done|]. destruct found; [done|].
    destruct Hpost2 as (st2 & Hok2 & Hpost2 & Hall). exists st2.
    split_and!; [done..|]. intros j [->|Hj]%elem_of_cons; [|auto]. apply Hpost2.
    specialize (Hgrey i). by destruct (state_of st i).
Qed.

Lemma hasCycle_spec : ∃ b, hasCycle g = Ret b ∧ (b = true ↔ cyclic g).
Proof.
  unfold hasCycle. set (st0 := gset_to_gmap UNVISITED (dom g)).
  assert (Hwhite : ∀ x, state_of st0 x = UNVISITED).
  { intros x. unfold state_of, st0. rewrite lookup_gset_to_gmap. unfold guard. by case_match. }
  destruct (dfs_roots_spec (all_ids g) (S (size (all_ids g))) (dfs (S (size (all_ids g))) g)
    (iter (dom g)) st0) as (found & Hrun & Hpost).
  - apply dfs_correct. apply edge_all_ids.
  - intros i Hi%elem_of_iter. unfold all_ids. set_solver.
  - unfold white. transitivity (size (all_ids g)); [|lia]. apply subseteq_size. intros x.
    rewrite elem_of_filter. naive_solver.
  - split; intros x; rewrite Hwhite; done.
  - intros x. by rewrite Hwhite.
  - exists found. split; [done|]. destruct found; [done|]. split; [done|]. intros [x Hx].
    destruct Hpost as (st' & [_ Hac] & _ & Hall). exfalso. apply (Hac x); [|done].
    apply Hall, elem_of_iter. inversion Hx; subst; by eapply edge_dom.
Qed.
End cycle.

(** ** findCriticalPath: correctness *)

(** In a finite set where everyone has a predecessor there is a cycle. *)
Lemma no_infinite_descent (R : relation Z) (X : gset Z) x0 :
  (∀ x, ¬ tc R x x) → x0 ∈ X → (∀ x, x ∈ X → ∃ y, y ∈ X ∧ R y x) → False.
Proof.
  intros Hac Hx0 Hpred.
  assert (Hchain : ∀ k, ∃ x l, length (x :: l) = S k ∧ (∀ y, y ∈ x :: l → y ∈ X) ∧
    StronglySorted (tc R) (x :: l)).
  { induction k as [|k (x & l & Hlen & Hin & Hs)].
    - exists x0, []. split_and!; [done|set_solver|by repeat constructor].
    - destruct (Hpred x) as (y & Hy & HR); [set_solver|]. exists y, (x :: l).
      split_and!; [cbn in *; lia|set_solver|]. constructor; [done|].
      apply Forall_forall. intros z [->|Hz]%elem_of_cons; [by apply tc_once|].
      apply StronglySorted_cons in Hs as [Hf _]. rewrite Forall_forall in Hf.
      eapply tc_l; [done|auto]. }
  destruct (Hchain (size X)) as (x & l & Hlen & Hin & Hs).
  assert (Hnd : NoDup (x :: l)).
  { clear -Hac Hs. induction Hs as [|y l' Hs IH Hf]; constructor; [|done].
    intros Hy. rewrite Forall_forall in Hf. by apply (Hac y), Hf. }
  assert (Hle : (size (list_to_set (x :: l) : gset Z) ≤ size X)%nat).
  { apply subseteq_size. intros y. rewrite elem_of_list_to_set. apply Hin. }
  rewrite size_list_to_set, Hlen in Hle by done. lia.
Qed.

Lemma count_at_insert m k v x :
  count_at (<[k := v]> m) x = if decide (k = x) then v else count_at m x.
Proof. unfold count_at. rewrite lookup_insert. by case_decide. Qed.

Lemma incr_each_spec ids m x : NoDup ids →
  count_at (incr_each ids m) x = count_at m x + (if decide (x ∈ ids) then 1 else 0).
Proof.
  revert m. induction ids as [|i ids IH]; intros m Hnd; cbn.
  { by rewrite decide_False, Z.add_0_r by set_solver. }
  apply NoDup_cons in Hnd as [Hi Hnd]. rewrite IH, count_at_insert by done.
  destruct (decide (i = x)) as [<-|Hne].
  - rewrite decide_False by done. rewrite decide_True by set_solver. lia.
  - destruct (decide (x ∈ ids)); [rewrite decide_True by set_solver | rewrite decide_False by set_solver].
    all: done.
Qed.

Lemma incr_each_dom ids m : dom (incr_each ids m) = dom m ∪ list_to_set ids.
Proof.
  revert m. induction ids as [|i ids IH]; intros m; cbn; [set_solver|].
  rewrite IH, dom_insert_L. set_solver.
Qed.

Lemma release_each_spec ids m q : NoDup ids →
  (∀ x, count_at (release_each ids m q).1 x
      = count_at m x - (if decide (x ∈ ids) then 1 else 0)) ∧
  (release_each ids m q).2 = reverse (filter (λ x, count_at m x = 1) ids) ++ q.
Proof.
  revert m q. induction ids as [|i ids IH]; intros m q Hnd; cbn [release_each].
  { split; [|done]. intros x. cbn. by rewrite decide_False, Z.sub_0_r by set_solver. }
  apply NoDup_cons in Hnd as [Hi Hnd].
  set (d := count_at m i - 1). set (q' := if decide (d = 0) then i :: q else q).
  destruct (IH (<[i := d]> m) q' Hnd) as [IHc IHq]. split.
  - intros x. rewrite IHc, count_at_insert. destruct (decide (i = x)) as [<-|Hne].
    + rewrite decide_False by done. rewrite decide_True by set_solver. lia.
    + destruct (decide (x ∈ ids)); [rewrite decide_True by set_solver | rewrite decide_False by set_solver].
      all: done.
  - rewrite IHq, filter_cons.
    assert (Hf : filter (λ x, count_at (<[i := d]> m) x = 1) ids = filter (λ x, count_at m x = 1) ids).
    { clear -Hi. induction ids as [|j ids IH]; [done|]. rewrite !filter_cons, IH by set_solver.
      rewrite count_at_insert, (decide_False (P := i = j)) by set_solver. done. }
    rewrite Hf. unfold q', d. destruct (decide (count_at m i = 1)) as [H1|H1].
    + rewrite decide_True by lia. by rewrite reverse_cons, <-app_assoc.
    + by rewrite decide_False by lia.
Qed.

(** The tasks of [X] that depend on [v]. *)
Definition preds (g : edges) (X : gset Z) (v : Z) : gset Z := filter (λ u, v ∈ set_at g u) X.

Definition npreds (g : edges) (X : gset Z) (v : Z) : Z := Z.of_nat (size (preds g X v)).

Lemma npreds_union g X k v : k ∉ X →
  npreds g ({[k]} ∪ X) v = (if decide (edge g k v) then 1 else 0) + npreds g X v.
Proof.
  intros Hk. unfold npreds, preds, edge. destruct (decide (v ∈ set_at g k)) as [He|He].
  - assert (filter (λ u, v ∈ set_at g u) ({[k]} ∪ X) = {[k]} ∪ filter (λ u, v ∈ set_at g u) X) as ->.
    { apply set_eq. intros x. rewrite elem_of_union, !elem_of_filter. set_solver. }
    rewrite size_union, size_singleton; [lia|]. intros x. rewrite elem_of_filter. set_solver.
  - assert (filter (λ u, v ∈ set_at g u) ({[k]} ∪ X) = filter (λ u, v ∈ set_at g u) X) as ->; [|lia].
    apply set_eq. intros x. rewrite !elem_of_filter. set_solver.
Qed.

Lemma npreds_zero g X v : npreds g X v = 0 ↔ ∀ u, u ∈ X → ¬ edge g u v.
Proof.
  unfold npreds, preds.
  assert (Hz : ∀ Y : gset Z, Z.of_nat (size Y) = 0 ↔ Y = ∅).
  { intros Y. pose proof (size_empty_iff Y) as Hs. rewrite leibniz_equiv_iff in Hs.
    rewrite <-Hs. lia. }
  rewrite Hz. unfold edge. split.
  - intros He u Hu Huv. assert (u ∈ filter (λ u, v ∈ set_at g u) X) by (by apply elem_of_filter).
    set_solver.
  - intros Hall. apply set_eq. intros u. rewrite elem_of_filter. set_solver.
Qed.

Section kahn.
Context `{Iter : !IterOrder Z} (g : edges).

Lemma count_degrees_spec L m v :
  NoDup L.*1 → (∀ k d, (k, d) ∈ L → g !! k = Some d) →
  count_at (count_degrees L m) v = count_at m v + npreds g (list_to_set L.*1) v ∧
  (∀ x, x ∈ dom (count_degrees L m) ↔
    x ∈ dom m ∨ ∃ k d, (k, d) ∈ L ∧ (x = k ∨ x ∈ d)).
Proof.
  revert m. induction L as [|[k d] L IH]; intros m Hnd HL; cbn [count_degrees].
  { split; [|set_solver]. assert (Hn : npreds g (list_to_set ([] : list (Z * gset Z)).*1) v = 0).
    { apply npreds_zero. set_solver. } lia. }
  rewrite fmap_cons in *. apply NoDup_cons in Hnd as [Hk Hnd]. cbn [fst] in *.
  set (m1 := match m !! k with None => <[k := 0]> m | Some _ => m end).
  assert (Hm1 : count_at m1 v = count_at m v).
  { unfold m1. destruct (m !! k) eqn:E; [done|]. rewrite count_at_insert. case_decide; [|done].
    subst. unfold count_at. by rewrite E. }
  assert (Hd1 : dom m1 = {[k]} ∪ dom m).
  { unfold m1. destruct (m !! k) eqn:E; [|by rewrite dom_insert_L].
    assert (k ∈ dom m) by (by eapply elem_of_dom_2). set_solver. }
  assert (Hgk : set_at g k = d) by (unfold set_at; by rewrite (HL k d) by set_solver).
  destruct (IH (incr_each (iter d) m1) Hnd) as [IHc IHd]; [set_solver|]. split.
  - rewrite IHc, incr_each_spec, Hm1 by apply NoDup_iter. cbn. rewrite npreds_union.
    + assert (Hkv : edge g k v ↔ v ∈ iter d) by (unfold edge; by rewrite Hgk, elem_of_iter).
      rewrite (decide_ext (edge g k v) (v ∈ iter d)) by done. lia.
    + by rewrite elem_of_list_to_set.
  - intros x. rewrite IHd, incr_each_dom, Hd1, !elem_of_union, elem_of_singleton, elem_of_list_to_set, elem_of_iter.
    setoid_rewrite elem_of_cons. naive_solver.
Qed.

Context (Hclosed : closed g).

(** The state of the loop: [topo] has been output, [q] is ready, and a count is
    the number of dependents not output yet. *)
Record kahn_inv (m : counts) (q topo : list Z) : Prop := {
  k_nodup : NoDup (topo ++ q);
  k_dom x : x ∈ topo ++ q → x ∈ dom g;
  k_count x : x ∈ dom g → count_at m x = npreds g (dom g ∖ list_to_set topo) x;
  k_ready x : x ∈ dom g → x ∈ topo ++ q ↔ count_at m x = 0
}.

Lemma kahn_init :
  kahn_inv (count_degrees (map_iter g) ∅)
    (reverse (filter (λ id, count_at (count_degrees (map_iter g) ∅) id = 0)
       (iter (dom (count_degrees (map_iter g) ∅))))) [].
Proof.
  set (m := count_degrees (map_iter g) ∅).
  assert (Hfst : NoDup (map_iter g).*1) by (rewrite map_iter_fst; apply NoDup_iter).
  assert (Hin : ∀ k d, (k, d) ∈ map_iter g → g !! k = Some d) by (intros k d; apply elem_of_map_iter).
  assert (Hset : list_to_set (map_iter g).*1 = dom g).
  { rewrite map_iter_fst. apply set_eq. intros x. by rewrite elem_of_list_to_set, elem_of_iter. }
  assert (Hcount : ∀ x, count_at m x = npreds g (dom g) x).
  { intros x. destruct (count_degrees_spec (map_iter g) ∅ x Hfst Hin) as [Hc _].
    unfold m. rewrite Hc, Hset. unfold count_at. rewrite lookup_empty. cbn. lia. }
  assert (Hdom : dom m = dom g).
  { apply set_eq. intros x. destruct (count_degrees_spec (map_iter g) ∅ 0 Hfst Hin) as [_ Hd].
    unfold m. rewrite Hd. split.
    - intros [Hx|(k & d & Hkd%Hin & [->|Hx])]; [set_solver|by eapply elem_of_dom_2|].
      apply (Hclosed k). unfold edge, set_at. by rewrite Hkd.
    - intros [d Hd']%elem_of_dom. right. exists x, d. split; [by apply elem_of_map_iter|by left]. }
  assert (Hq : ∀ x, x ∈ reverse (filter (λ id, count_at m id = 0) (iter (dom m))) ↔
    count_at m x = 0 ∧ x ∈ dom g).
  { intros x. by rewrite elem_of_reverse, list_elem_of_filter, elem_of_iter, Hdom. }
  split; cbn [app].
  - rewrite reverse_Permutation. apply NoDup_filter, NoDup_iter.
  - intros x [_ ?]%Hq. done.
  - intros x _. rewrite Hcount. f_equal. set_solver.
  - intros x Hx. rewrite Hq. naive_solver.
Qed.

Lemma kahn_step m q topo c d :
  g !! c = Some d → kahn_inv m (c :: q) topo →
  kahn_inv (release_each (iter d) m q).1 (release_each (iter d) m q).2 (topo ++ [c]).
Proof.
  intros Hc [Hnd Hdom Hcount Hready].
  destruct (release_each_spec (iter d) m q (NoDup_iter d)) as [Hrc Hrq].
  assert (HcT : c ∉ topo) by (apply NoDup_app in Hnd as (_ & Hd & _); intros ?; set_solver).
  assert (HcD : c ∈ dom g) by (apply Hdom; set_solver).
  assert (Hedge : ∀ x, edge g c x ↔ x ∈ iter d).
  { intros x. rewrite elem_of_iter. unfold edge, set_at. by rewrite Hc. }
  assert (Hcount' : ∀ x, x ∈ dom g → count_at (release_each (iter d) m q).1 x
    = npreds g (dom g ∖ list_to_set (topo ++ [c])) x).
  { intros x Hx. rewrite Hrc, Hcount by done.
    assert (Hsplit : dom g ∖ list_to_set topo = {[c]} ∪ (dom g ∖ list_to_set (topo ++ [c]))).
    { apply set_eq. intros y. destruct (decide (y = c)) as [->|]; set_solver. }
    rewrite Hsplit, npreds_union by set_solver.
    destruct (decide (x ∈ iter d)) as [Hi|Hi]; rewrite <-Hedge in Hi;
      [rewrite decide_True by done | rewrite decide_False by done]; lia. }
  assert (Hnew : ∀ x, x ∈ filter (λ x, count_at m x = 1) (iter d) → x ∈ dom g ∧ x ∉ topo ++ c :: q).
  { intros x [H1 Hx]%list_elem_of_filter. assert (Hxd : x ∈ dom g) by (by apply (Hclosed c), Hedge).
    split; [done|]. rewrite Hready by done. lia. }
  assert (Hmem : ∀ x, x ∈ (topo ++ [c]) ++ (release_each (iter d) m q).2 ↔
    x ∈ topo ++ c :: q ∨ x ∈ filter (λ x, count_at m x = 1) (iter d)).
  { intros x. rewrite Hrq. rewrite !elem_of_app, elem_of_reverse. set_solver. }
  split.
  - rewrite Hrq, <-app_assoc. cbn [app].
    rewrite (Permutation_app_comm (reverse _) q), reverse_Permutation.
    rewrite app_comm_cons, app_assoc. apply NoDup_app. split; [done|]. split.
    + intros x Hx Hx'. by apply Hnew in Hx' as [_ ?].
    + apply NoDup_filter, NoDup_iter.
  - intros x [Hx|[Hx _]%Hnew]%Hmem; auto.
  - done.
  - intros x Hx. rewrite Hmem, (Hready x Hx), list_elem_of_filter, Hrc.
    destruct (decide (x ∈ iter d)) as [Hi|Hi].
    + assert (Hpos : count_at m x ≠ 0).
      { rewrite Hcount, npreds_zero by done. intros Hall. apply (Hall c); [set_solver|by apply Hedge]. }
      split; [intros [?|[? _]]; lia | intros; right; split; [lia|done]].
    + split; [intros [?|[_ ?]]; [lia|done] | intros; left; lia].
Qed.

(** When nothing is ready, nothing is left. *)
Lemma kahn_end m topo :
  (∀ x, ¬ tc (edge g) x x) → kahn_inv m [] topo → NoDup topo ∧ ∀ x, x ∈ topo ↔ x ∈ dom g.
Proof.
  intros Hac [Hnd Hdom Hcount Hready]. rewrite app_nil_r in *. split; [done|].
  intros x. split; [apply Hdom|]. intros Hx. destruct (decide (x ∈ topo)) as [|Hx']; [done|]. exfalso.
  apply (no_infinite_descent (edge g) (dom g ∖ list_to_set topo) x Hac); [set_solver|].
  intros y Hy. assert (Hyd : y ∈ dom g) by set_solver.
  destruct (decide (preds g (dom g ∖ list_to_set topo) y = ∅)) as [He|[u Hu]%set_choose_L].
  - assert (y ∈ topo); [|set_solver]. apply Hready; [done|]. rewrite Hcount by done.
    unfold npreds. by rewrite He.
  - apply elem_of_filter in Hu as [Hu1 Hu2]. by exists u.
Qed.

Lemma kahn_spec fuel m q topo :
  (∀ x, ¬ tc (edge g) x x) → kahn_inv m q topo → (size (dom g) ≤ length topo + fuel)%nat →
  ∃ order, kahn fuel g m q topo = Ret order ∧ NoDup order ∧ ∀ x, x ∈ order ↔ x ∈ dom g.
Proof.
  intros Hac. revert m q topo. induction fuel as [|fuel IH]; intros m [|c q] topo Hinv Hfuel;
    cbn [kahn]; [exists topo; eauto using kahn_end| |exists topo; eauto using kahn_end|].
  - exfalso. destruct Hinv as [Hnd Hdom _ _].
    assert (Hle : (size (list_to_set (topo ++ c :: q) : gset Z) ≤ size (dom g))%nat).
    { apply subseteq_size. intros y. rewrite elem_of_list_to_set. apply Hdom. }
    rewrite size_list_to_set, length_app in Hle by done. cbn in Hle. lia.
  - assert (HcD : c ∈ dom g) by (destruct Hinv as [_ Hdom _ _]; apply Hdom; set_solver).
    apply elem_of_dom in HcD as [d Hd]. rewrite Hd.
    pose proof (kahn_step m q topo c d Hd Hinv) as Hinv'.
    destruct (release_each (iter d) m q) as [m' q'] eqn:E. cbn [fst snd] in Hinv'.
    apply IH; [done|]. rewrite length_app. cbn. lia.
Qed.
End kahn.

(** *** Relaxation and the way back *)

Section path.
Context `{Iter : !IterOrder Z} (g : edges).

Record relax_inv (distance : counts) (parent : gmap Z Z) : Prop := {
  r_edge n t : parent !! n = Some t → edge g t n;
  r_nonneg n : 0 ≤ count_at distance n;
  r_none n : parent !! n = None → count_at distance n = 0;
  r_dom n : n ∈ dom distance → n ∈ dom g ∨ ∃ t, edge g t n
}.

Lemma relax_each_spec t ids distance parent :
  (∀ n, n ∈ ids → edge g t n) → relax_inv distance parent →
  relax_inv (relax_each t ids distance parent).1 (relax_each t ids distance parent).2 ∧
  (∀ n, n ∈ ids ∨ is_Some (parent !! n) → is_Some ((relax_each t ids distance parent).2 !! n)).
Proof.
  revert distance parent. induction ids as [|i ids IH]; intros distance parent Hids Hinv; cbn.
  { split; [done|]. set_solver. }
  assert (Hti : edge g t i) by (apply Hids; set_solver).
  destruct Hinv as [He Hnn Hnone Hdom]. case_decide as Hlt.
  - destruct (IH (<[i := count_at distance t + 1]> distance) (<[i := t]> parent)) as [IH1 IH2].
    + set_solver.
    + split.
      * intros n t' [[<- <-]|[_ ?]]%lookup_insert_Some; auto.
      * intros n. rewrite count_at_insert. pose proof (Hnn t). case_decide; [lia|auto].
      * intros n [Hn Hne]%lookup_insert_None. rewrite count_at_insert, decide_False by done. auto.
      * intros n. rewrite dom_insert_L, elem_of_union, elem_of_singleton. intros [->|?]; eauto.
    + split; [done|]. intros n Hn. apply IH2. rewrite lookup_insert.
      case_decide; [right; eauto|]. set_solver.
  - destruct (IH distance parent) as [IH1 IH2]; [set_solver|done|]. split; [done|].
    intros n Hn. apply IH2. destruct Hn as [[->|?]%elem_of_cons|?]; [|by left|by right].
    right. destruct (parent !! i) eqn:E; [eauto|]. specialize (Hnn t). rewrite (Hnone i E) in Hlt. lia.
Qed.

Lemma relax_all_spec order distance parent :
  relax_inv distance parent →
  relax_inv (relax_all g order distance parent).1 (relax_all g order distance parent).2 ∧
  (∀ n, (∃ t, t ∈ order ∧ edge g t n) ∨ is_Some (parent !! n) →
    is_Some ((relax_all g order distance parent).2 !! n)).
Proof.
  revert distance parent. induction order as [|t order IH]; intros distance parent Hinv; cbn.
  { split; [done|]. set_solver. }
  destruct (g !! t) as [deps|] eqn:Ht.
  - assert (Hedge : ∀ n, n ∈ iter deps ↔ edge g t n).
    { intros n. rewrite elem_of_iter. unfold edge, set_at. by rewrite Ht. }
    destruct (relax_each_spec t (iter deps) distance parent) as [H1 H2]; [by intros n ?%Hedge|done|].
    destruct (relax_each t (iter deps) distance parent) as [d' p']. cbn in *.
    destruct (IH d' p' H1) as [H3 H4]. split; [done|].
    intros n [(t' & [->|Ht']%elem_of_cons & Hn)|Hn]; apply H4.
    + right. apply H2. left. by apply Hedge.
    + left. eauto.
    + right. apply H2. by right.
  - destruct (IH distance parent Hinv) as [H3 H4]. split; [done|].
    intros n [(t' & [->|Ht']%elem_of_cons & Hn)|Hn]; apply H4; [|by left; eauto|by right].
    exfalso. unfold edge, set_at in Hn. rewrite Ht in Hn. set_solver.
Qed.

Lemma pick_end_in distance ids e : pick_end distance ids e ∈ e :: ids.
Proof.
  revert e. induction ids as [|i ids IH]; intros e; cbn; [set_solver|].
  specialize (IH (if decide (count_at distance e < count_at distance i) then i else e)).
  case_decide; set_solver.
Qed.

Lemma follow_spec parent fuel cur path :
  (∀ x, ¬ tc (edge g) x x) → (∀ n t, parent !! n = Some t → edge g t n) →
  NoDup path → (∀ x, x ∈ path → x ∈ dom parent ∧ tc (edge g) cur x) →
  is_path g (cur :: reverse path) → (size (dom parent) ≤ length path + fuel)%nat →
  ∃ r x p, follow fuel parent cur path = Ret r ∧ reverse r = x :: p ∧ is_path g (x :: p) ∧
    parent !! x = None ∧ (x = cur ∨ ∃ y, edge g x y).
Proof.
  intros Hac Hpar. revert cur path. induction fuel as [|fuel IH]; intros cur path Hnd Hin Hpath Hfuel.
  all: cbn [follow]; destruct (parent !! cur) as [p|] eqn:Hp;
    [|by exists (path ++ [cur]), cur, (reverse path); rewrite reverse_snoc; eauto 6].
  all: assert (Hcur : cur ∉ path) by (intros Hc; by apply (Hac cur), Hin).
  all: assert (Hnd' : NoDup (path ++ [cur])) by
      (apply NoDup_app; split; [done|]; split; [set_solver|apply NoDup_singleton]).
  all: assert (Hin' : ∀ x, x ∈ path ++ [cur] → x ∈ dom parent ∧ tc (edge g) p x) by
      (intros x [Hx| ->%list_elem_of_singleton]%elem_of_app;
       [destruct (Hin x Hx); split; [done|]; eapply tc_l; eauto
       |split; [by eapply elem_of_dom_2|]; by apply tc_once, Hpar]).
  - exfalso. assert (Hle : (size (list_to_set (path ++ [cur]) : gset Z) ≤ size (dom parent))%nat).
    { apply subseteq_size. intros x. rewrite elem_of_list_to_set. intros Hx. by apply Hin'. }
    rewrite size_list_to_set, length_app in Hle by done. cbn in Hle. lia.
  - destruct (IH p (path ++ [cur])) as (r & x & l & Hr & Hrev & Hl & Hx & Hor); [done|done| | |].
    { rewrite reverse_snoc. split; [by apply Hpar|done]. }
    { rewrite length_app. cbn. lia. }
    exists r, x, l. split_and!; [done..|]. destruct Hor as [->|?]; [|by right].
    right. exists cur. by apply Hpar.
Qed.

Lemma findCriticalPath_spec : closed g → ¬ cyclic g → g ≠ ∅ →
  ∃ x p, findCriticalPath g = Ret (x :: p) ∧ is_path g (x :: p) ∧ x ∈ dom g ∧ ∀ u, ¬ edge g u x.
Proof.
  intros Hcl Hcyc Hne. assert (Hac : ∀ x, ¬ tc (edge g) x x) by (intros x ?; apply Hcyc; by exists x).
  unfold findCriticalPath. destruct (hasCycle_spec g) as (b & -> & Hb).
  destruct b; [exfalso; naive_solver|]. cbn [mbind outcome_bind].
  destruct (kahn_spec g Hcl (size (all_ids g)) _ _ [] Hac (kahn_init g Hcl))
    as (order & -> & Hnd & Hin).
  { cbn. unfold all_ids. apply subseteq_size. set_solver. }
  cbn [mbind outcome_bind].
  assert (Hlen : length order = size g).
  { rewrite <-size_dom. rewrite <-(size_list_to_set (C := gset Z) order) by done. f_equal.
    apply set_eq. intros x. by rewrite elem_of_list_to_set. }
  rewrite decide_False by tauto.
  destruct (relax_all_spec (reverse order) (gset_to_gmap 0 (dom g)) ∅) as [Hrel Hcov].
  { assert (Hz : ∀ n, count_at (gset_to_gmap 0 (dom g)) n = 0).
    { intros n. unfold count_at. rewrite lookup_gset_to_gmap. unfold guard. by case_match. }
    split; [intros n t; by rewrite lookup_empty|intros n; rewrite Hz; lia|done|].
    intros n. rewrite dom_gset_to_gmap. by left. }
  destruct (relax_all g (reverse order) (gset_to_gmap 0 (dom g)) ∅) as [distance parent].
  cbn [fst snd] in *. destruct Hrel as [He _ _ Hdd].
  destruct (reverse order) as [|first rest] eqn:Hrev.
  { exfalso. apply Hne. apply map_size_empty_iff. rewrite <-Hlen, <-length_reverse, Hrev. done. }
  cbn [head deref mbind outcome_bind].
  assert (Hfirst : first ∈ dom g) by (apply Hin; rewrite <-elem_of_reverse, Hrev; set_solver).
  set (endNode := pick_end distance (iter (dom distance)) first).
  assert (Hend : endNode ∈ dom g).
  { unfold endNode.
    pose proof (pick_end_in distance (iter (dom distance)) first) as [->|Hi]%elem_of_cons; [done|].
    apply elem_of_iter, Hdd in Hi as [?|(t & Ht)]; [done|by apply (Hcl t)]. }
  destruct (follow_spec parent (size parent) endNode []) as (r & x & p & -> & Hr & Hp & Hx & Hor);
    [done|done|constructor|set_solver|done|rewrite size_dom; cbn; lia|].
  cbn [mbind outcome_bind]. rewrite Hr. exists x, p. split_and!; [done|done| |].
  - destruct Hor as [->|(y & Hy)]; [done|by eapply edge_dom].
  - intros u Hu. destruct (Hcov x) as [t Ht]; [|by rewrite Ht in Hx]. left. exists u. split; [|done].
    rewrite <-Hrev, elem_of_reverse. apply Hin. by eapply edge_dom.
Qed.
End path.

(** ** calculateTaskLevels: correctness *)

(** [l] is the length of the longest chain of dependencies from [x]. *)
Definition is_level (g : edges) (x l : Z) : Prop :=
  (∃ n y, l = Z.of_nat n ∧ nsteps (edge g) n x y) ∧
  ∀ n y, nsteps (edge g) n x y → Z.of_nat n ≤ l.

Lemma nsteps_bound g n x y :
  ¬ cyclic g → nsteps (edge g) n x y → (n ≤ size (dom g))%nat.
Proof.
  intros Hcyc Hn.
  assert (Hl : ∃ l : list Z, length l = n ∧ NoDup l ∧ ∀ z, z ∈ l → z ∈ dom g ∧ rtc (edge g) x z).
  { induction Hn as [x|n x z y Hxz _ (l & Hlen & Hnd & Hin)].
    { exists []. split_and!; [done|constructor|set_solver]. }
    exists (x :: l). split_and!; [by cbn; f_equal| |].
    - constructor; [|done]. intros [_ Hzx]%Hin. apply Hcyc. exists x. by eapply tc_rtc_r; [apply tc_once|].
    - intros w [->|[Hw Hzw]%Hin]%elem_of_cons; split; eauto using edge_dom, rtc_l, rtc_refl. }
  destruct Hl as (l & <- & Hnd & Hin). rewrite <-(size_list_to_set (C := gset Z) l) by done.
  apply subseteq_size. intros z. rewrite elem_of_list_to_set. intros Hz. by apply Hin.
Qed.

Lemma is_level_leaf g x : (∀ y, ¬ edge g x y) → is_level g x 0.
Proof.
  intros Hx. split; [by exists 0%nat, x; eauto using nsteps_O|].
  intros n y Hn. inversion Hn; subst; [lia|naive_solver].
Qed.

Section levels.
Context `{Iter : !IterOrder Z} (g : edges).

Definition levels_ok (levels : counts) : Prop := ∀ x l, levels !! x = Some l →
  is_level g x l ∧ ∀ y, edge g x y → is_Some (levels !! y).

(** The contract of a call that has fuel for every chain from its argument. *)
Definition level_spec (fuel : nat) (f : Z → counts → outcome (Z * counts)) : Prop :=
  ∀ id levels, levels_ok levels → (∀ n y, nsteps (edge g) n id y → (n ≤ fuel)%nat) →
    ∃ l levels', f id levels = Ret (l, levels') ∧ is_level g id l ∧ levels_ok levels' ∧
      levels ⊆ levels' ∧ is_Some (levels' !! id).

Lemma level_each_spec fuel f ids m levels :
  level_spec fuel f → levels_ok levels →
  (∀ i n y, i ∈ ids → nsteps (edge g) n i y → (n ≤ fuel)%nat) →
  ∃ l levels', level_each f ids m levels = Ret (l, levels') ∧ levels_ok levels' ∧
    levels ⊆ levels' ∧ m ≤ l ∧ (∀ i, i ∈ ids → ∃ li, is_level g i li ∧ li ≤ l) ∧
    (l = m ∨ ∃ i, i ∈ ids ∧ is_level g i l) ∧ ∀ i, i ∈ ids → is_Some (levels' !! i).
Proof.
  intros Hf. revert m levels. induction ids as [|i ids IH]; intros m levels Hok Hfuel; cbn.
  { exists m, levels. split_and!; [done..|lia|set_solver|by left|set_solver]. }
  destruct (Hf i levels) as (li & lv1 & -> & Hli & Hok1 & Hsub1 & Hi1); [done|set_solver|]. cbn.
  destruct (IH (Z.max m li) lv1) as (l & lv2 & -> & Hok2 & Hsub2 & Hge & Hall & Hor & Hin2); [done|set_solver|].
  exists l, lv2. split_and!; [done|done|by etrans|lia| | |].
  - intros j [->|Hj]%elem_of_cons; [exists li; split; [done|lia]|auto].
  - destruct Hor as [->|(j & Hj & Hl)]; [|right; exists j; set_solver].
    destruct (Z.max_spec m li) as [[_ ->]|[_ ->]]; [right; exists i; set_solver|by left].
  - intros j [->|Hj]%elem_of_cons; [|auto]. destruct Hi1 as [v Hv]. exists v. by eapply lookup_weaken.
Qed.

Lemma levels_ok_insert levels id l :
  levels_ok levels → is_level g id l → (∀ y, edge g id y → is_Some (levels !! y)) →
  levels_ok (<[id := l]> levels).
Proof.
  intros Hok Hl Hdeps x l' Hx.
  assert (Hin : ∀ y, edge g x y → is_Some (levels !! y)).
  { apply lookup_insert_Some in Hx as [[<- <-]|[_ Hx]]; [done|by eapply Hok]. }
  split; [apply lookup_insert_Some in Hx as [[<- <-]|[_ Hx]]; [done|by eapply Hok]|].
  intros y Hy. apply lookup_insert_is_Some'. right. auto.
Qed.

(** A task without dependencies has level 0. *)
Lemma calc_leaf levels id :
  levels_ok levels → levels !! id = None → (∀ y, ¬ edge g id y) →
  ∃ l levels', Ret (0, <[id := 0]> levels) = Ret (l, levels') ∧ is_level g id l ∧
    levels_ok levels' ∧ levels ⊆ levels' ∧ is_Some (levels' !! id).
Proof.
  intros Hok Hl Hlf. exists 0, (<[id := 0]> levels). apply is_level_leaf in Hlf as Hlf'.
  split_and!; [done|done|apply levels_ok_insert; naive_solver|by apply insert_subseteq|].
  by rewrite lookup_insert_eq.
Qed.

Lemma is_level_max id ids l :
  (∀ y, edge g id y ↔ y ∈ ids) → ids ≠ [] → -1 ≤ l →
  (∀ i, i ∈ ids → ∃ li, is_level g i li ∧ li ≤ l) → (l = -1 ∨ ∃ i, i ∈ ids ∧ is_level g i l) →
  is_level g id (l + 1).
Proof.
  intros Hedge Hne Hl Hall Hor. split.
  - destruct Hor as [->|(i & Hi & ((n & y & -> & Hn) & _))].
    + exfalso. destruct ids as [|i ids]; [done|]. destruct (Hall i) as (li & ((n & _ & -> & _) & _) & ?); [set_solver|].
      lia.
    + exists (S n), y. split; [lia|]. econstructor; [by apply Hedge|done].
  - intros n y Hn. inversion Hn as [|n' ? i ? Hi Hn']; subst; [lia|]. apply Hedge in Hi.
    destruct (Hall i Hi) as (li & [_ Hub] & ?). specialize (Hub _ _ Hn'). lia.
Qed.

Lemma calcLevel_spec fuel : level_spec fuel (calcLevel fuel g).
Proof.
  induction fuel as [|fuel IH]; intros id levels Hok Hfuel; cbn [calcLevel].
  all: destruct (levels !! id) as [l|] eqn:Hl; [exists l, levels; split_and!; [done|by eapply Hok|done..]|].
  all: destruct (g !! id) as [deps|] eqn:Hd.
  all: try (apply calc_leaf; [done|done|]; intros y; unfold edge, set_at; rewrite Hd; set_solver).
  all: assert (Hedge : ∀ y, edge g id y ↔ y ∈ iter deps) by
    (intros y; rewrite elem_of_iter; unfold edge, set_at; by rewrite Hd).
  all: destruct (decide (deps = ∅)) as [He|He].
  all: try (apply calc_leaf; [done|done|]; intros y; rewrite Hedge, elem_of_iter; set_solver).
  - exfalso. apply set_choose_L in He as [y Hy%elem_of_iter%Hedge].
    specialize (Hfuel 1%nat y (nsteps_once _ _ Hy)). lia.
  - destruct (level_each_spec fuel (calcLevel fuel g) (iter deps) (-1) levels IH Hok)
      as (l & lv & -> & Hok' & Hsub & Hge & Hall & Hor & Hin).
    { intros i n y Hi%Hedge Hn. specialize (Hfuel (S n) y). apply le_S_n, Hfuel. by econstructor. }
    cbn. assert (Hlv : is_level g id (l + 1)).
    { eapply is_level_max; [done| |done..]. intros Hnil. apply He. apply set_eq. intros y.
      rewrite <-elem_of_iter, Hnil. set_solver. }
    exists (l + 1), (<[id := l + 1]> lv). split_and!; [done|done|apply levels_ok_insert; [done..|]| |by rewrite lookup_insert_eq].
    { intros y Hy%Hedge. auto. }
    apply map_subseteq_spec. intros x v Hv. rewrite lookup_insert_ne by congruence. by eapply lookup_weaken.
Qed.
End levels.

(** A call that returns has only met tasks without an infinite chain. *)
Section divergence.
Context `{Iter : !IterOrder Z} (g : edges).

Abbreviation finite_from := (Acc (flip (edge g))) (only parsing).

Definition levels_finite (levels : counts) : Prop := ∀ x, x ∈ dom levels → finite_from x.

Definition finite_spec (f : Z → counts → outcome (Z * counts)) : Prop :=
  ∀ id levels, levels_finite levels →
    f id levels = Diverge ∨
    ∃ l levels', f id levels = Ret (l, levels') ∧ levels_finite levels' ∧ finite_from id.

Lemma levels_finite_insert levels id l :
  levels_finite levels → finite_from id → levels_finite (<[id := l]> levels).
Proof. intros Hf Hid x. rewrite dom_insert_L. set_solver. Qed.

Lemma level_each_finite f ids m levels :
  finite_spec f → levels_finite levels →
  level_each f ids m levels = Diverge ∨
  ∃ l levels', level_each f ids m levels = Ret (l, levels') ∧ levels_finite levels' ∧
    ∀ i, i ∈ ids → finite_from i.
Proof.
  intros Hf. revert m levels. induction ids as [|i ids IH]; intros m levels Hfin; cbn.
  { right. exists m, levels. split_and!; [done..|set_solver]. }
  destruct (Hf i levels Hfin) as [->|(l & lv & -> & Hfin' & Hi)]; [by left|]. cbn.
  destruct (IH (Z.max m l) lv Hfin') as [->|(l' & lv' & -> & Hfin'' & Hall)]; [by left|].
  right. exists l', lv'. split_and!; [done..|]. intros j [->|Hj]%elem_of_cons; auto.
Qed.

Lemma calcLevel_finite fuel : finite_spec (calcLevel fuel g).
Proof.
  induction fuel as [|fuel IH]; intros id levels Hfin; cbn [calcLevel].
  all: destruct (levels !! id) as [l|] eqn:Hl;
    [right; exists l, levels; split_and!; [done|done|]; eapply Hfin, elem_of_dom_2, Hl|].
  all: assert (Hleaf : (∀ y, ¬ edge g id y) → ∃ l lv, Ret (0, <[id := 0]> levels) = Ret (l, lv) ∧
    levels_finite lv ∧ finite_from id) by
    (intros Hy; assert (finite_from id) by (constructor; intros y ?; naive_solver);
     exists 0, (<[id := 0]> levels); split_and!; [done|by apply levels_finite_insert|done]).
  all: destruct (g !! id) as [deps|] eqn:Hd;
    [|right; apply Hleaf; intros y; unfold edge, set_at; rewrite Hd; set_solver].
  all: assert (Hedge : ∀ y, edge g id y ↔ y ∈ iter deps) by
    (intros y; rewrite elem_of_iter; unfold edge, set_at; by rewrite Hd).
  all: destruct (decide (deps = ∅)) as [He|He];
    [right; apply Hleaf; intros y; rewrite Hedge, elem_of_iter; set_solver|].
  - by left.
  - destruct (level_each_finite (calcLevel fuel g) (iter deps) (-1) levels IH Hfin)
      as [->|(l & lv & -> & Hfin' & Hall)]; [by left|]. right. cbn.
    assert (finite_from id) by (constructor; intros y Hy%Hedge; auto).
    exists (l + 1), (<[id := l + 1]> lv). split_and!; [done|by apply levels_finite_insert|done].
Qed.

Lemma level_roots_finite f ids levels :
  finite_spec f → levels_finite levels →
  level_roots f ids levels = Diverge ∨
  ∃ levels', level_roots f ids levels = Ret levels' ∧ ∀ i, i ∈ ids → finite_from i.
Proof.
  intros Hf. revert levels. induction ids as [|i ids IH]; intros levels Hfin; cbn.
  { right. exists levels. split; [done|set_solver]. }
  destruct (Hf i levels Hfin) as [->|(l & lv & -> & Hfin' & Hi)]; [by left|]. cbn.
  destruct (IH lv Hfin') as [->|(lv' & -> & Hall)]; [by left|].
  right. exists lv'. split; [done|]. intros j [->|Hj]%elem_of_cons; auto.
Qed.

Lemma finite_from_no_cycle x : finite_from x → ¬ tc (edge g) x x.
Proof.
  induction 1 as [x _ IH]. intros Hx.
  assert (∃ y, edge g x y ∧ tc (edge g) y y) as (y & Hxy & Hy); [|by apply (IH y)].
  inversion Hx as [? ? Hxy|? y ? Hxy Hyx]; subst; [by exists x|].
  exists y. split; [done|]. eapply tc_r; [done|done].
Qed.
End divergence.

Lemma edge_empty x y : ¬ edge ∅ x y.
Proof. unfold edge, set_at. rewrite lookup_empty. set_solver. Qed.

Lemma elem_of_all_ids (g : edges) x : x ∈ all_ids g ↔ x ∈ dom g ∨ ∃ y, edge g y x.
Proof.
  split; [|intros [?|[y Hy]]; [unfold all_ids; set_solver|by eapply edge_all_ids]].
  unfold all_ids. intros [?|(d & Hd & Hx)%elem_of_union_list]%elem_of_union; [by left|].
  apply list_elem_of_fmap in Hd as ([k d'] & -> & Hk%elem_of_map_to_list). right. exists k.
  unfold edge, set_at. by rewrite Hk.
Qed.

Lemma level_roots_spec `{!IterOrder Z} g fuel f ids levels :
  level_spec g fuel f → levels_ok g levels →
  (∀ i n y, i ∈ ids → nsteps (edge g) n i y → (n ≤ fuel)%nat) →
  ∃ levels', level_roots f ids levels = Ret levels' ∧ levels_ok g levels' ∧ levels ⊆ levels' ∧
    ∀ i, i ∈ ids → is_Some (levels' !! i).
Proof.
  intros Hf. revert levels. induction ids as [|i ids IH]; intros levels Hok Hfuel; cbn.
  { exists levels. split_and!; [done..|set_solver]. }
  destruct (Hf i levels) as (li & lv1 & -> & Hli & Hok1 & Hsub1 & Hi1); [done|set_solver|]. cbn.
  destruct (IH lv1) as (lv2 & -> & Hok2 & Hsub2 & Hin2); [done|set_solver|].
  exists lv2. split_and!; [done|done|by etrans|].
  intros j [->|Hj]%elem_of_cons; [|auto]. destruct Hi1 as [v Hv]. exists v. by eapply lookup_weaken.
Qed.

(** ** Properties *)

(** C13: [hasCycle] terminates on every graph, whatever the iteration order
    of the sets, and returns [true] exactly when some task depends on itself
    through a chain of dependencies. *)
Theorem hasCycle_correct `{!IterOrder Z} (g : edges) :
  ∃ b, hasCycle g = Ret b ∧ (b = true ↔ cyclic g).
Proof. apply hasCycle_spec. Qed.


(** C25: On an acyclic graph [calculateTaskLevels] returns, with fuel for one
    nested call per task, and gives every task mentioned by the graph the length
    of its longest chain of dependencies; on a cyclic graph it never returns. *)
Theorem calculateTaskLevels_correct `{!IterOrder Z} (g : edges) :
  (¬ cyclic g → ∃ levels, calculateTaskLevels (size (dom g)) g = Ret levels ∧
    (∀ x, x ∈ all_ids g → is_Some (levels !! x)) ∧
    ∀ x l, levels !! x = Some l → is_level g x l) ∧
  (cyclic g → ∀ fuel, calculateTaskLevels fuel g = Diverge).
Proof.
  unfold calculateTaskLevels. split.
  - intros Hc. destruct (level_roots_spec g (size (dom g)) _ (iter (dom g)) ∅
      (calcLevel_spec g (size (dom g)))) as (levels & -> & Hok & _ & Hin).
    { intros x l. by rewrite lookup_empty. }
    { intros i n y _. by apply nsteps_bound. }
    exists levels. split_and!; [done| |intros x l Hx; by apply (Hok x l)].
    intros x [Hx|[y Hy]]%elem_of_all_ids; [by apply Hin, elem_of_iter|].
    destruct (Hin y) as [l Hl]; [apply elem_of_iter; by eapply edge_dom|]. by apply (Hok y l).
  - intros [x Hx] fuel. destruct (level_roots_finite g (calcLevel fuel g) (iter (dom g)) ∅)
      as [?|(lv & _ & Hall)]; [apply calcLevel_finite|intros y; set_solver|done|].
    exfalso. apply (finite_from_no_cycle g x); [|done]. apply Hall, elem_of_iter.
    inversion Hx; subst; by eapply edge_dom.
Qed.

(** Two chains [1 -> 2 -> 4 -> 5] and [1 -> 3]. *)
Definition demo_graph : edges :=
  {[1 := {[2; 3]}; 2 := {[4]}; 4 := {[5]}; 3 := ∅; 5 := ∅]}.

Definition demo_graph_cyclic : edges := {[1 := {[2]}; 2 := {[1]}]}.

(** [closed] by computation. *)
Lemma closed_check g : forallb (λ kd, forallb (λ y, bool_decide (y ∈ dom g)) (elements kd.2))
  (map_to_list g) = true → closed g.
Proof.
  intros Hc a b. unfold edge, set_at. destruct (g !! a) as [d|] eqn:Hd; cbn; [|set_solver].
  intros Hb. rewrite forallb_forall in Hc. specialize (Hc (a, d)).
  rewrite <-base.list_elem_of_In, elem_of_map_to_list in Hc. specialize (Hc Hd). cbn in Hc.
  rewrite forallb_forall in Hc. specialize (Hc b).
  rewrite <-base.list_elem_of_In, elem_of_elements, bool_decide_eq_true in Hc. auto.
Qed.


(** The path returned need not be a longest one: the distances are
    relaxed over the reversed order, dependencies before the tasks that need them,
    so that a distance may still grow after the edges behind it were relaxed.  On
    [demo_graph] the chain [1; 2; 4; 5] exists and [1; 3] is returned. *)
Theorem findCriticalPath_not_longest :
  findCriticalPath (IterOrder0 := iter_elements Z) demo_graph = Ret [1; 3] ∧
  is_path demo_graph [1; 2; 4; 5].
Proof. split; [by vm_compute|]. repeat split; by vm_compute. Qed.
