(* ===== verification/Dot.v ===== *)
(** * DOT output of dependency graphs

    Models [generateDOTGraph] of src/utils/DataStructures.cpp and
    [TaskGraph::toDOT] of include/utils/DataStructures.hpp.  A stream is the list
    of the strings written to it; [pretty] prints a task id as [operator<<] and
    [std::to_string] do.  The theorem shows that the edges and nodes of the graph
    can be read off the lines written, and that nothing else is written. *)

From stdpp Require Import pretty.
From Stdlib Require Import Ascii.
From S2P Require Import Prelude Task TaskGraph.

Definition newline : string := String (Ascii.ascii_of_nat 10) EmptyString.
Definition dquote : string := String (Ascii.ascii_of_nat 34) EmptyString.

Definition status_color (s : TaskStatus) : string :=
  match s with
  | QUEUED => "lightblue"
  | RUNNING => "yellow"
  | COMPLETED => "lightgreen"
  | FAILED => "salmon"
  | CANCELLED => "gray"
  | _ => "white"
  end.

(** The name shown for a task: [taskNames.find(taskId)], or a default. *)
Definition task_label (names : gmap Z string) (taskId : Z) : string :=
  match names !! taskId with
  | Some n => n
  | None => "Task " +:+ pretty taskId
  end.

Definition node_line (names : gmap Z string) (statuses : gmap Z TaskStatus) (taskId : Z) : string :=
  let color := match statuses !! taskId with
               | Some s => status_color s
               | None => "white"
               end in
  "  task_" +:+ pretty taskId +:+ " [label=" +:+ dquote +:+ task_label names taskId +:+ "\nID: "
    +:+ pretty taskId +:+ dquote +:+ ", fillcolor=" +:+ color +:+ "];" +:+ newline.

Definition edge_line (taskId depId : Z) : string :=
  "  task_" +:+ pretty taskId +:+ " -> task_" +:+ pretty depId +:+ ";" +:+ newline.

(** Successive [dot << ...]. *)
Definition stream (parts : list string) : string := foldr String.append EmptyString parts.

(** The two loops over the graph, for the line a task is given. *)
Definition dot_body `{!IterOrder Z} (line : Z → string) (graph : edges) : list string :=
  ((λ kd, line kd.1) <$> map_iter graph) ++ (kd ← map_iter graph; edge_line kd.1 <$> iter kd.2).

Definition generateDOTGraph `{!IterOrder Z} (graph : edges) (names : gmap Z string)
    (statuses : gmap Z TaskStatus) : string :=
  stream (
    ["digraph TaskGraph {" +:+ newline; "  rankdir=LR;" +:+ newline;
     "  node [shape=box, style=filled];" +:+ newline]
    ++ dot_body (node_line names statuses) graph ++ ["}" +:+ newline]).

Definition plain_node_line (names : gmap Z string) (taskId : Z) : string :=
  "  task_" +:+ pretty taskId +:+ " [label=" +:+ dquote +:+ task_label names taskId
    +:+ dquote +:+ "];" +:+ newline.

Definition toDOT `{!IterOrder Z} (g : TaskGraph) (names : gmap Z string) : string :=
  stream (["digraph TaskDependencies {" +:+ newline]
    ++ dot_body (plain_node_line names) (g_dependencies_ g) ++ ["}" +:+ newline]).

(** ** Lines determine what they were printed from *)

(** The characters a printed number is made of. *)
Definition digit_char (c : ascii) : Prop := c ≠ " "%char ∧ c ≠ ";"%char.

Fixpoint digits (s : string) : Prop :=
  match s with
  | EmptyString => True
  | String c s => digit_char c ∧ digits s
  end.

Lemma digits_go x s : digits s → digits (pretty_N_go x s).
Proof.
  revert s. induction (N.lt_wf_0 x) as [x _ IH]; intros s Hs.
  destruct (decide (x = 0)%N) as [->|Hx]; [by rewrite pretty_N_go_0|].
  rewrite pretty_N_go_step by lia. apply IH; [apply N.div_lt; lia|].
  split; [|done]. unfold pretty_N_char, digit_char. by repeat case_match.
Qed.

Lemma digits_pretty_N (n : N) : digits (pretty n).
Proof. unfold pretty, pretty_N. case_decide; [by vm_compute|]. by apply digits_go. Qed.

Lemma digits_pretty (z : Z) : digits (pretty z).
Proof.
  destruct z as [|p|p]; [by vm_compute|apply digits_pretty_N|].
  split; [done|]. apply (digits_pretty_N (Npos p)).
Qed.

(** A run of digits is cut at the first character that is not one. *)
Lemma digits_cut a b c d x y :
  digits a → digits b → ¬ digit_char c → ¬ digit_char d →
  a +:+ String c x = b +:+ String d y → a = b ∧ c = d ∧ x = y.
Proof.
  revert b. induction a as [|a0 a IH]; intros [|b0 b] Ha Hb Hc Hd; cbn.
  - naive_solver.
  - intros [= -> _]. by destruct Hb.
  - intros [= -> _]. by destruct Ha.
  - intros [= -> E]. destruct (IH b) as (-> & -> & ->); [apply Ha|apply Hb|done..].
Qed.

Lemma pretty_cut (a b : Z) c d x y :
  ¬ digit_char c → ¬ digit_char d →
  pretty a +:+ String c x = pretty b +:+ String d y → a = b ∧ c = d ∧ x = y.
Proof.
  intros Hc Hd [Hab Hr]%digits_cut; auto using digits_pretty. by apply (inj pretty) in Hab.
Qed.

Lemma not_digit_space : ¬ digit_char " "%char.
Proof. by intros [? _]. Qed.

Lemma not_digit_semi : ¬ digit_char ";"%char.
Proof. by intros [_ ?]. Qed.

Lemma edge_line_inj a b a' b' : edge_line a b = edge_line a' b' → a = a' ∧ b = b'.
Proof.
  unfold edge_line. intros [= E].
  apply pretty_cut in E as (-> & _ & E); auto using not_digit_space. injection E as E.
  apply pretty_cut in E as (-> & _ & _); auto using not_digit_semi.
Qed.

(** What the proofs need of a node line: it determines the task, and is no edge line. *)
Class NodeLine (line : Z → string) : Prop := {
  node_line_inj a b : line a = line b → a = b;
  node_line_edge a b c : line a ≠ edge_line b c
}.

Lemma bracket_line (line : Z → string) (rest : Z → string) :
  (∀ a, line a = "  task_" +:+ pretty a +:+ String " " (String "[" (rest a))) → NodeLine line.
Proof.
  intros Hline. split.
  - intros a b. rewrite !Hline. intros [= E].
    by apply pretty_cut in E as (-> & _ & _); auto using not_digit_space.
  - intros a b c. rewrite Hline. unfold edge_line. intros [= E].
    by apply pretty_cut in E as (_ & _ & E); auto using not_digit_space.
Qed.

Instance node_line_ok names statuses : NodeLine (node_line names statuses).
Proof. eapply bracket_line. intros a. unfold node_line. cbn. reflexivity. Qed.

Instance plain_node_line_ok names : NodeLine (plain_node_line names).
Proof. eapply bracket_line. intros a. unfold plain_node_line. cbn. reflexivity. Qed.

Section body.
Context `{Iter : !IterOrder Z} (line : Z → string) `{!NodeLine line} (g : edges).

Lemma elem_of_dot_body s :
  s ∈ dot_body line g ↔
    (∃ x, x ∈ dom g ∧ s = line x) ∨ (∃ a b, edge g a b ∧ s = edge_line a b).
Proof.
  unfold dot_body. rewrite elem_of_app, list_elem_of_fmap, list_elem_of_bind. f_equiv.
  - split.
    + intros ([k d] & -> & Hk%elem_of_map_iter). exists k. split; [by eapply elem_of_dom_2|done].
    + intros (x & [d Hd]%elem_of_dom & ->). exists (x, d). by rewrite elem_of_map_iter.
  - split.
    + intros ([k d] & Hs & Hk%elem_of_map_iter). apply list_elem_of_fmap in Hs as (b & -> & Hb%elem_of_iter).
      exists k, b. split; [|done]. unfold edge, set_at. by rewrite Hk.
    + intros (a & b & Hab & ->). unfold edge, set_at in Hab.
      destruct (g !! a) as [d|] eqn:Hd; [|cbn in Hab; set_solver]. exists (a, d).
      rewrite elem_of_map_iter, list_elem_of_fmap. split; [|done]. exists b. by rewrite elem_of_iter.
Qed.

Lemma dot_body_edge a b : edge_line a b ∈ dot_body line g ↔ edge g a b.
Proof.
  rewrite elem_of_dot_body. split; [|by eauto].
  intros [(x & _ & E)|(a' & b' & Hab & [-> ->]%edge_line_inj)]; [|done].
  by edestruct node_line_edge.
Qed.

Lemma dot_body_node x : line x ∈ dot_body line g ↔ x ∈ dom g.
Proof.
  rewrite elem_of_dot_body. split; [|by eauto].
  intros [(y & Hy & ->%node_line_inj)|(a & b & _ & E)]; [done|]. by edestruct node_line_edge.
Qed.

Lemma NoDup_edge_lines (L : list (Z * gset Z)) :
  NoDup L.*1 → NoDup (kd ← L; edge_line kd.1 <$> iter kd.2).
Proof.
  induction L as [|[k d] L IH]; cbn; [constructor|]. intros [Hk HL]%NoDup_cons.
  apply NoDup_app. split_and!; [| |by apply IH].
  - apply NoDup_fmap_2_strong; [|apply NoDup_iter]. by intros x y _ _ [_ ?]%edge_line_inj.
  - intros s (b & -> & _)%list_elem_of_fmap ([k' d'] & Hs & Hin)%list_elem_of_bind.
    apply list_elem_of_fmap in Hs as (b' & [Hkk _]%edge_line_inj & _). cbn in Hkk. subst k'.
    apply Hk, list_elem_of_fmap. by exists (k, d').
Qed.

Lemma NoDup_dot_body : NoDup (dot_body line g).
Proof.
  unfold dot_body. apply NoDup_app. split_and!.
  - change (NoDup (line ∘ fst <$> map_iter g)). rewrite list_fmap_compose, map_iter_fst.
    apply NoDup_fmap_2_strong; [|apply NoDup_iter]. intros x y _ _. apply node_line_inj.
  - intros s (kd & -> & _)%list_elem_of_fmap ([k d] & Hs & _)%list_elem_of_bind.
    apply list_elem_of_fmap in Hs as (b & E & _). by edestruct node_line_edge.
  - apply NoDup_edge_lines. rewrite map_iter_fst. apply NoDup_iter.
Qed.
End body.

(** ** Properties *)

(** The lines [L] describe the graph [g], each task by [line]: one line per task
    that has an entry, one per dependency edge, no line twice. *)
Definition describes (line : Z → string) (g : edges) (L : list string) : Prop :=
  NoDup L ∧ (∀ x, line x ∈ L ↔ x ∈ dom g) ∧ (∀ a b, edge_line a b ∈ L ↔ edge g a b) ∧
  ∀ s, s ∈ L → (∃ x, s = line x) ∨ (∃ a b, s = edge_line a b).

Lemma dot_body_describes `{!IterOrder Z} line `{!NodeLine line} g : describes line g (dot_body line g).
Proof.
  split_and!; [apply NoDup_dot_body; apply _|apply dot_body_node; apply _|apply dot_body_edge; apply _|].
  intros s [(x & _ & ->)|(a & b & _ & ->)]%elem_of_dot_body; eauto.
Qed.


Example toDOT_example :
  toDOT (IterOrder0 := iter_elements Z) (graph_addDependency 12 7 new_TaskGraph) {[12 := "build"]}
  = "digraph TaskDependencies {" +:+ newline
    +:+ "  task_12 [label=" +:+ dquote +:+ "build" +:+ dquote +:+ "];" +:+ newline
    +:+ "  task_12 -> task_7;" +:+ newline +:+ "}" +:+ newline.
Proof. vm_compute. reflexivity. Qed.
