(* ===== verification/QueueManager.v ===== *)
(** * QueueManager: the four queue modes

    Models include/core/QueueManager.hpp and src/core/QueueManager.cpp: the
    manager's members, one definition per member function, over the node heap of
    NodeQueue.v and the store of [Task] objects.  The three queue classes are used
    through the operations of [NodeQueue]; the code of the three modes that is the
    same but for the class is one definition at that interface.

    A call takes an [env]: the clock reading, the iteration orders of the
    unordered containers, and the choices of the machine inside the lock-free
    operations.  [Task::markCancelled], which the sources call and do not define,
    is a parameter.

    Mutexes: [enqueue], [dequeue], [peek], [clear], [setMode] hold [queue_mutex_]
    around everything that touches a queue, so each runs as one step here. *)

From S2P Require Import Prelude Task TaskGraph GraphAlgo Dot NodeQueue LockFree SkipList.

Inductive QueueMode : Type := FIFO | LIFO | ROUND_ROBIN | PRIORITY.

Global Instance QueueMode_eq_dec : EqDecision QueueMode.
Proof. solve_decision. Defined.

(** The three maps from group to queue. *)
Record Queues : Type := mkQueues {
  fifo_queues_ : gmap string LockFreeQueue;
  lifo_queues_ : gmap string LockFreeStack;
  priority_queues_ : gmap string LockFreePriorityQueue
}.

(** The atomic counters behind [getMetrics]. *)
Record Counters : Type := mkCounters {
  enqueue_count_ : Z;
  dequeue_count_ : Z;
  peek_count_ : Z;
  cancel_count_ : Z;
  total_wait_time_ms_ : Z;
  total_execution_time_ms_ : Z
}.

Record QueueManager : Type := mkManager {
  mode_ : QueueMode;
  task_map_ : gmap Z loc;
  total_tasks_ : Z;
  group_names_ : list string;
  current_group_index_ : Z;
  queues_ : Queues;
  dependency_graph_ : TaskGraph;
  counters_ : Counters
}.

Definition no_queues : Queues := mkQueues ∅ ∅ ∅.

Definition new_QueueManager : QueueManager :=
  mkManager FIFO ∅ 0 [] 0 no_queues new_TaskGraph (mkCounters 0 0 0 0 0 0).

(** The manager with the two heaps its pointers go to. *)
Record world : Type := mkWorld {
  nodes : heap;
  tasks : gmap loc Task;
  qm : QueueManager
}.

(** What one call reads from outside. *)
Record env : Type := mkEnv {
  now : Z;
  group_order : IterOrder string;
  id_order : IterOrder Z;
  push_choices : loc → choices;
  pop_choices : string → nat → choices
}.

(** ** Field updates *)

Definition set_mode (v : QueueMode) (m : QueueManager) : QueueManager :=
  mkManager v (task_map_ m) (total_tasks_ m) (group_names_ m) (current_group_index_ m) (queues_ m)
    (dependency_graph_ m) (counters_ m).
Definition set_task_map (v : gmap Z loc) (m : QueueManager) : QueueManager :=
  mkManager (mode_ m) v (total_tasks_ m) (group_names_ m) (current_group_index_ m) (queues_ m)
    (dependency_graph_ m) (counters_ m).
Definition set_total_tasks (v : Z) (m : QueueManager) : QueueManager :=
  mkManager (mode_ m) (task_map_ m) v (group_names_ m) (current_group_index_ m) (queues_ m)
    (dependency_graph_ m) (counters_ m).
Definition set_group_names (v : list string) (m : QueueManager) : QueueManager :=
  mkManager (mode_ m) (task_map_ m) (total_tasks_ m) v (current_group_index_ m) (queues_ m)
    (dependency_graph_ m) (counters_ m).
Definition set_group_index (v : Z) (m : QueueManager) : QueueManager :=
  mkManager (mode_ m) (task_map_ m) (total_tasks_ m) (group_names_ m) v (queues_ m)
    (dependency_graph_ m) (counters_ m).
Definition set_queues (v : Queues) (m : QueueManager) : QueueManager :=
  mkManager (mode_ m) (task_map_ m) (total_tasks_ m) (group_names_ m) (current_group_index_ m) v
    (dependency_graph_ m) (counters_ m).
Definition set_graph (v : TaskGraph) (m : QueueManager) : QueueManager :=
  mkManager (mode_ m) (task_map_ m) (total_tasks_ m) (group_names_ m) (current_group_index_ m)
    (queues_ m) v (counters_ m).
Definition set_counters (v : Counters) (m : QueueManager) : QueueManager :=
  mkManager (mode_ m) (task_map_ m) (total_tasks_ m) (group_names_ m) (current_group_index_ m)
    (queues_ m) (dependency_graph_ m) v.

Definition set_fifo (v : gmap string LockFreeQueue) (q : Queues) : Queues :=
  mkQueues v (lifo_queues_ q) (priority_queues_ q).
Definition set_lifo (v : gmap string LockFreeStack) (q : Queues) : Queues :=
  mkQueues (fifo_queues_ q) v (priority_queues_ q).
Definition set_priority_queues (v : gmap string LockFreePriorityQueue) (q : Queues) : Queues :=
  mkQueues (fifo_queues_ q) (lifo_queues_ q) v.

(** ** Operations shared by the modes *)

Section groups.
Context {Q : Type} `{NodeQueue Q}.

(** [queues[group]], which default-constructs a missing queue. *)
Definition queue_at (m : gmap string Q) (group : string) : Q := default nq_new (m !! group).

(** [queues[group].enqueue(node, ...)]. *)
Definition push_group (c : choices) (h : heap) (m : gmap string Q) (group : string) (node : loc)
    (prio : Z) : outcome (heap * gmap string Q) :=
  '(h, q) ← nq_push c h (queue_at m group) node prio;
  Ret (h, <[group := q]> m).

(** [getTaskFrom...]: take the next node of a group, read its task, and delete
    the node if this mode does. *)
Definition getTaskFrom (deletes : bool) (c : choices) (group : string) (h : heap) (m : gmap string Q)
    : outcome (option loc * heap * gmap string Q) :=
  match m !! group with
  | None => Ret (None, h, m)
  | Some q =>
      is_empty ← nq_empty q;
      if is_empty : bool then Ret (None, h, m) else
      '(node, q) ← nq_pop c h q;
      let m := <[group := q]> m in
      match node with
      | None => Ret (None, h, m)
      | Some node =>
          n ← deref (h !! node);
          Ret (task n, if deletes then delete node h else h, m)
      end
  end.

(** [for (const auto &[group, _] : queues) { task = get(group); if (task) break; }] *)
Fixpoint first_task {S} (get : string → S → outcome (option loc * S)) (groups : list string) (s : S)
    : outcome (option loc * S) :=
  match groups with
  | [] => Ret (None, s)
  | group :: groups =>
      '(task, s) ← get group s;
      match task with
      | Some _ => Ret (task, s)
      | None => first_task get groups s
      end
  end.

(** The loop of [peek] in the modes without priorities. *)
Fixpoint peek_groups (h : heap) (qs : list Q) : outcome (option loc) :=
  match qs with
  | [] => Ret None
  | q :: qs =>
      node ← nq_peek q;
      match node with
      | Some node => n ← deref (h !! node); Ret (task n)
      | None => peek_groups h qs
      end
  end.

(** [while (!queue.empty()) { node = queue.dequeue(); ... }] of [setMode]. *)
Fixpoint drain_queue (deletes : bool) (c : nat → choices) (fuel : nat) (group : string) (h : heap)
    (q : Q) (all_tasks : list (string * loc)) : outcome (heap * list (string * loc)) :=
  is_empty ← nq_empty q;
  if is_empty : bool then Ret (h, all_tasks) else
  match fuel with
  | O => Diverge
  | S fuel =>
      '(node, q) ← nq_pop (c fuel) h q;
      match node with
      | None => drain_queue deletes c fuel group h q all_tasks
      | Some node =>
          n ← deref (h !! node);
          match task n with
          | None => drain_queue deletes c fuel group h q all_tasks
          | Some t =>
              drain_queue deletes c fuel group (if deletes then delete node h else h) q
                (all_tasks ++ [(group, t)])
          end
      end
  end.

(** The loop of [setMode] over the groups of the old mode.  A queue holds each
    of its nodes once, so the number of live nodes bounds the inner loop. *)
Fixpoint drain_groups (deletes : bool) (c : string → nat → choices) (qs : list (string * Q))
    (h : heap) (all_tasks : list (string * loc)) : outcome (heap * list (string * loc)) :=
  match qs with
  | [] => Ret (h, all_tasks)
  | (group, q) :: qs =>
      '(h, all_tasks) ← drain_queue deletes (c group) (size h) group h q all_tasks;
      drain_groups deletes c qs h all_tasks
  end.
End groups.

Section manager.
Context `{SL : SearchLoop} (markCancelled : Z → Task → Task).

(** ** Enqueue *)

(** The [switch] that adds a node for a task under the current mode; [enqueue] and
    [setMode] have the same one. *)
Definition push_node (e : env) (mode : QueueMode) (ts : gmap loc Task) (group : string) (t : loc)
    (node : loc) (h : heap) (qs : Queues) : outcome (heap * Queues) :=
  let c := push_choices e node in
  match mode with
  | FIFO | ROUND_ROBIN =>
      '(h, m) ← push_group c h (fifo_queues_ qs) group node 0; Ret (h, set_fifo m qs)
  | LIFO =>
      '(h, m) ← push_group c h (lifo_queues_ qs) group node 0; Ret (h, set_lifo m qs)
  | PRIORITY =>
      tk ← deref (ts !! t);
      '(h, m) ← push_group c h (priority_queues_ qs) group node (s32 (priority_ tk));
      Ret (h, set_priority_queues m qs)
  end.

Definition updateTaskInMap (t : loc) (tk : Task) (m : QueueManager) : QueueManager :=
  set_task_map (<[id_ tk := t]> (task_map_ m)) m.

Definition removeTaskFromMap (id : Z) (m : QueueManager) : QueueManager :=
  set_task_map (delete id (task_map_ m)) m.

Definition count_enqueue (m : QueueManager) : QueueManager :=
  let c := counters_ m in
  let m := set_counters (mkCounters (w64 (enqueue_count_ c + 1)) (dequeue_count_ c) (peek_count_ c)
    (cancel_count_ c) (total_wait_time_ms_ c) (total_execution_time_ms_ c)) m in
  set_total_tasks (w64 (total_tasks_ m + 1)) m.

Definition enqueue (e : env) (task : option loc) (group : string) (w : world) : outcome world :=
  match task with
  | None => Ret w
  | Some t =>
      tk ← deref (tasks w !! t);
      let ts := <[t := set_enqueued_at (now e) tk]> (tasks w) in
      let m := updateTaskInMap t tk (qm w) in
      let m := if decide (group ∈ group_names_ m) then m
               else set_group_names (group_names_ m ++ [group]) m in
      let '(node, h) := new_TaskNode (nodes w) (Some t) in
      '(h, qs) ← push_node e (mode_ m) ts group t node h (queues_ m);
      Ret (mkWorld h ts (count_enqueue (set_queues qs m)))
  end.

(** ** Dequeue *)

(** The node heap and the queues, as the [getTaskFrom...] functions change them. *)
Abbreviation qstate := (heap * Queues)%type (only parsing).

Definition getTaskFromFIFO (e : env) (group : string) (s : qstate) : outcome (option loc * qstate) :=
  '(t, h, m) ← getTaskFrom true (pop_choices e group 0%nat) group s.1 (fifo_queues_ s.2);
  Ret (t, (h, set_fifo m s.2)).

Definition getTaskFromLIFO (e : env) (group : string) (s : qstate) : outcome (option loc * qstate) :=
  '(t, h, m) ← getTaskFrom true (pop_choices e group 0%nat) group s.1 (lifo_queues_ s.2);
  Ret (t, (h, set_lifo m s.2)).

Definition getTaskFromPriority (e : env) (group : string) (s : qstate)
    : outcome (option loc * qstate) :=
  '(t, h, m) ← getTaskFrom false (pop_choices e group 0%nat) group s.1 (priority_queues_ s.2);
  Ret (t, (h, set_priority_queues m s.2)).

(** The group chosen, and the new value of [current_group_index_]. *)
Definition getNextRoundRobinGroup (names : list string) (index : Z) : outcome (string * Z) :=
  match names with
  | [] => Ret (EmptyString, index)
  | _ =>
      group ← deref (names !! Z.to_nat (index mod w64 (Z.of_nat (length names))));
      Ret (group, w64 (index + 1))
  end.

(** The loop of [getTaskRoundRobin], [n] iterations left. *)
Fixpoint round_robin (e : env) (n : nat) (names : list string) (index : Z) (s : qstate)
    : outcome (option loc * Z * qstate) :=
  match n with
  | O => Ret (None, index, s)
  | S n =>
      '(group, index) ← getNextRoundRobinGroup names index;
      '(t, s) ← getTaskFromFIFO e group s;
      match t with
      | Some _ => Ret (t, index, s)
      | None => round_robin e n names index s
      end
  end.

Definition getTaskRoundRobin (e : env) (names : list string) (index : Z) (s : qstate)
    : outcome (option loc * Z * qstate) :=
  round_robin e (length names) names index s.

(** The scan of [dequeue] in PRIORITY mode: the best priority so far and the group
    that has it. *)
Fixpoint select_group (ts : gmap loc Task) (h : heap) (qs : list (string * LockFreePriorityQueue))
    (highest_priority : Z) (selected_group : string) : outcome string :=
  match qs with
  | [] => Ret selected_group
  | (group, q) :: qs =>
      is_empty ← nq_empty q;
      if is_empty : bool then select_group ts h qs highest_priority selected_group else
      node ← nq_peek q;
      match node with
      | None => select_group ts h qs highest_priority selected_group
      | Some node =>
          n ← deref (h !! node);
          match task n with
          | None => select_group ts h qs highest_priority selected_group
          | Some t =>
              tk ← deref (ts !! t);
              let priority := s32 (priority_ tk) in
              if decide (highest_priority < priority) then select_group ts h qs priority group
              else select_group ts h qs highest_priority selected_group
          end
      end
  end.

(** The [switch] of [dequeue]: the task, the round-robin index, the queues. *)
Definition take_task (e : env) (ts : gmap loc Task) (m : QueueManager) (s : qstate)
    : outcome (option loc * Z * qstate) :=
  let _ := group_order e in
  let index := current_group_index_ m in
  match mode_ m with
  | FIFO =>
      '(t, s) ← first_task (getTaskFromFIFO e) (iter (dom (fifo_queues_ s.2))) s; Ret (t, index, s)
  | LIFO =>
      '(t, s) ← first_task (getTaskFromLIFO e) (iter (dom (lifo_queues_ s.2))) s; Ret (t, index, s)
  | ROUND_ROBIN => getTaskRoundRobin e (group_names_ m) index s
  | PRIORITY =>
      selected_group ← select_group ts s.1 (map_iter (priority_queues_ s.2)) INT_MIN EmptyString;
      if decide (selected_group = EmptyString) then Ret (None, index, s)
      else '(t, s) ← getTaskFromPriority e selected_group s; Ret (t, index, s)
  end.

Definition count_dequeue (wait_time : Z) (m : QueueManager) : QueueManager :=
  let c := counters_ m in
  let m := set_counters (mkCounters (enqueue_count_ c) (w64 (dequeue_count_ c + 1)) (peek_count_ c)
    (cancel_count_ c) (w64 (total_wait_time_ms_ c + wait_time)) (total_execution_time_ms_ c)) m in
  set_total_tasks (w64 (total_tasks_ m - 1)) m.

Definition qm_size (m : QueueManager) : Z := total_tasks_ m.

Definition qm_empty (m : QueueManager) : bool := bool_decide (qm_size m = 0).

(** Wait times are [duration_cast] from nanoseconds to milliseconds. *)
Definition dequeue (e : env) (w : world) : outcome (option loc * world) :=
  if qm_empty (qm w) then Ret (None, w) else
  '(task, index, s) ← take_task e (tasks w) (qm w) (nodes w, queues_ (qm w));
  let m := set_group_index index (set_queues s.2 (qm w)) in
  match task with
  | None => Ret (None, mkWorld s.1 (tasks w) m)
  | Some t =>
      tk ← deref (tasks w !! t);
      let tk := set_dequeued_at (now e) tk in
      let wait_time := Z.quot (dequeued_at_ tk - enqueued_at_ tk) 1000000 in
      Ret (Some t, mkWorld s.1 (<[t := tk]> (tasks w)) (count_dequeue wait_time m))
  end.

(** ** Peek, clear, lookup *)

Fixpoint peek_priority (ts : gmap loc Task) (h : heap) (qs : list LockFreePriorityQueue)
    (highest_priority : Z) (highest_task : option loc) : outcome (option loc) :=
  match qs with
  | [] => Ret highest_task
  | q :: qs =>
      node ← nq_peek q;
      match node with
      | None => peek_priority ts h qs highest_priority highest_task
      | Some node =>
          n ← deref (h !! node);
          match task n with
          | None => peek_priority ts h qs highest_priority highest_task
          | Some t =>
              tk ← deref (ts !! t);
              let priority := s32 (priority_ tk) in
              if decide (highest_priority < priority) then peek_priority ts h qs priority (Some t)
              else peek_priority ts h qs highest_priority highest_task
          end
      end
  end.

Definition count_peek (m : QueueManager) : QueueManager :=
  let c := counters_ m in
  set_counters (mkCounters (enqueue_count_ c) (dequeue_count_ c) (w64 (peek_count_ c + 1))
    (cancel_count_ c) (total_wait_time_ms_ c) (total_execution_time_ms_ c)) m.

Definition peek (e : env) (w : world) : outcome (option loc * world) :=
  let _ := group_order e in
  let qs := queues_ (qm w) in
  t ← match mode_ (qm w) with
      | FIFO | ROUND_ROBIN => peek_groups (nodes w) (map_iter (fifo_queues_ qs)).*2
      | LIFO => peek_groups (nodes w) (map_iter (lifo_queues_ qs)).*2
      | PRIORITY => peek_priority (tasks w) (nodes w) (map_iter (priority_queues_ qs)).*2 INT_MIN None
      end;
  Ret (t, mkWorld (nodes w) (tasks w) (count_peek (qm w))).

(** The queues are destroyed without their nodes. *)
Definition clear (w : world) : world :=
  mkWorld (nodes w) (tasks w) (set_total_tasks 0 (set_task_map ∅ (set_queues no_queues (qm w)))).

Definition findTask (id : Z) (w : world) : option loc := task_map_ (qm w) !! id.

Definition count_cancel (m : QueueManager) : QueueManager :=
  let c := counters_ m in
  let m := set_counters (mkCounters (enqueue_count_ c) (dequeue_count_ c) (peek_count_ c)
    (w64 (cancel_count_ c + 1)) (total_wait_time_ms_ c) (total_execution_time_ms_ c)) m in
  set_total_tasks (w64 (total_tasks_ m - 1)) m.

Definition cancelTask (e : env) (id : Z) (w : world) : outcome (bool * world) :=
  match findTask id w with
  | None => Ret (false, w)
  | Some t =>
      tk ← deref (tasks w !! t);
      if decide (status_ tk = QUEUED) then
        Ret (true, mkWorld (nodes w) (<[t := markCancelled (now e) tk]> (tasks w))
                     (count_cancel (removeTaskFromMap id (qm w))))
      else Ret (false, w)
  end.

(** ** Dependencies *)

Definition qm_addDependency (dependent dependency : Z) (w : world) : outcome world :=
  let m := set_graph (graph_addDependency dependent dependency (dependency_graph_ (qm w))) (qm w) in
  let w := mkWorld (nodes w) (tasks w) m in
  match findTask dependent w, findTask dependency w with
  | Some dep_task, Some req_task =>
      tk ← deref (tasks w !! dep_task);
      Ret (mkWorld (nodes w) (<[dep_task := addDependency req_task tk]> (tasks w)) m)
  | _, _ => Ret w
  end.

Definition qm_removeDependency (dependent dependency : Z) (w : world) : world :=
  mkWorld (nodes w) (tasks w)
    (set_graph (graph_removeDependency dependent dependency (dependency_graph_ (qm w))) (qm w)).

Fixpoint all_completed (w : world) (deps : list Z) : outcome bool :=
  match deps with
  | [] => Ret true
  | dep_id :: deps =>
      match findTask dep_id w with
      | None => Ret false
      | Some t =>
          tk ← deref (tasks w !! t);
          if decide (status_ tk = COMPLETED) then all_completed w deps else Ret false
      end
  end.

Definition qm_areDependenciesMet (e : env) (id : Z) (w : world) : outcome bool :=
  let _ := id_order e in
  let deps := getDependencies id (dependency_graph_ (qm w)) in
  if decide (deps = ∅) then Ret true else all_completed w (iter deps).

(** [names[id] = ...; statuses[id] = ...] for the ids that have a task. *)
Fixpoint describe_ids (w : world) (ids : list Z) (names : gmap Z string) (statuses : gmap Z TaskStatus)
    : outcome (gmap Z string * gmap Z TaskStatus) :=
  match ids with
  | [] => Ret (names, statuses)
  | id :: ids =>
      match findTask id w with
      | None => describe_ids w ids names statuses
      | Some t =>
          tk ← deref (tasks w !! t);
          describe_ids w ids (<[id := name_ tk]> names) (<[id := status_ tk]> statuses)
      end
  end.

Definition generateDependencyGraph (e : env) (rootId : Z) (w : world) : outcome string :=
  let _ := id_order e in
  subgraph ← getSubgraph rootId (dependency_graph_ (qm w));
  '(names, statuses) ← describe_ids w (iter (dom subgraph)) ∅ ∅;
  Ret (generateDOTGraph subgraph names statuses).

Definition getCriticalPath (e : env) (rootId : Z) (w : world) : outcome (list Z) :=
  let _ := id_order e in
  subgraph ← getSubgraph rootId (dependency_graph_ (qm w));
  findCriticalPath subgraph.

(** ** Changing the mode *)

(** The first [switch] of [setMode]. *)
Definition drain (e : env) (m : QueueManager) (h : heap) : outcome (heap * list (string * loc)) :=
  let _ := group_order e in
  match mode_ m with
  | FIFO | ROUND_ROBIN => drain_groups true (pop_choices e) (map_iter (fifo_queues_ (queues_ m))) h []
  | LIFO => drain_groups true (pop_choices e) (map_iter (lifo_queues_ (queues_ m))) h []
  | PRIORITY => drain_groups false (pop_choices e) (map_iter (priority_queues_ (queues_ m))) h []
  end.

(** The loop that files the tasks again under the new mode. *)
Fixpoint refill (e : env) (mode : QueueMode) (ts : gmap loc Task) (all_tasks : list (string * loc))
    (h : heap) (qs : Queues) : outcome (heap * Queues) :=
  match all_tasks with
  | [] => Ret (h, qs)
  | (group, t) :: all_tasks =>
      let '(node, h) := new_TaskNode h (Some t) in
      '(h, qs) ← push_node e mode ts group t node h qs;
      refill e mode ts all_tasks h qs
  end.

Definition setMode (e : env) (mode : QueueMode) (w : world) : outcome world :=
  if decide (mode_ (qm w) = mode) then Ret w else
  '(h, all_tasks) ← drain e (qm w) (nodes w);
  let m := set_mode mode (set_queues no_queues (qm w)) in
  '(h, qs) ← refill e mode (tasks w) all_tasks h (queues_ m);
  Ret (mkWorld h (tasks w) (set_queues qs m)).

Definition getMode (w : world) : QueueMode := mode_ (qm w).

(** ** Statistics *)

Definition getQueueSizes (w : world) : gmap string Z :=
  let qs := queues_ (qm w) in
  match mode_ (qm w) with
  | FIFO | ROUND_ROBIN => nq_size <$> fifo_queues_ qs
  | LIFO => nq_size <$> lifo_queues_ qs
  | PRIORITY => nq_size <$> priority_queues_ qs
  end.

(** A [double] by the expression that computes it. *)
Inductive metric : Type :=
| FromInt (n : Z)
| Quotient (n d : Z).

Definition getMetrics (m : QueueManager) : gmap string metric :=
  let c := counters_ m in
  let completed := dequeue_count_ c in
  let metrics : gmap string metric :=
    {["total_tasks" := FromInt (total_tasks_ m); "enqueue_count" := FromInt (enqueue_count_ c);
      "dequeue_count" := FromInt (dequeue_count_ c); "peek_count" := FromInt (peek_count_ c);
      "cancel_count" := FromInt (cancel_count_ c)]} in
  if decide (0 < completed) then
    <["avg_execution_time_ms" := Quotient (total_execution_time_ms_ c) completed]>
      (<["avg_wait_time_ms" := Quotient (total_wait_time_ms_ c) completed]> metrics)
  else <["avg_execution_time_ms" := FromInt 0]> (<["avg_wait_time_ms" := FromInt 0]> metrics).
End manager.
