(* ===== verification/GroupQueues.v ===== *)
(** * Groups of queues: what the manager's loops do, against the queue interface

    The manager keeps, per mode, a map from group names to queues of one class.
    This file proves the loops of QueueManager.v over such a map once, for any
    class that satisfies [NodeQueueLaws]: the map is described by the list of the
    tasks of each group in release order ([groups_ok]). *)

From S2P Require Import Prelude Task NodeQueue LockFree SkipList QueueManager.

(** The tasks of each group, in the order they will be released. *)
Abbreviation filing := (gmap string (list loc)) (only parsing).

Definition node_task (h : heap) (l : loc) : option loc := h !! l ≫= task.

Definition task_at (h : heap) (l : loc) : loc := default 1%positive (node_task h l).

(** Where a queue class files a task among the ones it holds, by the task's priority. *)
Class FilesTasks (Q : Type) `{NodeQueueLaws Q} := {
  file_task : (loc → Z) → loc → list loc → list loc;
  file_task_spec (pr : loc → Z) (f : loc → loc) l xs :
    (∀ l' p', (l', p') ∈ xs → pr (f l') = p') →
    f <$> (nq_insert l (pr (f l)) xs).*1 = file_task pr (f l) (f <$> xs.*1)
}.

Fixpoint prio_insert (pr : loc → Z) (t : loc) (ts : list loc) : list loc :=
  match ts with
  | [] => [t]
  | t' :: ts' => if decide (pr t < pr t') then t' :: prio_insert pr t ts' else t :: ts
  end.

#[export] Instance LockFreeQueue_files : FilesTasks LockFreeQueue.
Proof.
  refine {| file_task _ t ts := ts ++ [t] |}. intros. cbn. unfold fifo_insert. by rewrite !fmap_app.
Defined.

#[export] Instance LockFreeStack_files : FilesTasks LockFreeStack.
Proof. refine {| file_task _ t ts := t :: ts |}. intros. done. Defined.

Lemma prio_insert_spec pr f l xs :
  (∀ l' p', (l', p') ∈ xs → pr (f l') = p') →
  f <$> (pq_insert l (pr (f l)) xs).*1 = prio_insert pr (f l) (f <$> xs.*1).
Proof.
  induction xs as [|[l' p'] xs IH]; intros Hpr; cbn; [done|].
  rewrite (Hpr l' p') by set_solver. case_decide; cbn; [|done]. rewrite IH by set_solver. done.
Qed.

#[export] Instance LockFreePriorityQueue_files `{SearchLoop} : FilesTasks LockFreePriorityQueue.
Proof. refine {| file_task := prio_insert |}. apply prio_insert_spec. Defined.

Section groups.
Context {Q : Type} `{NQ : NodeQueue Q} `{NQL : !NodeQueueLaws Q} `{FT : !FilesTasks Q}.

(** Per group, the nodes a map of queues holds. *)
Record group_rep (pr : loc → Z) (h : heap) (M : gmap string Q) (N : gmap string (list (loc * Z)))
    : Prop := {
  gr_dom : dom M = dom N;
  gr_at g q xs : M !! g = Some q → N !! g = Some xs → nq_rep h q xs;
  gr_disj g1 g2 xs1 xs2 l : N !! g1 = Some xs1 → N !! g2 = Some xs2 →
    l ∈ xs1.*1 → l ∈ xs2.*1 → g1 = g2;
  gr_task g xs l : N !! g = Some xs → l ∈ xs.*1 → is_Some (node_task h l);
  gr_prio g xs l p : N !! g = Some xs → (l, p) ∈ xs → pr (task_at h l) = p
}.

Definition view (h : heap) (N : gmap string (list (loc * Z))) : filing :=
  (λ xs, task_at h <$> xs.*1) <$> N.

(** The queues of [M] hold the tasks of [V], group by group. *)
Definition groups_ok (pr : loc → Z) (h : heap) (M : gmap string Q) (V : filing) : Prop :=
  ∃ N, group_rep pr h M N ∧ V = view h N.

Lemma groups_ok_empty pr h : groups_ok pr h ∅ ∅.
Proof.
  exists ∅. split; [|by unfold view; rewrite fmap_empty]. split; set_solver.
Qed.

Lemma view_ext h h' N :
  (∀ g xs l, N !! g = Some xs → l ∈ xs.*1 → node_task h' l = node_task h l) → view h' N = view h N.
Proof.
  intros Heq. unfold view. apply map_eq. intros g. rewrite !lookup_fmap.
  destruct (N !! g) as [xs|] eqn:Hg; cbn; [|done]. f_equal. apply list_fmap_ext.
  intros i l Hl. unfold task_at. rewrite (Heq g xs); [done|done|]. by eapply list_elem_of_lookup_2.
Qed.

Lemma task_at_eq h l t : node_task h l = Some t → task_at h l = t.
Proof. unfold task_at. by intros ->. Qed.

(** Priorities of tasks that are not queued do not matter. *)
Lemma groups_ok_ext pr pr' h M V :
  (∀ g ts t, V !! g = Some ts → t ∈ ts → pr' t = pr t) → groups_ok pr h M V → groups_ok pr' h M V.
Proof.
  intros Heq (N & [Hdom Hat Hdisj Htask Hprio] & ->). exists N. split; [|done]. split; try done.
  intros g xs l p Hg Hl. rewrite <-(Hprio g xs l p Hg Hl). apply (Heq g (task_at h <$> xs.*1)).
  - unfold view. by rewrite lookup_fmap, Hg.
  - apply list_elem_of_fmap. exists l. split; [done|]. apply list_elem_of_fmap. by exists (l, p).
Qed.

(** The queues do not see nodes that are not theirs. *)
Lemma group_rep_frame pr h h' M N :
  (∀ g xs l, N !! g = Some xs → l ∈ xs.*1 → h' !! l = h !! l) →
  group_rep pr h M N → group_rep pr h' M N.
Proof.
  intros Heq [Hdom Hat Hdisj Htask Hprio].
  assert (Hnt : ∀ g xs l, N !! g = Some xs → l ∈ xs.*1 → node_task h' l = node_task h l).
  { intros. unfold node_task. by erewrite Heq. }
  split; [done| |done| |].
  - intros g q xs Hq Hxs. eapply nq_rep_frame; [|by eapply Hat]. intros l Hl. by eapply Heq.
  - intros g xs l Hxs Hl. erewrite Hnt by done. eauto.
  - intros g xs l p Hxs Hl. rewrite <-(Hprio g xs l p) by done. unfold task_at.
    erewrite Hnt; [done..|]. apply list_elem_of_fmap. by exists (l, p).
Qed.

Lemma group_rep_lookup pr h M N g :
  group_rep pr h M N →
  match N !! g with
  | Some xs => ∃ q, M !! g = Some q ∧ nq_rep h q xs
  | None => M !! g = None
  end.
Proof.
  intros [Hdom Hat _ _ _]. destruct (N !! g) as [xs|] eqn:Hg.
  - assert (g ∈ dom M) as [q Hq]%elem_of_dom by (rewrite Hdom; by eapply elem_of_dom_2). eauto.
  - apply not_elem_of_dom. rewrite Hdom. by apply not_elem_of_dom.
Qed.

(** One queue of the map changes, and with it only its own nodes. *)
Lemma group_rep_update pr h h' M N g q ys :
  group_rep pr h M N → nq_rep h' q ys →
  (∀ l, l ∈ ys.*1 → l ∈ (default [] (N !! g)).*1 ∨ h !! l = None) →
  (∀ l, l ∉ (default [] (N !! g)).*1 → is_Some (h !! l) → h' !! l = h !! l) →
  (∀ l p, (l, p) ∈ ys → is_Some (node_task h' l) ∧ pr (task_at h' l) = p) →
  group_rep pr h' (<[g := q]> M) (<[g := ys]> N).
Proof.
  intros Hrep Hq Hys Hframe Hnew. pose proof Hrep as [Hdom Hat Hdisj Htask Hprio].
  assert (Hother : ∀ g' xs l, g' ≠ g → N !! g' = Some xs → l ∈ xs.*1 →
    l ∉ (default [] (N !! g)).*1 ∧ h' !! l = h !! l).
  { intros g' xs l Hne Hg' Hl. assert (Hn : l ∉ (default [] (N !! g)).*1).
    { destruct (N !! g) as [zs|] eqn:Hg; cbn; [|set_solver]. intros Hl'. eauto. }
    split; [done|]. apply Hframe; [done|]. destruct (Htask g' xs l) as [t Ht]; [done..|].
    unfold node_task in Ht. destruct (h !! l); [eauto|done]. }
  assert (Hmem : ∀ (ys' : list (loc * Z)) l p, (l, p) ∈ ys' → l ∈ ys'.*1).
  { intros ys' l p Hl. apply list_elem_of_fmap. by exists (l, p). }
  split.
  - rewrite !dom_insert_L. by rewrite Hdom.
  - intros g' q' xs [[<- <-]|[Hne Hq']]%lookup_insert_Some [[? <-]|[? Hxs]]%lookup_insert_Some;
      try done. eapply nq_rep_frame; [|by eapply Hat]. intros l Hl. by eapply Hother.
  - intros g1 g2 xs1 xs2 l [[<- <-]|[Hne1 H1]]%lookup_insert_Some
      [[<- <-]|[Hne2 H2]]%lookup_insert_Some Hl1 Hl2; [done|exfalso..|by eapply Hdisj].
    + destruct (Hother g2 xs2 l) as [Hn _]; [done..|]. destruct (Hys l Hl1) as [?|Hnone]; [done|].
      destruct (Htask g2 xs2 l) as [t Ht]; [done..|]. unfold node_task in Ht. by rewrite Hnone in Ht.
    + destruct (Hother g1 xs1 l) as [Hn _]; [done..|]. destruct (Hys l Hl2) as [?|Hnone]; [done|].
      destruct (Htask g1 xs1 l) as [t Ht]; [done..|]. unfold node_task in Ht. by rewrite Hnone in Ht.
  - intros g' xs l [[<- <-]|[Hne Hxs]]%lookup_insert_Some Hl.
    + apply list_elem_of_fmap in Hl as ([l' p] & -> & Hl). by apply (Hnew l' p).
    + unfold node_task. destruct (Hother g' xs l) as [_ ->]; [done..|]. by eapply Htask.
  - intros g' xs l p [[<- <-]|[Hne Hxs]]%lookup_insert_Some Hl; [by apply Hnew|].
    unfold task_at, node_task. destruct (Hother g' xs l) as [_ ->]; [done..|by eapply Hmem|].
    by eapply Hprio.
Qed.

Lemma view_update h h' N g ys :
  (∀ g' xs l, g' ≠ g → N !! g' = Some xs → l ∈ xs.*1 → node_task h' l = node_task h l) →
  view h' (<[g := ys]> N) = <[g := task_at h' <$> ys.*1]> (view h N).
Proof.
  intros Heq. unfold view. rewrite fmap_insert. apply map_eq. intros g'. rewrite !lookup_insert.
  case_decide; [done|]. rewrite !lookup_fmap. destruct (N !! g') as [xs|] eqn:Hg; cbn; [|done].
  f_equal. apply list_fmap_ext. intros i l Hl. unfold task_at. rewrite (Heq g' xs l); [done..|].
  by eapply list_elem_of_lookup_2.
Qed.

Lemma view_lookup h N g : view h N !! g = (λ xs, task_at h <$> xs.*1) <$> N !! g.
Proof. unfold view. by rewrite lookup_fmap. Qed.

Lemma view_default h N g : task_at h <$> (default [] (N !! g)).*1 = default [] (view h N !! g).
Proof. rewrite view_lookup. by destruct (N !! g). Qed.

Lemma same_tasks_node_task h h' l : same_tasks h h' → node_task h' l = node_task h l.
Proof.
  intros Hst. specialize (Hst l). unfold node_task.
  destruct (h !! l), (h' !! l); cbn in *; congruence.
Qed.

Lemma queue_at_rep pr h M N g :
  group_rep pr h M N → nq_rep h (queue_at M g) (default [] (N !! g)).
Proof.
  intros Hrep. unfold queue_at. pose proof (group_rep_lookup _ _ _ _ g Hrep) as Hg.
  destruct (N !! g); [by destruct Hg as (q & -> & ?)|]. rewrite Hg. apply nq_rep_new.
Qed.

Lemma group_rep_node_live pr h M N g l :
  group_rep pr h M N → l ∈ (default [] (N !! g)).*1 → is_Some (h !! l).
Proof. intros Hrep Hl. eapply nq_rep_live; [by eapply queue_at_rep|done]. Qed.

(** Adding a node just allocated for a task files the task in its group. *)
Lemma push_group_ok c pr h M V g t :
  nq_ok c → groups_ok pr h M V →
  ∃ h' M', push_group c (new_TaskNode h (Some t)).2 M g (new_TaskNode h (Some t)).1 (pr t)
      = Ret (h', M') ∧
    groups_ok pr h' M' (<[g := file_task pr t (default [] (V !! g))]> V).
Proof.
  intros Hc (N & Hrep & ->). unfold push_group, new_TaskNode. cbn.
  set (l := fresh (dom h)). set (h1 := <[l := mkNode None (Some t)]> h).
  assert (Hl : h !! l = None) by (apply not_elem_of_dom, is_fresh).
  set (xs := default [] (N !! g)).
  assert (Hxl : l ∉ xs.*1).
  { intros Hx. eapply group_rep_node_live in Hx; [|done]. rewrite Hl in Hx. by destruct Hx. }
  assert (Hrep1 : group_rep pr h1 M N).
  { eapply group_rep_frame; [|done]. intros g' xs' l' Hg' Hl'. apply lookup_insert_ne. intros <-.
    assert (Hx : l ∈ (default [] (N !! g')).*1) by (by rewrite Hg').
    eapply group_rep_node_live in Hx; [|done]. rewrite Hl in Hx. by destruct Hx. }
  destruct (nq_push_spec c h1 (queue_at M g) xs l (pr t)) as (h2 & q2 & -> & Hrep2 & Hst & Hfr).
  { done. } { by eapply queue_at_rep. } { unfold h1. by rewrite lookup_insert_eq. } { done. }
  cbn. exists h2, (<[g := q2]> M). split; [done|].
  assert (Hnt : ∀ l', node_task h2 l' = if decide (l = l') then Some t else node_task h l').
  { intros l'. rewrite (same_tasks_node_task h1) by done. unfold node_task, h1. rewrite lookup_insert.
    by case_decide. }
  assert (Hold : ∀ g' zs l', N !! g' = Some zs → l' ∈ zs.*1 → l ≠ l').
  { intros g' zs l' Hg' Hl' <-. destruct (gr_task _ _ _ _ Hrep g' zs l) as [t' Ht']; [done..|].
    unfold node_task in Ht'. by rewrite Hl in Ht'. }
  assert (Hoxs : ∀ l', l' ∈ xs.*1 → l ≠ l') by (intros l' Hl' <-; done).
  exists (<[g := nq_insert l (pr t) xs]> N). split.
  - eapply group_rep_update; [exact Hrep|done|..].
    + intros l'. rewrite nq_insert_perm. cbn. intros [->|?]%elem_of_cons; [by right|by left].
    + intros l' Hn Hs. rewrite Hfr; [|by intros ->; rewrite Hl in Hs; destruct Hs|done].
      unfold h1. apply lookup_insert_ne. intros <-. rewrite Hl in Hs. by destruct Hs.
    + intros l' p'. rewrite nq_insert_perm. unfold task_at. rewrite Hnt. intros [[= -> ->]|Hin]%elem_of_cons.
      * rewrite decide_True by done. eauto.
      * assert (Hin1 : l' ∈ xs.*1) by (apply list_elem_of_fmap; by exists (l', p')).
        rewrite decide_False by auto. destruct (N !! g) as [zs|] eqn:Hg; unfold xs in *; cbn in *; [|set_solver].
        split; [by eapply gr_task|by eapply (gr_prio _ _ _ _ Hrep)].
  - rewrite (view_update h).
    2: { intros g' zs l' _ Hg' Hl'. rewrite Hnt, decide_False; [done|exact (Hold _ _ _ Hg' Hl')]. }
    f_equal. rewrite <-view_default. fold xs.
    assert (Ht : t = task_at h2 l) by (unfold task_at; by rewrite Hnt, decide_True).
    assert (Hts : ∀ l', l' ∈ xs.*1 → task_at h2 l' = task_at h l').
    { intros l' Hl'. unfold task_at. rewrite Hnt, decide_False; auto. }
    symmetry. transitivity (task_at h2 <$> (nq_insert l (pr (task_at h2 l)) xs).*1); [by rewrite <-Ht|].
    rewrite file_task_spec.
    + rewrite <-Ht. f_equal. apply list_fmap_ext. intros i l' Hl'. apply Hts. by eapply list_elem_of_lookup_2.
    + intros l' p' Hin. rewrite Hts by (apply list_elem_of_fmap; by exists (l', p')).
      unfold xs in Hin. destruct (N !! g) as [zs|] eqn:Hg; cbn in *; [|set_solver].
      by eapply (gr_prio _ _ _ _ Hrep).
Qed.

(** Taking from a group releases its first task. *)
Lemma getTaskFrom_ok deletes c pr h M V g :
  nq_ok c → groups_ok pr h M V →
  match V !! g with
  | Some (t :: ts) => ∃ h' M', getTaskFrom deletes c g h M = Ret (Some t, h', M') ∧
      groups_ok pr h' M' (<[g := ts]> V)
  | _ => getTaskFrom deletes c g h M = Ret (None, h, M)
  end.
Proof.
  intros Hc (N & Hrep & ->). unfold getTaskFrom. rewrite view_lookup.
  pose proof (group_rep_lookup _ _ _ _ g Hrep) as Hg.
  destruct (N !! g) as [xs|] eqn:HN; cbn; [|by rewrite Hg].
  destruct Hg as (q & Hq & Hrq). rewrite Hq. rewrite (nq_empty_spec h q xs) by done. cbn.
  destruct xs as [|[l p] xs]; cbn; [done|].
  destruct (nq_pop_spec c h q ((l, p) :: xs) Hc Hrq) as (q' & -> & Hrq'). cbn.
  destruct (gr_task _ _ _ _ Hrep g _ l HN) as [t Ht]; [set_solver|]. rewrite (task_at_eq _ _ _ Ht).
  pose proof Ht as Htn. unfold node_task in Htn. destruct (h !! l) as [n|] eqn:Hn; cbn in *; [|done].
  rewrite Htn. do 2 eexists. split; [done|].
  set (h' := if deletes then delete l h else h).
  assert (Hl : l ∉ xs.*1).
  { apply nq_rep_nodup in Hrq. by apply NoDup_cons in Hrq as [? _]. }
  assert (Hh' : ∀ l', l' ≠ l → h' !! l' = h !! l').
  { intros l' Hne. unfold h'. destruct deletes; [|done]. by apply lookup_delete_ne. }
  assert (Hxs : ∀ l', l' ∈ xs.*1 → l' ≠ l) by (intros l' Hl' ->; done).
  exists (<[g := xs]> N). split.
  - eapply group_rep_update; [done| |..]; rewrite ?HN; cbn.
    + eapply nq_rep_frame; [|done]. auto.
    + intros l' Hl'. left. set_solver.
    + intros l' Hl' _. apply Hh'. set_solver.
    + intros l' p' Hin. assert (Hin' : l' ∈ xs.*1) by (apply list_elem_of_fmap; by exists (l', p')).
      unfold task_at, node_task. rewrite Hh' by auto.
      split; [eapply (gr_task _ _ _ _ Hrep); [done|set_solver]|].
      eapply (gr_prio _ _ _ _ Hrep); [done|set_solver].
  - rewrite (view_update h).
    + f_equal. apply list_fmap_ext. intros i l' Hl'. unfold task_at, node_task. rewrite Hh'; [done|].
      apply Hxs. by eapply list_elem_of_lookup_2.
    + intros g' zs l' Hne Hg' Hl'. unfold node_task. rewrite Hh'; [done|]. intros ->. apply Hne.
      eapply (gr_disj _ _ _ _ Hrep); [done|done|done|set_solver].
Qed.

(** What the manager reads of a queue without changing it. *)
Lemma inspect_ok pr h M V g q ts :
  groups_ok pr h M V → M !! g = Some q → V !! g = Some ts →
  nq_empty q = Ret (bool_decide (ts = [])) ∧ nq_size q = w64 (Z.of_nat (length ts)) ∧
  match ts with
  | [] => nq_peek q = Ret None
  | t :: _ => ∃ l n, nq_peek q = Ret (Some l) ∧ h !! l = Some n ∧ task n = Some t
  end.
Proof.
  intros (N & Hrep & ->) Hq. rewrite view_lookup. destruct (N !! g) as [xs|] eqn:HN; [|done].
  intros [= <-]. pose proof (gr_at _ _ _ _ Hrep g q xs Hq HN) as Hr.
  rewrite (nq_empty_spec h q xs), (nq_size_spec h q xs), (nq_peek_spec h q xs) by done.
  split; [f_equal; apply bool_decide_ext; by destruct xs|]. rewrite !length_fmap. split; [done|].
  destruct xs as [|[l p] xs]; cbn; [done|].
  destruct (gr_task _ _ _ _ Hrep g _ l HN) as [t Ht]; [set_solver|]. rewrite (task_at_eq _ _ _ Ht).
  unfold node_task in Ht. destruct (h !! l) as [n|] eqn:Hn; cbn in Ht; [|done]. eauto.
Qed.

Lemma groups_ok_dom pr h M V : groups_ok pr h M V → dom M = dom V.
Proof. intros (N & Hrep & ->). unfold view. rewrite dom_fmap_L. by destruct Hrep. Qed.

Lemma groups_ok_delete pr h M V g : groups_ok pr h M V → groups_ok pr h (delete g M) (delete g V).
Proof.
  intros (N & [Hdom Hat Hdisj Htask Hprio] & ->). exists (delete g N).
  split; [|unfold view; by rewrite fmap_delete]. split.
  - rewrite !dom_delete_L. by rewrite Hdom.
  - intros g' q xs [_ ?]%lookup_delete_Some [_ ?]%lookup_delete_Some. eauto.
  - intros g1 g2 xs1 xs2 l [_ ?]%lookup_delete_Some [_ ?]%lookup_delete_Some. eauto.
  - intros g' xs l [_ ?]%lookup_delete_Some. eauto.
  - intros g' xs l p [_ ?]%lookup_delete_Some. eauto.
Qed.

(** Each queued task has a live node of its own. *)
Lemma groups_ok_length pr h M V g ts :
  groups_ok pr h M V → V !! g = Some ts → (length ts ≤ size h)%nat.
Proof.
  intros (N & Hrep & ->). rewrite view_lookup. destruct (N !! g) as [xs|] eqn:HN; [|done].
  intros [= <-]. rewrite length_fmap. pose proof (queue_at_rep _ _ _ _ g Hrep) as Hq.
  rewrite HN in Hq. cbn in Hq. pose proof (nq_rep_nodup _ _ _ Hq) as Hnd.
  rewrite <-(size_list_to_set (C := gset loc) xs.*1) by done. rewrite <-size_dom.
  apply subseteq_size. intros l. rewrite elem_of_list_to_set, elem_of_dom. intros Hl.
  by eapply nq_rep_live.
Qed.

(** One turn of the draining loop is one [getTaskFrom]. *)
Lemma drain_queue_step deletes c fuel g h M q all t h' M' :
  M !! g = Some q → getTaskFrom deletes (c fuel) g h M = Ret (Some t, h', M') →
  ∃ q', M' = <[g := q']> M ∧
    drain_queue deletes c (S fuel) g h q all = drain_queue deletes c fuel g h' q' (all ++ [(g, t)]).
Proof.
  intros Hq. unfold getTaskFrom. rewrite Hq. cbn [drain_queue].
  destruct (nq_empty q) as [[]| | |]; cbn; try done.
  destruct (nq_pop (c fuel) h q) as [[[l|] q']| | |]; cbn; try done.
  destruct (h !! l) as [n|]; cbn; [|done]. intros [= Ht <- <-]. rewrite Ht. eauto.
Qed.

Lemma drain_queue_ok deletes c pr fuel g h M V q ts all :
  (∀ n, nq_ok (c n)) → groups_ok pr h M V → M !! g = Some q → V !! g = Some ts →
  (length ts ≤ fuel)%nat →
  ∃ h', drain_queue deletes c fuel g h q all = Ret (h', all ++ ((g,.) <$> ts)) ∧
    groups_ok pr h' (delete g M) (delete g V).
Proof.
  intros Hc. revert h M V q ts all. induction fuel as [|fuel IH]; intros h M V q ts all Hok Hq Hts Hlen.
  - destruct (inspect_ok _ _ _ _ _ _ _ Hok Hq Hts) as (He & _). destruct ts; [|cbn in Hlen; lia].
    cbn. rewrite He. cbn. exists h. rewrite app_nil_r. split; [done|by apply groups_ok_delete].
  - destruct ts as [|t ts].
    + destruct (inspect_ok _ _ _ _ _ _ _ Hok Hq Hts) as (He & _).
      cbn. rewrite He. cbn. exists h. rewrite app_nil_r. split; [done|by apply groups_ok_delete].
    + pose proof (getTaskFrom_ok deletes (c fuel) pr h M V g (Hc fuel) Hok) as Hget. rewrite Hts in Hget.
      destruct Hget as (h' & M' & Hget & Hok').
      destruct (drain_queue_step _ _ _ _ _ _ _ all _ _ _ Hq Hget) as (q' & -> & ->).
      destruct (IH h' (<[g := q']> M) (<[g := ts]> V) q' ts (all ++ [(g, t)])) as (h'' & -> & Hok'');
        [done|apply lookup_insert_eq|apply lookup_insert_eq|cbn in Hlen; lia|].
      exists h''. rewrite <-app_assoc. split; [done|]. by rewrite !delete_insert_eq in Hok''.
Qed.

(** Draining the groups of [L] lists their tasks, group after group. *)
Lemma drain_groups_ok deletes c pr L h M V all :
  (∀ g n, nq_ok (c g n)) → groups_ok pr h M V → NoDup L.*1 → (∀ g q, (g, q) ∈ L → M !! g = Some q) →
  ∃ h', drain_groups deletes c L h all
      = Ret (h', all ++ (g ← L.*1; (g,.) <$> default [] (V !! g))).
Proof.
  intros Hc. revert h M V all. induction L as [|[g q] L IH]; intros h M V all Hok Hnd HL; cbn.
  { exists h. by rewrite app_nil_r. }
  apply NoDup_cons in Hnd as [Hg Hnd]. assert (Hq : M !! g = Some q) by (apply HL; set_solver).
  assert (g ∈ dom V) as [ts Hts]%elem_of_dom.
  { erewrite <-groups_ok_dom by done. by eapply elem_of_dom_2. }
  destruct (drain_queue_ok deletes (c g) pr (size h) g h M V q ts all) as (h' & -> & Hok');
    [done..|by eapply groups_ok_length|]. cbn.
  destruct (IH h' (delete g M) (delete g V) (all ++ ((g,.) <$> ts))) as (h'' & ->); [done|done| |].
  { intros g' q' Hin. rewrite lookup_delete_ne; [apply HL; set_solver|]. intros <-. apply Hg.
    apply list_elem_of_fmap. by exists (g, q'). }
  exists h''. rewrite Hts, <-app_assoc. cbn. do 4 f_equal.
  apply Forall_bind_ext, Forall_forall. intros g' Hg'. by rewrite lookup_delete_ne by (intros <-; done).
Qed.

(** A queued task is held by a node. *)
Lemma groups_ok_node pr h M V g ts t :
  groups_ok pr h M V → V !! g = Some ts → t ∈ ts → ∃ l, node_task h l = Some t.
Proof.
  intros (N & Hrep & ->). rewrite view_lookup. destruct (N !! g) as [xs|] eqn:HN; [|done].
  intros [= <-] (l & -> & Hl)%list_elem_of_fmap. exists l.
  destruct (gr_task _ _ _ _ Hrep g xs l HN Hl) as [t' Ht']. by rewrite (task_at_eq _ _ _ Ht').
Qed.

Lemma groups_ok_sizes pr h M V :
  groups_ok pr h M V → nq_size <$> M = (λ ts, w64 (Z.of_nat (length ts))) <$> V.
Proof.
  intros Hok. apply map_eq. intros g. rewrite !lookup_fmap.
  pose proof (groups_ok_dom _ _ _ _ Hok) as Hdom.
  destruct (M !! g) as [q|] eqn:Hq.
  - assert (g ∈ dom V) as [ts Hts]%elem_of_dom by (rewrite <-Hdom; by eapply elem_of_dom_2).
    destruct (inspect_ok _ _ _ _ _ _ _ Hok Hq Hts) as (_ & Hs & _). rewrite Hts. cbn. by rewrite Hs.
  - assert (V !! g = None) as ->; [|done]. apply not_elem_of_dom. rewrite <-Hdom. by apply not_elem_of_dom.
Qed.
End groups.

(** ** The loops that take a task *)

(** [get] takes the first task of a group from a state that holds [V]. *)
Definition takes {S} (holds : S → filing → Prop) (get : string → S → outcome (option loc * S)) : Prop :=
  ∀ g s V, holds s V →
    match V !! g with
    | Some (t :: ts) => ∃ s', get g s = Ret (Some t, s') ∧ holds s' (<[g := ts]> V)
    | _ => get g s = Ret (None, s)
    end.

Lemma first_task_ok {S} (holds : S → filing → Prop) get groups s V :
  takes holds get → holds s V →
  (first_task get groups s = Ret (None, s) ∧ ∀ g, g ∈ groups → default [] (V !! g) = []) ∨
  (∃ g t ts s', first_task get groups s = Ret (Some t, s') ∧ V !! g = Some (t :: ts) ∧
    holds s' (<[g := ts]> V)).
Proof.
  intros Hget Hs. induction groups as [|g groups IH]; cbn; [left; set_solver|].
  specialize (Hget g s V Hs). destruct (V !! g) as [[|t ts]|] eqn:Hg.
  2: { destruct Hget as (s' & -> & Hs'). right. exists g, t, ts, s'. done. }
  all: rewrite Hget; cbn; destruct IH as [[-> Hall]|?]; [left|by right]; split; [done|];
    intros g' [->|?]%elem_of_cons; [by rewrite Hg|auto].
Qed.
