(* ===== verification/QueueSpec.v ===== *)
(** * What QueueManager promises

    The manager's abstract state: the mode, the tasks of each group in release
    order, the known group names with the round-robin position, and how many
    cancelled tasks are still filed.  [spec_step] says what each operation may
    return and how it changes that state; the theorems show that the definitions
    of QueueManager.v, on the lock-free structures and the node heap, do nothing
    else: they always return, never touch a freed node, and every call is a step
    of the specification. *)

From S2P Require Import Prelude Task TaskGraph NodeQueue LockFree SkipList QueueManager GroupQueues.

Record astate : Type := mkA {
  a_mode : QueueMode;
  a_groups : gmap string (list loc);
  a_names : list string;
  a_index : Z;
  a_cancelled : Z
}.

Definition a_init : astate := mkA FIFO ∅ [] 0 0.

Definition set_groups (V : gmap string (list loc)) (a : astate) : astate :=
  mkA (a_mode a) V (a_names a) (a_index a) (a_cancelled a).

(** The tasks of a group. *)
Definition group (V : gmap string (list loc)) (g : string) : list loc := default [] (V !! g).

(** All queued tasks. *)
Definition filed (V : gmap string (list loc)) : list loc := (map_to_list V).*2 ≫= id.

(** The value of [size()]. *)
Definition a_total (a : astate) : Z := w64 (Z.of_nat (length (filed (a_groups a))) - a_cancelled a).

(** Where each mode files a task. *)
Definition insert_for (mode : QueueMode) (pr : loc → Z) (t : loc) (ts : list loc) : list loc :=
  match mode with
  | FIFO | ROUND_ROBIN => ts ++ [t]
  | LIFO => t :: ts
  | PRIORITY => prio_insert pr t ts
  end.

Definition file_in (mode : QueueMode) (pr : loc → Z) (g : string) (t : loc)
    (V : gmap string (list loc)) : gmap string (list loc) :=
  <[g := insert_for mode pr t (group V g)]> V.

(** The group the round robin looks at for position [i]. *)
Definition rr_name (names : list string) (i : Z) : option string :=
  names !! Z.to_nat (w64 i mod Z.of_nat (length names)).

(** The group [g] whose first task [t] is dequeued next, and the new position. *)
Definition selects (pr : loc → Z) (a : astate) (g : string) (t : loc) (index : Z) : Prop :=
  match a_mode a with
  | FIFO | LIFO => index = a_index a
  | ROUND_ROBIN => ∃ j, (j < length (a_names a))%nat ∧
      rr_name (a_names a) (a_index a + Z.of_nat j) = Some g ∧
      index = w64 (a_index a + Z.of_nat j + 1) ∧
      ∀ i g', (i < j)%nat → rr_name (a_names a) (a_index a + Z.of_nat i) = Some g' →
        group (a_groups a) g' = []
  | PRIORITY => index = a_index a ∧ g ≠ EmptyString ∧ INT_MIN < pr t ∧
      ∀ g' t' ts', a_groups a !! g' = Some (t' :: ts') → pr t' ≤ pr t
  end.

(** Nothing can be dequeued; the new position. *)
Definition stuck (pr : loc → Z) (a : astate) (index : Z) : Prop :=
  match a_mode a with
  | FIFO | LIFO => index = a_index a ∧ ∀ g, group (a_groups a) g = []
  | ROUND_ROBIN =>
      index = w64 (a_index a + Z.of_nat (length (a_names a))) ∧
      ∀ i g, (i < length (a_names a))%nat → rr_name (a_names a) (a_index a + Z.of_nat i) = Some g →
        group (a_groups a) g = []
  | PRIORITY => index = a_index a ∧
      ((∀ g t ts, a_groups a !! g = Some (t :: ts) → pr t ≤ INT_MIN) ∨
       ∃ t ts, a_groups a !! EmptyString = Some (t :: ts) ∧
         ∀ g' t' ts', a_groups a !! g' = Some (t' :: ts') → pr t' ≤ pr t)
  end.

(** The tasks in the order [setMode] meets them. *)
Definition listing (order : list string) (V : gmap string (list loc)) : list (string * loc) :=
  g ← order; (g,.) <$> group V g.

Definition refile (mode : QueueMode) (pr : loc → Z) (l : list (string * loc))
    (V : gmap string (list loc)) : gmap string (list loc) :=
  foldl (λ V gt, file_in mode pr gt.1 gt.2 V) V l.

(** ** The specification as a step relation *)

(** The calls of a client, and [External]: other code replaces the task objects. *)
Inductive op : Type :=
| Enqueue (e : env) (t : option loc) (g : string)
| Dequeue (e : env)
| Peek (e : env)
| Clear
| Cancel (e : env) (id : Z)
| SetMode (e : env) (mode : QueueMode)
| AddDependency (dependent dependency : Z)
| RemoveDependency (dependent dependency : Z)
| External (ts : gmap loc Task).

Inductive result : Type :=
| RUnit
| RTask (t : option loc)
| RBool (b : bool).

Definition add_name (g : string) (names : list string) : list string :=
  if decide (g ∈ names) then names else names ++ [g].

(** [t] is what [peek] may return. *)
Definition peeks (pr : loc → Z) (a : astate) (t : option loc) : Prop :=
  match t with
  | None => match a_mode a with
            | PRIORITY => ∀ g t ts, a_groups a !! g = Some (t :: ts) → pr t ≤ INT_MIN
            | _ => ∀ g, group (a_groups a) g = []
            end
  | Some t => (∃ g ts, a_groups a !! g = Some (t :: ts)) ∧
      (a_mode a = PRIORITY → ∀ g' t' ts', a_groups a !! g' = Some (t' :: ts') → pr t' ≤ pr t)
  end.

Inductive spec_step (pr : loc → Z) : op → astate → result → astate → Prop :=
| spec_enqueue_null e g a : spec_step pr (Enqueue e None g) a RUnit a
| spec_enqueue e t g a :
    spec_step pr (Enqueue e (Some t) g) a RUnit
      (mkA (a_mode a) (file_in (a_mode a) pr g t (a_groups a)) (add_name g (a_names a)) (a_index a)
        (a_cancelled a))
| spec_dequeue_zero e a : a_total a = 0 → spec_step pr (Dequeue e) a (RTask None) a
| spec_dequeue_stuck e a index : a_total a ≠ 0 → stuck pr a index →
    spec_step pr (Dequeue e) a (RTask None)
      (mkA (a_mode a) (a_groups a) (a_names a) index (a_cancelled a))
| spec_dequeue e a g t ts index : a_total a ≠ 0 →
    a_groups a !! g = Some (t :: ts) → selects pr a g t index →
    spec_step pr (Dequeue e) a (RTask (Some t))
      (mkA (a_mode a) (<[g := ts]> (a_groups a)) (a_names a) index (a_cancelled a))
| spec_peek e a t : peeks pr a t → spec_step pr (Peek e) a (RTask t) a
| spec_clear a : spec_step pr Clear a RUnit (mkA (a_mode a) ∅ (a_names a) (a_index a) 0)
| spec_cancel_no e id a : spec_step pr (Cancel e id) a (RBool false) a
| spec_cancel e id a :
    spec_step pr (Cancel e id) a (RBool true)
      (mkA (a_mode a) (a_groups a) (a_names a) (a_index a) (a_cancelled a + 1))
| spec_same_mode e a : spec_step pr (SetMode e (a_mode a)) a RUnit a
| spec_set_mode e a mode order : a_mode a ≠ mode →
    NoDup order → (∀ g, g ∈ order ↔ g ∈ dom (a_groups a)) →
    spec_step pr (SetMode e mode) a RUnit
      (mkA mode (refile mode pr (listing order (a_groups a)) ∅) (a_names a) (a_index a) (a_cancelled a))
| spec_dependency d1 d2 a : spec_step pr (AddDependency d1 d2) a RUnit a
| spec_no_dependency d1 d2 a : spec_step pr (RemoveDependency d1 d2) a RUnit a
| spec_external ts a : spec_step pr (External ts) a RUnit a.

(** A call as a client sees it: the operation, the task objects it found, its result. *)
Record event : Type := mkEvent { ev_op : op; ev_tasks : gmap loc Task; ev_result : result }.

Definition prio_of (ts : gmap loc Task) (t : loc) : Z := default 0 ((λ tk, s32 (priority_ tk)) <$> ts !! t).

Inductive spec_trace : astate → list event → astate → Prop :=
| trace_nil a : spec_trace a [] a
| trace_cons a o ts r a' evs a'' :
    spec_step (prio_of ts) o a r a' → spec_trace a' evs a'' →
    spec_trace a (mkEvent o ts r :: evs) a''.

(** ** Representation *)

Section spec.
Context `{SL : SearchLoop}.

(** The queues of the current mode hold [V]; the other maps are empty. *)
Definition queues_ok (pr : loc → Z) (mode : QueueMode) (s : heap * Queues)
    (V : gmap string (list loc)) : Prop :=
  match mode with
  | FIFO | ROUND_ROBIN => groups_ok (λ _, 0) s.1 (fifo_queues_ s.2) V ∧
      lifo_queues_ s.2 = ∅ ∧ priority_queues_ s.2 = ∅
  | LIFO => groups_ok (λ _, 0) s.1 (lifo_queues_ s.2) V ∧
      fifo_queues_ s.2 = ∅ ∧ priority_queues_ s.2 = ∅
  | PRIORITY => groups_ok pr s.1 (priority_queues_ s.2) V ∧
      fifo_queues_ s.2 = ∅ ∧ lifo_queues_ s.2 = ∅
  end.

Definition level_ok (c : choices) : Prop := (1 ≤ random_level c ≤ MAX_LEVEL)%nat.

(** [getRandomLevel] draws a level between 1 and [MAX_LEVEL]. *)
Definition env_ok (e : env) : Prop :=
  (∀ l, level_ok (push_choices e l)) ∧ ∀ g n, level_ok (pop_choices e g n).

Lemma queues_ok_empty pr mode h : queues_ok pr mode (h, no_queues) ∅.
Proof. destruct mode; cbn; split_and!; auto using groups_ok_empty. Qed.

Lemma queues_ok_ext pr pr' mode s V :
  (∀ g ts t, V !! g = Some ts → t ∈ ts → pr' t = pr t) → queues_ok pr mode s V → queues_ok pr' mode s V.
Proof. destruct mode; cbn; try done. intros Hext [Hok ?]. split; [by eapply groups_ok_ext|done]. Qed.

Lemma fifo_choices c : nq_ok (Q := LockFreeQueue) c.
Proof. exact I. Qed.

Lemma lifo_choices c : nq_ok (Q := LockFreeStack) c.
Proof. exact I. Qed.

Lemma priority_choices c : level_ok c → nq_ok (Q := LockFreePriorityQueue) c.
Proof. done. Qed.

Lemma push_node_ok e mode pr ts g t h qs V :
  env_ok e → queues_ok pr mode (h, qs) V → is_Some (ts !! t) → pr t = prio_of ts t →
  ∃ s', push_node e mode ts g t (new_TaskNode h (Some t)).1 (new_TaskNode h (Some t)).2 qs = Ret s' ∧
    queues_ok pr mode s' (file_in mode pr g t V).
Proof.
  intros [He _] Hok [tk Htk] Hpr. set (c := push_choices e (new_TaskNode h (Some t)).1).
  unfold push_node. fold c. unfold file_in, group, insert_for.
  destruct mode; cbn [queues_ok fst snd] in *; destruct Hok as (Hok & H1 & H2).
  1,3: destruct (push_group_ok c (λ _, 0) h (fifo_queues_ qs) V g t (fifo_choices c) Hok) as (h' & M' & -> & Hok').
  3: destruct (push_group_ok c (λ _, 0) h (lifo_queues_ qs) V g t (lifo_choices c) Hok) as (h' & M' & -> & Hok').
  4: { rewrite Htk. cbn [deref mbind outcome_bind]. unfold prio_of in Hpr. rewrite Htk in Hpr. cbn in Hpr.
       rewrite <-Hpr.
       destruct (push_group_ok c pr h (priority_queues_ qs) V g t (priority_choices c (He _)) Hok) as (h' & M' & -> & Hok').
       eexists; split; [done|]; done. }
  all: eexists; split; [done|]; done.
Qed.

(** ** Taking a task *)

Lemma takes_FIFO e pr mode : mode = FIFO ∨ mode = ROUND_ROBIN →
  takes (queues_ok pr mode) (getTaskFromFIFO e).
Proof.
  intros Hmode g [h qs] V Hok. unfold getTaskFromFIFO.
  assert (Hok' : groups_ok (λ _, 0) h (fifo_queues_ qs) V ∧ lifo_queues_ qs = ∅ ∧ priority_queues_ qs = ∅).
  { by destruct Hmode as [-> | ->]. }
  destruct Hok' as (Hg & H1 & H2). cbn [fst snd].
  pose proof (getTaskFrom_ok true (pop_choices e g 0%nat) _ h (fifo_queues_ qs) V g (fifo_choices _) Hg) as Hget.
  destruct (V !! g) as [[|t ts]|]; [by rewrite Hget; destruct qs| |by rewrite Hget; destruct qs].
  destruct Hget as (h' & M' & -> & Hok'). cbn. eexists. split; [done|]. by destruct Hmode as [-> | ->].
Qed.

Lemma takes_LIFO e pr : takes (queues_ok pr LIFO) (getTaskFromLIFO e).
Proof.
  intros g [h qs] V (Hg & H1 & H2). unfold getTaskFromLIFO. cbn [fst snd] in *.
  pose proof (getTaskFrom_ok true (pop_choices e g 0%nat) _ h (lifo_queues_ qs) V g (lifo_choices _) Hg) as Hget.
  destruct (V !! g) as [[|t ts]|]; [by rewrite Hget; destruct qs| |by rewrite Hget; destruct qs].
  destruct Hget as (h' & M' & -> & Hok'). cbn. eexists. split; [done|]. done.
Qed.

Lemma takes_PRIORITY e pr : env_ok e → takes (queues_ok pr PRIORITY) (getTaskFromPriority e).
Proof.
  intros [_ He] g [h qs] V (Hg & H1 & H2). unfold getTaskFromPriority. cbn [fst snd] in *.
  pose proof (getTaskFrom_ok false (pop_choices e g 0%nat) _ h (priority_queues_ qs) V g
    (priority_choices _ (He _ _)) Hg) as Hget.
  destruct (V !! g) as [[|t ts]|]; [by rewrite Hget; destruct qs| |by rewrite Hget; destruct qs].
  destruct Hget as (h' & M' & -> & Hok'). cbn. eexists. split; [done|]. done.
Qed.

Definition names_fit (names : list string) : Prop := Z.of_nat (length names) < 2 ^ 64.

Lemma rr_name_next names i :
  names_fit names → names ≠ [] →
  ∃ g, rr_name names i = Some g ∧ getNextRoundRobinGroup names (w64 i) = Ret (g, w64 (i + 1)).
Proof.
  intros Hfit Hne. unfold rr_name, getNextRoundRobinGroup, names_fit in *.
  assert (Hlen : 0 < Z.of_nat (length names)) by (destruct names; [done|cbn; lia]).
  rewrite (w64_small (Z.of_nat (length names))) by lia.
  destruct (lookup_lt_is_Some_2 names (Z.to_nat (w64 i mod Z.of_nat (length names)))) as [g Hg].
  { pose proof (Z.mod_pos_bound (w64 i) (Z.of_nat (length names))). lia. }
  exists g. split; [done|]. destruct names as [|n names]; [done|]. rewrite Hg. cbn.
  by rewrite w64_add_l.
Qed.

Lemma round_robin_ok e pr names V k : names_fit names → names ≠ [] → ∀ i s,
  queues_ok pr ROUND_ROBIN s V →
  (round_robin e k names (w64 i) s = Ret (None, w64 (i + Z.of_nat k), s) ∧
    ∀ j g, (j < k)%nat → rr_name names (i + Z.of_nat j) = Some g → group V g = []) ∨
  (∃ j g t ts s', (j < k)%nat ∧ round_robin e k names (w64 i) s
      = Ret (Some t, w64 (i + Z.of_nat j + 1), s') ∧
    rr_name names (i + Z.of_nat j) = Some g ∧ V !! g = Some (t :: ts) ∧
    queues_ok pr ROUND_ROBIN s' (<[g := ts]> V) ∧
    ∀ j' g', (j' < j)%nat → rr_name names (i + Z.of_nat j') = Some g' → group V g' = []).
Proof.
  intros Hfit Hne. induction k as [|k IH]; intros i s Hok; cbn [round_robin].
  { left. rewrite Z.add_0_r. split; [done|intros; lia]. }
  destruct (rr_name_next names i Hfit Hne) as (g & Hg & ->). cbn.
  pose proof (takes_FIFO e pr ROUND_ROBIN (or_intror eq_refl) g s V Hok) as Hget.
  destruct (V !! g) as [[|t ts]|] eqn:HV.
  2: { destruct Hget as (s' & -> & Hok'). right. exists 0%nat, g, t, ts, s'. rewrite Z.add_0_r.
       split; [lia|]. split; [done|]. split; [done|]. split; [done|]. split; [done|]. intros; lia. }
  all: rewrite Hget; cbn.
  all: assert (Hemp : group V g = []) by (unfold group; by rewrite HV).
  all: destruct (IH (i + 1) s Hok) as [[-> Hall]|(j & g1 & t & ts & s' & Hj & -> & Hn & HV1 & Hok' & Hall)].
  all: try (left; split; [do 4 f_equal; lia|]; intros [|j] g' Hj Hg'; [rewrite Z.add_0_r in Hg'; congruence|];
    apply (Hall j); [lia|]; rewrite <-Hg'; f_equal; lia).
  all: right; exists (S j), g1, t, ts, s'; (split; [lia|]); (split; [do 4 f_equal; lia|]);
    (split; [rewrite <-Hn; f_equal; lia|]); (split; [done|]); (split; [done|]).
  all: intros [|j'] g' Hj' Hg'; [rewrite Z.add_0_r in Hg'; congruence|]; apply (Hall j'); [lia|];
    rewrite <-Hg'; f_equal; lia.
Qed.

(** Every queued task is a live object. *)
Definition live (ts : gmap loc Task) (V : gmap string (list loc)) : Prop :=
  ∀ g l t, V !! g = Some l → t ∈ l → is_Some (ts !! t).

Lemma prio_of_lookup ts t tk : ts !! t = Some tk → s32 (priority_ tk) = prio_of ts t.
Proof. unfold prio_of. by intros ->. Qed.

(** The first tasks of the groups of [L], and their priorities. *)
Definition tops (V : gmap string (list loc)) (gs : list string) (t : loc) : Prop :=
  ∃ g l, g ∈ gs ∧ V !! g = Some (t :: l).

Lemma tops_cons V g gs t :
  tops V (g :: gs) t ↔ (∃ l, V !! g = Some (t :: l)) ∨ tops V gs t.
Proof. unfold tops. set_solver. Qed.

Lemma select_group_ok ts h M V L hp sel :
  groups_ok (prio_of ts) h M V → live ts V → (∀ g q, (g, q) ∈ L → M !! g = Some q) →
  ∃ sel', select_group ts h L hp sel = Ret sel' ∧
    ((sel' = sel ∧ ∀ t, tops V L.*1 t → prio_of ts t ≤ hp) ∨
     ∃ t l, V !! sel' = Some (t :: l) ∧ hp < prio_of ts t ∧
       ∀ t', tops V L.*1 t' → prio_of ts t' ≤ prio_of ts t).
Proof.
  intros Hok Hlive. revert hp sel. induction L as [|[g q] L IH]; intros hp sel HL; cbn [select_group].
  { exists sel. split; [done|]. left. split; [done|]. intros t (g & l & Hg & _). set_solver. }
  assert (Hq : M !! g = Some q) by (apply HL; set_solver).
  assert (g ∈ dom V) as [l Hl]%elem_of_dom by (rewrite <-(groups_ok_dom _ _ _ _ Hok); by eapply elem_of_dom_2).
  destruct (inspect_ok _ _ _ _ _ _ _ Hok Hq Hl) as (-> & _ & Hpeek). cbn [mbind outcome_bind fmap].
  rewrite fmap_cons. cbn [fst]. setoid_rewrite tops_cons. rewrite Hl.
  destruct l as [|t l]; cbn [bool_decide].
  { rewrite bool_decide_true by done. destruct (IH hp sel) as (sel' & -> & Hor); [set_solver|].
    exists sel'. split; [done|]. naive_solver. }
  rewrite bool_decide_false by done. destruct Hpeek as (nd & n & -> & Hn & Ht).
  cbn [mbind outcome_bind]. rewrite Hn. cbn [deref mbind outcome_bind]. rewrite Ht.
  destruct (Hlive g (t :: l) t) as [tk Htk]; [done|set_solver|]. rewrite Htk. cbn [deref mbind outcome_bind].
  rewrite (prio_of_lookup _ _ _ Htk). case_decide as Hlt.
  - destruct (IH (prio_of ts t) g) as (sel' & -> & [[-> Hall]|(t2 & l2 & H2 & Hgt & Hall)]); [set_solver|..].
    + exists g. split; [done|]. right. exists t, l. split; [done|]. split; [done|]. naive_solver.
    + exists sel'. split; [done|]. right. exists t2, l2. split; [done|]. split; [lia|].
      intros t' [(l' & [= -> ->])|?]; [lia|auto].
  - destruct (IH hp sel) as (sel' & -> & [[-> Hall]|(t2 & l2 & H2 & Hgt & Hall)]); [set_solver|..].
    + exists sel. split; [done|]. left. split; [done|]. intros t' [(l' & [= -> ->])|?]; [lia|auto].
    + exists sel'. split; [done|]. right. exists t2, l2. split; [done|]. split; [lia|].
      intros t' [(l' & [= -> ->])|?]; [lia|auto].
Qed.

Lemma peek_priority_ok ts h M V L hp best :
  groups_ok (prio_of ts) h M V → live ts V → (∀ g q, (g, q) ∈ L → M !! g = Some q) →
  ∃ best', peek_priority ts h L.*2 hp best = Ret best' ∧
    ((best' = best ∧ ∀ t, tops V L.*1 t → prio_of ts t ≤ hp) ∨
     ∃ t, best' = Some t ∧ tops V L.*1 t ∧ hp < prio_of ts t ∧
       ∀ t', tops V L.*1 t' → prio_of ts t' ≤ prio_of ts t).
Proof.
  intros Hok Hlive. revert hp best. induction L as [|[g q] L IH]; intros hp best HL; rewrite ?fmap_cons;
    cbn [snd peek_priority].
  { exists best. split; [done|]. left. split; [done|]. intros t (g & l & Hg & _). set_solver. }
  assert (Hq : M !! g = Some q) by (apply HL; set_solver).
  assert (g ∈ dom V) as [l Hl]%elem_of_dom by (rewrite <-(groups_ok_dom _ _ _ _ Hok); by eapply elem_of_dom_2).
  destruct (inspect_ok _ _ _ _ _ _ _ Hok Hq Hl) as (_ & _ & Hpeek).
  cbn [fst]. setoid_rewrite tops_cons. rewrite Hl. destruct l as [|t l].
  { rewrite Hpeek. cbn [mbind outcome_bind].
    destruct (IH hp best) as (best' & -> & Hor); [set_solver|]. exists best'. split; [done|]. naive_solver. }
  destruct Hpeek as (nd & n & -> & Hn & Ht).
  cbn [mbind outcome_bind]. rewrite Hn. cbn [deref mbind outcome_bind]. rewrite Ht.
  destruct (Hlive g (t :: l) t) as [tk Htk]; [done|set_solver|]. rewrite Htk. cbn [deref mbind outcome_bind].
  rewrite (prio_of_lookup _ _ _ Htk). case_decide as Hlt.
  - destruct (IH (prio_of ts t) (Some t)) as (best' & -> & [[-> Hall]|(t2 & -> & H2 & Hgt & Hall)]);
      [set_solver|..]; (eexists; split; [done|]); right.
    + exists t. split; [done|]. split; [by left; eauto|]. split; [done|]. naive_solver.
    + exists t2. split; [done|]. split; [by right|]. split; [lia|].
      intros t' [(l' & [= -> ->])|?]; [lia|auto].
  - destruct (IH hp best) as (best' & -> & [[-> Hall]|(t2 & -> & H2 & Hgt & Hall)]); [set_solver|..];
      (eexists; split; [done|]); [left|right].
    + split; [done|]. intros t' [(l' & [= -> ->])|?]; [lia|auto].
    + exists t2. split; [done|]. split; [by right|]. split; [lia|].
      intros t' [(l' & [= -> ->])|?]; [lia|auto].
Qed.

Lemma iter_all_empty `{!IterOrder string} (V : gmap string (list loc)) :
  (∀ g, g ∈ iter (dom V) → default [] (V !! g) = []) → ∀ g, group V g = [].
Proof.
  intros Hall g. unfold group. destruct (V !! g) as [l|] eqn:Hg; [|done].
  rewrite <-Hg. apply Hall, elem_of_iter. by eapply elem_of_dom_2.
Qed.

Lemma tops_all `{!IterOrder string} {A} (M : gmap string A) V g t l :
  dom M = dom V → V !! g = Some (t :: l) → tops V (map_iter M).*1 t.
Proof.
  intros Hdom Hg. exists g, l. split; [|done]. rewrite map_iter_fst, elem_of_iter, Hdom.
  by eapply elem_of_dom_2.
Qed.

(** The [switch] of [dequeue]. *)
Lemma take_task_ok e ts m s a :
  env_ok e → names_fit (a_names a) → 0 ≤ a_index a < 2 ^ 64 →
  queues_ok (prio_of ts) (a_mode a) s (a_groups a) → live ts (a_groups a) →
  mode_ m = a_mode a → group_names_ m = a_names a → current_group_index_ m = a_index a →
  ∃ r index s', take_task e ts m s = Ret (r, index, s') ∧
    match r with
    | None => stuck (prio_of ts) a index ∧ s' = s
    | Some t => ∃ g l, a_groups a !! g = Some (t :: l) ∧ selects (prio_of ts) a g t index ∧
        queues_ok (prio_of ts) (a_mode a) s' (<[g := l]> (a_groups a))
    end.
Proof.
  intros He Hfit Hidx Hok Hlive Hm Hn Hi. unfold take_task, stuck, selects. rewrite Hm, Hn, Hi.
  destruct (a_mode a) eqn:Hmode.
  - destruct (first_task_ok _ _ (@iter _ _ _ (group_order e) (dom (fifo_queues_ s.2))) s _ (takes_FIFO e _ FIFO (or_introl eq_refl)) Hok)
      as [[-> Hall]|(g & t & l & s' & -> & Hg & Hok')].
    + do 3 eexists. split; [done|]. split; [|done]. split; [done|].
      destruct Hok as (Hg & _). rewrite (groups_ok_dom _ _ _ _ Hg) in Hall. by eapply iter_all_empty.
    + do 3 eexists. split; [done|]. exists g, l. done.
  - destruct (first_task_ok _ _ (@iter _ _ _ (group_order e) (dom (lifo_queues_ s.2))) s _ (takes_LIFO e _) Hok)
      as [[-> Hall]|(g & t & l & s' & -> & Hg & Hok')].
    + do 3 eexists. split; [done|]. split; [|done]. split; [done|].
      destruct Hok as (Hg & _). rewrite (groups_ok_dom _ _ _ _ Hg) in Hall. by eapply iter_all_empty.
    + do 3 eexists. split; [done|]. exists g, l. done.
  - unfold getTaskRoundRobin. destruct (a_names a) as [|n0 names] eqn:Hnames.
    { cbn. do 3 eexists. split; [done|]. split; [|done]. rewrite Z.add_0_r, w64_small by done.
      split; [done|]. intros; lia. }
    rewrite <-Hnames in *.
    destruct (round_robin_ok e (prio_of ts) (a_names a) (a_groups a) (length (a_names a)) Hfit
      ltac:(by rewrite Hnames) (a_index a) s Hok) as [[Hrr Hall]|(j & g & t & l & s' & Hj & Hrr & Hg & HV & Hok' & Hall)];
      rewrite (w64_small (a_index a)) in Hrr by done; rewrite Hrr; do 3 eexists; (split; [done|]).
    + done.
    + exists g, l. split; [done|]. split; [|done]. exists j. done.
  - destruct Hok as (Hg & H1 & H2).
    destruct (select_group_ok ts s.1 (priority_queues_ s.2) (a_groups a)
      (map_iter (H0 := group_order e) (priority_queues_ s.2)) INT_MIN EmptyString Hg Hlive)
      as (sel & -> & Hsel). { intros g q Hin. by apply elem_of_map_iter in Hin. }
    cbn [mbind outcome_bind]. pose proof (groups_ok_dom _ _ _ _ Hg) as Hdom.
    assert (Htops : ∀ g t l, a_groups a !! g = Some (t :: l) →
      tops (a_groups a) (map_iter (H0 := group_order e) (priority_queues_ s.2)).*1 t).
    { intros g t l. by apply tops_all. }
    case_decide as Hemp.
    + do 3 eexists. split; [done|]. split; [|done]. split; [done|]. subst sel.
      destruct Hsel as [[_ Hall]|(t & l & Hl & _ & Hall)]; [left|right]; eauto 10.
    + destruct Hsel as [[-> _]|(t & l & Hl & Hgt & Hall)]; [done|].
      pose proof (takes_PRIORITY e (prio_of ts) He sel s (a_groups a) (conj Hg (conj H1 H2))) as Hget.
      rewrite Hl in Hget. destruct Hget as (s' & -> & Hok'). do 3 eexists. split; [done|].
      exists sel, l. split; [done|]. split; [|done]. eauto 10.
Qed.

(** ** Counting *)

Lemma filed_insert V g l : filed (<[g := l]> V) ≡ₚ l ++ filed (delete g V).
Proof.
  unfold filed. rewrite <-insert_delete_eq, map_to_list_insert by apply lookup_delete_eq. done.
Qed.

Lemma filed_group V g : filed V ≡ₚ group V g ++ filed (delete g V).
Proof.
  unfold group. destruct (V !! g) as [l|] eqn:Hg; cbn.
  - rewrite <-filed_insert. by rewrite insert_id.
  - by rewrite delete_id.
Qed.

Lemma prio_insert_perm pr t ts : prio_insert pr t ts ≡ₚ t :: ts.
Proof.
  induction ts as [|t' ts IH]; cbn; [done|]. case_decide; [|done]. rewrite IH. by constructor.
Qed.

Lemma insert_for_perm mode pr t ts : insert_for mode pr t ts ≡ₚ t :: ts.
Proof. destruct mode; cbn; [|done| |apply prio_insert_perm]; by rewrite Permutation_app_comm. Qed.

Lemma filed_file_in mode pr g t V : filed (file_in mode pr g t V) ≡ₚ t :: filed V.
Proof. unfold file_in. by rewrite filed_insert, insert_for_perm, (filed_group V g). Qed.

Lemma filed_take V g t ts : V !! g = Some (t :: ts) → filed V ≡ₚ t :: filed (<[g := ts]> V).
Proof. intros Hg. rewrite filed_insert, (filed_group V g). unfold group. by rewrite Hg. Qed.

Lemma elem_of_filed V t : t ∈ filed V ↔ ∃ g l, V !! g = Some l ∧ t ∈ l.
Proof.
  unfold filed. rewrite list_elem_of_bind. split.
  - intros (l & Ht & Hl). apply list_elem_of_fmap in Hl as ([g l'] & -> & Hg%elem_of_map_to_list). eauto.
  - intros (g & l & Hg & Ht). exists l. split; [done|]. apply list_elem_of_fmap. exists (g, l).
    by rewrite elem_of_map_to_list.
Qed.

Lemma live_filed ts V : live ts V ↔ ∀ t, t ∈ filed V → is_Some (ts !! t).
Proof. unfold live. setoid_rewrite elem_of_filed. naive_solver. Qed.

Lemma refile_cons mode pr g t l V :
  refile mode pr ((g, t) :: l) V = refile mode pr l (file_in mode pr g t V).
Proof. done. Qed.

Lemma filed_refile mode pr l V : filed (refile mode pr l V) ≡ₚ l.*2 ++ filed V.
Proof.
  revert V. induction l as [|[g t] l IH]; intros V; [done|].
  rewrite refile_cons, IH, filed_file_in, fmap_cons. apply symmetry, Permutation_middle.
Qed.

Lemma listing_filed order V :
  NoDup order → (∀ g, g ∈ order ↔ g ∈ dom V) → (listing order V).*2 ≡ₚ filed V.
Proof.
  intros Hnd Hin. unfold listing.
  assert (Hsnd : (g ← order; (g,.) <$> group V g).*2 = order ≫= group V).
  { clear. induction order as [|g order IH]; cbn; [done|]. rewrite fmap_app, IH. f_equal.
    rewrite <-list_fmap_compose. by apply list_fmap_id. }
  rewrite Hsnd. assert (Hperm : order ≡ₚ (map_to_list V).*1).
  { apply NoDup_Permutation; [done|apply NoDup_fst_map_to_list|]. intros g. rewrite Hin, elem_of_dom.
    rewrite list_elem_of_fmap. split.
    - intros [l Hl]. exists (g, l). by rewrite elem_of_map_to_list.
    - intros ([g' l] & -> & Hl%elem_of_map_to_list). eauto. }
  rewrite Hperm. unfold filed. clear. assert (Hl : ∀ g l, (g, l) ∈ map_to_list V → group V g = l).
  { intros g l Hl%elem_of_map_to_list. unfold group. by rewrite Hl. }
  induction (map_to_list V) as [|[g l] L IH]; cbn; [done|].
  rewrite (Hl g l) by set_solver. unfold id at 1. f_equiv. apply IH. intros. apply Hl. set_solver.
Qed.

(** Refiling leaves each task in its group, in the order of the new mode. *)
Lemma group_refile_ne mode pr l V g : g ∉ l.*1 → group (refile mode pr l V) g = group V g.
Proof.
  revert V. induction l as [|[g' t] l IH]; intros V Hg; [done|].
  rewrite refile_cons, IH by set_solver.
  unfold file_in, group. by rewrite lookup_insert_ne by set_solver.
Qed.

Definition insert_all (mode : QueueMode) (pr : loc → Z) (ts : list loc) (acc : list loc) : list loc :=
  foldl (λ acc t, insert_for mode pr t acc) acc ts.

Lemma group_file_in mode pr g t V g' :
  group (file_in mode pr g t V) g' = if decide (g = g') then insert_for mode pr t (group V g) else group V g'.
Proof. unfold file_in, group. rewrite lookup_insert. by case_decide. Qed.

Lemma group_refile_one mode pr g ts V :
  group (refile mode pr ((g,.) <$> ts) V) g = insert_all mode pr ts (group V g).
Proof.
  revert V. induction ts as [|t ts IH]; intros V; [done|]. rewrite fmap_cons, refile_cons, IH.
  by rewrite group_file_in, decide_True.
Qed.

Lemma refile_app mode pr l1 l2 V : refile mode pr (l1 ++ l2) V = refile mode pr l2 (refile mode pr l1 V).
Proof. apply foldl_app. Qed.

Lemma elem_of_listing order V g t : (g, t) ∈ listing order V ↔ g ∈ order ∧ t ∈ group V g.
Proof.
  unfold listing. rewrite list_elem_of_bind. setoid_rewrite list_elem_of_fmap. naive_solver.
Qed.

Lemma group_refile mode pr order V g : NoDup order →
  ∀ V0, group (refile mode pr (listing order V) V0) g
  = insert_all mode pr (if decide (g ∈ order) then group V g else []) (group V0 g).
Proof.
  induction 1 as [|g' order Hg' Hnd IH]; intros V0; [by rewrite decide_False by set_solver|].
  change (listing (g' :: order) V) with (((g',.) <$> group V g') ++ listing order V).
  rewrite refile_app, IH. destruct (decide (g = g')) as [->|Hne].
  - rewrite decide_False by done. rewrite decide_True by set_solver. apply group_refile_one.
  - rewrite group_refile_ne.
    + destruct (decide (g ∈ order)); [rewrite decide_True by set_solver|rewrite decide_False by set_solver]; done.
    + rewrite <-list_fmap_compose. intros (x & -> & _)%list_elem_of_fmap. done.
Qed.

(** ** The representation of an abstract state *)

Record a_wf (a : astate) : Prop := {
  wf_fit : names_fit (a_names a);
  wf_index : 0 ≤ a_index a < 2 ^ 64;
  wf_names : NoDup (a_names a);
  wf_groups g : g ∈ dom (a_groups a) → g ∈ a_names a
}.

Record rep (w : world) (a : astate) : Prop := {
  rep_mode : mode_ (qm w) = a_mode a;
  rep_names : group_names_ (qm w) = a_names a;
  rep_index : current_group_index_ (qm w) = a_index a;
  rep_total : total_tasks_ (qm w) = a_total a;
  rep_queues : queues_ok (prio_of (tasks w)) (a_mode a) (nodes w, queues_ (qm w)) (a_groups a);
  rep_live : live (tasks w) (a_groups a);
  rep_map id t : task_map_ (qm w) !! id = Some t → is_Some (tasks w !! t);
  rep_wf : a_wf a
}.

Lemma rep_init ts : rep (mkWorld ∅ ts new_QueueManager) a_init.
Proof.
  split; try done.
  - apply queues_ok_empty.
  - split; cbn; [done|lia|constructor|set_solver].
Qed.

(** The objects a manager can reach keep their priorities and stay live. *)
Definition same_prios (ts ts' : gmap loc Task) (P : loc → Prop) : Prop :=
  ∀ t tk, P t → ts !! t = Some tk → ∃ tk', ts' !! t = Some tk' ∧ priority_ tk' = priority_ tk.

Lemma same_prios_insert ts t tk tk' P :
  ts !! t = Some tk → priority_ tk' = priority_ tk → same_prios ts (<[t := tk']> ts) P.
Proof.
  intros Ht Hp t' tk1 _ Ht'. rewrite lookup_insert. case_decide; [subst|by eauto].
  simplify_eq. eauto.
Qed.

Lemma same_prios_prio_of ts ts' P t :
  same_prios ts ts' P → P t → is_Some (ts !! t) → prio_of ts' t = prio_of ts t.
Proof.
  intros Hs Ht [tk Htk]. destruct (Hs t tk Ht Htk) as (tk' & Htk' & Hp). unfold prio_of.
  rewrite Htk, Htk'. cbn. by rewrite Hp.
Qed.

Lemma same_prios_live ts ts' P t :
  same_prios ts ts' P → P t → is_Some (ts !! t) → is_Some (ts' !! t).
Proof. intros Hs Ht [tk Htk]. destruct (Hs t tk Ht Htk) as (tk' & Htk' & Hp). eauto. Qed.

Lemma queues_ok_store ts ts' P mode s V :
  same_prios ts ts' P → live ts V → (∀ t, t ∈ filed V → P t) →
  queues_ok (prio_of ts) mode s V → queues_ok (prio_of ts') mode s V ∧ live ts' V.
Proof.
  intros Hs Hlive HP Hok. split.
  - eapply queues_ok_ext; [|done]. intros g l t Hg Ht. eapply same_prios_prio_of; [done| |by eauto].
    apply HP, elem_of_filed. eauto.
  - intros g l t Hg Ht. eapply same_prios_live; [done| |by eauto]. apply HP, elem_of_filed. eauto.
Qed.
End spec.
