(* ===== verification/QueueRefine.v ===== *)
(** * QueueManager refines its specification

    Each operation of QueueManager.v returns and is a step of [spec_step]; by
    induction every run of a manager is a trace of the specification.  The
    properties a user relies on are then read off the specification. *)

From S2P Require Import Prelude Task TaskGraph NodeQueue LockFree SkipList QueueManager GroupQueues.
From S2P Require Import QueueSpec.

(** One call, with its result. *)
Definition run_op `{SearchLoop} (markCancelled : Z → Task → Task) (o : op) (w : world)
    : outcome (result * world) :=
  match o with
  | Enqueue e t g => w ← enqueue e t g w; Ret (RUnit, w)
  | Dequeue e => '(t, w) ← dequeue e w; Ret (RTask t, w)
  | Peek e => '(t, w) ← peek e w; Ret (RTask t, w)
  | Clear => Ret (RUnit, clear w)
  | Cancel e id => '(b, w) ← cancelTask markCancelled e id w; Ret (RBool b, w)
  | SetMode e mode => w ← setMode e mode w; Ret (RUnit, w)
  | AddDependency d1 d2 => w ← qm_addDependency d1 d2 w; Ret (RUnit, w)
  | RemoveDependency d1 d2 => Ret (RUnit, qm_removeDependency d1 d2 w)
  | External ts => Ret (RUnit, mkWorld (nodes w) ts (qm w))
  end.

Fixpoint run `{SearchLoop} (markCancelled : Z → Task → Task) (ops : list op) (w : world)
    : outcome (list event * world) :=
  match ops with
  | [] => Ret ([], w)
  | o :: ops =>
      '(r, w') ← run_op markCancelled o w;
      '(evs, w'') ← run markCancelled ops w';
      Ret (mkEvent o (tasks w) r :: evs, w'')
  end.

(** The objects reached from the manager: the targets of its [shared_ptr]s. *)
Definition referenced (w : world) (t : loc) : Prop :=
  (∃ id, task_map_ (qm w) !! id = Some t) ∨ ∃ l, node_task (nodes w) l = Some t.

(** What a caller owes: the level draws are in range, a task it hands over exists,
    there is room for one more group name, and other code keeps the objects the
    manager references alive with the priority they have. *)
Definition op_ok (w : world) (o : op) : Prop :=
  match o with
  | Enqueue e t g => env_ok e ∧ (∀ t', t = Some t' → is_Some (tasks w !! t')) ∧
      names_fit (g :: group_names_ (qm w))
  | Dequeue e | Peek e | SetMode e _ => env_ok e
  | External ts => same_prios (tasks w) ts (referenced w)
  | _ => True
  end.

Fixpoint ops_ok `{SearchLoop} (markCancelled : Z → Task → Task) (ops : list op) (w : world) : Prop :=
  match ops with
  | [] => True
  | o :: ops => op_ok w o ∧ ∀ r w', run_op markCancelled o w = Ret (r, w') → ops_ok markCancelled ops w'
  end.

Lemma a_total_ext V V' a a' :
  a_groups a = V → a_groups a' = V' → a_cancelled a' = a_cancelled a → length (filed V') = length (filed V) →
  a_total a' = a_total a.
Proof. intros <- <- Hc Hl. unfold a_total. by rewrite Hc, Hl. Qed.

Section ops.
Context `{SL : SearchLoop}.

Lemma elem_of_add_name g g' names : g' ∈ add_name g names ↔ g' = g ∨ g' ∈ names.
Proof. unfold add_name. case_decide; set_solver. Qed.

Lemma NoDup_add_name g names : NoDup names → NoDup (add_name g names).
Proof.
  intros Hnd. unfold add_name. case_decide; [done|]. apply NoDup_app. split; [done|].
  split; [set_solver|apply NoDup_singleton].
Qed.

Lemma names_fit_add_name g names : names_fit (g :: names) → names_fit (add_name g names).
Proof.
  unfold names_fit, add_name. cbn. case_decide; [lia|]. rewrite length_app. cbn. lia.
Qed.

Lemma enqueue_step e t g w a :
  rep w a → op_ok w (Enqueue e t g) →
  ∃ w' a', enqueue e t g w = Ret w' ∧ spec_step (prio_of (tasks w)) (Enqueue e t g) a RUnit a' ∧ rep w' a'.
Proof.
  intros Hrep (He & Hlive & Hfit). destruct t as [t|]; cbn [enqueue].
  2: { exists w, a. eauto using spec_enqueue_null. }
  destruct (Hlive t eq_refl) as [tk Htk]. rewrite Htk. cbn [deref mbind outcome_bind].
  destruct Hrep as [Hmode Hnames Hindex Htotal Hqueues Hlv Hmap [Hwf1 Hwf2 Hwf3 Hwf4]].
  set (ts := <[t := set_enqueued_at (now e) tk]> (tasks w)).
  assert (Hsp : same_prios (tasks w) ts (λ _, True)) by (by eapply same_prios_insert).
  assert (Hpr : prio_of ts t = prio_of (tasks w) t) by (by eapply same_prios_prio_of; eauto).
  set (m := updateTaskInMap t tk (qm w)). cbn [set_group_names].
  set (m1 := if decide (g ∈ group_names_ m) then m else set_group_names (group_names_ m ++ [g]) m).
  assert (Hm1 : mode_ m1 = a_mode a ∧ queues_ m1 = queues_ (qm w) ∧ task_map_ m1 = <[id_ tk := t]> (task_map_ (qm w))
    ∧ group_names_ m1 = add_name g (a_names a) ∧ current_group_index_ m1 = a_index a ∧ total_tasks_ m1 = a_total a).
  { unfold m1, add_name, m. cbn. rewrite Hnames. by case_decide. }
  destruct Hm1 as (Hm1m & Hm1q & Hm1t & Hm1n & Hm1i & Hm1o). rewrite Hm1m, Hm1q.
  destruct (push_node_ok e (a_mode a) (prio_of (tasks w)) ts g t (nodes w) (queues_ (qm w)) (a_groups a)
    He Hqueues) as ([h' qs'] & Hpush & Hok').
  { unfold ts. rewrite lookup_insert_eq. eauto. } { done. }
  destruct (new_TaskNode (nodes w) (Some t)) as [l h] eqn:Hnew. cbn [fst snd] in Hpush. rewrite Hpush.
  cbn [mbind outcome_bind]. do 2 eexists. split; [done|]. split; [apply spec_enqueue|].
  set (V' := file_in (a_mode a) (prio_of (tasks w)) g t (a_groups a)) in *.
  assert (Hlv' : live (tasks w) V').
  { apply live_filed. intros t'. unfold V'. rewrite filed_file_in. intros [->|Ht']%elem_of_cons; [by eauto|].
    by apply (proj1 (live_filed _ _) Hlv). }
  destruct (queues_ok_store _ ts (λ _, True) (a_mode a) (h', qs') V' Hsp Hlv' ltac:(done) Hok') as [Hok'' Hlv''].
  split; cbn; try done.
  - unfold a_total. cbn. rewrite Hm1o. unfold a_total. rewrite w64_add_l. f_equal.
    unfold V'. rewrite (Permutation_length (filed_file_in _ _ g t (a_groups a))). cbn. lia.
  - rewrite Hm1t. intros id t' [[<- <-]|[_ Ht']]%lookup_insert_Some.
    + unfold ts. rewrite lookup_insert_eq. eauto.
    + eapply same_prios_live; [done|done|by eauto].
  - split; cbn; [apply names_fit_add_name; by rewrite <-Hnames|done|by apply NoDup_add_name|].
    intros g'. unfold V', file_in. rewrite dom_insert_L, elem_of_add_name. set_solver.
Qed.

Lemma dequeue_step e w a :
  rep w a → env_ok e →
  ∃ r w' a', dequeue e w = Ret (r, w') ∧ spec_step (prio_of (tasks w)) (Dequeue e) a (RTask r) a' ∧ rep w' a'.
Proof.
  intros Hrep He. unfold dequeue, qm_empty, qm_size.
  pose proof Hrep as [Hmode Hnames Hindex Htotal Hqueues Hlv Hmap [Hwf1 Hwf2 Hwf3 Hwf4]].
  rewrite Htotal. case_bool_decide as Hz.
  { exists None, w, a. eauto using spec_dequeue_zero. }
  destruct (take_task_ok e (tasks w) (qm w) (nodes w, queues_ (qm w)) a He Hwf1 Hwf2 Hqueues Hlv Hmode Hnames Hindex)
    as (r & index & s' & -> & Hr). cbn [mbind outcome_bind].
  destruct r as [t|].
  - destruct Hr as (g & l & Hg & Hsel & Hok').
    assert (Hlt : is_Some (tasks w !! t)) by (eapply Hlv; [done|set_solver]).
    destruct Hlt as [tk Htk]. rewrite Htk. cbn [deref mbind outcome_bind].
    set (tk' := set_dequeued_at (now e) tk). set (ts := <[t := tk']> (tasks w)).
    assert (Hsp : same_prios (tasks w) ts (λ _, True)) by (by eapply same_prios_insert).
    do 3 eexists. split; [done|]. split; [by eapply spec_dequeue|].
    pose proof (filed_take _ _ _ _ Hg) as Hperm.
    assert (Hlv' : live (tasks w) (<[g := l]> (a_groups a))).
    { apply live_filed. intros t' Ht'. apply (proj1 (live_filed _ _) Hlv). rewrite Hperm. by right. }
    destruct (queues_ok_store _ ts (λ _, True) (a_mode a) s' _ Hsp Hlv' ltac:(done) Hok') as [Hok'' Hlv''].
    split; cbn; try done.
    + unfold a_total. cbn. rewrite Htotal. unfold a_total. rewrite w64_sub_l. f_equal.
      rewrite (Permutation_length Hperm). cbn. lia.
    + intros id t' Ht'. eapply same_prios_live; [done|done|by eauto].
    + split; cbn; try done.
      * destruct (a_mode a) eqn:Hm; unfold selects in Hsel; rewrite Hm in Hsel.
        -- by subst.
        -- by subst.
        -- destruct Hsel as (j & _ & _ & -> & _). apply w64_range.
        -- by destruct Hsel as [-> _].
      * intros g'. rewrite dom_insert_L. assert (g ∈ dom (a_groups a)) by (by eapply elem_of_dom_2). set_solver.
  - destruct Hr as [Hstuck ->]. do 3 eexists. split; [done|]. split; [by eapply spec_dequeue_stuck|].
    split; cbn; try done. split; cbn; try done. unfold stuck in Hstuck.
    destruct (a_mode a); destruct Hstuck as [-> _]; [done|done|apply w64_range|done].
Qed.

Lemma peek_groups_ok {Q} `{NQ : NodeQueue Q} `{NQL : !NodeQueueLaws Q} `{FT : !FilesTasks Q}
    pr h (M : gmap string Q) V L :
  groups_ok pr h M V → (∀ g q, (g, q) ∈ L → M !! g = Some q) →
  ∃ r, peek_groups h L.*2 = Ret r ∧
    match r with
    | None => ∀ g, g ∈ L.*1 → group V g = []
    | Some t => ∃ g ts, V !! g = Some (t :: ts)
    end.
Proof.
  intros Hok. induction L as [|[g q] L IH]; intros HL; rewrite ?fmap_cons; cbn [snd peek_groups].
  { exists None. split; [done|set_solver]. }
  assert (Hq : M !! g = Some q) by (apply HL; set_solver).
  assert (g ∈ dom V) as [l Hl]%elem_of_dom by (rewrite <-(groups_ok_dom _ _ _ _ Hok); by eapply elem_of_dom_2).
  destruct (inspect_ok _ _ _ _ _ _ _ Hok Hq Hl) as (_ & _ & Hpeek). destruct l as [|t l].
  - rewrite Hpeek. cbn [mbind outcome_bind]. destruct IH as ([t|] & -> & Hr); [set_solver|..].
    + exists (Some t). done.
    + exists None. split; [done|]. cbn [fst]. intros g' [->|?]%elem_of_cons; [|auto].
      unfold group. by rewrite Hl.
  - destruct Hpeek as (nd & n & -> & Hn & Ht). cbn [mbind outcome_bind]. rewrite Hn.
    cbn [deref mbind outcome_bind]. rewrite Ht. exists (Some t). eauto.
Qed.

(** A scan of the whole map sees every group. *)
Lemma peek_all_ok `{!IterOrder string} {Q} `{NQ : NodeQueue Q} `{NQL : !NodeQueueLaws Q} `{FT : !FilesTasks Q}
    pr h (M : gmap string Q) V :
  groups_ok pr h M V →
  ∃ r, peek_groups h (map_iter M).*2 = Ret r ∧
    match r with
    | None => ∀ g, group V g = []
    | Some t => ∃ g ts, V !! g = Some (t :: ts)
    end.
Proof.
  intros Hok. destruct (peek_groups_ok pr h M V (map_iter M) Hok) as (r & Hr & Hres).
  { intros g q. by rewrite elem_of_map_iter. }
  exists r. split; [done|]. destruct r; [done|]. intros g.
  destruct (V !! g) as [l|] eqn:Hg; [|by unfold group; rewrite Hg].
  apply Hres. rewrite map_iter_fst, elem_of_iter, (groups_ok_dom _ _ _ _ Hok). by eapply elem_of_dom_2.
Qed.

Lemma peek_step e w a :
  rep w a →
  ∃ r w', peek e w = Ret (r, w') ∧ spec_step (prio_of (tasks w)) (Peek e) a (RTask r) a ∧ rep w' a.
Proof.
  intros [Hmode Hnames Hindex Htotal Hqueues Hlv Hmap Hwf]. unfold peek. rewrite Hmode.
  set (pk := match a_mode a with FIFO => _ | LIFO => _ | ROUND_ROBIN => _ | PRIORITY => _ end).
  assert (Hpk : ∃ r, pk = Ret r ∧ peeks (prio_of (tasks w)) a r).
  { unfold pk, peeks. clear pk. destruct (a_mode a) eqn:Hm; destruct Hqueues as (Hq & _); cbn [fst snd] in *.
    1-3: destruct (peek_all_ok (IterOrder0 := group_order e) _ _ _ _ Hq) as (r & Hr & Hres);
      exists r; split; [exact Hr|]; by destruct r.
    destruct (peek_priority_ok (tasks w) _ _ _ (map_iter (H0 := group_order e) (priority_queues_ (queues_ (qm w))))
      INT_MIN None Hq Hlv) as (r & Hr & Hres).
    { intros g q Hin. by apply elem_of_map_iter in Hin. }
    exists r. split; [exact Hr|]. pose proof (groups_ok_dom _ _ _ _ Hq) as Hd.
    destruct Hres as [[-> Hall]|(t & -> & (g & l & _ & Hg) & _ & Hall)].
    - intros g t l Hg. apply Hall. by eapply tops_all.
    - split; [by eauto|]. intros _ g' t' l' Hg'. apply Hall. by eapply tops_all. }
  destruct Hpk as (r & -> & Hr). cbn [mbind outcome_bind]. do 2 eexists. split; [done|].
  split; [by constructor|]. split; done.
Qed.

Lemma clear_step w a : rep w a →
  ∃ a', spec_step (prio_of (tasks w)) Clear a RUnit a' ∧ rep (clear w) a'.
Proof.
  intros [Hmode Hnames Hindex Htotal Hqueues Hlv Hmap [Hwf1 Hwf2 Hwf3 Hwf4]].
  eexists. split; [apply spec_clear|]. split; cbn; try done.
  apply queues_ok_empty.
Qed.

Lemma refill_ok e mode ts l h qs V :
  env_ok e → queues_ok (prio_of ts) mode (h, qs) V → (∀ g t, (g, t) ∈ l → is_Some (ts !! t)) →
  ∃ s', refill e mode ts l h qs = Ret s' ∧ queues_ok (prio_of ts) mode s' (refile mode (prio_of ts) l V).
Proof.
  intros He. revert h qs V. induction l as [|[g t] l IH]; intros h qs V Hok Hl; cbn [refill]; [by eauto|].
  destruct (push_node_ok e mode (prio_of ts) ts g t h qs V He Hok) as ([h' qs'] & Hpush & Hok');
    [apply (Hl g); set_solver|done|].
  destruct (new_TaskNode h (Some t)) as [nd h1]. cbn [fst snd] in Hpush. rewrite Hpush.
  cbn [mbind outcome_bind]. rewrite refile_cons. apply IH; [done|]. intros g' t' ?. apply (Hl g'). set_solver.
Qed.

Lemma drain_ok e m h a :
  env_ok e → mode_ m = a_mode a → (∃ pr, queues_ok pr (a_mode a) (h, queues_ m) (a_groups a)) →
  ∃ h', drain e m h = Ret (h', listing (@iter _ _ _ (group_order e) (dom (a_groups a))) (a_groups a)).
Proof.
  intros He Hm [pr Hok]. unfold drain. rewrite Hm.
  destruct (a_mode a); destruct Hok as (Hq & _); cbn [fst snd] in Hq.
  1,3: destruct (drain_groups_ok true (pop_choices e) _ (map_iter (H0 := group_order e) (fifo_queues_ (queues_ m)))
    h _ _ [] (λ g n, fifo_choices _) Hq) as (h' & ->).
  7: destruct (drain_groups_ok true (pop_choices e) _ (map_iter (H0 := group_order e) (lifo_queues_ (queues_ m)))
    h _ _ [] (λ g n, lifo_choices _) Hq) as (h' & ->).
  10: destruct (drain_groups_ok false (pop_choices e) _ (map_iter (H0 := group_order e) (priority_queues_ (queues_ m)))
    h _ _ [] (λ g n, priority_choices _ (proj2 He g n)) Hq) as (h' & ->).
  all: try (rewrite map_iter_fst; apply NoDup_iter).
  all: try (intros g q Hin; by apply elem_of_map_iter in Hin).
  all: exists h'; rewrite map_iter_fst, (groups_ok_dom _ _ _ _ Hq); done.
Qed.

Lemma dom_refile_ne mode pr l V g : g ∉ l.*1 → g ∈ dom (refile mode pr l V) → g ∈ dom V.
Proof.
  revert V. induction l as [|[g' t] l IH]; intros V Hg; [done|]. rewrite refile_cons.
  intros Hin%IH; [|set_solver]. unfold file_in in Hin. rewrite dom_insert_L in Hin. set_solver.
Qed.

Lemma setMode_step e mode w a :
  rep w a → env_ok e →
  ∃ w' a', setMode e mode w = Ret w' ∧ spec_step (prio_of (tasks w)) (SetMode e mode) a RUnit a' ∧ rep w' a'.
Proof.
  intros Hrep He. unfold setMode.
  pose proof Hrep as [Hmode Hnames Hindex Htotal Hqueues Hlv Hmap [Hwf1 Hwf2 Hwf3 Hwf4]].
  rewrite Hmode. case_decide as Hsame.
  { subst mode. exists w, a. eauto using spec_same_mode. }
  destruct (drain_ok e (qm w) (nodes w) a He Hmode ltac:(by eexists)) as (h & ->). cbn [mbind outcome_bind].
  set (order := @iter _ _ _ (group_order e) (dom (a_groups a))).
  assert (Hnd : NoDup order) by apply NoDup_iter.
  assert (Hin : ∀ g, g ∈ order ↔ g ∈ dom (a_groups a)) by (intros g; apply elem_of_iter).
  assert (Hl : ∀ g t, (g, t) ∈ listing order (a_groups a) → t ∈ group (a_groups a) g) by
    (intros g t [_ ?]%elem_of_listing; done).
  destruct (refill_ok e mode (tasks w) (listing order (a_groups a)) h no_queues ∅ He) as ([h' qs'] & Hrun & Hok').
  { apply queues_ok_empty. }
  { intros g t Hgt%Hl. unfold group in Hgt. destruct (a_groups a !! g) eqn:Hg; cbn in Hgt; [by eauto|set_solver]. }
  cbn. rewrite Hrun. cbn. do 2 eexists. split; [done|]. split; [by eapply spec_set_mode|].
  set (V' := refile mode (prio_of (tasks w)) (listing order (a_groups a)) ∅) in *.
  assert (Hperm : filed V' ≡ₚ filed (a_groups a)).
  { unfold V'. rewrite filed_refile, (listing_filed _ _ Hnd Hin). unfold filed at 2. cbn. by rewrite app_nil_r. }
  split; cbn; try done.
  - rewrite Htotal. symmetry. eapply a_total_ext; [done..|]. cbn. by apply Permutation_length.
  - apply live_filed. intros t. rewrite Hperm. by apply live_filed.
  - split; cbn; try done. intros g Hg. apply Hwf4, Hin.
    destruct (decide (g ∈ order)) as [|Hn]; [done|]. exfalso.
    assert (Hgn : g ∉ (listing order (a_groups a)).*1).
    { intros ([g' t] & -> & Hgt)%list_elem_of_fmap. by apply elem_of_listing in Hgt as [? _]. }
    apply (dom_refile_ne _ _ _ ∅ g) in Hg; [set_solver|done].
Qed.

(** A change of the task objects that the representation survives. *)
Lemma rep_store w a ts' P :
  rep w a → same_prios (tasks w) ts' P → (∀ t, t ∈ filed (a_groups a) → P t) →
  (∀ id t, task_map_ (qm w) !! id = Some t → P t) → rep (mkWorld (nodes w) ts' (qm w)) a.
Proof.
  intros [Hmode Hnames Hindex Htotal Hqueues Hlv Hmap Hwf] Hs HP HM.
  destruct (queues_ok_store _ ts' P _ _ _ Hs Hlv HP Hqueues) as [Hq' Hlv'].
  split; try done. intros id t Ht. cbn in *. eapply same_prios_live; [done|by eauto|by eauto].
Qed.

Lemma filed_referenced w a t : rep w a → t ∈ filed (a_groups a) → referenced w t.
Proof.
  intros [_ _ _ _ Hq _ _ _] (g & l & Hg & Ht)%elem_of_filed. right.
  destruct (a_mode a); destruct Hq as (Hq & _); exact (groups_ok_node _ _ _ _ _ _ _ Hq Hg Ht).
Qed.

Lemma cancelTask_step markCancelled e id w a :
  (∀ now tk, priority_ (markCancelled now tk) = priority_ tk) → rep w a →
  ∃ b w' a', cancelTask markCancelled e id w = Ret (b, w') ∧
    spec_step (prio_of (tasks w)) (Cancel e id) a (RBool b) a' ∧ rep w' a'.
Proof.
  intros Hmc Hrep. unfold cancelTask, findTask.
  destruct (task_map_ (qm w) !! id) as [t|] eqn:Hid; [|by do 3 eexists; split; [done|]; split; [constructor|]].
  destruct (rep_map _ _ Hrep id t Hid) as [tk Htk]. rewrite Htk. cbn [deref mbind outcome_bind].
  case_decide; [|by do 3 eexists; split; [done|]; split; [constructor|]].
  do 3 eexists. split; [done|]. split; [apply spec_cancel|].
  assert (Hsp : same_prios (tasks w) (<[t := markCancelled (now e) tk]> (tasks w)) (λ _, True)).
  { by eapply same_prios_insert. }
  pose proof (rep_store w a _ _ Hrep Hsp ltac:(done) ltac:(done)) as [Hmode Hnames Hindex Htotal Hqueues Hlv Hmap Hwf].
  split; cbn in *; try done.
  - rewrite Htotal. unfold a_total. cbn. rewrite w64_sub_l. f_equal. lia.
  - intros id' t' [_ Ht']%lookup_delete_Some. eauto.
  - by destruct Hwf; split.
Qed.

Lemma rep_graph w a g : rep w a → rep (mkWorld (nodes w) (tasks w) (set_graph g (qm w))) a.
Proof. intros []. by split. Qed.

Lemma addDependency_step d1 d2 w a : rep w a → ∃ w', qm_addDependency d1 d2 w = Ret w' ∧ rep w' a.
Proof.
  intros Hrep. unfold qm_addDependency, findTask. cbn.
  set (g := graph_addDependency d1 d2 (dependency_graph_ (qm w))).
  pose proof (rep_graph w a g Hrep) as Hrep'.
  destruct (task_map_ (qm w) !! d1) as [t1|] eqn:H1; [|by eauto].
  destruct (task_map_ (qm w) !! d2) as [t2|]; [|by eauto].
  destruct (rep_map _ _ Hrep d1 t1 H1) as [tk Htk]. rewrite Htk. cbn. eexists. split; [done|].
  apply (rep_store _ a (<[t1 := addDependency t2 tk]> (tasks w)) (λ _, True)) in Hrep'; [done| |done|done].
  by eapply same_prios_insert.
Qed.

(** The forward simulation: each call returns, as the specification allows. *)
Lemma run_op_step markCancelled o w a :
  (∀ now tk, priority_ (markCancelled now tk) = priority_ tk) → rep w a → op_ok w o →
  ∃ r w' a', run_op markCancelled o w = Ret (r, w') ∧ spec_step (prio_of (tasks w)) o a r a' ∧ rep w' a'.
Proof.
  intros Hmc Hrep Hok. destruct o; cbn [run_op op_ok] in *.
  - destruct (enqueue_step e t g w a Hrep Hok) as (w' & a' & -> & ? & ?). cbn. eauto 10.
  - destruct (dequeue_step e w a Hrep Hok) as (r & w' & a' & -> & ? & ?). cbn. eauto 10.
  - destruct (peek_step e w a Hrep) as (r & w' & -> & ? & ?). cbn. eauto 10.
  - destruct (clear_step w a Hrep) as (a' & ? & ?). eauto 10.
  - destruct (cancelTask_step markCancelled e id w a Hmc Hrep) as (b & w' & a' & -> & ? & ?). cbn. eauto 10.
  - destruct (setMode_step e mode w a Hrep Hok) as (w' & a' & -> & ? & ?). cbn. eauto 10.
  - destruct (addDependency_step dependent dependency w a Hrep) as (w' & -> & ?). cbn.
    eauto 10 using spec_dependency.
  - do 3 eexists. split; [done|]. split; [apply spec_no_dependency|]. by apply rep_graph.
  - do 3 eexists. split; [done|]. split; [apply spec_external|].
    eapply rep_store; [done|done| |]; [by intros t; apply filed_referenced|].
    intros id t Ht. left. eauto.
Qed.

Lemma run_trace markCancelled ops w a :
  (∀ now tk, priority_ (markCancelled now tk) = priority_ tk) → rep w a → ops_ok markCancelled ops w →
  ∃ evs w' a', run markCancelled ops w = Ret (evs, w') ∧ ev_op <$> evs = ops ∧
    spec_trace a evs a' ∧ rep w' a'.
Proof.
  intros Hmc. revert w a. induction ops as [|o ops IH]; intros w a Hrep Hok; cbn [run].
  { exists [], w, a. eauto using trace_nil. }
  destruct Hok as [Ho Hops].
  destruct (run_op_step markCancelled o w a Hmc Hrep Ho) as (r & w1 & a1 & Hr & Hs & Hrep1).
  rewrite Hr. cbn [mbind outcome_bind].
  destruct (IH w1 a1 Hrep1 (Hops _ _ Hr)) as (evs & w2 & a2 & -> & Hev & Htr & Hrep2).
  cbn [mbind outcome_bind]. do 3 eexists. split; [done|]. split; [by rewrite fmap_cons, Hev|].
  split; [by econstructor|done].
Qed.
End ops.
