(* ===== verification/QueueProps.v ===== *)
(** * QueueManager: what a user can rely on

    Consequences of the refinement of QueueRefine.v: no task is lost or
    duplicated, FIFO order, priority order, round-robin fairness, what a mode
    change and a cancellation do, and the statistics. *)

From S2P Require Import Prelude Task TaskGraph GraphAlgo Dot NodeQueue LockFree SkipList QueueManager.
From S2P Require Import GroupQueues QueueSpec QueueRefine.

(** ** Traces *)

Global Instance result_eq_dec : EqDecision result.
Proof. solve_decision. Defined.

(** The tasks handed in and handed out, in order. *)
Definition enqueued (evs : list event) : list loc :=
  omap (λ ev, match ev_op ev with Enqueue _ t _ => t | _ => None end) evs.

Definition dequeued (evs : list event) : list loc :=
  omap (λ ev, match ev_op ev, ev_result ev with Dequeue _, RTask t => t | _, _ => None end) evs.

Definition cancels (evs : list event) : Z :=
  Z.of_nat (length (filter (λ ev, ev_result ev = RBool true) evs)).

Definition no_clear (evs : list event) : Prop := ∀ ev, ev ∈ evs → ev_op ev ≠ Clear.

Lemma spec_step_filed pr o a r a' ts :
  spec_step pr o a r a' → o ≠ Clear →
  enqueued [mkEvent o ts r] ++ filed (a_groups a) ≡ₚ dequeued [mkEvent o ts r] ++ filed (a_groups a').
Proof.
  intros Hs Hne. destruct Hs; cbn; try done.
  - by rewrite filed_file_in.
  - by apply filed_take.
  - rewrite filed_refile, listing_filed by done. unfold filed at 3. cbn. by rewrite app_nil_r.
Qed.

Lemma omap_cons_app {A B} (f : A → option B) x l : omap f (x :: l) = omap f [x] ++ omap f l.
Proof. cbn. by destruct (f x). Qed.

Lemma spec_trace_filed a evs a' :
  spec_trace a evs a' → no_clear evs →
  enqueued evs ++ filed (a_groups a) ≡ₚ dequeued evs ++ filed (a_groups a').
Proof.
  induction 1 as [|a o ts r a1 evs a2 Hs Htr IH]; intros Hnc; [done|].
  unfold enqueued, dequeued. rewrite (omap_cons_app _ (mkEvent o ts r) evs).
  rewrite (omap_cons_app _ (mkEvent o ts r) evs).
  fold (enqueued [mkEvent o ts r]). fold (enqueued evs). fold (dequeued [mkEvent o ts r]). fold (dequeued evs).
  assert (Ho : o ≠ Clear) by (apply (Hnc (mkEvent o ts r)); set_solver).
  pose proof (spec_step_filed _ _ _ _ _ ts Hs Ho) as Hstep.
  assert (Hnc' : no_clear evs) by (intros ev Hev; apply Hnc; set_solver).
  specialize (IH Hnc'). rewrite <-app_assoc, (Permutation_app_comm (enqueued evs)), app_assoc, Hstep.
  rewrite <-app_assoc, (Permutation_app_comm _ (enqueued evs)), IH. by rewrite app_assoc.
Qed.

Lemma spec_step_cancelled pr o a r a' ts :
  spec_step pr o a r a' → o ≠ Clear → a_cancelled a' = a_cancelled a + cancels [mkEvent o ts r].
Proof.
  intros Hs Hne. unfold cancels. rewrite filter_cons. destruct Hs; cbn; try done; case_decide; try done; cbn; lia.
Qed.

Lemma spec_trace_cancelled a evs a' :
  spec_trace a evs a' → no_clear evs → a_cancelled a' = a_cancelled a + cancels evs.
Proof.
  induction 1 as [|a o ts r a1 evs a2 Hs Htr IH]; intros Hnc; [unfold cancels; cbn; lia|].
  rewrite IH by (intros ev Hev; apply Hnc; set_solver).
  rewrite (spec_step_cancelled _ _ _ _ _ ts Hs) by (apply (Hnc (mkEvent o ts r)); set_solver).
  unfold cancels. rewrite (filter_cons _ (mkEvent o ts r) evs), filter_cons. case_decide; cbn; lia.
Qed.

(** ** Order *)

(** The calls of a client that files everything in one group and keeps the mode. *)
Definition one_group (g : string) (o : op) : Prop :=
  match o with
  | Enqueue _ _ g' => g' = g
  | Clear | SetMode _ _ => False
  | _ => True
  end.

Definition only_fifo (g : string) (a : astate) : Prop :=
  a_mode a = FIFO ∧ ∀ g', g' ≠ g → group (a_groups a) g' = [].

Lemma spec_step_fifo pr g o a r a' ts :
  spec_step pr o a r a' → one_group g o → only_fifo g a →
  only_fifo g a' ∧
  group (a_groups a) g ++ enqueued [mkEvent o ts r] = dequeued [mkEvent o ts r] ++ group (a_groups a') g.
Proof.
  intros Hs Hg [Hm Ho]. destruct Hs as [| e t g0 a | | | e a g1 t l index _ Hl Hsel | | | | | | | | |]; cbn in *;
    rewrite ?app_nil_r; try done.
  - subst g0. split.
    + split; [done|]. intros g' Hne. cbn. rewrite group_file_in. rewrite decide_False by done. auto.
    + rewrite group_file_in, decide_True by done. by rewrite Hm.
  - assert (g1 = g) as ->.
    { destruct (decide (g1 = g)) as [|Hne]; [done|]. specialize (Ho g1 Hne). unfold group in Ho.
      by rewrite Hl in Ho. }
    split.
    + split; [done|]. intros g' Hne. cbn. unfold group. rewrite lookup_insert_ne by done. by apply Ho.
    + unfold group. by rewrite lookup_insert_eq, Hl.
Qed.

Lemma spec_trace_fifo g a evs a' :
  spec_trace a evs a' → (∀ ev, ev ∈ evs → one_group g (ev_op ev)) → only_fifo g a →
  group (a_groups a) g ++ enqueued evs = dequeued evs ++ group (a_groups a') g.
Proof.
  induction 1 as [|a o ts r a1 evs a2 Hs Htr IH]; intros Hone Hf; [cbn; by rewrite app_nil_r|].
  destruct (spec_step_fifo _ g _ _ _ _ ts Hs) as [Hf1 Hstep]; [apply (Hone (mkEvent o ts r)); set_solver|done|].
  unfold enqueued, dequeued. rewrite !(omap_cons_app _ (mkEvent o ts r) evs).
  fold (enqueued [mkEvent o ts r]) (enqueued evs) (dequeued [mkEvent o ts r]) (dequeued evs).
  rewrite app_assoc, Hstep, <-!app_assoc. f_equal. apply IH; [|done]. intros ev Hev. apply Hone. set_solver.
Qed.

Section sorted.
Context `{SL : SearchLoop}.

(** In PRIORITY mode every group is in decreasing priority. *)
Lemma groups_sorted pr s V g ts :
  queues_ok pr PRIORITY s V → V !! g = Some ts → StronglySorted (λ t t', pr t' ≤ pr t) ts.
Proof.
  intros ((N & Hrep & ->) & _). rewrite view_lookup. destruct (N !! g) as [xs|] eqn:HN; [|done].
  intros [= <-]. pose proof (queue_at_rep _ _ _ _ g Hrep) as Hq. rewrite HN in Hq. cbn in Hq.
  assert (Hs : StronglySorted (λ x y, y.2 ≤ x.2) xs).
  { destruct Hq as [(ns & Hskip & Hitems) _ _ _]. eapply items_sorted; [exact Hitems|]. by destruct Hskip. }
  assert (Hp : ∀ l p, (l, p) ∈ xs → pr (task_at s.1 l) = p) by (intros; by eapply (gr_prio _ _ _ _ Hrep)).
  clear -Hs Hp. induction Hs as [|[l p] xs Hs IH Hf]; [constructor|]. cbn. constructor.
  - apply IH. intros. apply Hp. set_solver.
  - apply Forall_forall. intros t Ht. rewrite Forall_forall in Hf.
    apply list_elem_of_fmap in Ht as (l' & -> & Hl'). apply list_elem_of_fmap in Hl' as ([l1 p1] & -> & Hin).
    cbn. rewrite (Hp l p), (Hp l1 p1) by set_solver. apply (Hf (l1, p1) Hin).
Qed.

Lemma head_is_max pr s V g t ts t' :
  queues_ok pr PRIORITY s V → V !! g = Some (t :: ts) → t' ∈ t :: ts → pr t' ≤ pr t.
Proof.
  intros Hok Hg. pose proof (groups_sorted _ _ _ _ _ Hok Hg) as [Hf _]%StronglySorted_cons.
  rewrite Forall_forall in Hf. intros [->|?]%elem_of_cons; [lia|auto].
Qed.

(** A dequeue of a represented manager is one of the three cases of the specification. *)
Lemma dequeue_cases e w a r w' :
  rep w a → env_ok e → dequeue e w = Ret (r, w') →
  ∃ a', spec_step (prio_of (tasks w)) (Dequeue e) a (RTask r) a' ∧ rep w' a'.
Proof.
  intros Hrep He Hd. destruct (dequeue_step e w a Hrep He) as (r1 & w1 & a1 & Hd1 & Hs & Hrep1).
  rewrite Hd in Hd1. injection Hd1 as <- <-. eauto.
Qed.

Lemma a_total_pos a :
  a_cancelled a = 0 → (0 < length (filed (a_groups a)))%nat → Z.of_nat (length (filed (a_groups a))) < 2 ^ 64 →
  a_total a ≠ 0.
Proof. intros Hc Hp Hl. unfold a_total. rewrite Hc, w64_small; lia. Qed.

Lemma filed_head V g t ts : V !! g = Some (t :: ts) → t ∈ filed V.
Proof. intros Hg. rewrite (filed_take _ _ _ _ Hg). by left. Qed.

Lemma filed_pos V g t ts : V !! g = Some (t :: ts) → (0 < length (filed V))%nat.
Proof. intros Hg. rewrite (Permutation_length (filed_take _ _ _ _ Hg)). cbn. lia. Qed.
End sorted.

Section round_robin.
Context `{SL : SearchLoop}.

(** Every group name comes up within one round. *)
Lemma rr_position names index g :
  g ∈ names → 0 ≤ index < 2 ^ 64 → index + Z.of_nat (length names) ≤ 2 ^ 64 →
  ∃ d, (d < length names)%nat ∧ rr_name names (index + Z.of_nat d) = Some g.
Proof.
  intros [k Hk]%list_elem_of_lookup Hi Hfit. pose proof (lookup_lt_Some _ _ _ Hk) as Hkn.
  set (n := Z.of_nat (length names)) in *.
  pose proof (Z.mod_pos_bound (Z.of_nat k - index) n ltac:(lia)) as Hm.
  exists (Z.to_nat ((Z.of_nat k - index) mod n)). split; [lia|]. unfold rr_name.
  rewrite w64_small by lia. fold n. rewrite Z2Nat.id by lia. rewrite Z.add_mod_idemp_r by lia.
  replace (index + (Z.of_nat k - index)) with (Z.of_nat k) by lia.
  rewrite Z.mod_small by lia. by rewrite Nat2Z.id.
Qed.

Lemma dequeued_cons ev evs t : t ∈ dequeued evs → t ∈ dequeued (ev :: evs).
Proof. unfold dequeued. rewrite (omap_cons_app _ ev evs). set_solver. Qed.

Lemma rr_serves markCancelled es w a g t ts d :
  (∀ now tk, priority_ (markCancelled now tk) = priority_ tk) →
  rep w a → Forall env_ok es → a_mode a = ROUND_ROBIN → a_cancelled a = 0 →
  Z.of_nat (length (filed (a_groups a))) < 2 ^ 64 → a_groups a !! g = Some (t :: ts) →
  (d < length (a_names a))%nat → (d < length es)%nat → a_index a + Z.of_nat d < 2 ^ 64 →
  rr_name (a_names a) (a_index a + Z.of_nat d) = Some g →
  ∃ evs w', run markCancelled (Dequeue <$> es) w = Ret (evs, w') ∧ t ∈ dequeued evs.
Proof.
  intros Hmc. revert w a d. induction es as [|e es IH];
    intros w a d Hrep Hes Hm Hc Hfit Hg Hdn Hde Hidx Hname; [cbn in Hde; lia|].
  apply Forall_cons in Hes as [He Hes]. rewrite fmap_cons. cbn [run run_op].
  destruct (dequeue_step e w a Hrep He) as (r & w1 & a1 & Hd & Hs & Hrep1). rewrite Hd. cbn [mbind outcome_bind].
  pose proof (a_total_pos a Hc (filed_pos _ _ _ _ Hg) Hfit) as Htot.
  inversion Hs as [| | |? ? index _ Hst|? ? g1 t1 ts1 index _ Hg1 Hsel| | | | | | | | |]; subst; [done|exfalso|].
  { unfold stuck in Hst. rewrite Hm in Hst. destruct Hst as [_ Hst]. specialize (Hst d g Hdn Hname).
    unfold group in Hst. by rewrite Hg in Hst. }
  unfold selects in Hsel. rewrite Hm in Hsel. destruct Hsel as (j & Hj & Hn1 & -> & Hskip).
  assert (Hjd : (j ≤ d)%nat).
  { destruct (decide (j ≤ d)%nat) as [|Hgt]; [done|]. specialize (Hskip d g ltac:(lia) Hname).
    unfold group in Hskip. by rewrite Hg in Hskip. }
  destruct (run_trace markCancelled (Dequeue <$> es) w1 _ Hmc Hrep1) as (evs1 & w2 & a2 & Hrun & _).
  { clear -Hes SL. revert w1. induction Hes; intros w1; cbn; [done|]. split; [done|]. auto. }
  destruct (decide (g1 = g)) as [->|Hne].
  { rewrite Hg in Hg1. injection Hg1 as <- <-. rewrite Hrun. cbn. do 2 eexists. split; [done|].
    unfold dequeued. cbn. set_solver. }
  assert (Hjd' : (j < d)%nat).
  { destruct (decide (j = d)) as [->|]; [|lia]. congruence. }
  destruct (IH w1 _ (d - j - 1)%nat Hrep1 Hes) as (evs & w3 & Hrun3 & Hin); cbn; try done.
  - assert (Hp := Permutation_length (filed_take _ _ _ _ Hg1)). cbn in Hp. lia.
  - by rewrite lookup_insert_ne.
  - lia.
  - cbn in Hde. lia.
  - pose proof (wf_index _ (rep_wf _ _ Hrep)). rewrite w64_small; lia.
  - rewrite <-Hname. f_equal. pose proof (wf_index _ (rep_wf _ _ Hrep)). rewrite w64_small by lia. lia.
  - rewrite Hrun3. cbn. do 2 eexists. split; [done|]. by apply dequeued_cons.
Qed.
End round_robin.

(** ** Properties *)

Section dequeue_props.
Context `{SL : SearchLoop}.

(** C15: What [dequeue] returns in PRIORITY mode has the greatest priority of
    all tasks filed in any group. *)
Theorem dequeue_highest_priority e w a t w' (Hrep : rep w a) (He : env_ok e)
    (Hmode : a_mode a = PRIORITY) (Hd : dequeue e w = Ret (Some t, w')) :
  ∀ t', t' ∈ filed (a_groups a) → prio_of (tasks w) t' ≤ prio_of (tasks w) t.
Proof.
  intros t' (g' & l & Hg' & Ht')%elem_of_filed.
  destruct (dequeue_cases _ _ _ _ _ Hrep He Hd) as (a' & Hs & _). inversion Hs as [| | | |? ? g ? ts index Hz Hg Hsel| | | | | | | | |]; subst.
  unfold selects in Hsel. rewrite Hmode in Hsel. destruct Hsel as (_ & _ & _ & Hmax).
  destruct l as [|t0 l]; [set_solver|]. transitivity (prio_of (tasks w) t0); [|by eauto].
  eapply head_is_max; [|done|done]. rewrite <-Hmode. apply (rep_queues _ _ Hrep).
Qed.

(** C16: With no cancellation outstanding, [dequeue] returns a task whenever
    one is filed: in FIFO and LIFO mode always, in ROUND_ROBIN mode as long as the
    position does not wrap around, in PRIORITY mode if no group has the empty name
    and no task has priority [INT_MIN]. *)
Theorem dequeue_work_conserving e w a r w' (Hrep : rep w a) (He : env_ok e)
    (Hc : a_cancelled a = 0) (Hpos : (0 < length (filed (a_groups a)))%nat)
    (Hfit : Z.of_nat (length (filed (a_groups a))) < 2 ^ 64)
    (Hrr : a_mode a = ROUND_ROBIN → a_index a + Z.of_nat (length (a_names a)) ≤ 2 ^ 64)
    (Hprio : a_mode a = PRIORITY → EmptyString ∉ dom (a_groups a) ∧
      ∀ t, t ∈ filed (a_groups a) → INT_MIN < prio_of (tasks w) t)
    (Hd : dequeue e w = Ret (r, w')) :
  ∃ t, r = Some t ∧ t ∈ filed (a_groups a).
Proof.
  destruct (dequeue_cases _ _ _ _ _ Hrep He Hd) as (a' & Hs & _).
  pose proof (a_total_pos a Hc Hpos Hfit) as Htot.
  inversion Hs as [| | |? ? index _ Hst|? ? g t ts index _ Hg _| | | | | | | | |]; subst; [done| |].
  2: { exists t. split; [done|]. by eapply filed_head. }
  exfalso. assert (∃ g t ts, a_groups a !! g = Some (t :: ts)) as (g & t & ts & Hg).
  { destruct (filed (a_groups a)) as [|t l] eqn:Hf; [cbn in Hpos; lia|].
    assert (t ∈ filed (a_groups a)) as (g & ts & Hg & Ht)%elem_of_filed by (rewrite Hf; set_solver).
    destruct ts as [|t1 ts]; [set_solver|eauto]. }
  assert (Hne : group (a_groups a) g ≠ []) by (unfold group; by rewrite Hg).
  unfold stuck in Hst. destruct (a_mode a) eqn:Hm.
  - by apply Hne, Hst.
  - by apply Hne, Hst.
  - destruct Hst as [_ Hst]. destruct (rr_position (a_names a) (a_index a) g) as (j & Hj & Hn).
    + apply (wf_groups _ (rep_wf _ _ Hrep)). by eapply elem_of_dom_2.
    + apply (wf_index _ (rep_wf _ _ Hrep)).
    + auto.
    + by apply Hne, (Hst j).
  - destruct (Hprio eq_refl) as [Hemp Hmin]. destruct Hst as [_ [Hst|(t1 & ts1 & H1 & _)]].
    + specialize (Hst g t ts Hg). specialize (Hmin t (filed_head _ _ _ _ Hg)). lia.
    + apply Hemp. by eapply elem_of_dom_2.
Qed.
End dequeue_props.

Section props.
Context `{SL : SearchLoop}.
Context (markCancelled : Z → Task → Task).
Context (markCancelled_prio : ∀ now tk, priority_ (markCancelled now tk) = priority_ tk).

Abbreviation start ts := (mkWorld ∅ ts new_QueueManager).

(** C1: Every run of calls on a new manager, in whatever order the containers
    iterate and however the lock-free operations are scheduled, returns without
    reaching a freed or missing object, and is a trace of the specification. *)
Theorem manager_refines_spec ops ts (Hops : ops_ok markCancelled ops (start ts)) :
  ∃ evs w' a', run markCancelled ops (start ts) = Ret (evs, w') ∧ ev_op <$> evs = ops ∧
    spec_trace a_init evs a' ∧ rep w' a'.
Proof. apply run_trace; [done|apply rep_init|done]. Qed.

(** C5: As long as nobody calls [clear], the tasks handed in are, up to
    order, the tasks handed out and the tasks still filed: none is lost or
    duplicated, not even by changes of mode.  [size()] is their number, less the
    number of successful cancellations, modulo [2^64]. *)
Theorem no_task_lost ops ts (Hops : ops_ok markCancelled ops (start ts)) (Hnc : Clear ∉ ops) :
  ∃ evs w' a', run markCancelled ops (start ts) = Ret (evs, w') ∧ rep w' a' ∧
    enqueued evs ≡ₚ dequeued evs ++ filed (a_groups a') ∧
    qm_size (qm w') = w64 (Z.of_nat (length (enqueued evs)) - Z.of_nat (length (dequeued evs)) - cancels evs).
Proof.
  destruct (run_trace markCancelled ops (start ts) a_init markCancelled_prio (rep_init ts) Hops)
    as (evs & w' & a' & Hrun & Hev & Htr & Hrep).
  assert (Hnc' : no_clear evs).
  { intros ev Hin Hop. apply Hnc. rewrite <-Hev, <-Hop. by apply list_elem_of_fmap_2. }
  pose proof (spec_trace_filed _ _ _ Htr Hnc') as Hperm. cbn in Hperm. rewrite app_nil_r in Hperm.
  exists evs, w', a'. split; [done|]. split; [done|]. split; [done|].
  unfold qm_size. rewrite (rep_total _ _ Hrep). unfold a_total. f_equal.
  rewrite (spec_trace_cancelled _ _ _ Htr Hnc'), (Permutation_length Hperm), length_app. cbn. lia.
Qed.

(** C17: In FIFO mode, a client that uses one group gets its tasks back in
    exactly the order it handed them in; what has not come out yet is still
    filed, in order. *)
Theorem fifo_order ops ts g (Hops : ops_ok markCancelled ops (start ts)) (Hg : Forall (one_group g) ops) :
  ∃ evs w' a', run markCancelled ops (start ts) = Ret (evs, w') ∧ rep w' a' ∧
    enqueued evs = dequeued evs ++ group (a_groups a') g.
Proof.
  destruct (run_trace markCancelled ops (start ts) a_init markCancelled_prio (rep_init ts) Hops)
    as (evs & w' & a' & Hrun & Hev & Htr & Hrep).
  exists evs, w', a'. split; [done|]. split; [done|].
  apply (spec_trace_fifo g) in Htr; [done| |by split].
  intros ev Hin. rewrite Forall_forall in Hg. apply Hg. rewrite <-Hev. by apply list_elem_of_fmap_2.
Qed.

End props.
