(* ===== verification/QueueModes.v ===== *)
(** * QueueManager: mode changes, cancellation, statistics, dependency queries

    More consequences of the refinement, and the behaviours of QueueManager.cpp
    that its documentation does not lead one to expect. *)

From S2P Require Import Prelude Task TaskGraph GraphAlgo Dot NodeQueue LockFree SkipList QueueManager.
From S2P Require Import GroupQueues QueueSpec QueueRefine QueueProps.

(** ** What refiling does to one group *)

Lemma insert_all_fifo mode pr ts acc :
  mode = FIFO ∨ mode = ROUND_ROBIN → insert_all mode pr ts acc = acc ++ ts.
Proof.
  intros Hm. unfold insert_all. revert acc. induction ts as [|t ts IH]; intros acc; cbn.
  { by rewrite app_nil_r. }
  rewrite IH. destruct Hm as [-> | ->]; cbn; by rewrite <-app_assoc.
Qed.

Lemma insert_all_lifo pr ts acc : insert_all LIFO pr ts acc = reverse ts ++ acc.
Proof.
  unfold insert_all. revert acc. induction ts as [|t ts IH]; intros acc;
    cbn [foldl insert_for]; [done|].
  by rewrite IH, reverse_cons, <-app_assoc.
Qed.

Section modes.
Context `{SL : SearchLoop}.

(** A mode change of a represented manager, group by group. *)
Lemma setMode_groups e mode w a :
  rep w a → env_ok e → a_mode a ≠ mode →
  ∃ w' a', setMode e mode w = Ret w' ∧ rep w' a' ∧ a_mode a' = mode ∧
    (∀ g, group (a_groups a') g = insert_all mode (prio_of (tasks w)) (group (a_groups a) g) []) ∧
    filed (a_groups a') ≡ₚ filed (a_groups a) ∧ a_cancelled a' = a_cancelled a.
Proof.
  intros Hrep He Hne. destruct (setMode_step e mode w a Hrep He) as (w' & a' & Hset & Hs & Hrep').
  exists w', a'. split; [done|]. split; [done|].
  inversion Hs as [| | | | | | | | | |? ? ? order _ Hnd Hin| | |]; subst; [done|]. cbn.
  split; [done|]. split; [|split; [|done]].
  - intros g. rewrite group_refile by done. f_equal. case_decide as Hg; [done|]. unfold group.
    destruct (a_groups a !! g) eqn:E; [|done]. exfalso. apply Hg, Hin. by eapply elem_of_dom_2.
  - rewrite filed_refile, (listing_filed _ _ Hnd Hin). unfold filed at 2. cbn. by rewrite app_nil_r.
Qed.

(** C18: A change of mode returns, keeps every task in its group and [size()]
    as it was; the new release order of a group is the old one for FIFO and
    ROUND_ROBIN, its reverse for LIFO, and decreasing priority for PRIORITY. *)
Theorem setMode_refiles e mode w a (Hrep : rep w a) (He : env_ok e) (Hne : a_mode a ≠ mode) :
  ∃ w' a', setMode e mode w = Ret w' ∧ rep w' a' ∧ a_mode a' = mode ∧
    qm_size (qm w') = qm_size (qm w) ∧
    ∀ g, group (a_groups a') g ≡ₚ group (a_groups a) g ∧
      match mode with
      | FIFO | ROUND_ROBIN => group (a_groups a') g = group (a_groups a) g
      | LIFO => group (a_groups a') g = reverse (group (a_groups a) g)
      | PRIORITY => StronglySorted (λ t t', prio_of (tasks w') t' ≤ prio_of (tasks w') t) (group (a_groups a') g)
      end.
Proof.
  destruct (setMode_groups e mode w a Hrep He Hne) as (w' & a' & Hset & Hrep' & Hm & Hg & Hf & Hc).
  exists w', a'. split; [done|]. split; [done|]. split; [done|]. split.
  - unfold qm_size. rewrite (rep_total _ _ Hrep), (rep_total _ _ Hrep').
    eapply a_total_ext; [done..|]. by apply Permutation_length.
  - intros g. split.
    + rewrite Hg. clear. assert (Hacc : ∀ acc, insert_all mode (prio_of (tasks w)) (group (a_groups a) g) acc
        ≡ₚ group (a_groups a) g ++ acc); [|by rewrite Hacc, app_nil_r].
      unfold insert_all. induction (group (a_groups a) g) as [|t ts IH]; intros acc; cbn; [done|].
      rewrite IH, insert_for_perm. by rewrite <-Permutation_middle.
    + destruct mode; rewrite ?Hg.
      * by rewrite insert_all_fifo by auto.
      * by rewrite insert_all_lifo, app_nil_r.
      * by rewrite insert_all_fifo by auto.
      * rewrite <-Hg. unfold group. destruct (a_groups a' !! g) as [ts|] eqn:E; [|constructor].
        eapply groups_sorted; [|done]. rewrite <-Hm. apply (rep_queues _ _ Hrep').
Qed.

(** Going from FIFO to LIFO and back reverses every group: the tasks
    that waited longest are then released last. *)
Theorem mode_round_trip_reverses e w a (Hrep : rep w a) (He : env_ok e) (Hm : a_mode a = FIFO) :
  ∃ w1 w2 a2, setMode e LIFO w = Ret w1 ∧ setMode e FIFO w1 = Ret w2 ∧ rep w2 a2 ∧
    ∀ g, group (a_groups a2) g = reverse (group (a_groups a) g).
Proof.
  destruct (setMode_groups e LIFO w a Hrep He) as (w1 & a1 & Hs1 & Hrep1 & Hm1 & Hg1 & _); [by rewrite Hm|].
  destruct (setMode_groups e FIFO w1 a1 Hrep1 He) as (w2 & a2 & Hs2 & Hrep2 & Hm2 & Hg2 & _); [by rewrite Hm1|].
  exists w1, w2, a2. split; [done|]. split; [done|]. split; [done|]. intros g.
  by rewrite Hg2, insert_all_fifo, Hg1, insert_all_lifo, app_nil_r by auto.
Qed.

(** [cancelTask] succeeds exactly on a known task in status QUEUED; it then
    forgets the id and lowers [size()] by one, but the task stays filed where it
    was and will still be handed out. *)
Theorem cancelTask_leaves_task_filed markCancelled e id w a (Hrep : rep w a)
    (Hmc : ∀ now tk, priority_ (markCancelled now tk) = priority_ tk) :
  ∃ b w' a', cancelTask markCancelled e id w = Ret (b, w') ∧ rep w' a' ∧
    (b = true ↔ ∃ t tk, findTask id w = Some t ∧ tasks w !! t = Some tk ∧ status_ tk = QUEUED) ∧
    a_groups a' = a_groups a ∧
    (b = true → findTask id w' = None ∧ qm_size (qm w') = w64 (qm_size (qm w) - 1)).
Proof.
  destruct (cancelTask_step markCancelled e id w a Hmc Hrep) as (b & w' & a' & Hrun & Hs & Hrep').
  exists b, w', a'. split; [done|]. split; [done|].
  assert (Hgr : a_groups a' = a_groups a) by (by inversion Hs).
  unfold cancelTask in Hrun. destruct (findTask id w) as [t|] eqn:Hf.
  2: { injection Hrun as <- <-. split; [|split; [done|done]]. split; [done|]. by intros (? & ? & ? & _). }
  destruct (rep_map _ _ Hrep id t Hf) as [tk Htk]. rewrite Htk in Hrun. cbn in Hrun.
  case_decide as Hq; injection Hrun as <- <-.
  - split; [|split; [done|]].
    + split; [intros _|done]. by exists t, tk.
    + intros _. split; [|done]. unfold findTask. cbn. apply lookup_delete_eq.
  - split; [|split; [done|done]]. split; [done|]. intros (t' & tk' & [= <-] & Htk' & Hs'). by simplify_eq.
Qed.

(** In PRIORITY mode, when the group with the empty name holds the
    strictly highest priority, [dequeue] returns nothing although tasks are filed. *)
Theorem empty_group_blocks_priority e w a t ts (Hrep : rep w a) (He : env_ok e)
    (Hm : a_mode a = PRIORITY) (Hg : a_groups a !! EmptyString = Some (t :: ts))
    (Hmax : ∀ g' t' ts', g' ≠ EmptyString → a_groups a !! g' = Some (t' :: ts') →
      prio_of (tasks w) t' < prio_of (tasks w) t) :
  ∃ w', dequeue e w = Ret (None, w') ∧ rep w' a.
Proof.
  destruct (dequeue_step e w a Hrep He) as (r & w' & a' & Hd & Hs & Hrep').
  exists w'. inversion Hs as [| | |? ? index _ Hst|? ? g1 t1 ts1 index _ Hg1 Hsel| | | | | | | | |]; subst.
  - done.
  - split; [done|]. unfold stuck in Hst. rewrite Hm in Hst. destruct Hst as [-> _]. by destruct a.
  - exfalso. unfold selects in Hsel. rewrite Hm in Hsel. destruct Hsel as (_ & Hne & _ & Hle).
    specialize (Hmax g1 t1 ts1 Hne Hg1). specialize (Hle _ _ _ Hg). lia.
Qed.

Lemma getTaskFrom_keeps_node {Q} `{NodeQueue Q} c g h (M : gmap string Q) t h' M' :
  getTaskFrom false c g h M = Ret (t, h', M') → h' = h.
Proof.
  unfold getTaskFrom. destruct (M !! g) as [q|]; [|naive_solver].
  destruct (nq_empty q) as [[]| | |]; cbn; try naive_solver.
  destruct (nq_pop c h q) as [[[l|] q']| | |]; cbn; try naive_solver.
  destruct (h !! l); cbn; naive_solver.
Qed.

(** In PRIORITY mode a dequeue frees no node: every [TaskNode] allocated
    there stays allocated after its task was handed out. *)
Theorem priority_dequeue_leaks e w r w' (Hm : mode_ (qm w) = PRIORITY) (Hd : dequeue e w = Ret (r, w')) :
  nodes w' = nodes w.
Proof.
  unfold dequeue in Hd. case_match; [by simplify_eq|]. unfold take_task in Hd. rewrite Hm in Hd.
  cbn [fst snd] in Hd. destruct (select_group _ _ _ _ _) as [sel| | |]; cbn in Hd; try done.
  case_decide as Hsel; cbn in Hd; [by simplify_eq|].
  unfold getTaskFromPriority in Hd. cbn [fst snd] in Hd.
  destruct (getTaskFrom _ _ _ _ _) as [[[t h] M]| | |] eqn:Hget; cbn in Hd; try done.
  apply getTaskFrom_keeps_node in Hget as ->. destruct t as [t|]; cbn in Hd; [|by simplify_eq].
  destruct (tasks w !! t); cbn in Hd; by simplify_eq.
Qed.
End modes.

(** ** Dependency queries *)

Section queries.
Context `{SL : SearchLoop}.

(** The subgraph of the tasks reachable from [root]. *)
Lemma subgraph_edges `{!IterOrder Z} root g sub :
  getSubgraph root g = Ret sub →
  (∀ x, x ∈ dom sub ↔ rtc (edge (g_dependencies_ g)) root x) ∧
  (∀ a b, edge sub a b ↔ rtc (edge (g_dependencies_ g)) root a ∧ edge (g_dependencies_ g) a b).
Proof.
  intros Hrun. destruct (getSubgraph_spec root g) as (sub' & Hrun' & Hdom & Hval).
  rewrite Hrun in Hrun'. injection Hrun' as <-. split; [done|]. intros a b. split.
  - intros Hab. pose proof (edge_dom _ _ _ Hab) as Ha. split; [by apply Hdom|].
    unfold edge, set_at in Hab. rewrite (Hval a Ha) in Hab. done.
  - intros [Ha%Hdom Hab]. unfold edge. unfold set_at at 1. by rewrite (Hval a Ha).
Qed.

Lemma tc_subgraph (R S : relation Z) root x y :
  (∀ a b, S a b ↔ rtc R root a ∧ R a b) → rtc R root x → tc R x y → tc S x y.
Proof.
  intros HS Hx Hxy. revert Hx. induction Hxy as [x y Hxy|x y z Hxy Hyz IH]; intros Hx.
  - apply tc_once. by apply HS.
  - eapply tc_l; [by apply HS|]. apply IH. by eapply rtc_r.
Qed.

Lemma is_path_mono g g' p : (∀ a b, edge g a b → edge g' a b) → is_path g p → is_path g' p.
Proof.
  intros Hm. induction p as [|a [|b p] IH]; cbn; [done..|]. intros [Hab Hp]. split; [by apply Hm|].
  by apply IH.
Qed.

(** [getCriticalPath] returns for every root: the empty path when a cycle
    can be reached from it, and otherwise a chain of dependencies that starts at
    the root itself. *)
Theorem getCriticalPath_from_root e root w :
  let R := edge (g_dependencies_ (dependency_graph_ (qm w))) in
  ((∃ x, rtc R root x ∧ tc R x x) → getCriticalPath e root w = Ret []) ∧
  ((∀ x, rtc R root x → ¬ tc R x x) →
    ∃ p, getCriticalPath e root w = Ret (root :: p) ∧
      is_path (g_dependencies_ (dependency_graph_ (qm w))) (root :: p)).
Proof.
  intros R. unfold getCriticalPath. set (io := id_order e).
  destruct (getSubgraph_spec root (dependency_graph_ (qm w))) as (sub & Hrun & _).
  destruct (subgraph_edges _ _ _ Hrun) as [Hdom Hedge]. rewrite Hrun. cbn [mbind outcome_bind].
  fold R in Hdom, Hedge.
  assert (Hclosed : closed sub).
  { intros a b [Ha Hab]%Hedge. apply Hdom. by eapply rtc_r. }
  assert (Hne : sub ≠ ∅).
  { intros ->. assert (Hr : root ∈ dom (∅ : edges)) by (by apply Hdom). set_solver. }
  assert (Hsub : ∀ x y, tc (edge sub) x y → tc R x y ∧ rtc R root x).
  { induction 1 as [x y [Hr Hxy]%Hedge|x y z [Hr Hxy]%Hedge _ [IH _]]; split; try done;
      [by apply tc_once|by eapply tc_l]. }
  split.
  - intros (x & Hx & Hcyc). unfold findCriticalPath. destruct (hasCycle_spec sub) as (b & -> & Hb).
    assert (cyclic sub) as Hc. { exists x. by eapply tc_subgraph. }
    by rewrite (proj2 Hb Hc).
  - intros Hac. destruct (findCriticalPath_spec sub Hclosed) as (x & p & Hp & Hpath & Hx & Hin); [|done|].
    { intros [x Hx]. apply Hsub in Hx as [Hx Hr]. by apply (Hac x). }
    assert (x = root) as ->.
    { apply Hdom in Hx. apply rtc_inv_r in Hx as [->|(u & Hu & Hux)]; [done|]. exfalso.
      apply (Hin u), Hedge. done. }
    exists p. split; [done|]. eapply is_path_mono; [|done]. intros a b Hab. by apply Hedge in Hab as [_ ?].
Qed.

(** [areDependenciesMet] answers for every id, and says yes exactly when
    every dependency recorded in the graph is a known task in status COMPLETED. *)
Theorem qm_areDependenciesMet_spec e id w a (Hrep : rep w a) :
  ∃ b, qm_areDependenciesMet e id w = Ret b ∧
    (b = true ↔ ∀ d, d ∈ getDependencies id (dependency_graph_ (qm w)) →
      ∃ t tk, findTask d w = Some t ∧ tasks w !! t = Some tk ∧ status_ tk = COMPLETED).
Proof.
  unfold qm_areDependenciesMet. set (io := id_order e).
  set (deps := getDependencies id (dependency_graph_ (qm w))).
  assert (Hall : ∀ L, ∃ b, all_completed w L = Ret b ∧ (b = true ↔ ∀ d, d ∈ L →
    ∃ t tk, findTask d w = Some t ∧ tasks w !! t = Some tk ∧ status_ tk = COMPLETED)).
  { induction L as [|d L (b & Hb & Hiff)]; cbn; [exists true; split; [done|set_solver]|].
    destruct (findTask d w) as [t|] eqn:Ht.
    2: { exists false. split; [done|]. split; [done|]. intros Hd. destruct (Hd d) as (? & ? & ? & _); [set_solver|congruence]. }
    destruct (rep_map _ _ Hrep d t Ht) as [tk Htk]. rewrite Htk. cbn. case_decide as Hs.
    - exists b. split; [done|]. rewrite Hiff. split.
      + intros HL d' [->|?]%elem_of_cons; [by exists t, tk|auto].
      + intros HL d' Hd'. apply HL. by right.
    - exists false. split; [done|]. split; [done|]. intros Hd.
      destruct (Hd d) as (t' & tk' & ? & ? & ?); [set_solver|]. congruence. }
  case_decide as Hd; [exists true; split; [done|]; rewrite Hd; set_solver|].
  destruct (Hall (iter deps)) as (b & -> & Hb). exists b. split; [done|]. rewrite Hb.
  by setoid_rewrite elem_of_iter.
Qed.

(** [getQueueSizes] reports, for each group, the number of tasks filed in it. *)
Lemma getQueueSizes_spec w a (Hrep : rep w a) :
  getQueueSizes w = (λ ts, w64 (Z.of_nat (length ts))) <$> a_groups a.
Proof.
  unfold getQueueSizes. rewrite (rep_mode _ _ Hrep). pose proof (rep_queues _ _ Hrep) as Hq.
  destruct (a_mode a); destruct Hq as (Hq & _); by apply groups_ok_sizes in Hq.
Qed.
End queries.
