(* ===== verification/QueueDemo.v ===== *)
(** * QueueManager: worked examples

    A small manager in each mode, built by calls of [enqueue], with the abstract
    state it represents; the theorems of QueueProps.v and QueueModes.v applied
    to it; and the two-task run in which a cancellation loses a task. *)

From S2P Require Import Prelude Task TaskGraph GraphAlgo Dot NodeQueue LockFree SkipList QueueManager.
From S2P Require Import GroupQueues QueueSpec QueueRefine QueueProps QueueModes.

Definition demo_env : env :=
  mkEnv 5000000000 (iter_elements string) (iter_elements Z) (λ _, mkChoices 1 3) (λ _ _, mkChoices 2 1).

Lemma demo_env_ok : env_ok demo_env.
Proof. split; intros; cbv; lia. Qed.

(** Tasks 1, 2, 3 with priorities 50, 200, 100, all in status QUEUED. *)
Definition demo_tasks : gmap loc Task :=
  let mk id p := set_status QUEUED (new_Task 0 id "job" p).1 in
  {[1%positive := mk 1 MEDIUM; 2%positive := mk 2 CRITICAL; 3%positive := mk 3 HIGH]}.

#[local] Existing Instance search_from_top.

Definition enq (t : loc) (g : string) (w : world) : world :=
  match enqueue demo_env (Some t) g w with
  | Ret w' => w'
  | _ => w
  end.

Definition demo_start (mode : QueueMode) : world :=
  mkWorld ∅ demo_tasks (set_mode mode new_QueueManager).

(** Task 1 and 2 in group "a", task 3 in group "b". *)
Definition demo_world (mode : QueueMode) : world :=
  enq 3 "b" (enq 2 "a" (enq 1 "a" (demo_start mode))).

Definition demo_abs (mode : QueueMode) : astate :=
  mkA mode {["a" := match mode with
                    | FIFO | ROUND_ROBIN => [1%positive; 2%positive]
                    | LIFO | PRIORITY => [2%positive; 1%positive]
                    end; "b" := [3%positive]]} ["a"; "b"] 0 0.

Lemma enq_rep t g w a a' :
  rep w a → is_Some (tasks w !! t) → names_fit (g :: group_names_ (qm w)) →
  a' = mkA (a_mode a) (file_in (a_mode a) (prio_of (tasks w)) g t (a_groups a)) (add_name g (a_names a))
         (a_index a) (a_cancelled a) →
  rep (enq t g w) a'.
Proof.
  intros Hrep Ht Hfit ->. unfold enq.
  destruct (enqueue_step demo_env (Some t) g w a Hrep) as (w' & a' & -> & Hs & Hrep').
  { split; [apply demo_env_ok|]. split; [|done]. by intros t' [= <-]. }
  by inversion Hs; subst.
Qed.

Lemma demo_rep mode : rep (demo_world mode) (demo_abs mode).
Proof.
  assert (H0 : rep (demo_start mode) (mkA mode ∅ [] 0 0)).
  { split; try done; [apply queues_ok_empty|]. split; cbn; [done|lia|constructor|set_solver]. }
  assert (H1 := λ Ht Hf, enq_rep 1 "a" _ _ _ H0 Ht Hf eq_refl).
  assert (H2 := λ Ht Hf Ht2 Hf2, enq_rep 2 "a" _ _ _ (H1 Ht Hf) Ht2 Hf2 eq_refl).
  assert (H3 := λ Ht Hf Ht2 Hf2 Ht3 Hf3, enq_rep 3 "b" _ _ _ (H2 Ht Hf Ht2 Hf2) Ht3 Hf3 eq_refl).
  unfold demo_world. destruct mode; (eapply eq_ind_r; [apply H3|]); vm_compute; by eauto.
Qed.

Lemma cancel_prio now tk : priority_ (cancel now tk) = priority_ tk.
Proof. unfold cancel. by case_match. Qed.

Definition demo_ops : list op :=
  [Enqueue demo_env (Some 1%positive) "a"; Enqueue demo_env (Some 2%positive) "a"; Dequeue demo_env;
   Peek demo_env; Dequeue demo_env; Dequeue demo_env].

Lemma demo_ops_ok : ops_ok cancel demo_ops (mkWorld ∅ demo_tasks new_QueueManager).
Proof.
  split; [split_and!; [apply demo_env_ok|intros t [= <-]; by vm_compute; eauto|by vm_compute]|].
  intros r w H. vm_compute in H. injection H as <- <-.
  split; [split_and!; [apply demo_env_ok|intros t [= <-]; by vm_compute; eauto|by vm_compute]|].
  intros _ w _. do 4 (split; [apply demo_env_ok|]; intros _ ? _). exact I.
Qed.

Definition demo_events : list event :=
  match run cancel demo_ops (mkWorld ∅ demo_tasks new_QueueManager) with
  | Ret (evs, _) => evs
  | _ => []
  end.

Lemma demo_events_eq evs w' :
  run cancel demo_ops (mkWorld ∅ demo_tasks new_QueueManager) = Ret (evs, w') → evs = demo_events.
Proof. intros Hrun. unfold demo_events. by rewrite Hrun. Qed.

Lemma manager_refines_spec_witness :
  ∃ evs w' a', run cancel demo_ops (mkWorld ∅ demo_tasks new_QueueManager) = Ret (evs, w') ∧
    spec_trace a_init evs a' ∧ rep w' a'.
Proof.
  destruct (manager_refines_spec cancel cancel_prio demo_ops demo_tasks demo_ops_ok)
    as (evs & w' & a' & Hrun & _ & Htr & Hrep). exists evs, w', a'. exact (conj Hrun (conj Htr Hrep)).
Defined.

Lemma no_task_lost_witness :
  ∃ evs w', run cancel demo_ops (mkWorld ∅ demo_tasks new_QueueManager) = Ret (evs, w') ∧
    enqueued evs = [1%positive; 2%positive] ∧ qm_size (qm w') = 0.
Proof.
  destruct (no_task_lost cancel cancel_prio demo_ops demo_tasks demo_ops_ok)
    as (evs & w' & a' & Hrun & _ & _ & Hsize).
  { intros Hin. repeat (apply elem_of_cons in Hin as [?|Hin]; [done|]). by apply not_elem_of_nil in Hin. }
  exists evs, w'. split; [exact Hrun|]. rewrite Hsize, (demo_events_eq _ _ Hrun).
  split; vm_compute; reflexivity.
Defined.

Lemma fifo_order_witness :
  ∃ evs w', run cancel demo_ops (mkWorld ∅ demo_tasks new_QueueManager) = Ret (evs, w') ∧
    ∃ rest, enqueued evs = dequeued evs ++ rest ∧ dequeued evs = [1%positive; 2%positive].
Proof.
  destruct (fifo_order cancel cancel_prio demo_ops demo_tasks "a" demo_ops_ok) as (evs & w' & a' & Hrun & _ & Hord).
  { repeat constructor. }
  exists evs, w'. split; [exact Hrun|]. eexists. split; [exact Hord|].
  rewrite (demo_events_eq _ _ Hrun). by vm_compute.
Defined.

Lemma dequeue_highest_priority_witness :
  ∃ w', dequeue demo_env (demo_world PRIORITY) = Ret (Some 2%positive, w') ∧
    prio_of (tasks (demo_world PRIORITY)) 3 ≤ prio_of (tasks (demo_world PRIORITY)) 2.
Proof.
  eexists. split; [by vm_compute|].
  eapply (dequeue_highest_priority demo_env (demo_world PRIORITY) (demo_abs PRIORITY) 2%positive);
    [apply demo_rep|apply demo_env_ok|done|by vm_compute|].
  apply elem_of_filed. exists "b", [3%positive]. split; [done|by left].
Defined.

Lemma dequeue_work_conserving_witness :
  ∃ r w' t, dequeue demo_env (demo_world ROUND_ROBIN) = Ret (r, w') ∧ r = Some t ∧
    t ∈ filed (a_groups (demo_abs ROUND_ROBIN)).
Proof.
  destruct (dequeue demo_env (demo_world ROUND_ROBIN)) as [[r w']| | |] eqn:Hd; [|by vm_compute in Hd..].
  edestruct (dequeue_work_conserving demo_env (demo_world ROUND_ROBIN) (demo_abs ROUND_ROBIN) r w')
    as (t & Hr & Ht); [apply demo_rep|apply demo_env_ok|done|vm_compute; lia|by vm_compute|
    intros _; by vm_compute|done|done|].
  exists r, w', t. split; [reflexivity|]. exact (conj Hr Ht).
Defined.


Lemma setMode_refiles_witness :
  ∃ w' a', setMode demo_env LIFO (demo_world FIFO) = Ret w' ∧ rep w' a' ∧
    group (a_groups a') "a" = [2%positive; 1%positive].
Proof.
  destruct (setMode_refiles demo_env LIFO (demo_world FIFO) (demo_abs FIFO)) as (w' & a' & Hs & Hr & _ & _ & Hg);
    [apply demo_rep|apply demo_env_ok|done|].
  exists w', a'. split; [exact Hs|]. split; [exact Hr|]. by destruct (Hg "a") as [_ ->].
Defined.

Lemma mode_round_trip_reverses_witness :
  ∃ w1 w2 a2, setMode demo_env LIFO (demo_world FIFO) = Ret w1 ∧ setMode demo_env FIFO w1 = Ret w2 ∧
    rep w2 a2 ∧ group (a_groups a2) "a" = [2%positive; 1%positive].
Proof.
  destruct (mode_round_trip_reverses demo_env (demo_world FIFO) (demo_abs FIFO))
    as (w1 & w2 & a2 & H1 & H2 & Hr & Hg); [apply demo_rep|apply demo_env_ok|done|].
  exists w1, w2, a2. split; [exact H1|]. split; [exact H2|]. split; [exact Hr|]. by rewrite Hg.
Defined.

Lemma cancelTask_leaves_task_filed_witness :
  ∃ b w' a', cancelTask cancel demo_env 2 (demo_world FIFO) = Ret (b, w') ∧ rep w' a' ∧ b = true ∧
    group (a_groups a') "a" = [1%positive; 2%positive].
Proof.
  destruct (cancelTask_leaves_task_filed cancel demo_env 2 (demo_world FIFO) (demo_abs FIFO))
    as (b & w' & a' & Hrun & Hr & Hb & Hg & _); [apply demo_rep|apply cancel_prio|].
  exists b, w', a'. split; [exact Hrun|]. split; [exact Hr|]. split; [|by rewrite Hg].
  apply Hb. exists 2%positive. eexists. by vm_compute.
Defined.

(** Task 2, the one with the highest priority, in the group without a name. *)
Definition demo_unnamed : world := enq 2 "" (enq 1 "a" (demo_start PRIORITY)).

Lemma demo_unnamed_rep :
  rep demo_unnamed (mkA PRIORITY {["" := [2%positive]; "a" := [1%positive]]} ["a"; ""] 0 0).
Proof.
  assert (H0 : rep (demo_start PRIORITY) (mkA PRIORITY ∅ [] 0 0)).
  { split; try done; [apply queues_ok_empty|]. split; cbn; [done|lia|constructor|set_solver]. }
  assert (H1 := λ Ht Hf, enq_rep 1 "a" _ _ _ H0 Ht Hf eq_refl).
  assert (H2 := λ Ht Hf Ht2 Hf2, enq_rep 2 "" _ _ _ (H1 Ht Hf) Ht2 Hf2 eq_refl).
  eapply eq_ind_r; [apply H2|]; vm_compute; by eauto.
Qed.

Lemma empty_group_blocks_priority_witness :
  ∃ w', dequeue demo_env demo_unnamed = Ret (None, w').
Proof.
  destruct (empty_group_blocks_priority demo_env demo_unnamed _ 2%positive [] demo_unnamed_rep demo_env_ok)
    as (w' & Hd & _); [done|by vm_compute| |by exists w'].
  intros g' t' ts' Hne Hg'. cbn [a_groups] in Hg'. apply lookup_insert_Some in Hg' as [[<- _]|[_ Hg']]; [done|].
  apply lookup_singleton_Some in Hg' as [_ [= <- _]]. by vm_compute.
Defined.

Lemma priority_dequeue_leaks_witness :
  ∃ w', dequeue demo_env (demo_world PRIORITY) = Ret (Some 2%positive, w') ∧
    nodes w' = nodes (demo_world PRIORITY).
Proof.
  eexists. split; [by vm_compute|].
  apply (priority_dequeue_leaks demo_env (demo_world PRIORITY) (Some 2%positive)); by vm_compute.
Defined.

Lemma qm_areDependenciesMet_witness :
  ∃ w', qm_addDependency 1 2 (demo_world FIFO) = Ret w' ∧ qm_areDependenciesMet demo_env 1 w' = Ret false.
Proof.
  destruct (addDependency_step 1 2 _ _ (demo_rep FIFO)) as (w' & Hw & Hrep). exists w'. split; [exact Hw|].
  destruct (qm_areDependenciesMet_spec demo_env 1 w' (demo_abs FIFO) Hrep) as ([] & Hb & Hiff); [|exact Hb].
  exfalso. destruct (proj1 Hiff eq_refl 2) as (t & tk & Ht & Htk & Hs).
  - vm_compute in Hw. injection Hw as <-. by apply (bool_decide_unpack _); vm_compute.
  - vm_compute in Hw. injection Hw as <-. vm_compute in Ht. injection Ht as <-.
    vm_compute in Htk. injection Htk as <-. discriminate Hs.
Defined.

Lemma getQueueSizes_witness : getQueueSizes (demo_world LIFO) = {["a" := 2; "b" := 1]}.
Proof. rewrite (getQueueSizes_spec (demo_world LIFO) (demo_abs LIFO) (demo_rep LIFO)). by vm_compute. Defined.

(** Two tasks are filed and one is cancelled: the next dequeue hands
    out the cancelled one, [size()] is then 0, and the remaining task can no
    longer be dequeued although it is still filed. *)
Theorem cancel_strands_a_task :
  ∃ w1 w2, cancelTask cancel demo_env 1 (enq 2 "a" (enq 1 "a" (demo_start FIFO))) = Ret (true, w1) ∧
    dequeue demo_env w1 = Ret (Some 1%positive, w2) ∧
    status_ <$> tasks w2 !! 1%positive = Some CANCELLED ∧
    qm_size (qm w2) = 0 ∧ dequeue demo_env w2 = Ret (None, w2) ∧ getQueueSizes w2 = {["a" := 1]}.
Proof. do 2 eexists. repeat (split; [by vm_compute|]). by vm_compute. Qed.
