(* ===== verification/ThreadPool.v ===== *)
(** * ThreadPool: workers, stop, resizing

    Models include/core/ThreadPool.hpp and src/core/ThreadPool.cpp.  The pool and
    its workers form one state: a worker is a control point inside
    [workerFunction], and [worker_action] is one atomic step of it; any worker may
    take the next step.  The methods that do not block are functions on the
    state; [stop] begins, waits for the workers, and ends.

    The pool calls [tryDequeue], [pause], [resume] and [getQueuedCount] of its
    queue manager, which QueueManager does not declare, and the pure virtual
    [Task::execute]: the first are the parameter [PoolQueue], the second returns
    or throws as it likes.  A [shared_ptr] a worker holds keeps its task alive.
    The ghost fields record which tasks were submitted and which had [execute]
    called. *)

From stdpp Require Import pretty.
From S2P Require Import Prelude Task.

(** The members of the queue manager that the pool uses, and what they do to the
    collection of queued tasks. *)
Class PoolQueue (Q : Type) := {
  tryDequeue : Q → option loc * Q;
  queue_pause : Q → Q;
  queue_resume : Q → Q;
  getQueuedCount : Q → Z;
  contents : Q → list loc;
  tryDequeue_contents q :
    match tryDequeue q with
    | (Some t, q') => contents q ≡ₚ t :: contents q'
    | (None, q') => contents q ≡ₚ contents q'
    end;
  queue_pause_contents q : contents (queue_pause q) ≡ₚ contents q;
  queue_resume_contents q : contents (queue_resume q) ≡ₚ contents q
}.

Record WorkerHealth : Type := mkHealth {
  last_heartbeat : Z;
  wh_tasks_processed : Z;
  is_busy : bool
}.

Definition new_WorkerHealth : WorkerHealth := mkHealth 0 0 false.

(** Where a worker is in [workerFunction]; [t] is its local [task]. *)
Inductive wpc : Type :=
| WTest                          (* while (!should_stop_) *)
| WBeat                          (* health.last_heartbeat.store(now) *)
| WIdle                          (* health.is_busy = false *)
| WTake                          (* tryDequeue(task) *)
| WBusy (t : loc)                (* health.is_busy = true *)
| WEnter (t : loc)               (* active_threads_++ *)
| WStart (t : loc)               (* task->markStarted() *)
| WExecute (t : loc)             (* task->execute() *)
| WComplete (t : loc)            (* task->markCompleted() *)
| WFail (t : loc) (what : string) (* task->markFailed(e.what()) *)
| WCount                         (* tasks_processed_++ *)
| WLatency                       (* total_task_latency_ += ... *)
| WTally                         (* health.tasks_processed++ *)
| WLeave                         (* active_threads_-- *)
| WSleep                         (* sleep_for(1ms) *)
| WDone.                         (* returned *)

Section pool.
Context {Q : Type} `{PQ : PoolQueue Q}.

(** A slot of [threads_] is [None] when the [std::thread] is not joinable. *)
Record ThreadPool : Type := mkPool {
  threads_ : list (option wpc);
  queue_manager_ : Q;
  should_stop_ : bool;
  paused_ : bool;
  active_threads_ : Z;
  pool_tasks_processed_ : Z;
  total_task_latency_ : Z;
  worker_health_ : list WorkerHealth;
  pool_tasks : gmap loc Task;
  submitted : list loc;
  executed : list loc
}.

Definition set_threads (v : list (option wpc)) (p : ThreadPool) : ThreadPool :=
  mkPool v (queue_manager_ p) (should_stop_ p) (paused_ p) (active_threads_ p)
    (pool_tasks_processed_ p) (total_task_latency_ p) (worker_health_ p) (pool_tasks p)
    (submitted p) (executed p).
Definition set_manager (v : Q) (p : ThreadPool) : ThreadPool :=
  mkPool (threads_ p) v (should_stop_ p) (paused_ p) (active_threads_ p)
    (pool_tasks_processed_ p) (total_task_latency_ p) (worker_health_ p) (pool_tasks p)
    (submitted p) (executed p).
Definition set_flags (stop pause : bool) (p : ThreadPool) : ThreadPool :=
  mkPool (threads_ p) (queue_manager_ p) stop pause (active_threads_ p)
    (pool_tasks_processed_ p) (total_task_latency_ p) (worker_health_ p) (pool_tasks p)
    (submitted p) (executed p).
Definition set_active (v : Z) (p : ThreadPool) : ThreadPool :=
  mkPool (threads_ p) (queue_manager_ p) (should_stop_ p) (paused_ p) v
    (pool_tasks_processed_ p) (total_task_latency_ p) (worker_health_ p) (pool_tasks p)
    (submitted p) (executed p).
Definition set_processed (v : Z) (p : ThreadPool) : ThreadPool :=
  mkPool (threads_ p) (queue_manager_ p) (should_stop_ p) (paused_ p) (active_threads_ p)
    v (total_task_latency_ p) (worker_health_ p) (pool_tasks p) (submitted p) (executed p).
Definition set_latency (v : Z) (p : ThreadPool) : ThreadPool :=
  mkPool (threads_ p) (queue_manager_ p) (should_stop_ p) (paused_ p) (active_threads_ p)
    (pool_tasks_processed_ p) v (worker_health_ p) (pool_tasks p) (submitted p) (executed p).
Definition set_health (v : list WorkerHealth) (p : ThreadPool) : ThreadPool :=
  mkPool (threads_ p) (queue_manager_ p) (should_stop_ p) (paused_ p) (active_threads_ p)
    (pool_tasks_processed_ p) (total_task_latency_ p) v (pool_tasks p) (submitted p) (executed p).
Definition set_pool_tasks (v : gmap loc Task) (p : ThreadPool) : ThreadPool :=
  mkPool (threads_ p) (queue_manager_ p) (should_stop_ p) (paused_ p) (active_threads_ p)
    (pool_tasks_processed_ p) (total_task_latency_ p) (worker_health_ p) v (submitted p) (executed p).
Definition log_submit (t : loc) (p : ThreadPool) : ThreadPool :=
  mkPool (threads_ p) (queue_manager_ p) (should_stop_ p) (paused_ p) (active_threads_ p)
    (pool_tasks_processed_ p) (total_task_latency_ p) (worker_health_ p) (pool_tasks p)
    (t :: submitted p) (executed p).
Definition log_execute (t : loc) (p : ThreadPool) : ThreadPool :=
  mkPool (threads_ p) (queue_manager_ p) (should_stop_ p) (paused_ p) (active_threads_ p)
    (pool_tasks_processed_ p) (total_task_latency_ p) (worker_health_ p) (pool_tasks p)
    (submitted p) (t :: executed p).

(** The worker's own health record, and a method of its task. *)
Definition on_health (i : nat) (f : WorkerHealth → WorkerHealth) (p : ThreadPool) : ThreadPool :=
  set_health (alter f i (worker_health_ p)) p.

Definition on_task (t : loc) (f : Task → Task) (p : ThreadPool) : ThreadPool :=
  set_pool_tasks (alter f t (pool_tasks p)) p.

(** ** The worker *)

(** One step of worker [i]: its position and the pool before, and after.  [now]
    and [d] are clock readings; [execute] may return or throw. *)
Inductive worker_action (i : nat) : wpc → ThreadPool → wpc → ThreadPool → Prop :=
| act_test p : worker_action i WTest p (if should_stop_ p then WDone else WBeat) p
| act_beat now p :
    worker_action i WBeat p WIdle
      (on_health i (λ h, mkHealth now (wh_tasks_processed h) (is_busy h)) p)
| act_idle p :
    worker_action i WIdle p WTake
      (on_health i (λ h, mkHealth (last_heartbeat h) (wh_tasks_processed h) false) p)
| act_take p :
    worker_action i WTake p
      (match (tryDequeue (queue_manager_ p)).1 with Some t => WBusy t | None => WSleep end)
      (set_manager (tryDequeue (queue_manager_ p)).2 p)
| act_busy t p :
    worker_action i (WBusy t) p (WEnter t)
      (on_health i (λ h, mkHealth (last_heartbeat h) (wh_tasks_processed h) true) p)
| act_enter t p : worker_action i (WEnter t) p (WStart t) (set_active (w64 (active_threads_ p + 1)) p)
| act_start t now p : worker_action i (WStart t) p (WExecute t) (on_task t (markStarted now) p)
| act_execute t p : worker_action i (WExecute t) p (WComplete t) (log_execute t p)
| act_execute_throw t what p : worker_action i (WExecute t) p (WFail t what) (log_execute t p)
| act_complete t now p : worker_action i (WComplete t) p WCount (on_task t (markCompleted now) p)
| act_fail t what now p : worker_action i (WFail t what) p WCount (on_task t (markFailed now what) p)
| act_count p :
    worker_action i WCount p WLatency (set_processed (w64 (pool_tasks_processed_ p + 1)) p)
| act_latency d p : worker_action i WLatency p WTally (set_latency (total_task_latency_ p + d) p)
| act_tally p :
    worker_action i WTally p WLeave
      (on_health i (λ h, mkHealth (last_heartbeat h) (w64 (wh_tasks_processed h + 1)) (is_busy h)) p)
| act_leave p : worker_action i WLeave p WTest (set_active (w64 (active_threads_ p - 1)) p)
| act_sleep p : worker_action i WSleep p WTest p.

Inductive worker_step : ThreadPool → ThreadPool → Prop :=
| worker_step_intro p i c c' p' :
    threads_ p !! i = Some (Some c) → worker_action i c p c' p' →
    worker_step p (set_threads (<[i := Some c']> (threads_ p')) p').

(** ** Control *)

Definition resize {A} (n : nat) (x : A) (l : list A) : list A := take n l ++ replicate (n - length l) x.

Definition adjustThreadPool (target_size : nat) (p : ThreadPool) : ThreadPool :=
  let p := set_health (resize target_size new_WorkerHealth (worker_health_ p)) p in
  if decide (length (threads_ p) < target_size)%nat then
    set_threads (resize target_size (if should_stop_ p then None else Some WTest) (threads_ p)) p
  else p.

Definition new_ThreadPool (num_threads : nat) (q : Q) (ts : gmap loc Task) : ThreadPool :=
  adjustThreadPool num_threads
    (mkPool [] q false false 0 0 0 (resize num_threads new_WorkerHealth []) ts (contents q) []).

Definition start (p : ThreadPool) : ThreadPool :=
  let p := set_flags false false p in
  set_threads ((λ th, match th with None => Some WTest | Some c => Some c end) <$> threads_ p) p.

Definition pause (p : ThreadPool) : ThreadPool :=
  let p := set_flags (should_stop_ p) true p in set_manager (queue_pause (queue_manager_ p)) p.

Definition resume (p : ThreadPool) : ThreadPool :=
  let p := set_flags (should_stop_ p) false p in set_manager (queue_resume (queue_manager_ p)) p.

(** [stop] before the joins, what the joins wait for, and [stop] after them. *)
Definition stop_begin (p : ThreadPool) : ThreadPool :=
  let p := set_flags true (paused_ p) p in set_manager (queue_resume (queue_manager_ p)) p.

Definition all_done (p : ThreadPool) : Prop :=
  ∀ i c, threads_ p !! i = Some (Some c) → c = WDone.

Definition stop_end (p : ThreadPool) : ThreadPool := set_active 0 (set_threads [] p).

(** A whole call of [stop]: the other workers run while it waits. *)
Definition stop (p p' : ThreadPool) : Prop :=
  ∃ p1, rtc worker_step (stop_begin p) p1 ∧ all_done p1 ∧ p' = stop_end p1.

Inductive setNumThreads (num_threads : nat) : ThreadPool → ThreadPool → Prop :=
| resize_same p : num_threads = length (threads_ p) → setNumThreads num_threads p p
| resize_grow p : (length (threads_ p) < num_threads)%nat →
    setNumThreads num_threads p
      (let p1 := adjustThreadPool num_threads p in if should_stop_ p1 then p1 else start p1)
| resize_shrink p p0 : (num_threads < length (threads_ p))%nat → stop p p0 →
    setNumThreads num_threads p
      (let p1 := adjustThreadPool num_threads p0 in if should_stop_ p1 then p1 else start p1).

(** ** Reports *)

Definition getNumThreads (p : ThreadPool) : nat := length (threads_ p).

Definition getActiveThreads (p : ThreadPool) : Z := active_threads_ p.

Definition getTasksProcessed (p : ThreadPool) : Z := pool_tasks_processed_ p.

Definition getTasksQueued (p : ThreadPool) : Z := getQueuedCount (queue_manager_ p).

(** [getAverageTaskLatency] as the quotient it computes, [None] for [0.0]. *)
Definition getAverageTaskLatency (p : ThreadPool) : option (Z * Z) :=
  if decide (pool_tasks_processed_ p = 0) then None
  else Some (total_task_latency_ p, pool_tasks_processed_ p).

(** Whole seconds since the last heartbeat. *)
Definition beat_age (now : Z) (h : WorkerHealth) : Z := Z.quot (now - last_heartbeat h) 1000000000.

Definition isHealthy (now : Z) (p : ThreadPool) : bool :=
  forallb (λ h, negb (bool_decide (5 < beat_age now h))) (worker_health_ p).

Definition getWorkerStatus (now : Z) (p : ThreadPool) : list string :=
  imap (λ i h, "Worker " +:+ pretty i +:+ ": " +:+ (if is_busy h then "Busy" else "Idle")
    +:+ ", Tasks: " +:+ pretty (wh_tasks_processed h) +:+ ", Last heartbeat: "
    +:+ pretty (beat_age now h) +:+ "s ago") (worker_health_ p).

(** [submit]: a new task at address [t] whose [execute] calls the packaged function,
    handed to the queue, which becomes [q]. *)
Definition submit (now next_id : Z) (t : loc) (q : Q) (p : ThreadPool) : ThreadPool :=
  log_submit t (set_manager q
    (set_pool_tasks (<[t := (new_Task now next_id "async_task" MEDIUM).1]> (pool_tasks p)) p)).

(** A running pool: workers step, and clients pause, resume and submit. *)
Inductive pool_step : ThreadPool → ThreadPool → Prop :=
| step_worker p p' : worker_step p p' → pool_step p p'
| step_pause p : pool_step p (pause p)
| step_resume p : pool_step p (resume p)
| step_submit p t q now next_id : contents q ≡ₚ t :: contents (queue_manager_ p) →
    pool_tasks p !! t = None → pool_step p (submit now next_id t q p).
End pool.

Arguments ThreadPool Q : clear implicits.

(** ** Counting over the workers *)

Definition tally (f : wpc → nat) (ths : list (option wpc)) : nat :=
  sum_list_with (λ th, match th with Some c => f c | None => 0%nat end) ths.

(** Between [active_threads_++] and [active_threads_--]. *)
Definition active_at (c : wpc) : nat :=
  match c with
  | WStart _ | WExecute _ | WComplete _ | WFail _ _ | WCount | WLatency | WTally | WLeave => 1%nat
  | _ => 0%nat
  end.

(** After [execute()] and before [tasks_processed_++]. *)
Definition uncounted_at (c : wpc) : nat :=
  match c with
  | WComplete _ | WFail _ _ | WCount => 1%nat
  | _ => 0%nat
  end.

(** The task a worker took and has not executed yet. *)
Definition holds (c : wpc) : list loc :=
  match c with
  | WBusy t | WEnter t | WStart t | WExecute t => [t]
  | _ => []
  end.

Definition held (ths : list (option wpc)) : list loc :=
  ths ≫= λ th, match th with Some c => holds c | None => [] end.

Arguments tally : simpl never.
Arguments held : simpl never.

(** Steps a worker still takes once [should_stop_] is set. *)
Definition steps_left (c : wpc) : nat :=
  match c with
  | WDone => 0 | WTest => 1 | WLeave | WSleep => 2 | WTally => 3 | WLatency => 4 | WCount => 5
  | WComplete _ | WFail _ _ => 6 | WExecute _ => 7 | WStart _ => 8 | WEnter _ => 9 | WBusy _ => 10
  | WTake => 11 | WIdle => 12 | WBeat => 13
  end%nat.

Lemma split_at (ths : list (option wpc)) i c c' :
  ths !! i = Some (Some c) →
  ∃ l r, ths = l ++ Some c :: r ∧ <[i := Some c']> ths = l ++ Some c' :: r.
Proof.
  intros Hi. exists (take i ths), (drop (S i) ths). split.
  - by rewrite take_drop_middle.
  - apply insert_take_drop. by eapply lookup_lt_Some.
Qed.

Lemma tally_insert f ths i c c' :
  ths !! i = Some (Some c) → (tally f (<[i := Some c']> ths) + f c = tally f ths + f c')%nat.
Proof.
  intros Hi. destruct (split_at ths i c c' Hi) as (l & r & -> & ->). unfold tally.
  rewrite !sum_list_with_app. cbn. lia.
Qed.

Lemma held_insert ths i c c' :
  ths !! i = Some (Some c) → holds c ++ held (<[i := Some c']> ths) ≡ₚ holds c' ++ held ths.
Proof.
  intros Hi. destruct (split_at ths i c c' Hi) as (l & r & -> & ->). unfold held.
  rewrite !bind_app. cbn. solve_Permutation.
Qed.

Lemma tally_zero f ths : (∀ i c, ths !! i = Some (Some c) → f c = 0%nat) → tally f ths = 0%nat.
Proof.
  unfold tally. induction ths as [|th ths IH]; intros Hz; [done|]. cbn.
  rewrite IH by (intros i; apply (Hz (S i))). destruct th as [c|]; [|done]. by rewrite (Hz 0%nat c).
Qed.

Lemma held_nil ths : (∀ i c, ths !! i = Some (Some c) → holds c = []) → held ths = [].
Proof.
  unfold held. induction ths as [|th ths IH]; intros Hz; [done|]. cbn.
  rewrite IH by (intros i; apply (Hz (S i))). destruct th as [c|]; [|done]. by rewrite (Hz 0%nat c).
Qed.

Lemma tally_bound f k ths : (∀ c, f c ≤ k)%nat → (tally f ths ≤ k * length ths)%nat.
Proof.
  intros Hf. unfold tally. induction ths as [|th ths IH]; cbn; [lia|].
  destruct th as [c|]; [specialize (Hf c)|]; lia.
Qed.

Section proofs.
Context {Q : Type} `{PQ : PoolQueue Q}.

(** What holds of a pool at every moment. *)
Record pool_inv (p : ThreadPool Q) : Prop := {
  inv_active : active_threads_ p = w64 (Z.of_nat (tally active_at (threads_ p)));
  inv_counted : w64 (pool_tasks_processed_ p + Z.of_nat (tally uncounted_at (threads_ p)))
    = w64 (Z.of_nat (length (executed p)));
  inv_processed : 0 ≤ pool_tasks_processed_ p < 2 ^ 64;
  inv_bag : submitted p ≡ₚ contents (queue_manager_ p) ++ held (threads_ p) ++ executed p;
  inv_health : (length (threads_ p) ≤ length (worker_health_ p))%nat
}.

(** An action leaves the slots of the threads and the stop flag alone. *)
Lemma action_frame i c p c' p' :
  worker_action i c p c' p' →
  threads_ p' = threads_ p ∧ should_stop_ p' = should_stop_ p ∧ submitted p' = submitted p ∧
  length (worker_health_ p') = length (worker_health_ p).
Proof. destruct 1; cbn; rewrite ?length_alter; done. Qed.

Lemma action_active i c p c' p' :
  worker_action i c p c' p' →
  w64 (active_threads_ p' + Z.of_nat (active_at c)) = w64 (active_threads_ p + Z.of_nat (active_at c')).
Proof.
  destruct 1; cbn; try (by repeat case_match); rewrite ?w64_add_l; f_equal; lia.
Qed.

Lemma action_counted i c p c' p' :
  worker_action i c p c' p' →
  w64 (pool_tasks_processed_ p' + Z.of_nat (uncounted_at c') + Z.of_nat (length (executed p)))
  = w64 (pool_tasks_processed_ p + Z.of_nat (uncounted_at c) + Z.of_nat (length (executed p'))).
Proof.
  destruct 1; cbn; try (by repeat case_match); try (f_equal; lia).
  rewrite <-Z.add_assoc, w64_add_l. f_equal; lia.
Qed.

Lemma action_bag i c p c' p' :
  worker_action i c p c' p' →
  contents (queue_manager_ p') ++ holds c' ++ executed p' ≡ₚ contents (queue_manager_ p) ++ holds c ++ executed p.
Proof.
  destruct 1 as [| | | p| | | | | | | | | | | |]; cbn; try done; [by case_match|].
  pose proof (tryDequeue_contents (queue_manager_ p)) as Hd.
  destruct (tryDequeue (queue_manager_ p)) as [[t|] q]; cbn in *; rewrite Hd; [|done].
  solve_Permutation.
Qed.

Lemma action_range i c p c' p' :
  worker_action i c p c' p' → 0 ≤ active_threads_ p < 2 ^ 64 → 0 ≤ pool_tasks_processed_ p < 2 ^ 64 →
  0 ≤ active_threads_ p' < 2 ^ 64 ∧ 0 ≤ pool_tasks_processed_ p' < 2 ^ 64.
Proof. destruct 1; cbn; intros; split; auto using w64_range. Qed.

Lemma worker_step_inv p p' : pool_inv p → worker_step p p' → pool_inv p'.
Proof.
  intros [Hact Hcnt Hproc Hbag Hlen] Hstep. destruct Hstep as [p i c c' p' Hi Ha].
  destruct (action_frame _ _ _ _ _ Ha) as (Hth & _ & Hsub & Hh).
  pose proof (tally_insert active_at _ _ _ c' Hi) as Hta.
  pose proof (tally_insert uncounted_at _ _ _ c' Hi) as Htu.
  destruct (action_range _ _ _ _ _ Ha) as [Hra Hrp]; [rewrite Hact; apply w64_range|done|].
  split; cbn; rewrite ?Hth, ?Hsub, ?length_insert; try done; try lia.
  - rewrite <-(w64_small (active_threads_ p')) by done.
    apply (w64_cancel _ _ (Z.of_nat (active_at c))). rewrite (action_active _ _ _ _ _ Ha), Hact, w64_add_l.
    apply (f_equal w64). lia.
  - apply (w64_cancel _ _ (Z.of_nat (length (executed p)) + Z.of_nat (uncounted_at c))).
    transitivity (w64 (pool_tasks_processed_ p' + Z.of_nat (uncounted_at c') + Z.of_nat (length (executed p))
      + Z.of_nat (tally uncounted_at (threads_ p)))); [apply (f_equal w64); lia|].
    rewrite <-w64_add_l, (action_counted _ _ _ _ _ Ha), w64_add_l.
    transitivity (w64 (pool_tasks_processed_ p + Z.of_nat (tally uncounted_at (threads_ p))
      + (Z.of_nat (length (executed p')) + Z.of_nat (uncounted_at c)))); [apply (f_equal w64); lia|].
    rewrite <-w64_add_l, Hcnt, w64_add_l. apply (f_equal w64). lia.
  - rewrite Hbag. apply (Permutation_app_inv_l (holds c)).
    pose proof (action_bag _ _ _ _ _ Ha) as Hb. pose proof (held_insert _ _ _ c' Hi) as Hhe.
    transitivity ((contents (queue_manager_ p) ++ holds c ++ executed p) ++ held (threads_ p)); [solve_Permutation|].
    rewrite <-Hb. transitivity (contents (queue_manager_ p') ++ executed p' ++ (holds c' ++ held (threads_ p)));
      [solve_Permutation|]. rewrite <-Hhe. solve_Permutation.
Qed.

Lemma pool_step_inv p p' : pool_inv p → pool_step p p' → pool_inv p'.
Proof.
  intros Hinv Hs. destruct Hs as [p p' Hw|p|p|p t q now next_id Hq _]; [by eapply worker_step_inv|..].
  all: destruct Hinv as [Hact Hcnt Hproc Hbag Hlen]; split; cbn; try done.
  - by rewrite queue_pause_contents.
  - by rewrite queue_resume_contents.
  - rewrite Hq, Hbag. done.
Qed.

Lemma pool_inv_reach p p' : pool_inv p → rtc pool_step p p' → pool_inv p'.
Proof. intros Hinv. induction 1; eauto using pool_step_inv. Qed.

Lemma worker_inv_reach p p' : pool_inv p → rtc worker_step p p' → pool_inv p'.
Proof. intros Hinv. induction 1; eauto using worker_step_inv. Qed.

Lemma length_resize {A} n (x : A) l : length (resize n x l) = n.
Proof. unfold resize. rewrite length_app, length_take, length_replicate. lia. Qed.

Lemma new_pool_inv n q ts : pool_inv (new_ThreadPool n q ts).
Proof.
  unfold new_ThreadPool, adjustThreadPool. cbn. case_decide; split; cbn; rewrite ?length_resize; try done; try lia.
  - unfold resize. rewrite take_nil. cbn. rewrite tally_zero; [done|].
    intros i c Hi. apply lookup_replicate in Hi as [[= ->] _]. done.
  - unfold resize. rewrite take_nil. cbn. rewrite tally_zero; [done|].
    intros i c Hi. apply lookup_replicate in Hi as [[= ->] _]. done.
  - unfold resize. rewrite take_nil. cbn. rewrite held_nil; [by rewrite app_nil_r|].
    intros i c Hi. apply lookup_replicate in Hi as [[= ->] _]. done.
  - by rewrite app_nil_r.
Qed.
End proofs.

Section stopping.
Context {Q : Type} `{PQ : PoolQueue Q}.

Lemma action_steps_left i c p c' p' :
  worker_action i c p c' p' → should_stop_ p = true → (steps_left c' < steps_left c)%nat.
Proof.
  destruct 1; cbn; intros Hs; try lia; [rewrite Hs; cbn; lia|]. case_match; cbn; lia.
Qed.

Lemma worker_step_left p p' :
  worker_step p p' → should_stop_ p = true →
  should_stop_ p' = true ∧ length (threads_ p') = length (threads_ p) ∧
  (tally steps_left (threads_ p') < tally steps_left (threads_ p))%nat.
Proof.
  intros [p0 i c c' p1 Hi Ha] Hs. destruct (action_frame _ _ _ _ _ Ha) as (Hth & Hst & _).
  pose proof (action_steps_left _ _ _ _ _ Ha Hs) as Hlt. cbn. rewrite Hth, Hst, length_insert.
  pose proof (tally_insert steps_left _ _ _ c' Hi). split; [done|]. split; [done|lia].
Qed.

Lemma worker_steps_bound n p p' :
  nsteps worker_step n p p' → should_stop_ p = true →
  (n + tally steps_left (threads_ p') ≤ tally steps_left (threads_ p))%nat.
Proof.
  induction 1 as [p|n p p1 p' Hs _ IH]; intros Hst; [lia|].
  destruct (worker_step_left _ _ Hs Hst) as (Hst1 & _ & Hlt). specialize (IH Hst1). lia.
Qed.

Lemma worker_steps_stop p p' :
  rtc worker_step p p' → should_stop_ p = true → should_stop_ p' = true.
Proof. induction 1 as [|p p1 p' Hs _ IH]; intros Hst; [done|]. by apply IH, (worker_step_left p). Qed.

(** Every position but the last has a next action. *)
Lemma action_exists i c (p : ThreadPool Q) : c ≠ WDone → ∃ c' p', worker_action i c p c' p'.
Proof.
  intros Hc. destruct c; try done; do 2 eexists;
    first [apply (act_beat _ 0) | apply (act_start _ _ 0) | apply (act_complete _ _ 0)
          | apply (act_fail _ _ _ 0) | apply (act_latency _ 0) | constructor].
Qed.

Lemma find_running (ths : list (option wpc)) :
  (∀ i c, ths !! i = Some (Some c) → c = WDone) ∨ ∃ i c, ths !! i = Some (Some c) ∧ c ≠ WDone.
Proof.
  induction ths as [|th ths IH]; [by left|].
  assert (Hth : (∀ c, th = Some c → c = WDone) ∨ ∃ c, th = Some c ∧ c ≠ WDone).
  { destruct th as [[]|]; try (right; eexists; split; [done|discriminate]); left; congruence. }
  destruct Hth as [Hth|(c & -> & Hc)]; [|by right; exists 0%nat, c].
  destruct IH as [IH|(i & c & Hi & Hc)]; [left|by right; exists (S i), c].
  intros [|i] c Hi; [by injection Hi as ->; apply Hth|by eapply IH].
Qed.

Lemma done_or_step p : all_done p ∨ ∃ p', worker_step p p'.
Proof.
  destruct (find_running (threads_ p)) as [Hd|(i & c & Hi & Hc)]; [by left|right].
  destruct (action_exists i c p Hc) as (c' & p' & Ha). eexists. by econstructor.
Qed.


(** C21: At every moment of a running pool, under every interleaving of its
    workers and clients, each submitted task is in exactly one place: still
    queued, in the hands of one worker before its [execute], or executed, once;
    and [active_threads_] is the number of workers inside their task section. *)
Theorem pool_executes_once n q ts (p : ThreadPool Q) (Hrun : rtc pool_step (new_ThreadPool n q ts) p) :
  submitted p ≡ₚ contents (queue_manager_ p) ++ held (threads_ p) ++ executed p ∧
  getActiveThreads p = w64 (Z.of_nat (tally active_at (threads_ p))) ∧
  (length (threads_ p) ≤ length (worker_health_ p))%nat.
Proof.
  pose proof (pool_inv_reach _ _ (new_pool_inv n q ts) Hrun) as [Hact _ _ Hbag Hlen]. done.
Qed.

(** C20: When [stop] returns, no task is in flight: every submitted task is
    still queued or was executed exactly once, [tasks_processed_] counts the
    executions, and no worker is left. *)
Theorem stop_leaves_nothing_in_flight n q ts (p p' : ThreadPool Q)
    (Hrun : rtc pool_step (new_ThreadPool n q ts) p) (Hstop : stop p p') :
  submitted p' ≡ₚ contents (queue_manager_ p') ++ executed p' ∧
  getTasksProcessed p' = w64 (Z.of_nat (length (executed p'))) ∧
  getNumThreads p' = 0%nat ∧ getActiveThreads p' = 0.
Proof.
  destruct Hstop as (p1 & Hw & Hdone & ->).
  assert (Hinv : pool_inv (stop_begin p)).
  { destruct (pool_inv_reach _ _ (new_pool_inv n q ts) Hrun) as [Hact Hcnt Hproc Hbag Hlen].
    split; cbn; try done. by rewrite queue_resume_contents. }
  destruct (worker_inv_reach _ _ Hinv Hw) as [_ Hcnt Hproc Hbag _].
  rewrite held_nil in Hbag by (intros i c Hi; by rewrite (Hdone i c Hi)).
  rewrite tally_zero, Z.add_0_r, (w64_small (pool_tasks_processed_ p1)) in Hcnt;
    [|done|intros i c Hi; by rewrite (Hdone i c Hi)].
  done.
Qed.

(** Asking for fewer threads stops the pool for good: [setNumThreads]
    calls [stop], which leaves [should_stop_] set, so the new threads are never
    started although [getNumThreads] reports them, and no task is taken again. *)
Theorem shrink_stops_pool n (p p' : ThreadPool Q) (Hn : (n < length (threads_ p))%nat)
    (Hset : setNumThreads n p p') :
  getNumThreads p' = n ∧ should_stop_ p' = true ∧ (∀ th, th ∈ threads_ p' → th = None) ∧
  ∀ p2, ¬ worker_step p' p2.
Proof.
  destruct Hset as [p He|p Hg|p p0 _ Hstop]; [lia..|].
  destruct Hstop as (p1 & Hw & _ & ->).
  pose proof (worker_steps_stop _ _ Hw eq_refl) as Hs. unfold getNumThreads.
  assert (Hp' : threads_ (adjustThreadPool n (stop_end p1)) = replicate n None ∧
    should_stop_ (adjustThreadPool n (stop_end p1)) = true).
  { unfold adjustThreadPool, resize. cbn. case_decide; cbn; rewrite ?take_nil, ?Nat.sub_0_r, ?Hs; cbn; [done|].
    by replace n with 0%nat by lia. }
  destruct Hp' as [Hth Hst]. cbn zeta. rewrite Hst, Hth, length_replicate.
  assert (Hnone : ∀ i th, replicate n None !! i = Some th → th = @None wpc).
  { intros i th Hi. by apply lookup_replicate in Hi as [-> _]. }
  split; [done|]. split; [done|]. split.
  - intros th [i Hi]%list_elem_of_lookup. eauto.
  - intros p2 Hstep. inversion Hstep as [p3 i c c' p4 Hi Ha]; subst. rewrite Hth in Hi.
    by apply Hnone in Hi.
Qed.

(** The section of [workerFunction] that runs one task, without other threads;
    [thrown] is the text of the exception that left [execute], if any. *)
Definition runs_task (i : nat) (t : loc) (thrown : option string) (p p' : ThreadPool Q) : Prop :=
  let c := match thrown with None => WComplete t | Some what => WFail t what end in
  ∃ p1 p2, worker_action i (WStart t) p (WExecute t) p1 ∧ worker_action i (WExecute t) p1 c p2 ∧
    worker_action i c p2 WCount p'.

(** What [markStarted] and then the end of the section make of the task. *)
Lemma markStarted_queued now tk :
  status_ tk = QUEUED → markStarted now tk = set_started_at now (set_status RUNNING tk).
Proof. intros Hs. unfold markStarted, cas_status. by rewrite decide_True. Qed.

Lemma markStarted_created now tk : status_ tk = CREATED → markStarted now tk = tk.
Proof. intros Hs. unfold markStarted, cas_status. by rewrite decide_False by (by rewrite Hs). Qed.

Lemma markCompleted_status now tk :
  status_ (markCompleted now tk) = if decide (status_ tk = RUNNING) then COMPLETED else status_ tk.
Proof. unfold markCompleted, cas_status. by case_decide. Qed.

Lemma markFailed_status now what tk :
  status_ (markFailed now what tk) =
    if decide (status_ tk = RUNNING) then (if canRetry tk then CREATED else FAILED) else status_ tk.
Proof.
  unfold markFailed, cas_status. cbn. case_decide; [|done]. unfold canRetry. cbn. by case_bool_decide.
Qed.

(** A worker executes the task it took exactly once.  A task in status
    QUEUED is COMPLETED afterwards if [execute] returned; if it threw, the task is
    CREATED again while retries are left and FAILED otherwise.  A task still in
    status CREATED, as [enqueue] and [submit] leave it, is executed all the same
    and stays CREATED whatever happens. *)
Theorem worker_task_status i t thrown (p p' : ThreadPool Q) tk (Htk : pool_tasks p !! t = Some tk)
    (Hrun : runs_task i t thrown p p') :
  executed p' = t :: executed p ∧
  ∃ tk', pool_tasks p' !! t = Some tk' ∧
    (status_ tk = QUEUED → status_ tk' = match thrown with
                                         | None => COMPLETED
                                         | Some _ => if canRetry tk then CREATED else FAILED
                                         end) ∧
    (status_ tk = CREATED → status_ tk' = CREATED).
Proof.
  destruct Hrun as (p1 & p2 & H1 & H2 & H3). inversion H1; subst.
  destruct thrown as [what|]; inversion H2; subst; inversion H3; subst; cbn; (split; [done|]).
  all: eexists; rewrite !lookup_alter_eq, Htk; cbn; (split; [done|]).
  all: rewrite ?markFailed_status, ?markCompleted_status.
  all: split; intros Hs; [rewrite markStarted_queued by done|rewrite markStarted_created by done].
  all: rewrite ?Hs; cbn; done.
Qed.

Definition all_created (p : ThreadPool Q) : Prop :=
  ∀ t tk, pool_tasks p !! t = Some tk → status_ tk = CREATED.

Lemma on_task_created t f (p : ThreadPool Q) :
  (∀ tk, status_ tk = CREATED → status_ (f tk) = CREATED) → all_created p → all_created (on_task t f p).
Proof.
  intros Hf Hp t' tk. cbn. rewrite lookup_alter. case_decide; [|apply Hp].
  intros (tk0 & Htk0 & ->)%fmap_Some. apply Hf. subst. by apply (Hp t').
Qed.

Lemma action_created i c p c' p' : worker_action i c p c' p' → all_created p → all_created p'.
Proof.
  destruct 1; intros Hp; try exact Hp; apply on_task_created; try done; intros tk Hs.
  - by rewrite markStarted_created.
  - by rewrite markCompleted_status, Hs.
  - by rewrite markFailed_status, Hs.
Qed.

(** Nothing ever marks a submitted task as queued, so its status never
    moves: in a pool whose tasks come from [submit], every task is in status
    CREATED for ever, however often the workers run it. *)
Theorem submitted_tasks_stay_created n q (p : ThreadPool Q)
    (Hrun : rtc pool_step (new_ThreadPool n q ∅) p) : all_created p.
Proof.
  assert (H0 : all_created (new_ThreadPool n q ∅)).
  { intros t tk. unfold new_ThreadPool, adjustThreadPool. by case_decide. }
  revert H0. induction Hrun as [p|p p1 p' Hs _ IH]; intros Hp; [done|]. apply IH.
  destruct Hs as [p2 p3 [p4 i c c' p5 Hi Ha]|p2|p2|p2 t q' now next_id Hq Hn]; try exact Hp.
  - exact (action_created _ _ _ _ _ Ha Hp).
  - intros t' tk. cbn. intros [[<- <-]|[_ Ht]]%lookup_insert_Some; [done|by apply (Hp t')].
Qed.
End stopping.

(** ** An instance, and the theorems on it *)

#[local] Instance list_queue : PoolQueue (list loc).
Proof.
  refine {| tryDequeue q := (head q, tail q); queue_pause q := q; queue_resume q := q;
            getQueuedCount q := Z.of_nat (length q); contents q := q |}; [|done|done].
  intros [|t q]; cbn; apply Permutation_refl.
Defined.

Definition demo_pool_task : Task := set_status QUEUED (new_Task 0 1 "job" MEDIUM).1.

Definition demo_pool (n : nat) : ThreadPool (list loc) :=
  new_ThreadPool n [1%positive] {[1%positive := demo_pool_task]}.

(** Both workers of a stopped pool leave their loops. *)
Lemma demo_stop_run :
  nsteps worker_step 2 (stop_begin (demo_pool 2)) (set_threads [Some WDone; Some WDone] (stop_begin (demo_pool 2))).
Proof.
  eapply nsteps_l; [by eapply (worker_step_intro _ 0); [reflexivity|apply act_test]|].
  eapply nsteps_l; [by eapply (worker_step_intro _ 1); [reflexivity|apply act_test]|].
  apply nsteps_O.
Qed.

Lemma demo_stop :
  stop (demo_pool 2) (stop_end (set_threads [Some WDone; Some WDone] (stop_begin (demo_pool 2)))).
Proof.
  eexists. split; [eapply rtc_nsteps_2, demo_stop_run|]. split; [|done].
  intros i c Hi. do 2 (destruct i as [|i]; [by injection Hi as <-|]). done.
Qed.


Lemma pool_executes_once_witness :
  ∃ p, rtc pool_step (demo_pool 1) p ∧
    submitted p ≡ₚ contents (queue_manager_ p) ++ held (threads_ p) ++ executed p.
Proof.
  eexists. assert (Hrun : rtc pool_step (demo_pool 1) (pause (demo_pool 1))) by apply rtc_once, step_pause.
  split; [exact Hrun|]. exact (proj1 (pool_executes_once 1 [1%positive] _ _ Hrun)).
Defined.

Lemma stop_leaves_nothing_in_flight_witness :
  ∃ p', stop (demo_pool 2) p' ∧ getNumThreads p' = 0%nat ∧ getTasksProcessed p' = 0.
Proof.
  eexists. split; [exact demo_stop|].
  destruct (stop_leaves_nothing_in_flight 2 [1%positive] _ (demo_pool 2) _ (rtc_refl _ _) demo_stop)
    as (_ & Hp & Hn & _). exact (conj Hn Hp).
Defined.

Lemma demo_pool_size : (1 < length (threads_ (demo_pool 2)))%nat.
Proof. vm_compute. lia. Qed.

Lemma shrink_stops_pool_witness :
  ∃ p', setNumThreads 1 (demo_pool 2) p' ∧ getNumThreads p' = 1%nat ∧ should_stop_ p' = true.
Proof.
  eexists. split; [apply (resize_shrink 1 (demo_pool 2)); [exact demo_pool_size|exact demo_stop]|].
  destruct (shrink_stops_pool 1 (demo_pool 2) _ demo_pool_size
    (resize_shrink 1 (demo_pool 2) _ demo_pool_size demo_stop)) as (Hn & Hs & _).
  exact (conj Hn Hs).
Defined.

Lemma worker_task_status_witness :
  ∃ p' tk', runs_task 0 1 None (demo_pool 1) p' ∧ pool_tasks p' !! 1%positive = Some tk' ∧
    status_ tk' = COMPLETED.
Proof.
  assert (Hrun : ∃ p', runs_task 0 1 None (demo_pool 1) p').
  { do 3 eexists. split; [apply (act_start 0 1 5)|]. split; [apply act_execute|apply (act_complete 0 1 6)]. }
  destruct Hrun as [p' Hrun].
  destruct (worker_task_status 0 1 None (demo_pool 1) p' demo_pool_task eq_refl Hrun) as (_ & tk' & Htk & Hq & _).
  exists p', tk'. exact (conj Hrun (conj Htk (Hq eq_refl))).
Defined.

Lemma submitted_tasks_stay_created_witness :
  ∃ p, rtc pool_step (new_ThreadPool 1 [] ∅) p ∧ is_Some (pool_tasks p !! 1%positive) ∧ all_created p.
Proof.
  assert (Hrun : rtc pool_step (new_ThreadPool 1 [] ∅) (submit 5 0 1 [1%positive] (new_ThreadPool 1 [] ∅))).
  { apply rtc_once, step_submit; [apply Permutation_refl|reflexivity]. }
  eexists. split; [exact Hrun|]. split; [eexists; reflexivity|].
  exact (submitted_tasks_stay_created 1 [] _ Hrun).
Defined.
