(* ===== verification/Storage.v ===== *)
(** * Storage: tasks and the write-ahead log in a key-value store

    Models include/persistence/Storage.hpp and src/persistence/Storage.cpp.
    RocksDB and its backup engine are third-party code: the class [RocksDB] has
    the calls the sources make, on the files of the machine ([Disk]), and
    [RocksDBLaws] their documented behaviour.  A member function is a computation
    on the files, the Storage object and the counter behind [Task::generateId]
    ([sys]); [now] is the clock reading.  A null [db_] is [db_ = false], and using
    it is undefined. *)

From Stdlib Require Import Ascii.
From S2P Require Import Prelude Text Json Effects Task.

(** One update of a [rocksdb::WriteBatch]. *)
Inductive batch_op : Type :=
| BPut (key value : string)
| BDelete (key : string).

Definition apply_batch_op (m : gmap string string) (o : batch_op) : gmap string string :=
  match o with
  | BPut k v => <[k := v]> m
  | BDelete k => delete k m
  end.

Definition apply_batch (os : list batch_op) (m : gmap string string) : gmap string string :=
  foldl apply_batch_op m os.

Class RocksDB := {
  Disk : Type;
  (** [DB::Open] of a path, and [SyncWAL] followed by the destructor *)
  db_Open : Disk → string → bool * Disk;
  db_Close : Disk → string → Disk;
  (** [Get]: the value when the status is ok *)
  db_Get : Disk → string → string → option string;
  db_Put : Disk → string → string → string → bool * Disk;
  db_Write : Disk → string → list batch_op → bool * Disk;
  (** the entries a new iterator visits from [SeekToFirst] on *)
  db_scan : Disk → string → list (string * string);
  db_CompactRange : Disk → string → bool * Disk;
  (** [BackupEngine::Open], [CreateNewBackup], [RestoreDBFromLatestBackup] *)
  be_Open : Disk → string → bool * Disk;
  be_CreateNewBackup : Disk → string → string → bool * Disk;
  be_RestoreDBFromLatestBackup : Disk → string → string → bool * Disk;
  (** what a path and a backup directory hold *)
  db_contents : Disk → string → gmap string string;
  be_latest : Disk → string → option (gmap string string);
  (** no read of the database at this path fails *)
  db_readable : Disk → string → Prop
}.

(** Documented behaviour: a successful write is visible, a failed one happens as a
    whole or not at all; batches are atomic; an iterator visits every entry in the
    bytewise order of the keys; opening, closing and compacting keep the entries;
    a restore brings back what the latest backup saved. *)
Class RocksDBLaws (R : RocksDB) := {
  db_Open_contents d p b d' q : db_Open d p = (b, d') → db_contents d' q = db_contents d q;
  db_Close_contents d p q : db_contents (db_Close d p) q = db_contents d q;
  db_Close_latest d p dir : be_latest (db_Close d p) dir = be_latest d dir;
  db_Get_readable d p k : db_readable d p → db_Get d p k = db_contents d p !! k;
  db_Put_ok d p k v d' : db_Put d p k v = (true, d') →
    db_contents d' p = <[k := v]> (db_contents d p);
  db_Put_fail d p k v d' : db_Put d p k v = (false, d') →
    db_contents d' p = db_contents d p ∨ db_contents d' p = <[k := v]> (db_contents d p);
  db_Write_ok d p os d' : db_Write d p os = (true, d') →
    db_contents d' p = apply_batch os (db_contents d p);
  db_Write_fail d p os d' : db_Write d p os = (false, d') →
    db_contents d' p = db_contents d p ∨ db_contents d' p = apply_batch os (db_contents d p);
  db_scan_sorted d p : db_readable d p → StronglySorted String.le (db_scan d p).*1;
  db_scan_all d p : db_readable d p → db_scan d p ≡ₚ map_to_list (db_contents d p);
  db_CompactRange_contents d p b d' q :
    db_CompactRange d p = (b, d') → db_contents d' q = db_contents d q;
  be_Open_contents d dir b d' q : be_Open d dir = (b, d') →
    db_contents d' q = db_contents d q ∧ be_latest d' q = be_latest d q;
  be_Create_ok d dir p d' : be_CreateNewBackup d dir p = (true, d') →
    be_latest d' dir = Some (db_contents d p);
  be_Create_contents d dir p b d' q : be_CreateNewBackup d dir p = (b, d') →
    db_contents d' q = db_contents d q;
  be_Restore_ok d dir p d' : be_RestoreDBFromLatestBackup d dir p = (true, d') →
    be_latest d dir = Some (db_contents d' p)
}.

(** The Storage object, and the files and the task counter it works on. *)
Record Storage : Type := mkStorage {
  db_path_ : string;
  db_ : bool;
  wal_sequence_ : Z
}.

Record sys `{RocksDB} : Type := mkSys {
  disk : Disk;
  obj : Storage;
  next_id : Z
}.

Definition set_disk `{RocksDB} (d : Disk) (s : sys) : sys := mkSys _ d (obj s) (next_id s).
Definition set_obj `{RocksDB} (o : Storage) (s : sys) : sys := mkSys _ (disk s) o (next_id s).
Definition set_next_id `{RocksDB} (n : Z) (s : sys) : sys := mkSys _ (disk s) (obj s) n.
Definition set_db (b : bool) (o : Storage) : Storage := mkStorage (db_path_ o) b (wal_sequence_ o).
Definition set_wal_sequence (n : Z) (o : Storage) : Storage := mkStorage (db_path_ o) (db_ o) n.

Definition TASK_PREFIX : string := "task:".
Definition WAL_PREFIX : string := "wal:".

Definition makeTaskKey (id : Z) : string := TASK_PREFIX +:+ to_string id.
Definition makeWALKey (sequence : Z) : string := WAL_PREFIX +:+ to_string sequence.

Definition extractTaskId (key : string) : outcome Z :=
  match find TASK_PREFIX key with
  | Some 0%nat => stoull (str_drop (String.length TASK_PREFIX) key)
  | _ => Ret 0
  end.

(** [for (it->Seek(prefix); it->Valid(); it->Next())] with the [break] at the first
    key without the prefix: the entries the body sees. *)
Fixpoint seek (target : string) (l : list (string * string)) : list (string * string) :=
  match l with
  | [] => []
  | (k, v) :: l' => if String.ltb k target then seek target l' else l
  end.

Fixpoint until_break (prefix : string) (l : list (string * string)) : list (string * string) :=
  match l with
  | [] => []
  | (k, v) :: l' =>
      match find prefix k with
      | Some 0%nat => (k, v) :: until_break prefix l'
      | _ => []
      end
  end.

Definition prefix_entries (prefix : string) (l : list (string * string)) : list (string * string) :=
  until_break prefix (seek prefix l).

Section storage.
Context `{J : JsonLib} `{R : RocksDB}.

Abbreviation io := (M sys).

(** [Storage::Storage(db_path)] *)
Definition new_Storage (db_path : string) : Storage := mkStorage db_path false 0.

(** [db_->...]: the path of the open database. *)
Definition deref_db : io string := λ s,
  if db_ (obj s) then (Ret (db_path_ (obj s)), s) else (Undef, s).

Definition Get (key : string) : io (option string) :=
  p ← deref_db; gets (λ s, db_Get (disk s) p key).

Definition Put (key value : string) : io bool :=
  p ← deref_db; act (λ s, let '(ok, d) := db_Put (disk s) p key value in (ok, set_disk d s)).

Definition Write (os : list batch_op) : io bool :=
  p ← deref_db; act (λ s, let '(ok, d) := db_Write (disk s) p os in (ok, set_disk d s)).

Definition NewIterator : io (list (string * string)) :=
  p ← deref_db; gets (λ s, db_scan (disk s) p).

Definition initialize : io bool :=
  ok ← act (λ s, let '(ok, d) := db_Open (disk s) (db_path_ (obj s)) in
                 (ok, set_obj (set_db ok (obj s)) (set_disk d s)));
  if negb ok then mret false
  else
    value ← Get (makeWALKey 0);
    match value with
    | Some value =>
        n ← lift (stoull value);
        modify (λ s, set_obj (set_wal_sequence n (obj s)) s) ;;
        mret true
    | None => mret true
    end.

Definition shutdown : io bool := λ s,
  if db_ (obj s) then
    (Ret true, set_obj (set_db false (obj s)) (set_disk (db_Close (disk s) (db_path_ (obj s))) s))
  else (Ret true, s).

Definition appendToWAL (now : Z) (operation : string) (data : json) : io bool :=
  sequence ← act (λ s, let n := w64 (wal_sequence_ (obj s) + 1) in
                       (n, set_obj (set_wal_sequence n (obj s)) s));
  let wal_entry := json_object [("sequence", json_of_num sequence);
                                ("timestamp", json_of_num now);
                                ("operation", json_of_string operation);
                                ("data", data)] in
  deref_db ;;
  text ← lift (json_dump wal_entry);
  ok ← Put (makeWALKey sequence) text;
  if (ok : bool) then
    Put (makeWALKey 0) (to_string sequence) ;;
    mret true
  else mret false.

Definition saveTask (now : Z) (store : gmap loc Task) (task : option Task) : io bool :=
  match task with
  | None => mret false
  | Some task =>
      try_catch (
        j ← lift (toJson store task);
        deref_db ;;
        text ← lift (json_dump j);
        ok ← Put (makeTaskKey (id_ task)) text;
        if (ok : bool) then
          appendToWAL now "save_task" j ;;
          mret true
        else mret false)
        (λ _, mret false)
  end.

Definition updateTaskStatus (now : Z) (id : Z) (status : TaskStatus) : io bool :=
  value ← Get (makeTaskKey id);
  match value with
  | None => mret false
  | Some value =>
      try_catch (
        j ← lift (json_parse value);
        j ← lift (json_set j "status" (json_of_num (status_to_int status)));
        deref_db ;;
        text ← lift (json_dump j);
        ok ← Put (makeTaskKey id) text;
        if (ok : bool) then
          appendToWAL now "update_status"
            (json_object [("task_id", json_of_num id);
                          ("status", json_of_num (status_to_int status))]) ;;
          mret true
        else mret false)
        (λ _, mret false)
  end.

(** [std::make_shared<Task>("", TaskPriority::MEDIUM)]: the object takes an id. *)
Definition make_task (now : Z) (name : string) (priority : TaskPriority) : io Task := λ s,
  let '(t, n) := new_Task now (next_id s) name priority in (Ret t, set_next_id n s).

(** The body shared by [loadTask] and the loop of [loadAllTasks]: parse the text,
    make an object and let it read the value. *)
Definition task_from_text (now : Z) (value : string) : io Task :=
  j ← lift (json_parse value);
  t ← make_task now "" MEDIUM;
  let '(t, r) := fromJson j t in
  lift r ;;
  mret t.

Definition loadTask (now : Z) (id : Z) : io (option Task) :=
  value ← Get (makeTaskKey id);
  match value with
  | None => mret None
  | Some value => try_catch (t ← task_from_text now value; mret (Some t)) (λ _, mret None)
  end.

Fixpoint loadAll_loop (now : Z) (entries : list (string * string)) : io (list Task) :=
  match entries with
  | [] => mret []
  | (_, value) :: entries =>
      t ← try_catch (t ← task_from_text now value; mret [t]) (λ _, mret []);
      tasks ← loadAll_loop now entries;
      mret (t ++ tasks)
  end.

Definition loadAllTasks (now : Z) : io (list Task) :=
  l ← NewIterator;
  loadAll_loop now (prefix_entries TASK_PREFIX l).

(** The loop body of [replayWAL] on one entry. *)
Definition replay_entry (value : string) : outcome (string * json) :=
  wal_entry ← json_parse value;
  operation ← json_index wal_entry "operation" ≫= json_get_string;
  data ← json_index wal_entry "data";
  Ret (operation, data).

Fixpoint replay_loop (entries : list (string * string)) : io (list (string * json)) :=
  match entries with
  | [] => mret []
  | (_, value) :: entries =>
      o ← try_catch (o ← lift (replay_entry value); mret [o]) (λ _, mret []);
      operations ← replay_loop entries;
      mret (o ++ operations)
  end.

Definition replayWAL : io (list (string * json)) :=
  l ← NewIterator;
  replay_loop (prefix_entries WAL_PREFIX l).

Definition truncateWAL : io bool :=
  l ← NewIterator;
  Write ((λ kv, BDelete kv.1) <$> prefix_entries WAL_PREFIX l).

Definition compact : io bool :=
  p ← deref_db; act (λ s, let '(ok, d) := db_CompactRange (disk s) p in (ok, set_disk d s)).

Definition backup (backup_dir : string) : io bool :=
  ok ← act (λ s, let '(ok, d) := be_Open (disk s) backup_dir in (ok, set_disk d s));
  if negb ok then mret false
  else
    p ← deref_db;
    act (λ s, let '(ok, d) := be_CreateNewBackup (disk s) backup_dir p in (ok, set_disk d s)).

Definition restore (backup_dir : string) : io bool :=
  shutdown ;;
  ok ← act (λ s, let '(ok, d) := be_Open (disk s) backup_dir in (ok, set_disk d s));
  if negb ok then initialize ;; mret false
  else
    ok ← act (λ s, let '(ok, d) := be_RestoreDBFromLatestBackup (disk s) backup_dir (db_path_ (obj s)) in
                   (ok, set_disk d s));
    if negb ok then initialize ;; mret false
    else initialize.

Fixpoint sizes_loop (entries : list (string * string)) (size : Z) : Z :=
  match entries with
  | [] => size
  | (k, v) :: entries => sizes_loop entries (w64 (size + w64 (str_len k + str_len v)))
  end.

Definition getStorageSize : io Z :=
  l ← NewIterator; mret (sizes_loop l 0).

Definition getWALSize : io Z :=
  l ← NewIterator; mret (sizes_loop (prefix_entries WAL_PREFIX l) 0).

(** ** Storage::BatchOperation

    The object with its [WriteBatch] and flag; the database is read through the
    Storage it was made for. *)
Record BatchOperation : Type := mkBatch {
  batch_ : list batch_op;
  committed_ : bool
}.

Definition new_BatchOperation : BatchOperation := mkBatch [] false.

Definition batch_put (key value : string) (b : BatchOperation) : BatchOperation :=
  mkBatch (batch_ b ++ [BPut key value]) (committed_ b).

Definition batch_saveTask (store : gmap loc Task) (task : option Task) (b : BatchOperation)
    : io (bool * BatchOperation) :=
  match task with
  | None => mret (false, b)
  | Some task =>
      try_catch (
        j ← lift (toJson store task);
        text ← lift (json_dump j);
        mret (true, batch_put (makeTaskKey (id_ task)) text b))
        (λ _, mret (false, b))
  end.

Definition batch_updateTaskStatus (id : Z) (status : TaskStatus) (b : BatchOperation)
    : io (bool * BatchOperation) :=
  value ← Get (makeTaskKey id);
  match value with
  | None => mret (false, b)
  | Some value =>
      try_catch (
        j ← lift (json_parse value);
        j ← lift (json_set j "status" (json_of_num (status_to_int status)));
        text ← lift (json_dump j);
        mret (true, batch_put (makeTaskKey id) text b))
        (λ _, mret (false, b))
  end.

Definition batch_commit (b : BatchOperation) : io (bool * BatchOperation) :=
  ok ← Write (batch_ b);
  mret (ok, mkBatch (batch_ b) ok).

Definition batch_rollback (b : BatchOperation) : BatchOperation := mkBatch [] (committed_ b).

(** [~BatchOperation] *)
Definition batch_destroy (b : BatchOperation) : BatchOperation :=
  if committed_ b then b else batch_rollback b.
End storage.

(** ** A database in memory

    One implementation of the interface: per path a finite map, per backup
    directory its last backup.  When the database is not [reliable], [writes] says
    which of the coming writes succeed (all of them once the list is used up). *)
Module MapDB.

Record files : Type := mkFiles {
  dbs : gmap string (gmap string string);
  backups : gmap string (gmap string string);
  writes : list bool
}.

Definition contents (d : files) (p : string) : gmap string string := default ∅ (dbs d !! p).

Definition update (d : files) (p : string) (m : gmap string string) : files :=
  mkFiles (<[p := m]> (dbs d)) (backups d) (writes d).

(** A write takes effect when the next entry of [writes] says so. *)
Definition write (reliable : bool) (d : files) (p : string) (m : gmap string string)
    : bool * files :=
  if reliable then (true, update d p m)
  else match writes d with
       | [] => (true, update d p m)
       | ok :: rest =>
           (ok, mkFiles (if (ok : bool) then <[p := m]> (dbs d) else dbs d) (backups d) rest)
       end.

Definition key_le (a b : string * string) : Prop := String.le a.1 b.1.

Instance key_le_dec a b : Decision (key_le a b).
Proof. unfold key_le. apply _. Defined.

Definition lib (reliable : bool) : RocksDB := {|
  Disk := files;
  db_Open d p := (true, d);
  db_Close d p := d;
  db_Get d p k := contents d p !! k;
  db_Put d p k v := write reliable d p (<[k := v]> (contents d p));
  db_Write d p os := write reliable d p (apply_batch os (contents d p));
  db_scan d p := merge_sort key_le (map_to_list (contents d p));
  db_CompactRange d p := (true, d);
  be_Open d dir := (true, d);
  be_CreateNewBackup d dir p := (true, mkFiles (dbs d) (<[dir := contents d p]> (backups d)) (writes d));
  be_RestoreDBFromLatestBackup d dir p :=
    match backups d !! dir with
    | Some m => (true, update d p m)
    | None => (false, d)
    end;
  db_contents := contents;
  be_latest d dir := backups d !! dir;
  db_readable _ _ := True
|}.

Instance key_le_total : Total key_le.
Proof. intros a b. unfold key_le. apply (total String.le). Qed.

Instance key_le_trans : Transitive key_le.
Proof. intros a b c. unfold key_le. apply transitivity. Qed.

Lemma write_ok r d p m d' : write r d p m = (true, d') → contents d' p = m.
Proof.
  unfold write, update, contents. destruct r, (writes d) as [|[] w]; intros [= <-]; cbn;
    by rewrite lookup_insert_eq.
Qed.

Lemma write_fail r d p m d' : write r d p m = (false, d') → contents d' p = contents d p.
Proof. unfold write, contents. destruct r, (writes d) as [|[] w]; by intros [= <-]. Qed.

#[export] Instance laws reliable : RocksDBLaws (lib reliable).
Proof.
  split; cbn; try done.
  - by intros d p b d' q [= _ <-].
  - eauto using write_ok.
  - eauto using write_fail.
  - eauto using write_ok.
  - eauto using write_fail.
  - intros d p _. apply (StronglySorted_fmap fst key_le); [by unfold key_le|].
    apply (StronglySorted_merge_sort _).
  - intros d p _. apply merge_sort_Permutation.
  - by intros d p b d' q [= _ <-].
  - by intros d dir b d' q [= _ <-].
  - intros d dir p d' [= <-]. cbn. by rewrite lookup_insert_eq.
  - by intros d dir p b d' q [= _ <-].
  - intros d dir p d'. destruct (backups d !! dir) as [m|]; intros [= <-].
    unfold update, contents. cbn. by rewrite lookup_insert_eq.
Qed.

End MapDB.
