(* ===== verification/StorageText.v ===== *)
(** * Keys, prefix loops and stored texts

    What the proofs about [Storage] need of its keys (they are injective, and task
    keys and log keys are disjoint), of the loops over a prefix (they visit exactly
    the entries with that prefix) and of the texts it writes (a task or a log entry
    is read back from them). *)

From Stdlib Require Import Ascii.
From S2P Require Import Prelude Text Json Effects Task Storage.

(** ** Keys *)

Lemma makeTaskKey_inj a b : makeTaskKey a = makeTaskKey b → a = b.
Proof. unfold makeTaskKey. intros E%(inj (String.append _)). by apply to_string_inj. Qed.

Lemma makeWALKey_inj a b : makeWALKey a = makeWALKey b → a = b.
Proof. unfold makeWALKey. intros E%(inj (String.append _)). by apply to_string_inj. Qed.

Lemma task_wal_key_ne a b : makeTaskKey a ≠ makeWALKey b.
Proof. done. Qed.

Lemma wal_task_key_ne a b : makeWALKey a ≠ makeTaskKey b.
Proof. done. Qed.

Lemma starts_with_task_key id : starts_with TASK_PREFIX (makeTaskKey id) = true.
Proof. apply starts_with_app. Qed.

Lemma starts_with_wal_key n : starts_with WAL_PREFIX (makeWALKey n) = true.
Proof. apply starts_with_app. Qed.

#[export] Hint Resolve task_wal_key_ne wal_task_key_ne starts_with_task_key starts_with_wal_key : axon.

(** ** The entries a prefix loop sees *)

Lemma ltb_prefix pre k : starts_with pre k = true → String.ltb k pre = false.
Proof.
  revert k. induction pre as [|c pre IH]; intros [|d k]; cbn; [done..|].
  intros [->%bool_decide_eq_true Hs]%andb_prop. unfold String.ltb in *. cbn.
  rewrite ascii_compare_refl. by apply IH.
Qed.

(** Between a key past the prefix and a greater one there is no key with it. *)
Lemma prefix_interval pre k k' :
  String.ltb k pre = false → starts_with pre k = false → String.le k k' →
  starts_with pre k' = false.
Proof.
  revert k k'. induction pre as [|e pre IH]; intros [|c k] [|d k']; cbn; try done.
  unfold String.ltb, String.le, String.leb in *. cbn.
  destruct (Ascii.compare c e) eqn:Ece; [| done |].
  - apply Ascii.compare_eq_iff in Ece as ->. rewrite bool_decide_true by done. cbn.
    intros Hlt Hs. destruct (Ascii.compare e d) eqn:Eed; [| |done].
    + apply Ascii.compare_eq_iff in Eed as ->. rewrite bool_decide_true by done. cbn. by eapply IH.
    + rewrite bool_decide_false; [done|]. intros ->. by rewrite ascii_compare_refl in Eed.
  - intros _ _. destruct (decide (e = d)) as [<-|Hne]; [by rewrite Ece|].
    by rewrite bool_decide_false by done.
Qed.

Definition has_prefix (pre : string) (kv : string * string) : Prop := starts_with pre kv.1 = true.

#[export] Instance has_prefix_dec pre kv : Decision (has_prefix pre kv).
Proof. unfold has_prefix. apply _. Defined.

Lemma filter_none {A} (P : A → Prop) `{∀ x, Decision (P x)} l :
  (∀ x, x ∈ l → ¬ P x) → filter P l = [].
Proof.
  intros Hl. destruct (filter P l) as [|x l'] eqn:E; [done|].
  assert (Hx : x ∈ filter P l) by (rewrite E; left).
  apply list_elem_of_filter in Hx as [HP Hx]. by destruct (Hl x).
Qed.

Lemma until_break_filter pre l :
  StronglySorted String.le l.*1 → (∀ k v, (k, v) ∈ l → String.ltb k pre = false) →
  until_break pre l = filter (has_prefix pre) l.
Proof.
  induction l as [|[k v] l IH]; [done|]. rewrite fmap_cons.
  intros [Hk Hl]%StronglySorted_cons Hge. cbn [until_break].
  assert (Hl' : until_break pre l = filter (has_prefix pre) l) by (apply IH; [done|set_solver]).
  rewrite filter_cons. destruct (starts_with pre k) eqn:Hs.
  - rewrite find_head by done. rewrite decide_True by done. by rewrite Hl'.
  - rewrite decide_False by (unfold has_prefix; cbn; congruence). assert (Hnone : filter (has_prefix pre) l = []).
    { apply filter_none. intros [k' v'] Hin Hp. unfold has_prefix in Hp. cbn in Hp.
      rewrite (prefix_interval pre k k') in Hp; [done|set_solver|done|].
      rewrite Forall_forall in Hk. apply Hk, list_elem_of_fmap. by exists (k', v'). }
    rewrite Hnone. destruct (find pre k) as [[|i]|] eqn:Hf; try done.
    apply find_0 in Hf. congruence.
Qed.

Lemma prefix_entries_filter pre l :
  StronglySorted String.le l.*1 → prefix_entries pre l = filter (has_prefix pre) l.
Proof.
  unfold prefix_entries. induction l as [|[k v] l IH]; [done|]. rewrite fmap_cons.
  intros [Hk Hl]%StronglySorted_cons. cbn [seek]. destruct (String.ltb k pre) eqn:Hlt.
  - rewrite IH by done. rewrite filter_cons.
    rewrite decide_False; [done|]. intros Hs%ltb_prefix. cbn in Hs. congruence.
  - apply until_break_filter; [by apply StronglySorted_cons|].
    intros k' v' [[= -> ->]|Hin]%elem_of_cons; [done|].
    assert (Hle : String.le k k').
    { rewrite Forall_forall in Hk. apply Hk, list_elem_of_fmap. by exists (k', v'). }
    destruct (String.ltb k' pre) eqn:Hlt'; [|done].
    assert (Hle' : String.le k' pre).
    { unfold String.le, String.leb, String.ltb in *. by destruct (String.compare k' pre). }
    assert (Hpre : String.le pre k).
    { unfold String.le, String.leb, String.ltb in *. rewrite String.compare_antisym.
      by destruct (String.compare k pre). }
    assert (k' = pre) as -> by (apply (anti_symm String.le); [done|by etrans]).
    unfold String.ltb in Hlt'. by rewrite compare_refl in Hlt'.
Qed.

(** ** The text of a stored task *)

Section texts.
Context `{J : JsonLib} `{L : !JsonLaws J}.

(** The value holds the fields of [t], as [fromJson] reads them. *)
Record loads_as (j : json) (t : Task) : Prop := {
  la_object : json_is_object j;
  la_dumps : json_dumps j;
  la_id : get_num U64 j "id" = Ret (id_ t);
  la_name : get_str j "name" = Ret (name_ t);
  la_priority : get_num I32 j "priority" = Ret (priority_ t);
  la_status : get_num I32 j "status" = Ret (status_to_int (status_ t));
  la_status_wf : status_of_int (status_to_int (status_ t)) = status_ t;
  la_created : get_time j "created_at" = Ret (to_time_t (created_at_ t) * 1000000000);
  la_scheduled : get_time j "scheduled_for" = Ret (to_time_t (scheduled_for_ t) * 1000000000);
  la_started : get_time j "started_at" = Ret (to_time_t (started_at_ t) * 1000000000);
  la_completed : get_time j "completed_at" = Ret (to_time_t (completed_at_ t) * 1000000000);
  la_error : get_str j "error_message" = Ret (error_message_ t);
  la_retry : get_num U32 j "retry_count" = Ret (retry_count_ t);
  la_max_retries : get_num U32 j "max_retries" = Ret (max_retries_ t)
}.

Lemma loads_as_fromJson j t t0 : loads_as j t → fromJson j t0 = (json_image t t0, Ret tt).
Proof.
  intros []. unfold fromJson. repeat (erewrite assign_Ret by eassumption). by rewrite la_status_wf0.
Qed.

(** A task that [toJson] and [dump] accept. *)
Definition savable (store : gmap loc Task) (t : Task) : Prop :=
  task_wf t ∧ utf8 (name_ t) ∧ utf8 (error_message_ t) ∧
  map_Forall (λ _ d, 0 ≤ id_ d < 2 ^ 64) store.

Lemma dep_ids_range (store : gmap loc Task) deps : map_Forall (λ _ d, 0 ≤ id_ d < 2 ^ 64) store →
  Forall (λ z, - 2 ^ 63 ≤ z < 2 ^ 64) (omap (λ d, id_ <$> store !! d) deps).
Proof.
  intros Hst. induction deps as [|d deps IH]; cbn; [constructor|].
  destruct (store !! d) as [t|] eqn:Hd; cbn; [|done]. constructor; [|done].
  specialize (Hst d t Hd). cbn in Hst. lia.
Qed.

Lemma set_dumps_bind j k v (f : json → outcome json) r :
  (json_set j k v ≫= f) = Ret r → json_dumps j → ascii_only k = true → json_dumps v →
  (∀ j', f j' = Ret r → json_dumps j' → json_dumps r) → json_dumps r.
Proof.
  intros E Hj Hk Hv Hf. apply bind_Ret in E as (j' & Hset & Hr). apply (Hf j'); [done|].
  refine (json_dumps_set _ _ _ _ Hj _ Hv Hset). by apply utf8_ascii.
Qed.

Lemma toJson_dumps store t j : savable store t → toJson store t = Ret j → json_dumps j.
Proof.
  intros (Hwf & Hname & Herr & Hst) Hto.
  pose proof (to_time_t_range _ (wf_created t Hwf)) as [? _].
  pose proof (to_time_t_range _ (wf_scheduled t Hwf)) as [? _].
  pose proof (to_time_t_range _ (wf_started t Hwf)) as [? _].
  pose proof (to_time_t_range _ (wf_completed t Hwf)) as [? _].
  destruct Hwf. unfold INT_MIN, INT_MAX in *.
  pose proof json_dumps_null as Hd. unfold toJson in Hto.
  repeat (refine (set_dumps_bind _ _ _ _ _ Hto Hd _ _ _);
    [done | first [by apply json_dumps_str | apply json_dumps_num; lia]
    | clear Hd Hto; intros ? Hto Hd]).
  refine (json_dumps_set _ _ _ _ Hd _ _ Hto); [by apply utf8_ascii|].
  by apply json_dumps_nums, dep_ids_range.
Qed.

Lemma toJson_loads_as store t : savable store t → ∃ j, toJson store t = Ret j ∧ loads_as j t.
Proof.
  intros Hsav. pose proof Hsav as ([] & _). destruct (toJson_holds store t) as (j & Hto & Hj).
  exists j. split; [done|].
  assert (Hd : json_dumps j) by by eapply toJson_dumps.
  assert (Hn : ∀ ty k z, json_entries store t !! k = Some (json_of_num z) → int_range ty z →
    get_num ty j k = Ret z).
  { intros ty k z Hk Hz. rewrite (get_num_holds ty j _ k z Hj Hk).
    - f_equal. apply conv_id. by destruct ty.
    - unfold int_range, INT_MIN, INT_MAX in *. destruct ty; lia. }
  split; first [apply Hj | assumption | eapply get_str_holds; [exact Hj | reflexivity]
    | eapply get_time_holds; [exact Hj | reflexivity | assumption]
    | by apply Hn | idtac].
Qed.

(** Writing the status entry changes the status and nothing else. *)
Lemma loads_as_status j t st : loads_as j t →
  status_of_int (status_to_int st) = st → INT_MIN ≤ status_to_int st ≤ INT_MAX →
  ∃ j', json_set j "status" (json_of_num (status_to_int st)) = Ret j' ∧ loads_as j' (set_status st t).
Proof.
  intros [] Hst Hrange.
  destruct (json_set_object j "status" (json_of_num (status_to_int st)) la_object0) as (j' & Hset & Hobj).
  exists j'. split; [done|].
  assert (Hat : ∀ k, "status" ≠ k → json_at j' k = json_at j k).
  { intros k Hk. by eapply json_at_set_ne. }
  assert (Hd : json_dumps j').
  { refine (json_dumps_set _ _ _ _ la_dumps0 _ _ Hset); [by apply utf8_ascii|].
    apply json_dumps_num. unfold INT_MIN, INT_MAX in *. lia. }
  split; cbn; try done; unfold get_time, get_num, get_str in *; try by rewrite Hat.
  rewrite (json_at_set_eq _ _ _ _ Hset). cbn. unfold INT_MIN, INT_MAX in *.
  rewrite json_get_num by lia. f_equal. by apply s32_small.
Qed.

(** What is read back: the stored fields in an object made for them. *)
Definition stored (t : Task) : Task := json_image t (new_Task 0 0 "" MEDIUM).1.

Definition task_text (s : string) (t : Task) : Prop := ∃ j, json_parse s = Ret j ∧ loads_as j t.

Definition log_text (s : string) (e : string * json) : Prop :=
  ∃ j, json_parse s = Ret j ∧ json_at j "operation" = Ret (json_of_string e.1) ∧
    json_at j "data" = Ret e.2.

Lemma task_from_text_run `{R : RocksDB} now value t (s : sys) : task_text value t →
  ∃ n, task_from_text now value s = (Ret (stored t), set_next_id n s).
Proof.
  intros (j & Hparse & Hj). eexists. unfold task_from_text.
  rewrite (bind_run_lift _ _ s j) by done. unfold make_task. cbn.
  unfold mbind at 1, M_bind at 1. cbn. rewrite (loads_as_fromJson j t) by done. reflexivity.
Qed.

Lemma replay_entry_text value e : log_text value e → replay_entry value = Ret e.
Proof.
  intros (j & Hparse & Hop & Hdata). unfold replay_entry. rewrite Hparse. cbn.
  rewrite (json_index_at _ _ _ Hop). cbn. rewrite json_get_str. cbn.
  rewrite (json_index_at _ _ _ Hdata). by destruct e.
Qed.

(** The counter under [wal:0] is a JSON number, which has no entries. *)
Lemma replay_entry_counter n : 0 ≤ n < 2 ^ 64 → ∃ what, replay_entry (to_string n) = Throw what.
Proof.
  intros Hn. unfold replay_entry. rewrite json_parse_num by done. cbn.
  unfold json_index. rewrite json_is_null_num, json_is_object_num. by eexists.
Qed.
End texts.
