(* ===== verification/StorageRefine.v ===== *)
(** * Storage implements a map of tasks and a log

    The abstract store is a map from ids to tasks, a numbered log and the two
    copies of the log counter (the one in the object and the one on disk).  [sstep]
    says what each operation may do to it, failing writes included ([faulty] says
    whether writes may fail at all), and the step
    lemmas show that every member function of [Storage] does one of these things:
    it returns, and keeps the relation [rep] between the files and the map. *)

From S2P Require Import Prelude Text Json Effects Task Storage StorageText.

(** ** The specification *)

Section spec.
Context `{J : JsonLib}.

Record astore : Type := mkA {
  a_tasks : gmap Z Task;
  a_log : gmap Z (string * json);
  a_counter : option Z;
  a_seq : Z
}.

Definition with_tasks (m : gmap Z Task) (a : astore) : astore :=
  mkA m (a_log a) (a_counter a) (a_seq a).

(** The updates a [BatchOperation] collects. *)
Inductive bcmd : Type :=
| BSave (task : option Task)
| BUpdate (id : Z) (status : TaskStatus).

(** The calls of one run of the program, a restart among them. *)
Inductive sop : Type :=
| SSave (task : option Task)
| SUpdate (id : Z) (status : TaskStatus)
| SLoad (id : Z)
| SLoadAll
| SAppend (operation : string) (data : json)
| SReplay
| STruncate
| SCompact
| SBatch (cmds : list bcmd)
| SRestart.

Inductive sres : Type :=
| RBool (b : bool)
| RTask (t : option Task)
| RTasks (ts : list Task)
| RLog (l : list (string * json))
| RBatch (rs : list bool) (ok : bool).

(** A new entry gets the next number; the counter on disk follows unless its own
    write fails, which is not reported; a failed write of the entry may still have
    taken effect. *)
Inductive appended (faulty : bool) (a : astore) (o : string) (d : json) : bool → astore → Prop :=
| appended_ok c : c = Some (a_seq a + 1) ∨ faulty = true ∧ c = a_counter a →
    appended faulty a o d true (mkA (a_tasks a) (<[a_seq a + 1 := (o, d)]> (a_log a)) c (a_seq a + 1))
| appended_fail l : faulty = true → l = a_log a ∨ l = <[a_seq a + 1 := (o, d)]> (a_log a) →
    appended faulty a o d false (mkA (a_tasks a) l (a_counter a) (a_seq a + 1)).

(** A task is written and the change is logged; when the write fails nothing is
    logged. *)
Inductive written (faulty : bool) (a : astore) (id : Z) (t : Task) (o : string) (d : json)
    : bool → astore → Prop :=
| written_ok b a' : appended faulty (with_tasks (<[id := t]> (a_tasks a)) a) o d b a' →
    written faulty a id t o d true a'
| written_fail m : faulty = true → m = a_tasks a ∨ m = <[id := t]> (a_tasks a) →
    written faulty a id t o d false (with_tasks m a).

(** The replies and the pending writes of a batch: it looks at the stored tasks,
    not at what it has collected. *)
Fixpoint batch_spec (m : gmap Z Task) (cmds : list bcmd) : list bool * list (Z * Task) :=
  match cmds with
  | [] => ([], [])
  | BSave None :: cmds => let '(rs, ws) := batch_spec m cmds in (false :: rs, ws)
  | BSave (Some t) :: cmds => let '(rs, ws) := batch_spec m cmds in (true :: rs, (id_ t, t) :: ws)
  | BUpdate id st :: cmds =>
      let '(rs, ws) := batch_spec m cmds in
      match m !! id with
      | Some t => (true :: rs, (id, set_status st t) :: ws)
      | None => (false :: rs, ws)
      end
  end.

Definition write_all (ws : list (Z * Task)) (m : gmap Z Task) : gmap Z Task :=
  foldl (λ m w, <[w.1 := w.2]> m) m ws.

(** Ids and log numbers in the order of their keys. *)
Definition key_order (key : Z → string) (ids : list Z) : Prop :=
  StronglySorted String.le (key <$> ids).

Inductive sstep (faulty : bool) (store : gmap loc Task) (a : astore) : sop → sres → astore → Prop :=
| step_save_null : sstep faulty store a (SSave None) (RBool false) a
| step_save t j b a' : toJson store t = Ret j → written faulty a (id_ t) t "save_task" j b a' →
    sstep faulty store a (SSave (Some t)) (RBool b) a'
| step_update_missing id st : a_tasks a !! id = None → sstep faulty store a (SUpdate id st) (RBool false) a
| step_update id st t b a' : a_tasks a !! id = Some t →
    written faulty a id (set_status st t) "update_status"
      (json_object [("task_id", json_of_num id); ("status", json_of_num (status_to_int st))]) b a' →
    sstep faulty store a (SUpdate id st) (RBool b) a'
| step_load id : sstep faulty store a (SLoad id) (RTask (stored <$> a_tasks a !! id)) a
| step_loadAll ids : ids ≡ₚ elements (dom (a_tasks a)) → key_order makeTaskKey ids →
    sstep faulty store a SLoadAll (RTasks (omap (λ id, stored <$> a_tasks a !! id) ids)) a
| step_append o d b a' : appended faulty a o d b a' → sstep faulty store a (SAppend o d) (RBool b) a'
| step_replay ns : ns ≡ₚ elements (dom (a_log a)) → key_order makeWALKey ns →
    sstep faulty store a SReplay (RLog (omap (λ n, a_log a !! n) ns)) a
| step_truncate : sstep faulty store a STruncate (RBool true) (mkA (a_tasks a) ∅ None (a_seq a))
| step_truncate_fail l c : faulty = true → (l = a_log a ∧ c = a_counter a) ∨ (l = ∅ ∧ c = None) →
    sstep faulty store a STruncate (RBool false) (mkA (a_tasks a) l c (a_seq a))
| step_compact b : sstep faulty store a SCompact (RBool b) a
| step_batch cmds rs ws : batch_spec (a_tasks a) cmds = (rs, ws) →
    sstep faulty store a (SBatch cmds) (RBatch rs true) (with_tasks (write_all ws (a_tasks a)) a)
| step_batch_fail cmds rs ws m : faulty = true → batch_spec (a_tasks a) cmds = (rs, ws) →
    m = a_tasks a ∨ m = write_all ws (a_tasks a) →
    sstep faulty store a (SBatch cmds) (RBatch rs false) (with_tasks m a)
| step_restart : sstep faulty store a SRestart (RBool true)
    (mkA (a_tasks a) (a_log a) (a_counter a) (default 0 (a_counter a))).

Inductive strace (faulty : bool) (store : gmap loc Task) : astore → list sop → list sres → astore → Prop :=
| strace_nil a : strace faulty store a [] [] a
| strace_cons a o r a1 os rs a2 : sstep faulty store a o r a1 → strace faulty store a1 os rs a2 →
    strace faulty store a (o :: os) (r :: rs) a2.
End spec.

(** ** The calls *)

Section calls.
Context `{J : JsonLib} `{R : RocksDB}.

Fixpoint batch_loop (store : gmap loc Task) (cmds : list bcmd) (b : BatchOperation)
    : M sys (list bool * BatchOperation) :=
  match cmds with
  | [] => mret ([], b)
  | c :: cmds =>
      '(r, b) ← match c with
                | BSave task => batch_saveTask store task b
                | BUpdate id st => batch_updateTaskStatus id st b
                end;
      '(rs, b) ← batch_loop store cmds b;
      mret (r :: rs, b)
  end.

(** A batch as a client uses it: made, filled, committed, destroyed. *)
Definition batch_run (store : gmap loc Task) (cmds : list bcmd) : M sys (list bool * bool) :=
  '(rs, b) ← batch_loop store cmds new_BatchOperation;
  '(ok, b) ← batch_commit b;
  let _ := batch_destroy b in
  mret (rs, ok).

(** The program ends and starts again on the same files: new objects, and the task
    counter at its initial value. *)
Definition restart : M sys bool :=
  shutdown ;;
  modify (λ s, set_next_id 0 (set_obj (new_Storage (db_path_ (obj s))) s)) ;;
  initialize.

Definition run_sop (now : Z) (store : gmap loc Task) (o : sop) : M sys sres :=
  match o with
  | SSave task => b ← saveTask now store task; mret (RBool b)
  | SUpdate id st => b ← updateTaskStatus now id st; mret (RBool b)
  | SLoad id => t ← loadTask now id; mret (RTask t)
  | SLoadAll => ts ← loadAllTasks now; mret (RTasks ts)
  | SAppend o d => b ← appendToWAL now o d; mret (RBool b)
  | SReplay => l ← replayWAL; mret (RLog l)
  | STruncate => b ← truncateWAL; mret (RBool b)
  | SCompact => b ← compact; mret (RBool b)
  | SBatch cmds => '(rs, b) ← batch_run store cmds; mret (RBatch rs b)
  | SRestart => b ← restart; mret (RBool b)
  end.

Fixpoint run_sops (now : Z) (store : gmap loc Task) (os : list sop) : M sys (list sres) :=
  match os with
  | [] => mret []
  | o :: os => r ← run_sop now store o; rs ← run_sops now store os; mret (r :: rs)
  end.

(** Arguments of the right shape: valid texts, ids and statuses in range. *)
Definition status_ok (st : TaskStatus) : Prop :=
  status_of_int (status_to_int st) = st ∧ INT_MIN ≤ status_to_int st ≤ INT_MAX.

Definition bcmd_ok (store : gmap loc Task) (c : bcmd) : Prop :=
  match c with
  | BSave (Some t) => savable store t
  | BSave None => True
  | BUpdate id st => 0 ≤ id < 2 ^ 64 ∧ status_ok st
  end.

Definition sop_ok (store : gmap loc Task) (o : sop) : Prop :=
  match o with
  | SSave (Some t) => savable store t
  | SUpdate id st => 0 ≤ id < 2 ^ 64 ∧ status_ok st
  | SLoad id => 0 ≤ id < 2 ^ 64
  | SAppend op d => utf8 op ∧ json_dumps d
  | SBatch cmds => Forall (bcmd_ok store) cmds
  | _ => True
  end.
End calls.

(** ** The relation between files and abstract store *)

Section simulation.
Context `{J : JsonLib} `{L : !JsonLaws J} `{R : RocksDB} `{RL : !RocksDBLaws R}.

Definition u64 (z : Z) : Prop := 0 ≤ z < 2 ^ 64.

Record db_rep (m : gmap string string) (a : astore) : Prop := {
  db_task id : u64 id → option_Forall2 task_text (m !! makeTaskKey id) (a_tasks a !! id);
  db_task_id id t : a_tasks a !! id = Some t → u64 id ∧ id_ t = id;
  db_log n : 1 ≤ n < 2 ^ 64 → option_Forall2 log_text (m !! makeWALKey n) (a_log a !! n);
  db_log_id n e : a_log a !! n = Some e → 1 ≤ n < 2 ^ 64;
  db_counter : m !! makeWALKey 0 = to_string <$> a_counter a;
  db_counter_u64 c : a_counter a = Some c → u64 c;
  db_keys k v : m !! k = Some v →
    (∃ id, u64 id ∧ k = makeTaskKey id) ∨ (∃ n, u64 n ∧ k = makeWALKey n)
}.

Record rep (p : string) (s : sys) (a : astore) : Prop := {
  rep_open : db_ (obj s) = true;
  rep_path : db_path_ (obj s) = p;
  rep_seq : wal_sequence_ (obj s) = a_seq a;
  rep_seq_u64 : u64 (a_seq a);
  rep_db : db_rep (db_contents (disk s) p) a
}.

Lemma db_rep_put_task m a id t text : db_rep m a → u64 id → id_ t = id → task_text text t →
  db_rep (<[makeTaskKey id := text]> m) (with_tasks (<[id := t]> (a_tasks a)) a).
Proof.
  intros [] Hid Ht Htext. split; cbn; try done.
  - intros id' Hid'. destruct (decide (id' = id)) as [->|Hne].
    + rewrite !lookup_insert_eq. by constructor.
    + rewrite !lookup_insert_ne by (try done; by intros ->%makeTaskKey_inj). by apply db_task0.
  - intros id' t' [[<- <-]|[_ Hid']]%lookup_insert_Some; [done|by apply db_task_id0].
  - intros n Hn. rewrite lookup_insert_ne by auto with axon. by apply db_log0.
  - by rewrite lookup_insert_ne by auto with axon.
  - intros k v [[<- _]|[_ Hk]]%lookup_insert_Some; eauto.
Qed.

Lemma db_rep_put_log m a n e text c s : db_rep m a → 1 ≤ n < 2 ^ 64 → log_text text e →
  c = a_counter a →
  db_rep (<[makeWALKey n := text]> m) (mkA (a_tasks a) (<[n := e]> (a_log a)) c s).
Proof.
  intros [] Hn Htext ->. split; cbn; try done.
  - intros id Hid. rewrite lookup_insert_ne by auto with axon. by apply db_task0.
  - intros n' Hn'. destruct (decide (n' = n)) as [->|Hne].
    + rewrite !lookup_insert_eq. by constructor.
    + rewrite !lookup_insert_ne by (try done; by intros ->%makeWALKey_inj). by apply db_log0.
  - intros n' e' [[<- <-]|[_ Hn']]%lookup_insert_Some; [done|by eapply db_log_id0].
  - rewrite lookup_insert_ne; [done|]. intros E%makeWALKey_inj. lia.
  - intros k v [[<- _]|[_ Hk]]%lookup_insert_Some; [|eauto]. right. exists n. unfold u64. split; [lia|done].
Qed.

Lemma db_rep_put_counter m a n : db_rep m a → u64 n →
  db_rep (<[makeWALKey 0 := to_string n]> m) (mkA (a_tasks a) (a_log a) (Some n) (a_seq a)).
Proof.
  intros [] Hn. split; cbn; try done.
  - intros id Hid. rewrite lookup_insert_ne by auto with axon. by apply db_task0.
  - intros n' Hn'. rewrite lookup_insert_ne; [by apply db_log0|]. intros E%makeWALKey_inj. lia.
  - by rewrite lookup_insert_eq.
  - by intros c [= <-].
  - intros k v [[<- _]|[_ Hk]]%lookup_insert_Some; [|eauto]. right. exists 0. unfold u64. split; [lia|done].
Qed.

(** The sequence number of the object is not on disk. *)
Lemma db_rep_seq m a s : db_rep m a → db_rep m (mkA (a_tasks a) (a_log a) (a_counter a) s).
Proof. by intros []. Qed.

(** The machine works: reads and opening succeed, the clock fits its type, and
    writes succeed too unless [faulty]. *)
Record healthy (p : string) (now : Z) (faulty : bool) : Prop := {
  healthy_read d : db_readable d p;
  healthy_open d : (db_Open d p).1 = true;
  healthy_now : - 2 ^ 63 ≤ now < 2 ^ 63;
  healthy_put : faulty = false → ∀ d k v, (db_Put d p k v).1 = true;
  healthy_write : faulty = false → ∀ d os, (db_Write d p os).1 = true
}.

Context (p : string) (now : Z) (store : gmap loc Task) (faulty : bool).
Context (Hok : healthy p now faulty).

(** ** Primitive calls *)

Lemma deref_db_run s a : rep p s a → deref_db s = (Ret p, s).
Proof. intros []. unfold deref_db. by rewrite rep_open0, rep_path0. Qed.

Lemma Get_run s a k : rep p s a → Get k s = (Ret (db_contents (disk s) p !! k), s).
Proof.
  intros Hrep. unfold Get. rewrite (bind_run _ _ _ _ _ (deref_db_run s a Hrep)).
  unfold gets. by rewrite db_Get_readable by apply Hok.
Qed.

Lemma Put_run s a k v : rep p s a → ∃ ok d, Put k v s = (Ret ok, set_disk d s) ∧
  if (ok : bool) then db_contents d p = <[k := v]> (db_contents (disk s) p)
  else faulty = true ∧ (db_contents d p = db_contents (disk s) p ∨
         db_contents d p = <[k := v]> (db_contents (disk s) p)).
Proof.
  intros Hrep. unfold Put. rewrite (bind_run _ _ _ _ _ (deref_db_run s a Hrep)). unfold act.
  destruct (db_Put (disk s) p k v) as [ok d] eqn:E. exists ok, d. split; [done|].
  destruct ok; [by apply db_Put_ok|]. split; [|by apply db_Put_fail].
  destruct faulty; [done|]. pose proof (healthy_put _ _ _ Hok eq_refl (disk s) k v) as Hput.
  by rewrite E in Hput.
Qed.

Lemma Write_run s a os : rep p s a → ∃ ok d, Write os s = (Ret ok, set_disk d s) ∧
  if (ok : bool) then db_contents d p = apply_batch os (db_contents (disk s) p)
  else faulty = true ∧ (db_contents d p = db_contents (disk s) p ∨
         db_contents d p = apply_batch os (db_contents (disk s) p)).
Proof.
  intros Hrep. unfold Write. rewrite (bind_run _ _ _ _ _ (deref_db_run s a Hrep)). unfold act.
  destruct (db_Write (disk s) p os) as [ok d] eqn:E. exists ok, d. split; [done|].
  destruct ok; [by apply db_Write_ok|]. split; [|by apply db_Write_fail].
  destruct faulty; [done|]. pose proof (healthy_write _ _ _ Hok eq_refl (disk s) os) as Hwrite.
  by rewrite E in Hwrite.
Qed.

(** An iterator and a prefix: the entries with that prefix, in key order. *)
Lemma NewIterator_run s a pre : rep p s a → ∃ l, NewIterator s = (Ret l, s) ∧
  StronglySorted String.le (prefix_entries pre l).*1 ∧
  NoDup (prefix_entries pre l).*1 ∧
  ∀ k v, (k, v) ∈ prefix_entries pre l ↔
    starts_with pre k = true ∧ db_contents (disk s) p !! k = Some v.
Proof.
  intros Hrep. exists (db_scan (disk s) p). split.
  { unfold NewIterator. by rewrite (bind_run _ _ _ _ _ (deref_db_run s a Hrep)). }
  pose proof (db_scan_sorted (disk s) p (healthy_read _ _ _ Hok _)) as Hsorted.
  pose proof (db_scan_all (disk s) p (healthy_read _ _ _ Hok _)) as Hall.
  assert (Hnd : NoDup (db_scan (disk s) p).*1) by (rewrite Hall; apply NoDup_fst_map_to_list).
  rewrite prefix_entries_filter by done.
  assert (Hsub : (filter (has_prefix pre) (db_scan (disk s) p)).*1 `sublist_of` (db_scan (disk s) p).*1).
  { apply fmap_sublist, sublist_filter. }
  split; [|split].
  - revert Hsub Hsorted. generalize (db_scan (disk s) p).*1.
    generalize (filter (has_prefix pre) (db_scan (disk s) p)).*1.
    intros l k Hsub. induction Hsub as [|x l k Hsub IH|x l k Hsub IH]; [done|..];
      intros [Hx Hk]%StronglySorted_cons; [|by apply IH].
    apply StronglySorted_cons. split; [|by apply IH].
    apply Forall_forall. intros y Hy. rewrite Forall_forall in Hx. apply Hx.
    by eapply elem_of_sublist.
  - by eapply sublist_NoDup.
  - intros k v. rewrite list_elem_of_filter, Hall, elem_of_map_to_list. done.
Qed.

(** ** Writing *)

Lemma rep_set_disk s a d a' : rep p s a → db_rep (db_contents d p) a' → a_seq a' = a_seq a →
  rep p (set_disk d s) a'.
Proof. intros [] Hdb Hseq. split; cbn; congruence || by rewrite Hseq. Qed.

Lemma wal_entry_text n o d : u64 n → utf8 o → json_dumps d →
  ∃ text, json_dump (json_object [("sequence", json_of_num n); ("timestamp", json_of_num now);
                                  ("operation", json_of_string o); ("data", d)]) = Ret text ∧
    log_text text (o, d).
Proof.
  intros Hn Ho Hd. unfold u64 in Hn. set (j := json_object _). pose proof (healthy_now _ _ _ Hok).
  assert (Hnd : NoDup [("sequence", json_of_num n); ("timestamp", json_of_num now);
    ("operation", json_of_string o); ("data", d)].*1) by (cbn; apply NoDup_ListNoDup; by vm_compute;
    repeat constructor; set_solver).
  assert (Hj : json_dumps j).
  { apply json_dumps_object. repeat constructor; cbn; try by apply utf8_ascii.
    - by apply json_dumps_num; lia.
    - by apply json_dumps_num; lia.
    - by apply json_dumps_str.
    - done. }
  destruct Hj as (text & Htext & Hparse). exists text. split; [done|].
  exists j. split; [done|]. split; apply json_object_at; [done|set_solver|done|set_solver].
Qed.

Lemma append_step s a o d : rep p s a → a_seq a + 1 < 2 ^ 64 → utf8 o → json_dumps d →
  ∃ b s' a', appendToWAL now o d s = (Ret b, s') ∧ appended faulty a o d b a' ∧ rep p s' a'.
Proof.
  intros Hrep Hseq Ho Hd. pose proof Hrep as [? ? Hs Hu Hdb]. unfold u64 in Hu.
  set (n := a_seq a + 1). set (a1 := mkA (a_tasks a) (a_log a) (a_counter a) n).
  set (s1 := set_obj (set_wal_sequence n (obj s)) s).
  assert (Hn : 1 ≤ n < 2 ^ 64) by (unfold n; lia).
  assert (Hrep1 : rep p s1 a1).
  { split; cbn; try done; [unfold u64; lia|by apply db_rep_seq]. }
  unfold appendToWAL.
  rewrite (bind_run _ _ s n s1) by (unfold act, s1; cbn; rewrite Hs, w64_small by lia; done).
  rewrite (bind_run _ _ _ _ _ (deref_db_run s1 a1 Hrep1)).
  destruct (wal_entry_text n o d) as (text & Htext & Hlog); [unfold u64; lia|done|done|].
  rewrite (bind_run_lift _ _ _ _ Htext).
  destruct (Put_run s1 a1 (makeWALKey n) text Hrep1) as (ok & d1 & HPut & Hd1).
  rewrite (bind_run _ _ _ _ _ HPut).
  assert (Hw1 : db_contents d1 p = <[makeWALKey n := text]> (db_contents (disk s1) p) →
    rep p (set_disk d1 s1) (mkA (a_tasks a) (<[n := (o, d)]> (a_log a)) (a_counter a) n)).
  { intros E. apply (rep_set_disk s1 a1); [done| |done]. rewrite E.
    apply (db_rep_put_log _ a1); [apply Hrep1|done|done|done]. }
  destruct ok.
  - specialize (Hw1 Hd1).
    destruct (Put_run _ _ (makeWALKey 0) (to_string n) Hw1) as (ok & d2 & HPut2 & Hd2).
    rewrite (bind_run _ _ _ _ _ HPut2). cbn.
    assert (Hc : ∃ c, (c = Some n ∨ faulty = true ∧ c = a_counter a) ∧
      rep p (set_disk d2 (set_disk d1 s1)) (mkA (a_tasks a) (<[n := (o, d)]> (a_log a)) c n)).
    { assert (Hw2 : db_contents d2 p = <[makeWALKey 0 := to_string n]> (db_contents d1 p) →
        rep p (set_disk d2 (set_disk d1 s1)) (mkA (a_tasks a) (<[n := (o, d)]> (a_log a)) (Some n) n)).
      { intros E. eapply rep_set_disk; [exact Hw1| |done]. rewrite E.
        eapply (db_rep_put_counter _ (mkA _ _ _ _)); [apply Hw1|unfold u64; lia]. }
      assert (Hsame : db_contents d2 p = db_contents d1 p →
        rep p (set_disk d2 (set_disk d1 s1)) (mkA (a_tasks a) (<[n := (o, d)]> (a_log a)) (a_counter a) n)).
      { intros E. eapply rep_set_disk; [exact Hw1| |done]. rewrite E. apply Hw1. }
      destruct ok; [exists (Some n); split; [by left|by apply Hw2]|]. destruct Hd2 as [Hf [E|E]].
      - exists (a_counter a). split; [by right|by apply Hsame].
      - exists (Some n). split; [by left|by apply Hw2]. }
    destruct Hc as (c & Hc & Hrep2). exists true, (set_disk d2 (set_disk d1 s1)). eexists.
    split; [done|]. split; [by constructor|exact Hrep2].
  - cbn. destruct Hd1 as [Hf [E|E]].
    + exists false, (set_disk d1 s1). eexists. split; [done|]. split; [apply appended_fail; [done|by left]|].
      eapply rep_set_disk; [exact Hrep1| |done]. rewrite E. apply Hrep1.
    + exists false, (set_disk d1 s1). eexists. split; [done|].
      split; [apply appended_fail; [done|by right]|]. by apply Hw1.
Qed.

(** The part [saveTask] and [updateTaskStatus] share. *)
Lemma write_step s a j t o d : rep p s a → a_seq a + 1 < 2 ^ 64 → u64 (id_ t) →
  loads_as j t → utf8 o → json_dumps d →
  ∃ b s' a', (deref_db ;; text ← lift (json_dump j); ok ← Put (makeTaskKey (id_ t)) text;
              if (ok : bool) then appendToWAL now o d ;; mret true else mret false) s = (Ret b, s') ∧
    written faulty a (id_ t) t o d b a' ∧ rep p s' a'.
Proof.
  intros Hrep Hseq Hid Hj Ho Hd. rewrite (bind_run _ _ _ _ _ (deref_db_run s a Hrep)).
  destruct (la_dumps j t Hj) as (text & Hdump & Hparse). rewrite (bind_run_lift _ _ _ _ Hdump).
  destruct (Put_run s a (makeTaskKey (id_ t)) text Hrep) as (ok & d1 & HPut & Hd1).
  rewrite (bind_run _ _ _ _ _ HPut).
  assert (Hw1 : db_contents d1 p = <[makeTaskKey (id_ t) := text]> (db_contents (disk s) p) →
    rep p (set_disk d1 s) (with_tasks (<[id_ t := t]> (a_tasks a)) a)).
  { intros E. apply (rep_set_disk s a); [done| |done]. rewrite E.
    apply db_rep_put_task; [apply Hrep|done|done|]. by exists j. }
  destruct ok.
  - specialize (Hw1 Hd1). destruct (append_step _ _ o d Hw1) as (b & s' & a' & Hrun & Happ & Hrep');
      [done|done|done|].
    exists true, s', a'. rewrite (bind_run _ _ _ _ _ Hrun). split; [done|]. split; [by econstructor|done].
  - cbn. destruct Hd1 as [Hf [E|E]].
    + exists false, (set_disk d1 s). eexists. split; [done|]. split; [apply written_fail; [done|by left]|].
      eapply rep_set_disk; [exact Hrep| |done]. rewrite E. apply (db_rep_seq _ a), Hrep.
    + exists false, (set_disk d1 s). eexists. split; [done|].
      split; [apply written_fail; [done|by right]|]. by apply Hw1.
Qed.

Lemma save_step s a t : rep p s a → a_seq a + 1 < 2 ^ 64 →
  match t with Some t => savable store t | None => True end →
  ∃ b s' a', saveTask now store t s = (Ret b, s') ∧ sstep faulty store a (SSave t) (RBool b) a' ∧ rep p s' a'.
Proof.
  intros Hrep Hseq Hsav. destruct t as [t|]; [|by exists false, s, a; split; [|split; [constructor|]]].
  destruct (toJson_loads_as store t Hsav) as (j & Hto & Hj).
  destruct (write_step s a j t "save_task" j Hrep Hseq) as (b & s' & a' & Hrun & Hw & Hrep').
  { apply (wf_id t). apply Hsav. } { done. } { by apply utf8_ascii. } { apply Hj. }
  exists b, s', a'. split; [|split; [by econstructor|done]].
  unfold saveTask. apply try_catch_Ret. by rewrite (bind_run_lift _ _ _ _ Hto).
Qed.

Lemma update_step s a id st : rep p s a → a_seq a + 1 < 2 ^ 64 → u64 id → status_ok st →
  ∃ b s' a', updateTaskStatus now id st s = (Ret b, s') ∧
    sstep faulty store a (SUpdate id st) (RBool b) a' ∧ rep p s' a'.
Proof.
  intros Hrep Hseq Hid [Hst Hst']. unfold updateTaskStatus.
  rewrite (bind_run _ _ _ _ _ (Get_run s a _ Hrep)).
  pose proof (db_task _ _ (rep_db p s a Hrep) id Hid) as Htask.
  destruct (a_tasks a !! id) as [t|] eqn:Ht; inversion Htask as [value t' Htext E1 E2|E1 E2]; subst.
  - destruct Htext as (j & Hparse & Hj).
    destruct (loads_as_status j t st Hj Hst Hst') as (j' & Hset & Hj').
    assert (Hidt : id_ t = id) by by eapply db_task_id; [apply Hrep|].
    set (d := json_object [("task_id", json_of_num id); ("status", json_of_num (status_to_int st))]).
    destruct (write_step s a j' (set_status st t) "update_status" d Hrep Hseq)
      as (b & s' & a' & Hrun & Hw & Hrep').
    { cbn. by rewrite Hidt. } { done. } { by apply utf8_ascii. }
    { unfold u64, INT_MIN, INT_MAX in *. apply json_dumps_object.
      repeat constructor; cbn; try (by apply utf8_ascii); by apply json_dumps_num; lia. }
    exists b, s', a'. split; [|split; [|done]].
    + apply try_catch_Ret. rewrite (bind_run_lift _ _ _ _ Hparse), (bind_run_lift _ _ _ _ Hset).
      cbn in Hrun. by rewrite Hidt in Hrun.
    + cbn in Hw. rewrite Hidt in Hw. by econstructor.
  - exists false, s, a. split; [done|]. split; [by constructor|done].
Qed.

(** ** Reading *)

Lemma rep_next_id s a n : rep p s a → rep p (set_next_id n s) a.
Proof. by intros []. Qed.

Lemma load_step s a id : rep p s a → u64 id →
  ∃ n, loadTask now id s = (Ret (stored <$> a_tasks a !! id), set_next_id n s).
Proof.
  intros Hrep Hid. unfold loadTask. rewrite (bind_run _ _ _ _ _ (Get_run s a _ Hrep)).
  pose proof (db_task _ _ (rep_db p s a Hrep) id Hid) as Htask.
  destruct (a_tasks a !! id) as [t|] eqn:Ht; inversion Htask as [value t' Htext E1 E2|E1 E2]; subst.
  - destruct (task_from_text_run now value t s Htext) as [n Hn]. exists n.
    apply try_catch_Ret. by rewrite (bind_run _ _ _ _ _ Hn).
  - exists (next_id s). by destruct s.
Qed.

(** The entries of a prefix loop, by the numbers in their keys. *)
Lemma entries_index {X} (key : Z → string) (T : string → X → Prop) (l : list (string * string))
    (A : gmap Z X) :
  (∀ i j, key i = key j → i = j) → NoDup l.*1 →
  (∀ k v, (k, v) ∈ l → ∃ i x, k = key i ∧ A !! i = Some x ∧ T v x) →
  (∀ i x, A !! i = Some x → ∃ v, (key i, v) ∈ l) →
  ∃ ns, l.*1 = key <$> ns ∧ ns ≡ₚ elements (dom A) ∧
    Forall2 (λ kv i, ∃ x, A !! i = Some x ∧ T kv.2 x) l ns.
Proof.
  intros Hinj Hnd Hin Hall.
  assert (Hidx : ∃ ns, l.*1 = key <$> ns ∧ Forall2 (λ kv i, ∃ x, A !! i = Some x ∧ T kv.2 x) l ns).
  { clear Hall Hnd. induction l as [|[k v] l IH]; [by exists []|].
    destruct (Hin k v) as (i & x & -> & Hi & Hx); [left|].
    destruct IH as (ns & Hkeys & His); [intros; apply Hin; by right|].
    exists (i :: ns). rewrite !fmap_cons, Hkeys. split; [done|]. constructor; [by exists x|done]. }
  destruct Hidx as (ns & Hkeys & His). exists ns. split; [done|]. split; [|done].
  apply NoDup_Permutation.
  - rewrite Hkeys in Hnd. by eapply NoDup_fmap_1.
  - apply NoDup_elements.
  - intros i. rewrite elem_of_elements, elem_of_dom. split.
    + intros Hi. apply list_elem_of_lookup in Hi as [n Hn].
      destruct (Forall2_lookup_r _ _ _ _ _ His Hn) as (kv & _ & x & Hx & _). by exists x.
    + intros [x Hx]. destruct (Hall i x Hx) as [v Hv].
      assert (Hk : key i ∈ l.*1) by (apply list_elem_of_fmap; by exists (key i, v)).
      rewrite Hkeys in Hk. by apply list_elem_of_fmap in Hk as (i' & ->%Hinj & Hi').
Qed.

Lemma loadAll_loop_run l ns a s :
  Forall2 (λ kv id, ∃ t, a_tasks a !! id = Some t ∧ task_text kv.2 t) l ns →
  ∃ n, loadAll_loop now l s = (Ret (omap (λ id, stored <$> a_tasks a !! id) ns), set_next_id n s).
Proof.
  intros Hl. revert s. induction Hl as [|[k v] id l ns (t & Ht & Htext) Hl IH]; intros s.
  - exists (next_id s). by destruct s.
  - destruct (task_from_text_run now v t s Htext) as [n Hn]. destruct (IH (set_next_id n s)) as [n' IHn].
    exists n'. cbn [loadAll_loop].
    rewrite (bind_run _ _ s [stored t] (set_next_id n s)) by
      (apply try_catch_Ret; by rewrite (bind_run _ _ _ _ _ Hn)).
    rewrite (bind_run _ _ _ _ _ IHn). cbn. rewrite Ht. done.
Qed.

Lemma loadAll_step s a : rep p s a →
  ∃ ids n, loadAllTasks now s =
      (Ret (omap (λ id, stored <$> a_tasks a !! id) ids), set_next_id n s) ∧
    ids ≡ₚ elements (dom (a_tasks a)) ∧ key_order makeTaskKey ids.
Proof.
  intros Hrep. pose proof (rep_db p s a Hrep) as Hdb.
  destruct (NewIterator_run s a TASK_PREFIX Hrep) as (l & Hit & Hsorted & Hnd & Hin).
  destruct (entries_index makeTaskKey task_text (prefix_entries TASK_PREFIX l) (a_tasks a))
    as (ids & Hkeys & Hperm & Hids); [apply makeTaskKey_inj|done|..].
  - intros k v [Hpre Hk]%Hin. destruct (db_keys _ _ Hdb k v Hk) as [(id & Hid & ->)|(n & _ & ->)]; [|done].
    pose proof (db_task _ _ Hdb id Hid) as Htask. rewrite Hk in Htask.
    inversion Htask as [? t Htext|]; subst. by exists id, t.
  - intros id t Ht. destruct (db_task_id _ _ Hdb id t Ht) as [Hid _].
    pose proof (db_task _ _ Hdb id Hid) as Htask. rewrite Ht in Htask.
    inversion Htask as [v ? Htext E|]; subst. exists v. apply Hin. auto with axon.
  - destruct (loadAll_loop_run _ _ a s Hids) as [n Hn]. exists ids, n. split.
    + unfold loadAllTasks. by rewrite (bind_run _ _ _ _ _ Hit).
    + split; [done|]. unfold key_order. by rewrite <-Hkeys.
Qed.

(** What is stored under the log prefix: the log, and the counter under 0. *)
Definition wal_entries (a : astore) : gmap Z (option (string * json)) :=
  match a_counter a with
  | Some c => <[0 := None]> (Some <$> a_log a)
  | None => Some <$> a_log a
  end.

Definition wal_text (v : string) (x : option (string * json)) : Prop :=
  match x with
  | Some e => log_text v e
  | None => ∃ c, u64 c ∧ v = to_string c
  end.

Lemma wal_entries_pos a n : n ≠ 0 → wal_entries a !! n = Some <$> a_log a !! n.
Proof.
  intros Hn. unfold wal_entries. destruct (a_counter a); [|apply lookup_fmap].
  rewrite lookup_insert_ne by lia. apply lookup_fmap.
Qed.

Lemma wal_entries_0 m a : db_rep m a →
  wal_entries a !! 0 = (λ _, None) <$> a_counter a.
Proof.
  intros Hdb. unfold wal_entries. destruct (a_counter a); cbn; [by rewrite lookup_insert_eq|].
  rewrite lookup_fmap. destruct (a_log a !! 0) as [e|] eqn:E; [|done].
  apply (db_log_id _ _ Hdb) in E. lia.
Qed.

Lemma replay_loop_run l ns a s :
  Forall2 (λ kv i, ∃ x, wal_entries a !! i = Some x ∧ wal_text kv.2 x) l ns →
  replay_loop l s = (Ret (omap (λ i, x ← wal_entries a !! i; x) ns), s).
Proof.
  induction 1 as [|[k v] i l ns (x & Hx & Htext) Hl IH]; [done|]. cbn [replay_loop omap list_omap].
  cbn [snd] in Htext. rewrite Hx. cbn [mbind option_bind]. destruct x as [e|].
  - rewrite (bind_run _ _ s [e] s).
    { by rewrite (bind_run _ _ _ _ _ IH). }
    apply try_catch_Ret. by rewrite (bind_run_lift _ _ _ _ (replay_entry_text _ _ Htext)).
  - destruct Htext as (c & Hc & ->). destruct (replay_entry_counter c Hc) as [what Hw].
    rewrite (bind_run _ _ s [] s).
    { by rewrite (bind_run _ _ _ _ _ IH). }
    cbn. rewrite Hw. done.
Qed.

Lemma wal_index s a : rep p s a → ∃ l ns, NewIterator s = (Ret l, s) ∧
  (prefix_entries WAL_PREFIX l).*1 = makeWALKey <$> ns ∧ ns ≡ₚ elements (dom (wal_entries a)) ∧
  StronglySorted String.le (makeWALKey <$> ns) ∧
  Forall2 (λ kv i, ∃ x, wal_entries a !! i = Some x ∧ wal_text kv.2 x) (prefix_entries WAL_PREFIX l) ns.
Proof.
  intros Hrep. pose proof (rep_db p s a Hrep) as Hdb.
  destruct (NewIterator_run s a WAL_PREFIX Hrep) as (l & Hit & Hsorted & Hnd & Hin). exists l.
  destruct (entries_index makeWALKey wal_text (prefix_entries WAL_PREFIX l) (wal_entries a))
    as (ns & Hkeys & Hperm & His); [apply makeWALKey_inj|done|..].
  - intros k v [Hpre Hk]%Hin. destruct (db_keys _ _ Hdb k v Hk) as [(id & Hid & ->)|(n & Hn & ->)]; [done|].
    exists n. unfold u64 in Hn. destruct (decide (n = 0)) as [->|Hne].
    + rewrite (wal_entries_0 _ _ Hdb). rewrite (db_counter _ _ Hdb) in Hk.
      destruct (a_counter a) as [c|] eqn:Hc; [|done]. injection Hk as <-. exists None.
      split_and!; [done..|]. exists c. split; [by eapply db_counter_u64|done].
    + rewrite wal_entries_pos by lia. pose proof (db_log _ _ Hdb n ltac:(lia)) as Hlog.
      rewrite Hk in Hlog. inversion Hlog as [? e Htext|]; subst. by exists (Some e).
  - intros n x Hx. destruct (decide (n = 0)) as [->|Hne].
    + rewrite (wal_entries_0 _ _ Hdb) in Hx. destruct (a_counter a) as [c|] eqn:Hc; [|done].
      exists (to_string c). apply Hin. split; [auto with axon|]. by rewrite (db_counter _ _ Hdb), Hc.
    + rewrite wal_entries_pos in Hx by done. destruct (a_log a !! n) as [e|] eqn:He; [|done].
      pose proof (db_log _ _ Hdb n (db_log_id _ _ Hdb n e He)) as Hlog. rewrite He in Hlog.
      inversion Hlog as [v ? Htext E|]; subst. exists v. apply Hin. auto with axon.
  - exists ns. split_and!; try done. by rewrite <-Hkeys.
Qed.

Lemma StronglySorted_filter_key (key : Z → string) (P : Z → Prop) `{∀ x, Decision (P x)} l :
  StronglySorted String.le (key <$> l) → StronglySorted String.le (key <$> filter P l).
Proof.
  induction l as [|x l IH]; [done|]. rewrite fmap_cons. intros [Hx Hl]%StronglySorted_cons.
  rewrite filter_cons. destruct (decide (P x)); [|by apply IH]. rewrite fmap_cons.
  apply StronglySorted_cons. split; [|by apply IH]. rewrite Forall_fmap, Forall_forall in Hx |- *.
  intros y [_ Hy]%list_elem_of_filter. by apply Hx.
Qed.

Lemma replay_step s a : rep p s a →
  ∃ ns, replayWAL s = (Ret (omap (λ n, a_log a !! n) ns), s) ∧
    ns ≡ₚ elements (dom (a_log a)) ∧ key_order makeWALKey ns.
Proof.
  intros Hrep. pose proof (rep_db p s a Hrep) as Hdb.
  destruct (wal_index s a Hrep) as (l & ns & Hit & _ & Hperm & Hsorted & Hns).
  exists (filter (λ n, n ≠ 0) ns). split_and!.
  - unfold replayWAL. rewrite (bind_run _ _ _ _ _ Hit), (replay_loop_run _ _ _ s Hns). do 2 f_equal.
    pose proof (wal_entries_0 _ _ Hdb) as H0. clear -H0.
    induction ns as [|n ns IH]; [done|]. rewrite filter_cons. cbn [omap list_omap].
    destruct (decide (n = 0)) as [->|Hne].
    + rewrite decide_False by naive_solver. rewrite <-IH, H0. by destruct (a_counter a).
    + rewrite decide_True by done. cbn [omap list_omap]. rewrite wal_entries_pos by done.
      destruct (a_log a !! n); cbn; by rewrite IH.
  - apply NoDup_Permutation; [|apply NoDup_elements|].
    + apply NoDup_filter. rewrite Hperm. apply NoDup_elements.
    + intros n. rewrite list_elem_of_filter, Hperm, !elem_of_elements, !elem_of_dom. split.
      * intros [Hne Hn]. rewrite wal_entries_pos in Hn by done. destruct Hn as [x Hx].
        destruct (a_log a !! n); [by eexists|done].
      * intros [e He]. assert (Hne : n ≠ 0) by (apply (db_log_id _ _ Hdb) in He; lia).
        rewrite wal_entries_pos, He by done. split; [done|by eexists].
  - by apply StronglySorted_filter_key.
Qed.

(** ** Truncation, batches, restarts *)

Lemma apply_deletes ks m k :
  apply_batch (BDelete <$> ks) m !! k = if decide (k ∈ ks) then None else m !! k.
Proof.
  unfold apply_batch. revert m. induction ks as [|k' ks IH]; intros m; [done|].
  rewrite fmap_cons. cbn [foldl apply_batch_op]. rewrite IH.
  destruct (decide (k ∈ ks)) as [Hin|Hin]; [by rewrite decide_True by set_solver|].
  destruct (decide (k = k')) as [->|Hne].
  - rewrite lookup_delete_eq, decide_True by set_solver. done.
  - rewrite lookup_delete_ne by done. by rewrite decide_False by set_solver.
Qed.

Lemma db_rep_truncate m a ns s : db_rep m a → ns ≡ₚ elements (dom (wal_entries a)) →
  db_rep (apply_batch (BDelete <$> (makeWALKey <$> ns)) m) (mkA (a_tasks a) ∅ None s).
Proof.
  intros Hdb Hns. pose proof Hdb as [].
  assert (Hgone : ∀ n, u64 n → apply_batch (BDelete <$> (makeWALKey <$> ns)) m !! makeWALKey n = None).
  { intros n Hn. rewrite apply_deletes. case_decide as Hin; [done|].
    assert (Hnot : wal_entries a !! n = None).
    { destruct (wal_entries a !! n) eqn:E; [|done]. destruct Hin. apply list_elem_of_fmap. exists n.
      split; [done|]. rewrite Hns, elem_of_elements, elem_of_dom. by eexists. }
    unfold u64 in Hn. destruct (decide (n = 0)) as [->|Hne].
    - rewrite (wal_entries_0 _ _ Hdb) in Hnot. rewrite db_counter0. by destruct (a_counter a).
    - rewrite wal_entries_pos in Hnot by done. pose proof (db_log0 n ltac:(lia)) as Hlog.
      destruct (a_log a !! n); [done|]. by inversion Hlog. }
  assert (Hkeep : ∀ id, apply_batch (BDelete <$> (makeWALKey <$> ns)) m !! makeTaskKey id = m !! makeTaskKey id).
  { intros id. rewrite apply_deletes, decide_False; [done|]. by intros (n & E & _)%list_elem_of_fmap. }
  split; cbn; try done.
  - intros id Hid. rewrite Hkeep. by apply db_task0.
  - intros n Hn. rewrite Hgone by (unfold u64; lia). constructor.
  - rewrite Hgone by (unfold u64; lia). done.
  - intros k v Hk. apply (db_keys0 k v). rewrite apply_deletes in Hk. by case_decide.
Qed.

Lemma truncate_step s a : rep p s a →
  ∃ b s' a', truncateWAL s = (Ret b, s') ∧ sstep faulty store a STruncate (RBool b) a' ∧ rep p s' a'.
Proof.
  intros Hrep. destruct (wal_index s a Hrep) as (l & ns & Hit & Hkeys & Hperm & _ & _).
  unfold truncateWAL. rewrite (bind_run _ _ _ _ _ Hit).
  change (λ kv : string * string, BDelete kv.1) with (BDelete ∘ fst (A := string) (B := string)).
  rewrite list_fmap_compose, Hkeys.
  destruct (Write_run s a (BDelete <$> (makeWALKey <$> ns)) Hrep) as (ok & d & HW & Hd).
  rewrite HW. exists ok, (set_disk d s).
  assert (Hcut : db_contents d p = apply_batch (BDelete <$> (makeWALKey <$> ns)) (db_contents (disk s) p) →
    rep p (set_disk d s) (mkA (a_tasks a) ∅ None (a_seq a))).
  { intros E. apply (rep_set_disk s a); [done| |done]. rewrite E.
    apply db_rep_truncate; [apply Hrep|done]. }
  destruct ok.
  - eexists. split; [done|]. split; [apply step_truncate|by apply Hcut].
  - destruct Hd as [Hf [E|E]].
    + exists (mkA (a_tasks a) (a_log a) (a_counter a) (a_seq a)). split; [done|].
      split; [apply step_truncate_fail; [done|by left]|].
      apply (rep_set_disk s a); [done| |done]. rewrite E. apply (db_rep_seq _ a), Hrep.
    + eexists. split; [done|]. split; [apply step_truncate_fail; [done|by right]|by apply Hcut].
Qed.

(** A batch and what it writes. *)
Definition put_of (o : batch_op) (w : Z * Task) : Prop :=
  ∃ text, o = BPut (makeTaskKey w.1) text ∧ task_text text w.2 ∧ u64 w.1 ∧ id_ w.2 = w.1.

Lemma db_rep_batch os ws m a : Forall2 put_of os ws → db_rep m a →
  db_rep (apply_batch os m) (with_tasks (write_all ws (a_tasks a)) a).
Proof.
  unfold apply_batch, write_all. intros Hos. revert m a.
  induction Hos as [|o w os ws (text & -> & Htext & Hid & Ht) Hos IH]; intros m a Hdb.
  - by apply (db_rep_seq _ a).
  - exact (IH _ _ (db_rep_put_task m a w.1 w.2 text Hdb Hid Ht Htext)).
Qed.

Lemma batch_save_run s t b : savable store t → ∃ text,
  batch_saveTask store (Some t) b s = (Ret (true, batch_put (makeTaskKey (id_ t)) text b), s) ∧
  task_text text t.
Proof.
  intros Hsav. destruct (toJson_loads_as store t Hsav) as (j & Hto & Hj).
  destruct (la_dumps j t Hj) as (text & Hdump & Hparse). exists text. split; [|by exists j].
  unfold batch_saveTask. apply try_catch_Ret.
  by rewrite (bind_run_lift _ _ _ _ Hto), (bind_run_lift _ _ _ _ Hdump).
Qed.

Lemma batch_update_run s a id st b : rep p s a → u64 id → status_ok st →
  match a_tasks a !! id with
  | Some t => ∃ text,
      batch_updateTaskStatus id st b s = (Ret (true, batch_put (makeTaskKey id) text b), s) ∧
      task_text text (set_status st t) ∧ id_ t = id
  | None => batch_updateTaskStatus id st b s = (Ret (false, b), s)
  end.
Proof.
  intros Hrep Hid [Hst Hst']. pose proof (db_task _ _ (rep_db p s a Hrep) id Hid) as Htask.
  unfold batch_updateTaskStatus.
  destruct (a_tasks a !! id) as [t|] eqn:Ht; inversion Htask as [value t' Htext E1 E2|E1 E2]; subst.
  - destruct Htext as (j & Hparse & Hj).
    destruct (loads_as_status j t st Hj Hst Hst') as (j' & Hset & Hj').
    destruct (la_dumps _ _ Hj') as (text & Hdump & Hparse'). exists text.
    split_and!; [|by exists j'|by eapply db_task_id; [apply Hrep|]].
    rewrite (bind_run _ _ _ _ _ (Get_run s a _ Hrep)). rewrite <-E1. apply try_catch_Ret.
    by rewrite (bind_run_lift _ _ _ _ Hparse), (bind_run_lift _ _ _ _ Hset), (bind_run_lift _ _ _ _ Hdump).
  - rewrite (bind_run _ _ _ _ _ (Get_run s a _ Hrep)). by rewrite <-E1.
Qed.

Lemma batch_loop_run cmds b s a rs ws : rep p s a → Forall (bcmd_ok store) cmds →
  batch_spec (a_tasks a) cmds = (rs, ws) →
  ∃ os, batch_loop store cmds b s = (Ret (rs, mkBatch (batch_ b ++ os) (committed_ b)), s) ∧
    Forall2 put_of os ws.
Proof.
  intros Hrep Hcmds. revert b rs ws. induction Hcmds as [|c cmds Hc Hcmds IH]; intros b rs ws.
  - intros [= <- <-]. exists []. rewrite app_nil_r. by destruct b.
  - cbn [batch_spec batch_loop]. destruct (batch_spec (a_tasks a) cmds) as [rs' ws'].
    destruct c as [[t|]|id st].
    + intros [= <- <-]. destruct (batch_save_run s t b Hc) as (text & Hrun & Htext).
      rewrite (bind_run _ _ _ _ _ Hrun).
      destruct (IH (batch_put (makeTaskKey (id_ t)) text b) _ _ eq_refl) as (os & Hos & Hws).
      rewrite (bind_run _ _ _ _ _ Hos). eexists. cbn. rewrite <-app_assoc. split; [done|].
      constructor; [|done]. exists text. split_and!; try done. apply (wf_id t). apply Hc.
    + intros [= <- <-]. cbn [batch_saveTask].
      rewrite (bind_run _ _ s (false, b) s) by done.
      destruct (IH b _ _ eq_refl) as (os & Hos & Hws).
      rewrite (bind_run _ _ _ _ _ Hos). by exists os.
    + destruct Hc as [Hid Hst]. pose proof (batch_update_run s a id st b Hrep Hid Hst) as Hrun.
      destruct (a_tasks a !! id) as [t|].
      * intros [= <- <-]. destruct Hrun as (text & Hrun & Htext & Ht).
        rewrite (bind_run _ _ _ _ _ Hrun).
        destruct (IH (batch_put (makeTaskKey id) text b) _ _ eq_refl) as (os & Hos & Hws).
        rewrite (bind_run _ _ _ _ _ Hos). eexists. cbn. rewrite <-app_assoc. split; [done|].
        constructor; [|done]. by exists text.
      * intros [= <- <-]. rewrite (bind_run _ _ _ _ _ Hrun).
        destruct (IH b _ _ eq_refl) as (os & Hos & Hws).
        rewrite (bind_run _ _ _ _ _ Hos). by exists os.
Qed.

Lemma batch_step cmds s a : rep p s a → Forall (bcmd_ok store) cmds →
  ∃ rs ok s' a', batch_run store cmds s = (Ret (rs, ok), s') ∧
    sstep faulty store a (SBatch cmds) (RBatch rs ok) a' ∧ rep p s' a'.
Proof.
  intros Hrep Hcmds. destruct (batch_spec (a_tasks a) cmds) as [rs ws] eqn:Hspec.
  destruct (batch_loop_run cmds new_BatchOperation s a rs ws Hrep Hcmds Hspec) as (os & Hos & Hws).
  unfold batch_run. rewrite (bind_run _ _ _ _ _ Hos). unfold batch_commit. cbn [batch_ app new_BatchOperation].
  destruct (Write_run s a os Hrep) as (ok & d & HW & Hd).
  rewrite (bind_run _ _ s (ok, mkBatch os ok) (set_disk d s)) by (by rewrite (bind_run _ _ _ _ _ HW)).
  exists rs, ok, (set_disk d s).
  assert (Hall : db_contents d p = apply_batch os (db_contents (disk s) p) →
    rep p (set_disk d s) (with_tasks (write_all ws (a_tasks a)) a)).
  { intros E. apply (rep_set_disk s a); [done| |done]. rewrite E. apply db_rep_batch; [done|apply Hrep]. }
  destruct ok.
  - eexists. split; [done|]. split; [by apply step_batch|by apply Hall].
  - destruct Hd as [Hf [E|E]].
    + eexists. split; [done|]. split; [eapply step_batch_fail; [done|done|by left]|].
      apply (rep_set_disk s a); [done| |done]. rewrite E. apply (db_rep_seq _ a), Hrep.
    + eexists. split; [done|]. split; [eapply step_batch_fail; [done|done|by right]|by apply Hall].
Qed.

(** Opening the files of an abstract store: the counter on disk becomes the
    sequence number, when there is one. *)
Lemma initialize_step s a : db_path_ (obj s) = p → u64 (wal_sequence_ (obj s)) →
  db_rep (db_contents (disk s) p) a →
  ∃ s', initialize s = (Ret true, s') ∧ next_id s' = next_id s ∧
    rep p s' (mkA (a_tasks a) (a_log a) (a_counter a) (default (wal_sequence_ (obj s)) (a_counter a))).
Proof.
  intros Hp Hseq Hdb. pose proof (healthy_open _ _ _ Hok (disk s)) as Hopen.
  destruct (db_Open (disk s) p) as [ok d] eqn:HO. cbn in Hopen. subst ok.
  pose proof (db_Open_contents _ _ _ _ p HO) as Hd.
  set (s1 := set_obj (set_db true (obj s)) (set_disk d s)).
  assert (Hrep1 : rep p s1 (mkA (a_tasks a) (a_log a) (a_counter a) (wal_sequence_ (obj s)))).
  { split; cbn; try done. rewrite Hd. by apply db_rep_seq. }
  unfold initialize. rewrite (bind_run _ _ s true s1) by (unfold act; rewrite Hp, HO; done). cbn [negb].
  rewrite (bind_run _ _ _ _ _ (Get_run s1 _ _ Hrep1)).
  rewrite (db_counter _ _ (rep_db _ _ _ Hrep1)). cbn [a_counter].
  destruct (a_counter a) as [c|] eqn:Hc; cbn [fmap option_fmap option_map default].
  - assert (Hcu : u64 c) by by eapply db_counter_u64.
    rewrite (bind_run_lift _ _ _ _ (stoull_to_string c Hcu)). eexists. split; [done|]. split; [done|].
    destruct Hrep1. split; cbn in *; try done. by eapply (db_rep_seq _ (mkA _ _ _ _)).
  - by exists s1.
Qed.

Lemma restart_step s a : rep p s a → ∃ s', restart s = (Ret true, s') ∧ next_id s' = 0 ∧
  rep p s' (mkA (a_tasks a) (a_log a) (a_counter a) (default 0 (a_counter a))).
Proof.
  intros [Hdb Hp Hs Hu Hrep]. unfold restart.
  rewrite (bind_run _ _ s true
    (set_obj (set_db false (obj s)) (set_disk (db_Close (disk s) (db_path_ (obj s))) s)))
    by (unfold shutdown; by rewrite Hdb).
  set (s1 := set_next_id 0 (set_obj (new_Storage p)
    (set_obj (set_db false (obj s)) (set_disk (db_Close (disk s) (db_path_ (obj s))) s)))).
  rewrite (bind_run _ _ _ tt s1) by (unfold modify, s1; cbn; by rewrite Hp).
  destruct (initialize_step s1 a) as (s' & Hrun & Hn & Hrep'); [done|unfold u64; cbn; lia| |].
  { cbn. by rewrite db_Close_contents. }
  by exists s'.
Qed.

(** Every call returns and is a step of the specification. *)
Lemma sop_step s a o : rep p s a → a_seq a + 1 < 2 ^ 64 → sop_ok store o →
  ∃ r s' a', run_sop now store o s = (Ret r, s') ∧ sstep faulty store a o r a' ∧ rep p s' a'.
Proof.
  intros Hrep Hseq Hop. destruct o; cbn [run_sop].
  - destruct (save_step s a task Hrep Hseq) as (b & s' & a' & Hrun & Hst & Hrep').
    { by destruct task. }
    rewrite (bind_run _ _ _ _ _ Hrun). by eexists _, _, _.
  - destruct Hop as [Hid Hst]. destruct (update_step s a id status Hrep Hseq Hid Hst)
      as (b & s' & a' & Hrun & Hst' & Hrep').
    rewrite (bind_run _ _ _ _ _ Hrun). by eexists _, _, _.
  - destruct (load_step s a id Hrep Hop) as (n & Hrun). rewrite (bind_run _ _ _ _ _ Hrun).
    eexists _, _, a. split; [done|]. split; [constructor|by apply rep_next_id].
  - destruct (loadAll_step s a Hrep) as (ids & n & Hrun & Hperm & Hord). rewrite (bind_run _ _ _ _ _ Hrun).
    eexists _, _, a. split; [done|]. split; [by constructor|by apply rep_next_id].
  - destruct Hop as [Ho Hd]. destruct (append_step s a operation data Hrep Hseq Ho Hd)
      as (b & s' & a' & Hrun & Hst & Hrep').
    rewrite (bind_run _ _ _ _ _ Hrun). eexists _, _, _. split; [done|]. split; [by constructor|done].
  - destruct (replay_step s a Hrep) as (ns & Hrun & Hperm & Hord). rewrite (bind_run _ _ _ _ _ Hrun).
    eexists _, _, a. split; [done|]. split; [by constructor|done].
  - destruct (truncate_step s a Hrep) as (b & s' & a' & Hrun & Hst & Hrep').
    rewrite (bind_run _ _ _ _ _ Hrun). by eexists _, _, _.
  - assert (Hrun : ∃ b d, compact s = (Ret b, set_disk d s) ∧ db_contents d p = db_contents (disk s) p).
    { unfold compact. rewrite (bind_run _ _ _ _ _ (deref_db_run s a Hrep)). unfold act.
      destruct (db_CompactRange (disk s) p) as [b d] eqn:E. exists b, d. split; [done|].
      by eapply db_CompactRange_contents. }
    destruct Hrun as (b & d & Hrun & Hd). rewrite (bind_run _ _ _ _ _ Hrun).
    eexists _, _, a. split; [done|]. split; [constructor|].
    apply (rep_set_disk s a); [done| |done]. rewrite Hd. apply Hrep.
  - destruct (batch_step cmds s a Hrep Hop) as (rs & ok & s' & a' & Hrun & Hst & Hrep').
    rewrite (bind_run _ _ _ _ _ Hrun). by eexists _, _, _.
  - destruct (restart_step s a Hrep) as (s' & Hrun & _ & Hrep'). rewrite (bind_run _ _ _ _ _ Hrun).
    eexists _, _, _. split; [done|]. split; [constructor|done].
Qed.

(** The sequence number grows by at most one per call. *)
Lemma sstep_seq a o r a' : sstep faulty store a o r a' → (∀ c, a_counter a = Some c → c ≤ a_seq a) → 0 ≤ a_seq a →
  a_seq a' ≤ a_seq a + 1 ∧ (∀ c, a_counter a' = Some c → c ≤ a_seq a').
Proof.
  intros Hst Hc Hseq.
  assert (Happ : ∀ a o d b a', (∀ c, a_counter a = Some c → c ≤ a_seq a) → appended faulty a o d b a' →
    a_seq a' = a_seq a + 1 ∧ (∀ c, a_counter a' = Some c → c ≤ a_seq a')).
  { intros a1 o1 d1 b1 a1' Hc1. destruct 1 as [c' [->|[_ ->]]|l' _ _]; cbn; split; try done.
    - intros c [= <-]. lia.
    - intros c Hc'. specialize (Hc1 c Hc'). lia.
    - intros c Hc'. specialize (Hc1 c Hc'). lia. }
  assert (Hwr : ∀ id t o d b a', written faulty a id t o d b a' →
    a_seq a' ≤ a_seq a + 1 ∧ (∀ c, a_counter a' = Some c → c ≤ a_seq a')).
  { intros id t o1 d b a1. destruct 1 as [b a1 Ha|m _ _]; [|cbn; split; [lia|done]].
    apply Happ in Ha as [-> Ha]; [|done]. by split. }
  destruct Hst as [ | | | | | |? ? ? ? Ha| | |? ? _ [[-> ->]|[-> ->]]| | | |];
    cbn; try (split; [lia|done]); eauto.
  - destruct (Happ _ _ _ _ _ Hc Ha) as [-> Hc']. split; [lia|done].
  - destruct (a_counter a) as [c|]; cbn; [|split; [lia|done]]. split; [specialize (Hc c eq_refl); lia|].
    by intros c' [= <-].
Qed.

Lemma sops_trace os s a : rep p s a → Forall (sop_ok store) os →
  (∀ c, a_counter a = Some c → c ≤ a_seq a) → a_seq a + Z.of_nat (length os) < 2 ^ 64 →
  ∃ rs s' a', run_sops now store os s = (Ret rs, s') ∧ strace faulty store a os rs a' ∧ rep p s' a'.
Proof.
  intros Hrep Hops. revert s a Hrep. induction Hops as [|o os Ho Hops IH]; intros s a Hrep Hc Hseq.
  - exists [], s, a. split; [done|]. split; [constructor|done].
  - cbn in Hseq. pose proof (rep_seq_u64 p s a Hrep) as [? _].
    destruct (sop_step s a o Hrep) as (r & s1 & a1 & Hrun & Hst & Hrep1); [lia|done|].
    destruct (sstep_seq a o r a1 Hst) as [Hseq1 Hc1]; [done|done|].
    destruct (IH s1 a1 Hrep1 Hc1) as (rs & s2 & a2 & Hruns & Htr & Hrep2); [lia|].
    exists (r :: rs), s2, a2. split; [|split; [by econstructor|done]].
    cbn [run_sops]. by rewrite (bind_run _ _ _ _ _ Hrun), (bind_run _ _ _ _ _ Hruns).
Qed.
End simulation.
