(* ===== verification/StorageProps.v ===== *)
(** * What Storage guarantees, and where it does not

    Consequences of the refinement of [StorageRefine.v]: a saved task survives
    anything that does not touch it, restarts included; the log returns what was
    logged; a backup is restored.  And the limits: the order of the log, a log
    counter that is lost silently, ids that start again after a restart, a batch
    that does not see its own writes. *)

From S2P Require Import Prelude Text Json Effects Task Storage StorageText StorageRefine.

(** The state of a Storage opened_at on an empty database. *)
Definition fresh_store `{JsonLib} : astore := mkA ∅ ∅ None 0.

Definition opened_at `{RocksDB} (d : Disk) (p : string) : sys := mkSys _ d (mkStorage p true 0) 0.

Lemma rep_fresh `{JsonLib} `{R : RocksDB} (d : Disk) (p : string) :
  db_contents d p = ∅ → rep p (opened_at d p) fresh_store.
Proof.
  intros Hd. split; cbn; try done. rewrite Hd.
  split; cbn; intros; rewrite ?lookup_empty in *; try done; constructor.
Qed.

(** ** What the log should hold *)

Section journal.
Context `{J : JsonLib}.

(** The entry a call that reported success has logged. *)
Definition entry_of (store : gmap loc Task) (o : sop) (r : sres) : option (string * json) :=
  match o, r with
  | SSave (Some t), RBool true =>
      match toJson store t with Ret j => Some ("save_task", j) | _ => None end
  | SUpdate id st, RBool true =>
      Some ("update_status",
            json_object [("task_id", json_of_num id); ("status", json_of_num (status_to_int st))])
  | SAppend op d, RBool true => Some (op, d)
  | _, _ => None
  end.

Definition journal_step (store : gmap loc Task) (o : sop) (r : sres) (l : list (string * json))
    : list (string * json) :=
  match o, r with
  | STruncate, RBool true => []
  | _, _ => l ++ option_list (entry_of store o r)
  end.

(** Everything logged since the last truncation, in the order of the calls. *)
Fixpoint journal (store : gmap loc Task) (l : list (string * json)) (os : list sop) (rs : list sres)
    : list (string * json) :=
  match os, rs with
  | o :: os, r :: rs => journal store (journal_step store o r l) os rs
  | _, _ => l
  end.

(** The log holds [l] under consecutive numbers, and the counters point at the last. *)
Definition journal_inv (a : astore) (s0 : Z) (l : list (string * json)) : Prop :=
  0 ≤ s0 ∧
  (∀ n, a_log a !! n = if decide (s0 < n) then l !! Z.to_nat (n - s0 - 1) else None) ∧
  a_seq a = s0 + Z.of_nat (length l) ∧
  (a_counter a = Some (a_seq a) ∨ a_counter a = None ∧ l = []).

Lemma appended_journal a o d b a' s0 l : appended false a o d b a' → journal_inv a s0 l →
  journal_inv a' s0 (l ++ [(o, d)]).
Proof.
  intros Happ (Hs0 & Hlog & Hseq & Hc). destruct Happ as [c [->|[? _]]|]; [|done..].
  split; [done|]. cbn. split; [|split; [rewrite length_app; cbn; lia|by left]].
  intros n. destruct (decide (n = a_seq a + 1)) as [->|Hne].
  - rewrite lookup_insert_eq, decide_True by lia.
    rewrite lookup_app_r by lia.
    by replace (Z.to_nat (a_seq a + 1 - s0 - 1) - length l)%nat with 0%nat by lia.
  - rewrite lookup_insert_ne, Hlog by done. case_decide; [|done].
    destruct (decide (Z.to_nat (n - s0 - 1) < length l)%nat) as [Hlt|Hge].
    + by rewrite lookup_app_l by done.
    + rewrite !lookup_ge_None_2; [done|rewrite length_app; cbn; lia|lia].
Qed.

Lemma journal_inv_tasks a s0 l m : journal_inv a s0 l → journal_inv (with_tasks m a) s0 l.
Proof. done. Qed.

Lemma sstep_journal store a o r a' s0 l : sstep false store a o r a' → journal_inv a s0 l →
  ∃ s0', journal_inv a' s0' (journal_step store o r l).
Proof.
  intros Hst Hinv. assert (Hnil : ∀ l' : list (string * json), l' ++ option_list None = l').
  { intros. apply app_nil_r. }
  destruct Hst as [ |t j b a' Hto Hw| |id st t b a' Ht Hw| | |o d b a' Happ| | | | | | |];
    cbn [journal_step entry_of]; rewrite ?Hnil; try (by exists s0); try done.
  - exists s0. destruct Hw as [b a' Happ|]; [|done]. rewrite Hto.
    by eapply appended_journal; [exact Happ|].
  - exists s0. destruct Hw as [b a' Happ|]; [|done]. by eapply appended_journal; [exact Happ|].
  - exists s0. destruct b; [by eapply appended_journal|]. by inversion Happ.
  - exists (a_seq a). destruct Hinv as (Hs0 & _ & Hseq & _). split; [lia|]. cbn.
    split; [|split; [lia|by right]]. intros n. rewrite lookup_empty. by case_decide.
  - destruct Hinv as (Hs0 & Hlog & Hseq & [Hc|[Hc ->]]).
    + exists s0. split; [done|]. cbn. rewrite Hc. cbn. split; [done|]. split; [done|]. by left.
    + exists 0. split; [lia|]. cbn. rewrite Hc. cbn. split; [|split; [done|by right]].
      intros n. rewrite Hlog. by repeat case_decide.
Qed.

Lemma strace_journal store a os rs a' s0 l : strace false store a os rs a' → journal_inv a s0 l →
  ∃ s0', journal_inv a' s0' (journal store l os rs).
Proof.
  intros Htr. revert s0 l. induction Htr as [|a o r a1 os rs a2 Hst Htr IH]; intros s0 l Hinv.
  - by exists s0.
  - destruct (sstep_journal _ _ _ _ _ _ _ Hst Hinv) as [s1 Hinv1]. by eapply IH.
Qed.

Lemma journal_inv_fresh : journal_inv fresh_store 0 [].
Proof.
  split; [lia|]. cbn. split; [|split; [done|by right]]. intros n. rewrite lookup_empty. by case_decide.
Qed.

(** A run of appends when writes succeed. *)
Lemma strace_appends store a es rs a' s0 l :
  strace false store a ((λ e, SAppend e.1 e.2) <$> es) rs a' → journal_inv a s0 l →
  rs = replicate (length es) (RBool true) ∧ journal_inv a' s0 (l ++ es).
Proof.
  revert a rs l. induction es as [|[o d] es IH]; intros a rs l Htr Hinv.
  - inversion Htr; subst. by rewrite app_nil_r.
  - inversion Htr as [|? ? r a1 ? rs' ? Hst Htr']; subst.
    inversion Hst as [| | | | | |? ? b ? Happ| | | | | | |]; subst.
    assert (Hinv1 : journal_inv a1 s0 (l ++ [(o, d)])) by by eapply appended_journal.
    destruct (IH a1 rs' _ Htr' Hinv1) as [-> Hinv']. rewrite <-app_assoc in Hinv'.
    split; [|done]. by inversion Happ.
Qed.

Lemma omap_seqZ {X} (f : Z → option X) m (l : list X) :
  (∀ i x, l !! i = Some x → f (m + Z.of_nat i) = Some x) → omap f (seqZ m (Z.of_nat (length l))) = l.
Proof.
  revert m. induction l as [|x l IH]; intros m Hf; [done|].
  rewrite seqZ_cons by (cbn; lia). cbn [omap list_omap].
  pose proof (Hf 0%nat x eq_refl) as H0. rewrite Z.add_0_r in H0. rewrite H0. f_equal.
  replace (Z.pred (Z.of_nat (length (x :: l)))) with (Z.of_nat (length l)) by (cbn; lia).
  apply IH. intros i y Hi. rewrite <-(Hf (S i) y Hi). f_equal. lia.
Qed.

Lemma journal_inv_dom a s0 l ns : journal_inv a s0 l → ns ≡ₚ elements (dom (a_log a)) →
  ns ≡ₚ seqZ (s0 + 1) (Z.of_nat (length l)).
Proof.
  intros (Hs0 & Hlog & _ & _) ->. apply NoDup_Permutation; [apply NoDup_elements|apply NoDup_seqZ|].
  intros n. rewrite elem_of_elements, elem_of_dom, elem_of_seqZ, Hlog. case_decide.
  - rewrite lookup_lt_is_Some. lia.
  - split; [by intros []|lia].
Qed.

Lemma journal_inv_omap a s0 l : journal_inv a s0 l →
  omap (λ n, a_log a !! n) (seqZ (s0 + 1) (Z.of_nat (length l))) = l.
Proof.
  intros (Hs0 & Hlog & _ & _). apply omap_seqZ. intros i x Hi. rewrite Hlog, decide_True by lia.
  by replace (Z.to_nat (s0 + 1 + Z.of_nat i - s0 - 1)) with i by lia.
Qed.

(** Numbers with the same number of digits are visited in their order. *)
Lemma key_order_seqZ (k : nat) m len :
  10 ^ Z.of_nat k ≤ m → m + len ≤ 10 ^ Z.of_nat (S k) → key_order makeWALKey (seqZ m len).
Proof.
  unfold key_order. destruct (decide (len <= 0)) as [Hle|Hpos]; [by rewrite seqZ_nil by lia; constructor|].
  intros Hm Hlen. remember (Z.to_nat len) as n eqn:Hn. revert m len Hn Hpos Hm Hlen.
  induction n as [|n IH]; intros m len Hn Hpos Hm Hlen; [lia|].
  rewrite seqZ_cons by lia. rewrite fmap_cons. apply StronglySorted_cons. split.
  - apply Forall_fmap, Forall_forall. intros i [Hi1 Hi2]%elem_of_seqZ. cbn.
    unfold makeWALKey, String.le, String.leb. rewrite compare_app.
    by rewrite (to_string_lt k) by lia.
  - destruct (decide (len = 1)) as [->|Hne]; [constructor|]. apply IH; lia.
Qed.

Lemma key_order_unique ns ms : ns ≡ₚ ms → key_order makeWALKey ns → key_order makeWALKey ms → ns = ms.
Proof.
  intros Hperm Hn Hm. apply (inj (fmap makeWALKey)).
  eapply (StronglySorted_unique String.le); [done|done|]. by rewrite Hperm.
Qed.
End journal.

(** ** Calls that leave a task alone *)

Section tasks.
Context `{J : JsonLib}.

Definition bcmd_touches (id : Z) (c : bcmd) : Prop :=
  match c with
  | BSave (Some t) => id_ t = id
  | BSave None => False
  | BUpdate id' _ => id' = id
  end.

Definition touches (id : Z) (o : sop) : Prop :=
  match o with
  | SSave (Some t) => id_ t = id
  | SUpdate id' _ => id' = id
  | SBatch cmds => Exists (bcmd_touches id) cmds
  | _ => False
  end.

Lemma batch_spec_other m cmds rs ws id : batch_spec m cmds = (rs, ws) →
  ¬ Exists (bcmd_touches id) cmds → Forall (λ w, w.1 ≠ id) ws.
Proof.
  revert rs ws. induction cmds as [|c cmds IH]; intros rs ws; cbn; [by intros [= <- <-]|].
  destruct (batch_spec m cmds) as [rs' ws'] eqn:E. rewrite Exists_cons. intros Hs Hn.
  specialize (IH rs' ws' eq_refl ltac:(tauto)).
  destruct c as [[t|]|id' st]; [| |destruct (m !! id')]; injection Hs as <- <-; try done;
    (constructor; [|done]); cbn; intros Heq; apply Hn; left; done.
Qed.

Lemma write_all_other ws m id : Forall (λ w, w.1 ≠ id) ws → write_all ws m !! id = m !! id.
Proof.
  unfold write_all. revert m. induction ws as [|w ws IH]; intros m Hws; [done|].
  apply Forall_cons in Hws as [Hw Hws]. cbn. rewrite IH by done. by rewrite lookup_insert_ne.
Qed.

Lemma written_other faulty a id t o d b a' id' : written faulty a id t o d b a' → id ≠ id' →
  a_tasks a' !! id' = a_tasks a !! id'.
Proof.
  intros Hw Hne. destruct Hw as [b a' Happ|m _ [->| ->]]; cbn; [|done|by rewrite lookup_insert_ne].
  destruct Happ; cbn; by rewrite lookup_insert_ne.
Qed.

Lemma sstep_other faulty store a o r a' id : sstep faulty store a o r a' → ¬ touches id o →
  a_tasks a' !! id = a_tasks a !! id.
Proof.
  intros Hst Hn. destruct Hst; cbn in *; try done.
  - by eapply written_other.
  - by eapply written_other.
  - by destruct H.
  - apply write_all_other. by eapply batch_spec_other.
  - destruct H1 as [->| ->]; [done|]. apply write_all_other. by eapply batch_spec_other.
Qed.

Lemma strace_other faulty store a os rs a' id : strace faulty store a os rs a' →
  Forall (λ o, ¬ touches id o) os → a_tasks a' !! id = a_tasks a !! id.
Proof.
  induction 1 as [|a o r a1 os rs a2 Hst Htr IH]; [done|]. intros [Ho Hos]%Forall_cons.
  rewrite IH by done. by eapply sstep_other.
Qed.

Lemma strace_app_inv faulty store a os os' rs a' : strace faulty store a (os ++ os') rs a' →
  ∃ rs1 rs2 a1, rs = rs1 ++ rs2 ∧ strace faulty store a os rs1 a1 ∧ strace faulty store a1 os' rs2 a'.
Proof.
  revert a rs. induction os as [|o os IH]; intros a rs Htr; cbn in Htr.
  - exists [], rs, a. split; [done|]. split; [constructor|done].
  - inversion Htr as [|? ? r a1 ? rs' ? Hst Htr']; subst.
    destruct (IH _ _ Htr') as (rs1 & rs2 & a2 & -> & Htr1 & Htr2).
    exists (r :: rs1), rs2, a2. split; [done|]. split; [by econstructor|done].
Qed.
End tasks.

(** ** Properties *)

Section props.
Context `{J : JsonLib} `{L : !JsonLaws J} `{R : RocksDB} `{RL : !RocksDBLaws R}.
Context (p : string) (now : Z) (store : gmap loc Task).

(** C2: Whatever writes fail, a run of Storage calls (saving, updating, loading,
    logging, replaying, truncating, batches, restarts) returns, and its replies and
    the files are those of a map from ids to tasks and a numbered log. *)
Theorem storage_refines_map faulty os s a (Hok : healthy p now faulty) (Hrep : rep p s a)
    (Hops : Forall (sop_ok store) os) (Hc : ∀ c, a_counter a = Some c → c ≤ a_seq a)
    (Hseq : a_seq a + Z.of_nat (length os) < 2 ^ 64) :
  ∃ rs s' a', run_sops now store os s = (Ret rs, s') ∧ strace faulty store a os rs a' ∧ rep p s' a'.
Proof. by eapply sops_trace. Qed.

(** C19: A saved task is durable: when saveTask reported success, loading the id gives
    the task back (its times to the second) after any calls that do not write this
    id, restarts, failed writes and log truncations included; and saving succeeds
    when writes do. *)
Theorem saved_task_survives faulty t os s a (Hok : healthy p now faulty) (Hrep : rep p s a)
    (Hsav : savable store t) (Hops : Forall (sop_ok store) os)
    (Hother : Forall (λ o, ¬ touches (id_ t) o) os)
    (Hc : ∀ c, a_counter a = Some c → c ≤ a_seq a)
    (Hseq : a_seq a + Z.of_nat (length os) + 2 < 2 ^ 64) :
  ∃ b rs r s', run_sops now store (SSave (Some t) :: os ++ [SLoad (id_ t)]) s =
      (Ret (RBool b :: rs ++ [RTask r]), s') ∧
    (b = true → r = Some (stored t)) ∧ (faulty = false → b = true).
Proof.
  assert (Hid : 0 ≤ id_ t < 2 ^ 64) by apply (wf_id t), Hsav.
  destruct (sops_trace p now store faulty Hok (SSave (Some t) :: os ++ [SLoad (id_ t)]) s a)
    as (rs & s' & a' & Hrun & Htr & Hrep'); [done| |done|cbn; rewrite length_app; cbn; lia|].
  { constructor; [done|]. apply Forall_app. split; [done|]. by constructor. }
  inversion Htr as [|? ? r0 a1 ? rs1 ? Hst Htr1]; subst.
  apply strace_app_inv in Htr1 as (rs2 & rs3 & a2 & -> & Htr2 & Htr3).
  inversion Htr3 as [|? ? r3 a3 ? rs4 ? Hst3 Htr4]; subst. inversion Htr4; subst.
  inversion Hst3; subst. inversion Hst as [|? j b ? Hto Hw| | | | | | | | | | | |]; subst.
  exists b, rs2, (stored <$> a_tasks a' !! id_ t), s'. split; [done|].
  rewrite (strace_other _ _ _ _ _ _ _ Htr2 Hother). split.
  - intros ->. inversion Hw as [b' ? Happ|]; subst. destruct Happ; cbn; by rewrite lookup_insert_eq.
  - intros ->. by inversion Hw.
Qed.


(** The log is visited in the order of its keys as texts: entry 10 comes right
    after entry 1, so a log of ten entries is not replayed in the order it was
    written. *)
Theorem replay_not_in_order e1 e2 e3 e4 e5 e6 e7 e8 e9 e10 s (Hok : healthy p now false)
    (Hrep : rep p s fresh_store)
    (Hes : Forall (λ e, utf8 e.1 ∧ json_dumps e.2) [e1; e2; e3; e4; e5; e6; e7; e8; e9; e10]) :
  ∃ rs s', run_sops now store
      (((λ e, SAppend e.1 e.2) <$> [e1; e2; e3; e4; e5; e6; e7; e8; e9; e10]) ++ [SReplay]) s =
    (Ret (rs ++ [RLog [e1; e10; e2; e3; e4; e5; e6; e7; e8; e9]]), s').
Proof.
  set (es := [e1; e2; e3; e4; e5; e6; e7; e8; e9; e10]) in *.
  destruct (sops_trace p now store false Hok (((λ e, SAppend e.1 e.2) <$> es) ++ [SReplay]) s fresh_store)
    as (rs & s' & a' & Hrun & Htr & Hrep'); [done| |done|done|].
  { apply Forall_app. split; [by apply Forall_fmap|]. by constructor. }
  apply strace_app_inv in Htr as (rs1 & rs2 & a1 & -> & Htr1 & Htr2).
  inversion Htr2 as [|? ? r a2 ? rs' ? Hst Htr']; subst. inversion Htr'; subst.
  inversion Hst as [| | | | | | |ns Hperm Hord| | | | | |]; subst.
  destruct (strace_appends _ _ _ _ _ 0 [] Htr1) as [_ Hinv]; [by apply journal_inv_fresh|].
  assert (Hns : ns = [1; 10; 2; 3; 4; 5; 6; 7; 8; 9]).
  { apply key_order_unique; [|done|].
    - rewrite (journal_inv_dom _ _ _ _ Hinv Hperm). apply NoDup_Permutation; [apply NoDup_seqZ| |].
      + apply (bool_decide_unpack _). by vm_compute.
      + intros n. rewrite elem_of_seqZ, !elem_of_cons, elem_of_nil. cbn. lia.
    - unfold key_order. apply (bool_decide_unpack _). by vm_compute. }
  exists rs1, s'. rewrite Hrun, Hns. do 4 f_equal. destruct Hinv as (_ & Hlog & _ & _).
  cbn [omap list_omap]. rewrite !Hlog. done.
Qed.

(** A batch reads the database and not what it has collected: updating the status
    of a task that the same batch has just saved brings the old version of the task
    back, with the new status, and the saved version is lost. *)
Theorem batch_forgets_own_save t t' st s a (Hok : healthy p now false) (Hrep : rep p s a)
    (Ht : a_tasks a !! id_ t' = Some t) (Hsav : savable store t') (Hst : status_ok st) :
  ∃ s' n, batch_run store [BSave (Some t'); BUpdate (id_ t') st] s = (Ret ([true; true], true), s') ∧
    loadTask now (id_ t') s' = (Ret (Some (stored (set_status st t))), set_next_id n s').
Proof.
  assert (Hid : u64 (id_ t')) by apply (wf_id t'), Hsav.
  destruct (batch_step p now store false Hok [BSave (Some t'); BUpdate (id_ t') st] s a) as (rs & ok & s' & a' & Hrun & Hstep & Hrep'); [done| |].
  { by apply Forall_cons; split; [done|]; apply Forall_cons; split; [|apply Forall_nil]. }
  inversion Hstep as [| | | | | | | | | | |cmds rs' ws Hspec|? ? ? ? Hf|]; subst; [|done].
  cbn in Hspec. rewrite Ht in Hspec. injection Hspec as <- <-.
  destruct (load_step p now false Hok s' _ (id_ t') Hrep' Hid) as [n Hload].
  exists s', n. split; [done|]. rewrite Hload. cbn. by rewrite lookup_insert_eq.
Qed.

(** After a restart the task counter starts again at 0, so the first new task gets
    an id that may be in use: saving it replaces the stored task of that id. *)
Theorem restart_reuses_ids name prio t0 s a (Hok : healthy p now false) (Hrep : rep p s a)
    (Ht : a_tasks a !! 0 = Some t0) (Hname : utf8 name) (Hprio : INT_MIN ≤ prio ≤ INT_MAX)
    (Hcount : default 0 (a_counter a) + 1 < 2 ^ 64) :
  ∃ t s', (restart ;; t ← make_task now name prio; b ← saveTask now ∅ (Some t);
           old ← loadTask now 0; mret (t, b, old)) s = (Ret (t, true, Some (stored t)), s') ∧
    id_ t = id_ t0 ∧ name_ t = name.
Proof.
  pose proof (healthy_now _ _ _ Hok) as Hn.
  destruct (restart_step p now false Hok s a Hrep) as (s1 & Hrun1 & Hnext & Hrep1).
  set (t := (new_Task now 0 name prio).1). set (s2 := set_next_id 1 s1).
  assert (Hmake : make_task now name prio s1 = (Ret t, s2)).
  { unfold make_task. rewrite Hnext. done. }
  assert (Hsav : savable ∅ t).
  { split_and!; [|done|by apply utf8_ascii|by apply map_Forall_empty].
    unfold INT_MIN, INT_MAX in *. split; cbn; unfold INT_MIN, INT_MAX; try lia; done. }
  destruct (save_step p now ∅ false Hok s2 _ (Some t) (rep_next_id p s1 _ 1 Hrep1))
    as (b & s3 & a3 & Hrun3 & Hstep & Hrep3); [done|done|].
  inversion Hstep as [|? j b' ? Hto Hw| | | | | | | | | | | |]; subst.
  inversion Hw as [b' ? Happ|]; subst; [|done].
  destruct (load_step p now false Hok s3 a3 0 Hrep3) as [n Hload]; [unfold u64; lia|].
  exists t, (set_next_id n s3).
  rewrite (bind_run _ _ _ _ _ Hrun1), (bind_run _ _ _ _ _ Hmake), (bind_run _ _ _ _ _ Hrun3).
  rewrite (bind_run _ _ _ _ _ Hload). split.
  - destruct Happ; cbn; by rewrite lookup_insert_eq.
  - split; [|done]. by destruct (db_task_id _ _ (rep_db _ _ _ Hrep) 0 t0 Ht) as [_ ->].
Qed.

(** C28: A restored backup is the database as it was when the backup was made: the
    tasks, the log and its counter, whatever was written in between. *)
Theorem restore_returns_backup dir s a s1 s2 s3 (Hok : healthy p now true) (Hrep : rep p s a)
    (Hbackup : backup dir s = (Ret true, s1))
    (Hbetween : db_path_ (obj s2) = p ∧ u64 (wal_sequence_ (obj s2)) ∧
      be_latest (disk s2) dir = be_latest (disk s1) dir)
    (Hrestore : restore dir s2 = (Ret true, s3)) :
  rep p s3 (mkA (a_tasks a) (a_log a) (a_counter a)
              (default (wal_sequence_ (obj s2)) (a_counter a))).
Proof.
  destruct Hbetween as (Hp & Hseq & Hlatest).
  assert (Hsaved : be_latest (disk s1) dir = Some (db_contents (disk s) p)).
  { unfold backup, act in Hbackup. unfold mbind at 1, M_bind at 1 in Hbackup.
    destruct (be_Open (disk s) dir) as [[] d] eqn:HO; [|done]. cbn [negb] in Hbackup.
    destruct (be_Open_contents _ _ _ _ p HO) as [Hd _].
    assert (Hrep1 : rep p (set_disk d s) a).
    { apply (rep_set_disk p s a); [done| |done]. rewrite Hd. apply Hrep. }
    rewrite (bind_run _ _ _ _ _ (deref_db_run p _ _ Hrep1)) in Hbackup. cbn in Hbackup.
    destruct (be_CreateNewBackup d dir p) as [[] d'] eqn:HC; [|done]. injection Hbackup as <-. cbn.
    rewrite (be_Create_ok _ _ _ _ HC). by rewrite Hd. }
  unfold restore in Hrestore. set (s4 := (shutdown s2).2).
  assert (Hdown : shutdown s2 = (Ret true, s4)) by (unfold s4, shutdown; by destruct (db_ (obj s2))).
  assert (H4 : db_path_ (obj s4) = p ∧ wal_sequence_ (obj s4) = wal_sequence_ (obj s2) ∧
    be_latest (disk s4) dir = be_latest (disk s2) dir).
  { unfold s4, shutdown. destruct (db_ (obj s2)); cbn; [|done]. by rewrite db_Close_latest. }
  destruct H4 as (Hp4 & Hseq4 & Hl4). rewrite (bind_run _ _ _ _ _ Hdown) in Hrestore.
  unfold act in Hrestore. unfold mbind at 1, M_bind at 1 in Hrestore.
  destruct (be_Open (disk s4) dir) as [[] d5] eqn:HO5; cbn [negb] in Hrestore.
  2:{ unfold mbind, M_bind in Hrestore. by destruct (initialize (set_disk d5 s4)) as [[]]. }
  destruct (be_Open_contents _ _ _ _ dir HO5) as [_ Hl5].
  unfold mbind at 1, M_bind at 1 in Hrestore. cbn in Hrestore. rewrite Hp4 in Hrestore.
  destruct (be_RestoreDBFromLatestBackup d5 dir p) as [[] d6] eqn:HR; cbn [negb] in Hrestore.
  2:{ unfold mbind, M_bind in Hrestore. by destruct (initialize _) as [[]]. }
  apply be_Restore_ok in HR. rewrite Hl5, Hl4, Hlatest, Hsaved in HR. injection HR as HR.
  destruct (initialize_step p now true Hok (set_disk d6 (set_disk d5 s4)) a) as (s' & Hrun & _ & Hrep').
  { done. } { cbn. by rewrite Hseq4. } { cbn. rewrite <-HR. apply Hrep. }
  rewrite Hrun in Hrestore. injection Hrestore as <-. cbn in Hrep'. by rewrite Hseq4 in Hrep'.
Qed.
End props.

(** Task keys give their id back, log keys are no task keys, and no two ids or
    log numbers share a key. *)
Theorem task_key_roundtrip id (Hid : 0 ≤ id < 2 ^ 64) :
  extractTaskId (makeTaskKey id) = Ret id ∧
  (∀ id', makeTaskKey id' = makeTaskKey id → id' = id) ∧
  (∀ n, makeWALKey n ≠ makeTaskKey id ∧ extractTaskId (makeWALKey n) = Ret 0 ∧
    ∀ n', makeWALKey n' = makeWALKey n → n' = n).
Proof.
  split_and!.
  - unfold extractTaskId. rewrite find_head by auto with axon. unfold makeTaskKey.
    rewrite str_drop_app by done. by apply stoull_to_string.
  - intros id' E. by apply makeTaskKey_inj.
  - intros n. split_and!; [auto with axon| |intros n' E; by apply makeWALKey_inj].
    unfold extractTaskId. destruct (find TASK_PREFIX (makeWALKey n)) as [[|i]|] eqn:E; [|done..].
    apply find_0 in E. done.
Qed.

(** Before initialize() every call that reaches the database is undefined
    behaviour: the pointer is null. *)
Theorem uninitialized_undefined `{J : JsonLib} `{L : !JsonLaws J} `{R : RocksDB} now store s o
    (Hnull : db_ (obj s) = false) (Ho : sop_ok store o)
    (Hdb : match o with SSave None | SRestart => False | SBatch cmds => cmds = [] | _ => True end) :
  (run_sop now store o s).1 = Undef.
Proof.
  assert (Hd : deref_db s = (Undef, s)) by (unfold deref_db; by rewrite Hnull).
  destruct o as [[t|]|id st|id| |op d| | | |cmds|]; cbn [run_sop]; try done.
  - destruct (toJson_loads_as store t Ho) as (j & Hto & _). unfold saveTask, try_catch, mbind, M_bind.
    unfold lift. rewrite Hto. by rewrite Hd.
  - unfold updateTaskStatus, Get, mbind, M_bind. by rewrite Hd.
  - unfold loadTask, Get, mbind, M_bind. by rewrite Hd.
  - unfold loadAllTasks, NewIterator, mbind, M_bind. by rewrite Hd.
  - unfold appendToWAL, mbind, M_bind, act. unfold deref_db. cbn. by rewrite Hnull.
  - unfold replayWAL, NewIterator, mbind, M_bind. by rewrite Hd.
  - unfold truncateWAL, NewIterator, mbind, M_bind. by rewrite Hd.
  - unfold compact, mbind, M_bind. by rewrite Hd.
  - subst cmds. unfold batch_run, batch_loop, batch_commit, Write, mbind, M_bind. cbn. by rewrite Hd.
Qed.

(** ** A small store *)

Lemma run_pair {S A} (m : M S A) s r : (m s).1 = r → m s = (r, (m s).2).
Proof. intros <-. apply surjective_pairing. Qed.

#[local] Existing Instance TreeJson.laws.
#[local] Existing Instance MapDB.laws.

Definition demo_files : MapDB.files := MapDB.mkFiles ∅ ∅ [].

Definition demo_sys : @sys (MapDB.lib true) := @opened_at (MapDB.lib true) demo_files "db".

Lemma demo_healthy : healthy (R := MapDB.lib true) "db" 5000000000 false.
Proof. by split. Qed.

Lemma store_rep : rep (J := TreeJson.lib) (R := MapDB.lib true) "db" demo_sys fresh_store.
Proof. by apply (rep_fresh (R := MapDB.lib true)). Qed.

Lemma demo_savable (t : Task) : task_wf t → savable (J := TreeJson.lib) ∅ t.
Proof. intros Hwf. split_and!; [done|done|done|apply map_Forall_empty]. Qed.

Lemma demo_task_wf : task_wf demo_task.
Proof. split; cbn; unfold INT_MIN, INT_MAX; try lia; done. Qed.

Definition store_ops : list (@sop TreeJson.lib) :=
  [SAppend "event_log" (@json_of_num TreeJson.lib 1); SUpdate 3 RUNNING; STruncate; SRestart; SLoadAll].

Lemma store_ops_ok : Forall (sop_ok (J := TreeJson.lib) ∅) store_ops.
Proof.
  repeat (apply Forall_cons; split); try done.
  split; [done|]. apply TreeJson.tree_dumps.
Qed.

Lemma storage_refines_map_witness : ∃ rs s' a',
  run_sops (R := MapDB.lib true) 5000000000 ∅ store_ops demo_sys = (Ret rs, s') ∧
  strace false ∅ fresh_store store_ops rs a' ∧ rep (R := MapDB.lib true) "db" s' a'.
Proof.
  apply (storage_refines_map (R := MapDB.lib true)); [apply demo_healthy|apply store_rep|
    apply store_ops_ok|done|done].
Defined.

Lemma saved_task_survives_witness : ∃ b rs r s',
  run_sops (R := MapDB.lib true) 5000000000 ∅
    (SSave (Some demo_task) :: store_ops ++ [SLoad (id_ demo_task)]) demo_sys =
      (Ret (RBool b :: rs ++ [RTask r]), s') ∧
  (b = true → r = Some (stored demo_task)) ∧ (false = false → b = true).
Proof.
  apply (saved_task_survives (R := MapDB.lib true) "db" 5000000000 ∅ false demo_task store_ops demo_sys
    fresh_store); [apply demo_healthy|apply store_rep|apply demo_savable, demo_task_wf|apply store_ops_ok
    | |done|done].
  repeat (apply Forall_cons; split; [cbn; naive_solver|]). by apply Forall_nil.
Defined.


Definition demo_entry (n : Z) : string * @json TreeJson.lib := ("event_log", @json_of_num TreeJson.lib n).

Lemma replay_not_in_order_witness : ∃ rs s',
  run_sops (R := MapDB.lib true) 5000000000 ∅
    (((λ e, SAppend e.1 e.2) <$> (demo_entry <$> [1; 2; 3; 4; 5; 6; 7; 8; 9; 10])) ++ [SReplay]) demo_sys =
  (Ret (rs ++ [RLog (demo_entry <$> [1; 10; 2; 3; 4; 5; 6; 7; 8; 9])]), s').
Proof.
  apply (replay_not_in_order (R := MapDB.lib true) "db" 5000000000 ∅ (demo_entry 1) (demo_entry 2)
    (demo_entry 3) (demo_entry 4) (demo_entry 5) (demo_entry 6) (demo_entry 7) (demo_entry 8)
    (demo_entry 9) (demo_entry 10)); [apply demo_healthy|apply store_rep|].
  apply Forall_forall. intros e _. split; [done|]. apply TreeJson.tree_dumps.
Defined.

(** A store that holds one task, with id 0. *)
Definition one_task : Task := (new_Task 5000000000 0 "job" MEDIUM).1.

Definition one_task_sys : @sys (MapDB.lib true) :=
  (saveTask (J := TreeJson.lib) (R := MapDB.lib true) 5000000000 ∅ (Some one_task) demo_sys).2.

Lemma one_task_wf : task_wf one_task.
Proof. split; cbn; unfold INT_MIN, INT_MAX; try lia; done. Qed.

Lemma one_task_rep : ∃ a, rep (J := TreeJson.lib) (R := MapDB.lib true) "db" one_task_sys a ∧
  a_tasks a !! 0 = Some one_task ∧ default 0 (a_counter a) = 1.
Proof.
  destruct (save_step (J := TreeJson.lib) (R := MapDB.lib true) "db" 5000000000 ∅ false demo_healthy demo_sys fresh_store
    (Some one_task)) as (b & s' & a' & Hrun & Hst & Hrep); [apply store_rep|done|
    apply demo_savable, one_task_wf|].
  exists a'. unfold one_task_sys. rewrite Hrun. split; [done|].
  inversion Hst as [|? j b' ? Hto Hw| | | | | | | | | | | |]; subst.
  inversion Hw as [b' ? Happ|]; subst; [|done]. inversion Happ as [c [->|[? _]]|]; subst; done.
Qed.

Lemma batch_forgets_own_save_witness : ∃ s' n,
  batch_run (J := TreeJson.lib) (R := MapDB.lib true) ∅
    [BSave (Some (set_name "new name" one_task)); BUpdate 0 RUNNING] one_task_sys =
      (Ret ([true; true], true), s') ∧
  loadTask (J := TreeJson.lib) (R := MapDB.lib true) 5000000000 0 s' =
    (Ret (Some (stored (set_status RUNNING one_task))), set_next_id n s').
Proof.
  destruct one_task_rep as (a & Hrep & Ht & _).
  apply (batch_forgets_own_save (J := TreeJson.lib) (R := MapDB.lib true) "db" 5000000000 ∅ one_task
    (set_name "new name" one_task) RUNNING one_task_sys a); [apply demo_healthy|exact Hrep|exact Ht|
    |by split].
  apply demo_savable. destruct one_task_wf. by split.
Defined.

Lemma restart_reuses_ids_witness : ∃ t s',
  (restart ;; t ← make_task 5000000000 "other" MEDIUM;
   b ← saveTask (J := TreeJson.lib) 5000000000 ∅ (Some t);
   old ← loadTask (J := TreeJson.lib) 5000000000 0; mret (t, b, old)) one_task_sys =
    (Ret (t, true, Some (stored t)), s') ∧ id_ t = id_ one_task ∧ name_ t = "other".
Proof.
  destruct one_task_rep as (a & Hrep & Ht & Hc).
  apply (restart_reuses_ids (J := TreeJson.lib) (R := MapDB.lib true) "db" 5000000000 "other" MEDIUM one_task one_task_sys a);
    [apply demo_healthy|exact Hrep|exact Ht|done|by unfold INT_MIN, INT_MAX, MEDIUM|by rewrite Hc].
Defined.

(** Back up, clear the database by truncation and a new task, restore. *)
Lemma restore_returns_backup_witness :
  let s1 := (backup (R := MapDB.lib true) "bak" one_task_sys).2 in
  let s2 := (truncateWAL (R := MapDB.lib true) s1).2 in
  let s3 := (restore (R := MapDB.lib true) "bak" s2).2 in
  ∃ a, a_tasks a !! 0 = Some one_task ∧
    rep (J := TreeJson.lib) (R := MapDB.lib true) "db" s3
      (mkA (a_tasks a) (a_log a) (a_counter a) (default (wal_sequence_ (obj s2)) (a_counter a))).
Proof.
  intros s1 s2 s3. destruct one_task_rep as (a & Hrep & Ht & _). exists a. split; [exact Ht|].
  apply (restore_returns_backup (J := TreeJson.lib) (R := MapDB.lib true) "db" 5000000000 "bak" one_task_sys a s1 s2 s3);
    [split; done|exact Hrep| | |].
  - apply run_pair. vm_compute. reflexivity.
  - split; [|split]; [vm_compute; reflexivity|vm_compute; split; congruence|vm_compute; reflexivity].
  - apply run_pair. vm_compute. reflexivity.
Defined.

Lemma task_key_roundtrip_witness :
  extractTaskId (makeTaskKey 123) = Ret 123 ∧
  (∀ id', makeTaskKey id' = makeTaskKey 123 → id' = 123) ∧
  (∀ n, makeWALKey n ≠ makeTaskKey 123 ∧ extractTaskId (makeWALKey n) = Ret 0 ∧
    ∀ n', makeWALKey n' = makeWALKey n → n' = n).
Proof. apply (task_key_roundtrip 123). lia. Defined.

Lemma uninitialized_undefined_witness :
  (run_sop (J := TreeJson.lib) (R := MapDB.lib true) 5000000000 ∅ (SSave (Some one_task))
    (mkSys (MapDB.lib true) demo_files (new_Storage "db") 1)).1 = Undef.
Proof.
  apply (uninitialized_undefined (J := TreeJson.lib) (R := MapDB.lib true)); [done|apply demo_savable, one_task_wf|done].
Defined.

(** The status of the counter's write is ignored: when it fails, a restart takes
    the old counter, the next entry gets a number that is in use, and an entry whose
    logging was reported as successful is gone. *)
Theorem wal_entry_overwritten :
  let s := @opened_at (MapDB.lib false) (MapDB.mkFiles ∅ ∅ [true; false]) "db" in
  (run_sops (J := TreeJson.lib) (R := MapDB.lib false) 5000000000 ∅
    [SAppend "first" (@json_of_num TreeJson.lib 1); SRestart;
     SAppend "second" (@json_of_num TreeJson.lib 2); SReplay] s).1 =
  Ret [RBool true; RBool true; RBool true; RLog [("second", @json_of_num TreeJson.lib 2)]].
Proof.
  vm_cast_no_check (eq_refl : Ret [RBool true; RBool true; RBool true;
    RLog [("second", @json_of_num TreeJson.lib 2)]] = Ret _).
Qed.
