(* ===== verification/Regex.v ===== *)
(** * Regular expressions

    The part of std::regex (ECMAScript grammar) that the sources use: character
    classes, sequences, [+], bounded repetition and the two anchors, matched
    against a whole string ([std::regex_match]).  [matches] is the meaning of an
    expression between a text before and a text after; [residuals] computes the
    possible rests by backtracking. *)

From Stdlib Require Import Ascii.
From S2P Require Import Prelude Text.

#[local] Arguments String.append : simpl nomatch.

Inductive regex : Type :=
| RBegin
| REnd
| RClass (p : ascii → bool)
| RSeq (a b : regex)
| RPlus (a : regex)
| RTimes (n : nat) (a : regex).

(** One or more texts, each matched by [P] in its place. *)
Inductive plus_of (P : string → string → string → Prop) : string → string → string → Prop :=
| plus_one pre s post : P pre s post → plus_of P pre s post
| plus_more pre s t post : P pre s (t +:+ post) → plus_of P (pre +:+ s) t post →
    plus_of P pre (s +:+ t) post.

Fixpoint times_of (P : string → string → string → Prop) (n : nat) (pre s post : string) : Prop :=
  match n with
  | O => s = ""
  | S n => ∃ a b, s = a +:+ b ∧ P pre a (b +:+ post) ∧ times_of P n (pre +:+ a) b post
  end.

(** [r] matches [s] when [pre] precedes it and [post] follows it. *)
Fixpoint matches (r : regex) (pre s post : string) : Prop :=
  match r with
  | RBegin => s = "" ∧ pre = ""
  | REnd => s = "" ∧ post = ""
  | RClass p => ∃ c, s = String c "" ∧ p c = true
  | RSeq a b => ∃ x y, s = x +:+ y ∧ matches a pre x (y +:+ post) ∧ matches b (pre +:+ x) y post
  | RPlus a => plus_of (matches a) pre s post
  | RTimes n a => times_of (matches a) n pre s post
  end.

(** The repetition [a+], given the search for [a]: at most [fuel] rounds. *)
Fixpoint plus_search (f : string → string → list (string * string)) (fuel : nat) (pre s : string)
    : list (string * string) :=
  match fuel with
  | O => []
  | S fuel => x ← f pre s; x :: plus_search f fuel x.1 x.2
  end.

Fixpoint times_search (f : string → string → list (string * string)) (n : nat) (pre s : string)
    : list (string * string) :=
  match n with
  | O => [(pre, s)]
  | S n => x ← f pre s; times_search f n x.1 x.2
  end.

(** The ways to cut [s] after a match at its front, as the text before the cut and
    the text after it.  A round of a repetition takes a character, so the length of
    the text bounds the rounds. *)
Fixpoint residuals (r : regex) (pre s : string) : list (string * string) :=
  match r with
  | RBegin => if decide (pre = "") then [(pre, s)] else []
  | REnd => if decide (s = "") then [(pre, s)] else []
  | RClass p => match s with
                | String c s => if p c then [(pre +:+ String c "", s)] else []
                | EmptyString => []
                end
  | RSeq a b => x ← residuals a pre s; residuals b x.1 x.2
  | RPlus a => plus_search (residuals a) (S (String.length s)) pre s
  | RTimes n a => times_search (residuals a) n pre s
  end.

Definition regex_match (s : string) (r : regex) : bool :=
  existsb (λ x, bool_decide (x.2 = "")) (residuals r "" s).

(** Every match of [r] takes at least one character. *)
Fixpoint consumes (r : regex) : bool :=
  match r with
  | RBegin | REnd => false
  | RClass _ => true
  | RSeq a b => consumes a || consumes b
  | RPlus a => consumes a
  | RTimes n a => match n with O => false | S _ => consumes a end
  end.

(** Repetitions are of expressions that consume, which is what makes the search
    of [residuals] complete. *)
Fixpoint repeats_ok (r : regex) : bool :=
  match r with
  | RBegin | REnd | RClass _ => true
  | RSeq a b => repeats_ok a && repeats_ok b
  | RPlus a => consumes a && repeats_ok a
  | RTimes _ a => repeats_ok a
  end.

(** ** The search is sound and complete *)

Definition finds (f : string → string → list (string * string))
    (P : string → string → string → Prop) : Prop :=
  ∀ pre s q t, (q, t) ∈ f pre s ↔ ∃ m, q = pre +:+ m ∧ s = m +:+ t ∧ P pre m t.

Lemma consumes_length r pre m post : consumes r = true → matches r pre m post → (0 < String.length m)%nat.
Proof.
  revert pre m post. induction r as [| |p|a IHa b IHb|a IHa|n a IHa]; intros pre m post Hc; cbn in *; try done.
  - intros (c & -> & _). cbn. lia.
  - intros (x & y & -> & Hx & Hy). rewrite str_length_app.
    apply orb_true_iff in Hc as [Hc|Hc]; [specialize (IHa _ _ _ Hc Hx)|specialize (IHb _ _ _ Hc Hy)]; lia.
  - intros Hp. induction Hp as [? ? ? Hp|? ? ? ? Hp _ _]; [by eapply IHa|].
    rewrite str_length_app. specialize (IHa _ _ _ Hc Hp). lia.
  - destruct n as [|n]; [done|]. intros (x & y & -> & Hx & _). rewrite str_length_app.
    specialize (IHa _ _ _ Hc Hx). lia.
Qed.

Lemma times_finds f P n : finds f P → finds (times_search f n) (times_of P n).
Proof.
  intros Hf. induction n as [|n IH]; intros pre s q t; cbn.
  - rewrite list_elem_of_singleton. split.
    + intros [= -> ->]. exists "". by rewrite str_app_nil_r.
    + intros (m & -> & -> & ->). by rewrite str_app_nil_r.
  - rewrite list_elem_of_bind. split.
    + intros ([p' s'] & Hin & (m & -> & -> & Hm)%Hf). cbn in Hin.
      apply IH in Hin as (m' & -> & -> & Hm').
      exists (m +:+ m'). rewrite !str_app_assoc. split; [done|]. split; [done|]. by exists m, m'.
    + intros (m & -> & -> & (x & y & -> & Hx & Hy)). exists (pre +:+ x, y +:+ t). cbn. split.
      * apply IH. exists y. by rewrite str_app_assoc.
      * apply Hf. exists x. by rewrite str_app_assoc.
Qed.

Lemma plus_search_sound f P fuel pre s q t : finds f P → (q, t) ∈ plus_search f fuel pre s →
  ∃ m, q = pre +:+ m ∧ s = m +:+ t ∧ plus_of P pre m t.
Proof.
  intros Hf. revert pre s. induction fuel as [|fuel IH]; intros pre s; cbn; [set_solver|].
  rewrite list_elem_of_bind. intros ([p' s'] & Hin & (m & -> & -> & Hm)%Hf). cbn in Hin.
  apply elem_of_cons in Hin as [[= -> ->]|(m' & -> & -> & Hm')%IH].
  - exists m. by split_and!; [| |constructor].
  - exists (m +:+ m'). rewrite !str_app_assoc. by split_and!; [| |constructor].
Qed.

Lemma plus_search_complete f P fuel pre m t :
  finds f P → (∀ pre m post, P pre m post → (0 < String.length m)%nat) →
  plus_of P pre m t → (String.length (m +:+ t) < fuel)%nat → (pre +:+ m, t) ∈ plus_search f fuel pre (m +:+ t).
Proof.
  intros Hf Hpos Hm. revert fuel. induction Hm as [pre m t Hm|pre m m' t Hm Hms IH]; intros fuel Hfuel;
    (destruct fuel as [|fuel]; [lia|]); cbn; rewrite list_elem_of_bind.
  - exists (pre +:+ m, t). cbn. split; [left|]. apply Hf. by exists m.
  - exists (pre +:+ m, m' +:+ t). cbn. split.
    + right. rewrite <-str_app_assoc. apply IH. specialize (Hpos _ _ _ Hm).
      rewrite !str_length_app in *. lia.
    + apply Hf. exists m. by rewrite str_app_assoc.
Qed.

Lemma residuals_finds r : repeats_ok r = true → finds (residuals r) (matches r).
Proof.
  induction r as [| |p|a IHa b IHb|a IHa|n a IHa]; intros Hok pre s q t; cbn in *.
  - case_decide as Hp; split.
    + intros [= -> ->]%list_elem_of_singleton. exists "". by rewrite str_app_nil_r.
    + intros (m & -> & -> & -> & _). rewrite str_app_nil_r. apply list_elem_of_singleton. done.
    + by intros ?%not_elem_of_nil.
    + by intros (m & _ & _ & _ & ?).
  - case_decide as Hs; split.
    + intros [= -> ->]%list_elem_of_singleton. exists "". by rewrite str_app_nil_r.
    + intros (m & -> & -> & -> & _). rewrite str_app_nil_r. by apply list_elem_of_singleton.
    + by intros ?%not_elem_of_nil.
    + intros (m & _ & -> & -> & ->). by destruct Hs.
  - destruct s as [|c s]; [split; [by intros ?%not_elem_of_nil|by intros (m & _ & E & c & -> & _)]|].
    destruct (p c) eqn:Hc; split.
    + intros [= -> ->]%list_elem_of_singleton. exists (String c ""). split_and!; [done|done|]. by exists c.
    + intros (m & -> & E & c' & -> & Hc'). injection E as -> ->. by apply list_elem_of_singleton.
    + by intros ?%not_elem_of_nil.
    + intros (m & _ & E & c' & -> & Hc'). injection E as -> ->. congruence.
  - apply andb_true_iff in Hok as [Ha Hb]. rewrite list_elem_of_bind. split.
    + intros ([p' s'] & Hin & (m & -> & -> & Hm)%IHa); [|done]. cbn in Hin.
      apply IHb in Hin as (m' & -> & -> & Hm'); [|done].
      exists (m +:+ m'). rewrite !str_app_assoc. split_and!; [done|done|]. by exists m, m'.
    + intros (m & -> & -> & (x & y & -> & Hx & Hy)). exists (pre +:+ x, y +:+ t). cbn. split.
      * apply IHb; [done|]. exists y. by rewrite str_app_assoc.
      * apply IHa; [done|]. exists x. by rewrite str_app_assoc.
  - apply andb_true_iff in Hok as [Hc Ha]. change (x ← residuals a pre s; x :: _) with
      (plus_search (residuals a) (S (String.length s)) pre s). split.
    + apply (plus_search_sound _ _ _ _ _ _ _ (IHa Ha)).
    + intros (m & -> & -> & Hm). apply (plus_search_complete _ (matches a)); [by apply IHa| |done|lia].
      intros ???. by apply consumes_length.
  - by apply times_finds, IHa.
Qed.

(** [std::regex_match] holds exactly when the expression matches the whole text. *)
Lemma regex_match_spec s r : repeats_ok r = true → regex_match s r = true ↔ matches r "" s "".
Proof.
  intros Hok. unfold regex_match. rewrite existsb_exists. split.
  - intros ([q t] & Hin & Ht). cbn in Ht. apply bool_decide_eq_true in Ht as ->.
    apply list_elem_of_In in Hin.
    apply (residuals_finds r Hok) in Hin as (m & _ & -> & Hm). by rewrite str_app_nil_r.
  - intros Hm. exists (s, ""). split; [|by rewrite bool_decide_true].
    apply list_elem_of_In, (residuals_finds r Hok). exists s. by rewrite str_app_nil_r.
Qed.
