(* ===== verification/CLICommands.v ===== *)
(** * CLICommands: the command handlers

    Models include/network/CLICommands.hpp and src/network/CLICommands.cpp.  A
    handler is a computation on the queue manager's world, the files, the Storage
    objects (the one handed in and the pool made from it) and the task counter.
    The environment [e] of the queue manager also gives the clock.

    Third-party or missing code is a parameter: the JSON library, RocksDB,
    [Task::execute] (pure virtual: it returns or throws), [Task::markCancelled] and
    [Storage::getConfig] (called, never defined), the conversion of a vector of task
    pointers to JSON in [list], and the order in which the threads of [batchProcess]
    finish.  [std::make_shared<Task>] makes an object of the abstract class [Task], as
    the sources have it.

    A [shared_ptr] held by a local variable is gone when the handler returns: an
    object that neither the task map nor a queue node refers to is freed then
    ([release]), which is what the weak references of [dependencies_] notice. *)

From Stdlib Require Import Ascii.
From S2P Require Import Prelude Text Json Effects Task Dot NodeQueue LockFree SkipList QueueManager Storage Regex.

Definition STORAGE_POOL_SIZE : Z := 32.

Record cli `{RocksDB} : Type := mkCli {
  c_world : world;
  c_disk : Disk;
  c_storage : Storage;
  c_pool : list Storage;
  c_index : Z;
  c_next_id : Z;
  c_files : gmap string string
}.

Section state.
Context `{R : RocksDB}.

Definition set_world (w : world) (c : cli) : cli :=
  mkCli _ w (c_disk c) (c_storage c) (c_pool c) (c_index c) (c_next_id c) (c_files c).
Definition set_index (n : Z) (c : cli) : cli :=
  mkCli _ (c_world c) (c_disk c) (c_storage c) (c_pool c) n (c_next_id c) (c_files c).
Definition set_counter (n : Z) (c : cli) : cli :=
  mkCli _ (c_world c) (c_disk c) (c_storage c) (c_pool c) (c_index c) n (c_files c).
Definition set_files (fs : gmap string string) (c : cli) : cli :=
  mkCli _ (c_world c) (c_disk c) (c_storage c) (c_pool c) (c_index c) (c_next_id c) fs.

(** [CLICommands::CLICommands] and [initializeStoragePool]: the pool is made from
    the configuration of [storage], and none of its members is initialized. *)
Definition initializeStoragePool (getConfig : Storage → string) (storage : Storage) : list Storage :=
  replicate (Z.to_nat STORAGE_POOL_SIZE) (new_Storage (getConfig storage)).

Definition new_CLICommands (getConfig : Storage → string) (w : world) (d : Disk) (storage : Storage)
    (next_id : Z) (files : gmap string string) : cli :=
  mkCli _ w d storage (initializeStoragePool getConfig storage) 0 next_id files.
End state.

(** ** batchProcess *)

(** The ranges of items the threads get: [for (i = 0; i < n; i += batch_size)] with
    [end = min(i + batch_size, n)], in [size_t] arithmetic. *)
Fixpoint batch_ranges (fuel : nat) (n batch_size i : Z) : outcome (list (Z * Z)) :=
  if decide (i < n) then
    match fuel with
    | O => Diverge
    | S fuel =>
        let e := Z.min (w64 (i + batch_size)) n in
        rest ← batch_ranges fuel n batch_size (w64 (i + batch_size));
        Ret ((i, e) :: rest)
    end
  else Ret [].

(** One thread: the processor is called on each item and its result dropped (it is
    a [std::function<void(T)>]); an exception in a thread ends the program. *)
Fixpoint process_items {A B} (processor : A → outcome B) (l : list A) : outcome (list A) :=
  match l with
  | [] => Ret []
  | x :: l =>
      match processor x with
      | Ret _ => rest ← process_items processor l; Ret (x :: rest)
      | Throw _ | Undef => Undef
      | Diverge => Diverge
      end
  end.

Definition batch_items {A} (items : list A) (r : Z * Z) : list A :=
  take (Z.to_nat (r.2 - r.1)) (drop (Z.to_nat r.1) items).

Fixpoint process_ranges {A B} (processor : A → outcome B) (items : list A) (ranges : list (Z * Z))
    : outcome (list (list A)) :=
  match ranges with
  | [] => Ret []
  | r :: ranges =>
      batch_results ← process_items processor (batch_items items r);
      rest ← process_ranges processor items ranges;
      Ret (batch_results :: rest)
  end.

(** [order] is the order in which the threads take [results_mutex], as positions in
    the list of threads. *)
Definition batchProcess {A B} (order : nat → list nat) (items : list A) (processor : A → outcome B)
    (batch_size : Z) : outcome (list A) :=
  ranges ← batch_ranges (length items) (Z.of_nat (length items)) batch_size 0;
  results ← process_ranges processor items ranges;
  Ret (concat (omap (λ i, results !! i) (order (length ranges)))).

(** ** Cron expressions: the regular expression of [validateCronExpression]. *)

Definition cron_regex : regex :=
  let non_space := RClass (λ c, negb (Ascii.is_space c)) in
  let space := RClass Ascii.is_space in
  RSeq RBegin (RSeq (RTimes 4 (RSeq (RPlus non_space) (RPlus space))) (RSeq (RPlus non_space) REnd)).

Definition validateCronExpression (cron : string) : bool := regex_match cron cron_regex.

(** ** Handlers *)

(** [system_clock::now() + std::chrono::milliseconds(ms)] in 64-bit nanoseconds:
    signed overflow is undefined. *)
Definition after_ms (now ms : Z) : outcome Z :=
  let d := ms * 1000000 in
  if decide (- 2 ^ 63 ≤ d < 2 ^ 63 ∧ - 2 ^ 63 ≤ now + d < 2 ^ 63) then Ret (now + d) else Undef.

Section handlers.
Context `{J : JsonLib} `{R : RocksDB} `{SL : SearchLoop}.
Context (markCancelled : Z → Task → Task) (execute : Task → outcome unit).
Context (tasks_to_json : list Task → json) (order : nat → list nat).

Abbreviation handler := (M cli).

Definition text (s : string) : json := json_of_string s.

Definition response_error (message : string) : json :=
  json_object [("status", text "error"); ("message", text message)].

Definition response_success (extra : list (string * json)) : json :=
  json_object (("status", text "success") :: extra).

(** *** Access to the parts of the state *)

Definition on_world {A} (f : world → outcome (A * world)) : handler A := λ c,
  match f (c_world c) with
  | Ret (a, w) => (Ret a, set_world w c)
  | Throw s => (Throw s, c)
  | Undef => (Undef, c)
  | Diverge => (Diverge, c)
  end.

(** A member function of the Storage at position [i] of the pool. *)
Definition on_pool {A} (i : nat) (m : M sys A) : handler A := λ c,
  match c_pool c !! i with
  | None => (Undef, c)
  | Some o =>
      let '(r, s) := m (mkSys _ (c_disk c) o (c_next_id c)) in
      (r, mkCli _ (c_world c) (disk s) (c_storage c) (<[i := obj s]> (c_pool c)) (c_index c) (next_id s)
            (c_files c))
  end.

(** A member function of [storage_]. *)
Definition on_storage {A} (m : M sys A) : handler A := λ c,
  let '(r, s) := m (mkSys _ (c_disk c) (c_storage c) (c_next_id c)) in
  (r, mkCli _ (c_world c) (disk s) (obj s) (c_pool c) (c_index c) (next_id s) (c_files c)).

Definition getStorageFromPool : handler nat := act (λ c,
  (Z.to_nat (c_index c mod STORAGE_POOL_SIZE), set_index (w64 (c_index c + 1)) c)).

Definition read_task (t : loc) : handler Task :=
  c ← get_state; lift (deref (tasks (c_world c) !! t)).

Definition write_task (t : loc) (tk : Task) : handler unit :=
  modify (λ c, let w := c_world c in set_world (mkWorld (nodes w) (<[t := tk]> (tasks w)) (qm w)) c).

Definition task_store : handler (gmap loc Task) := gets (λ c, tasks (c_world c)).

(** [std::make_shared<Task>(name, priority)] *)
Definition new_task (now : Z) (name : string) (priority : TaskPriority) : handler loc := act (λ c,
  let '(tk, n) := new_Task now (c_next_id c) name priority in
  let w := c_world c in
  let t := fresh (dom (tasks w)) in
  (t, set_counter n (set_world (mkWorld (nodes w) (<[t := tk]> (tasks w)) (qm w)) c))).

(** The objects a [shared_ptr] of the manager refers to. *)
Definition shared (w : world) : gset loc :=
  list_to_set (map_to_list (task_map_ (qm w))).*2 ∪
  list_to_set (omap (λ n, task n.2) (map_to_list (nodes w))).

Definition free_unshared (w : world) : world :=
  mkWorld (nodes w) (filter (λ t, t.1 ∈ shared w) (tasks w)) (qm w).

Definition release : handler unit := modify (λ c, set_world (free_unshared (c_world c)) c).

(** [try { body } catch (const std::exception &e) { return error(e.what()); }] around
    a whole handler, and the end of its local variables. *)
Definition guarded (body : handler json) : handler json :=
  r ← try_catch body (λ what, mret (response_error what)); release ;; mret r.

Definition param_id (params : json) (key : string) : handler Z :=
  lift (v ← json_at params key; json_get U64 v).

Definition param_string (params : json) (key : string) : handler string :=
  lift (v ← json_at params key; json_get_string v).

Definition logEvent (e : env) (id : Z) (event details : string) : handler unit :=
  let log_entry := json_object [("timestamp", json_of_num (now e)); ("task_id", json_of_num id);
                                ("event", text event); ("details", text details)] in
  i ← getStorageFromPool;
  on_pool i (appendToWAL (now e) "event_log" log_entry) ;;
  mret tt.

(** [auto storage = getStorageFromPool(); storage->saveTask(task);] *)
Definition save_in_pool (e : env) (t : loc) : handler unit :=
  i ← getStorageFromPool;
  ts ← task_store;
  on_pool i (saveTask (now e) ts (ts !! t)) ;;
  mret tt.

Definition update_in_pool (e : env) (id : Z) (status : TaskStatus) : handler unit :=
  i ← getStorageFromPool;
  on_pool i (updateTaskStatus (now e) id status) ;;
  mret tt.

Definition find_task (id : Z) : handler (option loc) := gets (λ c, findTask id (c_world c)).

(** *** Queue operations *)

Definition enqueue_task (e : env) (params : json) : handler json :=
  name ← param_string params "name";
  priority ← lift (json_value (json_get I32) params "priority" 50);
  t ← new_task (now e) name priority;
  (if json_contains params "delay" then
     delay ← lift (v ← json_at params "delay"; json_get I64 v);
     at_time ← lift (after_ms (now e) delay);
     tk ← read_task t;
     write_task t (set_scheduled_for at_time tk)
   else mret tt) ;;
  group ← lift (json_value json_get_string params "group" "default");
  on_world (λ w, w ← enqueue e (Some t) group w; Ret (tt, w)) ;;
  save_in_pool e t ;;
  tk ← read_task t;
  logEvent e (id_ tk) "created" "Task enqueued" ;;
  mret (response_success [("task_id", json_of_num (id_ tk))]).

Definition cli_enqueue (e : env) (params : json) : handler json := guarded (enqueue_task e params).

Definition cli_dequeue (e : env) (params : json) : handler json := guarded (
  task ← on_world (dequeue e);
  match task with
  | None => mret (response_error "No tasks available")
  | Some t =>
      tk ← read_task t;
      ts ← task_store;
      j ← lift (toJson ts tk);
      mret (response_success [("task", j)])
  end).

Definition cli_run (e : env) (params : json) : handler json := guarded (
  task_id ← param_id params "task_id";
  task ← find_task task_id;
  match task with
  | None => mret (response_error "Task not found")
  | Some t =>
      tk ← read_task t;
      write_task t (markStarted (now e) tk) ;;
      tk ← read_task t;
      lift (execute tk) ;;
      write_task t (markCompleted (now e) tk) ;;
      tk ← read_task t;
      update_in_pool e task_id (status_ tk) ;;
      logEvent e task_id "executed" "Task manually executed" ;;
      ts ← task_store;
      j ← lift (toJson ts tk);
      mret (response_success [("task", j)])
  end).

Definition cli_cancel (e : env) (params : json) : handler json := guarded (
  task_id ← param_id params "task_id";
  success ← on_world (cancelTask markCancelled e task_id);
  let success : bool := success in
  (if success then
     update_in_pool e task_id CANCELLED ;;
     logEvent e task_id "cancelled" "Task cancelled"
   else mret tt) ;;
  mret (json_object [("status", text (if success then "success" else "error"));
                     ("message", text (if success then "Task cancelled" else "Failed to cancel task"))])).

Definition cli_kill (e : env) (params : json) : handler json := guarded (
  task_id ← param_id params "task_id";
  task ← find_task task_id;
  match task with
  | None => mret (response_error "Task not running")
  | Some t =>
      tk ← read_task t;
      if decide (status_ tk ≠ RUNNING) then mret (response_error "Task not running")
      else
        write_task t (markFailed (now e) "Task killed by user" tk) ;;
        update_in_pool e task_id FAILED ;;
        logEvent e task_id "killed" "Task forcefully terminated" ;;
        mret (response_success [])
  end).

Definition cli_status (params : json) : handler json := guarded (
  task_id ← param_id params "task_id";
  task ← find_task task_id;
  match task with
  | None => mret (response_error "Task not found")
  | Some t =>
      tk ← read_task t;
      ts ← task_store;
      j ← lift (toJson ts tk);
      mret (response_success [("task", j)])
  end).

(** The lambda of [list]: null for a task that is filtered out. *)
Definition list_filter (store : gmap loc Task) (state : string) (tk : Task) : outcome json :=
  if bool_decide (state = "all")
     || (bool_decide (state = "queued") && bool_decide (status_ tk = QUEUED))
     || (bool_decide (state = "running") && bool_decide (status_ tk = RUNNING))
     || (bool_decide (state = "completed") && bool_decide (status_ tk = COMPLETED))
     || (bool_decide (state = "failed") && bool_decide (status_ tk = FAILED))
  then toJson store tk
  else Ret json_null.

Definition cli_list (e : env) (params : json) : handler json := guarded (
  state ← lift (json_value json_get_string params "state" "all");
  i ← getStorageFromPool;
  tasks ← on_pool i (loadAllTasks (now e));
  store ← task_store;
  filtered_tasks ← lift (batchProcess order tasks (list_filter store state) 100);
  mret (response_success [("tasks", tasks_to_json filtered_tasks)])).

Definition cli_clear (params : json) : handler json := guarded (
  scope ← lift (json_value json_get_string params "scope" "all");
  (if decide (scope = "all") then on_world (λ w, Ret (tt, clear w)) else mret tt) ;;
  mret (response_success [])).

(** *** Configuration *)

Definition parse_mode (mode_str : string) : outcome QueueMode :=
  if decide (mode_str = "FIFO") then Ret FIFO
  else if decide (mode_str = "LIFO") then Ret LIFO
  else if decide (mode_str = "ROUND_ROBIN") then Ret ROUND_ROBIN
  else if decide (mode_str = "PRIORITY") then Ret PRIORITY
  else Throw "Invalid queue mode".

Definition cli_setMode (e : env) (params : json) : handler json := guarded (
  mode_str ← param_string params "mode";
  mode ← lift (parse_mode mode_str);
  on_world (λ w, w ← setMode e mode w; Ret (tt, w)) ;;
  mret (response_success [])).

Definition cli_setConcurrency (params : json) : handler json := guarded (
  param_id params "threads" ;;
  mret (response_error "Not implemented")).

Definition cli_setRetry (e : env) (params : json) : handler json := guarded (
  task_id ← param_id params "task_id";
  retries ← lift (v ← json_at params "count"; json_get U32 v);
  task ← find_task task_id;
  match task with
  | None => mret (response_error "Task not found")
  | Some t =>
      tk ← read_task t;
      write_task t (setMaxRetries retries tk) ;;
      save_in_pool e t ;;
      mret (response_success [])
  end).

Definition cli_setDelay (e : env) (params : json) : handler json := guarded (
  task_id ← param_id params "task_id";
  delay_ms ← lift (v ← json_at params "ms"; json_get I64 v);
  task ← find_task task_id;
  match task with
  | None => mret (response_error "Task not found")
  | Some t =>
      tk ← read_task t;
      at_time ← lift (after_ms (now e) delay_ms);
      write_task t (set_scheduled_for at_time tk) ;;
      save_in_pool e t ;;
      mret (response_success [])
  end).

Definition cli_setSchedule (e : env) (params : json) : handler json := guarded (
  task_id ← param_id params "task_id";
  schedule ← param_string params "cron";
  if negb (validateCronExpression schedule) then mret (response_error "Invalid cron expression")
  else
    task ← find_task task_id;
    match task with
    | None => mret (response_error "Task not found")
    | Some t =>
        tk ← read_task t;
        ts ← task_store;
        j ← lift (toJson ts tk);
        j ← lift (json_set j "schedule" (text schedule));
        (let '(tk, r) := fromJson j tk in write_task t tk ;; lift r) ;;
        save_in_pool e t ;;
        mret (response_success [])
    end).

(** *** Dependencies *)

Definition cli_depend (e : env) (params : json) : handler json := guarded (
  task_id ← param_id params "task_id";
  dep_id ← param_id params "on_task_id";
  task ← find_task task_id;
  dep_task ← find_task dep_id;
  match task, dep_task with
  | Some t, Some d =>
      tk ← read_task t;
      write_task t (addDependency d tk) ;;
      save_in_pool e t ;;
      mret (response_success [])
  | _, _ => mret (response_error "Task not found")
  end).

Definition cli_color (s : TaskStatus) : string :=
  match s with
  | QUEUED => "yellow"
  | RUNNING => "blue"
  | COMPLETED => "green"
  | FAILED => "red"
  | _ => "gray"
  end.

Definition cli_node_line (id : Z) (tk : Task) : string :=
  "  task_" +:+ to_string id +:+ " [label=" +:+ dquote +:+ name_ tk +:+ "\nID: " +:+ to_string id
    +:+ dquote +:+ ", color=" +:+ cli_color (status_ tk) +:+ "];" +:+ newline.

Definition cli_edge_line (id dep_id : Z) : string :=
  "  task_" +:+ to_string id +:+ " -> task_" +:+ to_string dep_id +:+ ";" +:+ newline.

(** The loop over [task->dependencies_], given the recursive call. *)
Fixpoint addDeps (addNode : Z → outcome (list string)) (ts : gmap loc Task) (id : Z) (deps : list loc)
    : outcome (list string) :=
  match deps with
  | [] => Ret []
  | dep :: deps =>
      match ts !! dep with
      | Some dep_task =>
          sub ← addNode (id_ dep_task);
          rest ← addDeps addNode ts id deps;
          Ret (cli_edge_line id (id_ dep_task) :: sub ++ rest)
      | None => addDeps addNode ts id deps
      end
  end.

(** The recursive lambda of [generateDOTGraph]: the lines it writes.  There is no
    set of visited tasks; the fuel is the depth of the recursion, and a recursion
    deeper than the number of tasks in the map visits a task twice on one path. *)
Fixpoint addNode (fuel : nat) (w : world) (id : Z) : outcome (list string) :=
  match fuel with
  | O => Diverge
  | S fuel =>
      match findTask id w with
      | None => Ret []
      | Some t =>
          tk ← deref (tasks w !! t);
          lines ← addDeps (addNode fuel w) (tasks w) id (dependencies_ tk);
          Ret (cli_node_line id tk :: lines)
      end
  end.

Definition cli_generateDOTGraph (w : world) (root_id : Z) : outcome string :=
  lines ← addNode (S (size (task_map_ (qm w)))) w root_id;
  Ret (stream (["digraph TaskDependencies {" +:+ newline] ++ lines ++ ["}" +:+ newline])).

Definition cli_graph (params : json) : handler json := guarded (
  task_id ← param_id params "task_id";
  dot ← on_world (λ w, d ← cli_generateDOTGraph w task_id; Ret (d, w));
  mret (response_success [("graph", text dot)])).

(** The tasks come from [storage_], not from the pool. *)
Fixpoint ready_loop (e : env) (store : gmap loc Task) (l : list Task) : outcome (list json) :=
  match l with
  | [] => Ret []
  | tk :: l =>
      if bool_decide (status_ tk = QUEUED) && areDependenciesMet store tk
         && bool_decide (scheduled_for_ tk ≤ now e)
      then j ← toJson store tk; js ← ready_loop e store l; Ret (j :: js)
      else ready_loop e store l
  end.

Definition cli_ready (e : env) (params : json) : handler json := guarded (
  tasks ← on_storage (loadAllTasks (now e));
  store ← task_store;
  ready_tasks ← lift (ready_loop e store tasks);
  mret (response_success [("tasks", json_of_list ready_tasks)])).

(** *** Client commands and files *)

Definition cli_connect (params : json) : handler json :=
  mret (response_error "Command should be handled by client").

Definition open_file (filename : string) : handler (option string) :=
  gets (λ c, c_files c !! filename).

(** [std::ofstream file(filename)] empties the file. *)
Definition write_file (filename contents : string) : handler unit :=
  modify (λ c, set_files (<[filename := contents]> (c_files c)) c).

Definition cli_submit (e : env) (params : json) : handler json := guarded (
  filename ← param_string params "file";
  file ← open_file filename;
  match file with
  | None => mret (response_error "Cannot open file")
  | Some contents =>
      task_def ← lift (json_parse contents);
      cli_enqueue e task_def
  end).

Definition cli_exportTask (params : json) : handler json := guarded (
  task_id ← param_id params "task_id";
  task ← find_task task_id;
  match task with
  | None => mret (response_error "Task not found")
  | Some t =>
      let filename := "task_" +:+ to_string task_id +:+ ".json" in
      tk ← read_task t;
      ts ← task_store;
      write_file filename "" ;;
      j ← lift (toJson ts tk);
      contents ← lift (json_dump_indent 2 j);
      write_file filename contents ;;
      mret (response_success [("file", text filename)])
  end).

Definition cli_importTask (e : env) (params : json) : handler json := guarded (
  filename ← param_string params "file";
  file ← open_file filename;
  match file with
  | None => mret (response_error "Cannot open file")
  | Some contents =>
      task_def ← lift (json_parse contents);
      t ← new_task (now e) "" MEDIUM;
      tk ← read_task t;
      (let '(tk, r) := fromJson task_def tk in write_task t tk ;; lift r) ;;
      save_in_pool e t ;;
      on_world (λ w, w ← enqueue e (Some t) "default" w; Ret (tt, w)) ;;
      tk ← read_task t;
      mret (response_success [("task_id", json_of_num (id_ tk))])
  end).
End handlers.
