(* ===== verification/CLIProps.v ===== *)
(** * What the command handlers do

    The batches of [batchProcess], cron expressions, and the DOT writer of the [graph]
    command. *)

From Stdlib Require Import Ascii.
From S2P Require Import Prelude Text Json Effects Task Dot NodeQueue LockFree SkipList QueueManager Storage Regex CLICommands.

#[local] Arguments String.append : simpl nomatch.

(** ** batchProcess *)

Lemma batch_ranges_cover {A} (items : list A) b fuel i : 0 < b → 0 ≤ i →
  Z.of_nat (length items) + b ≤ 2 ^ 64 → Z.of_nat (length items) - i ≤ Z.of_nat fuel →
  ∃ rs, batch_ranges fuel (Z.of_nat (length items)) b i = Ret rs ∧
    concat (batch_items items <$> rs) = drop (Z.to_nat i) items ∧
    (i < Z.of_nat (length items) ≤ i + b → length rs = 1%nat).
Proof.
  intros Hb. revert i. induction fuel as [|fuel IH]; intros i Hi Hfit Hfuel; cbn.
  - rewrite decide_False by lia. exists []. rewrite drop_ge by lia. split_and!; [done|done|lia].
  - case_decide as Hlt; [|exists []; rewrite drop_ge by lia; split_and!; [done|done|lia]].
    rewrite w64_small by lia. destruct (IH (i + b)) as (rs & Hrs & Hcover & _); [lia|lia|lia|].
    rewrite Hrs. cbn. eexists. split; [done|]. split.
    + cbn. rewrite Hcover. unfold batch_items. cbn.
      rewrite <-(take_drop (Z.to_nat (Z.min (i + b) (Z.of_nat (length items)) - i)) (drop (Z.to_nat i) items)) at 2.
      f_equal. rewrite drop_drop. destruct (decide (i + b ≤ Z.of_nat (length items))).
      * f_equal. lia.
      * rewrite !drop_ge by lia. done.
    + intros Hle. cbn. destruct fuel; cbn in Hrs; rewrite decide_False in Hrs by lia; by injection Hrs as <-.
Qed.

Lemma process_items_all {A B} (processor : A → outcome B) l :
  (∀ x, x ∈ l → ∃ y, processor x = Ret y) → process_items processor l = Ret l.
Proof.
  induction l as [|x l IH]; intros Hp; cbn; [done|].
  destruct (Hp x) as [y ->]; [left|]. rewrite IH by (intros; apply Hp; by right). done.
Qed.

Lemma process_ranges_all {A B} (processor : A → outcome B) items rs :
  (∀ x, x ∈ items → ∃ y, processor x = Ret y) →
  process_ranges processor items rs = Ret (batch_items items <$> rs).
Proof.
  intros Hp. induction rs as [|r rs IH]; cbn; [done|]. rewrite process_items_all; [by rewrite IH|].
  intros x Hx. apply Hp. unfold batch_items in Hx. by eapply subseteq_drop, subseteq_take.
Qed.

Lemma omap_seq_app {A} (pre l : list A) :
  omap (λ i, (pre ++ l) !! i) (seq (length pre) (length l)) = l.
Proof.
  revert pre. induction l as [|x l IH]; intros pre; [done|]. cbn [seq length omap list_omap].
  rewrite list_lookup_middle by done. f_equal. specialize (IH (pre ++ [x])).
  rewrite length_app, <-app_assoc in IH. cbn in IH. by rewrite Nat.add_1_r in IH.
Qed.

Lemma omap_seq {A} (l : list A) : omap (λ i, l !! i) (seq 0 (length l)) = l.
Proof. apply (omap_seq_app []). Qed.

Lemma batchProcess_all {A B} (order : nat → list nat) (items : list A) (processor : A → outcome B) b :
  0 < b → Z.of_nat (length items) + b ≤ 2 ^ 64 → (∀ n, order n ≡ₚ seq 0 n) →
  (∀ x, x ∈ items → ∃ y, processor x = Ret y) →
  ∃ l, batchProcess order items processor b = Ret l ∧ l ≡ₚ items ∧ (Z.of_nat (length items) ≤ b → l = items).
Proof.
  intros Hb Hfit Horder Hproc.
  destruct (batch_ranges_cover items b (length items) 0) as (rs & Hrs & Hcover & Hone); [lia..|].
  unfold batchProcess. rewrite Hrs. cbn [mbind outcome_bind].
  rewrite process_ranges_all by done. cbn [mbind outcome_bind]. eexists. split; [done|].
  rewrite drop_0 in Hcover. set (results := batch_items items <$> rs) in *.
  assert (Hlen : length rs = length results) by (unfold results; by rewrite length_fmap). split.
  - rewrite (Horder (length rs)), Hlen, omap_seq. by rewrite Hcover.
  - intros Hle. destruct items as [|x items].
    { cbn in Hrs. injection Hrs as <-. cbn. by rewrite (proj1 (Permutation_nil_r _) (Horder 0%nat)). }
    specialize (Hone ltac:(cbn in *; lia)).
    destruct rs as [|r [|]]; try done. cbn [length].
    rewrite (proj1 (Permutation_singleton_r _ _) (Horder 1%nat)). unfold results in *. cbn in *. done.
Qed.

(** [batchProcess] returns every item once, whatever the order in which its threads
    finish, and in the original order when one batch is enough; the filter passed as
    its processor has no influence.  With a batch size of 0 it never returns. *)
Theorem batchProcess_keeps_all {A B} (order : nat → list nat) (items : list A)
    (processor : A → outcome B) b
    (Hb : 0 < b) (Hfit : Z.of_nat (length items) + b ≤ 2 ^ 64)
    (Horder : ∀ n, order n ≡ₚ seq 0 n) (Hproc : ∀ x, x ∈ items → ∃ y, processor x = Ret y) :
  (∃ l, batchProcess order items processor b = Ret l ∧ l ≡ₚ items ∧
    (Z.of_nat (length items) ≤ b → l = items)) ∧
  (items ≠ [] → batchProcess order items processor 0 = Diverge).
Proof.
  split; [by apply batchProcess_all|]. intros Hne. unfold batchProcess.
  assert (Hdiv : ∀ fuel, batch_ranges fuel (Z.of_nat (length items)) 0 0 = Diverge).
  { induction fuel as [|fuel IH]; cbn [batch_ranges];
      (rewrite decide_True by (destruct items; [done|cbn; lia])); [done|].
    replace (w64 (0 + 0)) with 0 by done. by rewrite IH. }
  by rewrite Hdiv.
Qed.

Lemma batchProcess_keeps_all_witness :
  (∃ l, batchProcess (λ n, reverse (seq 0 n)) [1; 2; 3; 4; 5] (λ x, Ret (x + 1)) 2 = Ret l ∧
    l ≡ₚ [1; 2; 3; 4; 5] ∧ (5 ≤ 2 → l = [1; 2; 3; 4; 5])) ∧
  ([1; 2; 3; 4; 5] ≠ [] →
   batchProcess (λ n, reverse (seq 0 n)) [1; 2; 3; 4; 5] (λ x, Ret (x + 1)) 0 = Diverge).
Proof.
  apply (batchProcess_keeps_all (λ n, reverse (seq 0 n)) [1; 2; 3; 4; 5] (λ x, Ret (x + 1)) 2);
    [lia|cbn; lia| |by eauto].
  intros n. apply reverse_Permutation.
Defined.

(** ** Cron expressions *)

(** All characters of [s] satisfy [p], and there is one. *)
Fixpoint all_chars (p : ascii → bool) (s : string) : Prop :=
  match s with
  | EmptyString => True
  | String c s => p c = true ∧ all_chars p s
  end.

Definition nonempty_of (p : ascii → bool) (s : string) : Prop := s ≠ "" ∧ all_chars p s.

Definition not_space (c : ascii) : bool := negb (Ascii.is_space c).

Lemma all_chars_app p a b : all_chars p (a +:+ b) ↔ all_chars p a ∧ all_chars p b.
Proof. induction a as [|c a IH]; cbn; [tauto|]. rewrite IH. tauto. Qed.

Lemma matches_plus_class p pre s post :
  matches (RPlus (RClass p)) pre s post ↔ nonempty_of p s.
Proof.
  cbn. split.
  - induction 1 as [? ? ? (c & -> & Hc)|? ? ? ? (c & -> & Hc) _ [_ IH]]; [by repeat split|].
    split; [done|]. cbn. done.
  - intros [Hne Hall]. revert pre. induction s as [|c s IH]; intros pre; [done|].
    destruct Hall as [Hc Hall]. destruct s as [|d s].
    + apply plus_one. by exists c.
    + apply (plus_more _ pre (String c "") (String d s)); [by exists c|]. by apply IH.
Qed.

(** [n] fields, each followed by white space, and a last field. *)
Fixpoint fields (n : nat) (s : string) : Prop :=
  match n with
  | O => nonempty_of not_space s
  | S n => ∃ f w rest, s = f +:+ w +:+ rest ∧ nonempty_of not_space f ∧ nonempty_of Ascii.is_space w ∧
      fields n rest
  end.

Lemma times_fields n pre s post last :
  nonempty_of not_space last →
  times_of (matches (RSeq (RPlus (RClass not_space)) (RPlus (RClass Ascii.is_space)))) n pre s post →
  fields n (s +:+ last).
Proof.
  intros Hlast. revert pre s. induction n as [|n IH]; intros pre s; cbn [times_of].
  - by intros ->.
  - intros (a & b & -> & (f & w & -> & Hf & Hw) & Hb). apply matches_plus_class in Hf, Hw.
    exists f, w, (b +:+ last). rewrite !str_app_assoc. split_and!; [done|done|done|]. by eapply IH.
Qed.

Lemma fields_times n s : fields n s → ∃ a last, s = a +:+ last ∧ nonempty_of not_space last ∧
  ∀ pre post,
    times_of (matches (RSeq (RPlus (RClass not_space)) (RPlus (RClass Ascii.is_space)))) n pre a post.
Proof.
  revert s. induction n as [|n IH]; intros s; cbn [fields times_of].
  - intros Hs. by exists "", s.
  - intros (f & w & rest & -> & Hf & Hw & Hrest).
    destruct (IH rest Hrest) as (a & last & -> & Hlast & Ha).
    exists ((f +:+ w) +:+ a), last. rewrite !str_app_assoc. split; [done|]. split; [done|].
    intros pre post. exists (f +:+ w), a. rewrite !str_app_assoc. split; [done|]. split; [|apply Ha].
    exists f, w. split; [done|]. by split; apply matches_plus_class.
Qed.

(** Words, as [String.words] cuts a text at white space. *)
Lemma words_go_field f s cur : all_chars not_space f →
  String.words_go (Some cur) (f +:+ s) = String.words_go (Some (String.rev_app f cur)) s.
Proof.
  revert cur. induction f as [|c f IH]; intros cur; cbn; [done|]. intros [Hc Hf].
  unfold not_space in Hc. apply negb_true_iff in Hc. rewrite Hc. by apply IH.
Qed.

Lemma words_go_space w s : all_chars Ascii.is_space w → String.words_go None (w +:+ s) = String.words_go None s.
Proof. induction w as [|c w IH]; cbn; [done|]. intros [-> Hw]. cbn. by apply IH. Qed.

Lemma words_field f s : nonempty_of not_space f →
  match s with String c _ => Ascii.is_space c = true | EmptyString => True end →
  String.words (f +:+ s) = String.rev (String.rev_app f "") :: String.words s.
Proof.
  intros [Hne Hf] Hs. destruct f as [|c f]; [done|]. destruct Hf as [Hc Hf].
  unfold String.words. cbn. unfold not_space in Hc. apply negb_true_iff in Hc. rewrite Hc. cbn.
  rewrite words_go_field by done. destruct s as [|d s]; [done|]. cbn. by rewrite Hs.
Qed.

Lemma fields_words n s : fields n s → length (String.words s) = S n.
Proof.
  revert s. induction n as [|n IH]; intros s; cbn.
  - intros Hs. rewrite <-(str_app_nil_r s), words_field by done. done.
  - intros (f & w & rest & -> & Hf & [Hne Hw] & Hrest). rewrite words_field; [|done|].
    + cbn. f_equal. unfold String.words. rewrite words_go_space by done. by apply IH.
    + destruct w as [|c w]; [done|]. by destruct Hw.
Qed.

(** The first and the last character. *)
Definition first_char (p : ascii → bool) (s : string) : bool :=
  match s with String c _ => p c | EmptyString => false end.

Fixpoint last_char (p : ascii → bool) (s : string) : bool :=
  match s with
  | EmptyString => false
  | String c s => match s with EmptyString => p c | _ => last_char p s end
  end.

Lemma last_char_app p a b : b ≠ "" → last_char p (a +:+ b) = last_char p b.
Proof.
  intros Hb. induction a as [|c a IH]; [done|]. cbn. destruct (a +:+ b) eqn:E; [|done].
  destruct a; [by destruct b|done].
Qed.

Lemma all_chars_last p s : nonempty_of p s → last_char p s = true.
Proof.
  intros [Hne Hs]. induction s as [|c s IH]; [done|]. destruct Hs as [Hc Hs]. cbn.
  destruct s; [done|]. by apply IH.
Qed.

Lemma fields_ends n s : fields n s → first_char not_space s = true ∧ last_char not_space s = true.
Proof.
  revert s. induction n as [|n IH]; intros s; cbn.
  - intros Hs. split; [|by apply all_chars_last]. destruct Hs as [? Hs]. destruct s; [done|]. apply Hs.
  - intros (f & w & rest & -> & [Hne Hf] & Hw & Hrest). destruct (IH rest Hrest) as [Hfst Hlst].
    assert (Hr : rest ≠ "") by (intros ->; done). split.
    + destruct f; [done|]. apply Hf.
    + by rewrite <-str_app_assoc, last_char_app.
Qed.

(** The longest front of characters with [p]. *)
Lemma span_chars p s : ∃ a b, s = a +:+ b ∧ all_chars p a ∧ first_char p b = false.
Proof.
  induction s as [|c s IH]; [by exists "", ""|]. destruct (p c) eqn:Hc.
  - destruct IH as (a & b & -> & Ha & Hb). exists (String c a), b. by repeat split.
  - by exists "", (String c s).
Qed.

Lemma words_fields n s : first_char not_space s = true → last_char not_space s = true →
  length (String.words s) = S n → fields n s.
Proof.
  revert s. induction n as [|n IH]; intros s Hfirst Hlast Hlen.
  all: destruct (span_chars not_space s) as (f & r & -> & Hf & Hr).
  all: assert (Hfne : f ≠ "") by (intros ->; cbn in *; congruence).
  all: destruct (span_chars Ascii.is_space r) as (w & rest & -> & Hw & Hrest).
  all: assert (Hsp : match w +:+ rest with String c _ => Ascii.is_space c = true | EmptyString => True end)
    by (destruct (w +:+ rest) as [|c x] eqn:E; [done|]; cbn in Hr; unfold not_space in Hr;
        by apply negb_false_iff in Hr).
  all: rewrite words_field in Hlen by done; cbn in Hlen; injection Hlen as Hlen.
  all: unfold String.words in Hlen; rewrite words_go_space in Hlen by done.
  all: assert (Hrest0 : rest ≠ "" → first_char not_space rest = true)
    by (intros Hne; destruct rest as [|c x]; [done|]; cbn in *; unfold not_space; by rewrite Hrest).
  all: destruct (decide (rest = "")) as [->|Hne].
  - rewrite str_app_nil_r in *. destruct (decide (w = "")) as [->|Hwne]; [by rewrite str_app_nil_r|].
    exfalso. rewrite last_char_app in Hlast by done. clear -Hw Hwne Hlast.
    induction w as [|c w IH]; [done|]. destruct Hw as [Hc Hw]. cbn in Hlast. destruct w; [|by apply IH].
    unfold not_space in Hlast. by rewrite Hc in Hlast.
  - specialize (Hrest0 Hne). exfalso. destruct rest as [|c rest]; [done|].
    cbn in Hrest0, Hlen. unfold not_space in Hrest0. apply negb_true_iff in Hrest0. rewrite Hrest0 in Hlen.
    clear -Hlen. assert (H : ∀ s cur, String.words_go (Some cur) s ≠ []).
    { induction s as [|d s IH]; intros cur; cbn; [done|]. destruct (Ascii.is_space d); [done|apply IH]. }
    by apply nil_length_inv, H in Hlen.
  - by cbn in Hlen.
  - exists f, w, rest. split_and!; [done|done| |].
    + split; [|done]. intros ->. cbn in *. rewrite Hrest0 in Hr by done. done.
    + apply IH; [by apply Hrest0| |done].
      rewrite <-str_app_assoc, last_char_app in Hlast by done. done.
Qed.

(** C31: [validateCronExpression] accepts exactly the texts of five words separated by
    white space, with none before the first or after the last; the words themselves
    are not looked at. *)
Theorem validateCron_five_words s :
  validateCronExpression s = true ↔
  length (String.words s) = 5%nat ∧ first_char not_space s = true ∧ last_char not_space s = true.
Proof.
  unfold validateCronExpression. rewrite regex_match_spec by done.
  assert (Hfields : matches cron_regex "" s "" ↔ fields 4 s).
  { split.
    - intros (x & y & -> & [-> _] & (a & b & -> & Ha & (l & z & -> & Hl & [-> _]))).
      apply matches_plus_class in Hl. rewrite str_app_nil_r.
      exact (times_fields 4 _ a _ l Hl Ha).
    - intros (a & last & -> & Hlast & Ha)%fields_times. exists "", (a +:+ last).
      split; [done|]. split; [done|]. exists a, last. split; [done|]. split; [apply Ha|].
      exists last, "". rewrite str_app_nil_r. split; [done|]. split; [by apply matches_plus_class|done]. }
  rewrite Hfields. split.
  - intros Hs. split; [by apply fields_words|]. by apply (fields_ends 4).
  - intros (Hlen & Hf & Hl). by apply words_fields.
Qed.

(** ** The [graph] command *)

Section graph.
Context (w : world).

(** [b] is the id of a live dependency of the task found under [a]. *)
Definition dep_edge (a b : Z) : Prop :=
  ∃ t tk d dk, findTask a w = Some t ∧ tasks w !! t = Some tk ∧ d ∈ dependencies_ tk ∧
    tasks w !! d = Some dk ∧ id_ dk = b.

Context (Hlive : ∀ id t, findTask id w = Some t → is_Some (tasks w !! t)).

Definition returns_or_diverges {A} (o : outcome A) : Prop := (∃ a, o = Ret a) ∨ o = Diverge.

Lemma addDeps_cases f id deps : (∀ i, returns_or_diverges (f i)) → returns_or_diverges (addDeps f (tasks w) id deps).
Proof.
  intros Hf. induction deps as [|d deps IH]; cbn; [left; by eexists|].
  destruct (tasks w !! d) as [dk|]; [|done]. destruct (Hf (id_ dk)) as [[sub ->]| ->]; cbn; [|by right].
  destruct IH as [[rest ->]| ->]; cbn; [left; by eexists|by right].
Qed.

Lemma addNode_cases fuel id : returns_or_diverges (addNode fuel w id).
Proof.
  revert id. induction fuel as [|fuel IH]; intros id; cbn; [by right|].
  destruct (findTask id w) as [t|] eqn:Ht; [|left; by eexists].
  destruct (Hlive id t Ht) as [tk Htk]. rewrite Htk. cbn.
  destruct (addDeps_cases (addNode fuel w) id (dependencies_ tk) IH) as [[l ->]| ->]; cbn;
    [left; by eexists|by right].
Qed.

Lemma addDeps_Ret f id deps : (∀ d dk, d ∈ deps → tasks w !! d = Some dk → ∃ l, f (id_ dk) = Ret l) →
  ∃ l, addDeps f (tasks w) id deps = Ret l.
Proof.
  induction deps as [|d deps IH]; intros Hf; cbn; [by eexists|].
  destruct IH as [rest Hrest]; [intros; eapply Hf; [by right|done]|].
  destruct (tasks w !! d) as [dk|] eqn:Hd; [|by eexists].
  destruct (Hf d dk) as [l ->]; [left|done|]. cbn. rewrite Hrest. by eexists.
Qed.

Lemma addDeps_Ret_inv f id deps l d dk : addDeps f (tasks w) id deps = Ret l → d ∈ deps →
  tasks w !! d = Some dk → ∃ l', f (id_ dk) = Ret l'.
Proof.
  revert l. induction deps as [|d' deps IH]; intros l; cbn; [set_solver|].
  intros Hl Hd Hdk. destruct (tasks w !! d') as [dk'|] eqn:Hd'.
  - inv_outcome Hl. apply elem_of_cons in Hd as [->|Hd]; [|by eapply IH].
    rewrite Hd' in Hdk. injection Hdk as <-. by eexists.
  - apply elem_of_cons in Hd as [->|Hd]; [congruence|]. by eapply IH.
Qed.

(** From [id] a task that depends on itself can be reached. *)
Definition reaches_cycle (id : Z) : Prop := ∃ x, rtc dep_edge id x ∧ tc dep_edge x x.

(** Deep enough for every path without a repetition. *)
Lemma addNode_returns root fuel path id : ¬ reaches_cycle root → rtc dep_edge root id → NoDup path →
  (∀ x, x ∈ path → x ∈ dom (task_map_ (qm w)) ∧ tc dep_edge x id) →
  (size (task_map_ (qm w)) < fuel + length path)%nat → ∃ l, addNode fuel w id = Ret l.
Proof.
  intros Hacyc. revert path id. induction fuel as [|fuel IH]; intros path id Hroot Hnd Hpath Hfuel.
  - exfalso. assert (Hle : (length path ≤ size (dom (task_map_ (qm w))))%nat).
    { rewrite <-(size_list_to_set (C := gset Z) path) by done. apply subseteq_size.
      intros x Hx%elem_of_list_to_set. by apply Hpath. }
    rewrite size_dom in Hle. lia.
  - cbn. destruct (findTask id w) as [t|] eqn:Ht; [|by eexists].
    destruct (Hlive id t Ht) as [tk Htk]. rewrite Htk. cbn.
    destruct (addDeps_Ret (addNode fuel w) id (dependencies_ tk)) as [l ->]; [|by eexists].
    intros d dk Hd Hdk. assert (Hedge : dep_edge id (id_ dk)) by by exists t, tk, d, dk.
    apply (IH (id :: path)).
    + by eapply rtc_r.
    + apply NoDup_cons. split; [|done]. intros Hin. apply Hacyc. exists id. split; [done|by apply Hpath].
    + intros x [->|Hx]%elem_of_cons.
      * unfold findTask in Ht. split; [by apply elem_of_dom_2 in Ht|by apply tc_once].
      * split; [by apply Hpath|]. eapply tc_r; [by apply Hpath|done].
    + cbn. lia.
Qed.

Lemma reaches_cycle_step id : reaches_cycle id → ∃ id', dep_edge id id' ∧ reaches_cycle id'.
Proof.
  intros (x & Hr & Hc). destruct Hr as [x|id y x Hy Hr].
  - inversion Hc as [? ? Hx|? y ? Hy Hyx]; subst.
    + exists x. split; [done|]. by exists x.
    + exists y. split; [done|]. exists x. split; [by apply tc_rtc|done].
  - exists y. split; [done|]. by exists x.
Qed.

Lemma addNode_cycle fuel id : reaches_cycle id → addNode fuel w id = Diverge.
Proof.
  revert id. induction fuel as [|fuel IH]; intros id Hc; [done|].
  destruct (addNode_cases (S fuel) id) as [[l Hl]|Hl]; [|done]. exfalso.
  destruct (reaches_cycle_step id Hc) as (id' & (t & tk & d & dk & Ht & Htk & Hd & Hdk & <-) & Hc').
  cbn in Hl. rewrite Ht, Htk in Hl. cbn in Hl. inv_outcome Hl.
  destruct (addDeps_Ret_inv _ _ _ _ d dk E Hd Hdk) as [l' Hl']. by rewrite IH in Hl'.
Qed.

(** C32: The writer of the [graph] command returns exactly when no task reachable from the
    root over dependencies depends on itself: it keeps no set of visited tasks, and on
    a cycle the recursion of the lambda never ends, whatever the depth. *)
Theorem graph_returns_iff_acyclic root :
  ((∃ dot, cli_generateDOTGraph w root = Ret dot) ↔ ¬ reaches_cycle root) ∧
  (reaches_cycle root → ∀ depth, addNode depth w root = Diverge).
Proof.
  split; [split|].
  - intros [dot Hdot] Hc. unfold cli_generateDOTGraph in Hdot. by rewrite addNode_cycle in Hdot.
  - intros Hac. destruct (addNode_returns root (S (size (task_map_ (qm w)))) [] root) as [l Hl];
      [done|done|constructor|set_solver|cbn; lia|].
    unfold cli_generateDOTGraph. rewrite Hl. by eexists.
  - intros Hc depth. by apply addNode_cycle.
Qed.
End graph.
