(* ===== verification/TCPServer.v ===== *)
(** * TCPServer: sessions, dispatch and the request workers

    Models include/network/TCPServer.hpp and src/network/TCPServer.cpp.  The server
    is one state ([server]); every function that runs on the io thread, on a worker
    or on the monitor thread is a computation on it.  What happens between two of
    them is a [net_event], and [fire] is what the program does when it happens.

    Boost.Asio is used through its documented behaviour: an asynchronous operation
    started on a socket is an entry of the session's [io]; [async_read_until]
    completes once the buffer holds the delimiter, with the length up to the end of
    its first occurrence; [async_read] with [transfer_at_least(n)] once [n] more bytes
    are there; either may have read more than that.  The chunks in which the bytes
    arrive are part of the events.  A written message is taken as it was when
    [async_write] was called.

    A Session object lives while [sessions_] or a pending operation (which captures
    [self]) refers to it; a queued request holds a plain [this].  A command is run as
    one step, and so is each section that holds a lock.

    Parameters, besides those of CLICommands.v: [metrics_to_json], the conversion of a
    map of doubles to JSON, and [load_tls], whether OpenSSL accepts the two files. *)

From Stdlib Require Import Ascii.
From S2P Require Import Prelude Text Json Effects Task NodeQueue LockFree SkipList QueueManager Storage CLICommands.

Definition WORKER_THREADS : nat := 32.

Definition crlf : string := String (ascii_of_nat 13) (String (ascii_of_nat 10) EmptyString).

(** The delimiter of [readHeader]. *)
Definition header_end : string := crlf +:+ crlf.

(** ** Data *)

(** An asynchronous operation on the socket of a session. *)
Inductive io_op : Type :=
| ReadUntil
| ReadAtLeast (content_length : Z)
| WriteMessage (message : string).

Record Session : Type := mkSession {
  read_buffer_ : string;
  active_ : bool;
  request_count_ : Z;
  last_activity_ : Z;
  io : list io_op
}.

Definition set_buffer (b : string) (x : Session) : Session :=
  mkSession b (active_ x) (request_count_ x) (last_activity_ x) (io x).
Definition set_session_active (a : bool) (x : Session) : Session :=
  mkSession (read_buffer_ x) a (request_count_ x) (last_activity_ x) (io x).
Definition set_io (l : list io_op) (x : Session) : Session :=
  mkSession (read_buffer_ x) (active_ x) (request_count_ x) (last_activity_ x) l.

(** The atomic counters of the server. *)
Record ServerCounters : Type := mkServerCounters {
  total_connections_ : Z;
  active_connections_ : Z;
  total_requests_ : Z;
  request_errors_ : Z;
  total_response_time_ms_ : Z
}.

(** What a command handler can reach: the commands and, for [metrics], the counters. *)
Record core `{RocksDB} : Type := mkCore {
  k_cli : cli;
  k_counters : ServerCounters
}.

Definition CommandHandler `{JsonLib} `{RocksDB} : Type := json → M core json.

(** The closure [handleMessage] queues. *)
Record work `{JsonLib} : Type := mkWork {
  w_session : loc;
  w_command : string;
  w_params : json;
  w_start : Z
}.

(** A worker thread: at the head of its loop, in the wait of its critical section, in
    [executeCommand], about to call [writeResponse], or returned. *)
Inductive worker `{JsonLib} : Type :=
| AtLoop
| Waiting
| Executing (w : work)
| Replying (w : work) (response : json)
| Exited.

Record server `{J : JsonLib} `{R : RocksDB} : Type := mkServer {
  s_core : core;
  command_handlers_ : gmap string CommandHandler;
  running_ : bool;
  tls_enabled_ : bool;
  (** the acceptor is open, and an [async_accept] is outstanding *)
  listening : bool;
  accepting : bool;
  (** the keys of [sessions_], and the objects that are alive *)
  sessions_ : gset loc;
  objects : gmap loc Session;
  work_queue_ : list work;
  workers_running_ : bool;
  worker_threads_ : list worker
}.

Section updates.
Context `{J : JsonLib} `{R : RocksDB}.

Definition set_core (k : core) (x : server) : server :=
  mkServer _ _ k (command_handlers_ x) (running_ x) (tls_enabled_ x) (listening x) (accepting x)
    (sessions_ x) (objects x) (work_queue_ x) (workers_running_ x) (worker_threads_ x).
Definition set_handlers (h : gmap string CommandHandler) (x : server) : server :=
  mkServer _ _ (s_core x) h (running_ x) (tls_enabled_ x) (listening x) (accepting x)
    (sessions_ x) (objects x) (work_queue_ x) (workers_running_ x) (worker_threads_ x).
Definition set_running (b : bool) (x : server) : server :=
  mkServer _ _ (s_core x) (command_handlers_ x) b (tls_enabled_ x) (listening x) (accepting x)
    (sessions_ x) (objects x) (work_queue_ x) (workers_running_ x) (worker_threads_ x).
Definition set_tls (b : bool) (x : server) : server :=
  mkServer _ _ (s_core x) (command_handlers_ x) (running_ x) b (listening x) (accepting x)
    (sessions_ x) (objects x) (work_queue_ x) (workers_running_ x) (worker_threads_ x).
Definition set_accepting (l a : bool) (x : server) : server :=
  mkServer _ _ (s_core x) (command_handlers_ x) (running_ x) (tls_enabled_ x) l a
    (sessions_ x) (objects x) (work_queue_ x) (workers_running_ x) (worker_threads_ x).
Definition set_sessions (ss : gset loc) (x : server) : server :=
  mkServer _ _ (s_core x) (command_handlers_ x) (running_ x) (tls_enabled_ x) (listening x) (accepting x)
    ss (objects x) (work_queue_ x) (workers_running_ x) (worker_threads_ x).
Definition set_objects (os : gmap loc Session) (x : server) : server :=
  mkServer _ _ (s_core x) (command_handlers_ x) (running_ x) (tls_enabled_ x) (listening x) (accepting x)
    (sessions_ x) os (work_queue_ x) (workers_running_ x) (worker_threads_ x).
Definition set_work (ws : list work) (x : server) : server :=
  mkServer _ _ (s_core x) (command_handlers_ x) (running_ x) (tls_enabled_ x) (listening x) (accepting x)
    (sessions_ x) (objects x) ws (workers_running_ x) (worker_threads_ x).
Definition set_workers_running (b : bool) (x : server) : server :=
  mkServer _ _ (s_core x) (command_handlers_ x) (running_ x) (tls_enabled_ x) (listening x) (accepting x)
    (sessions_ x) (objects x) (work_queue_ x) b (worker_threads_ x).
Definition set_workers (ts : list worker) (x : server) : server :=
  mkServer _ _ (s_core x) (command_handlers_ x) (running_ x) (tls_enabled_ x) (listening x) (accepting x)
    (sessions_ x) (objects x) (work_queue_ x) (workers_running_ x) ts.

Definition with_counters (f : ServerCounters → ServerCounters) (x : server) : server :=
  set_core (mkCore _ (k_cli (s_core x)) (f (k_counters (s_core x)))) x.
End updates.

(** ** Messages *)

(** The lambda of [readHeader]: the length announced by a header. *)
Definition header_content_length (header : string) : outcome Z :=
  match find "Content-Length:" header with
  | Some pos => stoul (str_drop (pos + 15) header)
  | None => Ret 0
  end.

(** The text [writeResponse] sends for a response. *)
Definition response_message (response_str : string) : string :=
  "HTTP/1.1 200 OK" +:+ crlf +:+ "Content-Type: application/json" +:+ crlf +:+ "Content-Length: "
    +:+ to_string (str_len response_str) +:+ crlf +:+ "Connection: keep-alive" +:+ crlf +:+ crlf
    +:+ response_str.

(** [steady_clock::now() - last_activity_ < minutes(5)] *)
Definition isActive (now : Z) (x : Session) : bool :=
  active_ x && bool_decide (now - last_activity_ x < 300000000000).

(** ** Commands *)

Section commands.
Context `{J : JsonLib} `{R : RocksDB} `{SL : SearchLoop}.
Context (markCancelled : Z → Task → Task) (execute : Task → outcome unit).
Context (tasks_to_json : list Task → json) (order : nat → list nat).

(** The chain of comparisons in [executeCommand]. *)
Definition builtin (e : env) (name : string) (params : json) : option (M cli json) :=
  if decide (name = "enqueue") then Some (cli_enqueue e params)
  else if decide (name = "dequeue") then Some (cli_dequeue e params)
  else if decide (name = "run") then Some (cli_run execute e params)
  else if decide (name = "cancel") then Some (cli_cancel markCancelled e params)
  else if decide (name = "kill") then Some (cli_kill e params)
  else if decide (name = "status") then Some (cli_status params)
  else if decide (name = "list") then Some (cli_list tasks_to_json order e params)
  else if decide (name = "clear") then Some (cli_clear params)
  else if decide (name = "setMode") then Some (cli_setMode e params)
  else if decide (name = "setConcurrency") then Some (cli_setConcurrency params)
  else if decide (name = "setRetry") then Some (cli_setRetry e params)
  else if decide (name = "setDelay") then Some (cli_setDelay e params)
  else if decide (name = "setSchedule") then Some (cli_setSchedule e params)
  else if decide (name = "depend") then Some (cli_depend e params)
  else if decide (name = "graph") then Some (cli_graph params)
  else if decide (name = "ready") then Some (cli_ready e params)
  else if decide (name = "connect") then Some (cli_connect params)
  else if decide (name = "submit") then Some (cli_submit e params)
  else if decide (name = "exportTask") then Some (cli_exportTask params)
  else if decide (name = "importTask") then Some (cli_importTask e params)
  else None.

Definition on_cli {A} (m : M cli A) : M core A :=
  zoom k_cli (λ c k, mkCore _ c (k_counters k)) m.

Definition execution_error (what : string) : M core json :=
  mret (response_error ("Command execution error: " +:+ what)).

Definition executeCommand (handlers : gmap string CommandHandler) (e : env) (name : string)
    (params : json) : M core json :=
  match handlers !! name with
  | Some handler => try_catch (handler params) execution_error
  | None =>
      match builtin e name params with
      | Some m => try_catch (on_cli m) execution_error
      | None => mret (response_error ("Unknown command: " +:+ name))
      end
  end.
End commands.

(** ** Metrics *)

Definition server_getMetrics `{RocksDB} (k : core) : gmap string metric :=
  let c := k_counters k in
  let total_reqs := total_requests_ c in
  let own : gmap string metric :=
    {["active_connections" := FromInt (active_connections_ c);
      "total_connections" := FromInt (total_connections_ c);
      "total_requests" := FromInt (total_requests_ c);
      "request_errors" := FromInt (request_errors_ c);
      "avg_response_time_ms" :=
        if decide (0 < total_reqs) then Quotient (total_response_time_ms_ c) total_reqs else FromInt 0]} in
  getMetrics (qm (c_world (k_cli k))) ∪ own.

Definition registerCommand `{JsonLib} `{RocksDB} (name : string) (handler : CommandHandler)
    (handlers : gmap string CommandHandler) : gmap string CommandHandler :=
  <[name := handler]> handlers.

Definition registerDefaultHandlers `{JsonLib} `{RocksDB} (metrics_to_json : gmap string metric → json)
    (handlers : gmap string CommandHandler) : gmap string CommandHandler :=
  registerCommand "metrics" (λ _, k ← get_state; mret (metrics_to_json (server_getMetrics k))) handlers.

(** The constructor, once the acceptor listens. *)
Definition new_TCPServer `{JsonLib} `{RocksDB} (metrics_to_json : gmap string metric → json) (c : cli)
    : server :=
  mkServer _ _ (mkCore _ c (mkServerCounters 0 0 0 0 0)) (registerDefaultHandlers metrics_to_json ∅)
    false false true false ∅ ∅ [] false [].

(** ** Sessions *)

Section sessions.
Context `{J : JsonLib} `{R : RocksDB}.

Abbreviation srv := (M server).

Definition counters_update (f : ServerCounters → ServerCounters) : srv unit := modify (with_counters f).

Definition updateRequestMetrics (response_time_ms : Z) : srv unit :=
  counters_update (λ c, mkServerCounters (total_connections_ c) (active_connections_ c)
    (w64 (total_requests_ c + 1)) (request_errors_ c) (w64 (total_response_time_ms_ c + response_time_ms))).

(** Milliseconds between two readings of the clock. *)
Definition elapsed (start_time end_time : Z) : Z := w64 (Z.quot (end_time - start_time) 1000000).

(** The members of the Session at [s]; it must be alive. *)
Definition session (s : loc) : srv Session := x ← get_state; lift (deref (objects x !! s)).

Definition update_session (s : loc) (f : Session → Session) : srv unit :=
  modify (λ x, set_objects (alter f s (objects x)) x).

Definition start_io (s : loc) (o : io_op) : srv unit := update_session s (λ x, set_io (io x ++ [o]) x).

Definition queueWork (w : work) : srv unit := modify (λ x, set_work (work_queue_ x ++ [w]) x).

Definition new_Session (now : Z) : Session := mkSession "" false 0 now [].

Definition Session_stop (s : loc) : srv unit := update_session s (set_session_active false).

Definition readHeader (s : loc) : srv unit :=
  x ← session s; if active_ x then start_io s ReadUntil else mret tt.

Definition Session_start (s : loc) : srv unit := update_session s (set_session_active true) ;; readHeader s.

Definition writeResponse (s : loc) (response : json) : srv unit :=
  x ← session s;
  if active_ x then
    response_str ← lift (json_dump response);
    start_io s (WriteMessage (response_message response_str))
  else mret tt.

(** The [try] block of [handleMessage] up to [queueWork]: the command and its
    parameters, or nothing when the request names no command. *)
Definition parse_request (message : string) : outcome (option (string * json)) :=
  request ← json_parse message;
  if json_contains request "command" then
    command ← json_index request "command";
    if json_is_string command then
      command ← json_get_string command;
      params ← json_value Ret request "params" (json_object []);
      Ret (Some (command, params))
    else Ret None
  else Ret None.

(** [handleMessage] reads the clock at its beginning ([now]) and, when it answers
    itself, at its end; an exception of the [try] block is answered too. *)
Definition handleMessage (now end_time : Z) (s : loc) (message : string) : srv unit :=
  x ← session s;
  if active_ x then
    update_session s (λ x, mkSession (read_buffer_ x) (active_ x) (w64 (request_count_ x + 1)) now (io x)) ;;
    let answer response := updateRequestMetrics (elapsed now end_time) ;; writeResponse s response in
    match parse_request message with
    | Ret (Some (command, params)) => queueWork (mkWork _ s command params now)
    | Ret None => answer (response_error "Invalid request format - missing command")
    | Throw what => answer (response_error ("Error parsing request: " +:+ what))
    | Undef => undef
    | Diverge => lift Diverge
    end
  else mret tt.

(** The end of [readBody] and its lambda: the body is in the buffer. *)
Definition take_body (now end_time : Z) (s : loc) (content_length : Z) : srv unit :=
  x ← session s;
  let n := Z.to_nat content_length in
  update_session s (set_buffer (str_drop n (read_buffer_ x))) ;;
  handleMessage now end_time s (str_take n (read_buffer_ x)).

Definition readBody (now end_time : Z) (s : loc) (content_length : Z) : srv unit :=
  x ← session s;
  if active_ x then
    if decide (content_length ≤ str_len (read_buffer_ x)) then take_body now end_time s content_length
    else start_io s (ReadAtLeast content_length)
  else mret tt.

(** The lambda of [readHeader], without an error. *)
Definition on_header (now end_time : Z) (s : loc) (length : nat) : srv unit :=
  x ← session s;
  let header := str_take length (read_buffer_ x) in
  update_session s (set_buffer (str_drop length (read_buffer_ x))) ;;
  content_length ← lift (header_content_length header);
  if decide (0 < content_length) then readBody now end_time s content_length
  else handleMessage now end_time s "{}".

(** ** The server *)

Definition acceptConnection : srv unit :=
  modify (λ x, if running_ x then set_accepting (listening x) true x else x).

Definition handleAccept (now : Z) (error : bool) : srv unit :=
  x ← get_state;
  if running_ x then
    (if error then mret tt
     else
       let s := fresh (dom (objects x)) in
       modify (λ x, set_sessions ({[s]} ∪ sessions_ x) (set_objects (<[s := new_Session now]> (objects x)) x)) ;;
       counters_update (λ c, mkServerCounters (w64 (total_connections_ c + 1)) (w64 (active_connections_ c + 1))
         (total_requests_ c) (request_errors_ c) (total_response_time_ms_ c)) ;;
       Session_start s) ;;
    acceptConnection
  else mret tt.

(** The keys of [sessions_] all refer to an object, so the test for null never holds. *)
Definition cleanupInactiveSessions (now : Z) : srv unit := act (λ x,
  let inactive s := match objects x !! s with Some ses => negb (isActive now ses) | None => true end in
  let erased := filter (λ s, inactive s = true) (sessions_ x) in
  let x := set_sessions (sessions_ x ∖ erased) x in
  (tt, with_counters (λ c, mkServerCounters (total_connections_ c)
         (w64 (active_connections_ c - Z.of_nat (size erased))) (total_requests_ c) (request_errors_ c)
         (total_response_time_ms_ c)) x)).

Definition startWorkerThreads : srv unit := modify (λ x,
  set_workers (worker_threads_ x ++ replicate WORKER_THREADS AtLoop) (set_workers_running true x)).

(** Up to the calls of [join]. *)
Definition stopWorkerThreads : srv unit := modify (λ x, set_work [] (set_workers_running false x)).

Definition server_start : srv unit :=
  x ← get_state;
  if running_ x then mret tt
  else modify (set_running true) ;; acceptConnection ;; startWorkerThreads.

Definition server_stop : srv unit :=
  x ← get_state;
  if running_ x then
    modify (λ x, set_accepting false false (set_running false x)) ;;
    mapM_ Session_stop (elements (sessions_ x)) ;;
    modify (set_sessions ∅) ;;
    stopWorkerThreads
  else mret tt.

Definition isRunning (x : server) : bool := running_ x.

Definition getActiveConnections (x : server) : Z := active_connections_ (k_counters (s_core x)).

Definition configureTLS (load_tls : string → string → bool) (cert_file key_file : string) : srv unit :=
  modify (set_tls (load_tls cert_file key_file)).

Definition isTLSEnabled (x : server) : bool := tls_enabled_ x.

(** The destructor of every session that nothing refers to any more. *)
Definition reap : srv unit := modify (λ x,
  set_objects (filter (λ o, o.1 ∈ sessions_ x ∨ io o.2 ≠ []) (objects x)) x).
End sessions.

(** ** What can happen *)

Inductive net_event : Type :=
| EAccept (now : Z) (error : bool)
(** bytes arrive for a pending read of [s] *)
| EReceive (s : loc) (bytes : string) (now end_time : Z)
(** a pending operation of [s] fails *)
| EIoError (s : loc)
| EWritten (s : loc)
(** worker [i]: a step of its loop, the command, the reply *)
| EWorkerStep (i : nat)
| EWorkerRun (i : nat) (e : env) (end_time : Z)
| EWorkerReply (i : nat)
| EMonitor (now : Z)
| EStop.

Section events.
Context `{J : JsonLib} `{R : RocksDB} `{SL : SearchLoop}.
Context (markCancelled : Z → Task → Task) (execute : Task → outcome unit).
Context (tasks_to_json : list Task → json) (order : nat → list nat).

Abbreviation srv := (M server).

(** The first pending operation of a session. *)
Definition pending (s : loc) (x : server) : option (io_op * Session) :=
  ses ← objects x !! s;
  match io ses with
  | [] => None
  | o :: l => Some (o, set_io l ses)
  end.

Definition receive (now end_time : Z) (s : loc) (bytes : string) : srv unit :=
  x ← get_state;
  match pending s x with
  | Some (ReadUntil, ses) =>
      let buffer := read_buffer_ ses +:+ bytes in
      match find header_end buffer with
      | Some pos =>
          modify (λ x, set_objects (<[s := set_buffer buffer ses]> (objects x)) x) ;;
          on_header now end_time s (pos + 4)
      | None => update_session s (set_buffer buffer)
      end
  | Some (ReadAtLeast n, ses) =>
      let buffer := read_buffer_ ses +:+ bytes in
      if decide (n ≤ str_len buffer) then
        modify (λ x, set_objects (<[s := set_buffer buffer ses]> (objects x)) x) ;;
        take_body now end_time s n
      else update_session s (set_buffer buffer)
  | _ => mret tt
  end.

(** Every lambda calls [stop] when its operation fails. *)
Definition io_error (s : loc) : srv unit :=
  x ← get_state;
  match pending s x with
  | Some (_, ses) =>
      modify (λ x, set_objects (<[s := ses]> (objects x)) x) ;; Session_stop s
  | None => mret tt
  end.

(** The lambda of [writeResponse], without an error. *)
Definition on_write (s : loc) : srv unit :=
  x ← get_state;
  match pending s x with
  | Some (WriteMessage _, ses) =>
      modify (λ x, set_objects (<[s := ses]> (objects x)) x) ;; readHeader s
  | _ => mret tt
  end.

Definition set_worker (i : nat) (t : worker) : srv unit :=
  modify (λ x, set_workers (<[i := t]> (worker_threads_ x)) x).

(** [workerThreadFunction] up to the call of [work()]: a thread leaves its loop when
    the server has stopped; in the critical section it blocks while the server runs
    and there is no work, and takes the last element of the queue otherwise. *)
Definition server_worker_step (i : nat) : srv unit :=
  x ← get_state;
  match worker_threads_ x !! i with
  | Some AtLoop => set_worker i (if workers_running_ x then Waiting else Exited)
  | Some Waiting =>
      match last (work_queue_ x) with
      | Some w => modify (set_work (removelast (work_queue_ x))) ;; set_worker i (Executing w)
      | None => if workers_running_ x then mret tt else set_worker i Exited
      end
  | _ => mret tt
  end.

(** [work()]: the lambda of [handleMessage] up to [writeResponse]. *)
Definition worker_run (e : env) (end_time : Z) (i : nat) : srv unit :=
  x ← get_state;
  match worker_threads_ x !! i with
  | Some (Executing w) =>
      session (w_session w) ;;
      cmd_response ← zoom s_core set_core
        (executeCommand markCancelled execute tasks_to_json order (command_handlers_ x) e (w_command w)
           (w_params w));
      updateRequestMetrics (elapsed (w_start w) end_time) ;;
      set_worker i (Replying w cmd_response)
  | _ => mret tt
  end.

(** Its last call.  An exception in a worker thread ends the program. *)
Definition worker_reply (i : nat) : srv unit :=
  x ← get_state;
  match worker_threads_ x !! i with
  | Some (Replying w response) =>
      try_catch (writeResponse (w_session w) response) (λ _, undef) ;;
      set_worker i AtLoop
  | _ => mret tt
  end.

Definition monitor (now : Z) : srv unit :=
  x ← get_state; if running_ x then cleanupInactiveSessions now else mret tt.

Definition accept (now : Z) (error : bool) : srv unit :=
  x ← get_state;
  if accepting x then modify (λ x, set_accepting (listening x) false x) ;; handleAccept now error
  else mret tt.

Definition fire (ev : net_event) : srv unit :=
  match ev with
  | EAccept now error => accept now error
  | EReceive s bytes now end_time => receive now end_time s bytes
  | EIoError s => io_error s
  | EWritten s => on_write s
  | EWorkerStep i => server_worker_step i
  | EWorkerRun i e end_time => worker_run e end_time i
  | EWorkerReply i => worker_reply i
  | EMonitor now => monitor now
  | EStop => server_stop
  end ;;
  reap.

Definition run_events (evs : list net_event) : srv unit := mapM_ fire evs.
End events.
