(* ===== verification/CLIReplies.v ===== *)
(** * The replies of the commands

    [executeCommand] never ends in an exception, and an answer of a built-in command is
    an object with a status and, for an error, a message. *)

From S2P Require Import Prelude Text Json Effects Task Dot NodeQueue LockFree SkipList QueueManager Storage Regex CLICommands TCPServer.

Section replies.
Context `{J : JsonLib} `{L : !JsonLaws J} `{R : RocksDB} `{SL : SearchLoop}.
Context (markCancelled : Z → Task → Task) (execute : Task → outcome unit).
Context (tasks_to_json : list Task → json) (order : nat → list nat).

Local Abbreviation executeCommand := (executeCommand markCancelled execute tasks_to_json order).
Local Abbreviation builtin := (builtin markCancelled execute tasks_to_json order).

(** ** The shape of a reply *)

Definition is_error (r : json) : Prop :=
  json_at r "status" = Ret (text "error") ∧ ∃ message, json_at r "message" = Ret (text message).

Definition is_success (r : json) : Prop := json_at r "status" = Ret (text "success").

Definition reply_ok (r : json) : Prop := is_success r ∨ is_error r.

Lemma response_error_ok message : is_error (response_error message).
Proof.
  unfold response_error. split; [|exists message]; apply json_object_at; cbn; [|set_solver| |set_solver];
    by repeat (constructor; [set_solver|]); constructor.
Qed.

Lemma response_success_ok extra : NoDup ("status" :: extra.*1) → is_success (response_success extra).
Proof. intros Hnd. unfold response_success. apply json_object_at; [done|left]. Qed.

Lemma response_either_ok (b : bool) a c :
  reply_ok (json_object [("status", text (if b then "success" else "error")); ("message", text (if b then a else c))]).
Proof.
  assert (Hnd : ∀ (v v' : json), NoDup [("status", v); ("message", v')].*1).
  { intros. by repeat (constructor; [set_solver|]); constructor. }
  destruct b; [left|right; split; [|exists c]]; apply json_object_at; auto; set_solver.
Qed.

(** A handler whose result satisfies [Q]. *)
Local Abbreviation returns := (hoare (λ _ : cli, True)).

Lemma guarded_returns (Q : json → Prop) body : (∀ what, Q (response_error what)) → returns body Q →
  returns (guarded body) Q.
Proof.
  intros HQ Hb. unfold guarded. eapply hoare_bind.
  - apply hoare_try; [exact Hb|]. intros w. by apply hoare_ret.
  - intros r Hr. apply hoare_seq; [apply hoare_true|]. intros _. by apply hoare_ret.
Qed.

Lemma guarded_never_throws body c what : (guarded body c).1 ≠ Throw what.
Proof.
  unfold guarded, try_catch, mbind, M_bind. destruct (body c) as [[r|w| |] c']; done.
Qed.

Ltac replies :=
  repeat lazymatch goal with
  | |- hoare _ (guarded _) _ => apply guarded_returns; [intros; right; apply response_error_ok|]
  | |- hoare _ (_ ≫= _) _ => apply hoare_seq; [apply hoare_true|intros ?]
  | |- hoare _ (match _ with _ => _ end) _ => case_match
  | |- hoare _ (let _ := _ in _) _ => cbn zeta
  | |- hoare _ (mret (response_error _)) _ => apply hoare_ret; right; apply response_error_ok
  | |- hoare _ (mret (response_success _)) _ => apply hoare_ret; left; apply response_success_ok;
      cbn; by repeat (constructor; [set_solver|]); constructor
  | |- hoare _ (mret (json_object _)) _ => apply hoare_ret, response_either_ok
  end.

Lemma cli_enqueue_replies e params : returns (cli_enqueue e params) reply_ok.
Proof. unfold cli_enqueue, enqueue_task. replies. Qed.

Lemma builtin_replies e name params m : builtin e name params = Some m →
  returns m reply_ok ∧ ∀ c what, (m c).1 ≠ Throw what.
Proof.
  unfold TCPServer.builtin. intros Hm.
  repeat (case_decide; [injection Hm as <-; split; [|intros; apply guarded_never_throws || done]|]); [..|done].
  all: unfold cli_dequeue, cli_run, cli_cancel, cli_kill, cli_status, cli_list, cli_clear, cli_setMode,
    cli_setConcurrency, cli_setRetry, cli_setDelay, cli_setSchedule, cli_depend, cli_graph, cli_ready, cli_connect,
    cli_submit, cli_exportTask, cli_importTask; replies; apply cli_enqueue_replies.
Qed.

(** C9: [executeCommand] never ends in an exception, whatever the name, the parameters and
    the registered handlers; an answer to a name without a registered handler is an
    object whose status is "success", or "error" with a message. *)
Theorem replies_well_formed handlers e name params k :
  (∀ what, (executeCommand handlers e name params k).1 ≠ Throw what) ∧
  (handlers !! name = None → ∀ r, (executeCommand handlers e name params k).1 = Ret r → reply_ok r).
Proof.
  unfold TCPServer.executeCommand, execution_error. destruct (handlers !! name) as [h|].
  { split; [|done]. intros what. unfold try_catch. by destruct (h params k) as [[]]. }
  destruct (builtin e name params) as [m|] eqn:Hm.
  - destruct (builtin_replies e name params m Hm) as [Hr Hthrow]. specialize (Hr (k_cli k) I).
    unfold try_catch, on_cli, zoom. specialize (Hthrow (k_cli k)). destruct (m (k_cli k)) as [[r|w| |] c]; cbn in *.
    + split; [done|]. intros _ r' [= <-]. by apply Hr.
    + by destruct (Hthrow w).
    + by split.
    + by split.
  - split; [done|]. intros _ r [= <-]. right. apply response_error_ok.
Qed.
End replies.
