(* ===== verification/CLIStatus.v ===== *)
(** * What the commands never do

    Invariants of the command handlers over every sequence of commands: a task that
    was not imported stays CREATED, so that [cancel] and [kill] always fail, and no
    storage of the pool is ever opened, so that [enqueue] and [list] never succeed. *)

From S2P Require Import Prelude Text Json Effects Task Dot NodeQueue LockFree SkipList QueueManager Storage Regex CLICommands TCPServer CLIReplies.

Section status.
Context `{J : JsonLib} `{L : !JsonLaws J} `{R : RocksDB} `{SL : SearchLoop}.
Context (markCancelled : Z → Task → Task) (execute : Task → outcome unit).
Context (tasks_to_json : list Task → json) (order : nat → list nat).

(** ** The manager keeps the status of every task *)

Definition tasks_created (w : world) : Prop := map_Forall (λ _ tk, status_ tk = CREATED) (tasks w).

Lemma created_insert w t tk h m : tasks_created w → status_ tk = CREATED →
  tasks_created (mkWorld h (<[t := tk]> (tasks w)) m).
Proof. intros Hw Htk. by apply map_Forall_insert_2. Qed.

Lemma created_same w h m : tasks_created w → tasks_created (mkWorld h (tasks w) m).
Proof. done. Qed.

Lemma created_deref w t tk : tasks_created w → deref (tasks w !! t) = Ret tk → status_ tk = CREATED.
Proof. intros Hw. destruct (tasks w !! t) as [tk'|] eqn:E; [|done]. intros [= <-]. by eapply Hw. Qed.

Lemma enqueue_created e t group w w' : tasks_created w → enqueue e t group w = Ret w' → tasks_created w'.
Proof.
  intros Hw. unfold enqueue. destruct t as [t|]; [|by intros [= <-]]. intros H. inv_outcome H.
  destruct (new_TaskNode _ _). inv_outcome H. destruct a0 as [h qs]. injection H as <-. apply created_insert; [done|]. cbn. by eapply created_deref.
Qed.

Lemma dequeue_created e w o w' : tasks_created w → dequeue e w = Ret (o, w') → tasks_created w'.
Proof.
  intros Hw. unfold dequeue. destruct (qm_empty _); [by intros [= _ <-]|]. intros H. inv_outcome H.
  destruct a as [[[t|] index] s]; inv_outcome H; injection H as <- <-; [|done]. apply created_insert; [done|]. cbn.
  by eapply created_deref.
Qed.

Lemma cancelTask_created e id w b w' : tasks_created w → cancelTask markCancelled e id w = Ret (b, w') →
  tasks_created w' ∧ b = false.
Proof.
  intros Hw. unfold cancelTask. destruct (findTask id w) as [t|]; [|by intros [= <- <-]].
  intros H. inv_outcome H. pose proof (created_deref _ _ _ Hw E) as Hst.
  rewrite decide_False in H by congruence. by injection H as <- <-.
Qed.

Lemma setMode_created e mode w w' : tasks_created w → setMode e mode w = Ret w' → tasks_created w'.
Proof.
  intros Hw. unfold setMode. case_decide; [by intros [= <-]|]. intros Hm. inv_outcome Hm.
  destruct a as [h l]. inv_outcome Hm. destruct a as [h' qs]. by injection Hm as <-.
Qed.

(** ** Handlers *)

Definition created (c : cli) : Prop := tasks_created (c_world c).

Lemma on_world_created {A} (f : world → outcome (A * world)) (Q : A → Prop) :
  (∀ w a w', tasks_created w → f w = Ret (a, w') → tasks_created w' ∧ Q a) → hoare created (on_world f) Q.
Proof.
  intros Hf c Hc. unfold on_world. destruct (f (c_world c)) as [[a w']|w| |] eqn:E; cbn; try (by split).
  destruct (Hf _ _ _ Hc E). split; [done|]. by intros ? [= <-].
Qed.

Lemma read_task_created t : hoare created (read_task t) (λ tk, status_ tk = CREATED).
Proof.
  unfold read_task. apply hoare_read. intros c Hc. eapply hoare_weaken; [apply hoare_lift|].
  intros tk. by apply created_deref.
Qed.

Lemma write_task_created t tk : status_ tk = CREATED → hoare created (write_task t tk) (λ _, True).
Proof. intros Htk. apply hoare_modify. intros c Hc. by apply created_insert. Qed.

Lemma new_task_created now name p : hoare created (new_task now name p) (λ _, True).
Proof. apply hoare_act. intros c Hc. by apply created_insert. Qed.

Lemma release_created : hoare created release (λ _, True).
Proof. apply hoare_modify. intros c Hc. intros t tk [Ht _]%map_lookup_filter_Some. by eapply Hc. Qed.

Lemma on_pool_created {A} i (m : M sys A) : hoare created (on_pool i m) (λ _, True).
Proof. intros c Hc. unfold on_pool. destruct (c_pool c !! i); [|done]. by destruct (m _). Qed.

Lemma on_storage_created {A} (m : M sys A) : hoare created (on_storage m) (λ _, True).
Proof. intros c Hc. unfold on_storage. by destruct (m _). Qed.

Lemma getStorageFromPool_created : hoare created getStorageFromPool (λ _, True).
Proof. by apply hoare_act. Qed.

Lemma write_file_created f s : hoare created (write_file f s) (λ _, True).
Proof. by apply hoare_modify. Qed.

Lemma guarded_created body (Q : json → Prop) : (∀ what, Q (response_error what)) → hoare created body Q →
  hoare created (guarded body) Q.
Proof.
  intros HQ Hb. unfold guarded. eapply hoare_bind.
  - apply hoare_try; [exact Hb|]. intros w. by apply hoare_ret.
  - intros r Hr. apply hoare_seq; [apply release_created|]. intros _. by apply hoare_ret.
Qed.

Create HintDb created.
#[local] Hint Resolve new_task_created release_created getStorageFromPool_created write_file_created
  hoare_lift_any hoare_ret_any hoare_gets on_pool_created on_storage_created : created.

(** Walk through a handler; what it writes into a task is left. *)
Ltac walk :=
  repeat lazymatch goal with
  | |- hoare _ (guarded _) _ => apply guarded_created; [done|]
  | |- hoare _ (read_task _ ≫= _) _ => eapply hoare_bind; [apply read_task_created|let Htk := fresh "Htk" in intros ?tk Htk; cbv beta in Htk]
  | |- hoare _ (lift _ ≫= _) _ => eapply hoare_bind; [apply hoare_lift|let Hv := fresh "Hv" in intros ?v Hv; cbv beta in Hv]
  | |- hoare _ (_ ≫= _) _ => apply hoare_seq; [|intros ?]
  | |- hoare _ (match _ with _ => _ end) _ => case_match
  | |- hoare _ (let _ := _ in _) _ => cbn zeta
  | |- hoare _ (write_task _ _) _ => apply write_task_created
  | |- hoare _ (on_world _) _ => apply on_world_created; intros ?w ?a ?w' ?Hw ?Hrun; split; [|done]
  | |- hoare _ _ _ => solve [auto 1 with created nocore]
  end.

Lemma save_in_pool_created e t : hoare created (save_in_pool e t) (λ _, True).
Proof. unfold save_in_pool, task_store. walk. Qed.

Lemma update_in_pool_created e id st : hoare created (update_in_pool e id st) (λ _, True).
Proof. unfold update_in_pool. walk. Qed.

Lemma logEvent_created e id a b : hoare created (logEvent e id a b) (λ _, True).
Proof. unfold logEvent. walk. Qed.

#[local] Hint Resolve save_in_pool_created update_in_pool_created logEvent_created : created.

Lemma enqueue_world_created e t group w (a : unit) w' : tasks_created w →
  (w ← enqueue e t group w; Ret (tt, w)) = Ret (a, w') → tasks_created w'.
Proof. intros Hw H. inv_outcome H. injection H as <- <-. by eapply enqueue_created. Qed.

Lemma cli_enqueue_created e params : hoare created (cli_enqueue e params) (λ _, True).
Proof.
  unfold cli_enqueue, enqueue_task, param_string. walk; [done|]. by eapply enqueue_world_created.
Qed.

(** A task that is CREATED is not started or completed. *)
Lemma markStarted_keeps now tk : status_ tk = CREATED → status_ (markStarted now tk) = CREATED.
Proof. intros Htk. unfold markStarted, cas_status. by rewrite decide_False by congruence. Qed.

Lemma markCompleted_keeps now tk : status_ tk = CREATED → status_ (markCompleted now tk) = CREATED.
Proof. intros Htk. unfold markCompleted, cas_status. by rewrite decide_False by congruence. Qed.

(** [fromJson] takes the status of the value, or leaves it. *)
Lemma fromJson_status j tk : get_num I32 j "status" = Ret 0 → status_ tk = CREATED →
  status_ (fromJson j tk).1 = CREATED.
Proof.
  intros Hj Htk. unfold fromJson, assign. rewrite Hj. by repeat (case_match; cbn in *; try done).
Qed.

Lemma schedule_status store tk j j' s : status_ tk = CREATED → toJson store tk = Ret j →
  json_set j "schedule" (text s) = Ret j' → get_num I32 j' "status" = Ret 0.
Proof.
  intros Htk Hj Hset. destruct (toJson_holds store tk) as (j0 & Hj0 & [Hobj Hat]).
  rewrite Hj in Hj0. injection Hj0 as <-. unfold get_num.
  rewrite (json_at_set_ne j "schedule" "status" _ j' Hobj) by done.
  rewrite (Hat "status" (json_of_num 0)) by (unfold json_entries; rewrite Htk; done).
  cbn. rewrite json_get_num by lia. done.
Qed.

Lemma cli_setSchedule_created e params : hoare created (cli_setSchedule e params) (λ _, True).
Proof.
  unfold cli_setSchedule, param_id, param_string, find_task, task_store. walk.
  match goal with Hf : fromJson ?j ?tk = (?t, _) |- _ => assert (t = (fromJson j tk).1) as -> by by rewrite Hf end.
  apply fromJson_status; [by eapply schedule_status|done].
Qed.

(** Every command but [importTask] keeps the tasks in CREATED. *)
Lemma builtin_created e name params m : name ≠ "importTask" →
  builtin markCancelled execute tasks_to_json order e name params = Some m → hoare created m (λ _, True).
Proof.
  unfold builtin. intros Hne Hm.
  repeat (case_decide; [injection Hm as <-|]); [..|done].
  all: try by subst name.
  all: unfold cli_dequeue, cli_run, cli_cancel, cli_kill, cli_status, cli_list, cli_clear, cli_setMode,
    cli_setConcurrency, cli_setRetry, cli_setDelay, cli_depend, cli_graph, cli_ready, cli_connect,
    cli_submit, cli_exportTask, param_id, param_string, find_task, task_store, open_file; walk.
  all: try done.
  all: try (by apply cli_enqueue_created); try (by apply cli_setSchedule_created).
  all: try (by apply markStarted_keeps || by apply markCompleted_keeps).
  - by eapply dequeue_created.
  - by eapply cancelTask_created.
  - match goal with n : ¬ _ ≠ RUNNING |- _ => destruct n; congruence end.
  - by injection Hrun as _ <-.
  - inv_outcome Hrun. injection Hrun as _ <-. by eapply setMode_created.
  - inv_outcome Hrun. by simplify_eq.
Qed.

(** ** Sequences of commands *)

Definition command : Type := env * string * json.

(** Commands one after the other, on a server with the handlers [handlers]. *)
Fixpoint run_commands (handlers : gmap string CommandHandler) (cmds : list command) : M core (list json) :=
  match cmds with
  | [] => mret []
  | (e, name, params) :: cmds =>
      r ← executeCommand markCancelled execute tasks_to_json order handlers e name params;
      rs ← run_commands handlers cmds;
      mret (r :: rs)
  end.

(** A property of the commands' state, as one of the server's. *)
Definition core_inv (I : cli → Prop) (k : core) : Prop := I (k_cli k).

Lemma on_cli_hoare {A} I (m : M cli A) Q : hoare I m Q → hoare (core_inv I) (on_cli m) Q.
Proof. intros Hm k Hk. unfold on_cli, zoom. destruct (Hm (k_cli k) Hk). by destruct (m (k_cli k)). Qed.

(** The handlers registered by [registerDefaultHandlers] only read. *)
Lemma default_handlers_hoare I metrics_to_json name h params :
  registerDefaultHandlers metrics_to_json ∅ !! name = Some h → hoare (core_inv I) (h params) (λ _, True).
Proof.
  unfold registerDefaultHandlers, registerCommand. intros [[_ <-]|[_ ?]]%lookup_insert_Some; [|done].
  apply hoare_read. intros k Hk. by apply hoare_ret.
Qed.

Lemma executeCommand_hoare I metrics_to_json e name params :
  (∀ m, builtin markCancelled execute tasks_to_json order e name params = Some m → hoare I m (λ _, True)) →
  hoare (core_inv I) (executeCommand markCancelled execute tasks_to_json order
    (registerDefaultHandlers metrics_to_json ∅) e name params) (λ _, True).
Proof.
  intros Hb. unfold executeCommand. destruct (_ !! name) as [h|] eqn:Hh.
  { apply hoare_try; [by eapply default_handlers_hoare|]. intros w. by apply hoare_ret. }
  destruct (builtin _ _ _ _ _ _ _) as [m|] eqn:Hm; [|by apply hoare_ret].
  apply hoare_try; [by apply on_cli_hoare, Hb|]. intros w. by apply hoare_ret.
Qed.

(** Under any other name the built-in commands answer. *)
Lemma executeCommand_builtin metrics_to_json e name params k : name ≠ "metrics" →
  executeCommand markCancelled execute tasks_to_json order (registerDefaultHandlers metrics_to_json ∅) e name params k =
  match builtin markCancelled execute tasks_to_json order e name params with
  | Some m => try_catch (on_cli m) execution_error k
  | None => (Ret (response_error ("Unknown command: " +:+ name)), k)
  end.
Proof.
  intros Hne. unfold executeCommand, registerDefaultHandlers, registerCommand.
  rewrite lookup_insert_ne, lookup_empty by done. by destruct (builtin _ _ _ _ _ _ _).
Qed.

(** What every run of a command answers. *)
Lemma executeCommand_answers I metrics_to_json (Q : json → Prop) e name params m k r : name ≠ "metrics" →
  builtin markCancelled execute tasks_to_json order e name params = Some m → hoare I m Q → I (k_cli k) →
  (∀ what, Q (response_error what)) →
  (executeCommand markCancelled execute tasks_to_json order (registerDefaultHandlers metrics_to_json ∅)
     e name params k).1 = Ret r → Q r.
Proof.
  intros Hne Hb Hm Hk HQ. rewrite executeCommand_builtin, Hb by done.
  apply (hoare_try (core_inv I) _ _ Q); [by apply on_cli_hoare| |done].
  intros w. unfold execution_error. by apply hoare_ret.
Qed.

Lemma run_commands_hoare I metrics_to_json cmds :
  (∀ e name params m, (e, name, params) ∈ cmds →
    builtin markCancelled execute tasks_to_json order e name params = Some m → hoare I m (λ _, True)) →
  hoare (core_inv I) (run_commands (registerDefaultHandlers metrics_to_json ∅) cmds) (λ _, True).
Proof.
  induction cmds as [|[[e name] params] cmds IH]; intros Hc; cbn [run_commands]; [by apply hoare_ret|].
  apply hoare_seq; [apply executeCommand_hoare; intros; eapply Hc; [left|done]|]. intros r.
  apply hoare_seq; [apply IH; intros; eapply Hc; [by right|done]|]. intros rs. by apply hoare_ret.
Qed.

Lemma cli_cancel_fails e params : hoare created (cli_cancel markCancelled e params) is_error.
Proof.
  unfold cli_cancel, param_id. apply guarded_created; [apply response_error_ok|].
  apply hoare_seq; [apply hoare_lift_any|]. intros id.
  eapply hoare_bind; [apply on_world_created; intros w b w'; apply cancelTask_created|].
  cbv beta. intros b ->. apply hoare_seq; [by apply hoare_ret|]. intros _. apply hoare_ret.
  apply (response_error_ok "Failed to cancel task").
Qed.

Lemma cli_kill_fails e params : hoare created (cli_kill e params) is_error.
Proof.
  unfold cli_kill, param_id, find_task. apply guarded_created; [apply response_error_ok|].
  apply hoare_seq; [apply hoare_lift_any|]. intros id. apply hoare_seq; [apply hoare_gets|]. intros [t|].
  - eapply hoare_bind; [apply read_task_created|]. cbv beta. intros tk Htk.
    rewrite decide_True by congruence. apply hoare_ret, response_error_ok.
  - apply hoare_ret, response_error_ok.
Qed.

(** C35: On a server that has imported no task, after any sequence of commands: every task
    is still CREATED, and whatever [cancel] and [kill] are asked, their answer is an
    error. *)
Theorem cancel_and_kill_fail metrics_to_json cmds k rs k'
    (Hstart : created (k_cli k)) (Himport : Forall (λ c : command, c.1.2 ≠ "importTask") cmds)
    (Hrun : run_commands (registerDefaultHandlers metrics_to_json ∅) cmds k = (Ret rs, k')) :
  created (k_cli k') ∧
  ∀ e name params r, name = "cancel" ∨ name = "kill" →
    (executeCommand markCancelled execute tasks_to_json order (registerDefaultHandlers metrics_to_json ∅)
       e name params k').1 = Ret r → is_error r.
Proof.
  assert (Hk : created (k_cli k')).
  { refine (_ (proj1 (run_commands_hoare created metrics_to_json cmds _ k Hstart))); [by rewrite Hrun|].
    intros e name params m Hin. rewrite Forall_forall in Himport. apply builtin_created. by apply (Himport (e, name, params)). }
  split; [done|]. intros e name params r [-> | ->].
  - eapply executeCommand_answers; [done|done|apply cli_cancel_fails|done|apply response_error_ok].
  - eapply executeCommand_answers; [done|done|apply cli_kill_fails|done|apply response_error_ok].
Qed.

(** ** The pool *)

(** No storage of the pool has a database. *)
Definition pool_closed (c : cli) : Prop := Forall (λ o, db_ o = false) (c_pool c).

Definition storage_closed (s : sys) : Prop := db_ (obj s) = false.

Lemma deref_db_closed : hoare storage_closed deref_db (λ _, False).
Proof. intros s Hs. unfold deref_db. by rewrite Hs. Qed.

Lemma hoare_stuck {S A B} (I : S → Prop) (m : M S A) (f : A → M S B) Q :
  hoare I m (λ _, False) → hoare I (m ≫= f) Q.
Proof. intros Hm. by eapply hoare_bind. Qed.

Lemma appendToWAL_closed now o d : hoare storage_closed (appendToWAL now o d) (λ _, False).
Proof.
  unfold appendToWAL. apply hoare_seq; [by apply hoare_act|]. intros n. cbn zeta.
  apply hoare_stuck, deref_db_closed.
Qed.

Lemma updateTaskStatus_closed now id st : hoare storage_closed (updateTaskStatus now id st) (λ _, False).
Proof. unfold updateTaskStatus, Get. do 2 apply hoare_stuck. apply deref_db_closed. Qed.

Lemma loadAllTasks_closed now : hoare storage_closed (loadAllTasks now) (λ _, False).
Proof. unfold loadAllTasks, NewIterator. do 2 apply hoare_stuck. apply deref_db_closed. Qed.

Lemma saveTask_closed now store t : hoare storage_closed (saveTask now store t) (λ _, True).
Proof.
  unfold saveTask. destruct t as [t|]; [|by apply hoare_ret].
  apply hoare_try; [|intros; by apply hoare_ret]. apply hoare_seq; [apply hoare_lift_any|]. intros j.
  apply hoare_stuck, deref_db_closed.
Qed.

Lemma on_pool_closed {A} i (m : M sys A) Q : hoare storage_closed m Q → hoare pool_closed (on_pool i m) Q.
Proof.
  intros Hm c Hc. unfold on_pool. destruct (c_pool c !! i) as [o|] eqn:Hi; [|by split].
  assert (Ho : db_ o = false) by (unfold pool_closed in Hc; rewrite Forall_lookup in Hc; eauto).
  destruct (Hm (mkSys _ (c_disk c) o (c_next_id c)) Ho) as [Hs HQ].
  destruct (m _) as [r s]. split; [|done]. by apply Forall_insert.
Qed.

Lemma on_storage_closed {A} (m : M sys A) : hoare pool_closed (on_storage m) (λ _, True).
Proof. intros c Hc. unfold on_storage. by destruct (m _). Qed.

Lemma on_world_closed {A} (f : world → outcome (A * world)) : hoare pool_closed (on_world f) (λ _, True).
Proof. intros c Hc. unfold on_world. by destruct (f (c_world c)) as [[]|?| |]. Qed.

Lemma read_task_closed t : hoare pool_closed (read_task t) (λ _, True).
Proof. apply hoare_read. intros c Hc. apply hoare_lift_any. Qed.

Lemma write_task_closed t tk : hoare pool_closed (write_task t tk) (λ _, True).
Proof. by apply hoare_modify. Qed.

Lemma new_task_closed now name p : hoare pool_closed (new_task now name p) (λ _, True).
Proof. by apply hoare_act. Qed.

Lemma write_file_closed f s : hoare pool_closed (write_file f s) (λ _, True).
Proof. by apply hoare_modify. Qed.

Lemma getStorageFromPool_closed : hoare pool_closed getStorageFromPool (λ _, True).
Proof. by apply hoare_act. Qed.

Lemma logEvent_closed e id a b Q : hoare pool_closed (logEvent e id a b) Q.
Proof.
  apply hoare_seq; [apply getStorageFromPool_closed|]. intros i.
  apply hoare_stuck, on_pool_closed, appendToWAL_closed.
Qed.

Lemma update_in_pool_closed e id st Q : hoare pool_closed (update_in_pool e id st) Q.
Proof.
  apply hoare_seq; [apply getStorageFromPool_closed|]. intros i.
  apply hoare_stuck, on_pool_closed, updateTaskStatus_closed.
Qed.

Lemma save_in_pool_closed e t : hoare pool_closed (save_in_pool e t) (λ _, True).
Proof.
  apply hoare_seq; [apply getStorageFromPool_closed|]. intros i. apply hoare_seq; [apply hoare_gets|]. intros ts.
  apply hoare_seq; [apply on_pool_closed, saveTask_closed|]. intros b. by apply hoare_ret.
Qed.

Lemma guarded_closed body (Q : json → Prop) : (∀ what, Q (response_error what)) → hoare pool_closed body Q →
  hoare pool_closed (guarded body) Q.
Proof.
  intros HQ Hb. unfold guarded. eapply hoare_bind.
  - apply hoare_try; [exact Hb|]. intros w. by apply hoare_ret.
  - intros r Hr. apply hoare_seq; [by apply hoare_modify|]. intros _. by apply hoare_ret.
Qed.

Lemma loadAll_pool_closed i now : hoare pool_closed (on_pool i (loadAllTasks now)) (λ _, False).
Proof. apply on_pool_closed, loadAllTasks_closed. Qed.

Create HintDb closed.
#[local] Hint Resolve read_task_closed write_task_closed new_task_closed write_file_closed getStorageFromPool_closed
  on_world_closed on_storage_closed save_in_pool_closed logEvent_closed update_in_pool_closed hoare_lift_any
  hoare_ret_any hoare_gets : closed.

(** Walk through a handler whose pool is closed. *)
Ltac walk_closed :=
  repeat lazymatch goal with
  | |- hoare _ (guarded _) _ => apply guarded_closed; [first [done | apply response_error_ok]|]
  | |- hoare _ (logEvent _ _ _ _ ≫= _) _ => apply hoare_stuck, logEvent_closed
  | |- hoare _ (update_in_pool _ _ _ ≫= _) _ => apply hoare_stuck, update_in_pool_closed
  | |- hoare _ (on_pool _ (loadAllTasks _) ≫= _) _ => apply hoare_stuck, loadAll_pool_closed
  | |- hoare _ (_ ≫= _) _ => apply hoare_seq; [|intros ?]
  | |- hoare _ (match _ with _ => _ end) _ => case_match
  | |- hoare _ (let _ := _ in _) _ => cbn zeta
  | |- hoare _ (mret _) _ => apply hoare_ret; first [done | apply response_error_ok]
  | |- hoare _ _ _ => solve [auto 1 with closed nocore]
  end.

Lemma cli_enqueue_closed e params : hoare pool_closed (cli_enqueue e params) is_error.
Proof. unfold cli_enqueue, enqueue_task, param_string. walk_closed. Qed.

Lemma cli_cancel_closed e params : hoare pool_closed (cli_cancel markCancelled e params) is_error.
Proof.
  unfold cli_cancel, param_id. apply guarded_closed; [apply response_error_ok|].
  apply hoare_seq; [apply hoare_lift_any|]. intros id. apply hoare_seq; [apply on_world_closed|]. intros [|].
  - apply hoare_stuck, hoare_stuck, update_in_pool_closed.
  - apply hoare_seq; [by apply hoare_ret|]. intros _. apply hoare_ret, (response_error_ok "Failed to cancel task").
Qed.

(** The commands that use the pool for more than saving a task. *)
Definition needs_pool (name : string) : Prop :=
  name = "enqueue" ∨ name = "run" ∨ name = "cancel" ∨ name = "kill" ∨ name = "list" ∨ name = "submit".

#[local] Instance needs_pool_dec name : Decision (needs_pool name).
Proof. unfold needs_pool. apply _. Defined.

Lemma needs_pool_fails e name params m : needs_pool name →
  builtin markCancelled execute tasks_to_json order e name params = Some m → hoare pool_closed m is_error.
Proof.
  intros [-> |[-> |[-> |[-> |[-> | ->]]]]] [= <-].
  - apply cli_enqueue_closed.
  - unfold cli_run, param_id, find_task. walk_closed.
  - apply cli_cancel_closed.
  - unfold cli_kill, param_id, find_task. walk_closed.
  - unfold cli_list. walk_closed.
  - unfold cli_submit, param_string, open_file. walk_closed; apply cli_enqueue_closed.
Qed.

Lemma builtin_closed e name params m : builtin markCancelled execute tasks_to_json order e name params = Some m →
  hoare pool_closed m (λ _, True).
Proof.
  intros Hm. destruct (decide (needs_pool name)) as [Hn|Hn]; [by eapply hoare_weaken; [eapply needs_pool_fails|]|].
  revert Hm. unfold builtin. intros Hm. unfold needs_pool in Hn.
  repeat (case_decide; [injection Hm as <-|]); [..|done].
  all: try tauto.
  all: unfold cli_dequeue, cli_status, cli_clear, cli_setMode, cli_setConcurrency, cli_setRetry, cli_setDelay,
    cli_setSchedule, cli_depend, cli_graph, cli_ready, cli_connect, cli_exportTask, cli_importTask, param_id,
    param_string, find_task, task_store, open_file; walk_closed.
Qed.

(** C36: The constructor fills the pool with storages that nothing ever initializes:
    after any sequence of commands, whatever [enqueue], [run], [cancel], [kill], [list]
    and [submit] are asked, they do not succeed. *)
Theorem unopened_pool_fails metrics_to_json getConfig w d storage next_id files counters cmds rs k'
    (Hrun : run_commands (registerDefaultHandlers metrics_to_json ∅) cmds
      (mkCore _ (new_CLICommands getConfig w d storage next_id files) counters) = (Ret rs, k')) :
  Forall (λ o, db_ o = false) (c_pool (k_cli k')) ∧
  ∀ e name params r, needs_pool name →
    (executeCommand markCancelled execute tasks_to_json order (registerDefaultHandlers metrics_to_json ∅)
       e name params k').1 = Ret r → is_error r.
Proof.
  assert (Hk : pool_closed (k_cli k')).
  { refine (_ (proj1 (run_commands_hoare pool_closed metrics_to_json cmds _ _ _)));
      [by rewrite Hrun|intros; by eapply builtin_closed|]. by apply Forall_replicate. }
  split; [done|]. intros e name params r Hn.
  destruct (builtin markCancelled execute tasks_to_json order e name params) as [m|] eqn:Hb.
  - eapply executeCommand_answers; [|done|by eapply needs_pool_fails|done|apply response_error_ok].
    intros ->. by repeat destruct Hn as [?|Hn].
  - by destruct Hn as [-> |[-> |[-> |[-> |[-> | ->]]]]].
Qed.
End status.
