(* ===== verification/CLIEnqueue.v ===== *)
(** * The enqueue command end to end

    With storages that are open, [enqueue] files the new task in the queue manager as
    its specification says, writes it to the database and answers with its id: the
    handler composed of the manager's and the storage's refinements. *)

From S2P Require Import Prelude Text Json Effects Task Dot NodeQueue LockFree SkipList QueueManager.
From S2P Require Import GroupQueues QueueSpec QueueRefine Storage StorageText StorageRefine Regex CLICommands.

Section enqueue_command.
Context `{J : JsonLib} `{L : !JsonLaws J} `{R : RocksDB} `{RL : !RocksDBLaws R} `{SL : SearchLoop}.

(** Freeing the objects nothing refers to keeps what the manager holds. *)
Lemma shared_referenced w t : referenced w t → t ∈ shared w.
Proof.
  unfold shared, referenced, node_task. intros [(id & Hid)|(l & (n & Hl & Ht)%bind_Some)]; apply elem_of_union.
  - left. apply elem_of_list_to_set, list_elem_of_fmap. exists (id, t). split; [done|]. by apply elem_of_map_to_list.
  - right. apply elem_of_list_to_set, list_elem_of_omap. exists (l, n). split; [by apply elem_of_map_to_list|done].
Qed.

Lemma rep_free w a : QueueSpec.rep w a → QueueSpec.rep (free_unshared w) a.
Proof.
  intros Hrep. apply (rep_store w a _ (referenced w)); [done| |by intros t; apply filed_referenced|].
  - intros t tk Ht Htk. exists tk. split; [|done]. apply map_lookup_filter_Some. split; [done|].
    by apply shared_referenced.
  - intros id t Ht. left. eauto.
Qed.

(** ** Storages of the pool *)

(** The storage [o] is open on [p] and its log has room for [k] more entries. *)
Definition opened (k : Z) (p : string) (o : Storage) : Prop :=
  db_ o = true ∧ db_path_ o = p ∧ 0 ≤ wal_sequence_ o ∧ wal_sequence_ o + k < 2 ^ 64.

Definition pool_opened (k : Z) (p : string) (pool : list Storage) : Prop :=
  ∀ i, (i < Z.to_nat STORAGE_POOL_SIZE)%nat → ∃ o, pool !! i = Some o ∧ opened k p o.

Lemma opened_rep k p o d n s : 0 ≤ k → opened k p o → db_rep (db_contents d p) s →
  StorageRefine.rep p (mkSys _ d o n) (StorageRefine.mkA (a_tasks s) (a_log s) (a_counter s) (wal_sequence_ o)).
Proof. intros Hk (? & ? & ? & ?) Hdb. split; cbn; [done..|unfold u64; lia|by apply db_rep_seq]. Qed.

Lemma pool_opened_insert k p pool i o x a : pool_opened k p pool → pool !! i = Some o → opened k p o →
  StorageRefine.rep p x a → a_seq a ≤ wal_sequence_ o + 1 → pool_opened (k - 1) p (<[i := obj x]> pool).
Proof.
  intros Hpool Hi (? & ? & ? & ?) [Hopen Hpath Hseq Hu _] Hle j Hj. unfold u64 in Hu.
  destruct (decide (i = j)) as [<-|Hne].
  - exists (obj x). rewrite list_lookup_insert_eq by (by eapply lookup_lt_Some). split; [done|].
    unfold opened. rewrite Hseq. split_and!; [done..|lia|lia].
  - rewrite list_lookup_insert_ne by done. destruct (Hpool j Hj) as (o' & Ho' & ? & ? & ? & ?).
    exists o'. split; [done|]. unfold opened. split_and!; [done..|lia].
Qed.

Lemma on_pool_run {A} i (m : M sys A) o r s c : c_pool c !! i = Some o →
  m (mkSys _ (c_disk c) o (c_next_id c)) = (r, s) →
  on_pool i m c = (r, mkCli _ (c_world c) (disk s) (c_storage c) (<[i := obj s]> (c_pool c)) (c_index c)
    (next_id s) (c_files c)).
Proof. intros Hi Hm. unfold on_pool. by rewrite Hi, Hm. Qed.

(** ** The command *)

Context (p : string) (e : env) (Hok : healthy p (now e) false).

(** The object [std::make_shared<Task>(name, priority)] with its time of filing. *)
Definition filed_task (id : Z) (name : string) (priority : Z) : Task :=
  set_enqueued_at (now e) (new_Task (now e) id name priority).1.

Lemma filed_task_wf id name priority : u64 id → INT_MIN ≤ priority ≤ INT_MAX → task_wf (filed_task id name priority).
Proof.
  intros Hid Hp. pose proof (healthy_now _ _ _ Hok). unfold u64, INT_MIN, INT_MAX in *. split; cbn; try done; lia.
Qed.

(** A state with the files, the pool, its index and the counter changed. *)
Definition stored_state (d : Disk) (pool : list Storage) (index n : Z) (c : cli) : cli :=
  mkCli _ (c_world c) d (c_storage c) pool index n (c_files c).

Lemma getStorageFromPool_run {A} (f : nat → M cli A) c : (getStorageFromPool ≫= f) c =
  f (Z.to_nat (c_index c mod STORAGE_POOL_SIZE)) (set_index (w64 (c_index c + 1)) c).
Proof. done. Qed.

(** A call of the next storage of the pool that does what its specification says. *)
Lemma next_storage_run {A} k (m : M sys A) s (Q : A → astore → Prop) c : 0 ≤ k →
  pool_opened k p (c_pool c) → db_rep (db_contents (c_disk c) p) s →
  (∀ x a, StorageRefine.rep p x a → a_seq a + k < 2 ^ 64 → a_tasks a = a_tasks s →
    ∃ r x' a', m x = (Ret r, x') ∧ StorageRefine.rep p x' a' ∧ a_seq a' ≤ a_seq a + 1 ∧ Q r a') →
  ∃ r d pool n s', (i ← getStorageFromPool; on_pool i m) c =
      (Ret r, stored_state d pool (w64 (c_index c + 1)) n c) ∧
    pool_opened (k - 1) p pool ∧ db_rep (db_contents d p) s' ∧ Q r s'.
Proof.
  intros Hk Hpool Hdb Hm. set (i := Z.to_nat (c_index c mod STORAGE_POOL_SIZE)).
  assert (Hi : (i < Z.to_nat STORAGE_POOL_SIZE)%nat).
  { unfold i. apply Z2Nat.inj_lt; [apply Z.mod_pos_bound|..|apply Z.mod_pos_bound]; done. }
  destruct (Hpool i Hi) as (o & Ho & Hopen).
  destruct (Hm _ _ (opened_rep k p o (c_disk c) (c_next_id c) s Hk Hopen Hdb)) as (r & x' & a' & Hrun & Hrep & Hseq & HQ).
  { cbn. apply Hopen. } { done. }
  exists r, (disk x'), (<[i := obj x']> (c_pool c)), (next_id x'), a'. split_and!; [| |apply Hrep|done].
  - rewrite getStorageFromPool_run. by rewrite (on_pool_run i m o (Ret r) x').
  - by eapply pool_opened_insert.
Qed.

(** A write that cannot fail. *)
Lemma written_reliable a id t o d b a' : written false a id t o d b a' →
  b = true ∧ a_tasks a' = <[id := t]> (a_tasks a) ∧ a_seq a' = a_seq a + 1.
Proof. inversion 1 as [b' ? Happ|]; subst; [|done]. by inversion Happ. Qed.

Lemma save_in_pool_run k t tk s c : 1 ≤ k → pool_opened k p (c_pool c) → db_rep (db_contents (c_disk c) p) s →
  tasks (c_world c) !! t = Some tk → savable (tasks (c_world c)) tk →
  ∃ d pool n s', save_in_pool e t c = (Ret tt, stored_state d pool (w64 (c_index c + 1)) n c) ∧
    pool_opened (k - 1) p pool ∧ db_rep (db_contents d p) s' ∧ a_tasks s' = <[id_ tk := tk]> (a_tasks s).
Proof.
  intros Hk Hpool Hdb Ht Hsav.
  destruct (next_storage_run k (saveTask (now e) (tasks (c_world c)) (Some tk)) s
    (λ _ s', a_tasks s' = <[id_ tk := tk]> (a_tasks s)) c) as (r & d & pool & n & s' & Hrun & Hp & Hdb' & Hs'); [lia|done|done| |].
  { intros x a Hrep Hseq Heq. destruct (save_step p (now e) (tasks (c_world c)) false Hok x a (Some tk) Hrep)
      as (b & x' & a' & Hx & Hst & Hrep'); [lia|done|].
    inversion Hst as [|? j ? ? Hj Hw| | | | | | | | | | | |]; subst.
    apply written_reliable in Hw as (_ & Htasks & Hseq'). exists b, x', a'. split_and!; [done|done|lia|congruence]. }
  exists d, pool, n, s'. split_and!; [|done..]. unfold save_in_pool, task_store.
  rewrite getStorageFromPool_run in Hrun. rewrite getStorageFromPool_run.
  rewrite (bind_run (gets _) _ _ _ _ eq_refl). cbn [c_world set_index]. rewrite Ht.
  by rewrite (bind_run _ _ _ _ _ Hrun).
Qed.

Lemma log_in_pool_run k id event details s c : 1 ≤ k → pool_opened k p (c_pool c) →
  db_rep (db_contents (c_disk c) p) s → u64 id → utf8 event → utf8 details →
  ∃ d pool n s', logEvent e id event details c = (Ret tt, stored_state d pool (w64 (c_index c + 1)) n c) ∧
    pool_opened (k - 1) p pool ∧ db_rep (db_contents d p) s' ∧ a_tasks s' = a_tasks s.
Proof.
  intros Hk Hpool Hdb Hid He Hd. unfold logEvent. cbn zeta. set (entry := json_object _).
  assert (Hdumps : json_dumps entry).
  { pose proof (healthy_now _ _ _ Hok). unfold u64 in Hid. apply json_dumps_object.
    repeat constructor; cbn; try (by apply utf8_ascii); (apply json_dumps_num; lia) || by apply json_dumps_str. }
  destruct (next_storage_run k (appendToWAL (now e) "event_log" entry) s (λ _ s', a_tasks s' = a_tasks s) c)
    as (r & d & pool & n & s' & Hrun & Hp & Hdb' & Hs'); [lia|done|done| |].
  { intros x a Hrep Hseq Heq. destruct (append_step p (now e) false Hok x a "event_log" entry Hrep)
      as (b & x' & a' & Hx & Happ & Hrep'); [lia|by apply utf8_ascii|done|].
    exists b, x', a'. split_and!; [done..| |]; by inversion Happ; subst; cbn; lia || congruence. }
  exists d, pool, n, s'. split_and!; [|done..]. rewrite getStorageFromPool_run in Hrun. rewrite getStorageFromPool_run.
  by rewrite (bind_run _ _ _ _ _ Hrun).
Qed.

(** ** The theorem *)

(** The parameters of the command: a name, a priority, no delay, a group. *)
Record enqueue_params (params : json) (name : string) (priority : Z) (group : string) : Prop := {
  ep_dumps : json_dumps params;
  ep_name : (v ← json_at params "name"; json_get_string v) = Ret name;
  ep_priority : json_value (json_get I32) params "priority" 50 = Ret priority;
  ep_delay : json_contains params "delay" = false;
  ep_group : json_value json_get_string params "group" "default" = Ret group
}.

Lemma ep_priority_range params name priority group : enqueue_params params name priority group →
  INT_MIN ≤ priority ≤ INT_MAX.
Proof.
  intros [_ _ Hp _ _]. unfold json_value in Hp. unfold INT_MIN, INT_MAX.
  destruct (json_is_object params); [|done]. destruct (json_contains params "priority").
  - apply bind_Ret in Hp as (v & _ & Hv). by apply json_get_range in Hv.
  - injection Hp as <-. lia.
Qed.

Lemma ep_name_utf8 params name priority group : enqueue_params params name priority group → utf8 name.
Proof.
  intros [Hd Hn _ _ _]. apply bind_Ret in Hn as (v & Hv & Hs).
  eapply json_dumps_get_string; [|exact Hs]. by eapply json_dumps_at.
Qed.

(** The state after the object was made. *)
Definition made (tk : Task) (t : loc) (c : cli) : cli :=
  set_counter (w64 (c_next_id c + 1))
    (set_world (mkWorld (nodes (c_world c)) (<[t := tk]> (tasks (c_world c))) (qm (c_world c))) c).

Lemma made_rep tk t c a : QueueSpec.rep (c_world c) a → tasks (c_world c) !! t = None →
  QueueSpec.rep (c_world (made tk t c)) a.
Proof.
  intros Hrep Ht. apply (rep_store (c_world c) a _ (λ _, True)); [done| |done|done].
  intros t' tk' _ Ht'. exists tk'. split; [|done]. cbn. rewrite lookup_insert_ne by congruence. done.
Qed.

Lemma enqueue_objects t tk group w w' : enqueue e (Some t) group w = Ret w' → tasks w !! t = Some tk →
  tasks w' = <[t := set_enqueued_at (now e) tk]> (tasks w) ∧ task_map_ (qm w') = <[id_ tk := t]> (task_map_ (qm w)).
Proof.
  intros H Ht. unfold enqueue in H. rewrite Ht in H. cbn in H. inv_outcome H. destruct a as [h qs].
  injection H as <-. cbn. by case_decide.
Qed.

(** What the new task is saved from. *)
Lemma filed_savable ts id name priority t : map_Forall (λ _ tk, u64 (id_ tk)) ts → u64 id →
  INT_MIN ≤ priority ≤ INT_MAX → utf8 name →
  savable (<[t := filed_task id name priority]> ts) (filed_task id name priority).
Proof.
  intros Hts Hid Hp Hn. split; [by apply filed_task_wf|]. split; [done|]. split; [by apply utf8_ascii|].
  by apply map_Forall_insert_2.
Qed.

End enqueue_command.
