(* ===== verification/CLIFiles.v ===== *)
(** * Schedules, task files and listings

    [setSchedule] writes the schedule into the JSON form of the task and reads the task
    back from it, which drops the schedule; [exportTask] and [importTask] copy a task
    through a file; [list] and [ready] list stored tasks, the first whatever their state
    and the second whatever their dependencies. *)

From S2P Require Import Prelude Text Json Effects Task Dot NodeQueue LockFree SkipList QueueManager.
From S2P Require Import GroupQueues QueueSpec QueueRefine Storage StorageText StorageRefine Regex CLICommands CLIProps CLIEnqueue.

Section files.
Context `{J : JsonLib} `{L : !JsonLaws J} `{R : RocksDB} `{RL : !RocksDBLaws R} `{SL : SearchLoop}.
Context (p : string) (e : env) (Hok : healthy p (now e) false).

(** ** Fields through JSON *)

Lemma json_image_wf t t0 : task_wf t → task_wf (json_image t t0).
Proof.
  intros []. pose proof (λ z Hz, proj2 (to_time_t_range z Hz)) as Htime. split; cbn; try done; by apply Htime.
Qed.

Lemma json_image_savable ts t tk t0 : savable ts tk → savable (<[t := json_image tk t0]> ts) (json_image tk t0).
Proof.
  intros (Hwf & Hn & He & Hts). split_and!; [by apply json_image_wf|done..|].
  apply map_Forall_insert_2; [|done]. apply (wf_id _ Hwf).
Qed.

(** Entries that [fromJson] does not read do not matter. *)
Lemma fromJson_ignores j j' k v tk : json_is_object j → json_set j k v = Ret j' →
  k ∉ ["id"; "name"; "priority"; "status"; "created_at"; "scheduled_for"; "started_at"; "completed_at";
       "error_message"; "retry_count"; "max_retries"] →
  fromJson j' tk = fromJson j tk.
Proof.
  intros Hobj Hset Hk.
  assert (Hat : ∀ k', k' ≠ k → json_at j' k' = json_at j k').
  { intros k' Hne. by apply (json_at_set_ne j k k' v j'). }
  unfold fromJson, get_time, get_num, get_str. by rewrite !Hat by set_solver.
Qed.

(** ** setSchedule *)

(** A task the manager still refers to survives the end of a handler. *)
Lemma found_alive id t tk w : findTask id w = Some t → tasks w !! t = Some tk →
  tasks (free_unshared w) !! t = Some tk.
Proof.
  intros Hid Ht. apply map_lookup_filter_Some. split; [done|]. cbn. apply shared_referenced. left. by exists id.
Qed.

(** A valid schedule is accepted and saved as a success, but the task that is kept and
    saved has no trace of it: it is the old task with its times cut to whole seconds. *)
Theorem setSchedule_forgets params id cron t tk c s
    (Hid : (v ← json_at params "task_id"; json_get U64 v) = Ret id)
    (Hcron : (v ← json_at params "cron"; json_get_string v) = Ret cron)
    (Hvalid : validateCronExpression cron = true)
    (Hfind : findTask id (c_world c) = Some t) (Ht : tasks (c_world c) !! t = Some tk)
    (Hsav : savable (tasks (c_world c)) tk)
    (Hpool : pool_opened 1 p (c_pool c)) (Hdb : db_rep (db_contents (c_disk c) p) s) :
  ∃ c' s', cli_setSchedule e params c = (Ret (response_success []), c') ∧
    findTask id (c_world c') = Some t ∧ tasks (c_world c') !! t = Some (json_image tk tk) ∧
    db_rep (db_contents (c_disk c') p) s' ∧ a_tasks s' = <[id_ tk := json_image tk tk]> (a_tasks s).
Proof.
  set (tk' := json_image tk tk). set (ts' := <[t := tk']> (tasks (c_world c))).
  destruct (toJson_holds (tasks (c_world c)) tk) as (j & Hto & Hobj & _).
  destruct (json_set_object j "schedule" (text cron) Hobj) as (j' & Hset & _).
  assert (Hfrom : fromJson j' tk = (tk', Ret tt)).
  { rewrite (fromJson_ignores j j' "schedule" (text cron)) by (done || set_solver).
    apply (fromJson_toJson (tasks (c_world c))); [apply Hsav|done]. }
  set (c1 := set_world (mkWorld (nodes (c_world c)) ts' (qm (c_world c))) c).
  assert (Ht1 : tasks (c_world c1) !! t = Some tk') by apply lookup_insert_eq.
  destruct (save_in_pool_run p e Hok 1 t tk' s c1) as (d & pool & n & s' & Hsave & _ & Hdb' & Hs');
    [lia|done|done|done|by apply json_image_savable|].
  set (c2 := stored_state d pool (w64 (c_index c1 + 1)) n c1) in *.
  exists (set_world (free_unshared (c_world c1)) c2), s'. split_and!; [|done| |done|done].
  - unfold cli_setSchedule, guarded. rewrite (bind_run _ _ c (response_success []) c2); [done|].
    apply try_catch_Ret. unfold param_id, param_string.
    rewrite (bind_run_lift _ _ _ _ Hid), (bind_run_lift _ _ _ _ Hcron), Hvalid. cbn [negb].
    rewrite (bind_run (find_task id) _ c (Some t) c) by (unfold find_task, gets; by rewrite Hfind).
    rewrite (bind_run (read_task t) _ c tk c) by (unfold read_task; rewrite get_state_run; by rewrite Ht).
    rewrite (bind_run task_store _ c (tasks (c_world c)) c eq_refl).
    rewrite (bind_run_lift _ _ _ _ Hto), (bind_run_lift _ _ _ _ Hset), Hfrom.
    rewrite (bind_run _ _ c tt c1); [by rewrite (bind_run _ _ _ _ _ Hsave)|]. done.
  - by apply (found_alive id).
Qed.

(** ** exportTask and importTask *)

Definition export_name (id : Z) : string := "task_" +:+ to_string id +:+ ".json".

Lemma exportTask_run params id t tk c : (v ← json_at params "task_id"; json_get U64 v) = Ret id →
  findTask id (c_world c) = Some t → tasks (c_world c) !! t = Some tk → savable (tasks (c_world c)) tk →
  ∃ j out, toJson (tasks (c_world c)) tk = Ret j ∧ json_parse out = Ret j ∧
    cli_exportTask params c = (Ret (response_success [("file", text (export_name id))]),
      set_world (free_unshared (c_world c)) (set_files (<[export_name id := out]> (c_files c)) c)).
Proof.
  intros Hid Hfind Ht Hsav. destruct (toJson_loads_as _ _ Hsav) as (j & Hto & Hj).
  destruct (json_dump_indent_dumps 2 j (la_dumps _ _ Hj)) as (out & Hdump & Hparse).
  exists j, out. split_and!; [done..|].
  set (c1 := set_files (<[export_name id := out]> (c_files c)) c).
  unfold cli_exportTask, guarded. rewrite (bind_run _ _ c (response_success [("file", text (export_name id))]) c1); [done|].
  apply try_catch_Ret. unfold param_id. rewrite (bind_run_lift _ _ _ _ Hid).
  rewrite (bind_run (find_task id) _ c (Some t) c) by (unfold find_task, gets; by rewrite Hfind).
  rewrite (bind_run (read_task t) _ c tk c) by (unfold read_task; rewrite get_state_run; by rewrite Ht).
  rewrite (bind_run task_store _ c (tasks (c_world c)) c eq_refl). unfold write_file. rewrite modify_run.
  rewrite (bind_run_lift _ _ _ _ Hto), (bind_run_lift _ _ _ _ Hdump), modify_run.
  unfold c1, set_files. cbn. by rewrite insert_insert_eq.
Qed.

(** The object an import makes from the JSON form of [tk]. *)
Definition imported (tk : Task) (id : Z) : Task := json_image tk (new_Task (now e) id "" MEDIUM).1.

Lemma importTask_run params file out j tk c a s :
  (v ← json_at params "file"; json_get_string v) = Ret file → c_files c !! file = Some out →
  json_parse out = Ret j → (∀ t0, fromJson j t0 = (json_image tk t0, Ret tt)) →
  savable (tasks (c_world c)) tk → env_ok e → QueueSpec.rep (c_world c) a →
  names_fit ("default" :: group_names_ (qm (c_world c))) →
  pool_opened 1 p (c_pool c) → db_rep (db_contents (c_disk c) p) s →
  let t := fresh (dom (tasks (c_world c))) in
  let tk' := imported tk (c_next_id c) in
  ∃ c' s', cli_importTask e params c = (Ret (response_success [("task_id", json_of_num (id_ tk))]), c') ∧
    QueueSpec.rep (c_world c') (QueueSpec.mkA (a_mode a) (file_in (a_mode a) (prio_of (<[t := tk']> (tasks (c_world c))))
      "default" t (a_groups a))
      (add_name "default" (a_names a)) (a_index a) (a_cancelled a)) ∧
    findTask (id_ tk) (c_world c') = Some t ∧ tasks (c_world c') !! t = Some (set_enqueued_at (now e) tk') ∧
    db_rep (db_contents (c_disk c') p) s' ∧ a_tasks s' = <[id_ tk := tk']> (a_tasks s).
Proof.
  intros Hparam Hfile Hparse Hfrom Hsav He Hrep Hfit Hpool Hdb t tk'.
  assert (Hnew : tasks (c_world c) !! t = None) by apply not_elem_of_dom, is_fresh.
  set (tk0 := (new_Task (now e) (c_next_id c) "" MEDIUM).1).
  set (c1 := made tk0 t c). set (c2 := made tk' t c).
  assert (Ht2 : tasks (c_world c2) !! t = Some tk') by apply lookup_insert_eq.
  destruct (save_in_pool_run p e Hok 1 t tk' s c2) as (d & pool & n & s' & Hsave & _ & Hdb' & Hs');
    [lia|done|done|done|by apply json_image_savable|].
  set (c3 := stored_state d pool (w64 (c_index c2 + 1)) n c2) in *.
  pose proof (made_rep tk' t c a Hrep Hnew) as Hrep2. change (c_world (made tk' t c)) with (c_world c3) in Hrep2.
  destruct (enqueue_step e (Some t) "default" (c_world c3) a Hrep2) as (w4 & a4 & Henq & Hspec & Hrep4).
  { split_and!; [done| |done]. intros t' [= <-]. change (tasks (c_world c3)) with (tasks (c_world c2)). by rewrite Ht2. }
  inversion Hspec; subst. destruct (enqueue_objects e t tk' _ _ _ Henq Ht2) as [Hts Hmap].
  assert (Ht4 : tasks w4 !! t = Some (set_enqueued_at (now e) tk')) by (rewrite Hts; apply lookup_insert_eq).
  assert (Hfind : findTask (id_ tk) w4 = Some t) by (unfold findTask; rewrite Hmap; apply lookup_insert_eq).
  exists (set_world (free_unshared w4) c3), s'.
  split_and!; [|by apply rep_free|done|by apply (found_alive (id_ tk))|done|done].
  unfold cli_importTask, guarded.
  rewrite (bind_run _ _ c (response_success [("task_id", json_of_num (id_ tk))]) (set_world w4 c3)); [done|].
  apply try_catch_Ret. unfold param_string. rewrite (bind_run_lift _ _ _ _ Hparam).
  rewrite (bind_run (open_file file) _ c (Some out) c) by (unfold open_file, gets; by rewrite Hfile).
  rewrite (bind_run_lift _ _ _ _ Hparse). rewrite (bind_run (new_task _ _ _) _ c t c1 eq_refl).
  rewrite (bind_run (read_task t) _ c1 tk0 c1)
    by (unfold read_task; rewrite get_state_run; cbn; by rewrite lookup_insert_eq).
  rewrite Hfrom. rewrite (bind_run _ _ c1 tt c2).
  2:{ unfold write_task. rewrite modify_run. unfold c1, c2, made, set_counter, set_world, lift. cbn. by rewrite insert_insert_eq. }
  rewrite (bind_run _ _ _ _ _ Hsave). rewrite (bind_run (on_world _) _ c3 tt (set_world w4 c3)) by (unfold on_world; by rewrite Henq).
  rewrite (bind_run (read_task t) _ _ (set_enqueued_at (now e) tk') (set_world w4 c3)); [done|].
  unfold read_task. rewrite get_state_run. cbn. by rewrite Ht4.
Qed.


(** ** list and ready *)

Lemma stored_dependencies t : dependencies_ (stored t) = [].
Proof. done. Qed.

(** What [ready] keeps of the tasks it has loaded. *)
Definition due (tk : Task) : Prop := status_ tk = QUEUED ∧ scheduled_for_ tk ≤ now e.

Lemma ready_loop_due store l : Forall (λ tk, dependencies_ tk = []) l →
  ∃ js, ready_loop e store l = Ret js ∧ Forall2 (λ tk j, toJson store tk = Ret j) (filter due l) js.
Proof.
  induction 1 as [|tk l Hd Hl IH]; cbn [ready_loop]; [by exists []|].
  destruct IH as (js & Hjs & Hall). destruct (toJson_holds store tk) as (j & Hj & _).
  unfold areDependenciesMet. rewrite Hd. cbn [deps_met]. rewrite andb_true_r, filter_cons.
  destruct (decide (due tk)) as [[Hq Hs]|Hn].
  - rewrite !bool_decide_true by done. cbn [andb]. rewrite Hj, Hjs. cbn. eexists. split; [done|]. by constructor.
  - assert (E : bool_decide (status_ tk = QUEUED) && bool_decide (scheduled_for_ tk ≤ now e) = false).
    { apply not_true_is_false. intros [H1%bool_decide_eq_true H2%bool_decide_eq_true]%andb_prop. by apply Hn. }
    rewrite E. eauto.
Qed.

Lemma stored_list_dependencies (m : gmap Z Task) ids :
  Forall (λ tk, dependencies_ tk = []) (omap (λ id, stored <$> m !! id) ids).
Proof. induction ids as [|id ids IH]; cbn; [constructor|]. destruct (m !! id); [by constructor|done]. Qed.

(** [ready] answers with every stored task that is QUEUED and due, whatever it depends
    on: a task read from the database has no dependencies. *)
Theorem ready_ignores_dependencies params c s
    (Hrep : StorageRefine.rep p (mkSys _ (c_disk c) (c_storage c) (c_next_id c)) s) :
  ∃ ids js c', cli_ready e params c = (Ret (response_success [("tasks", json_of_list js)]), c') ∧
    ids ≡ₚ elements (dom (a_tasks s)) ∧
    Forall2 (λ tk j, toJson (tasks (c_world c)) tk = Ret j)
      (filter due (omap (λ id, stored <$> a_tasks s !! id) ids)) js.
Proof.
  destruct (loadAll_step p (now e) false Hok _ _ Hrep) as (ids & n & Hload & Hids & _).
  destruct (ready_loop_due (tasks (c_world c)) _ (stored_list_dependencies (a_tasks s) ids)) as (js & Hjs & Hall).
  exists ids, js. eexists. split; [|done]. unfold cli_ready, guarded.
  rewrite (bind_run _ _ c (response_success [("tasks", json_of_list js)]) (set_counter n c)); [done|].
  apply try_catch_Ret. rewrite (bind_run (on_storage _) _ c (omap (λ id, stored <$> a_tasks s !! id) ids) (set_counter n c)).
  2:{ unfold on_storage. by rewrite Hload. }
  rewrite (bind_run task_store _ _ _ _ eq_refl). by rewrite (bind_run_lift _ _ _ _ Hjs).
Qed.

(** [list] answers with every stored task whatever state it is asked for. *)
Theorem list_ignores_state (tasks_to_json : list Task → json) (order : nat → list nat) params state c s
    (Hstate : json_value json_get_string params "state" "all" = Ret state)
    (Horder : ∀ n, order n ≡ₚ seq 0 n) (Hfew : Z.of_nat (size (a_tasks s)) + 100 ≤ 2 ^ 64)
    (Hpool : pool_opened 0 p (c_pool c)) (Hdb : db_rep (db_contents (c_disk c) p) s) :
  ∃ l ids c', cli_list tasks_to_json order e params c = (Ret (response_success [("tasks", tasks_to_json l)]), c') ∧
    l ≡ₚ omap (λ id, stored <$> a_tasks s !! id) ids ∧ ids ≡ₚ elements (dom (a_tasks s)).
Proof.
  destruct (next_storage_run p 0 (loadAllTasks (now e)) s
    (λ ts s', ∃ ids, ts = omap (λ id, stored <$> a_tasks s !! id) ids ∧ ids ≡ₚ elements (dom (a_tasks s))) c)
    as (ts & d & pool & n & s' & Hrun & _ & _ & ids & -> & Hids); [done|done|done| |].
  { intros x a Hrep _ Heq. destruct (loadAll_step p (now e) false Hok x a Hrep) as (ids & n & Hload & Hids & _).
    eexists _, _, a. split_and!; [done|by apply rep_next_id|lia|]. exists ids. rewrite <-Heq. done. }
  set (ts := omap (λ id, stored <$> a_tasks s !! id) ids) in *.
  set (c1 := stored_state d pool (w64 (c_index c + 1)) n c) in *.
  destruct (batchProcess_all order ts (list_filter (tasks (c_world c1)) state) 100) as (l & Hl & Hperm & _); [done| |done| |].
  { assert (Hlen : (length ts ≤ length ids)%nat).
    { unfold ts. clear. induction ids as [|id ids IH]; cbn; [lia|]. destruct (a_tasks s !! id); cbn; lia. }
    rewrite Hids in Hlen. change (length (elements (dom (a_tasks s)))) with (size (dom (a_tasks s))) in Hlen.
    rewrite size_dom in Hlen. lia. }
  { intros tk _. unfold list_filter. destruct (toJson_holds (tasks (c_world c1)) tk) as (j & Hj & _). rewrite Hj.
    case_match; eauto. }
  exists l, ids. eexists. split_and!; [|done|done]. unfold cli_list, guarded.
  rewrite (bind_run _ _ c (response_success [("tasks", tasks_to_json l)]) c1); [done|]. apply try_catch_Ret.
  rewrite (bind_run_lift _ _ _ _ Hstate). rewrite getStorageFromPool_run in Hrun. rewrite getStorageFromPool_run.
  rewrite (bind_run _ _ _ _ _ Hrun). rewrite (bind_run task_store _ _ _ _ eq_refl). by rewrite (bind_run_lift _ _ _ _ Hl).
Qed.
End files.
