(* ===== verification/ServerFrames.v ===== *)
(** * Reading requests from the byte stream

    The messages a session takes from its connection, against a reference that cuts
    the whole text at once ([frame_of]): how the bytes are cut into chunks does not
    matter, what [writeResponse] sends is read back as the response, and a header with
    a bad length throws out of the completion handler. *)

From stdpp Require Import pretty.
From Stdlib Require Import Ascii.
From S2P Require Import Prelude Text Json Effects Task NodeQueue LockFree SkipList QueueManager Storage CLICommands TCPServer.

#[local] Arguments String.append : simpl nomatch.

(** ** The reference *)

(** The first message of a text: no whole header yet, a header that announces [n]
    bytes and the part of the body there is, a message and what follows it, or a
    header whose length cannot be read. *)
Inductive frame : Type :=
| NoHeader
| NeedBody (n : Z) (part : string)
| Message (message rest : string)
| BadHeader (what : string).

Definition frame_of (text : string) : frame :=
  match find header_end text with
  | None => NoHeader
  | Some pos =>
      let rest := str_drop (pos + 4) text in
      match header_content_length (str_take (pos + 4) text) with
      | Ret n =>
          if decide (0 < n) then
            if decide (n ≤ str_len rest) then Message (str_take (Z.to_nat n) rest) (str_drop (Z.to_nat n) rest)
            else NeedBody n rest
          else Message "{}" rest
      | Throw what => BadHeader what
      | Undef | Diverge => NoHeader
      end
  end.

Definition complete (f : frame) : bool :=
  match f with Message _ _ | BadHeader _ => true | _ => false end.

(** ** Texts *)

Lemma starts_with_app_l pat a b : starts_with pat a = true → starts_with pat (a +:+ b) = true.
Proof. rewrite !starts_with_spec. intros [t ->]. exists (t +:+ b). by rewrite str_app_assoc. Qed.

Lemma find_bound pat s pos : find pat s = Some pos → (pos + String.length pat ≤ String.length s)%nat.
Proof.
  revert pos. induction s as [|c s IH]; intros pos; cbn [find].
  - destruct (starts_with pat "") eqn:E; [|done]. intros [= <-].
    apply starts_with_spec in E as [t E]. destruct pat; [done|discriminate].
  - destruct (starts_with pat (String c s)) eqn:E.
    + intros [= <-]. apply starts_with_spec in E as [t ->]. rewrite str_length_app. lia.
    + destruct (find pat s) as [q|]; intros [= <-]. specialize (IH q eq_refl). cbn. lia.
Qed.

Lemma find_app_l pat a b pos : find pat a = Some pos → find pat (a +:+ b) = Some pos.
Proof.
  revert pos. induction a as [|c a IH]; intros pos; cbn [find].
  - destruct (starts_with pat "") eqn:E; [|done]. intros [= <-].
    apply find_head. by apply (starts_with_app_l pat "").
  - destruct (starts_with pat (String c a)) eqn:E.
    + intros [= <-]. by apply find_head, starts_with_app_l.
    + destruct (find pat a) as [q|] eqn:Eq; intros [= <-]. cbn [String.append find].
      destruct (starts_with pat (String c (a +:+ b))) eqn:E'.
      * exfalso. apply find_bound in Eq. apply starts_with_spec in E' as [t E'].
        assert (starts_with pat (String c a) = true); [|congruence]. clear E IH.
        apply starts_with_spec. exists (str_drop (String.length pat) (String c a)).
        rewrite <-(str_take_drop (String.length pat) (String c a)) at 1. f_equal.
        apply (f_equal (str_take (String.length pat))) in E'. rewrite str_take_app in E' by done.
        rewrite <-E'. change (String c (a +:+ b)) with (String c a +:+ b).
        assert (Hlen : (String.length pat ≤ String.length (String c a))%nat) by (cbn; lia).
        clear -Hlen. revert Hlen. generalize (String c a). generalize (String.length pat).
        intros n. induction n as [|n IHn]; intros [|d s] Hn; cbn in *; [done..|lia|]. f_equal. apply IHn. lia.
      * by rewrite (IH q eq_refl).
Qed.

Lemma str_take_app_l n a b : (n ≤ String.length a)%nat → str_take n (a +:+ b) = str_take n a.
Proof. revert a. induction n as [|n IH]; intros [|c a] Hn; cbn in *; [done..|lia|]. f_equal. apply IH. lia. Qed.

Lemma str_drop_app_l n a b : (n ≤ String.length a)%nat → str_drop n (a +:+ b) = str_drop n a +:+ b.
Proof. revert a. induction n as [|n IH]; intros [|c a] Hn; cbn in *; [done..|lia|]. apply IH. lia. Qed.

(** Bytes after a header change neither the header nor the length it announces. *)
Lemma frame_of_app text c : find header_end text ≠ None → frame_of (text +:+ c) =
  match frame_of text with
  | NoHeader => NoHeader
  | NeedBody n part =>
      if decide (n ≤ str_len (part +:+ c)) then
        Message (str_take (Z.to_nat n) (part +:+ c)) (str_drop (Z.to_nat n) (part +:+ c))
      else NeedBody n (part +:+ c)
  | Message m rest => Message m (rest +:+ c)
  | BadHeader what => BadHeader what
  end.
Proof.
  intros Hf. unfold frame_of. destruct (find header_end text) as [pos|] eqn:E; [|done].
  rewrite (find_app_l _ _ _ _ E). apply find_bound in E. change (String.length header_end) with 4%nat in E.
  rewrite str_take_app_l, str_drop_app_l by done.
  destruct (header_content_length (str_take (pos + 4) text)) as [n|w| |]; try done.
  destruct (decide (0 < n)); [|done]. unfold str_len. rewrite str_length_app.
  destruct (decide (n ≤ Z.of_nat (String.length (str_drop (pos + 4) text)))); [|by rewrite str_length_app].
  rewrite decide_True by lia. by rewrite str_take_app_l, str_drop_app_l by lia.
Qed.

(** ** A session that reads *)

Section frames.
Context `{J : JsonLib} `{R : RocksDB}.

#[local] Opaque header_end.

(** [x] with another object for the session [s]. *)
Definition put (s : loc) (ses : Session) (x : server) : server := set_objects (<[s := ses]> (objects x)) x.

Lemma put_put s a b x : put s a (put s b x) = put s a x.
Proof. unfold put, set_objects. cbn. by rewrite insert_insert_eq. Qed.

Lemma put_lookup s a x : objects (put s a x) !! s = Some a.
Proof. cbn. apply lookup_insert_eq. Qed.

Lemma put_run {A} s a (f : unit → M server A) x :
  (modify (λ x, set_objects (<[s := a]> (objects x)) x) ≫= f) x = f tt (put s a x).
Proof. done. Qed.

Lemma session_run {A} (k : Session → M server A) s ses x :
  objects x !! s = Some ses → (session s ≫= k) x = k ses x.
Proof. intros Hs. unfold session, get_state. unfold mbind, M_bind at 1 2. cbn. by rewrite Hs. Qed.

Lemma update_session_run s f ses x : objects x !! s = Some ses → update_session s f x = (Ret tt, put s (f ses) x).
Proof.
  intros Hs. unfold update_session, modify, put. do 2 f_equal. apply map_eq. intros s'.
  destruct (decide (s = s')) as [<-|Hne].
  - by rewrite lookup_alter_eq, lookup_insert_eq, Hs.
  - by rewrite lookup_alter_ne, lookup_insert_ne.
Qed.

(** The object of a session, and the text it has received since its last message. *)
Definition reading (text : string) (ses : Session) : Prop :=
  active_ ses = true ∧
  ((io ses = [ReadUntil] ∧ read_buffer_ ses = text) ∨
   (∃ n part, frame_of text = NeedBody n part ∧ io ses = [ReadAtLeast n] ∧ read_buffer_ ses = part)).

Definition waiting_object (text : string) (ses : Session) : Session :=
  match frame_of text with
  | NeedBody n part => set_io [ReadAtLeast n] (set_buffer part ses)
  | _ => set_io [ReadUntil] (set_buffer text ses)
  end.

(** What one chunk does to a session that has received [text]. *)
Definition received (now end_time : Z) (s : loc) (text : string) (ses : Session) (x : server)
    : outcome unit * server :=
  match frame_of text with
  | Message m rest => handleMessage now end_time s m (put s (set_io [] (set_buffer rest ses)) x)
  | BadHeader what =>
      (Throw what, put s (set_io [] (set_buffer (str_drop (default 0%nat (find header_end text) + 4) text) ses)) x)
  | _ => (Ret tt, put s (waiting_object text ses) x)
  end.

Lemma take_body_run now end_time s n ses x :
  objects x !! s = Some ses → take_body now end_time s n x =
  handleMessage now end_time s (str_take (Z.to_nat n) (read_buffer_ ses))
    (put s (set_buffer (str_drop (Z.to_nat n) (read_buffer_ ses)) ses) x).
Proof.
  intros Hs. unfold take_body. rewrite (session_run _ s ses x Hs).
  by rewrite (bind_run _ _ _ _ _ (update_session_run s _ ses x Hs)).
Qed.

Lemma receive_frame now end_time s text ses c x :
  objects x !! s = Some ses → reading text ses →
  receive now end_time s c x = received now end_time s (text +:+ c) ses x.
Proof.
  intros Hs [Hact Hread]. destruct ses as [buf act rc la l]. cbn in Hact. subst act.
  unfold receive. rewrite get_state_run. unfold pending. rewrite Hs. cbn [mbind option_bind].
  destruct Hread as [[Hio Hbuf]|(n & part & Hf & Hio & Hbuf)]; cbn in Hio, Hbuf; subst l buf; cbn [io read_buffer_ set_io].
  - unfold received, waiting_object, frame_of. destruct (find header_end (text +:+ c)) as [pos|] eqn:Ef; cbn [default].
    2:{ by rewrite (update_session_run s _ _ x Hs). }
    rewrite put_run. unfold on_header.
    rewrite (session_run _ s _ _ (put_lookup s _ x)). cbn [read_buffer_ set_buffer].
    rewrite (bind_run _ _ _ _ _ (update_session_run s _ _ _ (put_lookup s _ x))). cbn [set_buffer].
    rewrite put_put. destruct (header_content_length (str_take (pos + 4) (text +:+ c))) as [n|w| |] eqn:Eh; [|done|..].
    2,3: unfold header_content_length, stoul, sto_unsigned in Eh; by repeat case_match.
    rewrite bind_run_lift with (a := n) by done. destruct (decide (0 < n)); [|by rewrite put_put || idtac].
    unfold readBody. rewrite (session_run _ s _ _ (put_lookup s _ x)). cbn [active_ read_buffer_ set_buffer set_io].
    destruct (decide (n ≤ str_len (str_drop (pos + 4) (text +:+ c)))).
    + rewrite (take_body_run _ _ _ _ _ _ (put_lookup s _ x)). cbn. by rewrite put_put.
    + unfold start_io. rewrite (update_session_run _ _ _ _ (put_lookup s _ x)). cbn. by rewrite put_put.
  - assert (Hh : find header_end text ≠ None) by (unfold frame_of in Hf; by destruct (find header_end text)).
    unfold received, waiting_object. rewrite frame_of_app, Hf by done.
    destruct (decide (n ≤ str_len (part +:+ c))).
    + rewrite put_run.
      rewrite (take_body_run _ _ _ _ _ _ (put_lookup s _ x)). cbn. by rewrite put_put.
    + by rewrite (update_session_run s _ _ x Hs).
Qed.

(** What [received] gives depends on the object only up to its buffer and its
    pending operation. *)
Definition same_rest (a b : Session) : Prop := ∀ l t, set_io l (set_buffer t a) = set_io l (set_buffer t b).

Lemma received_same now end_time s text a b x y :
  same_rest a b → (∀ c, put s c x = put s c y) →
  received now end_time s text a x = received now end_time s text b y.
Proof.
  intros Hab Hxy. unfold received, waiting_object.
  destruct (frame_of text) as [|n part|m rest|w]; by rewrite Hab, Hxy.
Qed.

Lemma complete_app text c : complete (frame_of text) = true → complete (frame_of (text +:+ c)) = true.
Proof.
  destruct (find header_end text) as [pos|] eqn:E.
  - rewrite frame_of_app by congruence. destruct (frame_of text); done.
  - unfold frame_of at 1. by rewrite E.
Qed.

Lemma reading_object text ses : complete (frame_of text) = false → active_ ses = true →
  reading text (waiting_object text ses).
Proof.
  intros Hc Hact. unfold waiting_object. destruct (frame_of text) as [|n part|m rest|w] eqn:E; try done.
  - split; [done|]. by left.
  - split; [done|]. right. by exists n, part.
Qed.

Lemma waiting_same text ses : same_rest (waiting_object text ses) ses.
Proof. intros l t. unfold waiting_object. by destruct (frame_of text). Qed.

(** The chunks that arrive for one session: bytes and two clock readings. *)
Definition chunk : Type := string * Z * Z.

Definition joined (chunks : list chunk) : string := foldr (λ c text, c.1.1 +:+ text) "" chunks.

Definition receive_all (s : loc) (chunks : list chunk) : M server unit :=
  mapM_ (λ c, receive c.1.2 c.2 s c.1.1) chunks.

(** Chunks that do not complete a message leave the session reading. *)
Lemma receive_incomplete s chunks text ses x :
  objects x !! s = Some ses → reading text ses → complete (frame_of (text +:+ joined chunks)) = false →
  ∃ ses' x', receive_all s chunks x = (Ret tt, x') ∧ objects x' !! s = Some ses' ∧
    reading (text +:+ joined chunks) ses' ∧ same_rest ses' ses ∧ ∀ c, put s c x' = put s c x.
Proof.
  revert text ses x. induction chunks as [|[[c now] et] chunks IH]; intros text ses x Hs Hr Hc.
  - exists ses, x. unfold joined. cbn. by rewrite str_app_nil_r.
  - cbn [joined foldr fst] in *. fold (joined chunks) in *. rewrite <-str_app_assoc in Hc.
    assert (Hc' : complete (frame_of (text +:+ c)) = false).
    { destruct (complete (frame_of (text +:+ c))) eqn:E; [|done].
      by rewrite (complete_app _ (joined chunks) E) in Hc. }
    assert (Hstep : receive now et s c x = (Ret tt, put s (waiting_object (text +:+ c) ses) x)).
    { rewrite (receive_frame _ _ _ _ _ _ _ Hs Hr). unfold received. by destruct (frame_of (text +:+ c)). }
    destruct (IH (text +:+ c) (waiting_object (text +:+ c) ses) (put s (waiting_object (text +:+ c) ses) x))
      as (ses' & x' & Hrun & Hs' & Hr' & Hsame & Hput).
    { apply put_lookup. }
    { apply reading_object; [done|apply Hr]. }
    { done. }
    exists ses', x'. rewrite str_app_assoc in Hr'. split_and!; [|done|done| |].
    + unfold receive_all. cbn [mapM_]. by rewrite (bind_run _ _ _ _ _ Hstep).
    + intros l t. rewrite Hsame. apply waiting_same.
    + intros a. by rewrite Hput, put_put.
Qed.

(** C8: However the bytes of a request are cut into chunks, the session acts as if the
    reference had cut the whole text: the message goes to [handleMessage] with the
    bytes after it left in the buffer, and a header with a bad length throws. *)
Theorem framing_independent_of_chunks s ses x chunks c now end_time
    (Hs : objects x !! s = Some ses) (Hact : active_ ses = true) (Hio : io ses = [ReadUntil])
    (Hbefore : complete (frame_of (read_buffer_ ses +:+ joined chunks)) = false) :
  let text := read_buffer_ ses +:+ joined (chunks ++ [(c, now, end_time)]) in
  let run := receive_all s (chunks ++ [(c, now, end_time)]) x in
  match frame_of text with
  | Message m rest =>
      run = handleMessage now end_time s m (put s (set_io [] (set_buffer rest ses)) x)
  | BadHeader what => run.1 = Throw what
  | NeedBody n part => run = (Ret tt, put s (set_io [ReadAtLeast n] (set_buffer part ses)) x)
  | NoHeader => run = (Ret tt, put s (set_io [ReadUntil] (set_buffer text ses)) x)
  end.
Proof.
  intros text run. assert (Hr : reading (read_buffer_ ses) ses) by (split; [done|]; by left).
  destruct (receive_incomplete s chunks _ ses x Hs Hr Hbefore) as (ses' & x' & Hrun & Hs' & Hr' & Hsame & Hput).
  assert (Ht : text = (read_buffer_ ses +:+ joined chunks) +:+ c).
  { unfold text. clear. rewrite str_app_assoc. f_equal. induction chunks as [|d l IH]; cbn.
    - apply str_app_nil_r.
    - unfold joined in *. by rewrite IH, str_app_assoc. }
  assert (Hfinal : run = received now end_time s text ses x).
  { unfold run, receive_all. rewrite mapM_app, (bind_run _ _ _ _ _ Hrun). cbn [mapM_ fst snd].
    rewrite Ht, <-(received_same _ _ _ _ _ _ _ _ Hsame Hput), <-(receive_frame _ _ _ _ _ _ _ Hs' Hr').
    apply bind_ret_run. }
  rewrite Hfinal. unfold received, waiting_object. by destruct (frame_of text).
Qed.
End frames.

(** ** Messages and their headers *)

(** No carriage return. *)
Fixpoint no_cr (s : string) : bool :=
  match s with
  | EmptyString => true
  | String c s => negb (bool_decide (c = ascii_of_nat 13)) && no_cr s
  end.

Lemma find_header_skip a s : no_cr a = true →
  find header_end (a +:+ s) = (λ n, (String.length a + n)%nat) <$> find header_end s.
Proof.
  induction a as [|c a IH]; cbn [no_cr String.append String.length].
  - intros _. by destruct (find header_end s).
  - intros [Hc Ha]%andb_prop. apply negb_true_iff, bool_decide_eq_false in Hc. cbn [find].
    assert (Hs : starts_with header_end (String c (a +:+ s)) = false).
    { unfold header_end, crlf. cbn. by rewrite bool_decide_false by congruence. }
    rewrite Hs, IH by done. by destruct (find header_end s).
Qed.

(** A line break with a line after it. *)
Lemma find_header_crlf c s : c ≠ ascii_of_nat 13 →
  find header_end (crlf +:+ String c s) = (λ n, (2 + n)%nat) <$> find header_end (String c s).
Proof.
  intros Hc. unfold crlf at 1. cbn [String.append find].
  assert (H1 : starts_with header_end (String (ascii_of_nat 13) (String (ascii_of_nat 10) (String c s))) = false).
  { unfold header_end, crlf. cbn [starts_with String.append]. rewrite (bool_decide_false (_ = c)) by congruence.
    by rewrite !bool_decide_true by done. }
  assert (H2 : starts_with header_end (String (ascii_of_nat 10) (String c s)) = false) by done.
  rewrite H1, H2. destruct (starts_with header_end (String c s)); [done|]. by destruct (find header_end s).
Qed.

Lemma find_header_line a s : a ≠ "" → no_cr a = true →
  find header_end (crlf +:+ a +:+ s) = (λ n, (2 + (String.length a + n))%nat) <$> find header_end s.
Proof.
  intros Hne Ha. destruct a as [|c a]; [done|]. pose proof Ha as [Hc _]%andb_prop.
  apply negb_true_iff, bool_decide_eq_false in Hc. cbn [String.append].
  rewrite find_header_crlf by done. change (String c (a +:+ s)) with (String c a +:+ s).
  rewrite find_header_skip by done. by destruct (find header_end s).
Qed.

Lemma find_header_end s : find header_end (crlf +:+ crlf +:+ s) = Some 0%nat.
Proof. by apply find_head. Qed.

Lemma no_cr_go x s : no_cr (pretty_N_go x s) = no_cr s.
Proof.
  revert s. induction (N.lt_wf_0 x) as [x _ IH]; intros s.
  destruct (decide (x = 0)%N) as [->|Hx]; [by rewrite pretty_N_go_0|].
  rewrite pretty_N_go_step by lia. rewrite IH by (apply N.div_lt; lia). cbn.
  pose proof (is_nat_char (x `mod` 10) ltac:(apply N.mod_lt; lia)) as Hd.
  rewrite bool_decide_false; [done|]. intros E. by rewrite E in Hd.
Qed.

Lemma no_cr_to_string n : 0 ≤ n → no_cr (to_string n) = true.
Proof.
  intros Hn. destruct (decide (n = 0)) as [->|Hne]; [done|].
  rewrite to_string_pos by lia. by rewrite no_cr_go.
Qed.

(** A request with no other header line. *)
Definition request_message (body : string) : string :=
  "Content-Length: " +:+ to_string (str_len body) +:+ crlf +:+ crlf +:+ body.

(** The text of a header up to its end, the length it announces, and a body of that
    length. *)
Lemma frame_of_message header body rest n :
  find header_end (header +:+ body +:+ rest) = Some (String.length header - 4)%nat →
  (4 ≤ String.length header)%nat → header_content_length header = Ret n → 0 < n → n = str_len body →
  frame_of (header +:+ body +:+ rest) = Message body rest.
Proof.
  intros Hf Hlen Hn Hpos ->. unfold frame_of. rewrite Hf.
  rewrite str_take_app, str_drop_app, Hn by lia. rewrite decide_True by done.
  unfold str_len in *. rewrite str_length_app, decide_True by lia.
  by rewrite str_take_app, str_drop_app by lia.
Qed.

Lemma response_frame body rest : body ≠ "" → str_len body < 2 ^ 64 →
  frame_of (response_message body +:+ rest) = Message body rest.
Proof.
  intros Hne Hfit. assert (Hpos : 0 < str_len body) by (unfold str_len; destruct body; [done|cbn [String.length]; lia]).
  pose proof (no_cr_to_string (str_len body) ltac:(lia)) as Hcr.
  set (tail := crlf +:+ "Connection: keep-alive" +:+ crlf +:+ crlf).
  set (front := "HTTP/1.1 200 OK" +:+ crlf +:+ "Content-Type: application/json" +:+ crlf +:+ "Content-Length:").
  set (header := front +:+ (" " +:+ to_string (str_len body) +:+ tail)).
  assert (Hm : response_message body +:+ rest = header +:+ body +:+ rest).
  { unfold response_message, header, front, tail. by rewrite !str_app_assoc. }
  rewrite Hm. apply (frame_of_message _ _ _ (str_len body)); [| |  |done|done].
  + unfold header, front, tail. rewrite !str_app_assoc.
    rewrite find_header_skip, !find_header_line by done. rewrite (find_header_skip " "), find_header_skip by done.
    rewrite find_header_line, find_header_end by done. cbn [fmap option_fmap option_map].
    f_equal. rewrite !str_length_app. cbn. lia.
  + unfold header. rewrite str_length_app. cbn. lia.
  + unfold header_content_length, header. rewrite (find_app_l _ front _ 49) by done.
    rewrite str_drop_app by done. apply sto_unsigned_to_string; [lia|done|done].
Qed.

Lemma request_frame body rest : body ≠ "" → str_len body < 2 ^ 64 →
  frame_of (request_message body +:+ rest) = Message body rest.
Proof.
  intros Hne Hfit. assert (Hpos : 0 < str_len body) by (unfold str_len; destruct body; [done|cbn [String.length]; lia]).
  pose proof (no_cr_to_string (str_len body) ltac:(lia)) as Hcr.
  set (header := "Content-Length:" +:+ (" " +:+ to_string (str_len body) +:+ header_end)).
  assert (Hm : request_message body +:+ rest = header +:+ body +:+ rest).
  { unfold request_message, header, header_end. by rewrite !str_app_assoc. }
  rewrite Hm. apply (frame_of_message _ _ _ (str_len body)); [| | |done|done].
  + unfold header, header_end at 2. rewrite !str_app_assoc. rewrite !find_header_skip, find_header_end by done.
    cbn [fmap option_fmap option_map]. f_equal. rewrite !str_length_app. cbn. lia.
  + unfold header. rewrite !str_length_app. cbn. lia.
  + unfold header_content_length, header. rewrite (find_app_l _ "Content-Length:" _ 0) by done.
    rewrite str_drop_app by done. apply sto_unsigned_to_string; [lia|done|done].
Qed.

(** C30: What [writeResponse] sends is one message whose body is the text of the response,
    and so is a request with that length; a client that cuts the stream as the server
    does gets back every response, whatever follows. *)
Theorem message_roundtrip body rest (Hne : body ≠ "") (Hfit : str_len body < 2 ^ 64) :
  frame_of (response_message body +:+ rest) = Message body rest ∧
  frame_of (request_message body +:+ rest) = Message body rest.
Proof. split; [by apply response_frame|by apply request_frame]. Qed.
