(* ===== verification/ServerProps.v ===== *)
(** * Requests in flight, sessions and connections

    Invariants of the server over all sequences of events: each connection has at
    most one request on its way, the session of a request is alive as long as no
    session is removed under it, and the connection counter agrees with the sessions.
    Then what removing a session under a request does. *)

From S2P Require Import Prelude Text Json Effects Task NodeQueue LockFree SkipList QueueManager Storage CLICommands TCPServer ServerFrames.

Lemma omap_insert {A B} (f : A → option B) l i a : l !! i = Some a →
  ∃ k, omap f l ≡ₚ option_list (f a) ++ k ∧ ∀ b, omap f (<[i := b]> l) ≡ₚ option_list (f b) ++ k.
Proof.
  revert i. induction l as [|c l IH]; intros [|i] Hi; [done..| |]; cbn in Hi.
  - injection Hi as ->. exists (omap f l). split; [|intros b]; cbn; by case_match.
  - destruct (IH i Hi) as (k & Hk & Hins). exists (option_list (f c) ++ k). split; [|intros b]; cbn.
    + destruct (f c); cbn; rewrite Hk; [|done]. apply Permutation_middle.
    + destruct (f c); cbn; rewrite Hins; [|done]. apply Permutation_middle.
Qed.

Section flight.
Context `{J : JsonLib} `{R : RocksDB} `{SL : SearchLoop}.
Context (markCancelled : Z → Task → Task) (execute : Task → outcome unit).
Context (tasks_to_json : list Task → json) (order : nat → list nat).
Context (metrics_to_json : gmap string metric → json).

Local Abbreviation fire := (fire markCancelled execute tasks_to_json order).
Local Abbreviation run_events := (run_events markCancelled execute tasks_to_json order).

Definition worker_session (t : worker) : option loc :=
  match t with
  | Executing w | Replying w _ => Some (w_session w)
  | _ => None
  end.

(** The sessions of the requests that are queued or with a worker. *)
Definition outstanding (x : server) : list loc :=
  (w_session <$> work_queue_ x) ++ omap worker_session (worker_threads_ x).

Record in_flight (x : server) : Prop := {
  fl_nodup : NoDup (outstanding x);
  fl_io : ∀ s ses, objects x !! s = Some ses → (length (io ses) ≤ 1)%nat;
  fl_busy : ∀ s, s ∈ outstanding x → ∃ ses, objects x !! s = Some ses ∧ io ses = [] ∧ active_ ses = true;
  fl_listed : ∀ s ses, objects x !! s = Some ses → active_ ses = true → s ∈ sessions_ x
}.

(** What an event of the session [s] does: its object changes, and it may queue one
    request. *)
Record session_step (s : loc) (x x' : server) : Prop := {
  st_counter : active_connections_ (k_counters (s_core x')) = active_connections_ (k_counters (s_core x));
  st_handlers : command_handlers_ x' = command_handlers_ x;
  st_running : running_ x' = running_ x;
  st_sessions : sessions_ x' = sessions_ x;
  st_workers : worker_threads_ x' = worker_threads_ x;
  st_object : ∃ ses' added, objects x' = <[s := ses']> (objects x) ∧
    work_queue_ x' = work_queue_ x ++ added ∧ Forall (λ w, w_session w = s) added ∧
    (length (io ses') + length added ≤ 1)%nat ∧
    (active_ ses' = true → ∃ old, objects x !! s = Some old ∧ active_ old = true) ∧
    (added ≠ [] → active_ ses' = true)
}.

Lemma session_step_put s a old x : objects x !! s = Some old → (length (io a) ≤ 1)%nat →
  (active_ a = true → active_ old = true) → session_step s x (put s a x).
Proof.
  intros Hs Ha Hact. split; try done. exists a, []. rewrite app_nil_r.
  split_and!; [done..|cbn; lia|eauto|done].
Qed.

Lemma session_step_put_r s a old x x' : session_step s (put s a x) x' →
  objects x !! s = Some old → (active_ a = true → active_ old = true) → session_step s x x'.
Proof.
  intros [H1 H2 H3 H4 H5 (ses' & added & Ho & Hq & Hadd & Hlen & Hact & Hnew)] Hs Ha. split; try done.
  exists ses', added. split; [rewrite Ho; cbn; by rewrite insert_insert_eq|]. split_and!; try done.
  intros Hact'. destruct (Hact Hact') as (o & Ho' & Hoa). rewrite put_lookup in Ho'. injection Ho' as <-. eauto.
Qed.

Lemma session_step_refl s ses x : objects x !! s = Some ses → (length (io ses) ≤ 1)%nat → session_step s x x.
Proof.
  intros Hs Hio. split; try done. exists ses, []. rewrite app_nil_r, insert_id by done.
  split_and!; [done..|cbn; lia|eauto|done].
Qed.

(** The counters of requests do not matter. *)
Lemma session_step_metrics s t x x' :
  session_step s (updateRequestMetrics t x).2 x' → session_step s x x'.
Proof. intros [H1 H2 H3 H4 H5 H6]. by split. Qed.

Lemma put_id s ses x : objects x !! s = Some ses → put s ses x = x.
Proof. intros Hs. unfold put, set_objects. rewrite insert_id by done. by destruct x. Qed.

Lemma writeResponse_inv s r ses x x' : objects x !! s = Some ses → writeResponse s r x = (Ret tt, x') →
  ∃ l, (length l ≤ 1)%nat ∧ x' = put s (set_io (io ses ++ l) ses) x.
Proof.
  intros Hs. unfold writeResponse. rewrite (session_run _ s ses x Hs). destruct (active_ ses).
  - unfold lift, mbind, M_bind. destruct (json_dump r) as [t|w| |]; try done.
    unfold start_io. rewrite (update_session_run _ _ _ _ Hs). intros [= <-]. eexists [_]. by split.
  - intros [= <-]. exists []. split; [cbn; lia|]. rewrite app_nil_r, put_id by (by destruct ses). done.
Qed.

Lemma writeResponse_step s r ses x x' : objects x !! s = Some ses → io ses = [] →
  writeResponse s r x = (Ret tt, x') → session_step s x x'.
Proof.
  intros Hs Hio (l & Hl & ->)%(writeResponse_inv _ _ ses); [|done].
  apply (session_step_put _ _ ses); [done|by rewrite Hio|done].
Qed.

Lemma handleMessage_step now end_time s m ses x x' : objects x !! s = Some ses → io ses = [] →
  handleMessage now end_time s m x = (Ret tt, x') → session_step s x x'.
Proof.
  intros Hs Hio. unfold handleMessage. rewrite (session_run _ s ses x Hs).
  destruct (active_ ses) eqn:Hact; [|intros [= <-]; apply (session_step_refl s ses); [done|rewrite Hio; cbn; lia]].
  rewrite (bind_run _ _ _ _ _ (update_session_run s _ ses x Hs)).
  set (ses1 := mkSession _ _ _ _ _). intros Hrun. apply (session_step_put_r s ses1 ses); [|done|done].
  assert (Hact1 : active_ ses1 = true) by done.
  assert (Hs1 : objects (put s ses1 x) !! s = Some ses1) by apply put_lookup.
  assert (Hio1 : io ses1 = []) by done. revert Hrun. clearbody ses1. generalize dependent (put s ses1 x).
  clear x ses Hs Hio Hact. intros x Hs.
  destruct (parse_request m) as [[[command params]|]|what| |]; try done.
  2,3: cbn zeta; rewrite (bind_run (updateRequestMetrics _) _ x tt _ eq_refl); intros Hrun; apply (session_step_metrics s (elapsed now end_time));
    by apply (writeResponse_step s _ ses1) in Hrun.
  intros [= <-]. split; try done. exists ses1, [mkWork _ s command params now]. cbn.
  rewrite insert_id, Hio1 by done. split_and!; [done..|by repeat constructor|cbn; lia|eauto|done].
Qed.

(** Continue with [lem] after the object of the session was replaced. *)
Ltac after_put lem H := eapply lem; [..|exact H]; [apply put_lookup|done].

Lemma readHeader_step s ses x x' : objects x !! s = Some ses → io ses = [] →
  readHeader s x = (Ret tt, x') → session_step s x x'.
Proof.
  intros Hs Hio. unfold readHeader. rewrite (session_run _ s ses x Hs). destruct (active_ ses).
  - unfold start_io. rewrite (update_session_run _ _ _ _ Hs). intros [= <-].
    apply (session_step_put _ _ ses); [done|cbn; by rewrite Hio|done].
  - intros [= <-]. apply (session_step_refl s ses); [done|rewrite Hio; cbn; lia].
Qed.

Lemma take_body_step now end_time s n ses x x' : objects x !! s = Some ses → io ses = [] →
  take_body now end_time s n x = (Ret tt, x') → session_step s x x'.
Proof.
  intros Hs Hio. rewrite (take_body_run _ _ _ _ _ _ Hs). intros Hrun.
  eapply (session_step_put_r _ _ ses); [after_put handleMessage_step Hrun|done|done].
Qed.

Lemma on_header_step now end_time s n ses x x' : objects x !! s = Some ses → io ses = [] →
  on_header now end_time s n x = (Ret tt, x') → session_step s x x'.
Proof.
  intros Hs Hio. unfold on_header. rewrite (session_run _ s ses x Hs).
  rewrite (bind_run _ _ _ _ _ (update_session_run s _ ses x Hs)). unfold lift at 1, mbind, M_bind at 1.
  destruct (header_content_length _) as [k|w| |]; try done. intros Hrun.
  apply (session_step_put_r s (set_buffer (str_drop n (read_buffer_ ses)) ses) ses); [|done..]. revert Hrun.
  case_decide; [|intros Hrun; after_put handleMessage_step Hrun].
  unfold readBody. rewrite (session_run _ s _ _ (put_lookup s _ x)).
  case_match; [case_decide|].
  - intros Hrun. after_put take_body_step Hrun.
  - unfold start_io. rewrite (update_session_run _ _ _ _ (put_lookup s _ x)). intros [= <-].
    eapply session_step_put; [apply put_lookup|cbn; by rewrite Hio|done].
  - intros [= <-]. eapply session_step_refl; [apply put_lookup|]. cbn. rewrite Hio. cbn. lia.
Qed.

(** Events of a session: nothing happens, or a pending operation ends. *)
Definition session_event (s : loc) (x x' : server) : Prop :=
  x' = x ∨ ∃ ses, objects x !! s = Some ses ∧ io ses ≠ [] ∧ session_step s x x'.

Lemma pending_inv s x o ses : pending s x = Some (o, ses) → in_flight x →
  ∃ old, objects x !! s = Some old ∧ io old = [o] ∧ ses = set_io [] old.
Proof.
  unfold pending. destruct (objects x !! s) as [old|] eqn:Hs; [|done]. cbn. intros Hp Hfl.
  pose proof (fl_io x Hfl s old Hs) as Hlen. destruct (io old) as [|o' [|]] eqn:Hio; [done| |cbn in Hlen; lia].
  injection Hp as <- <-. by exists old.
Qed.

Lemma receive_step now end_time s bytes x x' : in_flight x →
  receive now end_time s bytes x = (Ret tt, x') → session_event s x x'.
Proof.
  intros Hfl. unfold receive. rewrite get_state_run.
  destruct (pending s x) as [[o ses]|] eqn:Hp; [|intros [= <-]; by left].
  destruct (pending_inv _ _ _ _ Hp Hfl) as (old & Hs & Hio & ->).
  assert (Hmore : ∀ b, update_session s (set_buffer b) x = (Ret tt, x') → session_event s x x').
  { intros b. rewrite (update_session_run _ _ _ _ Hs). intros [= <-]. right. exists old.
    rewrite Hio. split_and!; [done..|]. apply (session_step_put _ _ old); [done|cbn; by rewrite Hio|done]. }
  assert (Hdone : ∀ a, session_step s (put s a x) x' → active_ a = active_ old → session_event s x x').
  { intros a Hst Ha. right. exists old. rewrite Hio. split_and!; [done..|].
    eapply (session_step_put_r _ _ old); [done|done|]. by rewrite Ha. }
  destruct o as [|n|m]; [| |intros [= <-]; by left].
  - destruct (find _ _) as [pos|]; [|apply Hmore]. rewrite put_run. intros Hrun.
    eapply Hdone; [after_put on_header_step Hrun|done].
  - case_decide; [|apply Hmore]. rewrite put_run. intros Hrun.
    eapply Hdone; [after_put take_body_step Hrun|done].
Qed.

Lemma io_error_step s x x' : in_flight x → io_error s x = (Ret tt, x') → session_event s x x'.
Proof.
  intros Hfl. unfold io_error. rewrite get_state_run.
  destruct (pending s x) as [[o ses]|] eqn:Hp; [|intros [= <-]; by left].
  destruct (pending_inv _ _ _ _ Hp Hfl) as (old & Hs & Hio & ->). rewrite put_run.
  unfold Session_stop. rewrite (update_session_run _ _ _ _ (put_lookup s _ x)), put_put. intros [= <-].
  right. exists old. rewrite Hio. split_and!; [done..|].
  by apply (session_step_put _ _ old); [|cbn; lia|].
Qed.

Lemma on_write_step s x x' : in_flight x → on_write s x = (Ret tt, x') → session_event s x x'.
Proof.
  intros Hfl. unfold on_write. rewrite get_state_run.
  destruct (pending s x) as [[o ses]|] eqn:Hp; [|intros [= <-]; by left].
  destruct (pending_inv _ _ _ _ Hp Hfl) as (old & Hs & Hio & ->).
  destruct o; [intros [= <-]; by left..|]. rewrite put_run. intros Hrun.
  right. exists old. rewrite Hio. split_and!; [done..|]. 
  eapply (session_step_put_r _ _ old); [after_put readHeader_step Hrun|done..].
Qed.

(** An net_event of a session that has no request on its way keeps the invariant. *)
Lemma session_event_flight s x x' : in_flight x → session_event s x x' → in_flight x'.
Proof.
  intros Hfl [->|(ses & Hs & Hne & [_ _ _ Hsess Hwork (ses' & added & Ho & Hq & Hadd & Hlen & Hact & Hnew)])];
    [done|]. destruct Hfl as [Hnd Hio Hbusy Hlist].
  assert (Hidle : s ∉ outstanding x).
  { intros Hin. destruct (Hbusy s Hin) as (ses0 & Hs0 & Hio0 & _). congruence. }
  assert (Hout : outstanding x' ≡ₚ (w_session <$> added) ++ outstanding x).
  { unfold outstanding. rewrite Hq, Hwork, fmap_app. by rewrite <-app_assoc, Permutation_app_swap_app. }
  assert (Hadd' : ∀ s', s' ∈ w_session <$> added → s' = s ∧ io ses' = [] ∧ active_ ses' = true).
  { intros s' (w & -> & Hw)%list_elem_of_fmap. rewrite Forall_forall in Hadd. split; [by apply Hadd|].
    destruct added as [|? l]; [set_solver|]. cbn in Hlen. split; [|by apply Hnew].
    by destruct (io ses'); [|cbn in Hlen; lia]. }
  split.
  - rewrite Hout. apply NoDup_app. split_and!; [| |done].
    + destruct added as [|w [|]]; [constructor|apply NoDup_singleton|cbn in Hlen; lia].
    + intros s' [-> _]%Hadd'. done.
  - intros s' ses0. rewrite Ho. intros [[<- <-]|[? ?]]%lookup_insert_Some; [lia|eauto].
  - intros s'. rewrite Hout, elem_of_app, Ho. intros [(-> & ? & ?)%Hadd'|Hin].
    + exists ses'. by rewrite lookup_insert_eq.
    + rewrite lookup_insert_ne by (intros ->; done). by apply Hbusy.
  - intros s' ses0. rewrite Ho, Hsess. intros [[<- <-]|[? ?]]%lookup_insert_Some; [|eauto].
    intros (old & Hold & Ha)%Hact. eauto.
Qed.

Lemma reap_flight x : in_flight x → in_flight (reap x).2.
Proof.
  intros [Hnd Hio Hbusy Hlist]. split; cbn; [done|..].
  - intros s ses [Hs _]%map_lookup_filter_Some. eauto.
  - intros s Hin. destruct (Hbusy s Hin) as (ses & Hs & ? & Hact). exists ses. split; [|done].
    apply map_lookup_filter_Some. split; [done|]. left. by eapply Hlist.
  - intros s ses [Hs _]%map_lookup_filter_Some. eauto.
Qed.

(** A change of the workers and the queue that keeps the outstanding requests. *)
Lemma outstanding_flight x x' : in_flight x → objects x' = objects x → sessions_ x' = sessions_ x →
  outstanding x' ≡ₚ outstanding x → in_flight x'.
Proof.
  intros [Hnd Hio Hbusy Hlist] Ho Hs Hout. split; rewrite ?Ho, ?Hs; [by rewrite Hout|done| |done].
  intros s. rewrite Hout. apply Hbusy.
Qed.

Lemma worker_step_flight i x x' : in_flight x → server_worker_step i x = (Ret tt, x') → in_flight x'.
Proof.
  intros Hfl. unfold server_worker_step. rewrite get_state_run.
  destruct (worker_threads_ x !! i) as [t|] eqn:Ht; [|by intros [= <-]].
  destruct (omap_insert worker_session _ _ _ Ht) as (k & Hk & Hins).
  assert (Hset : ∀ t' q, option_list (worker_session t') ++ (w_session <$> q) ≡ₚ
      option_list (worker_session t) ++ (w_session <$> work_queue_ x) →
    in_flight (set_workers (<[i := t']> (worker_threads_ x)) (set_work q x))).
  { intros t' q Heq. apply (outstanding_flight x); [done..|]. unfold outstanding. cbn. rewrite Hk, Hins.
    trans ((option_list (worker_session t') ++ (w_session <$> q)) ++ k); [solve_Permutation|].
    rewrite Heq. solve_Permutation. }
  destruct t as [| |w|w r|]; try (by intros [= <-]).
  - intros [= <-]. destruct x. apply (Hset (if _ : bool then Waiting else Exited)). by case_match.
  - destruct (last (work_queue_ x)) as [w|] eqn:Hl.
    + apply last_Some in Hl as [q Hq]. rewrite modify_run. intros [= <-]. cbn.
      apply (Hset (Executing w)). rewrite Hq, removelast_last, fmap_app. cbn. solve_Permutation.
    + destruct (workers_running_ x); [by intros [= <-]|]. intros [= <-]. destruct x. by apply (Hset Exited).
Qed.

Lemma session_alive {A} s (k : Session → M server A) x a x' :
  (session s ≫= k) x = (Ret a, x') → ∃ ses, objects x !! s = Some ses ∧ k ses x = (Ret a, x').
Proof.
  destruct (objects x !! s) as [ses|] eqn:Hs; [rewrite (session_run _ _ _ _ Hs); eauto|].
  unfold session. rewrite bind_assoc, get_state_run. unfold mbind, M_bind, lift. by rewrite Hs.
Qed.

Lemma worker_run_flight e end_time i x x' : in_flight x →
  worker_run markCancelled execute tasks_to_json order e end_time i x = (Ret tt, x') → in_flight x'.
Proof.
  intros Hfl. unfold worker_run. rewrite get_state_run.
  destruct (worker_threads_ x !! i) as [[| |w| |]|] eqn:Ht; try (by intros [= <-]).
  intros (ses & _ & Hrun)%session_alive. revert Hrun. unfold zoom, mbind, M_bind at 1.
  destruct (executeCommand _ _ _ _ _ _ _ _ _) as [[r|w'| |] k]; try done.
  intros [= <-]. destruct (omap_insert worker_session _ _ _ Ht) as (l & Hl & Hins).
  apply (outstanding_flight x); [done..|]. unfold outstanding. cbn. by rewrite Hins, Hl.
Qed.

Lemma worker_reply_flight i x x' : in_flight x → worker_reply i x = (Ret tt, x') → in_flight x'.
Proof.
  intros Hfl. unfold worker_reply. rewrite get_state_run.
  destruct (worker_threads_ x !! i) as [[| | |w r|]|] eqn:Ht; try (by intros [= <-]).
  unfold try_catch, mbind, M_bind at 1. destruct (writeResponse (w_session w) r x) as [o x1] eqn:Hw.
  destruct o as [[]|? | |]; try done. intros [= <-].
  destruct (omap_insert worker_session _ _ _ Ht) as (l & Hl & Hins).
  assert (Hout : outstanding x ≡ₚ w_session w :: (w_session <$> work_queue_ x) ++ l).
  { unfold outstanding. rewrite Hl. cbn. solve_Permutation. }
  destruct Hfl as [Hnd Hio Hbusy Hlist]. rewrite Hout in Hnd. apply NoDup_cons in Hnd as [Hnew Hnd].
  destruct (Hbusy (w_session w)) as (ses & Hs & Hi & Hact); [rewrite Hout; left|].
  apply (writeResponse_inv _ _ ses) in Hw as (ops & Hops & ->); [|done].
  assert (Hout' : outstanding (set_workers (<[i := AtLoop]> (worker_threads_ x))
      (put (w_session w) (set_io (io ses ++ ops) ses) x)) ≡ₚ (w_session <$> work_queue_ x) ++ l).
  { unfold outstanding. cbn. by rewrite Hins. }
  split; cbn [objects sessions_ set_workers put set_objects].
  - by rewrite Hout'.
  - intros s' ses' [[<- <-]|[? ?]]%lookup_insert_Some; [cbn; by rewrite Hi|eauto].
  - intros s' Hin. rewrite Hout' in Hin. rewrite lookup_insert_ne by (intros <-; done).
    apply Hbusy. rewrite Hout. by right.
  - intros s' ses' [[<- <-]|[? ?]]%lookup_insert_Some; cbn; eauto.
Qed.

(** What accepting a connection does to the parts the invariants speak of. *)
Lemma accept_inv now error x x' : accept now error x = (Ret tt, x') →
  command_handlers_ x' = command_handlers_ x ∧ running_ x' = running_ x ∧
  work_queue_ x' = work_queue_ x ∧ worker_threads_ x' = worker_threads_ x ∧
  ((objects x' = objects x ∧ sessions_ x' = sessions_ x ∧ s_core x' = s_core x) ∨
   (let s := fresh (dom (objects x)) in
    objects x' = <[s := mkSession "" true 0 now [ReadUntil]]> (objects x) ∧
    sessions_ x' = {[s]} ∪ sessions_ x ∧
    active_connections_ (k_counters (s_core x')) = w64 (active_connections_ (k_counters (s_core x)) + 1))).
Proof.
  unfold accept. rewrite get_state_run. destruct (accepting x); [|intros [= <-]; by eauto 10].
  rewrite modify_run. unfold handleAccept. rewrite get_state_run. cbn [running_ set_accepting].
  destruct (running_ x) eqn:Hrun; [|intros [= <-]; cbn; by eauto 10].
  destruct error.
  - intros [= <-]. cbn. rewrite Hrun. cbn. by eauto 10.
  - cbn zeta. cbn [objects set_accepting]. set (s := fresh (dom (objects x))).
    rewrite !bind_assoc. unfold counters_update. rewrite modify_run, !bind_assoc, modify_run.
    set (y := with_counters _ _). assert (Hy : objects y !! s = Some (new_Session now)) by apply lookup_insert_eq.
    unfold Session_start. rewrite !bind_assoc, (bind_run _ _ _ _ _ (update_session_run s _ _ _ Hy)).
    unfold readHeader. rewrite bind_assoc, (session_run _ s _ _ (put_lookup s _ y)). cbn [active_ set_session_active].
    unfold start_io. rewrite (bind_run _ _ _ _ _ (update_session_run s _ _ _ (put_lookup s _ y))), put_put.
    intros [= <-]. cbn. rewrite Hrun. cbn. split_and!; [done..|]. right. by rewrite insert_insert_eq.
Qed.

Lemma accept_flight now error x x' : in_flight x → accept now error x = (Ret tt, x') → in_flight x'.
Proof.
  intros Hfl (_ & _ & Hq & Hw & Hcase)%accept_inv.
  assert (Hout : outstanding x' = outstanding x) by (unfold outstanding; by rewrite Hq, Hw).
  destruct Hcase as [(Ho & Hs & _)|(Ho & Hs & _)].
  { apply (outstanding_flight x); [done..|]. by rewrite Hout. }
  destruct Hfl as [Hnd Hio Hbusy Hlist].
  assert (Hnew : objects x !! fresh (dom (objects x)) = None) by apply not_elem_of_dom, is_fresh.
  split; rewrite ?Hout, ?Ho, ?Hs; [done|..].
  - intros s' ses [[<- <-]|[? ?]]%lookup_insert_Some; [done|eauto].
  - intros s' Hin. destruct (Hbusy s' Hin) as (ses & Hses & ?). exists ses.
    rewrite lookup_insert_ne by congruence. done.
  - intros s' ses [[<- <-]|[? ?]]%lookup_insert_Some; [set_solver|]. intros ?.
    apply elem_of_union. right. eauto.
Qed.

(** At a tick of the monitor no open connection has been idle for five minutes. *)
Definition no_idle (now : Z) (x : server) : Prop :=
  ∀ s ses, objects x !! s = Some ses → active_ ses = true → isActive now ses = true.

Lemma monitor_flight now x x' : in_flight x → no_idle now x → monitor now x = (Ret tt, x') → in_flight x'.
Proof.
  intros [Hnd Hio Hbusy Hlist] Hidle. unfold monitor. rewrite get_state_run.
  destruct (running_ x); [|by intros [= <-]]. intros [= <-]. split; cbn; [done..|].
  intros s ses Hs Hact. pose proof (Hlist s ses Hs Hact). apply elem_of_difference. split; [done|].
  rewrite elem_of_filter, Hs, (Hidle s ses Hs Hact). by intros [? _].
Qed.

(** The server is not stopped, and the monitor finds no idle connection. *)
Fixpoint connected (evs : list net_event) (x : server) : Prop :=
  match evs with
  | [] => True
  | ev :: evs =>
      match ev with EStop => False | EMonitor now => no_idle now x | _ => True end ∧
      ∀ x', fire ev x = (Ret tt, x') → connected evs x'
  end.

Lemma fire_flight ev x x' : in_flight x →
  match ev with EStop => False | EMonitor now => no_idle now x | _ => True end →
  fire ev x = (Ret tt, x') → in_flight x'.
Proof.
  intros Hfl Hev. unfold TCPServer.fire. unfold mbind, M_bind at 1.
  match goal with |- match ?m with _ => _ end = _ → _ => destruct m as [o x1] eqn:Hm end.
  destruct o as [[]|?| |]; try done. intros [= <-]. apply reap_flight.
  destruct ev; try done; eauto using accept_flight, receive_step, io_error_step, on_write_step, session_event_flight,
    worker_step_flight, worker_run_flight, worker_reply_flight, monitor_flight.
Qed.

Lemma run_events_cons ev evs x x' : run_events (ev :: evs) x = (Ret tt, x') →
  ∃ x1, fire ev x = (Ret tt, x1) ∧ run_events evs x1 = (Ret tt, x').
Proof.
  unfold TCPServer.run_events. cbn [mapM_]. unfold mbind, M_bind.
  destruct (fire ev x) as [[[]|?| |] x1]; try done. eauto.
Qed.

(** The server after its constructor and [start]. *)
Definition started (c : cli) : server := (server_start (new_TCPServer metrics_to_json c)).2.

(** C4: As long as the server runs and no connection idles for five minutes, whatever the
    clients send and however the threads interleave: no session has two operations
    pending, two requests on their way or both, and the session a worker will reply to
    is alive, active and still listed. *)
Theorem one_request_per_session c evs x' (Hconn : connected evs (started c))
    (Hrun : run_events evs (started c) = (Ret tt, x')) :
  NoDup (outstanding x') ∧
  (∀ s ses, objects x' !! s = Some ses → (length (io ses) ≤ 1)%nat ∧ (io ses ≠ [] → s ∉ outstanding x')) ∧
  (∀ s, s ∈ outstanding x' → s ∈ sessions_ x' ∧ ∃ ses, objects x' !! s = Some ses ∧ active_ ses = true).
Proof.
  assert (Hfl : in_flight x').
  { assert (H0 : in_flight (started c)) by (split; cbn; [constructor|set_solver..]). revert H0 Hconn Hrun.
    generalize (started c). induction evs as [|ev evs IH]; intros x Hx; [by intros _ [= <-]|].
    intros [Hev Hrest] (x1 & Hf & Hrun)%run_events_cons. eapply IH; [|by apply Hrest|done].
    by eapply fire_flight. }
  destruct Hfl as [Hnd Hio Hbusy Hlist]. split_and!; [done|..].
  - intros s ses Hs. split; [by eapply Hio|]. intros Hne Hin. destruct (Hbusy s Hin) as (ses0 & Hs0 & ? & _).
    congruence.
  - intros s Hin. destruct (Hbusy s Hin) as (ses & Hs & _ & Hact). split; [by eapply Hlist|]. eauto.
Qed.

(** ** The connection counter *)

(** The parts of the server that handling a request does not change. *)
Definition frame_inv (y x : server) : Prop :=
  command_handlers_ x = command_handlers_ y ∧ running_ x = running_ y ∧ sessions_ x = sessions_ y ∧
  active_connections_ (k_counters (s_core x)) = active_connections_ (k_counters (s_core y)) ∧
  sessions_ x ⊆ dom (objects x).

Lemma hoare_session I s : hoare I (session s) (λ _, True).
Proof. intros x Hx. unfold session. rewrite get_state_run. by destruct (objects x !! s). Qed.

Lemma hoare_update y s f : hoare (frame_inv y) (update_session s f) (λ _, True).
Proof. apply hoare_modify. intros x (? & ? & ? & ? & ?). split_and!; try done. cbn. by rewrite dom_alter. Qed.

Lemma hoare_put y s a :
  hoare (frame_inv y) (modify (λ x, set_objects (<[s := a]> (objects x)) x)) (λ _, True).
Proof. apply hoare_modify. intros x (? & ? & ? & ? & ?). split_and!; try done. cbn. set_solver. Qed.

Lemma hoare_queueWork y w : hoare (frame_inv y) (queueWork w) (λ _, True).
Proof. by apply hoare_modify. Qed.

Lemma hoare_metrics y t : hoare (frame_inv y) (updateRequestMetrics t) (λ _, True).
Proof. by apply hoare_modify. Qed.

Lemma hoare_set_worker y i t : hoare (frame_inv y) (set_worker i t) (λ _, True).
Proof. by apply hoare_modify. Qed.

Create HintDb frame.
#[local] Hint Resolve hoare_lift_any hoare_session hoare_update hoare_put hoare_queueWork
  hoare_metrics hoare_set_worker hoare_ret_any : frame.

(** Walk through a computation whose steps are known. *)
Ltac frame :=
  repeat lazymatch goal with
  | |- hoare _ (get_state ≫= _) _ => apply hoare_read; intros ?x ?Hx
  | |- hoare _ (_ ≫= _) _ => apply hoare_seq; [|intros ?]
  | |- hoare _ (match _ with _ => _ end) _ => case_match
  | |- hoare _ (let _ := _ in _) _ => cbn zeta
  | |- hoare _ _ _ => solve [auto 1 with frame nocore]
  end.

Lemma hoare_readHeader y s : hoare (frame_inv y) (readHeader s) (λ _, True).
Proof. unfold readHeader, start_io. frame. Qed.

Lemma hoare_writeResponse y s r : hoare (frame_inv y) (writeResponse s r) (λ _, True).
Proof. unfold writeResponse, start_io. frame. Qed.
#[local] Hint Resolve hoare_readHeader hoare_writeResponse : frame.

Lemma hoare_handleMessage y now end_time s m : hoare (frame_inv y) (handleMessage now end_time s m) (λ _, True).
Proof. unfold handleMessage, undef. frame. Qed.
#[local] Hint Resolve hoare_handleMessage : frame.

Lemma hoare_take_body y now end_time s n : hoare (frame_inv y) (take_body now end_time s n) (λ _, True).
Proof. unfold take_body. frame. Qed.
#[local] Hint Resolve hoare_take_body : frame.

Lemma hoare_on_header y now end_time s n : hoare (frame_inv y) (on_header now end_time s n) (λ _, True).
Proof. unfold on_header, readBody, start_io. frame. Qed.
#[local] Hint Resolve hoare_on_header : frame.

Lemma hoare_receive y now end_time s b : hoare (frame_inv y) (receive now end_time s b) (λ _, True).
Proof. unfold receive. frame. Qed.

Lemma hoare_io y s : hoare (frame_inv y) (io_error s) (λ _, True) ∧ hoare (frame_inv y) (on_write s) (λ _, True).
Proof. unfold io_error, on_write, Session_stop. split; frame. Qed.

Lemma hoare_worker_step y i : hoare (frame_inv y) (server_worker_step i) (λ _, True).
Proof. unfold server_worker_step. frame; by apply hoare_modify. Qed.

Lemma hoare_worker_reply y i : hoare (frame_inv y) (worker_reply i) (λ _, True).
Proof. unfold worker_reply, undef. frame. apply hoare_try; auto with frame. Qed.

(** No command changes the counters of the server. *)
Lemma executeCommand_counters e name params k :
  k_counters (executeCommand markCancelled execute tasks_to_json order
    (registerDefaultHandlers metrics_to_json ∅) e name params k).2 = k_counters k.
Proof.
  unfold executeCommand. destruct (decide (name = "metrics")) as [->|Hne].
  - unfold registerDefaultHandlers, registerCommand. by rewrite lookup_insert_eq.
  - unfold registerDefaultHandlers, registerCommand. rewrite lookup_insert_ne, lookup_empty by done.
    destruct (builtin _ _ _ _ _ _ _) as [m|]; [|done]. unfold try_catch, on_cli, zoom.
    by destruct (m (k_cli k)) as [[]].
Qed.

Record counted (x : server) : Prop := {
  co_handlers : command_handlers_ x = registerDefaultHandlers metrics_to_json ∅;
  co_alive : sessions_ x ⊆ dom (objects x);
  co_count : running_ x = true → getActiveConnections x = w64 (Z.of_nat (size (sessions_ x)))
}.

Lemma frame_counted x x' : counted x → frame_inv x x' → counted x'.
Proof.
  intros [Hh Ha Hc] (Hh' & Hr & Hs & Hn & Ha'). split; [congruence|done|].
  unfold getActiveConnections in *. rewrite Hn, Hs, Hr. done.
Qed.

Lemma hoare_counted {A} (m : M server A) x : counted x → hoare (frame_inv x) m (λ _, True) → counted (m x).2.
Proof. intros Hx Hm. apply (frame_counted x); [done|]. apply Hm. by destruct Hx. Qed.

Lemma monitor_counted now x : counted x → counted (monitor now x).2.
Proof.
  intros [Hh Ha Hc]. unfold monitor. rewrite get_state_run. destruct (running_ x) eqn:Hr; [|split; cbn; [done..|congruence]].
  unfold cleanupInactiveSessions, act. cbn zeta beta. set (erased := filter _ _).
  assert (Hsub : erased ⊆ sessions_ x) by (intros s; unfold erased; set_solver).
  split; [done|cbn; set_solver|]. intros _. unfold getActiveConnections. cbn.
  unfold getActiveConnections in Hc. rewrite Hc by done. rewrite w64_sub_l. f_equal.
  rewrite size_difference by done. apply subseteq_size in Hsub. lia.
Qed.

Lemma accept_counted now error x : counted x → (accept now error x).1 = Ret tt → counted (accept now error x).2.
Proof.
  intros [Hh Ha Hc]. destruct (accept now error x) as [o x'] eqn:E. cbn. intros ->.
  apply accept_inv in E as (Hh' & Hr & _ & _ & [(Ho & Hs & Hk)|(Ho & Hs & Hk)]).
  { split; [congruence|by rewrite Ho, Hs|]. unfold getActiveConnections. by rewrite Hk, Hr, Hs. }
  split; [congruence|rewrite Ho, Hs, dom_insert; set_solver|].
  intros Hrun. unfold getActiveConnections in *. rewrite Hk, Hc, w64_add_l by congruence. f_equal. rewrite Hs.
  rewrite size_union, size_singleton; [lia|]. intros s ->%elem_of_singleton Hin.
  apply Ha in Hin. by apply is_fresh in Hin.
Qed.

Lemma worker_run_counted e end_time i x : counted x →
  counted (worker_run markCancelled execute tasks_to_json order e end_time i x).2.
Proof.
  intros Hx. pose proof Hx as [Hh Ha _]. apply (frame_counted x); [done|]. unfold worker_run. rewrite get_state_run.
  destruct (worker_threads_ x !! i) as [[| |w| |]|]; try (by split_and!).
  unfold session. rewrite bind_assoc, get_state_run. unfold lift at 1, mbind, M_bind at 1.
  destruct (objects x !! w_session w); cbn; [|by split_and!]. rewrite Hh. unfold zoom, M_bind at 1.
  pose proof (executeCommand_counters e (w_command w) (w_params w) (s_core x)) as Hk.
  destruct (executeCommand _ _ _ _ _ _ _ _ _) as [[r|w'| |] k]; cbn in *; split_and!; cbn; congruence || done.
Qed.

Lemma reap_counted x : counted x → counted (reap x).2.
Proof.
  intros [Hh Ha Hc]. split; cbn; [done| |done]. intros s Hs. pose proof (Ha s Hs) as [ses Hses]%elem_of_dom.
  apply elem_of_dom. exists ses. apply map_lookup_filter_Some. split; [done|]. by left.
Qed.

(** The objects after [stop] was called on the sessions [l]. *)
Definition stop_all (l : list loc) (os : gmap loc Session) : gmap loc Session :=
  foldl (λ m s, alter (set_session_active false) s m) os l.

Lemma mapM_stop l x : mapM_ Session_stop l x = (Ret tt, set_objects (stop_all l (objects x)) x).
Proof.
  revert x. induction l as [|s l IH]; intros x; cbn [mapM_ stop_all foldl]; [by destruct x|].
  rewrite (bind_run (Session_stop s) _ x tt _ eq_refl), IH. done.
Qed.

Lemma stop_all_lookup l os s :
  stop_all l os !! s = (if decide (s ∈ l) then set_session_active false else id) <$> os !! s.
Proof.
  revert os. induction l as [|s' l IH]; intros os; cbn [stop_all foldl].
  - rewrite decide_False by set_solver. by destruct (os !! s).
  - fold (stop_all l (alter (set_session_active false) s' os)). rewrite IH. destruct (decide (s = s')) as [->|Hne].
    + rewrite lookup_alter_eq, (decide_True (P := s' ∈ s' :: l)) by set_solver.
      destruct (os !! s'); cbn; [|done]. by case_decide.
    + rewrite lookup_alter_ne by done. by repeat case_decide; try set_solver.
Qed.

(** What [stop] does to a running server. *)
Definition stopped (x : server) : server :=
  set_work [] (set_workers_running false (set_sessions ∅
    (set_objects (stop_all (elements (sessions_ x)) (objects x)) (set_accepting false false (set_running false x))))).

Lemma server_stop_run x : running_ x = true → server_stop x = (Ret tt, stopped x).
Proof.
  intros Hr. unfold server_stop. rewrite get_state_run, Hr, modify_run.
  by rewrite (bind_run _ _ _ _ _ (mapM_stop _ _)).
Qed.

Lemma fire_counted ev x x' : counted x → fire ev x = (Ret tt, x') → counted x'.
Proof.
  intros Hx. unfold TCPServer.fire. unfold mbind, M_bind at 1.
  match goal with |- match ?m with _ => _ end = _ → _ => destruct m as [o x1] eqn:Hm end.
  destruct o as [[]|?| |]; try done. intros [= <-]. apply reap_counted.
  assert (Hm1 := f_equal fst Hm). assert (Hm2 := f_equal snd Hm). cbn in Hm1, Hm2. rewrite <-Hm2.
  destruct ev as [| |s|s| | | | |]; eauto using hoare_counted, hoare_receive, hoare_worker_step, hoare_worker_reply,
    monitor_counted, accept_counted, worker_run_counted.
  - apply hoare_counted, hoare_io. done.
  - apply hoare_counted, hoare_io. done.
  - rewrite Hm2. destruct (running_ x) eqn:Hr.
    + rewrite server_stop_run in Hm by done. injection Hm as <-. destruct Hx as [Hh _ _].
      by split; [|cbn; set_solver|].
    + unfold server_stop in Hm. rewrite get_state_run, Hr in Hm. by injection Hm as <-.
Qed.

(** C33: While the server runs, the reported number of connections is the number of
    sessions, all of them alive, whatever happens; [stop] forgets the sessions and
    leaves the number. *)
Theorem connections_counted c evs x' (Hrun : run_events evs (started c) = (Ret tt, x')) :
  sessions_ x' ⊆ dom (objects x') ∧
  (running_ x' = true → getActiveConnections x' = w64 (Z.of_nat (size (sessions_ x'))) ∧
   ∃ x'', fire EStop x' = (Ret tt, x'') ∧ sessions_ x'' = ∅ ∧
     getActiveConnections x'' = w64 (Z.of_nat (size (sessions_ x')))).
Proof.
  assert (Hx : counted x').
  { assert (H0 : counted (started c)) by (by split; cbn). revert H0 Hrun.
    generalize (started c). induction evs as [|ev evs IH]; intros x Hx; [by intros [= <-]|].
    intros (x1 & Hf & Hrun)%run_events_cons. eapply IH; [|done]. by eapply fire_counted. }
  destruct Hx as [_ Ha Hc]. split; [done|]. intros Hr. split; [by apply Hc|].
  unfold TCPServer.fire. rewrite (bind_run _ _ _ _ _ (server_stop_run _ Hr)). eexists. split; [done|].
  split; [done|]. rewrite <-Hc by done. done.
Qed.

(** ** A session removed under its request *)

Lemma fire_run ev (m : M server unit) x x1 :
  fire ev x = (m ≫= λ _, reap) x → m x = (Ret tt, x1) → fire ev x = (Ret tt, (reap x1).2).
Proof. intros -> Hm. by rewrite (bind_run _ _ _ _ _ Hm). Qed.

(** A worker that has taken a request of the session [s]. *)
Definition works_for (s : loc) (t : worker) : Prop := worker_session t = Some s.

(** What the worker does next with its request. *)
Definition next_use (i : nat) (t : worker) (ev : net_event) : Prop :=
  match t with
  | Executing _ => ∃ e end_time, ev = EWorkerRun i e end_time
  | Replying _ _ => ev = EWorkerReply i
  | _ => False
  end.

Lemma dead_session_undef s i t x ev : worker_threads_ x !! i = Some t → works_for s t → objects x !! s = None →
  next_use i t ev → (fire ev x).1 = Undef.
Proof.
  intros Hi Ht Hs Hev. destruct t as [| |w|w r|]; try done; injection Ht as <-.
  - destruct Hev as (e & end_time & ->). unfold TCPServer.fire, worker_run. rewrite bind_assoc, get_state_run, Hi.
    unfold session. rewrite !bind_assoc, get_state_run. unfold mbind, M_bind, lift. by rewrite Hs.
  - cbn in Hev. subst ev. unfold TCPServer.fire, worker_reply. rewrite bind_assoc, get_state_run, Hi.
    rewrite bind_assoc. unfold writeResponse, try_catch, session. unfold mbind at 1, M_bind at 1.
    rewrite bind_assoc, get_state_run. unfold mbind, M_bind, lift. by rewrite Hs.
Qed.

(** The session of a request that a worker executes has no operation pending, so it is
    destroyed when the server stops, or when the monitor finds that the request has
    taken five minutes; the worker then uses the destroyed object. *)
Theorem removed_session_undefined s i t ses now ev use x
    (Hrunning : running_ x = true) (Hi : worker_threads_ x !! i = Some t) (Ht : works_for s t)
    (Hs : objects x !! s = Some ses) (Hio : io ses = [])
    (Hev : ev = EStop ∨ ev = EMonitor now ∧ 300000000000 ≤ now - last_activity_ ses)
    (Huse : next_use i t use) :
  ∃ x', fire ev x = (Ret tt, x') ∧ objects x' !! s = None ∧ (fire use x').1 = Undef.
Proof.
  assert (Hdone : ∀ x', worker_threads_ x' = worker_threads_ x → objects x' !! s = None →
    objects x' !! s = None ∧ (fire use x').1 = Undef).
  { intros x' Hw Hnone. split; [done|]. eapply dead_session_undef; [by rewrite Hw|done..]. }
  destruct Hev as [->|[-> Hlate]]; eexists; (split; [|apply Hdone]).
  - apply (fire_run _ server_stop); [done|by apply server_stop_run].
  - done.
  - cbn. apply map_lookup_filter_None. right. intros ses' Hs' [Hin|Hne]; [set_solver|].
    rewrite stop_all_lookup, Hs in Hs'. injection Hs' as <-. cbn in Hne. by case_decide.
  - apply (fire_run _ (monitor now)); [done|]. unfold monitor. by rewrite get_state_run, Hrunning.
  - done.
  - cbn. apply map_lookup_filter_None. right. intros ses' Hs' [Hin|Hne]; cbn in *; [|congruence].
    apply elem_of_difference in Hin as [Hin Hnot]. apply Hnot, elem_of_filter. split; [|done].
    rewrite Hs. unfold isActive. rewrite bool_decide_false by lia. by rewrite andb_false_r.
Qed.

(** ** Complete requests *)

(** A request that is complete is queued, and the session has nothing pending. *)
Definition requested (s : loc) (now : Z) (rest : string) (ses : Session) (w : work) (x : server) : server :=
  set_work (work_queue_ x ++ [w])
    (put s (mkSession rest true (w64 (request_count_ ses + 1)) now []) x).

Lemma receive_request now end_time s ses bytes m rest command params x :
  objects x !! s = Some ses → active_ ses = true → io ses = [ReadUntil] →
  frame_of (read_buffer_ ses +:+ bytes) = Message m rest → parse_request m = Ret (Some (command, params)) →
  receive now end_time s bytes x = (Ret tt, requested s now rest ses (mkWork _ s command params now) x).
Proof.
  intros Hs Hact Hio Hframe Hparse.
  rewrite (receive_frame now end_time s (read_buffer_ ses) ses bytes x Hs) by (split; [done|]; by left).
  unfold received. rewrite Hframe. unfold handleMessage. rewrite (session_run _ s _ _ (put_lookup s _ x)).
  cbn [active_ set_io set_buffer]. rewrite Hact.
  rewrite (bind_run _ _ _ _ _ (update_session_run s _ _ _ (put_lookup s _ x))), put_put. cbn zeta.
  rewrite Hparse. unfold requested. cbn. by rewrite Hact.
Qed.

Lemma fire_receive_request now end_time s ses bytes m rest command params x :
  objects x !! s = Some ses → active_ ses = true → io ses = [ReadUntil] →
  frame_of (read_buffer_ ses +:+ bytes) = Message m rest → parse_request m = Ret (Some (command, params)) →
  fire (EReceive s bytes now end_time) x =
    (Ret tt, (reap (requested s now rest ses (mkWork _ s command params now) x)).2).
Proof. intros. apply (fire_run _ (receive now end_time s bytes)); [done|]. by eapply receive_request. Qed.

Lemma worker_takes i q w x : worker_threads_ x !! i = Some Waiting → work_queue_ x = q ++ [w] →
  server_worker_step i x = (Ret tt, set_workers (<[i := Executing w]> (worker_threads_ x)) (set_work q x)).
Proof.
  intros Hi Hq. unfold server_worker_step. rewrite get_state_run, Hi, Hq, last_snoc, modify_run, removelast_last. done.
Qed.

(** C37: A connection that was idle for five minutes is struck from [sessions_] but not
    closed.  Its pending read keeps the session; the next request is read and queued,
    the session is destroyed with the end of that read, and the worker that takes the
    request uses the destroyed object. *)
Theorem idle_session_request_undefined s i ses now t t' bytes m rest command params e end_time x
    (Hrunning : running_ x = true) (Hs : objects x !! s = Some ses) (Hact : active_ ses = true)
    (Hio : io ses = [ReadUntil]) (Hidle : 300000000000 ≤ now - last_activity_ ses)
    (Hframe : frame_of (read_buffer_ ses +:+ bytes) = Message m rest)
    (Hparse : parse_request m = Ret (Some (command, params)))
    (Hworker : worker_threads_ x !! i = Some Waiting) :
  ∃ x1 x2 x3, fire (EMonitor now) x = (Ret tt, x1) ∧ s ∉ sessions_ x1 ∧ objects x1 !! s = Some ses ∧
    fire (EReceive s bytes t t') x1 = (Ret tt, x2) ∧ objects x2 !! s = None ∧
    fire (EWorkerStep i) x2 = (Ret tt, x3) ∧ (fire (EWorkerRun i e end_time) x3).1 = Undef.
Proof.
  set (x1 := (reap (cleanupInactiveSessions now x).2).2).
  assert (Hgone : s ∉ sessions_ x1).
  { unfold x1. cbn. rewrite elem_of_difference, elem_of_filter, Hs. unfold isActive.
    rewrite (bool_decide_false (_ < _)) by lia. rewrite andb_false_r. tauto. }
  assert (Hs1 : objects x1 !! s = Some ses).
  { unfold x1. cbn. apply map_lookup_filter_Some. split; [done|]. right. cbn. by rewrite Hio. }
  set (w := mkWork _ s command params t). set (x2 := (reap (requested s t rest ses w x1)).2).
  assert (Hdead : objects x2 !! s = None).
  { unfold x2. cbn. apply map_lookup_filter_None. right. intros ses'. rewrite lookup_insert_eq.
    intros [= <-] [Hin|Hne]; done. }
  exists x1, x2, (reap (set_workers (<[i := Executing w]> (worker_threads_ x2)) (set_work (work_queue_ x1) x2))).2.
  split_and!; [|done|done| |done| |].
  - apply (fire_run _ (monitor now)); [done|]. unfold monitor. by rewrite get_state_run, Hrunning.
  - by apply fire_receive_request with m.
  - apply (fire_run _ (server_worker_step i)); [done|]. by apply worker_takes.
  - eapply (dead_session_undef s i (Executing w)); [|done| |by exists e, end_time].
    + cbn. apply list_lookup_insert_eq. by eapply lookup_lt_Some.
    + cbn. apply map_lookup_filter_None. by left.
Qed.

Lemma reap_lookup s x : s ∈ sessions_ x → objects (reap x).2 !! s = objects x !! s.
Proof.
  intros Hin. cbn. rewrite map_lookup_filter. destruct (objects x !! s) as [ses|]; [|done]. cbn.
  rewrite option_guard_True; [done|]. by left.
Qed.

(** A command that is executed is counted. *)
Definition executed (k : core) (response_time_ms : Z) : core :=
  let c := k_counters k in
  mkCore _ (k_cli k) (mkServerCounters (total_connections_ c) (active_connections_ c) (w64 (total_requests_ c + 1))
    (request_errors_ c) (w64 (total_response_time_ms_ c + response_time_ms))).

Lemma worker_runs i w e end_time r k ses x :
  worker_threads_ x !! i = Some (Executing w) → objects x !! w_session w = Some ses →
  executeCommand markCancelled execute tasks_to_json order (command_handlers_ x) e (w_command w) (w_params w)
    (s_core x) = (Ret r, k) →
  worker_run markCancelled execute tasks_to_json order e end_time i x =
    (Ret tt, set_workers (<[i := Replying w r]> (worker_threads_ x))
               (set_core (executed k (elapsed (w_start w) end_time)) x)).
Proof.
  intros Hi Hs Hcmd. unfold worker_run. rewrite get_state_run, Hi, (session_run _ _ ses) by done.
  assert (Hz : zoom s_core set_core (executeCommand markCancelled execute tasks_to_json order (command_handlers_ x) e
    (w_command w) (w_params w)) x = (Ret r, set_core k x)) by (unfold zoom; by rewrite Hcmd).
  by rewrite (bind_run _ _ _ _ _ Hz).
Qed.

Lemma worker_replies i w r out ses x :
  worker_threads_ x !! i = Some (Replying w r) → objects x !! w_session w = Some ses → active_ ses = true →
  json_dump r = Ret out →
  worker_reply i x = (Ret tt, set_workers (<[i := AtLoop]> (worker_threads_ x))
    (put (w_session w) (set_io (io ses ++ [WriteMessage (response_message out)]) ses) x)).
Proof.
  intros Hi Hs Hact Hout. unfold worker_reply. rewrite get_state_run, Hi.
  assert (Hw : writeResponse (w_session w) r x =
    (Ret tt, put (w_session w) (set_io (io ses ++ [WriteMessage (response_message out)]) ses) x)).
  { unfold writeResponse. rewrite (session_run _ _ ses), Hact by done. rewrite (bind_run_lift _ _ _ out) by done.
    unfold start_io. by rewrite (update_session_run _ _ _ _ Hs). }
  by rewrite (bind_run _ _ _ _ _ (try_catch_Ret _ _ _ _ _ Hw)).
Qed.

Lemma readHeader_run s ses x : objects x !! s = Some ses → active_ ses = true →
  readHeader s x = (Ret tt, put s (set_io (io ses ++ [ReadUntil]) ses) x).
Proof.
  intros Hs Hact. unfold readHeader, start_io. rewrite (session_run _ s ses x Hs), Hact.
  by rewrite (update_session_run _ _ _ _ Hs).
Qed.

End flight.
