(* ===== verification/Main.v ===== *)
(** * main: start, event loop, shutdown

    Models src/main.cpp: the command line, the objects it makes in order, the event
    loop up to the signal, the signal handler, and the exits with the destructors of
    the local objects.

    Boost.ProgramOptions is a parameter ([parse_command_line], which returns the options
    or throws).  Three calls of main name functions the headers do not declare: the
    constructor of TCPServer without a storage, [ThreadPool::getQueueManager] and
    [TCPServer::enableTLS]; the first two are the parameter [make_server], the third
    [enableTLS].  The pool is represented by the number of threads it was started with
    (ThreadPool.v has the rest). *)

From S2P Require Import Prelude Text Json Effects Task NodeQueue LockFree SkipList QueueManager Storage CLICommands TCPServer ServerFrames ServerProps.

Record options : Type := mkOptions {
  help : bool;
  host : string;
  port : Z;
  threads : Z;
  db_path : string;
  tls_cert : option string;
  tls_key : option string
}.

(** The objects of the process: the files with main's storage until there is a server,
    which then holds them; the threads of a started pool; the lines written. *)
Record process `{J : JsonLib} `{R : RocksDB} : Type := mkProcess {
  pr_sys : sys;
  pr_pool : option Z;
  pr_server : option server;
  pr_output : list string
}.

Section main.
Context `{J : JsonLib} `{R : RocksDB} `{SL : SearchLoop}.
Context (markCancelled : Z → Task → Task) (execute : Task → outcome unit).
Context (tasks_to_json : list Task → json) (order : nat → list nat).
Context (description : string).
Context (parse_command_line : outcome options) (make_server : options → sys → outcome server).
Context (enableTLS : string → string → M server unit).

Abbreviation prog := (M process).

Definition print_line (line : string) : prog unit :=
  modify (λ x, mkProcess _ _ (pr_sys x) (pr_pool x) (pr_server x) (pr_output x ++ [line])).

Definition set_pool (n : option Z) : prog unit :=
  modify (λ x, mkProcess _ _ (pr_sys x) n (pr_server x) (pr_output x)).

Definition with_sys (y : sys) (x : process) : process :=
  mkProcess _ _ y (pr_pool x) (pr_server x) (pr_output x).

(** A member function of the server; nothing before there is one. *)
Definition on_server (m : M server unit) : prog unit := λ x,
  match pr_server x with
  | None => (Ret tt, x)
  | Some srv =>
      let '(r, srv) := m srv in (r, mkProcess _ _ (pr_sys x) (pr_pool x) (Some srv) (pr_output x))
  end.

(** [storage->shutdown()], wherever the files are. *)
Definition shutdown_storage : prog unit := λ x,
  match pr_server x with
  | None => zoom pr_sys with_sys (shutdown ;; mret tt) x
  | Some _ => on_server (zoom s_core set_core (on_cli (on_storage shutdown ;; mret tt))) x
  end.

(** The signal handler, and the destructors of [server], [thread_pool] and [storage],
    which call the same functions in the same order. *)
Definition shut_down : prog unit :=
  on_server server_stop ;; set_pool None ;; shutdown_storage.

(** [io_context.run()]: the events [evs], then the signal. *)
Definition io_run (evs : list net_event) : prog unit :=
  on_server (run_events markCancelled execute tasks_to_json order evs) ;;
  print_line "" ;; print_line "Shutting down..." ;; shut_down.

(** The [try] block of main. *)
Definition main_body (evs : list net_event) : prog Z :=
  opts ← lift parse_command_line;
  if help opts then print_line description ;; mret 1
  else
    modify (λ x, with_sys (set_obj (new_Storage (db_path opts)) (pr_sys x)) x) ;;
    ok ← zoom pr_sys with_sys initialize;
    if negb ok then print_line "Failed to initialize storage" ;; mret 1
    else
      set_pool (Some (threads opts)) ;;
      x ← get_state;
      srv ← lift (make_server opts (pr_sys x));
      modify (λ x, mkProcess _ _ (pr_sys x) (pr_pool x) (Some srv) (pr_output x)) ;;
      (match tls_cert opts, tls_key opts with
       | Some cert, Some key => on_server (enableTLS cert key)
       | _, _ => mret tt
       end) ;;
      on_server server_start ;;
      print_line ("TaskQueueX server started on " +:+ host opts +:+ ":" +:+ to_string (port opts)) ;;
      io_run evs ;;
      mret 0.

(** Leaving the block destroys the objects it made, then the exception is reported. *)
Definition main (evs : list net_event) : prog Z := λ x,
  match main_body evs x with
  | (Ret code, y) => (shut_down ;; mret code) y
  | (Throw what, y) => (shut_down ;; print_line ("Error: " +:+ what) ;; mret 1) y
  | r => r
  end.

(** ** Every exit releases what was acquired *)

(** No server runs, no pool is left, and the database is closed. *)
Definition released (x : process) : Prop :=
  pr_pool x = None ∧
  match pr_server x with
  | None => db_ (obj (pr_sys x)) = false
  | Some srv => running_ srv = false ∧ db_ (c_storage (k_cli (s_core srv))) = false
  end.

Lemma server_stop_not_running (x : server) : ∃ y, server_stop x = (Ret tt, y) ∧ running_ y = false.
Proof.
  destruct (running_ x) eqn:Hr; [by eexists; split; [apply server_stop_run|]|].
  exists x. split; [|done]. unfold server_stop. by rewrite get_state_run, Hr.
Qed.

Lemma shutdown_closes (s : sys) : ∃ s', shutdown s = (Ret true, s') ∧ db_ (obj s') = false.
Proof. unfold shutdown. destruct (db_ (obj s)) eqn:Hd; [by eexists|by exists s]. Qed.

Lemma shut_down_released x : ∃ y, shut_down x = (Ret tt, y) ∧ released y ∧ pr_output y = pr_output x.
Proof.
  unfold shut_down, shutdown_storage. destruct (pr_server x) as [srv|] eqn:Hsrv.
  - destruct (server_stop_not_running srv) as (srv' & Hstop & Hrun).
    assert (Hon : on_server server_stop x =
      (Ret tt, mkProcess _ _ (pr_sys x) (pr_pool x) (Some srv') (pr_output x))).
    { unfold on_server. by rewrite Hsrv, Hstop. }
    rewrite (bind_run _ _ _ _ _ Hon). unfold set_pool. rewrite modify_run. cbn [pr_server].
    unfold on_server. cbn [pr_server]. unfold zoom, on_cli, on_storage.
    destruct (shutdown_closes (mkSys _ (c_disk (k_cli (s_core srv'))) (c_storage (k_cli (s_core srv')))
      (c_next_id (k_cli (s_core srv'))))) as (s' & Hs' & Hclosed).
    unfold zoom, mbind, M_bind. rewrite Hs'. cbn. eexists. by split_and!.
  - assert (Hon : on_server server_stop x = (Ret tt, x)) by (unfold on_server; by rewrite Hsrv).
    rewrite (bind_run _ _ _ _ _ Hon). unfold set_pool. rewrite modify_run. cbn [pr_server]. rewrite Hsrv.
    unfold zoom, mbind, M_bind. cbn [pr_sys]. destruct (shutdown_closes (pr_sys x)) as (s' & Hs' & Hclosed).
    rewrite Hs'. eexists. split_and!; [done|by split|done].
Qed.

Lemma main_body_code evs : hoare (λ _, True) (main_body evs) (λ code, code = 0 ∨ code = 1).
Proof.
  unfold main_body.
  repeat lazymatch goal with
  | |- hoare _ (_ ≫= _) _ => apply hoare_seq; [apply hoare_true|intros ?]
  | |- hoare _ (if _ then _ else _) _ => case_match
  | |- hoare _ (mret _) _ => apply hoare_ret; auto
  end.
Qed.


(** ** A bad header ends the program *)

(** C38: When a header announces a length that is no number, the exception of [stoul] leaves
    the completion handler and the event loop: main reports it and ends with code 1,
    with every connection and all queued work. *)
Theorem bad_length_ends_program opts srv x evs y s ses bytes t t' what rest
    (Hparse : parse_command_line = Ret opts) (Hhelp : help opts = false)
    (Hopen : zoom pr_sys with_sys initialize
       (with_sys (set_obj (new_Storage (db_path opts)) (pr_sys x)) x) = (Ret true, y))
    (Hserver : make_server opts (pr_sys y) = Ret srv) (Htls : tls_cert opts = None)
    (Hrun : (server_start ;; run_events markCancelled execute tasks_to_json order evs) srv = (Ret tt, rest))
    (Hs : objects rest !! s = Some ses) (Hact : active_ ses = true) (Hio : io ses = [ReadUntil])
    (Hframe : frame_of (read_buffer_ ses +:+ bytes) = BadHeader what) :
  ∃ z, main (evs ++ [EReceive s bytes t t']) x = (Ret 1, z) ∧ released z ∧
    last (pr_output z) = Some ("Error: " +:+ what).
Proof.
  assert (Hthrow : ∃ z, main_body (evs ++ [EReceive s bytes t t']) x = (Throw what, z)).
  { unfold main_body. rewrite (bind_run_lift _ _ _ _ Hparse), Hhelp, modify_run, (bind_run _ _ _ _ _ Hopen). cbn [negb].
    unfold set_pool. rewrite modify_run, get_state_run. cbn [pr_sys]. rewrite (bind_run_lift _ _ _ _ Hserver), modify_run, Htls.
    rewrite (bind_run (mret tt) _ _ tt _ eq_refl).
    assert (Hstart : ∃ srv', server_start srv = (Ret tt, srv') ∧
      run_events markCancelled execute tasks_to_json order evs srv' = (Ret tt, rest)).
    { revert Hrun. unfold mbind, M_bind. destruct (server_start srv) as [[[]|?| |] srv']; try done. eauto. }
    destruct Hstart as (srv' & Hstart & Hevs).
    rewrite (bind_run (on_server server_start) _ _ tt
      (mkProcess _ _ (pr_sys y) (Some (threads opts)) (Some srv') (pr_output y))).
    2:{ unfold on_server. cbn [pr_server]. by rewrite Hstart. }
    unfold print_line at 1. rewrite modify_run. unfold io_run. rewrite bind_assoc. unfold on_server, mbind, M_bind at 1. cbn [pr_server].
    unfold run_events. rewrite mapM_app. unfold run_events in Hevs. rewrite (bind_run _ _ _ _ _ Hevs). cbn [mapM_].
    unfold fire, mbind, M_bind at 1 2. rewrite (receive_frame t t' s (read_buffer_ ses) ses bytes rest Hs)
      by (split; [done|]; by left).
    unfold received. rewrite Hframe. eauto. }
  destruct Hthrow as [z Hz]. unfold main. rewrite Hz.
  destruct (shut_down_released z) as (y' & Hy & Hrel & _). rewrite (bind_run _ _ _ _ _ Hy).
  eexists. split; [done|]. split; [done|]. cbn. apply last_snoc.
Qed.
End main.
