(* ===== verification/NetDemo.v ===== *)
(** * Commands and server: worked examples

    A small server on the JSON trees of Json.v and the database in memory of
    Storage.v, and the theorems on the commands and the server applied to it. *)

From S2P Require Import Prelude Text Json Effects Task Dot NodeQueue LockFree SkipList QueueManager.
From S2P Require Import GroupQueues QueueSpec QueueRefine QueueDemo Storage StorageText StorageRefine StorageProps Regex.
From S2P Require Import CLICommands CLIProps TCPServer CLIReplies CLIStatus CLIEnqueue CLIFiles ServerFrames ServerProps Main.

#[local] Existing Instance TreeJson.lib.
#[local] Existing Instance TreeJson.laws.
#[local] Existing Instance MapDB.laws.
#[local] Existing Instance search_from_top.

(** One database library throughout. *)
#[local] Instance db : RocksDB := MapDB.lib true.

(** ** The graph command *)

(** Tasks 1 and 2, each depending on the other, and task 3 on task 1. *)
Definition graph_world : world :=
  let mk id deps := set_dependencies deps (new_Task 0 id "job" MEDIUM).1 in
  mkWorld ∅ {[1%positive := mk 1 [2%positive]; 2%positive := mk 2 [1%positive]; 3%positive := mk 3 [1%positive]]}
    (set_task_map {[1 := 1%positive; 2 := 2%positive; 3 := 3%positive]} new_QueueManager).

Lemma graph_returns_iff_acyclic_witness :
  reaches_cycle graph_world 3 ∧ (∀ depth, addNode depth graph_world 3 = Diverge) ∧
  ¬ ∃ dot, cli_generateDOTGraph graph_world 3 = Ret dot.
Proof.
  assert (Hlive : ∀ id t, findTask id graph_world = Some t → is_Some (tasks graph_world !! t)).
  { intros id t Ht. unfold findTask in Ht. cbn in Ht.
    repeat (apply lookup_insert_Some in Ht as [[_ <-]|[_ Ht]]; [by vm_compute; eauto|]).
    apply lookup_singleton_Some in Ht as [_ <-]. by vm_compute; eauto. }
  assert (Hc : reaches_cycle graph_world 3).
  { exists 1. split; [apply rtc_once|apply (tc_l _ _ 2); [|apply tc_once]].
    all: do 4 eexists; split_and!; [reflexivity|reflexivity|left|reflexivity|reflexivity]. }
  destruct (graph_returns_iff_acyclic graph_world Hlive 3) as [[Hret _] Hdiv].
  split; [exact Hc|]. split; [exact (Hdiv Hc)|]. intros Hdot. exact (Hret Hdot Hc).
Defined.

(** ** Commands *)

Definition no_cancel (now : Z) (tk : Task) : Task := tk.
Definition run_ok (tk : Task) : outcome unit := Ret tt.
Definition list_json (l : list Task) : json := json_of_list [].
Definition in_order (n : nat) : list nat := seq 0 n.
Definition metrics_json (m : gmap string metric) : json := json_null.

Definition demo_storage : Storage := mkStorage "db" true 0.

Definition demo_cli : cli :=
  mkCli _ (mkWorld ∅ ∅ new_QueueManager) demo_files demo_storage (replicate 32 demo_storage) 0 1 ∅.

Definition demo_params : json := json_object [("name", text "job"); ("group", text "a")].

Lemma demo_pool_opened k : 0 ≤ k < 2 ^ 64 → pool_opened k "db" (c_pool demo_cli).
Proof.
  intros Hk i Hi. exists demo_storage. split; [by apply lookup_replicate_2|]. unfold opened. cbn. by split_and!; try lia.
Qed.

Lemma demo_env_healthy : healthy (R := db) "db" (now demo_env) false.
Proof. apply demo_healthy. Qed.

Lemma demo_db_rep : db_rep (db_contents (c_disk demo_cli) "db") fresh_store.
Proof. apply (rep_db _ _ _ store_rep). Qed.


(** The manager of QueueDemo.v behind the commands. *)
Definition filed_cli : cli :=
  mkCli _ (demo_world FIFO) demo_files demo_storage (replicate 32 demo_storage) 0 4 ∅.

Definition filed_one : Task := set_enqueued_at (now demo_env) (set_status QUEUED (new_Task 0 1 "job" MEDIUM).1).

Lemma filed_ids : map_Forall (λ _ d, 0 ≤ id_ d < 2 ^ 64) (tasks (c_world filed_cli)).
Proof. apply (bool_decide_unpack _). by vm_compute. Qed.

Lemma filed_one_savable : savable (tasks (c_world filed_cli)) filed_one.
Proof. split_and!; [|done|done|apply filed_ids]. split; cbn; unfold INT_MIN, INT_MAX, MEDIUM; try lia; done. Qed.

Definition schedule_params : json := json_object [("task_id", json_of_num 1); ("cron", text "0 0 * * 1")].

Lemma setSchedule_forgets_witness : ∃ c' s',
  cli_setSchedule demo_env schedule_params filed_cli = (Ret (response_success []), c') ∧
  tasks (c_world c') !! 1%positive = Some (json_image filed_one filed_one) ∧
  a_tasks s' = {[1 := json_image filed_one filed_one]}.
Proof.
  destruct (setSchedule_forgets "db" demo_env demo_env_healthy schedule_params 1 "0 0 * * 1" 1%positive filed_one
    filed_cli fresh_store) as (c' & s' & Hrun & _ & Ht & _ & Hs').
  - by vm_compute.
  - by vm_compute.
  - by vm_compute.
  - by vm_compute.
  - by vm_compute.
  - apply filed_one_savable.
  - by apply demo_pool_opened.
  - apply demo_db_rep.
  - exists c', s'. split; [exact Hrun|]. split; [exact Ht|exact Hs'].
Defined.

Definition export_params : json := json_object [("task_id", json_of_num 1)].
Definition import_params : json := json_object [("file", text "task_1.json")].


(** A database with task 1, which is QUEUED, due, and depends on task 2. *)
Definition waiting_one : Task := set_dependencies [2%positive] filed_one.

Definition waiting_sys : sys := (saveTask (now demo_env) (tasks (c_world filed_cli)) (Some waiting_one) demo_sys).2.

Lemma waiting_rep : ∃ a, StorageRefine.rep "db" waiting_sys a ∧ a_tasks a = {[1 := waiting_one]}.
Proof.
  destruct (save_step "db" (now demo_env) (tasks (c_world filed_cli)) false demo_env_healthy demo_sys fresh_store
    (Some waiting_one) store_rep) as (b & s' & a' & Hrun & Hst & Hrep').
  - done.
  - split_and!; [|done|done|apply filed_ids]. split; cbn; unfold INT_MIN, INT_MAX, MEDIUM; try lia; done.
  - assert (E : waiting_sys = s') by exact (f_equal snd Hrun). exists a'. split; [by rewrite E|]. inversion Hst as [|? j ? ? Hj Hw| | | | | | | | | | | |]; subst.
    apply written_reliable in Hw as (_ & Htasks & _). by rewrite Htasks.
Qed.

Definition waiting_cli : cli :=
  mkCli _ (demo_world FIFO) (disk waiting_sys) (obj waiting_sys) (replicate 32 demo_storage) 0 4 ∅.

Lemma ready_ignores_dependencies_witness : ∃ j js c',
  cli_ready demo_env export_params waiting_cli = (Ret (response_success [("tasks", json_of_list [j])]), c') ∧
  js = [j] ∧ dependencies_ waiting_one = [2%positive] ∧
  areDependenciesMet (tasks (c_world waiting_cli)) waiting_one = false.
Proof.
  destruct waiting_rep as (a & Hrep & Ha).
  destruct (ready_ignores_dependencies "db" demo_env demo_env_healthy export_params waiting_cli a)
    as (ids & js & c' & Hrun & Hids & Hall).
  - destruct Hrep. by split.
  - rewrite Ha, dom_singleton_L, elements_singleton in Hids. apply Permutation_singleton_r in Hids as ->.
    rewrite Ha in Hall. cbn in Hall. inversion Hall as [|? j ? js' Hj Hrest]; subst. inversion Hrest; subst.
    exists j, [j], c'. split; [exact Hrun|]. split; [reflexivity|]. split; [reflexivity|]. by vm_compute.
Defined.

Lemma list_ignores_state_witness : ∃ l c',
  cli_list list_json in_order demo_env (json_object [("state", text "failed")]) waiting_cli =
    (Ret (response_success [("tasks", list_json l)]), c') ∧ l = [stored waiting_one] ∧ status_ waiting_one = QUEUED.
Proof.
  destruct waiting_rep as (a & Hrep & Ha).
  destruct (list_ignores_state "db" demo_env demo_env_healthy list_json in_order
    (json_object [("state", text "failed")]) "failed" waiting_cli a) as (l & ids & c' & Hrun & Hl & Hids).
  - reflexivity.
  - intros n. reflexivity.
  - rewrite Ha. by vm_compute.
  - by apply demo_pool_opened.
  - apply Hrep.
  - exists l, c'. split; [exact Hrun|]. rewrite Ha, dom_singleton_L, elements_singleton in Hids.
    apply Permutation_singleton_r in Hids as ->. rewrite Ha in Hl. apply Permutation_singleton_r in Hl. by split.
Defined.

(** ** Sequences of commands *)

Definition demo_core : core := mkCore _ demo_cli (mkServerCounters 0 0 0 0 0).

Definition demo_commands : list command :=
  [(demo_env, "enqueue", demo_params); (demo_env, "dequeue", export_params)].

Lemma cancel_and_kill_fail_witness :
  let run := run_commands no_cancel run_ok list_json in_order (registerDefaultHandlers metrics_json ∅) demo_commands in
  (∃ rs, (run demo_core).1 = Ret rs ∧ length rs = 2%nat) ∧ created (k_cli (run demo_core).2) ∧
  ∀ r, (executeCommand no_cancel run_ok list_json in_order (registerDefaultHandlers metrics_json ∅) demo_env "cancel"
    export_params (run demo_core).2).1 = Ret r → is_error r.
Proof.
  intros run. destruct (run demo_core).1 as [rs|w| |] eqn:Hrs; [|by vm_compute in Hrs..].
  pose proof (cancel_and_kill_fail no_cancel run_ok list_json in_order metrics_json demo_commands demo_core rs
    (run demo_core).2) as [Hk Hfail].
  - apply map_Forall_empty.
  - by repeat constructor.
  - by apply run_pair.
  - split; [exists rs; split; [done|]|split; [exact Hk|]].
    + vm_compute in Hrs. by injection Hrs as <-.
    + intros r Hr. exact (Hfail demo_env "cancel" export_params r (or_introl eq_refl) Hr).
Defined.

Definition fresh_cli : cli := new_CLICommands db_path_ (mkWorld ∅ ∅ new_QueueManager) demo_files demo_storage 1 ∅.

Lemma unopened_pool_fails_witness :
  let run := run_commands no_cancel run_ok list_json in_order (registerDefaultHandlers metrics_json ∅)
    [(demo_env, "setMode", json_object [("mode", text "LIFO")])] in
  let k' := (run (mkCore _ fresh_cli (mkServerCounters 0 0 0 0 0))).2 in
  Forall (λ o, db_ o = false) (c_pool (k_cli k')) ∧
  ¬ ∃ r, (executeCommand no_cancel run_ok list_json in_order (registerDefaultHandlers metrics_json ∅) demo_env "enqueue"
    demo_params k').1 = Ret r ∧ ¬ is_error r.
Proof.
  set (k := mkCore _ fresh_cli _). intros run k'.
  destruct (run k).1 as [rs|w| |] eqn:Hrs; [|by vm_compute in Hrs..].
  assert (Hrun : run k = (Ret rs, k')) by (by apply run_pair).
  unfold run, k, fresh_cli in Hrun.
  destruct (unopened_pool_fails no_cancel run_ok list_json in_order metrics_json _ _ _ _ _ _ _ _ rs k' Hrun)
    as [Hpool Hfail].
  split; [exact Hpool|]. intros (r & Hr & Hok).
  exact (Hok (Hfail demo_env "enqueue" demo_params r (or_introl eq_refl) Hr)).
Defined.

Lemma replies_well_formed_witness : ∃ r,
  (executeCommand no_cancel run_ok list_json in_order ∅ demo_env "status" export_params demo_core).1 = Ret r ∧ reply_ok r.
Proof.
  destruct (replies_well_formed no_cancel run_ok list_json in_order ∅ demo_env "status" export_params demo_core)
    as [_ Hok].
  destruct (executeCommand no_cancel run_ok list_json in_order ∅ demo_env "status" export_params demo_core).1
    as [r|w| |] eqn:E; [|by vm_compute in E..].
  exists r. split; [reflexivity|]. apply Hok; reflexivity.
Defined.

(** ** The server *)

Local Abbreviation demo_run := (run_events no_cancel run_ok list_json in_order).
Local Abbreviation demo_fire := (fire no_cancel run_ok list_json in_order).

(** A request of the [status] command, and its bytes. *)
Definition status_request : string :=
  match json_dump (json_object [("command", text "status"); ("params", export_params)]) with Ret s => s | _ => "" end.

Definition status_bytes : string := request_message status_request.

(** A started server with one connection and a worker that waits for work. *)
Definition demo_server : server :=
  (demo_run [EAccept 0 false; EWorkerStep 0] (started metrics_json demo_cli)).2.

Definition idle_session : Session := mkSession "" true 0 0 [ReadUntil].

Lemma demo_server_session : objects demo_server !! 1%positive = Some idle_session.
Proof. by vm_compute. Qed.

Lemma status_frame : frame_of (read_buffer_ idle_session +:+ status_bytes) = Message status_request "".
Proof. by vm_compute. Qed.

Lemma status_parse : parse_request status_request = Ret (Some ("status", export_params)).
Proof. by vm_compute. Qed.

Lemma framing_independent_of_chunks_witness :
  let cut := 10%nat in
  let chunks := [(str_take cut status_bytes, 1, 1); (str_drop cut status_bytes, 2, 2)] in
  receive_all 1 chunks demo_server =
    handleMessage 2 2 1 status_request (put 1 (set_io [] (set_buffer "" idle_session)) demo_server).
Proof.
  intros cut chunks.
  pose proof (framing_independent_of_chunks 1 idle_session demo_server [(str_take cut status_bytes, 1, 1)]
    (str_drop cut status_bytes) 2 2 demo_server_session eq_refl eq_refl eq_refl) as Hrun.
  cbv zeta in Hrun. revert Hrun.
  match goal with |- match ?f with _ => _ end → _ =>
    assert (Hframe : f = Message status_request "") by (by vm_compute); rewrite Hframe end.
  intros Hrun. exact Hrun.
Defined.

Lemma message_roundtrip_witness :
  frame_of (response_message status_request +:+ "rest") = Message status_request "rest" ∧
  frame_of (request_message status_request +:+ "rest") = Message status_request "rest".
Proof. apply (message_roundtrip status_request "rest"); [by vm_compute|by vm_compute]. Defined.

Definition net_demo_events : list net_event :=
  [EMonitor 0; EAccept 0 false; EReceive 1 status_bytes 1 1; EWorkerStep 0; EAccept 2 false].

Lemma net_demo_runs : demo_run net_demo_events (started metrics_json demo_cli) =
  (Ret tt, (demo_run net_demo_events (started metrics_json demo_cli)).2).
Proof. refine (run_pair (demo_run net_demo_events) (started metrics_json demo_cli) (Ret tt) _). by vm_compute. Qed.

Lemma one_request_per_session_witness :
  let x := (demo_run net_demo_events (started metrics_json demo_cli)).2 in
  NoDup (outstanding x) ∧ outstanding x = [1%positive].
Proof.
  intros x. pose proof net_demo_runs as Hrun. fold x in Hrun.
  destruct (one_request_per_session no_cancel run_ok list_json in_order metrics_json demo_cli net_demo_events x)
    as [Hnd _].
  - split; [by intros s ses Hs|]. intros. do 4 (split; [exact I|intros]). exact I.
  - exact Hrun.
  - split; [exact Hnd|]. by vm_compute.
Defined.

Lemma connections_counted_witness :
  let x := (demo_run net_demo_events (started metrics_json demo_cli)).2 in
  getActiveConnections x = 2 ∧ size (sessions_ x) = 2%nat.
Proof.
  intros x. pose proof net_demo_runs as Hrun. fold x in Hrun.
  destruct (connections_counted no_cancel run_ok list_json in_order metrics_json demo_cli net_demo_events x Hrun)
    as [_ Hcount].
  destruct (Hcount ltac:(by vm_compute)) as [Hc _]. split; [|by vm_compute].
  rewrite Hc. by vm_compute.
Defined.

(** The same server with the request taken by the worker. *)
Definition busy_server : server :=
  (demo_run [EReceive 1 status_bytes 1 1; EWorkerStep 0] demo_server).2.

Definition status_work : work := mkWork _ 1%positive "status" export_params 1.

Definition busy_session : Session := mkSession "" true 1 1 [].

Lemma removed_session_undefined_witness : ∃ x',
  demo_fire EStop busy_server = (Ret tt, x') ∧ objects x' !! 1%positive = None ∧
  (demo_fire (EWorkerRun 0 demo_env 3) x').1 = Undef.
Proof.
  apply (removed_session_undefined no_cancel run_ok list_json in_order 1%positive 0%nat (Executing status_work)
    busy_session 0 EStop (EWorkerRun 0 demo_env 3) busy_server).
  - by vm_compute.
  - vm_cast_no_check (eq_refl (Some (Executing status_work))).
  - reflexivity.
  - by vm_compute.
  - reflexivity.
  - by left.
  - by exists demo_env, 3.
Defined.

Lemma idle_session_request_undefined_witness : ∃ x1 x2 x3,
  demo_fire (EMonitor 300000000000) demo_server = (Ret tt, x1) ∧
  demo_fire (EReceive 1 status_bytes 300000000001 300000000001) x1 = (Ret tt, x2) ∧
  demo_fire (EWorkerStep 0) x2 = (Ret tt, x3) ∧ (demo_fire (EWorkerRun 0 demo_env 300000000002) x3).1 = Undef.
Proof.
  destruct (idle_session_request_undefined no_cancel run_ok list_json in_order 1%positive 0%nat idle_session
    300000000000 300000000001 300000000001 status_bytes status_request "" "status" export_params demo_env 300000000002
    demo_server) as (x1 & x2 & x3 & H1 & _ & _ & H2 & _ & H3 & H4).
  - by vm_compute.
  - apply demo_server_session.
  - reflexivity.
  - reflexivity.
  - cbn. lia.
  - apply status_frame.
  - apply status_parse.
  - vm_cast_no_check (eq_refl (Some (@Waiting TreeJson.lib))).
  - exists x1, x2, x3. split; [exact H1|]. split; [exact H2|]. split; [exact H3|exact H4].
Defined.

(** What the [status] command answers on this server, and its text. *)
Local Abbreviation status_command :=
  (executeCommand no_cancel run_ok list_json in_order (command_handlers_ demo_server) demo_env "status" export_params).

Definition status_reply : json := response_error "Task not found".

Definition status_text : string := match json_dump status_reply with Ret s => s | _ => "" end.

Lemma status_run : status_command (s_core demo_server) = (Ret status_reply, (status_command (s_core demo_server)).2).
Proof.
  refine (run_pair status_command (s_core demo_server) (Ret status_reply) _).
  vm_cast_no_check (eq_refl (Ret status_reply)).
Qed.


(** ** The program *)

Definition demo_options : options := mkOptions false "0.0.0.0" 8080 4 "db" None None.

Definition demo_make (o : options) (s : sys) : outcome server :=
  Ret (new_TCPServer metrics_json
    (mkCli _ (mkWorld ∅ ∅ new_QueueManager) (disk s) (obj s) (replicate 32 demo_storage) 0 (next_id s) ∅)).

Definition no_tls (cert key : string) : M server unit := mret tt.

Definition demo_process : process := mkProcess _ _ (mkSys _ demo_files (mkStorage "" false 0) 0) None None [].

Local Abbreviation demo_main :=
  (main no_cancel run_ok list_json in_order "Allowed options" (Ret demo_options) demo_make no_tls).


(** A header without a number. *)
Definition bad_bytes : string := "Content-Length: none" +:+ header_end.

Lemma bad_length_ends_program_witness : ∃ z,
  demo_main [EAccept 0 false; EReceive 1 bad_bytes 1 1] demo_process = (Ret 1, z) ∧ released z ∧
  last (pr_output z) = Some "Error: stoul".
Proof.
  set (y := with_sys (mkSys db demo_files demo_storage 0) demo_process).
  set (srv := new_TCPServer metrics_json
    (mkCli db (mkWorld ∅ ∅ new_QueueManager) demo_files demo_storage (replicate 32 demo_storage) 0 0 ∅)).
  set (rest := ((server_start ;; demo_run [EAccept 0 false]) srv).2).
  apply (bad_length_ends_program no_cancel run_ok list_json in_order "Allowed options" (Ret demo_options) demo_make
    no_tls demo_options srv demo_process [EAccept 0 false] y 1%positive idle_session bad_bytes 1 1 "stoul" rest).
  - reflexivity.
  - reflexivity.
  - vm_cast_no_check (eq_refl (Ret true, y)).
  - reflexivity.
  - reflexivity.
  - refine (run_pair (server_start ;; demo_run [EAccept 0 false]) srv (Ret tt) _). by vm_compute.
  - by vm_compute.
  - reflexivity.
  - reflexivity.
  - by vm_compute.
Defined.
